(* ===== verification/_CoqProject ===== *)
-Q . S2P
Prelude.v
Text.v
Metrics.v
Storage.v
Errors.v
Resp.v
RespTheory.v
RespProps.v
Command.v
Apply.v
RaftLog.v
RaftState.v
RaftNode.v
NodeTheory.v
NodeProps.v
Roles.v
Bounds.v
Widths.v
Replication.v
ElectionSpec.v
Election.v
Network.v
LogMatching.v
StepFacts.v
Safety.v
SafetyProof.v
Agreement.v
Liveness.v
Compaction.v
Transparency.v
Shipping.v
Peer.v
Server.v
ServerTheory.v
Turns.v
Cluster.v
Replicas.v
Convergence.v
ServerProps.v
Durability.v
Linearization.v
Sim.v
Client.v
ClientProps.v
Sessions.v
Service.v
Config.v
UnitTests.v
Boot.v
