(* ===== verification/Prelude.v ===== *)
(** * ferrium: a verification development

    ferrium ([src/src/]) is a replicated key-value store: clients speak RESP2
    to a node, writes go through a Raft log shared by the nodes, reads are
    served from the node's own store. This library holds executable
    definitions of the program and theorems about them.

    ** The program and its parts

    A client connection ([net/client.rs]) decodes frames from its socket
    ([protocol/resp.rs]), turns each into a command ([protocol/command.rs]) and
    answers it: reads from the storage engine ([storage/]), writes and status
    requests through the driver task ([server.rs]). The driver owns the
    consensus core, a [RaftNode] ([raft/node.rs]) with its log ([raft/log.rs]):
    it feeds the node ticks, peer messages and proposals, and after each of
    them drains its outputs. Messages go to the peers ([net/peer.rs]),
    committed commands are applied to the store ([apply.rs]), the clients
    waiting for them are answered, gauges are updated ([metrics.rs]).
    [server::run] starts all this from a configuration ([config.rs]). The
    simulator ([sim.rs]) drives whole clusters without the driver.

    ** The files

    - [Prelude]: bytes, wrapping [u64], iteration order of a [HashMap], list
      lemmas. [Text]: the parts of Rust's [std] for strings (UTF-8, lossy
      conversion, decimal numbers).
    - [Storage] ([storage/engine.rs], [storage/memory.rs]): the class
      [StorageEngine] is the trait, [EngineLaws] what it promises, and
      [MemoryEngine] an instance of both; clients are proved for any engine.
    - [Errors] ([error.rs]); [Apply] ([apply.rs]): [WriteCommand], its encoding
      over a [Json] class for [serde_json], its effect on a store.
    - [Metrics] ([metrics.rs]): counters, gauges, the exposition text.
    - [Resp], [RespTheory], [RespProps] ([protocol/resp.rs]): the decoder as a
      parser monad on a cursor, with its three failures (incomplete, invalid,
      panic of [Vec::with_capacity]). [Command] ([protocol/command.rs]).
    - [RaftLog] ([raft/log.rs]), [RaftState] ([raft/message.rs],
      [raft/state.rs]), [RaftNode] ([raft/node.rs]): the log, the messages and
      the node; each method is a state transformer under the name it has in the
      source, a field assignment [self.f = v] is [set_f v]. [NodeTheory] holds
      the node's invariant and equations, [NodeProps] its theorems, [Roles]
      what backs its role, [Bounds] the theorems about its timers and its
      memory, [Widths] the typing of its numbers, [Replication] what two nodes
      do to each other.
    - [ElectionSpec]: an abstract voting protocol (ballots and views) with its
      agreement theorem. [Election]: every operation of a node implements its
      steps. [Network]: the cluster over an unreliable network, and the
      disciplines a run may be held to.
    - [LogMatching]: the chronicle of a run (the log of each term's leader) and
      log matching. [StepFacts]: what one operation can do to votes, tallies,
      logs, commit indices, progress and messages. [Safety]: the record of a
      run (logs at elections, candidacies and votes; acknowledgements), the
      invariant [safe] about it, leader completeness. [SafetyProof]: every
      operation keeps it. [Agreement]: the theorems for runs.
    - [Liveness]: how a run goes on from any state, a round at a time: a
      campaign, catching a follower up, a commit. [Compaction]: the relation
      between a node and its counterpart that never compacts, kept by every
      operation; [Transparency]: the same for runs. [Shipping]: runs that ship
      snapshots, beside the same run with whole logs, in which installing a
      snapshot is appending what it covers.
    - [Peer] ([net/peer.rs]): frames, receiving loop, reconnecting sender.
    - [Server], [ServerTheory], [ServerProps] ([server.rs]): the [Driver]; a
      turn of [Driver::run] is [turn], a run a list of events in any order.
      [Turns]: a turn in pieces, each access to the store and each answer by
      itself, for what runs beside the driver ([turn_in_jobs]).
      [Cluster]: several drivers with their stores on that network,
      [Replicas]: when their nodes compact. [Convergence]: when they ship
      snapshots. [Durability]: what an acknowledgment means for the whole
      cluster. [Linearization]: the ledger of
      a run, which client's write each log entry is, and the order of all
      writes.
    - [Client], [ClientProps] ([net/client.rs]): a connection over the chunks
      its socket returns; waiting for a commit runs the driver's next events.
      [Sessions]: any number of connections beside the drivers of a cluster,
      each suspended while it waits ([dispatch_resume] relates the two), all
      interleaved access by access. [Service]: what their clients see.
    - [Sim] ([sim.rs]); [Config] ([config.rs]); [Boot] ([main.rs], [run] and
      the small loops of [server.rs], [Peers::start]): from configurations to
      a [Cluster].
    - [UnitTests]: the repository's unit and simulation tests on the model.

    ** What the theorems show

    - One node: the invariant of [NodeProps.node_invariant] (indices ordered
      and below [2^64], commit within the log, applied up to commit); a leader or
      candidate has the votes and the records its role stands for
      ([roles_backed]); the commit rule picks the highest index of the
      current term on a majority; what is delivered to the state machine is
      the committed commands in order, once; votes; terms; a leader only
      appends; a single node elects itself and commits what it is given;
      timers stay within the configured range and a silent node campaigns in
      time ([timers_bounded]); the entries a drained node retains are fewer
      than the threshold plus the uncommitted ones ([retention_bounded]).
    - Two nodes: an accepted append makes the follower's log agree with the
      leader's ([splice] refines a merge of suffixes); a rejected one makes the
      leader back up; a snapshot transfer makes the stores agree.
    - A cluster, for every schedule of ticks, deliveries (late, repeated,
      reordered, lost), proposals and drains: [election_safety], at most one
      leader per term; [log_matching]; [leader_completeness], a leader has
      what was committed before; [state_machine_safety], no two nodes ever
      commit different entries at an index; [committed_prefix_stable], what a
      node has committed stays in its log; [delivered_prefix], all drivers are
      handed the same sequence of commands.
    - A cluster of drivers is a run of the network, in which each drain carries
      the sender's store at that moment ([cluster_refines_network]), and is what servers configured for each other start as
      ([configured_cluster_fresh]). The writes of all clients are linearizable
      and every store, between the turns of its driver, is the result of a
      first part of the one order of writes ([writes_linearizable]); a write acknowledged by a
      leading server is in the log of every later leader and in every store
      that has reached its index ([acknowledged_write_durable]).
    - The service: what all clients see together is explained by one order of
      their writes, so of the accesses to a store that these make. Each GET
      reads a first part of the accesses that only grows at its server; it can
      fall between the accesses of a DEL of several keys
      ([clients_see_one_order]). Reads are not linearizable, not even at
      a leader ([stale_leader_read]).
    - Progress: from every state of a faithful run there is a continuation that
      elects a leader, commits a new command on all nodes and delivers it
      ([cluster_makes_progress]). That some schedule does so is all an
      asynchronous network allows; no fairness is assumed.
    - Compaction: a run of nodes that compact is, operation by operation, a run
      of nodes that do not, with the same packets and the same deliveries
      ([compaction_transparent]), hence the nodes agree
      ([compaction_agreement]) and one history explains all stores
      ([compacting_replicas_consistent]).
    - Snapshots: nodes that are brought up to date by snapshots agree with the
      others on everything committed ([snapshot_agreement]) and hand over one
      history of commands, less what their snapshots cover
      ([snapshots_explained]); the stores converge to it, although a restored
      store may be ahead of its node ([stores_converge]).
    - What these need, as the [discipline] of the run. [Voting] (election
      safety): no node handles a vote request of a term in which it already
      follows a leader without its own vote. [Quiet] (log matching): moreover
      nothing is compacted, no snapshot is sent and no log reaches the last [u64]
      index. [Faithful] (the rest):
      moreover a node that accepts an append keeps no entries beyond it, unless
      its last entry is of the leader's term. [Compacting] (compaction): as
      [Faithful], but logs may be compacted, as long as no snapshot is shipped
      and appends start above their receiver's snapshot point, or at it and
      agree with it. [Shipping]
      (snapshots): as [Compacting], but snapshots are shipped, each with the term
      of its last entry, and installed by nodes whose log does not reach beyond
      them. The code does not enforce them: without [Voting] it elects two
      leaders in a term, with [Quiet] but not [Faithful] two nodes commit
      different commands, and so they do when a late snapshot is installed
      ([two_leaders_reachable], [divergent_commits_reachable],
      [late_snapshot_loses_commit]): these are runs that evaluate. A discipline
      is a condition on each operation of the run, which can be evaluated; runs
      that obey it are the witnesses.
    - The driver: every proposal is in exactly one place, waiting or answered;
      an acknowledged write of a leader is in the store; the gauges follow the
      node. What fails: a waiter is told of the commit of another's command
      ([lost_write_acknowledged]).
    - The edge: the decoder inverts the encoder, takes nothing of an incomplete
      frame, gives the same answer whatever arrives later; requests of a
      connection are answered in order, however the bytes are cut; a
      connection ends; a one-node server behaves as a map; a peer link
      delivers a subsequence of what it is given.
    - The simulator: each simulation is a run of the network of [Network].
    - Two checks of the model, not claims about the program: no operation
      leaves [u64] ([widths_preserved]), and the repository's tests pass on it
      ([unit_tests_pass]).

    ** Conventions

    A [u64] is an [N] and the wrapping additions are written [+w]; a theorem
    that needs the absence of overflow says so, mostly as part of the node's
    invariant (indices below [2^64 - 1]). Strings are byte strings. Recursion
    that is not structural takes fuel: the length of what is left of the input
    for [line_loop], [decode_fuel] for nested frames, the committed distance
    for [apply_loop], bytes plus reads for a connection, bytes for
    [read_connection]; each consumes at least one unit per round, and
    [decode_monotone], [connection_terminates] and the lemmas of [apply_loop]
    show that the fuel is never exhausted.

    Parameters stand for what is not in the repository: the generator [Rng],
    the order of a [HashMap], [serde_json], the sizes of allocations ([Alloc]),
    [Debug] texts of error messages, socket addresses. A concrete instance of
    each is used by the examples.

    ** Not modelled

    Sockets, tasks and timers of tokio (their effects are events, accepted
    streams and chunks; [bind] is a parameter), the parsing of flags by [clap],
    logging, the probe of the seed node, benches and scripts; the native stack
    and the allocator. The lock of the memory engine is the atomicity of its
    operations: each is one step among those of the other tasks. The answers
    to the channels of one index are sent in one step, and so are the gauges
    and the failing of waiters at the end of a turn.

    ** Left open

    Runs in which an append starts below the receiver's snapshot point, which
    the node rejects, or a snapshot carries another term than its last entry's,
    after which the follower rejects what follows ([snapshot_term_livelock]):
    neither is covered by the theorems about snapshots. The linearizability of
    writes and the service of clients are proved for runs that do not compact. *)

From stdpp Require Export prelude gmap strings.
From Stdlib Require Export Strings.Byte.

(** ** Bytes and strings

    A Rust [String] is a [string] (its UTF-8 bytes); [Vec<u8>], [Bytes] and
    [&[u8]] are lists of bytes. *)

Abbreviation bytes := (list Byte.byte).

#[export] Instance byte_eq_dec : EqDecision Byte.byte := Byte.byte_eq_dec.

(** [s.as_bytes()] / [String::into_bytes] and the inverse view. *)
Definition as_bytes (s : string) : bytes := String.list_byte_of_string s.
Definition of_bytes (b : bytes) : string := String.string_of_list_byte b.

Lemma as_of_bytes b : as_bytes (of_bytes b) = b.
Proof. apply String.list_byte_of_string_of_list_byte. Qed.

Lemma of_as_bytes s : of_bytes (as_bytes s) = s.
Proof. apply String.string_of_list_byte_of_string. Qed.

Lemma of_bytes_inj b1 b2 : of_bytes b1 = of_bytes b2 → b1 = b2.
Proof. intros H. by rewrite <-(as_of_bytes b1), H, as_of_bytes. Qed.

Lemma as_bytes_inj s1 s2 : as_bytes s1 = as_bytes s2 → s1 = s2.
Proof. intros H. by rewrite <-(of_as_bytes s1), H, of_as_bytes. Qed.

Lemma as_bytes_app s1 s2 : as_bytes (s1 +:+ s2) = as_bytes s1 ++ as_bytes s2.
Proof.
  unfold as_bytes, String.list_byte_of_string.
  induction s1 as [|a s1 IH]; [done|]. exact (f_equal (cons _) IH).
Qed.

(** ** Machine integers

    A [u64] is an [N]; addition and subtraction wrap at [2^64], as in the
    release profile (no overflow checks). *)

Definition two64 : N := 18446744073709551616.
Definition u64_max : N := 18446744073709551615.

Definition wadd (a b : N) : N := (a + b) `mod` two64.
Definition wsub (a b : N) : N := (a + (two64 - b `mod` two64)) `mod` two64.

Declare Scope u64_scope.
Delimit Scope u64_scope with u64.
Infix "+w" := wadd (at level 50, left associativity) : u64_scope.
Infix "-w" := wsub (at level 50, left associativity) : u64_scope.

Definition i64_min : Z := -9223372036854775808.
Definition i64_max : Z := 9223372036854775807.

(** [x as i64] for an unsigned source: two's complement reinterpretation. *)
Definition as_i64 (x : N) : Z :=
  let m := Z.of_N (x `mod` two64) in
  if decide (m <= i64_max)%Z then m else (m - 18446744073709551616)%Z.

(** [vec.len()] seen as a 64-bit number. *)
Definition len64 {A} (l : list A) : N := N.of_nat (length l).

Create Rewrite HintDb ferrium.

Lemma wadd_small a b : (a + b < two64)%N → wadd a b = (a + b)%N.
Proof. intros. unfold wadd. by apply N.mod_small. Qed.

Lemma wsub_small a b : (b ≤ a)%N → (a < two64)%N → wsub a b = (a - b)%N.
Proof.
  intros Hle Hlt. unfold wsub. rewrite (N.mod_small b) by lia.
  replace (a + (two64 - b))%N with ((a - b) + 1 * two64)%N by lia.
  rewrite N.Div0.mod_add. apply N.mod_small. lia.
Qed.

Lemma wsub_0_r a b : wsub (wsub a 0) b = wsub a b.
Proof.
  unfold wsub. rewrite (N.Div0.mod_0_l two64), N.sub_0_r.
  replace (a + two64)%N with (a + 1 * two64)%N by lia.
  by rewrite N.Div0.mod_add, N.Div0.add_mod_idemp_l.
Qed.

Lemma wadd_lt a b : (wadd a b < two64)%N.
Proof. unfold wadd. apply N.mod_upper_bound. unfold two64. lia. Qed.

Lemma as_i64_small x : (Z.of_N x <= i64_max)%Z → as_i64 x = Z.of_N x.
Proof.
  unfold as_i64, i64_max. intros H.
  rewrite N.mod_small by (unfold two64; lia).
  rewrite decide_True by done. done.
Qed.

Lemma len64_app {A} (l1 l2 : list A) : len64 (l1 ++ l2) = (len64 l1 + len64 l2)%N.
Proof. unfold len64. rewrite length_app. lia. Qed.

#[export] Hint Rewrite @len64_app @as_of_bytes of_as_bytes : ferrium.

(** ** Iteration order of a [HashMap]

    The standard library leaves it unspecified (and randomises it), so the
    order is a parameter; the only law is that it enumerates the map. *)
Class HashIter (K V : Type) `{Countable K} := {
  hash_iter : gmap K V → list (K * V);
  hash_iter_perm m : hash_iter m ≡ₚ map_to_list m;
}.

(** A concrete order, used by the examples. *)
Definition canonical_iter {K V} `{Countable K} : HashIter K V :=
  {| hash_iter := map_to_list; hash_iter_perm m := reflexivity (map_to_list m) |}.

(** ** The largest binding of a map *)
Lemma map_max `{Countable K} {A} (f : A → N) (m : gmap K A) :
  m = ∅ ∨ ∃ i x, m !! i = Some x ∧ ∀ j y, m !! j = Some y → (f y ≤ f x)%N.
Proof.
  induction m as [|k v m Hk IH] using map_ind; [by left|right].
  assert (∀ i x, m !! i = Some x → (∀ j y, m !! j = Some y → (f y ≤ f x)%N) →
    ∃ i x, <[k := v]> m !! i = Some x ∧ ∀ j y, <[k := v]> m !! j = Some y → (f y ≤ f x)%N) as Hstep.
  { intros i x Hi Hmax. destruct (N.le_ge_cases (f v) (f x)) as [Hle|Hle].
    - exists i, x. rewrite lookup_insert_ne by congruence. split; [done|].
      intros j y [[_ <-]|[_ Hj]]%lookup_insert_Some; [done|by eapply Hmax].
    - exists k, v. rewrite lookup_insert_eq. split; [done|].
      intros j y [[_ <-]|[_ Hj]]%lookup_insert_Some; [done|]. etrans; [by eapply Hmax|done]. }
  destruct IH as [->|(i & x & Hi & Hmax)]; [|by eapply Hstep].
  exists k, v. rewrite lookup_insert_eq. split; [done|].
  intros j y [[_ <-]|[_ Hj]]%lookup_insert_Some; [done|]. by rewrite lookup_empty in Hj.
Qed.

(** A list chosen element by element. *)
Lemma list_choice {A B} (P : nat → A → B → Prop) (l : list A) :
  (∀ k x, l !! k = Some x → ∃ y, P k x y) →
  ∃ ys, length ys = length l ∧ ∀ k x, l !! k = Some x → ∃ y, ys !! k = Some y ∧ P k x y.
Proof.
  induction l as [|x l IH] using rev_ind; intros HP.
  { exists []. split; [done|]. intros k y Hk. by rewrite lookup_nil in Hk. }
  destruct IH as (ys & Hlen & Hys).
  { intros k y Hk. apply HP. by apply lookup_app_l_Some. }
  destruct (HP (length l) x) as [y Hy]; [rewrite lookup_app_r by lia; by rewrite Nat.sub_diag|].
  exists (ys ++ [y]). split; [rewrite !length_app; cbn; lia|].
  intros k z [Hk|[Hle Hk]]%lookup_app_Some.
  - destruct (Hys k z Hk) as (w & Hw & ?). exists w. split; [by apply lookup_app_l_Some|done].
  - apply list_lookup_singleton_Some in Hk as [Hk <-]. assert (k = length l) as -> by lia.
    exists y. rewrite lookup_app_r by lia. by rewrite Hlen, Nat.sub_diag.
Qed.

(** Of two properties one holds of some element, or the other of all. *)
Lemma list_some_or_all {A} (P Q : A → Prop) (l : list A) :
  (∀ x, x ∈ l → P x ∨ Q x) → (∃ x, x ∈ l ∧ P x) ∨ ∀ x, x ∈ l → Q x.
Proof.
  induction l as [|x l IH]; intros Hpq; [right; by intros x ?%not_elem_of_nil|].
  destruct (Hpq x) as [Hx|Hx]; [by left|left; exists x; by split; [left|]|].
  destruct IH as [(y & Hy & ?)|Hall]; [intros y Hy; apply Hpq; by right| |].
  - left. exists y. by split; [right|].
  - right. by intros y [->|Hy]%elem_of_cons; [|apply Hall].
Qed.

Lemma filter_all {A} (P : A → Prop) `{!∀ x, Decision (P x)} (l : list A) :
  (∀ x, x ∈ l → P x) → filter P l = l.
Proof.
  induction l as [|x l IH]; intros HP; [done|]. rewrite filter_cons_True by (apply HP; by left).
  by rewrite IH by (intros y Hy; apply HP; by right).
Qed.

(** ** Updating a list by index *)

Lemma list_alter_insert {A} (f : A → A) (i : nat) (l : list A) x :
  l !! i = Some x → alter f i l = <[i := f x]> l.
Proof. revert i. induction l as [|y l IH]; intros [|i]; intros; simplify_eq/=; f_equal; eauto. Qed.

Lemma list_alter_none {A} (f : A → A) (i : nat) (l : list A) : l !! i = None → alter f i l = l.
Proof. revert i. induction l as [|y l IH]; intros [|i]; intros; simplify_eq/=; f_equal; eauto. Qed.

(** What every step of a loop keeps, the loop keeps. *)
Lemma foldl_keeps {A B C} (g : A → C) (f : A → B → A) (l : list B) a :
  (∀ a b, g (f a b) = g a) → g (foldl f a l) = g a.
Proof. intros Hf. revert a. induction l as [|b l IH]; intros a; [done|]. cbn. by rewrite IH, Hf. Qed.

(** A loop over distinct indices updates what belongs to index [i] once. *)
Lemma foldl_target {A B} (g : A → B) (h : B → B) (f : A → nat → A) (i : nat) (l : list nat) a :
  (∀ a j, g (f a j) = if decide (j = i) then h (g a) else g a) → NoDup l →
  g (foldl f a l) = if decide (i ∈ l) then h (g a) else g a.
Proof.
  intros Hf Hnd. revert a. induction Hnd as [|j l Hj _ IH]; intros a; cbn [foldl].
  - rewrite decide_False; [done|apply not_elem_of_nil].
  - rewrite IH, Hf. destruct (decide (j = i)) as [->|Hne].
    + rewrite (decide_False (P := i ∈ l)), decide_True by (done || set_solver). done.
    + destruct (decide (i ∈ l)); [rewrite decide_True|rewrite decide_False]; set_solver.
Qed.
