(* ===== verification/Text.v ===== *)
(** * Text: UTF-8, decimal numbers, ASCII case

    The parts of Rust's [std] that the protocol code relies on, on bytes:
    [str::from_utf8], [String::from_utf8_lossy], [str::to_ascii_uppercase],
    [i64::from_str], [to_string] of integers and the [Debug] rendering of a
    byte slice. *)

From Stdlib Require Import Numbers.DecimalN Init.Decimal.
From S2P Require Import Prelude.
Local Open Scope N_scope.

(** ** UTF-8 *)

(** The ranges the continuation bytes must lie in after the first byte of a
    character; [None] when no character starts with that byte. *)
Definition continuation : N * N := (128, 191).

Definition lead (b : Byte.byte) : option (list (N * N)) :=
  let n := Byte.to_N b in
  if n <? 128 then Some []
  else if n <? 194 then None
  else if n <? 224 then Some [continuation]
  else if n =? 224 then Some [(160, 191); continuation]
  else if n <? 237 then Some [continuation; continuation]
  else if n =? 237 then Some [(128, 159); continuation]
  else if n <? 240 then Some [continuation; continuation]
  else if n =? 240 then Some [(144, 191); continuation; continuation]
  else if n <? 244 then Some [continuation; continuation; continuation]
  else if n =? 244 then Some [(128, 143); continuation; continuation]
  else None.

Definition in_range (b : Byte.byte) (r : N * N) : bool :=
  (r.1 <=? Byte.to_N b) && (Byte.to_N b <=? r.2).

(** [str::from_utf8(b).is_ok()], started inside a character that still needs
    bytes in the ranges [expect]. *)
Fixpoint utf8_from (expect : list (N * N)) (b : bytes) : bool :=
  match b with
  | [] => match expect with [] => true | _ => false end
  | x :: b =>
      match expect with
      | [] => match lead x with Some expect => utf8_from expect b | None => false end
      | r :: expect => if in_range x r then utf8_from expect b else false
      end
  end.

Definition from_utf8 (b : bytes) : option string :=
  if utf8_from [] b then Some (of_bytes b) else None.

(** U+FFFD *)
Definition replacement : bytes := [xef; xbf; xbd].

(** [String::from_utf8_lossy]: every maximal ill-formed piece becomes one
    replacement character. [acc] holds the bytes of the character being read. *)
Fixpoint lossy_from (acc : bytes) (expect : list (N * N)) (b : bytes) : bytes :=
  match b with
  | [] => match acc with [] => [] | _ => replacement end
  | x :: b =>
      let start :=
        match lead x with
        | Some [] => x :: lossy_from [] [] b
        | Some expect => lossy_from [x] expect b
        | None => replacement ++ lossy_from [] [] b
        end in
      match expect with
      | [] => start
      | r :: expect =>
          if in_range x r then
            match expect with
            | [] => (acc ++ [x]) ++ lossy_from [] [] b
            | _ => lossy_from (acc ++ [x]) expect b
            end
          else replacement ++ start
      end
  end.

Definition from_utf8_lossy (b : bytes) : string := of_bytes (lossy_from [] [] b).

(** Every [String] satisfies this. *)
Definition valid_string (s : string) : bool := utf8_from [] (as_bytes s).

Lemma lossy_valid acc expect b :
  utf8_from expect b = true → (acc = [] ↔ expect = []) → lossy_from acc expect b = acc ++ b.
Proof.
  revert acc expect. induction b as [|x b IH]; intros acc expect Hv Hacc; cbn in *.
  { destruct expect; [|done]. by rewrite (proj2 Hacc eq_refl). }
  destruct expect as [|r expect].
  - rewrite (proj2 Hacc eq_refl). destruct (lead x) as [[|r e]|]; [| |done].
    + by rewrite IH.
    + by rewrite IH.
  - destruct (in_range x r); [|done]. destruct expect as [|r' e].
    + rewrite IH by done. by rewrite <-app_assoc.
    + rewrite IH; [by rewrite <-app_assoc|done|].
      split; [by destruct acc|done].
Qed.

Lemma lossy_from_valid acc expect b :
  (∀ b', utf8_from [] (acc ++ b') = utf8_from expect b') →
  utf8_from [] (lossy_from acc expect b) = true.
Proof.
  assert (∀ b', utf8_from [] (replacement ++ b') = utf8_from [] b') as Hrep by done.
  revert acc expect. induction b as [|x b IH]; intros acc expect Hst; cbn [lossy_from].
  { by destruct acc. }
  set (start := match lead x with Some [] => _ | Some _ => _ | None => _ end).
  assert (utf8_from [] start = true) as Hstart.
  { subst start. destruct (lead x) as [[|r e]|] eqn:Hl.
    - cbn. rewrite Hl. by apply IH.
    - apply IH. intros b'. cbn. by rewrite Hl.
    - rewrite Hrep. by apply IH. }
  destruct expect as [|r expect]; [done|].
  destruct (in_range x r) eqn:Hr; [|by rewrite Hrep].
  assert (∀ b', utf8_from [] ((acc ++ [x]) ++ b') = utf8_from expect b') as Hst'.
  { intros b'. rewrite <-app_assoc, Hst. cbn. by rewrite Hr. }
  destruct expect as [|r' e]; [rewrite Hst'; by apply IH|by apply IH].
Qed.

Lemma utf8_from_app e b1 b2 :
  utf8_from e b1 = true → utf8_from [] b2 = true → utf8_from e (b1 ++ b2) = true.
Proof.
  intros H1 H2. revert e H1. induction b1 as [|x b1 IH]; intros e H1; cbn in *.
  { by destruct e. }
  destruct e as [|r e].
  - destruct (lead x); [by apply IH|done].
  - destruct (in_range x r); [by apply IH|done].
Qed.

Lemma from_utf8_lossy_valid b : valid_string (from_utf8_lossy b) = true.
Proof.
  unfold valid_string, from_utf8_lossy. rewrite as_of_bytes. by apply lossy_from_valid.
Qed.

Lemma from_utf8_lossy_id b : utf8_from [] b = true → from_utf8_lossy b = of_bytes b.
Proof. intros Hv. unfold from_utf8_lossy. by rewrite lossy_valid. Qed.

Lemma from_utf8_Some b s : from_utf8 b = Some s ↔ utf8_from [] b = true ∧ as_bytes s = b.
Proof.
  unfold from_utf8. destruct (utf8_from [] b) eqn:Hv; split; try naive_solver.
  - intros [= <-]. by rewrite as_of_bytes.
  - intros [_ <-]. by rewrite of_as_bytes.
Qed.

(** ** ASCII case *)

Definition upper_byte (b : Byte.byte) : Byte.byte :=
  let n := Byte.to_N b in
  if (97 <=? n) && (n <=? 122) then default b (Byte.of_N (n - 32)) else b.

Definition to_ascii_uppercase (s : string) : string := of_bytes (upper_byte <$> as_bytes s).

Lemma upper_byte_idemp b : upper_byte (upper_byte b) = upper_byte b.
Proof. by destruct b. Qed.

Lemma to_ascii_uppercase_idemp s :
  to_ascii_uppercase (to_ascii_uppercase s) = to_ascii_uppercase s.
Proof.
  unfold to_ascii_uppercase. rewrite as_of_bytes. f_equal.
  rewrite <-list_fmap_compose. apply list_fmap_ext. intros i b _. apply upper_byte_idemp.
Qed.

(** ** Decimal numbers *)

Fixpoint uint_bytes (d : uint) : bytes :=
  match d with
  | Nil => []
  | D0 d => x30 :: uint_bytes d
  | D1 d => x31 :: uint_bytes d
  | D2 d => x32 :: uint_bytes d
  | D3 d => x33 :: uint_bytes d
  | D4 d => x34 :: uint_bytes d
  | D5 d => x35 :: uint_bytes d
  | D6 d => x36 :: uint_bytes d
  | D7 d => x37 :: uint_bytes d
  | D8 d => x38 :: uint_bytes d
  | D9 d => x39 :: uint_bytes d
  end.

Definition digit (b : Byte.byte) : option (uint → uint) :=
  match b with
  | x30 => Some D0 | x31 => Some D1 | x32 => Some D2 | x33 => Some D3 | x34 => Some D4
  | x35 => Some D5 | x36 => Some D6 | x37 => Some D7 | x38 => Some D8 | x39 => Some D9
  | _ => None
  end.

Fixpoint bytes_uint (b : bytes) : option uint :=
  match b with
  | [] => Some Nil
  | x :: b => d ← digit x; rest ← bytes_uint b; Some (d rest)
  end.

(** [n.to_string()] *)
Definition N_to_bytes (n : N) : bytes := uint_bytes (N.to_uint n).

Definition Z_to_bytes (z : Z) : bytes :=
  if (z <? 0)%Z then x2d :: N_to_bytes (Z.to_N (- z)) else N_to_bytes (Z.to_N z).

(** [s.parse::<i64>()]: an optional sign, then at least one digit; [None] also
    when the value does not fit. *)
Definition parse_digits (b : bytes) : option N :=
  match b with
  | [] => None
  | _ => N.of_uint <$> bytes_uint b
  end.

Definition in_i64 (z : Z) : bool := (i64_min <=? z)%Z && (z <=? i64_max)%Z.

Definition parse_i64 (b : bytes) : option Z :=
  z ← match b with
      | x2d :: b => (λ n, - Z.of_N n)%Z <$> parse_digits b
      | x2b :: b => Z.of_N <$> parse_digits b
      | _ => Z.of_N <$> parse_digits b
      end;
  if in_i64 z then Some z else None.

(** [format!("{line:?}")] of a byte slice. *)
Fixpoint join (sep : bytes) (parts : list bytes) : bytes :=
  match parts with
  | [] => []
  | [p] => p
  | p :: parts => p ++ sep ++ join sep parts
  end.

Definition debug_bytes (b : bytes) : bytes :=
  [x5b] ++ join [x2c; x20] (N_to_bytes ∘ Byte.to_N <$> b) ++ [x5d].

Lemma bytes_uint_of d : bytes_uint (uint_bytes d) = Some d.
Proof. induction d; cbn; rewrite ?IHd; done. Qed.

Lemma N_to_bytes_head n : ∃ x b, N_to_bytes n = x :: b ∧ is_Some (digit x).
Proof.
  unfold N_to_bytes. destruct (N.to_uint n) eqn:Hd; cbn; eauto.
  exfalso. pose proof (Unsigned.of_to n) as Hn. rewrite Hd in Hn. cbn in Hn. by subst n.
Qed.

Lemma parse_digits_to n : parse_digits (N_to_bytes n) = Some n.
Proof.
  destruct (N_to_bytes_head n) as (x & b & Hb & _). unfold parse_digits. rewrite Hb, <-Hb.
  unfold N_to_bytes. rewrite bytes_uint_of. cbn. by rewrite Unsigned.of_to.
Qed.

Lemma parse_i64_unsigned x b :
  is_Some (digit x) → parse_i64 (x :: b) =
  (z ← Z.of_N <$> parse_digits (x :: b); if in_i64 z then Some z else None).
Proof. intros [d Hd]. by destruct x. Qed.

Lemma parse_Z_to_bytes z : in_i64 z = true → parse_i64 (Z_to_bytes z) = Some z.
Proof.
  intros Hz. unfold Z_to_bytes. destruct (Z.ltb_spec z 0).
  - unfold parse_i64. rewrite parse_digits_to. cbn [fmap option_fmap option_map mbind option_bind].
    rewrite Z2N.id, Z.opp_involutive by lia. by rewrite Hz.
  - destruct (N_to_bytes_head (Z.to_N z)) as (x & b & Hb & Hx). rewrite Hb.
    rewrite parse_i64_unsigned by done. rewrite <-Hb, parse_digits_to.
    cbn [fmap option_fmap option_map mbind option_bind]. rewrite Z2N.id by lia. by rewrite Hz.
Qed.

(** Digits and signs: neither CR nor LF, and ASCII. *)
Definition numeric (b : Byte.byte) : bool :=
  let n := Byte.to_N b in (n =? 45) || ((48 <=? n) && (n <=? 57)).

Lemma uint_bytes_numeric d : forallb numeric (uint_bytes d) = true.
Proof. induction d; cbn; done. Qed.

Lemma Z_to_bytes_numeric z : forallb numeric (Z_to_bytes z) = true.
Proof. unfold Z_to_bytes. destruct (_ <? _)%Z; [cbn|]; apply uint_bytes_numeric. Qed.

Lemma numeric_utf8 b : forallb numeric b = true → utf8_from [] b = true.
Proof.
  induction b as [|x b IH]; cbn; [done|]. intros [Hx Hb]%andb_true_iff.
  assert (lead x = Some []) as ->; [|by apply IH].
  unfold numeric, lead in *. destruct (N.ltb_spec (Byte.to_N x) 128); [done|].
  exfalso. revert Hx. by destruct x.
Qed.

Create HintDb ferrium_text.
#[export] Hint Resolve Z_to_bytes_numeric numeric_utf8 from_utf8_lossy_valid : ferrium_text.
