(* ===== verification/Metrics.v ===== *)
(** * Metrics ([src/metrics.rs])

    The fixed set of counters and gauges and their text rendering. Each atomic
    is a field; relaxed single-word accesses are plain reads and writes. *)

From S2P Require Import Prelude Text.
Local Open Scope N_scope.
Local Open Scope u64_scope.

Record MetricsInner := mkMetrics {
  gets_total : N;
  sets_total : N;
  dels_total : N;
  not_leader_total : N;
  elections_won_total : N;
  m_current_term : N;
  m_is_leader : Z;
  m_commit_index : N;
  m_log_len : N;
}.

Definition new : MetricsInner := mkMetrics 0 0 0 0 0 0 0 0 0.

(** [fetch_add] wraps. *)
Definition incr (counter : N) : N := counter +w 1.

Definition incr_gets (m : MetricsInner) : MetricsInner :=
  mkMetrics (incr (gets_total m)) (sets_total m) (dels_total m) (not_leader_total m)
    (elections_won_total m) (m_current_term m) (m_is_leader m) (m_commit_index m) (m_log_len m).
Definition incr_sets (m : MetricsInner) : MetricsInner :=
  mkMetrics (gets_total m) (incr (sets_total m)) (dels_total m) (not_leader_total m)
    (elections_won_total m) (m_current_term m) (m_is_leader m) (m_commit_index m) (m_log_len m).
Definition incr_dels (m : MetricsInner) : MetricsInner :=
  mkMetrics (gets_total m) (sets_total m) (incr (dels_total m)) (not_leader_total m)
    (elections_won_total m) (m_current_term m) (m_is_leader m) (m_commit_index m) (m_log_len m).
Definition incr_not_leader (m : MetricsInner) : MetricsInner :=
  mkMetrics (gets_total m) (sets_total m) (dels_total m) (incr (not_leader_total m))
    (elections_won_total m) (m_current_term m) (m_is_leader m) (m_commit_index m) (m_log_len m).
Definition incr_elections_won (m : MetricsInner) : MetricsInner :=
  mkMetrics (gets_total m) (sets_total m) (dels_total m) (not_leader_total m)
    (incr (elections_won_total m)) (m_current_term m) (m_is_leader m) (m_commit_index m)
    (m_log_len m).

(** The four stores of [update_metrics]. *)
Definition set_gauges (term : N) (leader : bool) (commit log_len : N) (m : MetricsInner)
    : MetricsInner :=
  mkMetrics (gets_total m) (sets_total m) (dels_total m) (not_leader_total m)
    (elections_won_total m) term (if leader then 1%Z else 0%Z) commit log_len.

(** ** Rendering *)
Definition series (kind name : string) (value : bytes) : bytes :=
  (as_bytes "# TYPE " ++ as_bytes name ++ as_bytes " " ++ as_bytes kind) ++ [x0a] ++
  (as_bytes name ++ as_bytes " " ++ value) ++ [x0a].

Definition counters (m : MetricsInner) : list (string * N) :=
  [("ferrium_gets_total", gets_total m);
   ("ferrium_sets_total", sets_total m);
   ("ferrium_dels_total", dels_total m);
   ("ferrium_not_leader_total", not_leader_total m);
   ("ferrium_elections_won_total", elections_won_total m)].

(** [as i64]: values of [2^63] and more come out negative. *)
Definition gauges (m : MetricsInner) : list (string * Z) :=
  [("ferrium_current_term", as_i64 (m_current_term m));
   ("ferrium_is_leader", m_is_leader m);
   ("ferrium_commit_index", as_i64 (m_commit_index m));
   ("ferrium_log_entries", as_i64 (m_log_len m))].

Definition render (m : MetricsInner) : bytes :=
  concat ((λ c, series "counter" c.1 (N_to_bytes c.2)) <$> counters m) ++
  concat ((λ g, series "gauge" g.1 (Z_to_bytes g.2)) <$> gauges m).

(** ** Reading the text back

    A scraper: split into lines, and take the value after the series' name. *)
Fixpoint split_on (sep : Byte.byte) (acc : bytes) (b : bytes) : list bytes :=
  match b with
  | [] => [acc]
  | x :: b => if decide (x = sep) then acc :: split_on sep [] b else split_on sep (acc ++ [x]) b
  end.

Fixpoint strip_prefix (p b : bytes) : option bytes :=
  match p, b with
  | [], b => Some b
  | x :: p, y :: b => if decide (x = y) then strip_prefix p b else None
  | _ :: _, [] => None
  end.

Definition scrape (name : string) (text : bytes) : option bytes :=
  head (omap (strip_prefix (as_bytes name ++ [x20])) (split_on x0a [] text)).

Lemma split_on_line sep acc l b :
  forallb (λ x, bool_decide (x ≠ sep)) l = true →
  split_on sep acc (l ++ sep :: b) = (acc ++ l) :: split_on sep [] b.
Proof.
  revert acc. induction l as [|x l IH]; intros acc Hl; cbn in *.
  { by rewrite decide_True, app_nil_r. }
  apply andb_true_iff in Hl as [Hx%bool_decide_eq_true_1 Hl].
  rewrite decide_False by done. rewrite IH by done. by rewrite <-app_assoc.
Qed.

(** Printed numbers contain no line feed. *)
Lemma numeric_no_lf b :
  forallb numeric b = true → forallb (λ x, bool_decide (x ≠ x0a)) b = true.
Proof.
  induction b as [|x b IH]; cbn; [done|]. intros [Hx Hb]%andb_true_iff. rewrite IH by done.
  rewrite bool_decide_eq_true_2; [done|]. by intros ->.
Qed.

(** Two lines per series; with a [#] in front the first is skipped. *)
Lemma split_series kind name value rest :
  forallb (λ x, bool_decide (x ≠ x0a)) (as_bytes name ++ as_bytes kind) = true →
  forallb numeric value = true →
  split_on x0a [] (series kind name value ++ rest) =
    (as_bytes "# TYPE " ++ as_bytes name ++ as_bytes " " ++ as_bytes kind) ::
    (as_bytes name ++ as_bytes " " ++ value) :: split_on x0a [] rest.
Proof.
  intros Hn Hv. rewrite forallb_app in Hn. apply andb_true_iff in Hn as [Hn Hk].
  set (l1 := as_bytes "# TYPE " ++ as_bytes name ++ as_bytes " " ++ as_bytes kind).
  set (l2 := as_bytes name ++ as_bytes " " ++ value).
  assert (series kind name value ++ rest = l1 ++ x0a :: (l2 ++ x0a :: rest)) as ->.
  { unfold series. fold l1 l2. by rewrite <-!app_assoc. }
  rewrite !split_on_line; [done|..]; subst l1 l2; rewrite !forallb_app, ?Hn, ?Hk;
    [by rewrite (numeric_no_lf _ Hv)|done].
Qed.

Lemma N_to_bytes_numeric n : forallb numeric (N_to_bytes n) = true.
Proof. apply uint_bytes_numeric. Qed.

(** The value lines of a list of series, and how [scrape] sees them. *)
Definition value_line (s : string * bytes) : bytes := as_bytes s.1 ++ as_bytes " " ++ s.2.

Definition series_lines (kind : string) (s : string * bytes) : list bytes :=
  [as_bytes "# TYPE " ++ as_bytes s.1 ++ as_bytes " " ++ as_bytes kind; value_line s].

(** The lines of [render m]. *)
Definition printed_counters (m : MetricsInner) : list (string * bytes) :=
  (λ c, (c.1, N_to_bytes c.2)) <$> counters m.
Definition printed_gauges (m : MetricsInner) : list (string * bytes) :=
  (λ g, (g.1, Z_to_bytes g.2)) <$> gauges m.

Lemma split_render m :
  split_on x0a [] (render m) =
    concat (series_lines "counter" <$> printed_counters m) ++
    concat (series_lines "gauge" <$> printed_gauges m) ++ [[]].
Proof.
  unfold render, printed_counters, printed_gauges, counters, gauges.
  cbn [fmap list_fmap fst snd concat]. rewrite !app_nil_r, <-!app_assoc.
  rewrite <-(app_nil_r (series _ "ferrium_log_entries" _)).
  repeat (rewrite split_series;
    [|reflexivity|first [apply N_to_bytes_numeric|apply Z_to_bytes_numeric]]).
  reflexivity.
Qed.

(** The metrics page says what the registry holds: a scraper that looks up
    a series by name finds, for each of the five counters, digits that read
    back as its value, and for each of the four gauges its value as a signed
    64-bit number. *)
Theorem render_scrapes m :
  Forall (λ c, (scrape c.1 (render m) ≫= parse_digits) = Some c.2) (counters m) ∧
  Forall (λ g, scrape g.1 (render m) = Some (Z_to_bytes g.2)) (gauges m).
Proof.
  unfold scrape. rewrite split_render. split.
  - unfold counters. repeat (constructor; [apply parse_digits_to|]). constructor.
  - unfold gauges. repeat (constructor; [reflexivity|]). constructor.
Qed.
