(* ===== verification/Storage.v ===== *)
(** * Storage engines ([src/storage/engine.rs], [src/storage/memory.rs])

    The trait [StorageEngine] is a class of operations with its laws in
    [EngineLaws]; [MemoryEngine] is the map-backed instance and discharges
    them. *)

From S2P Require Import Prelude.

(** [type KeyValue = (String, Bytes)] *)
Definition KeyValue : Type := string * bytes.

(** The trait. Interior mutability ([&self]) becomes state passing. *)
Class StorageEngine (E : Type) := {
  get : E → string → option bytes;
  set : E → string → bytes → E;
  del : E → string → E * bool;
  len : E → nat;
  snapshot : E → list KeyValue;
  restore : E → list KeyValue → E;
}.

(** The provided method [is_empty]. *)
Definition is_empty {E} `{StorageEngine E} (e : E) : bool := bool_decide (len e = 0).

(** Contents given by a list of pairs inserted from left to right. *)
Definition replay_pairs (kvs : list KeyValue) (k : string) : option bytes :=
  foldl (λ acc kv, if decide (kv.1 = k) then Some kv.2 else acc) None kvs.

(** What an engine promises to the state machine that drives it. *)
Class EngineLaws (E : Type) `{StorageEngine E} := {
  get_set e k v k' : get (set e k v) k' = if decide (k = k') then Some v else get e k';
  get_del e k k' : get (del e k).1 k' = if decide (k = k') then None else get e k';
  del_existed e k : (del e k).2 = bool_decide (is_Some (get e k));
  snapshot_keys e : NoDup (snapshot e).*1;
  snapshot_get e k v : (k, v) ∈ snapshot e ↔ get e k = Some v;
  snapshot_len e : length (snapshot e) = len e;
  get_restore e kvs k : get (restore e kvs) k = replay_pairs kvs k;
}.

(** Two engines holding the same contents. *)
Definition same_contents {E} `{StorageEngine E} (e1 e2 : E) : Prop :=
  ∀ k, get e1 k = get e2 k.

#[export] Instance same_contents_equiv {E} `{StorageEngine E} :
  Equivalence (same_contents (E := E)).
Proof. split; unfold same_contents; repeat intro; congruence. Qed.

(** ** The in-memory engine *)
Module Memory.
(** [RwLock<HashMap<String, Bytes>>]: the lock serialises the accesses, each
    of which is one operation below. *)
Record MemoryEngine := mkMemory { map : gmap string bytes }.

Definition new : MemoryEngine := mkMemory ∅.

Section Operations.
Context `{!HashIter string bytes}.

Definition mem_get (e : MemoryEngine) (key : string) : option bytes := map e !! key.

Definition mem_set (e : MemoryEngine) (key : string) (value : bytes) : MemoryEngine :=
  mkMemory (<[key := value]> (map e)).

(** [remove(key).is_some()] *)
Definition mem_del (e : MemoryEngine) (key : string) : MemoryEngine * bool :=
  (mkMemory (delete key (map e)), bool_decide (is_Some (map e !! key))).

Definition mem_len (e : MemoryEngine) : nat := size (map e).

Definition mem_snapshot (e : MemoryEngine) : list KeyValue := hash_iter (map e).

(** [map.clear(); map.extend(entries)] *)
Definition mem_restore (e : MemoryEngine) (entries : list KeyValue) : MemoryEngine :=
  mkMemory (foldl (λ m kv, <[kv.1 := kv.2]> m) ∅ entries).

#[global] Instance memory_engine : StorageEngine MemoryEngine := {
  get := mem_get;
  set := mem_set;
  del := mem_del;
  len := mem_len;
  snapshot := mem_snapshot;
  restore := mem_restore;
}.
End Operations.
End Memory.

Section MemoryLaws.
Context `{!HashIter string bytes}.
Import Memory.

Lemma foldl_insert_lookup (kvs : list KeyValue) (m : gmap string bytes) k :
  foldl (λ m kv, <[kv.1 := kv.2]> m) m kvs !! k =
  foldl (λ acc kv, if decide (kv.1 = k) then Some kv.2 else acc) (m !! k) kvs.
Proof.
  revert m. induction kvs as [|[k' v] kvs IH]; intros m; [done|].
  simpl. rewrite IH, lookup_insert. done.
Qed.

#[global] Instance memory_laws : EngineLaws MemoryEngine.
Proof.
  split.
  - intros [m] k v k'. apply lookup_insert.
  - intros [m] k k'. apply lookup_delete.
  - done.
  - intros [m]. cbn. unfold mem_snapshot. rewrite hash_iter_perm.
    apply NoDup_fst_map_to_list.
  - intros [m] k v. cbn. unfold mem_snapshot, mem_get.
    rewrite hash_iter_perm. apply elem_of_map_to_list.
  - intros [m]. cbn. unfold mem_snapshot, mem_len.
    rewrite hash_iter_perm. apply length_map_to_list.
  - intros [m] kvs k. cbn. unfold mem_get, mem_restore. cbn.
    rewrite foldl_insert_lookup. done.
Qed.
End MemoryLaws.

(** ** Theorems, stated against the interface *)
Section SnapshotTheory.
Context {E : Type} `{EngineLaws E}.

Lemma replay_pairs_app kvs1 kvs2 k :
  replay_pairs (kvs1 ++ kvs2) k =
  match replay_pairs kvs2 k with Some v => Some v | None => replay_pairs kvs1 k end.
Proof.
  unfold replay_pairs. rewrite foldl_app.
  generalize (foldl (λ acc kv, if decide (kv.1 = k) then Some kv.2 else acc) None kvs1).
  intros acc. induction kvs2 as [|kv kvs2 IH] using rev_ind; [done|].
  rewrite !foldl_app. simpl. by destruct (decide _).
Qed.

Lemma replay_pairs_cons kv kvs k :
  replay_pairs (kv :: kvs) k =
  match replay_pairs kvs k with
  | Some v => Some v
  | None => if decide (kv.1 = k) then Some kv.2 else None
  end.
Proof. by rewrite (replay_pairs_app [kv] kvs). Qed.

(** With distinct keys the order of insertion is irrelevant. *)
Lemma replay_pairs_elem kvs k v :
  NoDup kvs.*1 → replay_pairs kvs k = Some v ↔ (k, v) ∈ kvs.
Proof.
  intros Hnd. revert v. induction kvs as [|[k' v'] kvs IH]; intros v.
  { split; [done|]. by intros ?%not_elem_of_nil. }
  apply NoDup_cons in Hnd as [Hk' Hnd]. specialize (IH Hnd).
  assert (∀ w, (k', w) ∉ kvs) as Hfresh.
  { intros w Hw. apply Hk'. apply list_elem_of_fmap. by exists (k', w). }
  rewrite replay_pairs_cons, elem_of_cons; simpl in *.
  destruct (replay_pairs kvs k) as [w|] eqn:Hw.
  - pose proof (proj1 (IH w) eq_refl). split; [naive_solver|].
    intros [[= -> ->]|Hv%IH]; [by destruct (Hfresh w)|congruence].
  - case_decide; naive_solver.
Qed.

Lemma restore_snapshot (e e' : E) : same_contents (restore e' (snapshot e)) e.
Proof.
  intros k. rewrite get_restore. apply option_eq. intros v.
  rewrite replay_pairs_elem; [apply snapshot_get|apply snapshot_keys].
Qed.

(** restoring any enumeration of a snapshot, into any engine,
    reproduces the contents it was taken from. *)
Lemma restore_permuted_snapshot (e e' : E) kvs :
  kvs ≡ₚ snapshot e → same_contents (restore e' kvs) e.
Proof.
  intros Hp k. rewrite get_restore. apply option_eq. intros v.
  rewrite replay_pairs_elem, Hp; [apply snapshot_get|].
  rewrite Hp. apply snapshot_keys.
Qed.

(** Contents determine the number of keys. *)
Lemma same_contents_len (e1 e2 : E) : same_contents e1 e2 → len e1 = len e2.
Proof.
  intros Hs. rewrite <-!snapshot_len. apply Permutation_length, NoDup_Permutation.
  1,2: eapply NoDup_fmap_1, snapshot_keys.
  intros [k v]. rewrite !snapshot_get. by rewrite (Hs k).
Qed.

#[export] Instance get_proper :
  Proper (same_contents ==> (=) ==> (=)) (get (E := E)).
Proof. intros e1 e2 He k k' ->. apply He. Qed.

#[export] Instance set_proper :
  Proper (same_contents ==> (=) ==> (=) ==> same_contents) (set (E := E)).
Proof. intros e1 e2 He k ? <- v ? <- k'. by rewrite !get_set, (He k'). Qed.

#[export] Instance len_proper : Proper (same_contents ==> (=)) (len (E := E)).
Proof. intros e1 e2. apply same_contents_len. Qed.
End SnapshotTheory.

(** ** Witness *)
Section Witness.
#[local] Existing Instance canonical_iter.

Lemma restore_permuted_snapshot_witness :
  let e := set (set Memory.new "a" []) "b" [x01] in
  same_contents (restore (set Memory.new "stale" []) (reverse (snapshot e))) e.
Proof.
  intros e. apply (restore_permuted_snapshot e). apply reverse_Permutation.
Defined.
End Witness.
