(* ===== verification/Errors.v ===== *)
(** * Crate-wide errors ([src/error.rs])

    The error type, its [Display] rendering (the [#[error("...")]] attributes)
    and the message sent to clients. *)

From S2P Require Import Prelude.
Local Open Scope string_scope.

(** [std::io::Error] is opaque to the crate: only its rendering is used. *)
Inductive Error :=
  | Io (message : string)
  | Protocol (message : string)
  | NotLeader (leader : option string)
  | UnknownCommand (command : string)
  | WrongArity (command : string)
  | Storage (message : string)
  | Cluster (message : string).

#[export] Instance Error_eq_dec : EqDecision Error.
Proof. solve_decision. Defined.

(** [Result<T>] *)
Inductive Result (T : Type) :=
  | Ok (value : T)
  | Err (error : Error).
Arguments Ok {T} value.
Arguments Err {T} error.

#[export] Instance Result_eq_dec {T} `{EqDecision T} : EqDecision (Result T).
Proof. solve_decision. Defined.

(** The [?] operator. *)
#[export] Instance Result_ret : MRet Result := @Ok.
#[export] Instance Result_bind : MBind Result := λ A B f r,
  match r with Ok a => f a | Err e => Err e end.

Lemma Result_bind_ok {A B} (r : Result A) (f : A → Result B) b :
  r ≫= f = Ok b ↔ ∃ a, r = Ok a ∧ f a = Ok b.
Proof. destruct r; split; naive_solver. Qed.

Lemma Result_bind_err {A B} (r : Result A) (f : A → Result B) e :
  r ≫= f = Err e ↔ r = Err e ∨ ∃ a, r = Ok a ∧ f a = Err e.
Proof. destruct r; split; naive_solver. Qed.

(** Evaluate fallible conversions left to right, stopping at the first error:
    [iter.collect::<Result<Vec<_>>>()]. *)
Fixpoint collect {A B} (f : A → Result B) (l : list A) : Result (list B) :=
  match l with
  | [] => Ok []
  | x :: l => y ← f x; ys ← collect f l; Ok (y :: ys)
  end.

Lemma collect_ok {A B} (f : A → Result B) l ys :
  collect f l = Ok ys ↔ Forall2 (λ x y, f x = Ok y) l ys.
Proof.
  revert ys. induction l as [|x l IH]; intros ys; simpl.
  { split; [intros [= <-]; constructor|]. by inversion 1. }
  rewrite Result_bind_ok. setoid_rewrite Result_bind_ok. setoid_rewrite IH.
  split.
  - intros (y & Hy & ys' & Hys & [= <-]). by constructor.
  - inversion 1; subst. naive_solver.
Qed.

(** [Display] *)
Definition to_string (e : Error) : string :=
  match e with
  | Io m => "io error: " +:+ m
  | Protocol m => "protocol error: " +:+ m
  | NotLeader _ => "not leader"
  | UnknownCommand c => "unknown command '" +:+ c +:+ "'"
  | WrongArity c => "wrong number of arguments for '" +:+ c +:+ "'"
  | Storage m => "storage error: " +:+ m
  | Cluster m => "cluster error: " +:+ m
  end.

Definition client_message (e : Error) : string :=
  match e with
  | NotLeader (Some leader) => "MOVED " +:+ leader
  | NotLeader None => "CLUSTERDOWN no known leader"
  | other => to_string other
  end.
