(* ===== verification/Resp.v ===== *)
(** * RESP2 framing ([src/protocol/resp.rs])

    [Frame], its encoder, the cursor and the streaming decoder, as a small
    parser monad over the cursor. *)

From S2P Require Import Prelude Text Errors.
Local Open Scope N_scope.

Inductive Frame :=
  | Simple (s : string)
  | ErrorFrame (s : string)
  | Integer (n : Z)
  | Bulk (data : bytes)
  | Null
  | Array (items : list Frame).

(** Induction through the items of an array. *)
Section FrameInd.
Context (P : Frame → Prop).
Context (HS : ∀ s, P (Simple s)) (HE : ∀ s, P (ErrorFrame s)) (HI : ∀ n, P (Integer n)).
Context (HB : ∀ d, P (Bulk d)) (HN : P Null) (HA : ∀ fs, Forall P fs → P (Array fs)).

Fixpoint Frame_ind' (f : Frame) : P f :=
  match f with
  | Simple s => HS s
  | ErrorFrame s => HE s
  | Integer n => HI n
  | Bulk d => HB d
  | Null => HN
  | Array fs => HA fs ((fix go fs : Forall P fs :=
      match fs with
      | [] => Forall_nil_2 P
      | f :: fs => Forall_cons_2 P f fs (Frame_ind' f) (go fs)
      end) fs)
  end.
End FrameInd.

Definition CRLF : bytes := [x0d; x0a].

(** ** Encoding *)
Fixpoint encode (f : Frame) (dst : bytes) : bytes :=
  match f with
  | Simple s => dst ++ [x2b] ++ as_bytes s ++ CRLF
  | ErrorFrame s => dst ++ [x2d] ++ as_bytes s ++ CRLF
  | Integer n => dst ++ [x3a] ++ Z_to_bytes n ++ CRLF
  | Bulk data => dst ++ [x24] ++ N_to_bytes (len64 data) ++ CRLF ++ data ++ CRLF
  | Null => dst ++ [x24; x2d; x31] ++ CRLF
  | Array items =>
      foldl (λ dst item, encode item dst)
        (dst ++ [x2a] ++ N_to_bytes (len64 items) ++ CRLF) items
  end.

(** ** The cursor *)
Record Cursor := mkCursor {
  buf : bytes;
  pos : nat;
}.

Inductive ParseError := Incomplete | Invalid (msg : string).

(** Parsing yields a value and the moved cursor, an error, or a panic. *)
Inductive outcome (A : Type) :=
  | Done (a : A) (c : Cursor)
  | Stop (e : ParseError)
  | Panicked
  | OutOfFuel.
Arguments Done {A} a c.
Arguments Stop {A} e.
Arguments Panicked {A}.
Arguments OutOfFuel {A}.

Definition Parser (A : Type) : Type := Cursor → outcome A.

#[export] Instance Parser_ret : MRet Parser := λ A a c, Done a c.
#[export] Instance Parser_bind : MBind Parser := λ A B f p c,
  match p c with
  | Done a c => f a c
  | Stop e => Stop e
  | Panicked => Panicked
  | OutOfFuel => OutOfFuel
  end.

Definition fail {A} (e : ParseError) : Parser A := λ _, Stop e.
Definition invalid {A} (msg : bytes) : Parser A := fail (Invalid (of_bytes msg)).

Definition u8 : Parser Byte.byte := λ c,
  match buf c !! pos c with
  | Some b => Done b (mkCursor (buf c) (S (pos c)))
  | None => Stop Incomplete
  end.

(** The loop of [line]; [fuel] is the number of bytes left. *)
Fixpoint line_loop (fuel start : nat) (c : Cursor) : outcome bytes :=
  match fuel with
  | O => Stop Incomplete
  | S fuel =>
      if decide (pos c + 1 < length (buf c))%nat then
        if decide (buf c !! pos c = Some x0d ∧ buf c !! (pos c + 1)%nat = Some x0a) then
          Done (take (pos c - start) (drop start (buf c))) (mkCursor (buf c) (pos c + 2))
        else line_loop fuel start (mkCursor (buf c) (pos c + 1))
      else Stop Incomplete
  end.

Definition line : Parser bytes := λ c, line_loop (length (buf c) - pos c) (pos c) c.

Definition take_n (n : N) : Parser bytes := λ c,
  if decide (len64 (buf c) < N.of_nat (pos c) + n) then Stop Incomplete
  else Done (take (N.to_nat n) (drop (pos c) (buf c)))
            (mkCursor (buf c) (pos c + N.to_nat n)).

(** [cursor.pos -= 1] *)
Definition unread : Parser () := λ c, Done () (mkCursor (buf c) (pos c - 1)).

(** ** Parsing *)
Definition invalid_integer : bytes := as_bytes "invalid integer: ".
Definition invalid_utf8 : bytes := as_bytes "invalid utf-8 in simple string".
Definition bulk_unterminated : bytes := as_bytes "bulk not terminated by CRLF".

Definition parse_int (l : bytes) : Parser Z :=
  match (s ← from_utf8 l; parse_i64 (as_bytes s)) with
  | Some z => mret z
  | None => invalid (invalid_integer ++ debug_bytes l)
  end.

Definition read_string : Parser string :=
  l ← line;
  match from_utf8 l with
  | Some s => mret s
  | None => invalid invalid_utf8
  end.

(** [line.split(|b| *b == b' ')] *)
Fixpoint split_spaces (b : bytes) : list bytes :=
  match b with
  | [] => [[]]
  | x :: b =>
      match split_spaces b with
      | [] => [[x]]
      | w :: ws => if decide (x = x20) then [] :: w :: ws else (x :: w) :: ws
      end
  end.

Definition words (b : bytes) : list bytes := filter (.≠ []) (split_spaces b).

(** [Vec::with_capacity(len)] of frames panics or aborts when the allocation is
    impossible. Which sizes are is up to the allocator, and the size of a frame
    to the compiler; a request of more than [isize::MAX] bytes always panics. *)
Class Alloc := {
  frame_size : N;
  with_capacity_ok : N → bool;
}.

Class AllocLaws `{Alloc} := {
  frame_size_big : 2 ≤ frame_size;
  capacity_overflow n : (i64_max < Z.of_N (n * frame_size))%Z → with_capacity_ok n = false;
}.

Section Decoder.
Context `{Alloc}.

Definition reserve (n : N) : Parser () := λ c,
  if with_capacity_ok n then Done () c else Panicked.

(** [fuel] bounds the depth of the recursion. *)
Fixpoint parse (fuel : nat) : Parser Frame :=
  match fuel with
  | O => λ _, OutOfFuel
  | S fuel =>
      tag ← u8;
      match tag with
      | x2b => s ← read_string; mret (Simple s)
      | x2d => s ← read_string; mret (ErrorFrame s)
      | x3a => l ← line; n ← parse_int l; mret (Integer n)
      | x24 =>
          l ← line; len ← parse_int l;
          if (len <? 0)%Z then mret Null
          else
            data ← take_n (Z.to_N len);
            crlf ← take_n 2;
            if decide (crlf ≠ CRLF) then invalid bulk_unterminated else mret (Bulk data)
      | x2a =>
          l ← line; len ← parse_int l;
          if (len <? 0)%Z then mret Null
          else
            reserve (Z.to_N len);;
            items ← parse_items fuel (Z.to_N len);
            mret (Array items)
      | _ =>
          unread;; l ← line;
          mret (Array (Bulk <$> words l))
      end
  end
with parse_items (fuel : nat) (n : N) : Parser (list Frame) :=
  match fuel with
  | O => λ _, OutOfFuel
  | S fuel =>
      if decide (n = 0) then mret []
      else
        item ← parse fuel;
        items ← parse_items fuel (n - 1);
        mret (item :: items)
  end.

(** The result of [Frame::decode(src)] and [src] afterwards. *)
Inductive decoded :=
  | Decoded (r : Result (option Frame)) (src : bytes)
  | DecodePanic
  | DecodeDiverges.

Definition decode_fuel (src : bytes) : nat := 2 * length src + 2.

Definition decode (src : bytes) : decoded :=
  match parse (decode_fuel src) (mkCursor src 0) with
  | Done frame cursor => Decoded (Ok (Some frame)) (drop (pos cursor) src)
  | Stop Incomplete => Decoded (Ok None) src
  | Stop (Invalid msg) => Decoded (Err (Protocol msg)) src
  | Panicked => DecodePanic
  | OutOfFuel => DecodeDiverges
  end.
End Decoder.

(** A concrete allocator for the examples. *)
Definition alloc32 : Alloc := {| frame_size := 32; with_capacity_ok n := (Z.of_N (n * 32) <=? i64_max)%Z |}.

Lemma alloc32_laws : @AllocLaws alloc32.
Proof. split; [done|]. intros n Hn. by apply Z.leb_gt. Qed.
