(* ===== verification/RespTheory.v ===== *)
(** * Theory of the RESP decoder

    Compositional facts about parsers ([stable], [forward], [reads]), the
    termination of [decode], and the properties of the codec: round trip,
    partial frames, streaming, progress. *)

From S2P Require Import Prelude Text Errors Resp.
Local Open Scope N_scope.

(** ** Three compositional properties of parsers *)

Definition ext (more : bytes) (c : Cursor) : Cursor := mkCursor (buf c ++ more) (pos c).

Definition decided {A} (o : outcome A) : Prop :=
  match o with Stop Incomplete | OutOfFuel => False | _ => True end.

Definition map_cursor {A} (f : Cursor → Cursor) (o : outcome A) : outcome A :=
  match o with Done a c => Done a (f c) | Stop e => Stop e | Panicked => Panicked
  | OutOfFuel => OutOfFuel end.

(** More input does not change an outcome that was already decided. *)
Class Stable {A} (p : Parser A) : Prop :=
  stable : ∀ c more, decided (p c) → p (ext more c) = map_cursor (ext more) (p c).

(** The cursor stays in the same buffer and does not move back. *)
Class Forward {A} (k : nat) (p : Parser A) : Prop :=
  forward : ∀ c a c', (pos c ≤ length (buf c))%nat → p c = Done a c' →
    buf c' = buf c ∧ (pos c + k ≤ pos c' ≤ length (buf c))%nat.

(** [p] reads exactly [enc] and returns [a], wherever [enc] occurs. *)
Definition reads {A} (p : Parser A) (enc : bytes) (a : A) : Prop :=
  ∀ pre post, p (mkCursor (pre ++ enc ++ post) (length pre)) =
    Done a (mkCursor (pre ++ enc ++ post) (length (pre ++ enc))).

#[export] Instance stable_ret {A} (a : A) : Stable (mret a : Parser A).
Proof. by intros c more _. Qed.
#[export] Instance stable_fail {A} e : Stable (fail e : Parser A).
Proof. by intros c more _. Qed.
#[export] Instance stable_bind {A B} (p : Parser A) (f : A → Parser B) :
  Stable p → (∀ a, Stable (f a)) → Stable (p ≫= f).
Proof.
  intros Hp Hf c more. unfold mbind, Parser_bind. specialize (Hp c more).
  destruct (p c) as [a c'|[]| |]; cbn in *; intros Hd; try done; rewrite Hp by done; cbn; try done.
  by apply Hf.
Qed.
#[export] Instance stable_if {A} (b : bool) (p q : Parser A) :
  Stable p → Stable q → Stable (if b then p else q).
Proof. by destruct b. Qed.
#[export] Instance stable_decide {A} P `{!Decision P} (p q : Parser A) :
  Stable p → Stable q → Stable (if decide P then p else q).
Proof. by destruct (decide P). Qed.
#[export] Instance stable_u8 : Stable u8.
Proof.
  intros c more. unfold u8. cbn. destruct (buf c !! pos c) eqn:Hl; cbn; [|done].
  by rewrite (lookup_app_l_Some _ _ _ _ Hl).
Qed.
#[export] Instance stable_unread : Stable unread.
Proof. by intros c more _. Qed.

Lemma take_app_inside {A} n k (l l' : list A) :
  (k + n ≤ length l)%nat → take n (drop k (l ++ l')) = take n (drop k l).
Proof.
  intros Hn. rewrite drop_app_le by lia. apply take_app_le. rewrite length_drop. lia.
Qed.

#[export] Instance stable_take_n n : Stable (take_n n).
Proof.
  intros c more. unfold take_n, ext. cbn [buf pos]. rewrite len64_app.
  destruct (decide (len64 (buf c) < N.of_nat (pos c) + n)) as [|Hn]; [done|]. intros _.
  rewrite decide_False by lia. cbn. unfold ext. cbn. f_equal.
  unfold len64 in Hn. apply take_app_inside. lia.
Qed.

Lemma line_loop_stable fuel start c more fuel' :
  (start ≤ pos c)%nat → (fuel ≤ fuel')%nat →
  decided (line_loop fuel start c) →
  line_loop fuel' start (ext more c) = map_cursor (ext more) (line_loop fuel start c).
Proof.
  revert fuel' c. induction fuel as [|fuel IH]; intros fuel' c Hst Hf; cbn [line_loop]; [done|].
  destruct (decide (pos c + 1 < length (buf c))%nat) as [Hlt|]; [|done].
  destruct fuel' as [|fuel']; [lia|]. cbn [line_loop].
  change (ext more c) with (mkCursor (buf c ++ more) (pos c)). cbn [buf pos].
  rewrite (decide_True (P := (_ < length (buf c ++ more))%nat)) by (rewrite length_app; lia).
  rewrite !lookup_app_l by lia.
  destruct (decide _).
  - intros _. cbn. unfold ext. cbn. f_equal. apply take_app_inside. lia.
  - intros Hd. apply (IH fuel' (mkCursor (buf c) (pos c + 1))); cbn; [lia..|done].
Qed.

#[export] Instance stable_line : Stable line.
Proof.
  intros c more. unfold line. apply line_loop_stable; [done|].
  cbn. rewrite length_app. lia.
Qed.

#[export] Instance stable_parse_int l : Stable (parse_int l).
Proof. unfold parse_int. destruct (mbind _ _); apply _. Qed.
#[export] Instance stable_read_string : Stable read_string.
Proof. apply stable_bind; [apply _|]. intros l. destruct (from_utf8 l); apply _. Qed.

(** ** Primitives move forward *)

Lemma forward_weaken {A} (p : Parser A) k k' : (k' ≤ k)%nat → Forward k p → Forward k' p.
Proof. intros Hk Hp c a c' Hc Hd. destruct (Hp _ _ _ Hc Hd). split; [done|lia]. Qed.

Lemma forward_ret {A} (a : A) : Forward 0 (mret a : Parser A).
Proof. intros c a' c' Hc [= <- <-]. split; [done|lia]. Qed.

Lemma forward_fail {A} k e : Forward k (fail e : Parser A).
Proof. by intros c a c' Hc. Qed.

Lemma forward_bind {A B} k1 k2 (p : Parser A) (f : A → Parser B) :
  Forward k1 p → (∀ a, Forward k2 (f a)) → Forward (k1 + k2) (p ≫= f).
Proof.
  intros Hp Hf c b c' Hc. unfold mbind, Parser_bind.
  destruct (p c) as [a c1| | |] eqn:Hpc; try done. intros Hfc.
  destruct (Hp _ _ _ Hc Hpc) as [Hb1 Hp1].
  destruct (Hf _ _ _ _ ltac:(rewrite Hb1; lia) Hfc) as [Hb2 Hp2].
  rewrite Hb1 in *. split; [done|lia].
Qed.

Lemma forward_u8 : Forward 1 u8.
Proof.
  intros c a c' Hc. unfold u8. destruct (buf c !! pos c) eqn:Hl; [|done]. intros [= <- <-].
  apply lookup_lt_Some in Hl. cbn. split; [done|lia].
Qed.

Lemma forward_take_n n : Forward (N.to_nat n) (take_n n).
Proof.
  intros c a c' Hc. unfold take_n, len64. case_decide; [done|]. intros [= <- <-].
  cbn. split; [done|lia].
Qed.

Lemma line_loop_forward fuel start c a c' :
  line_loop fuel start c = Done a c' →
  buf c' = buf c ∧ (pos c + 2 ≤ pos c' ≤ length (buf c))%nat.
Proof.
  revert c. induction fuel as [|fuel IH]; intros c; cbn [line_loop]; [done|].
  case_decide; [|done]. case_decide.
  - intros [= <- <-]. cbn. split; [done|lia].
  - intros Hd%IH. cbn in Hd. split; [apply Hd|lia].
Qed.

Lemma forward_line : Forward 2 line.
Proof. intros c a c' _ Hd. by apply line_loop_forward in Hd. Qed.

Lemma forward_parse_int l : Forward 0 (parse_int l).
Proof.
  intros c a c' Hc. unfold parse_int. destruct (mbind _ _); [|done].
  by apply forward_ret.
Qed.

Lemma forward_read_string : Forward 2 read_string.
Proof.
  change 2%nat with (2 + 0)%nat. apply forward_bind; [apply forward_line|]. intros l.
  destruct (from_utf8 l); [apply forward_ret|apply forward_fail].
Qed.

Section Decoder.
Context `{Alloc}.

#[export] Instance stable_reserve n : Stable (reserve n).
Proof. intros c more. unfold reserve. by destruct (with_capacity_ok n). Qed.

Lemma parse_stable fuel :
  Stable (parse fuel) ∧ ∀ n, Stable (parse_items fuel n).
Proof.
  induction fuel as [|fuel [IHp IHi]]; [split; [|intros n]; by intros c more []|].
  split; cbn [parse parse_items].
  - apply stable_bind; [apply _|]. intros tag.
    assert (Stable (unread;; l ← line; mret (Array (Bulk <$> words l)))) as Hinline by apply _.
    destruct tag; exact Hinline || apply _.
  - intros n. apply _.
Qed.

(** ** Fuel *)
Lemma parse_mono fuel c :
  (∀ fuel', (fuel ≤ fuel')%nat → parse fuel c ≠ OutOfFuel → parse fuel' c = parse fuel c) ∧
  (∀ fuel' n, (fuel ≤ fuel')%nat → parse_items fuel n c ≠ OutOfFuel →
     parse_items fuel' n c = parse_items fuel n c).
Proof.
  revert c. induction fuel as [|fuel IH]; intros c; [done|]. split.
  - intros [|fuel'] Hle; [lia|]. cbn [parse]. unfold mbind, Parser_bind.
    destruct (u8 c) as [tag c1| | |]; try done.
    destruct tag; try done. destruct (line c1) as [l c2| | |]; try done.
    destruct (parse_int l c2) as [len c3| | |]; try done.
    destruct (len <? 0)%Z; [done|]. destruct (reserve _ c3) as [[] c4| | |]; try done.
    destruct (parse_items fuel _ c4) eqn:Hi; intros Hne; try done;
      (rewrite (proj2 (IH c4)); [by rewrite Hi|lia|by rewrite Hi]).
  - intros [|fuel'] n Hle; [lia|]. cbn [parse_items]. destruct (decide (n = 0)); [done|].
    unfold mbind, Parser_bind.
    destruct (parse fuel c) as [item c1| | |] eqn:Hp; intros Hne; try done;
      (rewrite (proj1 (IH c)); [rewrite Hp|lia|by rewrite Hp]); try done.
    destruct (parse_items fuel (n - 1) c1) eqn:Hi; try done;
      (rewrite (proj2 (IH c1)); [by rewrite Hi|lia|by rewrite Hi]).
Qed.

Lemma forward_inline : Forward 0 (unread;; l ← line; mret (Array (Bulk <$> words l))).
Proof.
  intros c a c' Hc. unfold mbind, Parser_bind. cbn [unread].
  destruct (line _) as [l c1| | |] eqn:Hl; try done. intros [= <- <-].
  apply line_loop_forward in Hl. cbn in Hl. split; [apply Hl|lia].
Qed.

Lemma forward_reserve n : Forward 0 (reserve n).
Proof.
  intros c a c' Hc. unfold reserve. destruct (with_capacity_ok n); [|done].
  intros [= <- <-]. split; [done|lia].
Qed.

Lemma forward_if {A} k (b : bool) (p q : Parser A) :
  Forward k p → Forward k q → Forward k (if b then p else q).
Proof. by destruct b. Qed.

Lemma forward_bind_0 {A B} k (p : Parser A) (f : A → Parser B) :
  Forward k p → (∀ a, Forward 0 (f a)) → Forward 0 (p ≫= f).
Proof.
  intros Hp Hf. eapply forward_weaken; [|by eapply forward_bind]. lia.
Qed.

Create HintDb parsers.
#[local] Hint Resolve forward_ret forward_fail forward_u8 forward_line forward_take_n forward_parse_int
  forward_read_string forward_inline forward_reserve forward_if : parsers.

Lemma forward_parse fuel :
  Forward 1 (parse fuel) ∧ ∀ n, Forward 0 (parse_items fuel n).
Proof.
  induction fuel as [|fuel [IHp IHi]]; [split; [|intros n]; by intros c a c' Hc|].
  split; cbn [parse parse_items].
  - change 1%nat with (1 + 0)%nat at 1. apply forward_bind; [apply forward_u8|]. intros tag.
    pose proof forward_inline as Hinline.
    destruct tag; try exact Hinline;
      repeat first [ eapply forward_bind_0; [by eauto with parsers|intros ?]
                   | apply forward_if | case_decide | apply forward_ret | apply forward_fail ].
  - intros n. case_decide; [apply forward_ret|].
    repeat (eapply forward_bind_0; [by eauto with parsers|intros ?]). apply forward_ret.
Qed.

(** [decode_fuel] is enough: two units per remaining byte. *)
Lemma bind_total {A B} (p : Parser A) (f : A → Parser B) c :
  p c ≠ OutOfFuel → (∀ a c', p c = Done a c' → f a c' ≠ OutOfFuel) → (p ≫= f) c ≠ OutOfFuel.
Proof.
  intros Hp Hf. unfold mbind, Parser_bind. destruct (p c) eqn:Hpc; try done. by apply Hf.
Qed.

Lemma line_loop_total fuel start c : line_loop fuel start c ≠ OutOfFuel.
Proof.
  revert c. induction fuel as [|fuel IH]; intros c; cbn; [done|]. by repeat case_decide.
Qed.

Lemma parse_int_total l c : parse_int l c ≠ OutOfFuel.
Proof. unfold parse_int. by destruct (mbind _ _). Qed.

Lemma read_string_total c : read_string c ≠ OutOfFuel.
Proof.
  apply bind_total; [apply line_loop_total|]. intros l c' _. by destruct (from_utf8 l).
Qed.

Lemma take_n_total n c : take_n n c ≠ OutOfFuel.
Proof. unfold take_n. by case_decide. Qed.

Lemma line_total c : line c ≠ OutOfFuel.
Proof. apply line_loop_total. Qed.

Lemma reserve_total n c : reserve n c ≠ OutOfFuel.
Proof. unfold reserve. by destruct (with_capacity_ok n). Qed.

Create HintDb totals.
#[local] Hint Resolve line_total parse_int_total read_string_total take_n_total
  reserve_total : totals.

Lemma parse_total fuel c :
  (pos c ≤ length (buf c))%nat →
  ((2 * (length (buf c) - pos c) + 1 ≤ fuel)%nat → parse fuel c ≠ OutOfFuel) ∧
  (∀ n, (2 * (length (buf c) - pos c) + 2 ≤ fuel)%nat → parse_items fuel n c ≠ OutOfFuel).
Proof.
  revert c. induction fuel as [|fuel IH]; intros c Hc; [split; intros; lia|].
  split.
  - intros Hf. cbn [parse]. apply bind_total; [unfold u8; by destruct (_ !! _)|].
    intros tag c1 Hu. apply forward_u8 in Hu as [Hb1 Hp1]; [|done].
    assert ((unread;; l ← line; mret (Array (Bulk <$> words l))) c1 ≠ OutOfFuel) as Hinline.
    { apply bind_total; [done|]. intros [] c2 _. apply bind_total; [apply line_loop_total|done]. }
    destruct tag; try exact Hinline; clear Hinline.
    + repeat (apply bind_total; [by eauto with totals|intros ? ? _]).
      destruct (_ <? _)%Z; [done|].
      repeat (apply bind_total; [by eauto with totals|intros ? ? _]). by case_decide.
    + apply bind_total; [by eauto with totals|]. intros l c2 Hl.
      apply forward_line in Hl as [Hb2 Hp2]; [|rewrite Hb1; lia].
      rewrite Hb1 in Hp2, Hb2. apply bind_total; [by eauto with totals|]. intros len c3 Hi.
      apply forward_parse_int in Hi as [Hb3 Hp3]; [|rewrite Hb2; lia].
      rewrite Hb2 in Hp3, Hb3.
      destruct (_ <? _)%Z; [done|].
      apply bind_total; [by eauto with totals|]. intros [] c4 Hr.
      apply forward_reserve in Hr as [Hb4 Hp4]; [|rewrite Hb3; lia].
      rewrite Hb3 in Hp4, Hb4.
      apply bind_total; [|done]. apply IH; rewrite Hb4; lia.
    + apply bind_total; [by eauto with totals|done].
    + apply bind_total; [by eauto with totals|done].
    + repeat (apply bind_total; [by eauto with totals|intros ? ? _]). done.
  - intros n Hf. cbn [parse_items]. case_decide; [done|].
    apply bind_total; [apply IH; [done|lia]|]. intros item c1 Hi.
    apply (proj1 (forward_parse fuel)) in Hi as [Hb1 Hp1]; [|done].
    apply bind_total; [|done]. apply IH; rewrite Hb1; lia.
Qed.

(** ** Reading back an encoding *)

Lemma reads_bind {A B} (p : Parser A) (f : A → Parser B) e1 e2 a b :
  reads p e1 a → reads (f a) e2 b → reads (p ≫= f) (e1 ++ e2) b.
Proof.
  intros Hp Hf pre post. unfold mbind, Parser_bind.
  rewrite <-(app_assoc e1 e2 post), Hp, !app_assoc, <-(app_assoc _ e2 post), Hf.
  by rewrite <-!app_assoc.
Qed.

Lemma reads_ret {A} (a : A) : reads (mret a) [] a.
Proof. intros pre post. cbn. by rewrite app_nil_r. Qed.

(** A final pure step. *)
Lemma reads_map {A B} (p : Parser A) (g : A → B) e a :
  reads p e a → reads (x ← p; mret (g x)) e (g a).
Proof. intros Hp. rewrite <-(app_nil_r e). eapply reads_bind; [done|apply reads_ret]. Qed.

Lemma reads_u8 x : reads u8 [x] x.
Proof.
  intros pre post. unfold u8. cbn [buf pos app]. rewrite list_lookup_middle by done.
  rewrite length_app. cbn. f_equal. f_equal. lia.
Qed.

Lemma reads_take_n n d : n = len64 d → reads (take_n n) d d.
Proof.
  intros -> pre post. unfold take_n. cbn [buf pos]. rewrite !len64_app.
  rewrite decide_False by (unfold len64; lia). unfold len64. rewrite Nat2N.id.
  by rewrite drop_app_length, take_app_length, length_app.
Qed.

(** Lines without CRLF. *)
Fixpoint no_crlf (b : bytes) : bool :=
  match b with
  | [] => true
  | x :: b' => negb (bool_decide (x = x0d) && bool_decide (head b' = Some x0a)) && no_crlf b'
  end.

Lemma line_loop_reads pre l1 l2 post fuel :
  no_crlf l2 = true → (length l2 + 1 ≤ fuel)%nat →
  line_loop fuel (length pre) (mkCursor (pre ++ (l1 ++ l2) ++ CRLF ++ post) (length (pre ++ l1))) =
  Done (l1 ++ l2) (mkCursor (pre ++ (l1 ++ l2) ++ CRLF ++ post) (length (pre ++ l1 ++ l2) + 2)).
Proof.
  revert l1 fuel. induction l2 as [|x l2 IH]; intros l1 fuel Hn Hf;
    (destruct fuel as [|fuel]; [cbn in Hf; lia|]); cbn [line_loop buf pos].
  - rewrite !app_nil_r. rewrite decide_True by (rewrite !length_app; cbn; lia).
    assert (pre ++ l1 ++ CRLF ++ post = ((pre ++ l1) ++ [x0d]) ++ x0a :: post) as Hbuf
      by by rewrite <-!app_assoc.
    rewrite decide_True.
    + f_equal. rewrite drop_app_length, length_app.
      replace (length pre + length l1 - length pre)%nat with (length l1) by lia.
      apply take_app_length.
    + split.
      * change (CRLF ++ post) with (x0d :: x0a :: post).
        by rewrite app_assoc, list_lookup_middle by done.
      * rewrite Hbuf. by rewrite list_lookup_middle by by rewrite !length_app.
  - cbn [no_crlf] in Hn. apply andb_true_iff in Hn as [Hx Hn].
    rewrite decide_True by (rewrite !length_app; cbn; lia).
    replace (l1 ++ x :: l2) with ((l1 ++ [x]) ++ l2) by by rewrite <-app_assoc.
    specialize (IH (l1 ++ [x]) fuel Hn ltac:(cbn in Hf; lia)).
    replace (length (pre ++ l1 ++ [x])) with (length (pre ++ l1) + 1)%nat in IH
      by (rewrite !length_app; cbn; lia).
    rewrite decide_False; [exact IH|]. intros [H1 H2].
    replace (pre ++ ((l1 ++ [x]) ++ l2) ++ CRLF ++ post)
      with ((pre ++ l1) ++ x :: l2 ++ CRLF ++ post) in H1, H2 by by rewrite <-!app_assoc.
    rewrite list_lookup_middle in H1 by done. injection H1 as ->.
    rewrite lookup_app_r in H2 by lia.
    replace (length (pre ++ l1) + 1 - length (pre ++ l1))%nat with 1%nat in H2 by lia.
    destruct l2 as [|y l2]; cbn in H2; [done|]. injection H2 as ->. by cbn in Hx.
Qed.

Lemma reads_line l : no_crlf l = true → reads line (l ++ CRLF) l.
Proof.
  intros Hn pre post. unfold line. cbn [buf pos]. rewrite <-(app_assoc l).
  pose proof (line_loop_reads pre [] l post (length (pre ++ l ++ CRLF ++ post) - length pre) Hn)
    as Hl. cbn [app] in Hl. rewrite app_nil_r in Hl. rewrite Hl.
  - f_equal. f_equal. rewrite !length_app. cbn. lia.
  - rewrite !length_app. cbn. lia.
Qed.

Lemma numeric_no_crlf b : forallb numeric b = true → no_crlf b = true.
Proof.
  induction b as [|x b IH]; cbn; [done|]. intros [Hx Hb]%andb_true_iff. rewrite IH by done.
  rewrite (bool_decide_eq_false_2 (x = x0d)); [done|]. by intros ->.
Qed.

Lemma reads_parse_int z : in_i64 z = true → reads (parse_int (Z_to_bytes z)) [] z.
Proof.
  intros Hz. unfold parse_int, from_utf8.
  rewrite (numeric_utf8 _ (Z_to_bytes_numeric z)). cbn [mbind option_bind].
  rewrite as_of_bytes, parse_Z_to_bytes by done. apply reads_ret.
Qed.

(** A header line: an integer and CRLF. *)
Lemma reads_header {B} z (f : Z → Parser B) e b :
  in_i64 z = true → reads (f z) e b →
  reads (l ← line; len ← parse_int l; f len) (Z_to_bytes z ++ CRLF ++ e) b.
Proof.
  intros Hz Hf. rewrite app_assoc. eapply reads_bind.
  - apply reads_line, numeric_no_crlf, Z_to_bytes_numeric.
  - change e with ([] ++ e). eapply reads_bind; [by apply reads_parse_int|done].
Qed.

Lemma reads_string s :
  valid_string s = true → no_crlf (as_bytes s) = true →
  reads read_string (as_bytes s ++ CRLF) s.
Proof.
  intros Hv Hn. unfold read_string. rewrite <-(app_nil_r (_ ++ CRLF)).
  eapply reads_bind; [by apply reads_line|]. unfold from_utf8. unfold valid_string in Hv.
  rewrite Hv, of_as_bytes. apply reads_ret.
Qed.
End Decoder.
