(* ===== verification/RespProps.v ===== *)
(** * Properties of the RESP codec

    Round trip, partial frames, streaming, progress and termination of
    [Frame::decode], and what it does on hostile input. *)

From S2P Require Import Prelude Text Errors Resp RespTheory.
Local Open Scope N_scope.

Section Codec.
Context `{Alloc}.

(** The frames whose encoding reads back: strings are valid UTF-8 without CRLF,
    integers and lengths fit in [i64], arrays can be allocated. *)
Fixpoint wire_ok (f : Frame) : bool :=
  match f with
  | Simple s | ErrorFrame s => valid_string s && no_crlf (as_bytes s)
  | Integer n => in_i64 n
  | Bulk data => in_i64 (Z.of_N (len64 data))
  | Null => true
  | Array items =>
      in_i64 (Z.of_N (len64 items)) && with_capacity_ok (len64 items) && forallb wire_ok items
  end.

Lemma encode_app f dst : encode f dst = dst ++ encode f [].
Proof.
  revert dst. induction f as [s|s|n|d| |items IH] using Frame_ind'; intros dst; try done.
  cbn [encode]. rewrite app_nil_l. generalize ([x2a] ++ N_to_bytes (len64 items) ++ CRLF).
  induction IH as [|item items Hitem _ IH]; intros e; cbn; [done|].
  rewrite (Hitem (dst ++ e)), (Hitem e), <-app_assoc. apply IH.
Qed.

Lemma encode_items items e :
  foldl (λ dst item, encode item dst) e items = e ++ concat ((λ f, encode f []) <$> items).
Proof.
  revert e. induction items as [|item items IH]; intros e; cbn; [by rewrite app_nil_r|].
  rewrite IH, encode_app. by rewrite <-app_assoc.
Qed.

Lemma N_to_bytes_Z n : N_to_bytes n = Z_to_bytes (Z.of_N n).
Proof. unfold Z_to_bytes. rewrite (proj2 (Z.ltb_ge _ _)) by lia. by rewrite N2Z.id. Qed.

Lemma reads_mono fuel fuel' e f :
  (fuel ≤ fuel')%nat → reads (parse fuel) e f → reads (parse fuel') e f.
Proof.
  intros Hle Hr pre post. specialize (Hr pre post).
  rewrite (proj1 (parse_mono fuel _)); [done|done|by rewrite Hr].
Qed.

Lemma reads_items fuel items :
  Forall (λ f, reads (parse fuel) (encode f []) f) items →
  reads (parse_items (fuel + S (length items)) (len64 items))
    (concat ((λ f, encode f []) <$> items)) items.
Proof.
  induction items as [|f items IH]; intros Hall.
  { rewrite Nat.add_1_r. apply reads_ret. }
  apply Forall_cons in Hall as [Hf Hall]. specialize (IH Hall).
  replace (fuel + S (length (f :: items)))%nat with (S (fuel + S (length items)))
    by (cbn; lia).
  cbn [parse_items fmap list_fmap concat].
  rewrite decide_False by (unfold len64; cbn; lia).
  replace (len64 (f :: items) - 1) with (len64 items) by (unfold len64; cbn; lia).
  eapply reads_bind; [eapply reads_mono, Hf; lia|]. by apply reads_map.
Qed.

(** A tag and what follows it. *)
Lemma reads_tag {A} x (k : Byte.byte → Parser A) e a :
  reads (k x) e a → reads (tag ← u8; k tag) ([x] ++ e) a.
Proof. intros Hk. eapply reads_bind; [apply reads_u8|done]. Qed.

Lemma reads_parse f : wire_ok f = true → ∃ fuel, reads (parse fuel) (encode f []) f.
Proof.
  induction f as [s|s|n|d| |items IH] using Frame_ind'; cbn [wire_ok encode]; intros Hok;
    rewrite ?app_nil_l.
  - apply andb_true_iff in Hok as [Hv Hn]. exists 1%nat. apply reads_tag.
    by apply reads_map, reads_string.
  - apply andb_true_iff in Hok as [Hv Hn]. exists 1%nat. apply reads_tag.
    by apply reads_map, reads_string.
  - exists 1%nat. apply reads_tag. rewrite <-(app_nil_r CRLF).
    apply reads_header; [done|apply reads_ret].
  - exists 1%nat. apply reads_tag. rewrite N_to_bytes_Z. apply reads_header; [done|].
    rewrite (proj2 (Z.ltb_ge _ _)) by lia. rewrite N2Z.id.
    eapply reads_bind; [by apply reads_take_n|]. rewrite <-(app_nil_r CRLF).
    eapply reads_bind; [by apply reads_take_n|].
    rewrite decide_False by naive_solver. apply reads_ret.
  - exists 1%nat. change ([x24; x2d; x31] ++ CRLF) with ([x24] ++ Z_to_bytes (-1) ++ CRLF ++ []).
    apply reads_tag, reads_header; [done|]. apply reads_ret.
  - apply andb_true_iff in Hok as [[Hlen Hcap]%andb_true_iff Hitems].
    assert (∃ fuel, Forall (λ f, reads (parse fuel) (encode f []) f) items) as [fuel Hall].
    { clear Hlen Hcap. induction IH as [|f items Hf _ IH]; [by exists 0%nat|].
      cbn in Hitems. apply andb_true_iff in Hitems as [Hfok Hitems].
      destruct (Hf Hfok) as [fu1 H1]. destruct (IH Hitems) as [fu2 H2].
      exists (fu1 + fu2)%nat. constructor; [eapply reads_mono, H1; lia|].
      eapply Forall_impl; [exact H2|]. intros g Hg. eapply reads_mono, Hg. lia. }
    exists (S (fuel + S (length items))). rewrite encode_items, <-!app_assoc.
    apply reads_tag. rewrite N_to_bytes_Z. apply reads_header; [done|].
    rewrite (proj2 (Z.ltb_ge _ _)) by lia. rewrite N2Z.id.
    change (concat _) with ([] ++ concat ((λ f, encode f []) <$> items)).
    eapply reads_bind; [|by apply reads_map, reads_items].
    intros pre post. unfold reserve. rewrite Hcap. by rewrite app_nil_r.
Qed.

(** The step after something was read. *)
Lemma bind_reads {A B} (p : Parser A) (f : A → Parser B) e a pre post c :
  reads p e a → c = mkCursor (pre ++ e ++ post) (length pre) →
  (p ≫= f) c = f a (mkCursor (pre ++ e ++ post) (length (pre ++ e))).
Proof. intros Hr ->. unfold mbind, Parser_bind. by rewrite Hr. Qed.

(** [parse] with the fuel of [decode]. *)
Lemma parse_decode_fuel src : parse (decode_fuel src) (mkCursor src 0) ≠ OutOfFuel.
Proof. apply parse_total; cbn; unfold decode_fuel; lia. Qed.

Lemma parse_enough fuel src :
  parse fuel (mkCursor src 0) ≠ OutOfFuel →
  parse (decode_fuel src) (mkCursor src 0) = parse fuel (mkCursor src 0).
Proof.
  intros Hne. destruct (le_ge_dec fuel (decode_fuel src)) as [Hle|Hge].
  - by apply (proj1 (parse_mono fuel _)).
  - symmetry. apply (proj1 (parse_mono (decode_fuel src) _)); [lia|].
    apply parse_decode_fuel.
Qed.

Lemma decode_encode f rest :
  wire_ok f = true → decode (encode f [] ++ rest) = Decoded (Ok (Some f)) rest.
Proof.
  intros Hok. destruct (reads_parse f Hok) as [fuel Hr].
  specialize (Hr [] rest). cbn [app length] in Hr. unfold decode.
  rewrite (parse_enough fuel), Hr by by rewrite Hr. cbn. by rewrite drop_app_length.
Qed.

Lemma decode_stable src more :
  match decode src with
  | Decoded (Ok None) _ => True
  | Decoded (Ok (Some f)) rest => decode (src ++ more) = Decoded (Ok (Some f)) (rest ++ more)
  | Decoded (Err e) _ => decode (src ++ more) = Decoded (Err e) (src ++ more)
  | DecodePanic => decode (src ++ more) = DecodePanic
  | DecodeDiverges => False
  end.
Proof.
  pose proof (parse_decode_fuel src) as Hne.
  pose proof (proj1 (parse_stable (decode_fuel src)) (mkCursor src 0) more) as Hst.
  unfold ext in Hst. cbn [buf pos] in Hst.
  assert (decided (parse (decode_fuel src) (mkCursor src 0)) →
    parse (decode_fuel (src ++ more)) (mkCursor (src ++ more) 0) =
    map_cursor (ext more) (parse (decode_fuel src) (mkCursor src 0))) as Heq.
  { intros Hd. rewrite (parse_enough (decode_fuel src)); [by apply Hst|].
    rewrite Hst by done. by destruct (parse _ _). }
  unfold decode. destruct (parse (decode_fuel src) (mkCursor src 0)) as [f c|[|m]| |] eqn:Hp;
    try done; rewrite Heq by done; cbn; try done.
  rewrite drop_app_le; [done|]. apply (proj1 (forward_parse _)) in Hp; cbn in *; lia.
Qed.

Lemma decode_none_same src rest : decode src = Decoded (Ok None) rest → rest = src.
Proof. unfold decode. by repeat case_match; intros; simplify_eq. Qed.

Lemma decode_used src f rest :
  decode src = Decoded (Ok (Some f)) rest → ∃ used, used ≠ [] ∧ src = used ++ rest.
Proof.
  unfold decode. destruct (parse _ _) as [g c|[|m]| |] eqn:Hp; try done. intros [= <- <-].
  apply (proj1 (forward_parse _)) in Hp as [_ Hpos]; [|cbn; lia]. cbn in Hpos.
  exists (take (pos c) src). split; [|by rewrite take_drop].
  intros Hnil. apply (f_equal length) in Hnil. rewrite length_take in Hnil. cbn in Hnil. lia.
Qed.

Lemma decode_shrinks src f rest :
  decode src = Decoded (Ok (Some f)) rest → (length rest < length src)%nat.
Proof.
  intros (used & Hne & ->)%decode_used. rewrite length_app. destruct used; [done|]. cbn. lia.
Qed.

Lemma decode_partial f p q :
  wire_ok f = true → encode f [] = p ++ q → q ≠ [] → decode p = Decoded (Ok None) p.
Proof.
  intros Hok He Hq. pose proof (decode_encode f [] Hok) as Hd.
  rewrite app_nil_r, He in Hd. pose proof (decode_stable p q) as Hst.
  destruct (decode p) as [[[g|]|e] rest| |] eqn:Hp; try by (rewrite Hst in Hd; simplify_eq).
  - rewrite Hst in Hd. injection Hd as _ Hnil. by apply app_eq_nil in Hnil as [_ ?].
  - by apply decode_none_same in Hp as ->.
  - done.
Qed.
End Codec.

(** ** Properties *)
Section Properties.
Context `{Alloc}.

(** [C26] Round trip: every well-formed frame (valid UTF-8 strings without CRLF,
    lengths and integers in [i64]) decodes back from its encoding, whatever
    bytes follow, and exactly its bytes are consumed. *)
Theorem resp_roundtrip f rest :
  wire_ok f = true → decode (encode f [] ++ rest) = Decoded (Ok (Some f)) rest.
Proof. apply decode_encode. Qed.

(** Partial frames: on any strict prefix of a well-formed frame's encoding
    [decode] asks for more bytes ([Ok(None)]) and consumes nothing; it neither
    fails nor returns early. *)
Theorem partial_frame_incomplete f p q :
  wire_ok f = true → encode f [] = p ++ q → q ≠ [] → decode p = Decoded (Ok None) p.
Proof. apply decode_partial. Qed.

(** [C31] Streaming: a decision of the decoder (a frame, an error or a panic) is
    final: the same bytes with more behind them give the same frame and leave
    the rest, or the same error. Only [Ok(None)] may change. Decoding always
    terminates. *)
Theorem decode_monotone src more :
  match decode src with
  | Decoded (Ok None) _ => True
  | Decoded (Ok (Some f)) rest => decode (src ++ more) = Decoded (Ok (Some f)) (rest ++ more)
  | Decoded (Err e) _ => decode (src ++ more) = Decoded (Err e) (src ++ more)
  | DecodePanic => decode (src ++ more) = DecodePanic
  | DecodeDiverges => False
  end.
Proof. apply decode_stable. Qed.

(** Progress: a decoded frame consumes at least one byte and leaves a
    suffix of the buffer; an incomplete or invalid frame consumes nothing. So a
    loop that decodes until [Ok(None)] terminates. *)
Theorem decode_progress src :
  match decode src with
  | Decoded (Ok (Some _)) rest => ∃ used, used ≠ [] ∧ src = used ++ rest
  | Decoded _ rest => rest = src
  | _ => True
  end.
Proof.
  destruct (decode src) as [[[f|]|e] rest| |] eqn:Hd; try done.
  - by eapply decode_used.
  - by apply decode_none_same in Hd.
  - unfold decode in Hd. by repeat case_match; simplify_eq.
Qed.

(** A short request kills the connection's task: an array header whose
    length times the size of a frame exceeds [isize::MAX] makes
    [Vec::with_capacity] panic before any element is read. *)
Theorem oversized_array_panics `{!AllocLaws} n rest :
  (Z.of_N n <= i64_max)%Z → (i64_max < Z.of_N (n * frame_size))%Z →
  decode ([x2a] ++ N_to_bytes n ++ CRLF ++ rest) = DecodePanic.
Proof.
  intros Hn Hbig. apply capacity_overflow in Hbig as Hcap.
  set (src := _ ++ _). unfold decode.
  assert (parse (decode_fuel src) (mkCursor src 0) = Panicked) as ->; [|done].
  replace (decode_fuel src) with (S (2 * length src + 1)) by (unfold decode_fuel; lia).
  cbn [parse]. rewrite (bind_reads _ _ [x2a] x2a [] (N_to_bytes n ++ CRLF ++ rest))
    by (apply reads_u8 || done).
  cbn [app length]. subst src. rewrite N_to_bytes_Z.
  rewrite (bind_reads line _ (Z_to_bytes (Z.of_N n) ++ CRLF) (Z_to_bytes (Z.of_N n)) [x2a] rest)
    by (by rewrite <-app_assoc || apply reads_line, numeric_no_crlf, Z_to_bytes_numeric).
  rewrite (bind_reads (parse_int _) _ [] (Z.of_N n)
    ([x2a] ++ Z_to_bytes (Z.of_N n) ++ CRLF) rest).
  - rewrite (proj2 (Z.ltb_ge _ _)) by lia. unfold mbind, Parser_bind, reserve.
    by rewrite N2Z.id, Hcap.
  - apply reads_parse_int. unfold in_i64. apply andb_true_iff.
    rewrite !Z.leb_le. unfold i64_min. lia.
  - by rewrite app_nil_l, <-!app_assoc.
Qed.
End Properties.

(** ** Witnesses *)
Section Witnesses.
#[local] Existing Instance alloc32.
#[local] Existing Instance alloc32_laws.

Definition demo_frame : Frame :=
  Array [Bulk (as_bytes "SET"); Simple "k"; Integer (-42); Null; Bulk [x0d; x0a]; Array []].

Lemma resp_roundtrip_witness :
  decode (encode demo_frame [] ++ [x2b]) = Decoded (Ok (Some demo_frame)) [x2b].
Proof. apply (resp_roundtrip demo_frame [x2b]). vm_compute. reflexivity. Defined.

Lemma partial_frame_incomplete_witness :
  decode (as_bytes "$5" ++ CRLF ++ as_bytes "hel") =
    Decoded (Ok None) (as_bytes "$5" ++ CRLF ++ as_bytes "hel").
Proof.
  apply (partial_frame_incomplete (Bulk (as_bytes "hello")) _ (as_bytes "lo" ++ CRLF)).
  - vm_compute. reflexivity.
  - vm_compute. reflexivity.
  - discriminate.
Defined.

Lemma oversized_array_panics_witness :
  decode ([x2a] ++ N_to_bytes 9223372036854775807 ++ CRLF ++ []) = DecodePanic.
Proof.
  apply (oversized_array_panics 9223372036854775807 []); vm_compute; [discriminate|reflexivity].
Defined.
End Witnesses.
