(* ===== verification/Command.v ===== *)
(** * Commands ([src/protocol/command.rs])

    From a decoded frame to a typed command, and the specification of that
    translation. *)

From S2P Require Import Prelude Text Errors Resp RespTheory RespProps.
Local Open Scope N_scope.
Local Open Scope string_scope.

Inductive Command :=
  | Ping (payload : option bytes)
  | Get (key : string)
  | Set_ (key : string) (value : bytes)
  | Del (keys : list string)
  | ClusterStatus
  | ClusterMembers
  | CommandDocs.

#[export] Instance Command_eq_dec : EqDecision Command.
Proof. solve_decision. Defined.

(** The derived [Debug] rendering of a frame goes through the [bytes] crate's:
    a parameter, only used in an error text. *)
Section Translation.
Context (frame_debug : Frame → string).

Definition bulk_to_bytes (frame : Frame) : Result bytes :=
  match frame with
  | Bulk b => Ok b
  | Simple s => Ok (as_bytes s)
  | other => Err (Protocol ("expected bulk string, got " +:+ frame_debug other))
  end.

Definition to_string (b : bytes) : string := from_utf8_lossy b.

(** [<[Bytes; N]>::try_from(args)]: the number of arguments must be exact. *)
Definition exact (n : nat) (args : list bytes) (cmd : string) : Result (list bytes) :=
  if decide (length args = n) then Ok args else Err (WrongArity cmd).

Definition upper_lossy (b : bytes) : string := to_ascii_uppercase (from_utf8_lossy b).

Definition assemble (name : string) (args : list bytes) : Result Command :=
  if decide (name = "PING") then
    match args with
    | [] => Ok (Ping None)
    | [arg] => Ok (Ping (Some arg))
    | _ => Err (WrongArity "ping")
    end
  else if decide (name = "GET") then
    args ← exact 1 args "get";
    match args with
    | [key] => Ok (Get (to_string key))
    | _ => Err (WrongArity "get")
    end
  else if decide (name = "SET") then
    args ← exact 2 args "set";
    match args with
    | [key; value] => Ok (Set_ (to_string key) value)
    | _ => Err (WrongArity "set")
    end
  else if decide (name = "DEL") then
    if decide (args = []) then Err (WrongArity "del")
    else Ok (Del (to_string <$> args))
  else if decide (name = "CLUSTER") then
    let sub := default "" (upper_lossy <$> head args) in
    if decide (sub = "STATUS" ∨ sub = "INFO") then Ok ClusterStatus
    else if decide (sub = "MEMBERS" ∨ sub = "NODES") then Ok ClusterMembers
    else Err (UnknownCommand ("CLUSTER " +:+ sub))
  else if decide (name = "COMMAND") then Ok CommandDocs
  else Err (UnknownCommand name).

Definition from_frame (frame : Frame) : Result Command :=
  match frame with
  | Array (first :: items) =>
      name ← bulk_to_bytes first;
      let name := upper_lossy name in
      rest ← collect bulk_to_bytes items;
      assemble name rest
  | _ => Err (Protocol "expected non-empty array")
  end.
End Translation.

Definition is_write (c : Command) : bool :=
  match c with Set_ _ _ | Del _ => true | _ => false end.

(** ** Specification

    The request a client would send for a command. *)
Definition request (c : Command) : list bytes :=
  match c with
  | Ping None => [as_bytes "PING"]
  | Ping (Some b) => [as_bytes "PING"; b]
  | Get k => [as_bytes "GET"; as_bytes k]
  | Set_ k v => [as_bytes "SET"; as_bytes k; v]
  | Del ks => as_bytes "DEL" :: (as_bytes <$> ks)
  | ClusterStatus => [as_bytes "CLUSTER"; as_bytes "STATUS"]
  | ClusterMembers => [as_bytes "CLUSTER"; as_bytes "MEMBERS"]
  | CommandDocs => [as_bytes "COMMAND"]
  end.

(** The keys a command names; every Rust [String] is valid UTF-8. *)
Definition command_keys (c : Command) : list string :=
  match c with Get k | Set_ k _ => [k] | Del ks => ks | _ => [] end.

Definition command_ok (c : Command) : bool :=
  forallb valid_string (command_keys c) &&
  match c with Del [] => false | _ => true end.

(** The argument counts the code accepts for the upper-cased name. *)
Definition arity_ok (name : string) (args : nat) : bool :=
  if decide (name = "PING") then (args <=? 1)%nat
  else if decide (name = "GET") then (args =? 1)%nat
  else if decide (name = "SET") then (args =? 2)%nat
  else if decide (name = "DEL") then (1 <=? args)%nat
  else true.

Section Theory.
Context (frame_debug : Frame → string).
Implicit Types (c : Command) (bs : list bytes).

Lemma collect_bulks bs : collect (bulk_to_bytes frame_debug) (Bulk <$> bs) = Ok bs.
Proof. apply collect_ok. rewrite Forall2_fmap_l. by apply Forall_Forall2_diag, Forall_true. Qed.

Lemma from_frame_bulks name args :
  from_frame frame_debug (Array (Bulk <$> name :: args)) =
    assemble (upper_lossy name) args.
Proof. cbn [fmap list_fmap from_frame]. cbn. by rewrite collect_bulks. Qed.

Lemma to_string_as_bytes s : valid_string s = true → to_string (as_bytes s) = s.
Proof. intros Hv. unfold to_string. by rewrite from_utf8_lossy_id, of_as_bytes. Qed.

Lemma assemble_arity name args :
  (arity_ok name (length args) = false →
     ∃ cmd, assemble name args = Err (WrongArity cmd)) ∧
  (∀ c, assemble name args = Ok c → arity_ok name (length args) = true).
Proof.
  unfold assemble, arity_ok, exact.
  repeat case_decide; destruct args as [|a [|b [|d args]]]; cbn; simplify_eq; eauto;
    split; intros; try case_decide; simplify_eq; eauto.
Qed.

Lemma to_strings_as_bytes ks :
  forallb valid_string ks = true → to_string <$> (as_bytes <$> ks) = ks.
Proof.
  induction ks as [|k ks IH]; [done|]. cbn [forallb]. intros [Hk Hks]%andb_true_iff.
  rewrite !fmap_cons. by rewrite to_string_as_bytes, IH.
Qed.

Lemma valid_to_string b : valid_string (to_string b) = true.
Proof. apply from_utf8_lossy_valid. Qed.

Lemma valid_to_strings bs : forallb valid_string (to_string <$> bs) = true.
Proof.
  induction bs as [|b bs IH]; [done|]. rewrite fmap_cons. cbn [forallb].
  by rewrite valid_to_string, IH.
Qed.

Lemma assemble_keys name args c :
  assemble name args = Ok c → forallb valid_string (command_keys c) = true.
Proof.
  unfold assemble, exact.
  repeat case_decide; cbn -[to_string valid_string]; repeat case_match; intros; simplify_eq;
    cbn -[to_string valid_string]; rewrite ?valid_to_string; try done.
  apply valid_to_strings.
Qed.

Lemma from_frame_request c :
  command_ok c = true → from_frame frame_debug (Array (Bulk <$> request c)) = Ok c.
Proof.
  intros Hok. unfold command_ok in Hok. apply andb_true_iff in Hok as [Hk Hdel].
  destruct c as [[b|]|k|k v|[|k ks]| | |]; try done; unfold request;
    rewrite from_frame_bulks; cbn [command_keys forallb] in Hk;
    rewrite ?andb_true_r in Hk; try reflexivity;
    clear Hdel.
  - change (Ok (Get (to_string (as_bytes k))) = Ok (Get k)). by rewrite to_string_as_bytes.
  - change (Ok (Set_ (to_string (as_bytes k)) v) = Ok (Set_ k v)).
    by rewrite to_string_as_bytes.
  - change (Ok (Del (to_string <$> (as_bytes <$> k :: ks))) = Ok (Del (k :: ks))).
    by rewrite to_strings_as_bytes.
Qed.

Lemma request_nonempty c : ∃ name args, request c = name :: args.
Proof. destruct c as [[b|]|k|k v|ks| | |]; cbn; eauto. Qed.
End Theory.

(** ** Properties *)
Section Properties.
Context `{Alloc} (frame_debug : Frame → string).
Implicit Types (c : Command).

(** [C37] A request sent over the wire is understood: for every command with
    valid keys, decoding the encoded request array and translating it gives the
    command back, values byte for byte, and leaves what follows in the buffer. *)
Theorem request_roundtrip c rest :
  command_ok c = true → wire_ok (Array (Bulk <$> request c)) = true →
  ∃ frame, decode (encode (Array (Bulk <$> request c)) [] ++ rest) =
      Decoded (Ok (Some frame)) rest ∧
    from_frame frame_debug frame = Ok c.
Proof.
  intros Hok Hwire. eexists. split; [by apply decode_encode|by apply from_frame_request].
Qed.

(** What is refused: anything but a non-empty array is a protocol error;
    the command name is matched without regard to ASCII case; the wrong number
    of arguments for PING, GET, SET or DEL is an arity error and never a
    command; and whatever is accepted names keys that are valid UTF-8. *)
Theorem from_frame_spec frame :
  ((∀ items, frame = Array items → items = []) →
     ∃ msg, from_frame frame_debug frame = Err (Protocol msg)) ∧
  (∀ name args, frame = Array (Bulk <$> name :: args) →
     (∀ name', upper_lossy name' = upper_lossy name →
        from_frame frame_debug (Array (Bulk <$> name' :: args)) = from_frame frame_debug frame) ∧
     (arity_ok (upper_lossy name) (length args) = false →
        ∃ cmd, from_frame frame_debug frame = Err (WrongArity cmd)) ∧
     (∀ c, from_frame frame_debug frame = Ok c →
        arity_ok (upper_lossy name) (length args) = true)) ∧
  (∀ c, from_frame frame_debug frame = Ok c → forallb valid_string (command_keys c) = true).
Proof.
  split_and!.
  - intros Hne. destruct frame as [| | | | |[|item items]]; cbn; eauto.
    by specialize (Hne _ eq_refl).
  - intros name args ->. rewrite !from_frame_bulks. split_and!.
    + intros name' Hn. by rewrite from_frame_bulks, Hn.
    + apply assemble_arity.
    + apply assemble_arity.
  - intros c. destruct frame as [| | | | |[|item items]]; cbn [from_frame]; try done.
    intros Hc. apply Result_bind_ok in Hc as (name & _ & Hc).
    apply Result_bind_ok in Hc as (rest & _ & Hc). by eapply assemble_keys.
Qed.

(** Keys are decoded lossily: two different byte strings can name the same
    key, so a [SET] of one overwrites the other. *)
Theorem lossy_key_collision v :
  from_frame frame_debug (Array (Bulk <$> [as_bytes "SET"; [xff]; v])) =
    from_frame frame_debug (Array (Bulk <$> [as_bytes "SET"; [xfe]; v])) ∧
  from_frame frame_debug (Array (Bulk <$> [as_bytes "SET"; [xff]; v])) =
    Ok (Set_ (of_bytes replacement) v).
Proof. rewrite !from_frame_bulks. done. Qed.
End Properties.

(** ** Witnesses *)
Section Witnesses.
#[local] Existing Instance alloc32.

Lemma request_roundtrip_witness :
  ∃ frame, decode (encode (Array (Bulk <$> request (Set_ "k" [x0d; x0a]))) [] ++ [x2b]) =
      Decoded (Ok (Some frame)) [x2b] ∧
    from_frame (λ _, "") frame = Ok (Set_ "k" [x0d; x0a]).
Proof. apply request_roundtrip; vm_compute; reflexivity. Defined.

Lemma from_frame_spec_witness :
  ∃ cmd, from_frame (λ _, "") (Array (Bulk <$> [as_bytes "get"])) = Err (WrongArity cmd).
Proof.
  destruct (from_frame_spec (λ _, "") (Array (Bulk <$> [as_bytes "get"]))) as (_ & Ha & _).
  apply (Ha _ _ eq_refl). vm_compute. reflexivity.
Defined.
End Witnesses.
