(* ===== verification/Apply.v ===== *)
(** * Applying committed commands ([src/apply.rs])

    [WriteCommand], its effect on any storage engine, and the codec that puts
    it into the log. *)

From S2P Require Import Prelude Storage Errors.

Inductive WriteCommand :=
  | Set_ (key : string) (value : bytes)
  | Del (keys : list string).

#[export] Instance WriteCommand_eq_dec : EqDecision WriteCommand.
Proof. solve_decision. Defined.

(** ** The codec

    [serde_json] is not part of the repository: it is a parameter. The code
    relies on [from_slice] inverting [to_vec] and on a serialised value never
    being the empty string (an empty log command is skipped when applied). *)
Class Json (A : Type) := {
  to_vec : A → bytes;
  from_slice : bytes → option A;
}.

Class JsonLaws (A : Type) `{Json A} := {
  from_to a : from_slice (to_vec a) = Some a;
  to_vec_nonempty a : to_vec a ≠ [];
}.

Section Codec.
Context `{Json WriteCommand}.

Definition encode (c : WriteCommand) : bytes := to_vec c.

(** The error text embeds [serde_json]'s own message, a parameter. *)
Definition decode (parse_error : bytes → string) (b : bytes) : Result WriteCommand :=
  match from_slice b with
  | Some c => Ok c
  | None => Err (Errors.Storage ("corrupt log entry: " +:+ parse_error b))
  end.
End Codec.

(** A concrete codec for the examples: strings with every byte preceded by
    [01] and a closing [00]. *)
Module DemoCodec.
Fixpoint put (b : bytes) : bytes :=
  match b with [] => [x00] | x :: b => x01 :: x :: put b end.

Fixpoint take_string (b : bytes) : option (bytes * bytes) :=
  match b with
  | x00 :: b => Some ([], b)
  | x01 :: x :: b => '(s, rest) ← take_string b; Some (x :: s, rest)
  | _ => None
  end.

Fixpoint take_strings (fuel : nat) (b : bytes) : option (list string) :=
  match fuel with
  | O => None
  | S fuel =>
      match b with
      | [] => Some []
      | _ => '(s, rest) ← take_string b; ss ← take_strings fuel rest; Some (of_bytes s :: ss)
      end
  end.

Definition to_vec (c : WriteCommand) : bytes :=
  match c with
  | Set_ k v => x01 :: put (as_bytes k) ++ v
  | Del ks => x02 :: concat (put ∘ as_bytes <$> ks)
  end.

Definition from_slice (b : bytes) : option WriteCommand :=
  match b with
  | x01 :: b => '(k, v) ← take_string b; Some (Set_ (of_bytes k) v)
  | x02 :: b => Del <$> take_strings (S (length b)) b
  | _ => None
  end.

Lemma take_put b rest : take_string (put b ++ rest) = Some (b, rest).
Proof. induction b as [|x b IH]; [done|]. cbn. by rewrite IH. Qed.

Lemma take_strings_S fuel b :
  b ≠ [] → take_strings (S fuel) b =
    ('(s, rest) ← take_string b; ss ← take_strings fuel rest; Some (of_bytes s :: ss)).
Proof. by destruct b. Qed.

Lemma put_length b : 0 < length (put b).
Proof. destruct b; cbn; lia. Qed.

Lemma take_puts ks fuel :
  length (concat (put ∘ as_bytes <$> ks)) < fuel →
  take_strings fuel (concat (put ∘ as_bytes <$> ks)) = Some ks.
Proof.
  revert fuel. induction ks as [|k ks IH]; intros [|fuel] Hf; try (cbn in Hf; lia); [done|].
  rewrite fmap_cons in *. cbn [concat] in *. rewrite length_app in Hf.
  pose proof (put_length (as_bytes k)) as Hk. unfold compose in Hf at 1.
  rewrite take_strings_S.
  - unfold compose at 1. rewrite take_put. cbn [mbind option_bind].
    rewrite IH by lia. cbn. by rewrite of_as_bytes.
  - intros Hnil. apply (f_equal length) in Hnil. rewrite length_app in Hnil.
    unfold compose in Hnil at 1. cbn in Hnil. lia.
Qed.

Definition demo_json : Json WriteCommand :=
  {| Apply.to_vec := to_vec; Apply.from_slice := from_slice |}.

Lemma demo_json_laws : @JsonLaws WriteCommand demo_json.
Proof.
  split.
  - intros [k v|ks]; cbn [to_vec from_slice].
    + cbn. rewrite take_put. cbn. by rewrite of_as_bytes.
    + cbn -[take_strings]. by rewrite take_puts by lia.
  - by intros [].
Qed.
End DemoCodec.

(** ** Applying *)
Section Operations.
Context {E : Type} `{StorageEngine E}.

(** [keys.iter().filter(|k| engine.del(k)).count()] *)
Fixpoint del_all (engine : E) (keys : list string) : E * nat :=
  match keys with
  | [] => (engine, 0)
  | k :: keys =>
      let (engine, existed) := del engine k in
      let (engine, n) := del_all engine keys in
      (engine, if existed : bool then S n else n)
  end.

Definition apply (c : WriteCommand) (engine : E) : E * Z :=
  match c with
  | Set_ key value => (set engine key value, 1%Z)
  | Del keys =>
      let (engine, n) := del_all engine keys in (engine, as_i64 (N.of_nat n))
  end.

(** The accesses of a command to the engine, in order. Each takes the engine's
    lock anew, so other tasks see the store between two of them. *)
Inductive change :=
  | Put (key : string) (value : bytes)
  | Drop (key : string).

Definition changes (c : WriteCommand) : list change :=
  match c with
  | Set_ key value => [Put key value]
  | Del keys => Drop <$> keys
  end.

Definition change_store (engine : E) (x : change) : E :=
  match x with
  | Put key value => set engine key value
  | Drop key => (del engine key).1
  end.

Lemma apply_changes c engine : (apply c engine).1 = foldl change_store engine (changes c).
Proof.
  destruct c as [key value|keys]; [done|]. cbn [apply changes].
  revert engine. induction keys as [|k keys IH]; intros engine; [done|].
  cbn [del_all fmap list_fmap foldl change_store]. specialize (IH (del engine k).1).
  destruct (del engine k) as [engine1 existed]. cbn [fst] in *.
  destruct (del_all engine1 keys) as [engine2 n]. exact IH.
Qed.

(** A sequence of commands, in log order. *)
Definition apply_all (cs : list WriteCommand) (engine : E) : E :=
  foldl (λ e c, (apply c e).1) engine cs.

Lemma apply_all_changes cs engine : apply_all cs engine = foldl change_store engine (cs ≫= changes).
Proof.
  revert engine. induction cs as [|c cs IH]; intros engine; [done|].
  change (apply_all cs (apply c engine).1 = foldl change_store engine (changes c ++ (cs ≫= changes))).
  by rewrite IH, apply_changes, foldl_app.
Qed.
End Operations.

(** ** What a command means

    The last write to key [k]: [Some (Some v)] for a [Set], [Some None] for a
    [Del], [None] when [k] is not touched. *)
Definition write_of (k : string) (c : WriteCommand) : option (option bytes) :=
  match c with
  | Set_ key value => if decide (key = k) then Some (Some value) else None
  | Del keys => if decide (k ∈ keys) then Some None else None
  end.

Definition last_write (k : string) (cs : list WriteCommand) : option (option bytes) :=
  foldl (λ acc c, match write_of k c with Some w => Some w | None => acc end) None cs.

Lemma last_write_snoc k cs c :
  last_write k (cs ++ [c]) =
  match write_of k c with Some w => Some w | None => last_write k cs end.
Proof. unfold last_write. by rewrite foldl_app. Qed.

Lemma last_write_app k cs1 cs2 :
  last_write k (cs1 ++ cs2) =
  match last_write k cs2 with Some w => Some w | None => last_write k cs1 end.
Proof.
  induction cs2 as [|c cs2 IH] using rev_ind; [by rewrite app_nil_r|].
  rewrite app_assoc, !last_write_snoc, IH. by destruct (write_of k c).
Qed.

Section Theory.
Context {E : Type} `{EngineLaws E}.
Implicit Types (e : E).

Lemma get_del_all e keys k :
  get (del_all e keys).1 k = if decide (k ∈ keys) then None else get e k.
Proof.
  revert e. induction keys as [|k' keys IH]; intros e.
  { rewrite decide_False; [done|apply not_elem_of_nil]. }
  cbn [del_all]. destruct (del e k') as [e1 b] eqn:He. specialize (IH e1).
  destruct (del_all e1 keys) as [e2 n]. simpl in *. rewrite IH.
  replace e1 with (del e k').1 by by rewrite He.
  rewrite get_del. repeat case_decide; set_solver.
Qed.

Lemma get_apply e c k :
  get (apply c e).1 k = match write_of k c with Some w => w | None => get e k end.
Proof.
  destruct c as [key v|keys]; cbn [apply write_of fst].
  - rewrite get_set. by case_decide.
  - pose proof (get_del_all e keys k) as Hg. destruct (del_all e keys) as [e' n].
    cbn [fst] in *. rewrite Hg. by case_decide.
Qed.

(** The distinct listed keys the engine holds. *)
Definition present e (keys : list string) : gset string :=
  filter (λ k, is_Some (get e k)) (list_to_set keys).

Lemma size_present_le e keys : size (present e keys) ≤ length keys.
Proof.
  trans (size (list_to_set keys : gset string)).
  { apply subseteq_size. unfold present. set_solver. }
  induction keys as [|k keys IH]; simpl; [done|].
  rewrite size_union_alt, size_singleton.
  set (X := list_to_set keys : gset string) in *.
  pose proof (subseteq_size (X ∖ {[k]}) X ltac:(set_solver)). lia.
Qed.

Lemma count_del_all e keys : (del_all e keys).2 = size (present e keys).
Proof.
  revert e. induction keys as [|k keys IH]; intros e.
  { symmetry. apply size_empty_iff. unfold present. set_solver. }
  cbn [del_all]. destruct (del e k) as [e1 b] eqn:He. specialize (IH e1).
  destruct (del_all e1 keys) as [e2 n]. cbn [snd] in *. subst n.
  assert (∀ k', get e1 k' = if decide (k = k') then None else get e k') as Hget.
  { intros k'. by rewrite <-get_del, He. }
  assert (b = bool_decide (is_Some (get e k))) as -> by by rewrite <-del_existed, He.
  case_bool_decide as Hk.
  - replace (present e (k :: keys)) with ({[k]} ∪ present e1 keys).
    + rewrite size_union, size_singleton; [done|]. unfold present. apply disjoint_singleton_l.
      rewrite elem_of_filter, Hget, decide_True by done. by intros [[? [=]] _].
    + apply set_eq. intros k'. unfold present.
      rewrite elem_of_union, !elem_of_filter, Hget. case_decide; set_solver.
  - f_equal. apply set_eq. intros k'. unfold present.
    rewrite !elem_of_filter, Hget. case_decide as Heq; [|set_solver].
    subst. split; [by intros [[? [=]] _]|]. naive_solver.
Qed.

Lemma apply_all_snoc e cs c : apply_all (cs ++ [c]) e = (apply c (apply_all cs e)).1.
Proof. unfold apply_all. by rewrite foldl_app. Qed.

Lemma apply_all_app e cs1 cs2 :
  apply_all (cs1 ++ cs2) e = apply_all cs2 (apply_all cs1 e).
Proof. unfold apply_all. by rewrite foldl_app. Qed.

(** The state machine is the log: a key holds what the last command that
    touched it wrote. *)
Lemma get_apply_all e cs k :
  get (apply_all cs e) k =
  match last_write k cs with Some w => w | None => get e k end.
Proof.
  induction cs as [|c cs IH] using rev_ind; [done|].
  rewrite apply_all_snoc, get_apply, IH, last_write_snoc. by destruct (write_of k c).
Qed.

(** Replaying a suffix of the log over a store that already reflects the whole
    log changes nothing: what makes a snapshot taken later than its
    [last_included_index] converge. *)
Lemma replay_suffix e cs1 cs2 :
  same_contents (apply_all cs2 (apply_all (cs1 ++ cs2) e)) (apply_all (cs1 ++ cs2) e).
Proof.
  intros k. rewrite !get_apply_all, last_write_app. by destruct (last_write k cs2).
Qed.

#[export] Instance apply_all_proper :
  Proper ((=) ==> same_contents ==> same_contents) (apply_all (E := E)).
Proof.
  intros cs ? <- e1 e2 He k. rewrite !get_apply_all. by rewrite (He k).
Qed.
End Theory.

(** ** Properties *)
Section Properties.
Context {E : Type} `{EngineLaws E}.
Implicit Types (e : E).

(** [DEL k1 .. kn] answers the number of distinct listed keys that were
    present (a key listed twice counts once), and removes exactly them. *)
Theorem apply_del_spec e keys :
  (Z.of_nat (length keys) <= i64_max)%Z →
  (apply (Del keys) e).2 = Z.of_nat (size (present e keys)) ∧
  ∀ k, get (apply (Del keys) e).1 k = if decide (k ∈ keys) then None else get e k.
Proof.
  intros Hlen. pose proof (size_present_le e keys).
  pose proof (get_del_all e keys) as Hg. pose proof (count_del_all e keys) as Hc.
  cbn [apply]. destruct (del_all e keys) as [e' n]. cbn in *. subst n.
  split; [|done]. rewrite as_i64_small by lia. lia.
Qed.
End Properties.

(** ** Witness *)
Section Witness.
#[local] Existing Instance canonical_iter.

Lemma apply_del_spec_witness :
  let e := set (set Memory.new "a" []) "b" [x01] in
  (apply (Del ["a"; "c"; "a"]) e).2 = 1%Z.
Proof.
  intros e. destruct (apply_del_spec e ["a"; "c"; "a"]) as [-> _].
  - cbn. unfold i64_max. lia.
  - vm_compute. reflexivity.
Defined.

End Witness.
