(* ===== verification/RaftLog.v ===== *)
(** * The replicated log ([src/raft/log.rs])

    [RaftLog] and its operations, on [u64] indices with wrap-around, then the
    reference description of [splice] (merge of a leader's suffix) and the
    theorems that relate them. *)

From S2P Require Import Prelude.
Local Open Scope N_scope.
Local Open Scope u64_scope.

Record LogEntry := mkEntry {
  entry_term : N;
  command : bytes;
}.

#[export] Instance LogEntry_eq_dec : EqDecision LogEntry.
Proof. solve_decision. Defined.

Record RaftLog := mkLog {
  entries : list LogEntry;
  snapshot_index : N;
  snapshot_term : N;
}.

#[export] Instance RaftLog_eq_dec : EqDecision RaftLog.
Proof. solve_decision. Defined.

(** ** Operations *)

Definition new : RaftLog := mkLog [] 0 0.

Definition set_entries (es : list LogEntry) (l : RaftLog) : RaftLog :=
  mkLog es (snapshot_index l) (snapshot_term l).

Definition last_index (l : RaftLog) : N := snapshot_index l +w len64 (entries l).

Definition last_term (l : RaftLog) : N :=
  match last (entries l) with
  | Some entry => entry_term entry
  | None => snapshot_term l
  end.

Definition first_index (l : RaftLog) : N := snapshot_index l +w 1.

(** Offset of a 1-based index in [entries]. *)
Definition offset (l : RaftLog) (index : N) : nat :=
  N.to_nat (index -w snapshot_index l -w 1).

Definition get (l : RaftLog) (index : N) : option LogEntry :=
  if decide (index <= snapshot_index l ∨ last_index l < index) then None
  else entries l !! offset l index.

Definition term_at (l : RaftLog) (index : N) : option N :=
  if decide (index = snapshot_index l) then Some (snapshot_term l)
  else entry_term <$> get l index.

Definition append (l : RaftLog) (new_entries : list LogEntry) : N * RaftLog :=
  let l := set_entries (entries l ++ new_entries) l in (last_index l, l).

(** [entries.get(offset..)] is [None] past the end: then the empty vector. *)
Definition entries_from (l : RaftLog) (from : N) : list LogEntry :=
  if decide (from <= snapshot_index l) then entries l
  else if decide (offset l from <= length (entries l))%nat
       then drop (offset l from) (entries l) else [].

Definition matches (l : RaftLog) (index term : N) : bool :=
  match term_at l index with
  | Some t => bool_decide (t = term)
  | None => bool_decide (index = 0)
  end.

Definition truncate_from (l : RaftLog) (index : N) : RaftLog :=
  if decide (index <= snapshot_index l) then set_entries [] l
  else set_entries (take (offset l index) (entries l)) l.

(** The loop of [splice]: skip the entries that agree, and at the first one
    that does not, truncate, push it and extend with the remainder. *)
Fixpoint splice_loop (l : RaftLog) (next : N) (incoming : list LogEntry) : RaftLog :=
  match incoming with
  | [] => l
  | entry :: rest =>
      if decide (term_at l next = Some (entry_term entry)) then
        splice_loop l (next +w 1) rest
      else
        let l := truncate_from l next in
        set_entries ((entries l ++ [entry]) ++ rest) l
  end.

Definition splice (l : RaftLog) (prev_index : N) (incoming : list LogEntry) : N * RaftLog :=
  let l := splice_loop l (prev_index +w 1) incoming in (last_index l, l).

Definition install_snapshot (l : RaftLog) (last_included_index last_included_term : N) : RaftLog :=
  mkLog [] last_included_index last_included_term.

Definition compact (l : RaftLog) (index : N) : RaftLog :=
  if decide (index <= snapshot_index l ∨ last_index l < index) then l
  else
    let term := default (snapshot_term l) (term_at l index) in
    mkLog (drop (N.to_nat (index -w snapshot_index l)) (entries l)) index term.

(** ** Well-formedness: every index of the log is a [u64]. *)
Definition log_ok (l : RaftLog) : Prop := snapshot_index l + len64 (entries l) < two64.

(** The index range of the log, without wrap-around. *)
Lemma last_index_eq l : log_ok l → last_index l = snapshot_index l + len64 (entries l).
Proof. apply wadd_small. Qed.

Lemma offset_eq l i :
  log_ok l → snapshot_index l < i → i < two64 →
  offset l i = N.to_nat (i - snapshot_index l - 1).
Proof.
  unfold log_ok. intros ???. unfold offset. f_equal.
  rewrite (wsub_small i) by lia. rewrite wsub_small; lia.
Qed.

Lemma get_in l i :
  log_ok l → snapshot_index l < i ≤ last_index l →
  get l i = entries l !! N.to_nat (i - snapshot_index l - 1).
Proof.
  intros Hok [Hi Hi']. unfold get. rewrite decide_False by lia.
  rewrite last_index_eq in Hi' by done. rewrite offset_eq by (unfold log_ok in *; lia). done.
Qed.

Lemma get_out l i : i ≤ snapshot_index l ∨ last_index l < i → get l i = None.
Proof. intros. unfold get. by rewrite decide_True. Qed.

(** The [k]-th retained entry has index [snapshot_index + 1 + k]. *)
Lemma get_nth l (k : nat) :
  log_ok l → get l (snapshot_index l + 1 + N.of_nat k) = entries l !! k.
Proof.
  intros Hok. destruct (decide (k < length (entries l))%nat) as [Hk|Hk].
  - rewrite get_in; [f_equal; lia|done|].
    rewrite last_index_eq by done. unfold len64. lia.
  - rewrite get_out, lookup_ge_None_2; [done|lia|].
    right. rewrite last_index_eq by done. unfold len64. lia.
Qed.

Lemma get_is_Some l i :
  log_ok l → is_Some (get l i) ↔ snapshot_index l < i ≤ last_index l.
Proof.
  intros Hok. split.
  - intros [e He]. unfold get in He. case_decide; [done|lia].
  - intros Hi. rewrite get_in by done. apply lookup_lt_is_Some.
    rewrite last_index_eq in Hi by done. unfold len64 in Hi. lia.
Qed.

Lemma term_at_snapshot l : term_at l (snapshot_index l) = Some (snapshot_term l).
Proof. unfold term_at. by rewrite decide_True. Qed.

Lemma term_at_get l i : i ≠ snapshot_index l → term_at l i = entry_term <$> get l i.
Proof. intros. unfold term_at. by rewrite decide_False. Qed.

Lemma term_at_nth l (k : nat) :
  log_ok l → term_at l (snapshot_index l + 1 + N.of_nat k) = entry_term <$> entries l !! k.
Proof. intros. rewrite term_at_get by lia. by rewrite get_nth. Qed.

Lemma term_at_is_Some l i :
  log_ok l → is_Some (term_at l i) ↔ snapshot_index l ≤ i ≤ last_index l.
Proof.
  intros Hok. destruct (decide (i = snapshot_index l)) as [->|Hi].
  - rewrite term_at_snapshot. rewrite last_index_eq by done. split; [lia|eauto].
  - rewrite term_at_get, fmap_is_Some, get_is_Some by done. lia.
Qed.

(** ** Reference description of [splice]

    [merge old inc] keeps the part of [old] whose terms agree with [inc]; at
    the first disagreement everything left of [old] is replaced by the rest of
    [inc] (Raft §5.3). *)
Fixpoint merge (old inc : list LogEntry) : list LogEntry :=
  match inc, old with
  | [], _ => old
  | _, [] => inc
  | e :: inc', o :: old' =>
      if decide (entry_term o = entry_term e) then o :: merge old' inc' else inc
  end.

Definition terms (es : list LogEntry) : list N := entry_term <$> es.

Lemma merge_nil_r old : merge old [] = old.
Proof. by destruct old. Qed.

Lemma merge_nil_l inc : merge [] inc = inc.
Proof. by destruct inc. Qed.

(** The merged log starts with the leader's terms. *)
Lemma merge_terms old inc : terms inc `prefix_of` terms (merge old inc).
Proof.
  revert old. induction inc as [|e inc IH]; intros old; [apply prefix_nil|].
  destruct old as [|o old]; [done|]. cbn [merge]. case_decide as He; [|done].
  cbn. rewrite He. apply prefix_cons, IH.
Qed.

(** Nothing is lost when the leader's terms are already there: in particular
    replayed and reordered (shorter) messages are no-ops. *)
Lemma merge_agreeing old inc : terms inc `prefix_of` terms old → merge old inc = old.
Proof.
  revert old. induction inc as [|e inc IH]; intros old Hp; [by destruct old|].
  destruct old as [|o old]; [by apply prefix_nil_not in Hp|].
  cbn in *. apply prefix_cons_inv_1 in Hp as Heq. apply prefix_cons_inv_2 in Hp.
  rewrite decide_True by done. f_equal. by apply IH.
Qed.

(** Either everything agreed, or the result ends where the message ends. *)
Lemma merge_length old inc :
  merge old inc = old ∨ length (merge old inc) = length inc.
Proof.
  revert old. induction inc as [|e inc IH]; intros old; [left; by destruct old|].
  destruct old as [|o old]; [by right|]. cbn [merge]. case_decide; [|by right].
  destruct (IH old) as [->|Hl]; [by left|right]. cbn. by rewrite Hl.
Qed.

Lemma merge_length_ge old inc : (length inc ≤ length (merge old inc))%nat.
Proof.
  pose proof (prefix_length _ _ (merge_terms old inc)) as H.
  unfold terms in H. by rewrite !length_fmap in H.
Qed.

(** When equal terms at equal positions mean equal entries, the merged log
    starts with the leader's entries themselves. *)
Lemma merge_prefix old inc :
  (∀ i o e, old !! i = Some o → inc !! i = Some e → entry_term o = entry_term e → o = e) →
  inc `prefix_of` merge old inc.
Proof.
  revert old. induction inc as [|e inc IH]; intros old Hm; [apply prefix_nil|].
  destruct old as [|o old]; [done|]. cbn [merge]. case_decide as He; [|done].
  rewrite (Hm 0%nat o e eq_refl eq_refl He).
  apply prefix_cons, IH. intros i. apply (Hm (S i)).
Qed.

(** A prefix of [old] on which the message agrees survives. *)
Lemma merge_keeps old inc (k : nat) :
  (k ≤ length old)%nat →
  (∀ j e, (j < k)%nat → inc !! j = Some e → entry_term <$> old !! j = Some (entry_term e)) →
  take k (merge old inc) = take k old.
Proof.
  revert old k. induction inc as [|e inc IH]; intros old k Hk Hag.
  { by rewrite merge_nil_r. }
  destruct k as [|k]; [done|]. destruct old as [|o old]; [cbn in Hk; lia|].
  pose proof (Hag 0%nat e ltac:(lia) eq_refl) as He. cbn in He. injection He as He.
  cbn [merge]. rewrite decide_True by done. cbn [take]. f_equal.
  apply IH; [cbn in Hk; lia|]. intros j e' Hj. apply (Hag (S j)). lia.
Qed.

(** ** [splice] implements [merge] *)

Lemma truncate_from_nth l (k : nat) :
  log_ok l → snapshot_index l + 1 + N.of_nat k < two64 →
  truncate_from l (snapshot_index l + 1 + N.of_nat k) = set_entries (take k (entries l)) l.
Proof.
  intros Hok Hlt. unfold truncate_from. rewrite decide_False by lia.
  rewrite offset_eq by (done || lia). do 2 f_equal. lia.
Qed.

Lemma splice_loop_merge l (k : nat) inc :
  log_ok l → (k ≤ length (entries l))%nat →
  snapshot_index l + N.of_nat k + len64 inc < u64_max →
  splice_loop l (snapshot_index l + 1 + N.of_nat k) inc =
    set_entries (take k (entries l) ++ merge (drop k (entries l)) inc) l.
Proof.
  unfold len64, u64_max. intros Hok. revert k.
  induction inc as [|e inc IH]; intros k Hk Hb; cbn [splice_loop].
  { rewrite merge_nil_r, take_drop. by destruct l. }
  cbn [length] in Hb. rewrite term_at_nth by done.
  destruct (entries l !! k) as [o|] eqn:Ho; cbn [fmap option_fmap option_map].
  - rewrite (drop_S _ _ _ Ho). cbn [merge]. case_decide as Heq.
    + injection Heq as Heq. rewrite decide_True by done.
      rewrite wadd_small by (unfold two64; lia).
      replace (snapshot_index l + 1 + N.of_nat k + 1)
        with (snapshot_index l + 1 + N.of_nat (S k)) by lia.
      apply lookup_lt_Some in Ho as Hlt. rewrite IH by lia.
      by rewrite (take_S_r _ _ _ Ho), <-app_assoc.
    + rewrite decide_False by congruence. rewrite truncate_from_nth by (done || (unfold two64; lia)).
      cbn [entries set_entries]. by rewrite <-app_assoc.
  - rewrite decide_False by done. rewrite truncate_from_nth by (done || (unfold two64; lia)).
    apply lookup_ge_None_1 in Ho. rewrite (drop_ge _ k) by done. rewrite merge_nil_l.
    cbn [entries set_entries]. by rewrite <-app_assoc.
Qed.

(** The position in [entries] just after index [prev]. *)
Definition tail_pos (l : RaftLog) (prev : N) : nat := N.to_nat (prev - snapshot_index l).

(** A message that the code may splice: [prev] is the snapshot point or a
    retained entry, and the resulting indices fit in a [u64]. *)
Definition spliceable (l : RaftLog) (prev : N) (inc : list LogEntry) : Prop :=
  log_ok l ∧ snapshot_index l ≤ prev ≤ last_index l ∧ prev + len64 inc < u64_max.

Lemma splice_merge l prev inc :
  spliceable l prev inc →
  (splice l prev inc).2 =
    set_entries (take (tail_pos l prev) (entries l) ++
                 merge (drop (tail_pos l prev) (entries l)) inc) l.
Proof.
  intros (Hok & Hprev & Hb). cbn [splice snd]. rewrite last_index_eq in Hprev by done.
  unfold len64, u64_max in *. destruct inc as [|e inc].
  { cbn [splice_loop]. rewrite merge_nil_r, take_drop. by destruct l. }
  rewrite wadd_small by (unfold two64; cbn [length] in Hb; lia). unfold tail_pos.
  replace (prev + 1) with (snapshot_index l + 1 + N.of_nat (N.to_nat (prev - snapshot_index l)))
    by lia.
  apply splice_loop_merge; [done|lia|unfold len64, u64_max; lia].
Qed.

Lemma splice_snapshot l prev inc :
  snapshot_index (splice l prev inc).2 = snapshot_index l ∧
  snapshot_term (splice l prev inc).2 = snapshot_term l.
Proof.
  cbn [splice snd]. generalize (prev +w 1). revert l.
  induction inc as [|e inc IH]; intros l next; [done|].
  cbn [splice_loop]. case_decide; [apply IH|].
  unfold truncate_from. by case_decide.
Qed.

Lemma splice_length l prev inc :
  spliceable l prev inc →
  (splice l prev inc).2 = l ∨
  length (entries (splice l prev inc).2) = (tail_pos l prev + length inc)%nat.
Proof.
  intros Hs. rewrite splice_merge by done. destruct Hs as (Hok & Hprev & Hb).
  rewrite last_index_eq in Hprev by done. unfold len64 in *.
  destruct (merge_length (drop (tail_pos l prev) (entries l)) inc) as [->|Hl].
  - left. rewrite take_drop. by destruct l.
  - right. cbn. rewrite length_app, length_take, Hl. unfold tail_pos. lia.
Qed.

Lemma splice_ok l prev inc : spliceable l prev inc → log_ok (splice l prev inc).2.
Proof.
  intros Hs. destruct (splice_length l prev inc Hs) as [->|Hl]; [apply Hs|].
  destruct Hs as (Hok & Hprev & Hb). unfold log_ok, len64, two64, u64_max in *.
  rewrite (proj1 (splice_snapshot l prev inc)), Hl. unfold tail_pos. lia.
Qed.

Lemma splice_last_index_ge l prev inc :
  spliceable l prev inc → prev + len64 inc ≤ last_index (splice l prev inc).2.
Proof.
  intros Hs. pose proof (splice_ok _ _ _ Hs) as Hok'. rewrite last_index_eq by done.
  rewrite (proj1 (splice_snapshot l prev inc)), splice_merge by done.
  destruct Hs as (Hok & Hprev & Hb). rewrite last_index_eq in Hprev by done.
  cbn. unfold len64 in *. rewrite length_app, length_take.
  pose proof (merge_length_ge (drop (tail_pos l prev) (entries l)) inc).
  unfold tail_pos in *. lia.
Qed.

(** The log up to [prev] is untouched. *)
Lemma splice_get_before l prev inc i :
  spliceable l prev inc → i ≤ prev → get (splice l prev inc).2 i = get l i.
Proof.
  intros Hs Hi. pose proof (splice_ok _ _ _ Hs) as Hok'.
  pose proof (splice_last_index_ge _ _ _ Hs) as Hge.
  pose proof Hs as (Hok & Hprev & _).
  destruct (decide (snapshot_index l < i)) as [Hlt|Hge'].
  - rewrite !get_in; [|done|lia|done|].
    2: { rewrite (proj1 (splice_snapshot l prev inc)). lia. }
    rewrite (proj1 (splice_snapshot l prev inc)), splice_merge by done. cbn.
    rewrite last_index_eq in Hprev by done. unfold len64, tail_pos in *.
    rewrite lookup_app_l by (rewrite length_take; lia).
    apply lookup_take_lt. lia.
  - rewrite !get_out; [done|lia|left].
    rewrite (proj1 (splice_snapshot l prev inc)). lia.
Qed.

Lemma splice_term_before l prev inc i :
  spliceable l prev inc → i ≤ prev → term_at (splice l prev inc).2 i = term_at l i.
Proof.
  intros Hs Hi. unfold term_at. rewrite splice_get_before by done.
  by rewrite (proj1 (splice_snapshot l prev inc)), (proj2 (splice_snapshot l prev inc)).
Qed.

(** After [prev] the log carries the terms of the message. *)
Lemma splice_term_after l prev inc (j : nat) e :
  spliceable l prev inc → inc !! j = Some e →
  term_at (splice l prev inc).2 (prev + 1 + N.of_nat j) = Some (entry_term e).
Proof.
  intros Hs Hj. pose proof (splice_ok _ _ _ Hs) as Hok'. pose proof Hs as (Hok & Hprev & _).
  pose proof (splice_snapshot l prev inc) as [Hsi _].
  replace (prev + 1 + N.of_nat j) with
    (snapshot_index (splice l prev inc).2 + 1 + N.of_nat (tail_pos l prev + j))
    by (rewrite Hsi; unfold tail_pos; lia).
  rewrite term_at_nth by done. rewrite splice_merge by done. cbn [entries set_entries].
  rewrite last_index_eq in Hprev by done. unfold len64 in *.
  assert (length (take (tail_pos l prev) (entries l)) = tail_pos l prev) as Hlen.
  { rewrite length_take. unfold tail_pos. lia. }
  rewrite lookup_app_r, Hlen by lia.
  replace (tail_pos l prev + j - tail_pos l prev)%nat with j by lia.
  destruct (merge_terms (drop (tail_pos l prev) (entries l)) inc) as [ts Hts].
  assert (terms inc !! j = Some (entry_term e)) as Hl.
  { unfold terms. by rewrite list_lookup_fmap, Hj. }
  pose proof (lookup_app_l_Some _ ts _ _ Hl) as Hl'. rewrite <-Hts in Hl'.
  unfold terms in Hl'. rewrite list_lookup_fmap in Hl'. done.
Qed.

(** If the message agrees with the log up to index [c], the log up to [c] is
    kept. *)
Lemma splice_keeps l prev inc c :
  spliceable l prev inc → c ≤ last_index l →
  (∀ (j : nat) e, inc !! j = Some e → prev + 1 + N.of_nat j ≤ c →
     term_at l (prev + 1 + N.of_nat j) = Some (entry_term e)) →
  c ≤ last_index (splice l prev inc).2 ∧
  ∀ i, i ≤ c → get (splice l prev inc).2 i = get l i.
Proof.
  intros Hs Hc Hag. pose proof (splice_ok _ _ _ Hs) as Hok'.
  pose proof (splice_snapshot l prev inc) as [Hsi _]. pose proof Hs as (Hok & Hprev & _).
  destruct (decide (c ≤ prev)) as [Hcp|Hcp].
  { split; [pose proof (splice_last_index_ge _ _ _ Hs); lia|].
    intros i Hi. apply splice_get_before; [done|lia]. }
  assert (take (tail_pos l c) (entries (splice l prev inc).2) =
          take (tail_pos l c) (entries l)) as Htake.
  { rewrite splice_merge by done. cbn [entries set_entries].
    rewrite last_index_eq in Hprev, Hc by done. unfold len64 in *.
    rewrite <-(take_drop (tail_pos l prev) (entries l)) at 3.
    rewrite !take_app, length_take.
    replace (tail_pos l prev `min` length (entries l))%nat with (tail_pos l prev)
      by (unfold tail_pos; lia).
    f_equal. apply merge_keeps.
    - rewrite length_drop. unfold tail_pos. lia.
    - intros j e Hj He. rewrite lookup_drop, <-term_at_nth by done.
      rewrite <-(Hag j e He) by (unfold tail_pos in *; lia).
      f_equal. unfold tail_pos. lia. }
  apply (f_equal length) in Htake as Hlen. rewrite !length_take in Hlen.
  assert (c ≤ last_index (splice l prev inc).2) as Hge.
  { rewrite last_index_eq in Hc |- * by done. rewrite Hsi. unfold len64, tail_pos in *. lia. }
  split; [done|]. intros i Hi.
  destruct (decide (snapshot_index l < i)) as [Hlt|]; [|rewrite !get_out by lia; done].
  rewrite !get_in by (done || lia). rewrite Hsi.
  rewrite <-(lookup_take_lt _ (tail_pos l c)), Htake, lookup_take_lt
    by (unfold tail_pos; lia). done.
Qed.

Lemma matches_range l i t :
  log_ok l → matches l i t = true → i = 0 ∨ (snapshot_index l ≤ i ≤ last_index l).
Proof.
  intros Hok. unfold matches. destruct (term_at l i) eqn:Ht.
  - intros _. right. apply term_at_is_Some; [done|eauto].
  - intros Hi%bool_decide_eq_true_1. by left.
Qed.

(** The suffix a leader sends. *)
Lemma entries_from_nth l from (j : nat) :
  log_ok l → snapshot_index l < from → from + N.of_nat j < two64 →
  entries_from l from !! j = get l (from + N.of_nat j).
Proof.
  intros Hok Hf Hb. unfold entries_from. rewrite decide_False by lia.
  assert (offset l from = N.to_nat (from - snapshot_index l - 1)) as Ho
    by (apply offset_eq; [done|lia..]).
  replace (from + N.of_nat j) with (snapshot_index l + 1 + N.of_nat (offset l from + j))
    by lia.
  rewrite get_nth by done. case_decide; [by rewrite lookup_drop|].
  symmetry. apply lookup_ge_None_2. lia.
Qed.

Lemma entries_from_length l from :
  log_ok l → snapshot_index l < from ≤ last_index l + 1 → from < two64 →
  from + len64 (entries_from l from) = last_index l + 1.
Proof.
  intros Hok Hf Hb. rewrite last_index_eq in Hf |- * by done.
  unfold entries_from. rewrite decide_False by lia.
  rewrite offset_eq by (done || lia). unfold len64 in *.
  rewrite decide_True by lia. rewrite length_drop. lia.
Qed.

(** *** Appending *)

Lemma append_last_index l es :
  last_index l + len64 es < two64 → log_ok l →
  last_index (append l es).2 = last_index l + len64 es ∧ log_ok (append l es).2.
Proof.
  intros Hb Hok. rewrite (last_index_eq l) in Hb |- * by done.
  assert (log_ok (append l es).2) as Hok'.
  { unfold log_ok. cbn [append snd set_entries entries snapshot_index].
    rewrite len64_app. lia. }
  split; [|done]. rewrite last_index_eq by done.
  cbn [append snd set_entries entries snapshot_index]. rewrite len64_app. lia.
Qed.

Lemma append_get l es i :
  last_index l + len64 es < two64 → log_ok l → i ≤ last_index l →
  get (append l es).2 i = get l i.
Proof.
  intros Hb Hok Hi. destruct (append_last_index l es Hb Hok) as [Hli Hok'].
  destruct (decide (snapshot_index l < i)) as [Hlt|]; [|by rewrite !get_out by (cbn; lia)].
  rewrite !get_in by (done || cbn; lia || cbn in *; lia). cbn.
  rewrite last_index_eq in Hi by done. unfold len64 in Hi.
  by rewrite lookup_app_l by lia.
Qed.

Lemma append_get_last l e :
  last_index l + 1 < two64 → log_ok l →
  get (append l [e]).2 (last_index l + 1) = Some e.
Proof.
  intros Hb Hok. destruct (append_last_index l [e] Hb Hok) as [Hli Hok'].
  rewrite (last_index_eq l) by done.
  replace (snapshot_index l + len64 (entries l) + 1) with
    (snapshot_index (append l [e]).2 + 1 + N.of_nat (length (entries l)))
    by (cbn; unfold len64; lia).
  rewrite get_nth by done. cbn. by rewrite lookup_app_r, Nat.sub_diag by lia.
Qed.

(** *** Compaction *)

Lemma compact_eq l i :
  log_ok l → snapshot_index l < i ≤ last_index l →
  ∃ e, entries l !! N.to_nat (i - snapshot_index l - 1) = Some e ∧
       compact l i = mkLog (drop (N.to_nat (i - snapshot_index l)) (entries l)) i (entry_term e).
Proof.
  intros Hok Hi. destruct (proj2 (get_is_Some l i Hok) Hi) as [e He].
  exists e. pose proof He as He'. rewrite get_in in He' by done. split; [done|].
  unfold compact. rewrite decide_False by lia.
  rewrite term_at_get by lia. rewrite He. cbn.
  rewrite last_index_eq in Hi by done. rewrite wsub_small by (unfold log_ok in *; lia).
  done.
Qed.

Lemma compact_noop l i :
  i ≤ snapshot_index l ∨ last_index l < i → compact l i = l.
Proof. intros. unfold compact. by rewrite decide_True. Qed.

Lemma compact_ok l i : log_ok l → log_ok (compact l i).
Proof.
  intros Hok. destruct (decide (snapshot_index l < i ≤ last_index l)) as [Hi|Hi].
  - destruct (compact_eq l i Hok Hi) as (e & _ & ->). rewrite last_index_eq in Hi by done.
    unfold log_ok, len64 in *. cbn. rewrite length_drop. lia.
  - by rewrite compact_noop by lia.
Qed.

Lemma compact_last_index l i : log_ok l → last_index (compact l i) = last_index l.
Proof.
  intros Hok. destruct (decide (snapshot_index l < i ≤ last_index l)) as [Hi|Hi].
  - pose proof (compact_ok l i Hok) as Hok'. rewrite !last_index_eq by done.
    destruct (compact_eq l i Hok Hi) as (e & _ & ->). rewrite last_index_eq in Hi by done.
    unfold len64 in *. cbn. rewrite length_drop. lia.
  - by rewrite compact_noop by lia.
Qed.

Lemma compact_get l i j : log_ok l → i < j → get (compact l i) j = get l j.
Proof.
  intros Hok Hj. destruct (decide (snapshot_index l < i ≤ last_index l)) as [Hi|Hi];
    [|by rewrite compact_noop by lia].
  destruct (decide (j ≤ last_index l)) as [Hjl|Hjl].
  - pose proof (compact_ok l i Hok) as Hok'. pose proof (compact_last_index l i Hok) as Hli.
    destruct (compact_eq l i Hok Hi) as (e & _ & Hc). rewrite Hc in *.
    rewrite !get_in; [|done|lia|done|cbn; lia].
    cbn. rewrite lookup_drop. f_equal. lia.
  - rewrite !get_out; [done|lia|]. rewrite compact_last_index by done. lia.
Qed.

Lemma compact_term_at l i j :
  log_ok l → i ≤ j → snapshot_index l ≤ i → term_at (compact l i) j = term_at l j.
Proof.
  intros Hok Hj Hs. destruct (decide (snapshot_index l < i ≤ last_index l)) as [Hi|Hi];
    [|by rewrite compact_noop by lia].
  destruct (decide (i = j)) as [<-|Hne].
  - destruct (compact_eq l i Hok Hi) as (e & He & ->).
    rewrite (term_at_get l), get_in, He by (done || lia).
    unfold term_at. by rewrite decide_True.
  - rewrite (term_at_get l), <-(compact_get l i) by (done || lia).
    apply term_at_get.
    destruct (compact_eq l i Hok Hi) as (e & _ & ->). cbn. lia.
Qed.

Lemma compact_snapshot_index l i :
  snapshot_index (compact l i) =
  if decide (i ≤ snapshot_index l ∨ last_index l < i) then snapshot_index l else i.
Proof. unfold compact. by case_decide. Qed.

Lemma last_term_term_at l : log_ok l → term_at l (last_index l) = Some (last_term l).
Proof.
  intros Hok. unfold last_term. rewrite last_index_eq by done.
  destruct (last (entries l)) as [e|] eqn:He.
  - apply last_Some in He as [es He].
    replace (snapshot_index l + len64 (entries l))
      with (snapshot_index l + 1 + N.of_nat (length es)).
    2: { unfold len64. rewrite He, length_app. cbn. lia. }
    rewrite term_at_nth, He, lookup_app_r by (done || lia). by rewrite Nat.sub_diag.
  - apply last_None in He. rewrite He. cbn. rewrite N.add_0_r. apply term_at_snapshot.
Qed.

(** ** Properties *)

(** [C30] Where an append is accepted above the snapshot point ([spliceable]: [prev]
    lies between the snapshot point and the last index, and the entries do not
    run past the last [u64] index), [splice] implements the reference [merge] on
    the part of the log after [prev]: it keeps the snapshot point and everything up to [prev], merges the
    rest with the incoming entries, returns the new last index, and keeps every
    index in [u64]. *)
Theorem splice_refines_merge l prev inc :
  spliceable l prev inc →
  ∃ l', splice l prev inc = (last_index l', l') ∧ log_ok l' ∧
    snapshot_index l' = snapshot_index l ∧ snapshot_term l' = snapshot_term l ∧
    entries l' = take (tail_pos l prev) (entries l) ++
                 merge (drop (tail_pos l prev) (entries l)) inc.
Proof.
  intros Hs. exists (splice l prev inc).2. pose proof (splice_snapshot l prev inc) as [??].
  split_and!; [done|by apply splice_ok|done..|]. by rewrite splice_merge.
Qed.

Definition demo_log : RaftLog :=
  mkLog [mkEntry 1 [x01]; mkEntry 1 [x02]; mkEntry 2 [x03]] 2 1.

Lemma splice_refines_merge_witness :
  ∃ l', splice demo_log 3 [mkEntry 1 [x02]; mkEntry 4 [x04]] = (5, l') ∧
    entries l' = [mkEntry 1 [x01]; mkEntry 1 [x02]; mkEntry 4 [x04]].
Proof.
  destruct (splice_refines_merge demo_log 3 [mkEntry 1 [x02]; mkEntry 4 [x04]])
    as (l' & Hs & _ & _ & _ & He).
  - split_and!; vm_compute; congruence.
  - exists l'. split; [|by rewrite He]. rewrite Hs. f_equal.
    injection Hs as <-. vm_compute. reflexivity.
Defined.

(** Index view of [splice]: entries and terms at or below [prev] are
    unchanged, the term at each index after [prev] covered by the message is
    the message's, and the log reaches at least the end of the message. *)
Theorem splice_index_view l prev inc :
  spliceable l prev inc →
  (∀ i, i ≤ prev → get (splice l prev inc).2 i = get l i ∧
                   term_at (splice l prev inc).2 i = term_at l i) ∧
  (∀ (j : nat) e, inc !! j = Some e →
     term_at (splice l prev inc).2 (prev + 1 + N.of_nat j) = Some (entry_term e)) ∧
  prev + len64 inc ≤ (splice l prev inc).1.
Proof.
  intros Hs. split_and!.
  - intros i Hi. split; [by apply splice_get_before|by apply splice_term_before].
  - intros j e He. by apply splice_term_after.
  - by apply splice_last_index_ge.
Qed.

Lemma splice_index_view_witness :
  term_at (splice demo_log 3 [mkEntry 1 [x02]; mkEntry 4 [x04]]).2 5 = Some 4.
Proof.
  destruct (splice_index_view demo_log 3 [mkEntry 1 [x02]; mkEntry 4 [x04]])
    as (_ & H & _).
  - split_and!; vm_compute; congruence.
  - exact (H 1%nat _ eq_refl).
Defined.

(** A stale message is harmless: after the entries of a message were
    spliced, splicing any prefix of them at the same position (a retransmission
    or a reordered older message) changes nothing. *)
Theorem splice_stale_noop l prev inc inc' :
  spliceable l prev inc → inc' `prefix_of` inc →
  (splice (splice l prev inc).2 prev inc').2 = (splice l prev inc).2.
Proof.
  intros Hs [suffix Hinc]. pose proof (splice_ok _ _ _ Hs) as Hok'.
  pose proof (splice_snapshot l prev inc) as [Hsi Hst].
  assert (spliceable (splice l prev inc).2 prev inc') as Hs'.
  { pose proof (splice_last_index_ge _ _ _ Hs). destruct Hs as (Hok & Hprev & Hb).
    rewrite Hinc, len64_app in *. split_and!; [done|lia..]. }
  rewrite (splice_merge _ _ inc') by done.
  assert (tail_pos (splice l prev inc).2 prev = tail_pos l prev) as ->
    by (unfold tail_pos; by rewrite Hsi).
  rewrite merge_agreeing, take_drop; [by destruct (splice l prev inc).2|].
  rewrite splice_merge by done. cbn [entries set_entries].
  destruct Hs as (Hok & Hprev & Hb). rewrite last_index_eq in Hprev by done.
  rewrite drop_app_ge by (rewrite length_take; lia).
  rewrite length_take_le by (unfold tail_pos, len64 in *; lia).
  rewrite Nat.sub_diag. etrans; [|apply merge_terms].
  rewrite Hinc. unfold terms. rewrite fmap_app. by eexists.
Qed.

Lemma splice_stale_noop_witness :
  let inc := [mkEntry 1 [x02]; mkEntry 4 [x04]] in
  (splice (splice demo_log 3 inc).2 3 [mkEntry 1 [x02]]).2 = (splice demo_log 3 inc).2.
Proof.
  intros inc. apply (splice_stale_noop demo_log 3 inc).
  - split_and!; vm_compute; congruence.
  - by exists [mkEntry 4 [x04]].
Defined.

(** Compaction at a retained index forgets exactly the entries at or below
    it: the index arithmetic, the last index and term, the term at the new
    snapshot point and every later entry are preserved. *)
Theorem compact_preserves l i :
  log_ok l → snapshot_index l < i ≤ last_index l →
  log_ok (compact l i) ∧ snapshot_index (compact l i) = i ∧
  last_index (compact l i) = last_index l ∧ last_term (compact l i) = last_term l ∧
  (∀ j, i ≤ j → term_at (compact l i) j = term_at l j) ∧
  (∀ j, get (compact l i) j = if decide (j ≤ i) then None else get l j).
Proof.
  intros Hok Hi. pose proof (compact_ok l i Hok). pose proof (compact_last_index l i Hok).
  split_and!; [done| |done| | |].
  - rewrite compact_snapshot_index, decide_False; lia.
  - pose proof (last_term_term_at (compact l i)) as H1.
    pose proof (last_term_term_at l) as H2.
    rewrite compact_last_index, compact_term_at in H1 by lia || done.
    rewrite H2 in H1 by done. specialize (H1 ltac:(done)). congruence.
  - intros j Hj. apply compact_term_at; [done|lia..].
  - intros j. case_decide; [|apply compact_get; [done|lia]].
    apply get_out. left. rewrite compact_snapshot_index, decide_False; lia.
Qed.

Lemma compact_preserves_witness :
  log_ok (compact demo_log 4) ∧ snapshot_index (compact demo_log 4) = 4 ∧
  term_at (compact demo_log 4) 4 = Some 1.
Proof.
  destruct (compact_preserves demo_log 4) as (? & ? & _ & _ & H & _).
  - vm_compute. congruence.
  - vm_compute. split; congruence.
  - split_and!; [done..|]. rewrite (H 4) by lia. vm_compute. reflexivity.
Defined.

(** A log whose first two indices are compacted away accepts a message with
    [prev_index = 0] whatever its term ([matches] answers true because index 0
    is unknown), and [splice] then discards all retained entries and stores the
    leader's entry 1 just after the snapshot point. *)
Theorem splice_below_snapshot l t e inc :
  log_ok l → 2 ≤ snapshot_index l →
  matches l 0 t = true ∧ entries (splice l 0 (e :: inc)).2 = e :: inc ∧
  (len64 (e :: inc) < two64 - snapshot_index l →
   get (splice l 0 (e :: inc)).2 (snapshot_index l + 1) = Some e).
Proof.
  intros Hok Hs.
  assert (∀ i, i < snapshot_index l → term_at l i = None) as Hnone.
  { intros i Hi. rewrite term_at_get, get_out by lia. done. }
  assert (entries (splice l 0 (e :: inc)).2 = e :: inc) as He.
  { cbn. rewrite wadd_small by (unfold two64; lia). rewrite Hnone by lia.
    rewrite decide_False by done. unfold truncate_from. by rewrite decide_True by lia. }
  split_and!; [|done|].
  - unfold matches. rewrite Hnone by lia. done.
  - intros Hlen. pose proof (splice_snapshot l 0 (e :: inc)) as [Hsi _].
    rewrite <-Hsi. rewrite <-(N.add_0_r (_ + 1)).
    rewrite (get_nth _ 0), He; [done|].
    unfold log_ok. rewrite He, Hsi. lia.
Qed.

Lemma splice_below_snapshot_witness :
  get (splice demo_log 0 [mkEntry 1 [x07]]).2 3 = Some (mkEntry 1 [x07]).
Proof.
  apply (splice_below_snapshot demo_log 0 (mkEntry 1 [x07]) []);
    vm_compute; congruence.
Defined.
