(* ===== verification/RaftState.v ===== *)
(** * Raft messages and per-role bookkeeping
    ([src/raft/message.rs], [src/raft/state.rs]) *)

From S2P Require Import Prelude Storage RaftLog.
Local Open Scope N_scope.
Local Open Scope u64_scope.

(** ** Messages *)

Abbreviation NodeId := string.

Record RequestVote := mkRequestVote {
  rv_term : N;
  rv_candidate_id : NodeId;
  rv_last_log_index : N;
  rv_last_log_term : N;
}.

Record RequestVoteReply := mkRequestVoteReply {
  rvr_term : N;
  rvr_voter_id : NodeId;
  rvr_vote_granted : bool;
}.

Record AppendEntries := mkAppendEntries {
  ae_term : N;
  ae_leader_id : NodeId;
  ae_prev_log_index : N;
  ae_prev_log_term : N;
  ae_entries : list LogEntry;
  ae_leader_commit : N;
}.

Record AppendEntriesReply := mkAppendEntriesReply {
  aer_term : N;
  aer_follower_id : NodeId;
  aer_success : bool;
  aer_match_index : N;
  aer_conflict_index : N;
}.

Record InstallSnapshot := mkInstallSnapshot {
  is_term : N;
  is_leader_id : NodeId;
  is_last_included_index : N;
  is_last_included_term : N;
  is_data : list KeyValue;
}.

Record InstallSnapshotReply := mkInstallSnapshotReply {
  isr_term : N;
  isr_follower_id : NodeId;
}.

Inductive Message :=
  | MRequestVote (m : RequestVote)
  | MRequestVoteReply (m : RequestVoteReply)
  | MAppendEntries (m : AppendEntries)
  | MAppendEntriesReply (m : AppendEntriesReply)
  | MInstallSnapshot (m : InstallSnapshot)
  | MInstallSnapshotReply (m : InstallSnapshotReply).

#[export] Instance RequestVote_eq_dec : EqDecision RequestVote.
Proof. solve_decision. Defined.
#[export] Instance RequestVoteReply_eq_dec : EqDecision RequestVoteReply.
Proof. solve_decision. Defined.
#[export] Instance AppendEntries_eq_dec : EqDecision AppendEntries.
Proof. solve_decision. Defined.
#[export] Instance AppendEntriesReply_eq_dec : EqDecision AppendEntriesReply.
Proof. solve_decision. Defined.
#[export] Instance InstallSnapshot_eq_dec : EqDecision InstallSnapshot.
Proof. solve_decision. Defined.
#[export] Instance InstallSnapshotReply_eq_dec : EqDecision InstallSnapshotReply.
Proof. solve_decision. Defined.
#[export] Instance Message_eq_dec : EqDecision Message.
Proof. solve_decision. Defined.

Definition message_term (m : Message) : N :=
  match m with
  | MRequestVote m => rv_term m
  | MRequestVoteReply m => rvr_term m
  | MAppendEntries m => ae_term m
  | MAppendEntriesReply m => aer_term m
  | MInstallSnapshot m => is_term m
  | MInstallSnapshotReply m => isr_term m
  end.

(** ** Roles *)

Inductive Role := Follower | Candidate | Leader.

#[export] Instance Role_eq_dec : EqDecision Role.
Proof. solve_decision. Defined.

(** ** Leader progress *)

Record LeaderProgress := mkProgress {
  next_index : gmap NodeId N;
  match_index : gmap NodeId N;
}.

Definition progress_default : LeaderProgress := mkProgress ∅ ∅.

Definition progress_reset (p : LeaderProgress) (peers : list NodeId) (last_log_index : N)
    : LeaderProgress :=
  foldl (λ p peer,
    mkProgress (<[peer := last_log_index +w 1]> (next_index p))
               (<[peer := 0]> (match_index p)))
    (mkProgress ∅ ∅) peers.

Definition progress_next_index (p : LeaderProgress) (peer : NodeId) : N :=
  default 1 (next_index p !! peer).

Definition set_next_index (p : LeaderProgress) (peer : NodeId) (index : N) : LeaderProgress :=
  mkProgress (<[peer := index]> (next_index p)) (match_index p).

Definition set_match_index (p : LeaderProgress) (peer : NodeId) (index : N) : LeaderProgress :=
  mkProgress (next_index p) (<[peer := index]> (match_index p)).

(** [match_index.get(peer).copied().unwrap_or(0)], as read by the commit rule. *)
Definition matched (p : LeaderProgress) (peer : NodeId) : N :=
  default 0 (match_index p !! peer).

(** ** Vote tally: the [HashSet] of voters *)

Abbreviation VoteTally := (gset NodeId).

Definition votes_clear (v : VoteTally) : VoteTally := ∅.

Definition votes_record (v : VoteTally) (voter : NodeId) : VoteTally * nat :=
  let v := v ∪ {[voter]} in (v, size v).

Definition votes_count (v : VoteTally) : nat := size v.

(** ** Facts *)

Lemma progress_reset_lookup p peers i peer :
  peer ∈ peers →
  next_index (progress_reset p peers i) !! peer = Some (i +w 1) ∧
  match_index (progress_reset p peers i) !! peer = Some 0.
Proof.
  unfold progress_reset. generalize (mkProgress ∅ ∅).
  induction peers as [|q peers IH] using rev_ind; intros p0 Hin; [by apply not_elem_of_nil in Hin|].
  rewrite foldl_app. cbn. rewrite !lookup_insert.
  destruct (decide (q = peer)); [done|]. apply IH. set_solver.
Qed.

Lemma progress_reset_matched p peers i peer : matched (progress_reset p peers i) peer = 0.
Proof.
  unfold progress_reset, matched.
  assert (∀ p0, default 0 (match_index p0 !! peer) = 0 →
    default 0 (match_index (foldl (λ p peer,
      mkProgress (<[peer := i +w 1]> (next_index p)) (<[peer := 0]> (match_index p)))
      p0 peers) !! peer) = 0) as H.
  { induction peers as [|q peers IH]; intros p0 Hp0; [done|]. cbn. apply IH. cbn.
    rewrite lookup_insert. by case_decide. }
  by apply H.
Qed.

Lemma set_match_index_matched p q i peer :
  matched (set_match_index p q i) peer = if decide (q = peer) then i else matched p peer.
Proof. unfold matched. cbn. rewrite lookup_insert. by case_decide. Qed.
