(* ===== verification/RaftNode.v ===== *)
(** * The Raft consensus core ([src/raft/node.rs])

    [RaftNode] and every method of it as a state transformer: timers, role
    transitions, the six message handlers, replication, the commit rule,
    application of committed entries and compaction. The theorems about these
    definitions are in [NodeTheory.v] and [Election.v]. *)

From S2P Require Import Prelude Storage RaftLog RaftState.
Local Open Scope N_scope.
Local Open Scope u64_scope.

(** ** The random number generator

    [rand] is not part of the repository: the generator is a parameter.
    [gen_range lo hi] is only called with the bounds of the configuration. *)
Class Rng := {
  StdRng : Type;
  seed_from_u64 : N → StdRng;
  gen_range : N → N → StdRng → N * StdRng;
}.

Class RngLaws `{Rng} := {
  gen_range_bounds lo hi r : lo ≤ hi → lo ≤ (gen_range lo hi r).1 ≤ hi;
}.

(** ** Data *)

Record RaftConfig := mkConfig {
  heartbeat_ticks : N;
  election_timeout_min : N;
  election_timeout_max : N;
  snapshot_threshold : N;
  seed : option N;
}.

Definition default_config : RaftConfig := mkConfig 1 5 10 1024 None.

Record Envelope := mkEnvelope {
  to : NodeId;
  message : Message;
}.

Inductive Committed :=
  | CommittedCommand (index : N) (cmd : bytes)
  | CommittedSnapshot (data : list KeyValue).

Record Ready := mkReady {
  ready_messages : list Envelope;
  ready_committed : list Committed;
}.

(** Returned by [propose] when the node is not the leader. *)
Record NotLeader := mkNotLeader { leader : option NodeId }.

Section Node.
Context `{Rng}.

Record RaftNode := mkNode {
  id : NodeId;
  peers : list NodeId;
  config : RaftConfig;
  rng : StdRng;
  role : Role;
  leader_id : option NodeId;
  current_term : N;
  voted_for : option NodeId;
  log : RaftLog;
  commit_index : N;
  last_applied : N;
  progress : LeaderProgress;
  votes : VoteTally;
  election_elapsed : N;
  heartbeat_elapsed : N;
  election_timeout : N;
  outgoing : list Envelope;
  committed : list Committed;
}.

(** Field assignments, [self.field = v]. *)
Definition set_rng (v : StdRng) (n : RaftNode) : RaftNode :=
  mkNode (id n) (peers n) (config n) v (role n) (leader_id n) (current_term n) (voted_for n)
    (log n) (commit_index n) (last_applied n) (progress n) (votes n) (election_elapsed n)
    (heartbeat_elapsed n) (election_timeout n) (outgoing n) (committed n).
Definition set_role (v : Role) (n : RaftNode) : RaftNode :=
  mkNode (id n) (peers n) (config n) (rng n) v (leader_id n) (current_term n) (voted_for n)
    (log n) (commit_index n) (last_applied n) (progress n) (votes n) (election_elapsed n)
    (heartbeat_elapsed n) (election_timeout n) (outgoing n) (committed n).
Definition set_leader_id (v : option NodeId) (n : RaftNode) : RaftNode :=
  mkNode (id n) (peers n) (config n) (rng n) (role n) v (current_term n) (voted_for n)
    (log n) (commit_index n) (last_applied n) (progress n) (votes n) (election_elapsed n)
    (heartbeat_elapsed n) (election_timeout n) (outgoing n) (committed n).
Definition set_current_term (v : N) (n : RaftNode) : RaftNode :=
  mkNode (id n) (peers n) (config n) (rng n) (role n) (leader_id n) v (voted_for n) (log n)
    (commit_index n) (last_applied n) (progress n) (votes n) (election_elapsed n)
    (heartbeat_elapsed n) (election_timeout n) (outgoing n) (committed n).
Definition set_voted_for (v : option NodeId) (n : RaftNode) : RaftNode :=
  mkNode (id n) (peers n) (config n) (rng n) (role n) (leader_id n) (current_term n) v
    (log n) (commit_index n) (last_applied n) (progress n) (votes n) (election_elapsed n)
    (heartbeat_elapsed n) (election_timeout n) (outgoing n) (committed n).
Definition set_log (v : RaftLog) (n : RaftNode) : RaftNode :=
  mkNode (id n) (peers n) (config n) (rng n) (role n) (leader_id n) (current_term n)
    (voted_for n) v (commit_index n) (last_applied n) (progress n) (votes n)
    (election_elapsed n) (heartbeat_elapsed n) (election_timeout n) (outgoing n)
    (committed n).
Definition set_commit_index (v : N) (n : RaftNode) : RaftNode :=
  mkNode (id n) (peers n) (config n) (rng n) (role n) (leader_id n) (current_term n)
    (voted_for n) (log n) v (last_applied n) (progress n) (votes n) (election_elapsed n)
    (heartbeat_elapsed n) (election_timeout n) (outgoing n) (committed n).
Definition set_last_applied (v : N) (n : RaftNode) : RaftNode :=
  mkNode (id n) (peers n) (config n) (rng n) (role n) (leader_id n) (current_term n)
    (voted_for n) (log n) (commit_index n) v (progress n) (votes n) (election_elapsed n)
    (heartbeat_elapsed n) (election_timeout n) (outgoing n) (committed n).
Definition set_progress (v : LeaderProgress) (n : RaftNode) : RaftNode :=
  mkNode (id n) (peers n) (config n) (rng n) (role n) (leader_id n) (current_term n)
    (voted_for n) (log n) (commit_index n) (last_applied n) v (votes n) (election_elapsed n)
    (heartbeat_elapsed n) (election_timeout n) (outgoing n) (committed n).
Definition set_votes (v : VoteTally) (n : RaftNode) : RaftNode :=
  mkNode (id n) (peers n) (config n) (rng n) (role n) (leader_id n) (current_term n)
    (voted_for n) (log n) (commit_index n) (last_applied n) (progress n) v
    (election_elapsed n) (heartbeat_elapsed n) (election_timeout n) (outgoing n)
    (committed n).
Definition set_election_elapsed (v : N) (n : RaftNode) : RaftNode :=
  mkNode (id n) (peers n) (config n) (rng n) (role n) (leader_id n) (current_term n)
    (voted_for n) (log n) (commit_index n) (last_applied n) (progress n) (votes n) v
    (heartbeat_elapsed n) (election_timeout n) (outgoing n) (committed n).
Definition set_heartbeat_elapsed (v : N) (n : RaftNode) : RaftNode :=
  mkNode (id n) (peers n) (config n) (rng n) (role n) (leader_id n) (current_term n)
    (voted_for n) (log n) (commit_index n) (last_applied n) (progress n) (votes n)
    (election_elapsed n) v (election_timeout n) (outgoing n) (committed n).
Definition set_election_timeout (v : N) (n : RaftNode) : RaftNode :=
  mkNode (id n) (peers n) (config n) (rng n) (role n) (leader_id n) (current_term n)
    (voted_for n) (log n) (commit_index n) (last_applied n) (progress n) (votes n)
    (election_elapsed n) (heartbeat_elapsed n) v (outgoing n) (committed n).
Definition set_outgoing (v : list Envelope) (n : RaftNode) : RaftNode :=
  mkNode (id n) (peers n) (config n) (rng n) (role n) (leader_id n) (current_term n)
    (voted_for n) (log n) (commit_index n) (last_applied n) (progress n) (votes n)
    (election_elapsed n) (heartbeat_elapsed n) (election_timeout n) v (committed n).
Definition set_committed (v : list Committed) (n : RaftNode) : RaftNode :=
  mkNode (id n) (peers n) (config n) (rng n) (role n) (leader_id n) (current_term n)
    (voted_for n) (log n) (commit_index n) (last_applied n) (progress n) (votes n)
    (election_elapsed n) (heartbeat_elapsed n) (election_timeout n) (outgoing n) v.

(** ** Construction

    [gen_range] panics on an empty range, so [RaftNode::new] does: [None]. The
    configuration never changes afterwards, so no later call can panic. The
    unseeded generator comes from the operating system: an argument. *)
Definition new (entropy : StdRng) (id : NodeId) (peers : list NodeId) (config : RaftConfig)
    : option RaftNode :=
  let r := match seed config with Some s => seed_from_u64 s | None => entropy end in
  if decide (election_timeout_min config <= election_timeout_max config) then
    let drawn := gen_range (election_timeout_min config) (election_timeout_max config) r in
    Some (mkNode id peers config drawn.2 Follower None 0 None RaftLog.new 0 0
            progress_default ∅ 0 0 drawn.1 [] [])
  else None.

(** ** Accessors *)
Definition is_leader (n : RaftNode) : bool := bool_decide (role n = Leader).
Definition last_log_index (n : RaftNode) : N := last_index (log n).
Definition cluster_size (n : RaftNode) : nat := length (peers n) + 1.
Definition majority (n : RaftNode) : nat := (cluster_size n `div` 2 + 1)%nat.

(** ** Sending *)
Definition send (to : NodeId) (message : Message) (n : RaftNode) : RaftNode :=
  set_outgoing (outgoing n ++ [mkEnvelope to message]) n.

(** ** Timers and role transitions *)
Definition reset_election_timer (n : RaftNode) : RaftNode :=
  let n := set_election_elapsed 0 n in
  let drawn := gen_range (election_timeout_min (config n))
                         (election_timeout_max (config n)) (rng n) in
  set_election_timeout drawn.1 (set_rng drawn.2 n).

Definition become_follower (term : N) (leader : option NodeId) (n : RaftNode) : RaftNode :=
  let n := set_current_term term n in
  let n := set_role Follower n in
  let n := set_voted_for None n in
  let n := set_leader_id leader n in
  reset_election_timer n.

(** ** Replication *)
Definition send_append (peer : NodeId) (n : RaftNode) : RaftNode :=
  let next := progress_next_index (progress n) peer in
  if decide (next <= snapshot_index (log n)) then
    let snapshot := {|
      is_term := current_term n;
      is_leader_id := id n;
      is_last_included_index := snapshot_index (log n);
      is_last_included_term := last_term (log n);
      is_data := [] |} in
    send peer (MInstallSnapshot snapshot) n
  else
    let prev_index := next -w 1 in
    let prev_term := default 0 (term_at (log n) prev_index) in
    let append := {|
      ae_term := current_term n;
      ae_leader_id := id n;
      ae_prev_log_index := prev_index;
      ae_prev_log_term := prev_term;
      ae_entries := entries_from (log n) next;
      ae_leader_commit := commit_index n |} in
    send peer (MAppendEntries append) n.

Definition broadcast_append (n : RaftNode) : RaftNode :=
  foldl (λ n peer, send_append peer n) n (peers n).

(** Nodes holding index [i], the leader included. *)
Definition replicas (n : RaftNode) (i : N) : nat :=
  S (length (filter (λ peer, i <= matched (progress n) peer) (peers n))).

(** The reversed loop of [advance_commit] over [lo + count - 1, ..., lo]. *)
Fixpoint commit_scan (n : RaftNode) (lo : N) (count : nat) : option N :=
  match count with
  | O => None
  | S c =>
      let i := lo + N.of_nat c in
      if decide (term_at (log n) i ≠ Some (current_term n)) then commit_scan n lo c
      else if decide (majority n ≤ replicas n i)%nat then Some i
      else commit_scan n lo c
  end.

Definition advance_commit (n : RaftNode) : RaftNode :=
  if decide (role n ≠ Leader) then n
  else
    let lo := commit_index n +w 1 in
    match commit_scan n lo (N.to_nat (last_index (log n) + 1 - lo)) with
    | Some i => set_commit_index i n
    | None => n
    end.

Definition become_leader (n : RaftNode) : RaftNode :=
  let n := set_role Leader n in
  let n := set_leader_id (Some (id n)) n in
  let n := set_progress (progress_reset (progress n) (peers n) (last_index (log n))) n in
  let n := set_heartbeat_elapsed 0 n in
  let n := broadcast_append n in
  advance_commit n.

Definition become_candidate (n : RaftNode) : RaftNode :=
  let n := set_role Candidate n in
  let n := set_current_term (current_term n +w 1) n in
  let n := set_voted_for (Some (id n)) n in
  let n := set_leader_id None n in
  let n := set_votes (votes_clear (votes n)) n in
  let n := set_votes (votes_record (votes n) (id n)).1 n in
  let n := reset_election_timer n in
  if decide (majority n ≤ votes_count (votes n))%nat then become_leader n
  else
    let request := {|
      rv_term := current_term n;
      rv_candidate_id := id n;
      rv_last_log_index := last_index (log n);
      rv_last_log_term := last_term (log n) |} in
    foldl (λ n peer, send peer (MRequestVote request) n) n (peers n).

Definition tick (n : RaftNode) : RaftNode :=
  match role n with
  | Leader =>
      let n := set_heartbeat_elapsed (heartbeat_elapsed n +w 1) n in
      if decide (heartbeat_ticks (config n) <= heartbeat_elapsed n)
      then broadcast_append (set_heartbeat_elapsed 0 n) else n
  | Follower | Candidate =>
      let n := set_election_elapsed (election_elapsed n +w 1) n in
      if decide (election_timeout n <= election_elapsed n) then become_candidate n else n
  end.

Definition propose (cmd : bytes) (n : RaftNode) : RaftNode * (N + NotLeader) :=
  if decide (role n ≠ Leader) then (n, inr (mkNotLeader (leader_id n)))
  else
    let (index, l) := append (log n) [mkEntry (current_term n) cmd] in
    let n := set_log l n in
    let n := broadcast_append n in
    (advance_commit n, inl index).

(** ** RequestVote *)
Definition candidate_is_up_to_date (n : RaftNode) (index term : N) : bool :=
  let our_term := last_term (log n) in
  let our_index := last_index (log n) in
  bool_decide (our_term < term ∨ (term = our_term ∧ our_index <= index)).

Definition can_vote (n : RaftNode) (candidate : NodeId) : bool :=
  bool_decide (voted_for n = None ∨ voted_for n = Some candidate).

Definition handle_request_vote (m : RequestVote) (n : RaftNode) : RaftNode :=
  let (granted, n) :=
    if decide (current_term n <= rv_term m) then
      if can_vote n (rv_candidate_id m) &&
         candidate_is_up_to_date n (rv_last_log_index m) (rv_last_log_term m)
      then (true, reset_election_timer (set_voted_for (Some (rv_candidate_id m)) n))
      else (false, n)
    else (false, n) in
  let reply := {|
    rvr_term := current_term n;
    rvr_voter_id := id n;
    rvr_vote_granted := granted |} in
  send (rv_candidate_id m) (MRequestVoteReply reply) n.

Definition handle_request_vote_reply (m : RequestVoteReply) (n : RaftNode) : RaftNode :=
  if decide (role n ≠ Candidate ∨ rvr_term m ≠ current_term n) then n
  else if rvr_vote_granted m then
    let (v, count) := votes_record (votes n) (rvr_voter_id m) in
    let n := set_votes v n in
    if decide (majority n ≤ count)%nat then become_leader n else n
  else n.

(** ** AppendEntries *)
Definition conflict_hint (n : RaftNode) (prev_log_index : N) : N :=
  let last := last_index (log n) in
  if decide (last < prev_log_index) then last +w 1
  else N.max prev_log_index (first_index (log n)).

Definition reject_append (leader_id : NodeId) (conflict_index : N) (n : RaftNode) : RaftNode :=
  let reply := {|
    aer_term := current_term n;
    aer_follower_id := id n;
    aer_success := false;
    aer_match_index := 0;
    aer_conflict_index := conflict_index |} in
  send leader_id (MAppendEntriesReply reply) n.

Definition handle_append_entries (m : AppendEntries) (n : RaftNode) : RaftNode :=
  if decide (ae_term m < current_term n) then reject_append (ae_leader_id m) 0 n
  else
    let n := become_follower (ae_term m) (Some (ae_leader_id m)) n in
    if matches (log n) (ae_prev_log_index m) (ae_prev_log_term m) then
      let (last_new_index, l) := splice (log n) (ae_prev_log_index m) (ae_entries m) in
      let n := set_log l n in
      let n := if decide (commit_index n < ae_leader_commit m)
               then set_commit_index (N.min (ae_leader_commit m) last_new_index) n else n in
      let reply := {|
        aer_term := current_term n;
        aer_follower_id := id n;
        aer_success := true;
        aer_match_index := last_new_index;
        aer_conflict_index := 0 |} in
      send (ae_leader_id m) (MAppendEntriesReply reply) n
    else reject_append (ae_leader_id m) (conflict_hint n (ae_prev_log_index m)) n.

Definition handle_append_entries_reply (from : NodeId) (m : AppendEntriesReply) (n : RaftNode)
    : RaftNode :=
  if decide (role n ≠ Leader ∨ aer_term m ≠ current_term n) then n
  else if aer_success m then
    let n := set_progress (set_match_index (progress n) from (aer_match_index m)) n in
    let n := set_progress (set_next_index (progress n) from (aer_match_index m +w 1)) n in
    advance_commit n
  else
    let next := N.max (aer_conflict_index m) 1 in
    let n := set_progress (set_next_index (progress n) from next) n in
    send_append from n.

(** ** InstallSnapshot *)
Definition handle_install_snapshot (m : InstallSnapshot) (n : RaftNode) : RaftNode :=
  if decide (is_term m < current_term n) then n
  else
    let n := become_follower (is_term m) (Some (is_leader_id m)) n in
    let n := set_log (install_snapshot (log n) (is_last_included_index m)
                        (is_last_included_term m)) n in
    let n := set_commit_index (is_last_included_index m) n in
    let n := set_last_applied (is_last_included_index m) n in
    let n := set_committed (committed n ++ [CommittedSnapshot (is_data m)]) n in
    let reply := {| isr_term := current_term n; isr_follower_id := id n |} in
    send (is_leader_id m) (MInstallSnapshotReply reply) n.

Definition handle_install_snapshot_reply (from : NodeId) (m : InstallSnapshotReply)
    (n : RaftNode) : RaftNode :=
  if decide (role n ≠ Leader ∨ isr_term m ≠ current_term n) then n
  else
    let index := snapshot_index (log n) in
    let n := set_progress (set_match_index (progress n) from index) n in
    set_progress (set_next_index (progress n) from (index +w 1)) n.

(** ** Message dispatch: any message with a higher term first forces the node
    to step down. *)
Definition step (from : NodeId) (message : Message) (n : RaftNode) : RaftNode :=
  let n := if decide (current_term n < message_term message)
           then become_follower (message_term message) None n else n in
  match message with
  | MRequestVote m => handle_request_vote m n
  | MRequestVoteReply m => handle_request_vote_reply m n
  | MAppendEntries m => handle_append_entries m n
  | MAppendEntriesReply m => handle_append_entries_reply from m n
  | MInstallSnapshot m => handle_install_snapshot m n
  | MInstallSnapshotReply m => handle_install_snapshot_reply from m n
  end.

(** ** Applying and draining *)

(** One iteration of the loop of [apply_committed]. *)
Definition apply_one (n : RaftNode) : RaftNode :=
  let n := set_last_applied (last_applied n +w 1) n in
  match get (log n) (last_applied n) with
  | Some entry =>
      if decide (command entry = []) then n
      else set_committed (committed n ++ [CommittedCommand (last_applied n) (command entry)]) n
  | None => n
  end.

Fixpoint apply_loop (fuel : nat) (n : RaftNode) : RaftNode :=
  match fuel with
  | O => n
  | S fuel =>
      if decide (last_applied n < commit_index n) then apply_loop fuel (apply_one n) else n
  end.

(** [saturating_sub] is the truncated subtraction of [N]. *)
Definition maybe_compact (n : RaftNode) : RaftNode :=
  if decide (snapshot_threshold (config n) <= last_applied n - snapshot_index (log n))
  then set_log (compact (log n) (last_applied n)) n else n.

Definition apply_committed (n : RaftNode) : RaftNode :=
  maybe_compact (apply_loop (N.to_nat (commit_index n - last_applied n)) n).

Definition take_ready (n : RaftNode) : RaftNode * Ready :=
  let n := apply_committed n in
  let ready := mkReady (outgoing n) (committed n) in
  (set_committed [] (set_outgoing [] n), ready).

End Node.

(** A concrete generator for the examples: every draw is the lower bound. *)
Definition low_rng : Rng :=
  {| StdRng := unit; seed_from_u64 _ := tt; gen_range lo _ r := (lo, r) |}.

Lemma low_rng_laws : @RngLaws low_rng.
Proof. split. intros lo hi r Hle. cbn. lia. Qed.
Definition low_state : @StdRng low_rng := tt.
