(* ===== verification/NodeTheory.v ===== *)
(** * Theory of a single Raft node

    Equations that turn the loops of [RaftNode.v] into closed forms, then the
    node-level properties: terms, votes, the commit rule, the node invariant,
    application of committed entries. *)

From stdpp Require Import sorting.
From S2P Require Import Prelude Storage RaftLog RaftState RaftNode.
Local Open Scope N_scope.
Local Open Scope u64_scope.

Section Equations.
Context `{Rng}.
Implicit Types (n : RaftNode) (m : Message).

(** ** Closed forms *)

(** The message [send_append] builds for [peer]. *)
Definition append_message n (peer : NodeId) : Message :=
  let next := progress_next_index (progress n) peer in
  if decide (next ≤ snapshot_index (log n)) then
    MInstallSnapshot (mkInstallSnapshot (current_term n) (id n)
      (snapshot_index (log n)) (last_term (log n)) [])
  else
    MAppendEntries (mkAppendEntries (current_term n) (id n) (next -w 1)
      (default 0 (term_at (log n) (next -w 1))) (entries_from (log n) next) (commit_index n)).

Definition append_envelope n peer : Envelope := mkEnvelope peer (append_message n peer).

Lemma send_append_eq peer n :
  send_append peer n = set_outgoing (outgoing n ++ [append_envelope n peer]) n.
Proof. unfold send_append, append_envelope, append_message. by case_decide. Qed.

Lemma broadcast_append_eq n :
  broadcast_append n = set_outgoing (outgoing n ++ (append_envelope n <$> peers n)) n.
Proof.
  unfold broadcast_append.
  induction (peers n) as [|peer ps IH] using rev_ind.
  { cbn. rewrite app_nil_r. by destruct n. }
  rewrite foldl_app, IH. cbn [foldl]. rewrite send_append_eq.
  cbn. by rewrite fmap_app, <-app_assoc.
Qed.

Lemma foldl_send_eq m n ps :
  foldl (λ n peer, send peer m n) n ps =
  set_outgoing (outgoing n ++ ((λ peer, mkEnvelope peer m) <$> ps)) n.
Proof.
  induction ps as [|peer ps IH] using rev_ind.
  { cbn. rewrite app_nil_r. by destruct n. }
  rewrite foldl_app, IH. cbn [foldl]. unfold send. cbn.
  rewrite fmap_app. by rewrite <-app_assoc.
Qed.

(** The commit index after [advance_commit]. *)
Definition next_commit n : N :=
  if decide (role n ≠ Leader) then commit_index n
  else
    let lo := commit_index n +w 1 in
    default (commit_index n) (commit_scan n lo (N.to_nat (last_index (log n) + 1 - lo))).

Lemma advance_commit_eq n : advance_commit n = set_commit_index (next_commit n) n.
Proof.
  unfold advance_commit, next_commit. case_decide; [by destruct n|].
  destruct (commit_scan _ _ _); [done|by destruct n].
Qed.

Lemma become_candidate_eq n :
  let n1 := reset_election_timer (set_votes {[id n]} (set_leader_id None
              (set_voted_for (Some (id n)) (set_current_term (current_term n +w 1)
                (set_role Candidate n))))) in
  become_candidate n =
  if decide (majority n ≤ 1)%nat then become_leader n1
  else set_outgoing (outgoing n ++ ((λ peer, mkEnvelope peer (MRequestVote
         (mkRequestVote (current_term n1) (id n) (last_index (log n)) (last_term (log n)))))
         <$> peers n)) n1.
Proof.
  intros n1. unfold become_candidate, votes_record, votes_count, votes_clear.
  cbn -[majority reset_election_timer].
  replace (∅ ∪ {[id n]} : gset NodeId) with ({[id n]} : gset NodeId) by set_solver.
  rewrite foldl_send_eq.
  assert (votes (reset_election_timer n1) = {[id n]}) as Hv by done.
  subst n1. cbn [votes reset_election_timer set_election_timeout set_rng set_election_elapsed
    set_votes] in *. rewrite size_singleton. done.
Qed.
End Equations.

Create Rewrite HintDb node.
#[export] Hint Rewrite @broadcast_append_eq @advance_commit_eq @send_append_eq : node.

(** Reduce a handler to record updates: closed forms for the loops, then
    projections of updated records. *)
Ltac node_simpl :=
  repeat (autorewrite with node;
          cbn -[majority replicas next_commit append_envelope append_message
                last_index last_term first_index term_at get entries_from matches splice
                compact truncate_from commit_scan wadd wsub progress_reset size gen_range
                N.max N.min]).

Ltac node_cases :=
  repeat first [ progress (node_simpl; simplify_eq) | case_decide | case_match ].

Section Frames.
Context `{Rng}.
Implicit Types (n : RaftNode) (from : NodeId) (msg : Message).

Lemma become_leader_eq n :
  let n1 := set_heartbeat_elapsed 0 (set_progress
              (progress_reset (progress n) (peers n) (last_index (log n)))
              (set_leader_id (Some (id n)) (set_role Leader n))) in
  let n2 := set_outgoing (outgoing n ++ (append_envelope n1 <$> peers n)) n1 in
  become_leader n = set_commit_index (next_commit n2) n2.
Proof. unfold become_leader. by autorewrite with node. Qed.

(** The universal rule at the start of [step]. *)
Definition step_down msg n : RaftNode :=
  if decide (current_term n < message_term msg)
  then become_follower (message_term msg) None n else n.

Definition dispatch from msg n : RaftNode :=
  match msg with
  | MRequestVote m => handle_request_vote m n
  | MRequestVoteReply m => handle_request_vote_reply m n
  | MAppendEntries m => handle_append_entries m n
  | MAppendEntriesReply m => handle_append_entries_reply from m n
  | MInstallSnapshot m => handle_install_snapshot m n
  | MInstallSnapshotReply m => handle_install_snapshot_reply from m n
  end.

Lemma step_eq from msg n : step from msg n = dispatch from msg (step_down msg n).
Proof. done. Qed.

Lemma step_down_term msg n :
  current_term (step_down msg n) = N.max (current_term n) (message_term msg).
Proof. unfold step_down. case_decide; cbn; lia. Qed.

Ltac unfold_handlers :=
  unfold dispatch, handle_request_vote, handle_request_vote_reply, handle_append_entries,
    handle_append_entries_reply, handle_install_snapshot, handle_install_snapshot_reply,
    reject_append, votes_record, become_leader, become_follower, reset_election_timer, send.

Lemma dispatch_term from msg n :
  message_term msg ≤ current_term n → current_term (dispatch from msg n) = current_term n.
Proof.
  intros Hle. unfold_handlers.
  destruct msg; cbn [message_term] in Hle; node_cases; done || lia.
Qed.

Lemma step_current_term from msg n :
  current_term (step from msg n) = N.max (current_term n) (message_term msg).
Proof.
  rewrite step_eq, dispatch_term; rewrite step_down_term; lia.
Qed.

(** Identity and configuration never change. *)
Definition same_identity n1 n2 : Prop :=
  id n1 = id n2 ∧ peers n1 = peers n2 ∧ config n1 = config n2.

Lemma step_identity from msg n : same_identity (step from msg n) n.
Proof.
  rewrite step_eq. unfold step_down. unfold_handlers.
  destruct msg; node_cases; done.
Qed.

Lemma become_candidate_identity n : same_identity (become_candidate n) n.
Proof.
  rewrite become_candidate_eq. unfold become_leader. node_cases; done.
Qed.

Lemma tick_identity n : same_identity (tick n) n.
Proof.
  unfold tick. destruct (role n); node_cases; try done;
    exact (become_candidate_identity (set_election_elapsed _ n)).
Qed.
(** ** The commit rule *)

(** Index [i] may be committed by counting: it carries the current term and a
    majority reported it. *)
Definition quorum_at n (i : N) : Prop :=
  term_at (log n) i = Some (current_term n) ∧ (majority n ≤ replicas n i)%nat.

#[export] Instance quorum_at_dec n i : Decision (quorum_at n i).
Proof. unfold quorum_at. apply _. Defined.

Lemma commit_scan_Some n lo count i :
  commit_scan n lo count = Some i →
  lo ≤ i < lo + N.of_nat count ∧ quorum_at n i ∧
  ∀ j, i < j < lo + N.of_nat count → ¬ quorum_at n j.
Proof.
  unfold quorum_at. induction count as [|c IH]; [done|]. cbn [commit_scan]. intros Hs.
  assert (commit_scan n lo c = Some i → ¬ quorum_at n (lo + N.of_nat c) →
    lo ≤ i < lo + N.of_nat (S c) ∧ quorum_at n i ∧
    ∀ j, i < j < lo + N.of_nat (S c) → ¬ quorum_at n j) as Hrec.
  { intros Hc Hnq. destruct (IH Hc) as (Hb & Hq & Hmax). split_and!; [lia..|done|].
    intros j Hj. destruct (decide (j = lo + N.of_nat c)) as [->|]; [done|].
    apply Hmax. lia. }
  unfold quorum_at in Hrec. repeat case_decide; simplify_eq.
  - apply Hrec; naive_solver.
  - split_and!; [lia..|done|done|]. intros j Hj. lia.
  - apply Hrec; naive_solver.
Qed.

Lemma commit_scan_None n lo count :
  commit_scan n lo count = None → ∀ j, lo ≤ j < lo + N.of_nat count → ¬ quorum_at n j.
Proof.
  unfold quorum_at. induction count as [|c IH]; [lia|]. cbn [commit_scan]. intros Hs j Hj.
  destruct (decide (j = lo + N.of_nat c)) as [->|Hne].
  - repeat case_decide; naive_solver.
  - apply IH; [|lia]. repeat case_decide; naive_solver.
Qed.
Lemma next_commit_cases n :
  commit_index n < u64_max →
  (next_commit n = commit_index n ∨
   (commit_index n < next_commit n ≤ last_index (log n) ∧ quorum_at n (next_commit n))) ∧
  (role n = Leader → ∀ j, next_commit n < j ≤ last_index (log n) → ¬ quorum_at n j).
Proof.
  intros Hmax. unfold next_commit. case_decide as Hrole; [naive_solver|].
  unfold u64_max in *. rewrite wadd_small by (unfold two64; lia).
  destruct (commit_scan _ _ _) as [i|] eqn:Hs; cbn.
  - apply commit_scan_Some in Hs as (Hb & Hq & Hmx). split.
    + right. split; [lia|done].
    + intros _ j Hj. apply Hmx. lia.
  - pose proof (commit_scan_None _ _ _ Hs) as Hn. split; [by left|].
    intros _ j Hj. apply Hn. lia.
Qed.

(** ** The node invariant

    The log fits in [u64] and
    [snapshot_index <= last_applied <= commit_index <= last_index]. *)
Record node_ok n : Prop := {
  ok_log : log_ok (log n);
  ok_snapshot : snapshot_index (log n) ≤ last_applied n;
  ok_applied : last_applied n ≤ commit_index n;
  ok_commit : commit_index n ≤ last_index (log n);
  ok_bound : last_index (log n) < u64_max;
}.

(** What the sender of a message owes the receiver. An [AppendEntries] that
    passes the term and log-matching tests starts no earlier than the
    receiver's snapshot point, fits in [u64], and does not contradict an entry
    the receiver has committed. *)
Definition message_ok n msg : Prop :=
  match msg with
  | MAppendEntries m =>
      current_term n ≤ ae_term m →
      matches (log n) (ae_prev_log_index m) (ae_prev_log_term m) = true →
      snapshot_index (log n) ≤ ae_prev_log_index m ∧
      ae_prev_log_index m + len64 (ae_entries m) < u64_max ∧
      ∀ (j : nat) e, ae_entries m !! j = Some e →
        ae_prev_log_index m + 1 + N.of_nat j ≤ commit_index n →
        term_at (log n) (ae_prev_log_index m + 1 + N.of_nat j) = Some (entry_term e)
  | MInstallSnapshot m => is_last_included_index m < u64_max
  | _ => True
  end.

Lemma message_ok_spliceable n m :
  node_ok n → message_ok n (MAppendEntries m) → current_term n ≤ ae_term m →
  matches (log n) (ae_prev_log_index m) (ae_prev_log_term m) = true →
  spliceable (log n) (ae_prev_log_index m) (ae_entries m).
Proof.
  intros Hok Hm Ht Hma. destruct (Hm Ht Hma) as (Hlo & Hb & _).
  destruct (matches_range _ _ _ (ok_log _ Hok) Hma) as [Hz|Hr]; split_and!;
    (apply Hok || lia || idtac).
Qed.

(** Fields that only the log-related handlers may change. *)
Definition same_log n1 n2 : Prop :=
  log n1 = log n2 ∧ commit_index n1 = commit_index n2 ∧ last_applied n1 = last_applied n2.

Lemma same_log_ok n1 n2 : same_log n1 n2 → node_ok n2 → node_ok n1.
Proof. intros (Hl & Hc & Ha) []. split; rewrite ?Hl, ?Hc, ?Ha; done. Qed.

Lemma step_down_same_log msg n : same_log (step_down msg n) n.
Proof. unfold step_down. by case_decide. Qed.

Lemma next_commit_bounds n :
  node_ok n → commit_index n ≤ next_commit n ≤ last_index (log n).
Proof.
  intros Hok. pose proof (ok_bound _ Hok). pose proof (ok_commit _ Hok).
  destruct (next_commit_cases n) as [[->|[? _]] _]; lia.
Qed.

(** Moving the commit index forward inside the log. *)
Lemma set_commit_ok n1 n2 c :
  log n1 = log n2 → last_applied n1 = last_applied n2 → commit_index n1 = c →
  commit_index n2 ≤ c ≤ last_index (log n2) → node_ok n2 → node_ok n1.
Proof.
  intros Hl Ha Hc Hb []. split; rewrite ?Hl, ?Ha, ?Hc; try done; lia.
Qed.
(** The commit index does not move back and the committed entries stay. *)
Definition keeps_committed n n' : Prop :=
  commit_index n ≤ commit_index n' ∧
  ∀ i, i ≤ commit_index n → get (log n') i = get (log n) i.

#[export] Instance keeps_committed_preorder : PreOrder keeps_committed.
Proof.
  split; [by split|]. intros n1 n2 n3 [Hc1 Hg1] [Hc2 Hg2]. split; [lia|].
  intros i Hi. rewrite Hg2, Hg1; [done|lia..].
Qed.

(** What every operation must guarantee. *)
Definition safe_transition n n' : Prop := node_ok n' ∧ keeps_committed n n'.

Lemma same_log_safe n n' : node_ok n → same_log n' n → safe_transition n n'.
Proof.
  intros Hok Hs. split; [by eapply same_log_ok|]. destruct Hs as (Hl & Hc & _).
  split; [by rewrite Hc|]. by rewrite Hl.
Qed.

Lemma safe_transition_trans n1 n2 n3 :
  safe_transition n1 n2 → safe_transition n2 n3 → safe_transition n1 n3.
Proof. intros [_ H12] [H3 H23]. split; [done|]. by etrans. Qed.

Lemma advance_commit_safe n : node_ok n → safe_transition n (advance_commit n).
Proof.
  intros Hok. rewrite advance_commit_eq. pose proof (next_commit_bounds n Hok). split.
  - by eapply (set_commit_ok _ n (next_commit n)).
  - split; cbn; [lia|done].
Qed.

(** An operation that ends by advancing the commit index of an otherwise
    log-preserving update. *)
Lemma advance_after_safe n n1 :
  node_ok n → same_log n1 n → safe_transition n (advance_commit n1).
Proof.
  intros Hok Hs. eapply safe_transition_trans; [by apply same_log_safe|].
  apply advance_commit_safe. by eapply same_log_ok.
Qed.

Lemma become_leader_safe n : node_ok n → safe_transition n (become_leader n).
Proof.
  intros Hok. unfold become_leader. apply advance_after_safe; [done|].
  by rewrite broadcast_append_eq.
Qed.

Lemma become_candidate_safe n : node_ok n → safe_transition n (become_candidate n).
Proof.
  intros Hok. rewrite become_candidate_eq. cbv zeta. case_decide.
  - eapply safe_transition_trans; [|apply become_leader_safe, (same_log_ok _ n)]; try done.
    by apply same_log_safe.
  - by apply same_log_safe.
Qed.

Lemma tick_safe n : node_ok n → safe_transition n (tick n).
Proof.
  intros Hok. unfold tick. destruct (role n); cbv zeta; case_decide;
    try (by apply same_log_safe).
  1,2: eapply safe_transition_trans;
    [by apply (same_log_safe _ (set_election_elapsed (election_elapsed n +w 1) n))|];
    apply become_candidate_safe; by apply (same_log_ok _ n).
  apply same_log_safe; [done|]. by rewrite broadcast_append_eq.
Qed.

Lemma handle_append_entries_safe m n :
  node_ok n → message_ok n (MAppendEntries m) →
  safe_transition n (handle_append_entries m n).
Proof.
  intros Hok Hm. unfold handle_append_entries. case_decide as Ht; [by apply same_log_safe|].
  set (n1 := become_follower _ _ n). cbv zeta.
  assert (log n1 = log n) as Hl by done. rewrite Hl.
  destruct (matches _ _ _) eqn:Hma; [|by apply same_log_safe].
  pose proof (message_ok_spliceable n m Hok Hm ltac:(lia) Hma) as Hsp.
  destruct (Hm ltac:(lia) Hma) as (_ & Hb & Hag).
  destruct (splice_keeps _ _ _ _ Hsp (ok_commit _ Hok) Hag) as [Hge Hget].
  pose proof (splice_ok _ _ _ Hsp) as Hok'. pose proof (splice_snapshot (log n)
    (ae_prev_log_index m) (ae_entries m)) as [Hsi _].
  pose proof (splice_length _ _ _ Hsp) as Hlen.
  assert (last_index (splice (log n) (ae_prev_log_index m) (ae_entries m)).2 < u64_max) as Hmax.
  { destruct Hlen as [->|Hlen]; [apply Hok|]. rewrite last_index_eq by done.
    rewrite Hsi. unfold len64 in *. rewrite Hlen. destruct Hsp as (_ & Hp & _).
    clear -Hp Hb. unfold tail_pos. lia. }
  assert ((splice (log n) (ae_prev_log_index m) (ae_entries m)).1 =
    last_index (splice (log n) (ae_prev_log_index m) (ae_entries m)).2) as Hli by done.
  destruct (splice _ _ _) as [li l']. cbn [fst snd] in *. subst li.
  destruct Hok as [_ Hs Ha Hc _].
  case_decide as Hlc; (split; [split|split]); cbn in *; rewrite ?Hsi; try done; lia.
Qed.

Lemma handle_install_snapshot_ok m n :
  node_ok n → is_last_included_index m < u64_max → node_ok (handle_install_snapshot m n).
Proof.
  intros Hok Hb. unfold handle_install_snapshot. case_decide; [done|].
  assert (log_ok (mkLog [] (is_last_included_index m) (is_last_included_term m))) as Hl.
  { unfold log_ok, len64, two64, u64_max in *. cbn. lia. }
  split; cbn; rewrite ?last_index_eq by done; cbn; rewrite ?N.add_0_r; done || lia.
Qed.

Lemma dispatch_safe from msg n :
  node_ok n → message_ok n msg →
  node_ok (dispatch from msg n) ∧
  ((∀ m, msg ≠ MInstallSnapshot m) → keeps_committed n (dispatch from msg n)).
Proof.
  intros Hok Hm.
  assert (safe_transition n (dispatch from msg n) ∨ ∃ m, msg = MInstallSnapshot m)
    as [[? ?]|[m ->]]; [|done|].
  2: { split; [by apply handle_install_snapshot_ok|]. intros Hne. by destruct (Hne m). }
  destruct msg as [m|m|m|m|m|m]; cbn [dispatch]; [left..|by right; eexists|left].
  - unfold handle_request_vote. repeat case_match; simplify_eq; by apply same_log_safe.
  - unfold handle_request_vote_reply, votes_record. case_decide; [by apply same_log_safe|].
    destruct (rvr_vote_granted m); [|by apply same_log_safe]. cbv zeta. case_decide; [|by apply same_log_safe].
    eapply safe_transition_trans; [|apply become_leader_safe, (same_log_ok _ n)]; try done.
    by apply same_log_safe.
  - by apply handle_append_entries_safe.
  - unfold handle_append_entries_reply. case_decide; [by apply same_log_safe|].
    destruct (aer_success m); [by apply advance_after_safe|].
    rewrite send_append_eq. by apply same_log_safe.
  - unfold handle_install_snapshot_reply. case_decide; [by apply same_log_safe|]. by apply same_log_safe.
Qed.

Lemma step_down_message_ok msg n : message_ok n msg → message_ok (step_down msg n) msg.
Proof.
  unfold step_down. case_decide as Ht; [|done].
  destruct msg as [m|m|m|m|m|m]; try done. cbn in *.
  intros Hm _ Hma. destruct (Hm ltac:(lia) Hma) as (? & ? & ?). done.
Qed.
(** ** Application of committed entries *)

(** What one committed index contributes. *)
Definition delivery (l : RaftLog) (i : N) : list Committed :=
  match get l i with
  | Some e => if decide (command e = []) then [] else [CommittedCommand i (command e)]
  | None => []
  end.

(** The deliveries of the [count] indices after [i], in order. *)
Fixpoint deliveries (l : RaftLog) (i : N) (count : nat) : list Committed :=
  match count with
  | O => []
  | S c => delivery l (i + 1) ++ deliveries l (i + 1) c
  end.

(** Everything committed and not yet applied. *)
Definition pending n : list Committed :=
  deliveries (log n) (last_applied n) (N.to_nat (commit_index n - last_applied n)).

Lemma apply_one_eq n :
  last_applied n < u64_max →
  apply_one n = set_committed (committed n ++ delivery (log n) (last_applied n + 1))
                  (set_last_applied (last_applied n + 1) n).
Proof.
  unfold u64_max. intros Hlt. unfold apply_one, delivery. cbn.
  rewrite wadd_small by (unfold two64; lia).
  destruct (get _ _); [case_decide|]; cbn; rewrite ?app_nil_r; by destruct n.
Qed.

(** The loop terminates within the fuel [commit_index - last_applied], and more
    fuel changes nothing. *)
Lemma apply_loop_eq fuel n :
  commit_index n ≤ u64_max → (N.to_nat (commit_index n - last_applied n) ≤ fuel)%nat →
  apply_loop fuel n =
    set_committed (committed n ++ pending n)
      (set_last_applied (N.max (last_applied n) (commit_index n)) n).
Proof.
  unfold pending. revert n. induction fuel as [|fuel IH]; intros n Hb Hf; cbn [apply_loop].
  { replace (N.to_nat _) with 0%nat by lia. cbn. rewrite app_nil_r, N.max_l by lia.
    by destruct n. }
  case_decide as Hlt.
  - rewrite apply_one_eq by lia. rewrite IH; cbn; [|done|lia].
    replace (N.to_nat (commit_index n - last_applied n)) with
      (S (N.to_nat (commit_index n - (last_applied n + 1)))) by lia.
    cbn [deliveries]. rewrite <-app_assoc, !N.max_r by lia. done.
  - replace (N.to_nat _) with 0%nat by lia. cbn. rewrite app_nil_r, N.max_l by lia.
    by destruct n.
Qed.

Lemma apply_committed_eq n :
  commit_index n ≤ u64_max →
  apply_committed n = maybe_compact (set_committed (committed n ++ pending n)
    (set_last_applied (N.max (last_applied n) (commit_index n)) n)).
Proof. intros. unfold apply_committed. by rewrite apply_loop_eq. Qed.

Lemma maybe_compact_eq n :
  ∃ l, maybe_compact n = set_log l n ∧ (l = log n ∨ l = compact (log n) (last_applied n)).
Proof.
  unfold maybe_compact. case_decide; [eauto|]. exists (log n). split; [by destruct n|by left].
Qed.

(** Applying and draining only touch the log (compaction), [last_applied] and
    the two output queues. *)
Lemma apply_loop_shape fuel n :
  ∃ la cs, apply_loop fuel n = set_committed cs (set_last_applied la n).
Proof.
  revert n. induction fuel as [|fuel IH]; intros n; cbn [apply_loop].
  { exists (last_applied n), (committed n). by destruct n. }
  case_decide; [|exists (last_applied n), (committed n); by destruct n].
  destruct (IH (apply_one n)) as (la & cs & ->). exists la, cs.
  unfold apply_one. cbn. by repeat case_match.
Qed.

Lemma take_ready_shape n :
  ∃ la l, (take_ready n).1 = set_committed [] (set_outgoing [] (set_log l (set_last_applied la n))) ∧
    (l = log n ∨ l = compact (log n) la) ∧ ready_messages (take_ready n).2 = outgoing n.
Proof.
  unfold take_ready, apply_committed.
  destruct (apply_loop_shape (N.to_nat (commit_index n - last_applied n)) n) as (la & cs & ->).
  destruct (maybe_compact_eq (set_committed cs (set_last_applied la n))) as (l & -> & Hl).
  by exists la, l.
Qed.

(** The exact effect of a drain. *)
Lemma take_ready_eq n :
  commit_index n ≤ u64_max →
  let la := N.max (last_applied n) (commit_index n) in
  ∃ l, (take_ready n).1 = set_committed [] (set_outgoing [] (set_log l (set_last_applied la n))) ∧
    (l = log n ∨ l = compact (log n) la) ∧
    ready_committed (take_ready n).2 = committed n ++ pending n.
Proof.
  intros Hb la. unfold take_ready. rewrite apply_committed_eq by done.
  set (n1 := set_committed (_ ++ _) _).
  destruct (maybe_compact_eq n1) as (l & -> & Hl). by exists l.
Qed.

Lemma deliveries_ext l l' i count :
  (∀ j, i < j ≤ i + N.of_nat count → get l j = get l' j) →
  deliveries l i count = deliveries l' i count.
Proof.
  revert i. induction count as [|c IH]; intros i Hext; [done|]. cbn [deliveries]. f_equal.
  - unfold delivery. by rewrite Hext by lia.
  - apply IH. intros j Hj. apply Hext. lia.
Qed.

(** The fields that record what has been applied, and what is queued for the
    state machine. *)
Definition applied_view n : N * N * list Committed :=
  (last_applied n, snapshot_index (log n), committed n).

Lemma become_leader_applied n : applied_view (become_leader n) = applied_view n.
Proof. by rewrite become_leader_eq. Qed.

Lemma tick_applied n : applied_view (tick n) = applied_view n.
Proof.
  unfold tick. destruct (role n); cbv zeta; rewrite ?broadcast_append_eq.
  3: by destruct (decide _).
  all: destruct (decide _); [|done].
  all: rewrite become_candidate_eq; cbv zeta; destruct (decide _); [|done].
  all: by rewrite become_leader_applied.
Qed.

Lemma propose_applied cmd n : applied_view (propose cmd n).1 = applied_view n.
Proof.
  unfold propose. case_decide; [done|]. cbn [append fst].
  by rewrite broadcast_append_eq, advance_commit_eq.
Qed.

Lemma propose_identity cmd n : same_identity (propose cmd n).1 n.
Proof.
  unfold propose. case_decide; [done|]. cbn [append fst].
  by rewrite broadcast_append_eq, advance_commit_eq.
Qed.

(** A message changes them only by installing a snapshot, and then the node is a
    follower with nothing left to apply. *)
Lemma step_applied from msg n :
  (applied_view (step from msg n) = applied_view n ∧
   ((∃ m, msg = MInstallSnapshot m) → log (step from msg n) = log n)) ∨
  ∃ m, msg = MInstallSnapshot m ∧
    role (step from msg n) = Follower ∧
    last_applied (step from msg n) = snapshot_index (log (step from msg n)) ∧
    commit_index (step from msg n) = last_applied (step from msg n) ∧
    committed (step from msg n) = committed n ++ [CommittedSnapshot (is_data m)].
Proof.
  rewrite step_eq. unfold dispatch.
  assert (applied_view (step_down msg n) = applied_view n) as <-
    by (unfold step_down; by case_decide).
  assert (committed (step_down msg n) = committed n) as <-
    by (unfold step_down; by case_decide).
  assert (log (step_down msg n) = log n) as <- by (unfold step_down; by case_decide).
  generalize (step_down msg n). clear n. intros n.
  destruct msg as [m|m|m|m|m|m].
  - left. split; [|by intros []]. unfold handle_request_vote. by repeat case_match; simplify_eq.
  - left. split; [|by intros []]. unfold handle_request_vote_reply, votes_record. case_decide; [done|].
    destruct (rvr_vote_granted m); [|done]. cbv zeta. case_decide; [|done].
    by rewrite become_leader_applied.
  - left. split; [|by intros []]. unfold handle_append_entries. case_decide; [done|]. cbv zeta.
    destruct (matches _ _ _); [|done].
    set (n1 := become_follower _ _ n).
    destruct (splice_snapshot (log n1) (ae_prev_log_index m) (ae_entries m)) as [Hs _].
    destruct (splice _ _ _) as [li l]. cbn [snd] in Hs.
    destruct (decide _); unfold applied_view; cbn; by rewrite Hs.
  - left. split; [|by intros []]. unfold handle_append_entries_reply. case_decide; [done|].
    destruct (aer_success m); by rewrite ?advance_commit_eq, ?send_append_eq.
  - unfold handle_install_snapshot. case_decide; [left; by split|]. right. by exists m.
  - left. split; [|by intros []]. unfold handle_install_snapshot_reply. by case_decide.
Qed.

Lemma elem_of_deliveries l i count j cmd :
  CommittedCommand j cmd ∈ deliveries l i count ↔
  i < j ≤ i + N.of_nat count ∧ cmd ≠ [] ∧ ∃ e, get l j = Some e ∧ command e = cmd.
Proof.
  revert i. induction count as [|c IH]; intros i; cbn [deliveries].
  { split; [by intros ?%not_elem_of_nil|lia]. }
  rewrite elem_of_app, IH. unfold delivery.
  assert (CommittedCommand j cmd ∈ match get l (i + 1) with
    | Some e => if decide (command e = []) then [] else [CommittedCommand (i + 1) (command e)]
    | None => [] end ↔ j = i + 1 ∧ cmd ≠ [] ∧ ∃ e, get l j = Some e ∧ command e = cmd) as ->.
  { destruct (get l (i + 1)) as [e|] eqn:He; [case_decide|].
    - rewrite elem_of_nil. naive_solver.
    - rewrite list_elem_of_singleton. naive_solver.
    - rewrite elem_of_nil. naive_solver. }
  split; [intros [(-> & ?)|(? & ?)]; (split; [lia|done])|].
  intros (Hj & Hc). destruct (decide (j = i + 1)); [left|right]; (split; [lia|done]).
Qed.

(** Deliveries over adjacent ranges concatenate. *)
Lemma deliveries_app l i c1 c2 :
  deliveries l i (c1 + c2) = deliveries l i c1 ++ deliveries l (i + N.of_nat c1) c2.
Proof.
  revert i. induction c1 as [|c1 IH]; intros i; [by rewrite N.add_0_r|].
  cbn [deliveries Nat.add]. rewrite IH, <-app_assoc.
  by replace (i + 1 + N.of_nat c1) with (i + N.of_nat (S c1)) by lia.
Qed.

Definition committed_index (c : Committed) : option N :=
  match c with CommittedCommand i _ => Some i | CommittedSnapshot _ => None end.

(** The delivered indices, and that they increase. *)
Lemma deliveries_sorted l i count :
  StronglySorted N.lt (omap committed_index (deliveries l i count)).
Proof.
  revert i. induction count as [|c IH]; intros i; cbn [deliveries]; [constructor|].
  unfold delivery. destruct (get l (i + 1)) as [e|]; [case_decide|]; [apply IH| |apply IH].
  cbn. constructor; [apply IH|]. apply Forall_forall. intros j Hj.
  apply list_elem_of_omap in Hj as (x & Hx & Hj). destruct x as [j' cmd|]; [|done].
  cbn in Hj. injection Hj as ->. apply elem_of_deliveries in Hx. lia.
Qed.
End Frames.
