(* ===== verification/NodeProps.v ===== *)
(** * Properties of a single Raft node

    The node as a state machine of operations (tick, message, proposal, drain)
    and the properties of its operations. *)

From stdpp Require Import sorting.
From S2P Require Import Prelude Storage RaftLog RaftState RaftNode NodeTheory.
Local Open Scope N_scope.
Local Open Scope u64_scope.

(** ** Operations as data *)

Inductive node_op :=
  | OpTick
  | OpStep (from : NodeId) (msg : Message)
  | OpPropose (cmd : bytes)
  | OpTakeReady.

Section Ops.
Context `{Rng}.
Implicit Types (n : RaftNode) (o : node_op).

Definition exec o n : RaftNode :=
  match o with
  | OpTick => tick n
  | OpStep from msg => step from msg n
  | OpPropose cmd => (propose cmd n).1
  | OpTakeReady => (take_ready n).1
  end.

Definition op_ok n o : Prop :=
  match o with
  | OpStep from msg => message_ok n msg
  | OpPropose _ => last_index (log n) + 1 < u64_max
  | _ => True
  end.

(** The states a node can reach from [n0] through legitimate operations. *)
Inductive node_reach n0 : RaftNode → Prop :=
  | reach_start : node_reach n0 n0
  | reach_op n o : node_reach n0 n → op_ok n o → node_reach n0 (exec o n).

Lemma propose_safe n cmd :
  node_ok n → last_index (log n) + 1 < u64_max → safe_transition n (propose cmd n).1.
Proof.
  intros Hok Hb. unfold propose. case_decide; [by apply same_log_safe|].
  cbn [append fst]. set (l := set_entries _ _).
  assert (l = (append (log n) [mkEntry (current_term n) cmd]).2) as Hl by done.
  assert (last_index (log n) + len64 [mkEntry (current_term n) cmd] < two64) as Hb'
    by (unfold len64, two64, u64_max in *; cbn; lia).
  destruct (append_last_index _ _ Hb' (ok_log _ Hok)) as [Hli Hlok].
  rewrite <-Hl in Hli, Hlok. change (len64 [_]) with 1 in Hli.
  assert (safe_transition n (set_log l n)) as Hs.
  { destruct Hok. split; [split; cbn; try done; try lia; by rewrite Hli|].
    split; [done|]. intros i Hi. cbn. rewrite Hl. apply append_get; [done..|lia]. }
  eapply safe_transition_trans; [exact Hs|]. apply advance_after_safe; [apply Hs|].
  by rewrite broadcast_append_eq.
Qed.

(** A leader's proposal: the index it returns and the entry stored there. *)
Lemma propose_leader n cmd :
  log_ok (log n) → last_index (log n) + 1 < u64_max → role n = Leader →
  let n' := (propose cmd n).1 in
  (propose cmd n).2 = inl (last_index (log n) + 1) ∧ role n' = Leader ∧
  last_index (log n') = last_index (log n) + 1 ∧
  get (log n') (last_index (log n) + 1) = Some (mkEntry (current_term n) cmd) ∧
  (∀ i, i ≤ last_index (log n) → get (log n') i = get (log n) i) ∧
  outgoing n' = outgoing n ++ (append_envelope
    (set_log (append (log n) [mkEntry (current_term n) cmd]).2 n) <$> peers n).
Proof.
  intros Hok Hb Hr. unfold propose. rewrite decide_False by naive_solver.
  assert (last_index (log n) + len64 [mkEntry (current_term n) cmd] < two64) as Hb'.
  { unfold len64, two64, u64_max in *. cbn. lia. }
  destruct (append_last_index _ _ Hb' Hok) as [Hli Hok']. change (len64 [_]) with 1 in Hli.
  pose proof (append_get_last (log n) (mkEntry (current_term n) cmd) Hb' Hok) as Hget.
  pose proof (λ i, append_get (log n) [mkEntry (current_term n) cmd] i Hb' Hok) as Hold.
  assert ((append (log n) [mkEntry (current_term n) cmd]).1 = last_index (log n) + 1) as Hi
    by done.
  destruct (append _ _) as [i l]. cbn [fst snd] in *. subst i.
  rewrite broadcast_append_eq, advance_commit_eq. by cbn.
Qed.

Lemma take_ready_ok n : node_ok n → node_ok (take_ready n).1.
Proof.
  intros Hok. pose proof Hok as [Hl Hs Ha Hc Hb]. cbn [take_ready fst].
  rewrite apply_committed_eq by lia. rewrite N.max_r by done.
  set (n1 := set_committed (_ ++ _) _).
  destruct (maybe_compact_eq n1) as (l & -> & Hcase).
  assert (log_ok l ∧ last_index l = last_index (log n) ∧ snapshot_index l ≤ commit_index n)
    as (Hlok & Hli & Hsi).
  { destruct Hcase as [->| ->]; cbn; [split_and!; done || lia|].
    split_and!; [by apply compact_ok|by apply compact_last_index|].
    rewrite compact_snapshot_index. case_decide; lia. }
  split; cbn; rewrite ?Hli; done || lia.
Qed.

Lemma exec_ok n o : node_ok n → op_ok n o → node_ok (exec o n).
Proof.
  intros Hok Ho. destruct o as [|from msg|cmd|]; cbn [exec op_ok] in *.
  - by apply tick_safe.
  - rewrite step_eq. apply dispatch_safe; [|by apply step_down_message_ok].
    by eapply same_log_ok, Hok; apply step_down_same_log.
  - by apply propose_safe.
  - by apply take_ready_ok.
Qed.

Lemma exec_keeps_committed n o :
  node_ok n → op_ok n o → o ≠ OpTakeReady → (∀ from m, o ≠ OpStep from (MInstallSnapshot m)) →
  keeps_committed n (exec o n).
Proof.
  intros Hok Ho Hnt Hns. destruct o as [|from msg|cmd|]; cbn [exec op_ok] in *; [| | |done].
  - by apply tick_safe.
  - rewrite step_eq. pose proof (step_down_same_log msg n) as Hs.
    destruct (dispatch_safe from msg (step_down msg n)) as [_ Hk].
    + by eapply same_log_ok.
    + by apply step_down_message_ok.
    + etrans; [apply (same_log_safe n _ Hok Hs)|]. apply Hk. intros m ->. by eapply Hns.
  - by apply propose_safe.
Qed.

(** Identity, peers and configuration never change. *)
Lemma exec_identity n o : id (exec o n) = id n ∧ peers (exec o n) = peers n.
Proof.
  destruct o as [|from msg|cmd|]; cbn [exec].
  - by destruct (tick_identity n) as (? & ? & _).
  - by destruct (step_identity from msg n) as (? & ? & _).
  - by destruct (propose_identity cmd n) as (? & ? & _).
  - by destruct (take_ready_shape n) as (la & l & -> & _).
Qed.

Lemma exec_config n o : config (exec o n) = config n.
Proof.
  destruct o as [|from msg|cmd|]; cbn [exec].
  - by destruct (tick_identity n) as (_ & _ & ?).
  - by destruct (step_identity from msg n) as (_ & _ & ?).
  - by destruct (propose_identity cmd n) as (_ & _ & ?).
  - by destruct (take_ready_shape n) as (la & l & -> & _).
Qed.

Lemma new_ok e i ps c n : new e i ps c = Some n → node_ok n.
Proof.
  unfold new. case_decide; [|done]. intros [= <-].
  split; cbn; try lia; vm_compute; congruence || done.
Qed.
End Ops.

(** ** Properties *)
Section Properties.
Context `{Rng}.
Implicit Types (n : RaftNode) (o : node_op).

(** [C14] Node invariant: from a fresh node, whatever legitimate operations
    follow, the log's indices stay in [u64] and
    [snapshot_index <= last_applied <= commit_index <= last_index]. *)
Theorem node_invariant entropy i ps c n0 n :
  new entropy i ps c = Some n0 → node_reach n0 n → node_ok n.
Proof.
  intros Hnew Hr. induction Hr as [|n o Hr IH Ho]; [by eapply new_ok|by apply exec_ok].
Qed.

Lemma become_candidate_term n : current_term (become_candidate n) = current_term n +w 1.
Proof.
  rewrite become_candidate_eq. cbv zeta. case_decide; [|done]. by rewrite become_leader_eq.
Qed.

Lemma tick_current_term n :
  current_term (tick n) =
  if decide (role n ≠ Leader ∧ election_timeout n ≤ election_elapsed n +w 1)
  then current_term n +w 1 else current_term n.
Proof.
  unfold tick. destruct (role n) eqn:Hr; cbv zeta.
  3: { rewrite (decide_False (P := _ ∧ _)) by naive_solver.
       rewrite broadcast_append_eq. by destruct (decide _). }
  all: cbn [election_timeout election_elapsed set_election_elapsed].
  all: destruct (decide (election_timeout n ≤ election_elapsed n +w 1)).
  all: rewrite ?(decide_True (P := _ ∧ _)), ?(decide_False (P := _ ∧ _)) by naive_solver.
  all: rewrite ?become_candidate_term; reflexivity.
Qed.

Lemma propose_current_term n cmd : current_term (propose cmd n).1 = current_term n.
Proof.
  unfold propose. case_decide; [done|]. cbn [append fst].
  by rewrite advance_commit_eq, broadcast_append_eq.
Qed.

Lemma take_ready_current_term n : current_term (take_ready n).1 = current_term n.
Proof. by destruct (take_ready_shape n) as (la & l & -> & _). Qed.

(** Terms: a message brings the node exactly to the larger of the two
    terms; a tick raises the term by one when it starts a candidacy; nothing
    else changes it. Short of wrapping at [2^64] a term never decreases. *)
Theorem term_transitions n o :
  current_term (exec o n) =
    match o with
    | OpTick =>
        if decide (role n ≠ Leader ∧ election_timeout n ≤ election_elapsed n +w 1)
        then current_term n +w 1 else current_term n
    | OpStep _ msg => N.max (current_term n) (message_term msg)
    | OpPropose _ | OpTakeReady => current_term n
    end ∧
  (current_term n < u64_max → current_term n ≤ current_term (exec o n)).
Proof.
  assert (current_term n < u64_max → current_term n +w 1 = current_term n + 1) as Hw.
  { intros Hlt. apply wadd_small. unfold two64, u64_max in *. lia. }
  destruct o as [|from msg|cmd|]; cbn [exec].
  - rewrite tick_current_term. split; [done|]. intros Hlt. rewrite Hw by done.
    case_decide; lia.
  - rewrite step_current_term. lia.
  - rewrite propose_current_term. lia.
  - rewrite take_ready_current_term. lia.
Qed.

(** The reply to a [RequestVote] and the effect on [voted_for]. *)
Definition grants n (m : RequestVote) : Prop :=
  current_term n ≤ rv_term m ∧
  (current_term n < rv_term m ∨ voted_for n = None ∨ voted_for n = Some (rv_candidate_id m)) ∧
  (last_term (log n) < rv_last_log_term m ∨
   (rv_last_log_term m = last_term (log n) ∧ last_index (log n) ≤ rv_last_log_index m)).

#[export] Instance grants_dec n m : Decision (grants n m).
Proof. unfold grants. apply _. Defined.

(** Voting: a node answers every [RequestVote] with exactly one reply in
    its (updated) term; it grants exactly when the candidate's term is not
    stale, it has not voted for another candidate in that term, and the
    candidate's log is at least as up-to-date (§5.4.1); it then remembers the
    vote. *)
Theorem request_vote_decision from m n :
  outgoing (step from (MRequestVote m) n) =
    outgoing n ++ [mkEnvelope (rv_candidate_id m) (MRequestVoteReply
      (mkRequestVoteReply (N.max (current_term n) (rv_term m)) (id n)
         (bool_decide (grants n m))))] ∧
  voted_for (step from (MRequestVote m) n) =
    (if decide (grants n m) then Some (rv_candidate_id m)
     else if decide (current_term n < rv_term m) then None else voted_for n) ∧
  log (step from (MRequestVote m) n) = log n.
Proof.
  rewrite step_eq. unfold dispatch.
  set (n1 := step_down (MRequestVote m) n).
  assert (grants n m ↔ grants n1 m) as Hg.
  { subst n1. unfold grants, step_down. cbn [message_term].
    case_decide; cbn; [|done]. split; intros (?&?&?); split_and!; try done; try lia; auto. }
  assert (id n1 = id n ∧ log n1 = log n ∧ outgoing n1 = outgoing n) as (Hi & Hl & Ho).
  { subst n1. unfold step_down. by case_decide. }
  pose proof (step_down_term (MRequestVote m) n) as Ht. fold n1 in Ht. cbn [message_term] in Ht.
  assert (voted_for n1 = if decide (current_term n < rv_term m) then None else voted_for n)
    as Hv by (subst n1; unfold step_down; cbn [message_term]; by case_decide).
  rewrite <-Hv, <-Hi, <-Hl, <-Ho, <-Ht.
  rewrite (bool_decide_ext _ _ Hg), (decide_ext _ _ (Some _) _ Hg).
  clearbody n1. clear Hg Hi Hl Ho Hv. rename n1 into n1'.
  assert (rv_term m ≤ current_term n1') as Hge by lia.
  unfold handle_request_vote, can_vote, candidate_is_up_to_date.
  destruct (decide (grants n1' m)) as [Hg|Hg].
  - rewrite (bool_decide_eq_true_2 (grants _ _)) by done.
    destruct Hg as (Hle & Hv & Hu).
    assert (¬ current_term n1' < rv_term m) as Hnlt by lia.
    rewrite decide_True by done.
    rewrite (bool_decide_eq_true_2 (_ ∨ _)) by naive_solver.
    by rewrite (bool_decide_eq_true_2 (_ ∨ _)) by done.
  - rewrite (bool_decide_eq_false_2 (grants _ _)) by done.
    destruct (decide (current_term n1' ≤ rv_term m)) as [Hle|]; [|done].
    destruct (_ && _) eqn:Hb; [|done].
    apply andb_true_iff in Hb as [Hv%bool_decide_eq_true_1 Hu%bool_decide_eq_true_1].
    destruct Hg. split_and!; [done|by right|done].
Qed.

(** No message makes a follower more than that. *)
Lemma dispatch_follower from msg n :
  role n = Follower → role (dispatch from msg n) = Follower.
Proof.
  intros Hf. unfold dispatch. destruct msg as [m|m|m|m|m|m].
  - unfold handle_request_vote. repeat case_match; simplify_eq; done.
  - unfold handle_request_vote_reply. rewrite decide_True; [done|left; by rewrite Hf].
  - unfold handle_append_entries. repeat case_match; simplify_eq; done.
  - unfold handle_append_entries_reply. rewrite decide_True; [done|left; by rewrite Hf].
  - unfold handle_install_snapshot. by case_decide.
  - unfold handle_install_snapshot_reply. rewrite decide_True; [done|left; by rewrite Hf].
Qed.

(** A leader after a message was not told of a later term. *)
Lemma step_leader_stays from msg n :
  role (step from msg n) = Leader → message_term msg ≤ current_term n.
Proof.
  intros Hl. rewrite step_eq in Hl. unfold step_down in Hl. case_decide; [|lia].
  by rewrite dispatch_follower in Hl.
Qed.

Lemma step_leader_keeps_log from msg n :
  role n = Leader → role (step from msg n) = Leader → log (step from msg n) = log n.
Proof.
  intros Hl Hl'. pose proof (step_leader_stays _ _ _ Hl') as Ht. revert Hl'.
  rewrite step_eq. unfold step_down. rewrite decide_False by lia.
  unfold dispatch. destruct msg as [m|m|m|m|m|m].
  - unfold handle_request_vote. repeat case_match; simplify_eq; done.
  - unfold handle_request_vote_reply. rewrite decide_True; [done|left; by rewrite Hl].
  - unfold handle_append_entries. case_decide; [done|].
    repeat case_match; simplify_eq; done.
  - unfold handle_append_entries_reply. case_decide; [done|].
    destruct (aer_success m); by rewrite ?advance_commit_eq, ?send_append_eq.
  - unfold handle_install_snapshot. by case_decide.
  - unfold handle_install_snapshot_reply. by case_decide.
Qed.

Lemma exec_leader_term o n :
  role n = Leader → role (exec o n) = Leader → current_term (exec o n) = current_term n.
Proof.
  intros Hl Hl'. destruct o as [|from msg|cmd|]; cbn [exec] in *.
  - rewrite tick_current_term. by rewrite decide_False by tauto.
  - rewrite step_current_term. pose proof (step_leader_stays _ _ _ Hl'). lia.
  - apply propose_current_term.
  - apply take_ready_current_term.
Qed.

(** Leader append-only: while a node is leader it never overwrites or
    deletes an entry. Ticks and messages leave its log alone, a proposal
    appends one entry of the leader's own term, and a drain can only compact a
    prefix that has been applied. *)
Theorem leader_append_only n o :
  role n = Leader → role (exec o n) = Leader →
  match o with
  | OpTick | OpStep _ _ => log (exec o n) = log n
  | OpPropose cmd =>
      log (exec o n) = set_entries (entries (log n) ++ [mkEntry (current_term n) cmd]) (log n)
  | OpTakeReady =>
      log (exec o n) = log n ∨ log (exec o n) = compact (log n) (last_applied (exec o n))
  end.
Proof.
  intros Hl Hl'. destruct o as [|from msg|cmd|]; cbn [exec] in *.
  - unfold tick. rewrite Hl. cbv zeta. rewrite broadcast_append_eq. by case_decide.
  - by apply step_leader_keeps_log.
  - unfold propose. rewrite decide_False by naive_solver. cbn [append fst].
    by rewrite advance_commit_eq, broadcast_append_eq.
  - by destruct (take_ready_shape n) as (la & l & -> & [->| ->] & _); [left|right].
Qed.

(** [C20] The commit rule (§5.3/§5.4): [advance_commit] changes nothing but the
    commit index; on a leader it moves it to the highest index of the log that
    carries the current term and that a majority reported, and leaves it alone
    when there is none; it never moves back. *)
Theorem advance_commit_highest n :
  commit_index n < u64_max →
  let n' := advance_commit n in
  n' = set_commit_index (commit_index n') n ∧
  commit_index n ≤ commit_index n' ∧
  (commit_index n' ≠ commit_index n →
     role n = Leader ∧ commit_index n' ≤ last_index (log n) ∧ quorum_at n (commit_index n')) ∧
  (role n = Leader → ∀ i, commit_index n' < i ≤ last_index (log n) → ¬ quorum_at n i).
Proof.
  intros Hb n'. subst n'. rewrite advance_commit_eq. cbn [commit_index set_commit_index].
  destruct (next_commit_cases n Hb) as [Hc Hmax]. split_and!; [done| | |done].
  - destruct Hc as [->|[? _]]; lia.
  - intros Hne. destruct Hc as [?|[? ?]]; [done|]. split_and!; [|lia|done].
    destruct (decide (role n = Leader)) as [|Hr]; [done|]. exfalso. apply Hne.
    unfold next_commit. by rewrite decide_True.
Qed.

(** Draining: [take_ready] hands over all queued messages and, after what
    was already queued, exactly the non-empty commands with index in
    [(last_applied, commit_index]], each once and in increasing order; both
    queues are then empty and [last_applied] has caught up, so draining again
    delivers nothing. The apply loop terminates. *)
Theorem take_ready_delivers n :
  commit_index n ≤ u64_max →
  let (n', r) := take_ready n in
  ready_messages r = outgoing n ∧
  (∃ ds, ready_committed r = committed n ++ ds ∧
     StronglySorted N.lt (omap committed_index ds) ∧
     ∀ i cmd, CommittedCommand i cmd ∈ ds ↔
       last_applied n < i ≤ commit_index n ∧ cmd ≠ [] ∧
       ∃ e, get (log n) i = Some e ∧ command e = cmd) ∧
  outgoing n' = [] ∧ committed n' = [] ∧ commit_index n' = commit_index n ∧
  last_applied n' = N.max (last_applied n) (commit_index n) ∧
  (take_ready n').2 = mkReady [] [].
Proof.
  intros Hb. unfold take_ready at 1. cbv zeta. rewrite apply_committed_eq by done.
  set (n1 := set_committed (_ ++ _) _).
  destruct (maybe_compact_eq n1) as (l & -> & _). cbn.
  split_and!; try done.
  - exists (pending n). split_and!; [done|apply deliveries_sorted|].
    intros i cmd. unfold pending. rewrite elem_of_deliveries.
    split; intros (? & ?); (split; [lia|done]).
  - rewrite apply_committed_eq by done. unfold pending. cbn.
    replace (N.to_nat _) with 0%nat by lia. cbn.
    set (n2 := set_committed [] _). by destruct (maybe_compact_eq n2) as (l' & -> & _).
Qed.

(** Proposing: a node that is not leader rejects the command with the
    leader it knows and is unchanged; a leader stores the command in its own
    term at the next index, returns that index, and emits one append (or
    snapshot) message per peer. *)
Theorem propose_outcome n cmd :
  log_ok (log n) → last_index (log n) + 1 < u64_max →
  (role n ≠ Leader → propose cmd n = (n, inr (mkNotLeader (leader_id n)))) ∧
  (role n = Leader →
     let (n', r) := propose cmd n in
     r = inl (last_index (log n) + 1) ∧ last_index (log n') = last_index (log n) + 1 ∧
     get (log n') (last_index (log n) + 1) = Some (mkEntry (current_term n) cmd) ∧
     ∃ envs, outgoing n' = outgoing n ++ envs ∧ (to <$> envs) = peers n).
Proof.
  intros Hok Hb. split; intros Hr.
  { unfold propose. by rewrite decide_True. }
  destruct (propose_leader n cmd Hok Hb Hr) as (Hi & _ & Hl & Hg & _ & Ho).
  destruct (propose cmd n) as [n' r]. cbn [fst snd] in *. split_and!; try done.
  eexists. split; [done|]. rewrite <-list_fmap_compose. by apply list_fmap_id.
Qed.


(** ** A cluster of one *)

(** The sole node after winning: nothing logged yet. *)
Record sole_leader n : Prop := {
  sole_role : role n = Leader;
  sole_term : current_term n = 1;
  sole_peers : peers n = [];
  sole_log : log n = RaftLog.new;
  sole_commit : commit_index n = 0;
  sole_applied : last_applied n = 0;
  sole_committed : committed n = [];
}.

Lemma tick_sole_leader n : sole_leader n → sole_leader (tick n).
Proof.
  intros []. unfold tick. rewrite sole_role0. cbv zeta. rewrite broadcast_append_eq.
  by destruct (decide _).
Qed.

Lemma become_candidate_sole n :
  current_term n = 0 → peers n = [] → log n = RaftLog.new → commit_index n = 0 →
  last_applied n = 0 → committed n = [] → sole_leader (become_candidate n).
Proof.
  intros Ht Hp Hl Hc Ha Hd. rewrite become_candidate_eq. cbv zeta.
  rewrite decide_True by (unfold majority, cluster_size; rewrite Hp; done).
  rewrite become_leader_eq. cbv zeta. split; cbn; try done.
  - by rewrite Ht.
  - unfold next_commit. cbn. rewrite Hc, Hl. done.
Qed.

(** Before its first timeout the node only counts ticks. *)
Lemma ticks_waiting n k :
  role n = Follower → election_elapsed n = 0 → N.of_nat k < election_timeout n →
  election_timeout n < two64 →
  Nat.iter k tick n = set_election_elapsed (N.of_nat k) n.
Proof.
  intros Hr He. induction k as [|k IH]; intros Hk Hb.
  { destruct n. cbn in *. by subst. }
  cbn [Nat.iter nat_rect]. change (nat_rect _ _ _ _) with (Nat.iter k tick n).
  rewrite IH by lia. unfold tick. cbn. rewrite Hr. rewrite wadd_small by lia.
  rewrite decide_False by lia. by replace (N.of_nat k + 1) with (N.of_nat (S k)) by lia.
Qed.

(** Alone, a leader commits its newest entry at once. *)
Lemma next_commit_alone n :
  role n = Leader → peers n = [] → commit_index n < u64_max →
  last_index (log n) = commit_index n + 1 →
  term_at (log n) (commit_index n + 1) = Some (current_term n) →
  next_commit n = commit_index n + 1.
Proof.
  intros Hr Hp Hb Hl Ht.
  destruct (next_commit_cases n Hb) as [[Hc|[Hc _]] Hmax]; [|lia].
  exfalso. apply (Hmax Hr (commit_index n + 1)); [lia|]. split; [done|].
  unfold majority, replicas, cluster_size. rewrite Hp. done.
Qed.

Lemma propose_alone n cmd :
  node_ok n → last_index (log n) + 1 < u64_max → role n = Leader → peers n = [] →
  commit_index n = last_index (log n) →
  commit_index (propose cmd n).1 = last_index (log n) + 1.
Proof.
  intros Hok Hb Hr Hp Hc.
  destruct (propose_leader n cmd (ok_log _ Hok) Hb Hr) as (_ & _ & Hl & Hg & _).
  revert Hl Hg. unfold propose. rewrite decide_False by naive_solver. cbn [append fst].
  rewrite broadcast_append_eq, advance_commit_eq. cbn [log commit_index set_commit_index].
  intros Hl Hg. rewrite next_commit_alone; cbn; rewrite ?Hc; try done; [lia|].
  rewrite term_at_get; cbn in *; [by rewrite Hg|].
  pose proof (ok_snapshot _ Hok). pose proof (ok_applied _ Hok). lia.
Qed.

Lemma sole_leader_serves n cmd :
  sole_leader n → cmd ≠ [] →
  (propose cmd n).2 = inl 1 ∧
  ready_committed (take_ready (propose cmd n).1).2 = [CommittedCommand 1 cmd].
Proof.
  intros [Hr Ht Hp Hl Hc Ha Hd] Hne. unfold propose.
  rewrite decide_False by naive_solver. rewrite Hl. cbn [append fst snd]. split; [done|].
  rewrite broadcast_append_eq, advance_commit_eq. cbn [peers set_log]. rewrite Hp.
  set (n1 := set_outgoing _ _).
  assert (next_commit n1 = 1) as Hnc.
  { unfold next_commit. subst n1. cbn [role commit_index log set_outgoing set_log].
    rewrite decide_False by naive_solver. rewrite Hc. cbv zeta.
    match goal with |- context [N.to_nat ?x] => change (N.to_nat x) with 1%nat end.
    change (0 +w 1) with 1. cbn [commit_scan]. cbv zeta. change (1 + N.of_nat 0) with 1.
    cbn [log set_outgoing set_log current_term].
    rewrite decide_False by (rewrite Ht; intros Hx; by apply Hx).
    rewrite decide_True; [done|].
    unfold majority, cluster_size, replicas. cbn. rewrite Hp. done. }
  rewrite Hnc. cbn [take_ready snd]. rewrite apply_committed_eq by (cbn; vm_compute; congruence).
  set (n2 := set_committed (_ ++ _) _). destruct (maybe_compact_eq n2) as (l & -> & _).
  subst n2 n1. cbn -[pending]. rewrite Hd. unfold pending. cbn. rewrite Ha. cbn.
  change (N.to_nat (1 - 0)) with 1%nat. cbn [deliveries]. rewrite app_nil_r. unfold delivery.
  change (get _ (0 + 1)) with (Some (mkEntry (current_term n) cmd)). cbn.
  by rewrite decide_False.
Qed.

(** Liveness of a single-node cluster: whatever the generator draws, after
    [election_timeout_max] ticks (or more) the node leads term 1, and a command
    proposed then is committed at index 1 and handed out by the next drain. *)
Theorem single_node_serves `{!RngLaws} entropy i c n0 k cmd :
  new entropy i [] c = Some n0 →
  election_timeout_max c < two64 → election_timeout_max c ≤ N.of_nat k → (1 ≤ k)%nat →
  cmd ≠ [] →
  let n := Nat.iter k tick n0 in
  role n = Leader ∧ current_term n = 1 ∧
  (propose cmd n).2 = inl 1 ∧
  ready_committed (take_ready (propose cmd n).1).2 = [CommittedCommand 1 cmd].
Proof.
  unfold new. case_decide as Hc; [|done]. cbv zeta.
  set (r := match seed c with Some s => _ | None => _ end).
  pose proof (gen_range_bounds (election_timeout_min c) (election_timeout_max c) r Hc) as Ht.
  destruct (gen_range _ _ _) as [t r']. cbn [fst snd] in *. intros [= <-] Hb Hk Hk1 Hne.
  set (n0 := mkNode _ _ _ _ _ _ _ _ _ _ _ _ _ _ _ _ _ _). cbv zeta.
  assert (sole_leader (Nat.iter k tick n0)) as Hs.
  { set (w := N.to_nat (N.max t 1 - 1)).
    assert (∃ d, k = (d + S w)%nat) as [d ->] by (exists (k - S w)%nat; lia).
    assert (sole_leader (Nat.iter (S w) tick n0)) as Hw.
    { cbn [Nat.iter nat_rect]. change (nat_rect _ _ _ _) with (Nat.iter w tick n0).
      assert (Nat.iter w tick n0 = set_election_elapsed (N.of_nat w) n0) as ->.
      { destruct (decide (t = 0)) as [->|]; [done|].
        apply ticks_waiting; cbn; [done..|lia|lia]. }
      unfold tick. cbn [role set_election_elapsed n0]. cbv zeta.
      rewrite decide_True; [by apply become_candidate_sole|].
      cbn [election_timeout election_elapsed set_election_elapsed n0].
      unfold two64 in *. rewrite wadd_small by (unfold two64; lia). lia. }
    clear Hk Hk1. induction d as [|d IH]; [done|]. by apply tick_sole_leader, IH. }
  destruct (sole_leader_serves _ cmd Hs Hne) as [? ?]. destruct Hs. done.
Qed.
End Properties.

(** ** Witnesses *)
Section Witnesses.
#[local] Existing Instance low_rng.
#[local] Existing Instance low_rng_laws.

Definition demo_node : RaftNode :=
  mkNode "n1" ["n2"; "n3"] default_config low_state Follower None 0 None RaftLog.new 0 0
    progress_default ∅ 0 0 5 [] [].

Definition demo_append : Message :=
  MAppendEntries (mkAppendEntries 1 "n2" 0 0 [mkEntry 1 [x01]] 1).

(** The node after one accepted append. *)
Definition demo_follower : RaftNode := exec (OpStep "n2" demo_append) demo_node.

Lemma demo_append_ok : message_ok demo_node demo_append.
Proof.
  intros _ _. split_and!; [vm_compute; congruence..|].
  intros j e _ Hj. cbn in Hj. lia.
Defined.

Lemma node_invariant_witness : node_ok (exec OpTakeReady demo_follower).
Proof.
  apply (node_invariant low_state "n1" ["n2"; "n3"] default_config demo_node); [reflexivity|].
  refine (reach_op _ demo_follower OpTakeReady _ I).
  exact (reach_op _ demo_node (OpStep "n2" demo_append) (reach_start _) demo_append_ok).
Defined.

Definition demo_leader : RaftNode :=
  set_progress (progress_reset progress_default ["n2"; "n3"] 1)
    (set_leader_id (Some "n1") (set_role Leader (set_current_term 1
      (set_log (mkLog [mkEntry 1 [x01]] 0 0) demo_node)))).

Lemma leader_append_only_witness :
  log (exec (OpPropose [x02]) demo_leader) =
    mkLog [mkEntry 1 [x01]; mkEntry 1 [x02]] 0 0.
Proof.
  rewrite (leader_append_only demo_leader (OpPropose [x02])); reflexivity.
Defined.

Lemma advance_commit_highest_witness :
  let n := set_progress (set_match_index (progress demo_leader) "n2" 1) demo_leader in
  commit_index (advance_commit n) = 1 ∧ quorum_at n 1.
Proof.
  intros n. assert (commit_index (advance_commit n) = 1) as Hc by reflexivity.
  split; [done|].
  destruct (advance_commit_highest n) as (_ & _ & Hq & _); [vm_compute; congruence|].
  rewrite Hc in Hq. apply Hq. vm_compute. congruence.
Defined.

Lemma take_ready_delivers_witness :
  committed (take_ready demo_follower).1 = [] ∧
  ready_messages (take_ready demo_follower).2 = outgoing demo_follower.
Proof.
  pose proof (take_ready_delivers demo_follower) as Hd.
  destruct (take_ready demo_follower) as [n r].
  destruct Hd as (? & _ & _ & ? & _); [vm_compute; congruence|]. done.
Defined.

Lemma propose_outcome_witness :
  (propose [x02] demo_follower).2 = inr (mkNotLeader (Some "n2")) ∧
  (propose [x02] demo_leader).2 = inl 2.
Proof.
  split.
  - destruct (propose_outcome demo_follower [x02]) as [Hf _]; [vm_compute; congruence..|].
    rewrite Hf; [reflexivity|vm_compute; congruence].
  - destruct (propose_outcome demo_leader [x02]) as [_ Hl]; [vm_compute; congruence..|].
    specialize (Hl eq_refl). destruct (propose _ _) as [n r]. by destruct Hl as (-> & _).
Defined.

Lemma single_node_serves_witness :
  ∃ n0, new low_state "solo" [] default_config = Some n0 ∧
    (propose [x01] (Nat.iter 10 tick n0)).2 = inl 1.
Proof.
  eexists. split; [reflexivity|].
  eapply (single_node_serves low_state "solo" default_config _ 10 [x01]);
    [reflexivity|vm_compute; congruence|vm_compute; congruence|lia|done].
Defined.
End Witnesses.
