(* ===== verification/Roles.v ===== *)
(** * The roles of a node

    What a node's role says of its other fields, whatever operations it performs
    and whatever messages it is sent: the tally behind a leader and a candidate,
    whom they voted for, whom they follow, whom a leader keeps track of. *)

From S2P Require Import Prelude RaftLog RaftState RaftNode NodeTheory NodeProps.
Local Open Scope N_scope.

Section Roles.
Context `{Rng}.
Implicit Types (n : RaftNode) (o : node_op).

(** Voted for itself, and counted its own vote. *)
Definition stands n : Prop := voted_for n = Some (id n) ∧ id n ∈ votes n.

(** The leader has a next and a match index for each peer. *)
Definition tracks n : Prop :=
  ∀ p, p ∈ peers n → is_Some (next_index (progress n) !! p) ∧ is_Some (match_index (progress n) !! p).

Record roles_ok n : Prop := {
  ro_leader : role n = Leader →
    stands n ∧ (majority n ≤ size (votes n))%nat ∧ leader_id n = Some (id n) ∧ tracks n;
  ro_candidate : role n = Candidate →
    stands n ∧ (size (votes n) < majority n)%nat ∧ leader_id n = None;
}.

Lemma roles_follower n : role n = Follower → roles_ok n.
Proof. intros Hr. split; congruence. Qed.

(** What [roles_ok] looks at. *)
Definition role_view n :=
  (id n, peers n, role n, leader_id n, voted_for n, votes n, progress n).

Lemma roles_view n n' : role_view n' = role_view n → roles_ok n → roles_ok n'.
Proof.
  intros [= Hi Hp Hr Hl Hv Ht Hg] [Hlead Hcand].
  split; unfold stands, tracks, majority, cluster_size in *; rewrite Hr, Hi, Hp, Hl, Hv, Ht, ?Hg; done.
Qed.

Lemma roles_become_leader n :
  stands n → (majority n ≤ size (votes n))%nat → roles_ok (become_leader n).
Proof.
  intros Hs Hm. rewrite become_leader_eq. split; [|done]. intros _.
  split; [exact Hs|]. split; [exact Hm|]. split; [done|]. intros p Hp. cbn in Hp |- *.
  destruct (progress_reset_lookup (progress n) (peers n) (last_index (log n)) p Hp) as [-> ->].
  by split; eexists.
Qed.

Lemma roles_become_candidate n : roles_ok (become_candidate n).
Proof.
  rewrite become_candidate_eq. cbv zeta. case_decide as Hm.
  - apply roles_become_leader; [split; [done|by apply elem_of_singleton]|].
    cbn -[majority]. rewrite size_singleton. exact Hm.
  - split; [done|]. intros _. cbn -[majority]. split; [split; [done|by apply elem_of_singleton]|].
    split; [|done]. rewrite size_singleton. change (1 < majority n)%nat. lia.
Qed.

Lemma roles_tick n : roles_ok n → roles_ok (tick n).
Proof.
  intros Hok. unfold tick.
  destruct (role n) eqn:Hr; cbv zeta; rewrite ?broadcast_append_eq; case_decide;
    try apply roles_become_candidate; by apply (roles_view n).
Qed.

(** Tracking survives what replies do to the progress. *)
Lemma roles_progress n p :
  (role n = Leader → tracks (set_progress p n)) → roles_ok n → roles_ok (set_progress p n).
Proof.
  intros Hp [Hlead Hcand]. split; [|done]. intros Hr. cbn in Hr.
  destruct (Hlead Hr) as (? & ? & ? & _). split; [done|]. split; [done|]. split; [done|by apply Hp].
Qed.

Lemma tracks_next n q i : tracks n → tracks (set_progress (set_next_index (progress n) q i) n).
Proof.
  intros Ht p Hp. destruct (Ht p Hp) as [Hn Hm]. cbn. rewrite lookup_insert. split; [|done].
  by case_decide.
Qed.

Lemma tracks_match n q i : tracks n → tracks (set_progress (set_match_index (progress n) q i) n).
Proof.
  intros Ht p Hp. destruct (Ht p Hp) as [Hn Hm]. cbn. rewrite lookup_insert. split; [done|].
  by case_decide.
Qed.

Lemma roles_next n q i : roles_ok n → roles_ok (set_progress (set_next_index (progress n) q i) n).
Proof. intros Hok. apply roles_progress; [|done]. intros Hr. by apply tracks_next, Hok. Qed.

Lemma roles_match n q i : roles_ok n → roles_ok (set_progress (set_match_index (progress n) q i) n).
Proof. intros Hok. apply roles_progress; [|done]. intros Hr. by apply tracks_match, Hok. Qed.

Lemma roles_request_vote m n : roles_ok n → roles_ok (handle_request_vote m n).
Proof.
  intros Hok. unfold handle_request_vote. case_decide; [|by apply (roles_view n)].
  destruct (can_vote n (rv_candidate_id m)) eqn:Hc; [|by apply (roles_view n)]. cbn [andb].
  destruct (candidate_is_up_to_date _ _ _); [|by apply (roles_view n)].
  apply bool_decide_eq_true in Hc.
  destruct (decide (role n = Follower)) as [Hf|Hf]; [by apply roles_follower|].
  assert (voted_for n = Some (id n)) as Hv.
  { destruct (role n) eqn:Hr; [done| |].
    - by destruct (ro_candidate _ Hok Hr) as ([? _] & _).
    - by destruct (ro_leader _ Hok Hr) as ([? _] & _). }
  destruct Hc as [Hc|Hc]; [congruence|]. eapply roles_view, Hok. unfold role_view. cbn.
  by rewrite Hv, <-Hc, Hv.
Qed.

Lemma roles_request_vote_reply m n : roles_ok n → roles_ok (handle_request_vote_reply m n).
Proof.
  intros Hok. unfold handle_request_vote_reply. case_decide as Hc; [done|].
  apply Decidable.not_or in Hc as [Hr _].
  apply dec_stable in Hr. destruct (ro_candidate _ Hok Hr) as ([Hv Hi] & Hsz & Hl).
  destruct (rvr_vote_granted m); [|done]. unfold votes_record.
  case_decide as Hm.
  - apply roles_become_leader; [split; [done|]|exact Hm]. cbn. set_solver.
  - split; [cbn; congruence|]. intros _. split; [split; [done|cbn; set_solver]|].
    split; [|done]. cbn -[majority size] in *. lia.
Qed.

Lemma roles_append_entries m n : roles_ok n → roles_ok (handle_append_entries m n).
Proof.
  intros Hok. unfold handle_append_entries. case_decide; [by apply (roles_view n)|]. cbv zeta.
  case_match; [|by apply roles_follower]. destruct (splice _ _ _) as [i l].
  case_decide; by apply roles_follower.
Qed.

Lemma roles_append_entries_reply from m n :
  roles_ok n → roles_ok (handle_append_entries_reply from m n).
Proof.
  intros Hok. unfold handle_append_entries_reply. case_decide as Hc; [done|]. cbv zeta.
  destruct (aer_success m); autorewrite with node.
  - eapply roles_view; [|by apply roles_next, roles_match, Hok]. done.
  - eapply roles_view; [|by apply roles_next, Hok]. done.
Qed.

Lemma roles_install_snapshot m n : roles_ok n → roles_ok (handle_install_snapshot m n).
Proof.
  intros Hok. unfold handle_install_snapshot. case_decide; [done|]. by apply roles_follower.
Qed.

Lemma roles_install_snapshot_reply from m n :
  roles_ok n → roles_ok (handle_install_snapshot_reply from m n).
Proof.
  intros Hok. unfold handle_install_snapshot_reply. case_decide; [done|]. cbv zeta.
  eapply roles_view; [|by apply roles_next, roles_match, Hok]. done.
Qed.

Lemma roles_step from msg n : roles_ok n → roles_ok (step from msg n).
Proof.
  intros Hok. rewrite step_eq.
  assert (roles_ok (step_down msg n)) as Hd.
  { unfold step_down. case_decide; [by apply roles_follower|done]. }
  destruct msg; cbn [dispatch];
    eauto using roles_request_vote, roles_request_vote_reply, roles_append_entries,
      roles_append_entries_reply, roles_install_snapshot, roles_install_snapshot_reply.
Qed.

Lemma roles_exec o n : roles_ok n → roles_ok (exec o n).
Proof.
  intros Hok. destruct o as [|from msg|cmd|]; cbn [exec].
  - by apply roles_tick.
  - by apply roles_step.
  - unfold propose. case_decide; [done|]. destruct (append _ _) as [i l]. cbn [fst]. cbv zeta.
    autorewrite with node. by apply (roles_view n).
  - destruct (take_ready_shape n) as (la & l & -> & _). by apply (roles_view n).
Qed.

(** [C23] A node's role is backed by the rest of its state, whatever operations
    it performs and whatever messages, genuine or not, it is sent: a leader voted
    for itself, holds the votes of a majority, its own among them, names itself
    as leader and keeps track of every peer; a candidate voted for itself, has
    its own vote and fewer than a majority (with a majority it would lead
    already) and follows nobody. *)
Theorem roles_backed entropy i ps c n0 ops :
  new entropy i ps c = Some n0 →
  let n := foldl (λ n o, exec o n) n0 ops in
  (role n = Leader →
     voted_for n = Some (id n) ∧ id n ∈ votes n ∧ (majority n ≤ size (votes n))%nat ∧
     leader_id n = Some (id n) ∧
     ∀ p, p ∈ peers n → is_Some (next_index (progress n) !! p) ∧ is_Some (match_index (progress n) !! p)) ∧
  (role n = Candidate →
     voted_for n = Some (id n) ∧ id n ∈ votes n ∧ (size (votes n) < majority n)%nat ∧
     leader_id n = None).
Proof.
  intros Hnew n. assert (roles_ok n) as Hok.
  { subst n. revert ops. apply rev_ind.
    - unfold new in Hnew. case_decide; [|done]. injection Hnew as <-. by apply roles_follower.
    - intros o ops IH. rewrite foldl_app. by apply roles_exec. }
  split; intros Hr.
  - destruct (ro_leader _ Hok Hr) as ([? ?] & ? & ? & ?). done.
  - destruct (ro_candidate _ Hok Hr) as ([? ?] & ? & ?). done.
Qed.
End Roles.

(** ** A node that wins an election *)
Section Example.
#[local] Existing Instance low_rng.
#[local] Existing Instance low_rng_laws.

Definition winning_ops : list node_op :=
  replicate 5 OpTick ++ [OpStep "n2" (MRequestVoteReply (mkRequestVoteReply 1 "n2" true))].

Lemma roles_backed_witness :
  ∃ n0, new low_state "n1" ["n2"; "n3"] default_config = Some n0 ∧
    let n := foldl (λ n o, exec o n) n0 winning_ops in
    role n = Leader ∧ (majority n ≤ size (votes n))%nat ∧ leader_id n = Some "n1".
Proof.
  eexists. split; [reflexivity|]. intros n.
  destruct (roles_backed low_state "n1" ["n2"; "n3"] default_config _ winning_ops eq_refl) as [Hl _].
  destruct Hl as (_ & _ & Hm & Hi & _); [vm_compute; reflexivity|].
  split; [vm_compute; reflexivity|]. split; [exact Hm|exact Hi].
Defined.
End Example.
