(* ===== verification/Bounds.v ===== *)
(** * Bounds of a single node

    How long a node waits and how much it keeps: its timers stay within what
    the configuration allows, a node that hears nothing campaigns in time, and a
    drain leaves fewer than [snapshot_threshold] applied entries in the log. *)

From S2P Require Import Prelude Storage RaftLog RaftState RaftNode NodeTheory NodeProps.
Local Open Scope N_scope.
Local Open Scope u64_scope.

(** ** Timers *)
Section Timers.
Context `{RngLaws}.
Implicit Types (n : RaftNode) (o : node_op).

Record timers_ok n : Prop := {
  tm_config : election_timeout_min (config n) ≤ election_timeout_max (config n);
  tm_timeout : election_timeout_min (config n) ≤ election_timeout n ≤ election_timeout_max (config n);
  tm_elapsed : election_elapsed n ≤ election_timeout n;
  tm_heartbeat : heartbeat_elapsed n ≤ heartbeat_ticks (config n);
}.

(** What the timers are. *)
Definition timers n : RaftConfig * N * N * N :=
  (config n, election_timeout n, election_elapsed n, heartbeat_elapsed n).

Lemma timers_same n n' : timers n' = timers n → timers_ok n → timers_ok n'.
Proof. intros [= Hc Ht He Hh] []. split; rewrite ?Hc, ?Ht, ?He, ?Hh; done. Qed.

(** A reset repairs the election timer. *)
Definition resettable n : Prop :=
  election_timeout_min (config n) ≤ election_timeout_max (config n) ∧
  heartbeat_elapsed n ≤ heartbeat_ticks (config n).

Lemma timers_resettable n : timers_ok n → resettable n.
Proof. by intros []. Qed.

Lemma timers_reset n : resettable n → timers_ok (reset_election_timer n).
Proof.
  intros [Hc Hh]. pose proof (gen_range_bounds _ _ (rng n) Hc) as Hb.
  split; cbn; [done|exact Hb|lia|done].
Qed.

Lemma timers_follower t l n : timers_ok n → timers_ok (become_follower t l n).
Proof. intros Hn%timers_resettable. by apply timers_reset. Qed.

Lemma timers_leader n : timers_ok n → timers_ok (become_leader n).
Proof.
  intros [? ? ? ?]. rewrite become_leader_eq. cbv zeta. split; cbn; done || lia.
Qed.

Lemma timers_candidate n : resettable n → timers_ok (become_candidate n).
Proof.
  intros Hn. rewrite become_candidate_eq. cbv zeta. set (n1 := reset_election_timer _).
  assert (timers_ok n1) as Hn1 by (by apply timers_reset).
  case_decide; [by apply timers_leader|]. by eapply timers_same; [|exact Hn1].
Qed.

Lemma timers_tick n : timers_ok n → timers_ok (tick n).
Proof.
  intros [Hc Ht He Hh]. unfold tick. destruct (role n); cbv zeta; case_decide as Hd; cbn -[wadd] in Hd.
  1,3: by apply timers_candidate.
  3: rewrite broadcast_append_eq.
  all: split; cbn -[wadd]; try done; try lia.
Qed.

Lemma timers_step from msg n : timers_ok n → timers_ok (step from msg n).
Proof.
  intros Hn. rewrite step_eq.
  assert (timers_ok (step_down msg n)) as Hd.
  { unfold step_down. case_decide; [by apply timers_follower|done]. }
  revert Hd. generalize (step_down msg n). clear Hn n. intros n Hn.
  destruct msg as [m|m|m|m|m|m]; cbn [dispatch].
  - unfold handle_request_vote. case_decide; [destruct (_ && _)|]; cbn.
    1: eapply timers_same, (timers_reset (set_voted_for (Some (rv_candidate_id m)) n)); [done|].
    1: exact (timers_resettable n Hn).
    all: by eapply timers_same; [|exact Hn].
  - unfold handle_request_vote_reply, votes_record. case_decide; [done|].
    destruct (rvr_vote_granted m); [|done]. cbv zeta.
    case_decide; [apply timers_leader|]; by eapply timers_same; [|exact Hn].
  - unfold handle_append_entries, reject_append.
    case_decide; [by eapply timers_same; [|exact Hn]|]. cbv zeta.
    pose proof (timers_follower (ae_term m) (Some (ae_leader_id m)) n Hn) as Hf.
    revert Hf. generalize (become_follower (ae_term m) (Some (ae_leader_id m)) n). intros n1 Hf.
    destruct (matches _ _ _); [|by apply (timers_same n1)].
    destruct (splice _ _ _) as [k l]. case_decide; by apply (timers_same n1).
  - unfold handle_append_entries_reply. case_decide; [done|].
    destruct (aer_success m); cbv zeta; rewrite ?advance_commit_eq, ?send_append_eq;
      by eapply timers_same; [|exact Hn].
  - unfold handle_install_snapshot. case_decide; [done|]. cbv zeta.
    pose proof (timers_follower (is_term m) (Some (is_leader_id m)) n Hn) as Hf.
    revert Hf. generalize (become_follower (is_term m) (Some (is_leader_id m)) n). intros n1 Hf.
    by apply (timers_same n1).
  - unfold handle_install_snapshot_reply. case_decide; [done|]. by eapply timers_same; [|exact Hn].
Qed.

Lemma timers_exec n o : timers_ok n → timers_ok (exec o n).
Proof.
  intros Hn. destruct o as [|from msg|cmd|]; cbn [exec].
  - by apply timers_tick.
  - by apply timers_step.
  - unfold propose. case_decide; [done|]. cbn [append fst].
    rewrite advance_commit_eq, broadcast_append_eq. by eapply timers_same; [|exact Hn].
  - destruct (take_ready_shape n) as (la & l & -> & _). by eapply timers_same; [|exact Hn].
Qed.

Lemma timers_new entropy i ps c n : new entropy i ps c = Some n → timers_ok n.
Proof.
  unfold new. case_decide as Hc; [|done]. intros [= <-].
  set (r := match seed c with Some s => _ | None => _ end).
  pose proof (gen_range_bounds _ _ r Hc) as Hb. split; cbn; done || lia.
Qed.

(** ** Waiting for a leader *)
Lemma idle_ticks n k :
  role n ≠ Leader → election_elapsed n + N.of_nat k < election_timeout n →
  election_timeout n < two64 →
  Nat.iter k tick n = set_election_elapsed (election_elapsed n + N.of_nat k) n.
Proof.
  intros Hr. induction k as [|k IH]; intros Hk Hb.
  { cbn. rewrite N.add_0_r. by destruct n. }
  cbn [Nat.iter nat_rect]. change (nat_rect _ _ _ _) with (Nat.iter k tick n).
  rewrite IH by lia. unfold tick. cbn [role set_election_elapsed].
  destruct (role n) eqn:Hrn; [| |done]; cbn.
  all: rewrite wadd_small by lia; rewrite decide_False by lia;
    by replace (election_elapsed n + N.of_nat k + 1) with (election_elapsed n + N.of_nat (S k)) by lia.
Qed.

(** The ticks until a node campaigns. *)
Definition patience n : nat := N.to_nat (N.max 1 (election_timeout n - election_elapsed n)).

(** [patience] ticks make a campaign. *)
Lemma campaign_ticks n :
  role n ≠ Leader → election_elapsed n ≤ election_timeout n → election_timeout n < u64_max →
  ∃ n0, Nat.iter (patience n) tick n = become_candidate n0 ∧
    n0 = set_election_elapsed (election_elapsed n + N.of_nat (patience n)) n.
Proof.
  intros Hr He Hb. set (w := N.to_nat (N.max 1 (election_timeout n - election_elapsed n) - 1)).
  assert (patience n = S w) as -> by (unfold patience; lia).
  cbn [Nat.iter nat_rect]. change (nat_rect _ _ _ _) with (Nat.iter w tick n).
  assert (Nat.iter w tick n = set_election_elapsed (election_elapsed n + N.of_nat w) n) as ->.
  { destruct (decide (election_elapsed n = election_timeout n)) as [Heq|Hne].
    - assert (w = 0%nat) as -> by lia. cbn. rewrite N.add_0_r. by destruct n.
    - apply idle_ticks; unfold two64, u64_max in *; [done|lia|lia]. }
  eexists. split; [|done].
  unfold tick. cbn [role set_election_elapsed]. cbv zeta.
  assert (election_elapsed n + N.of_nat w + 1 = election_elapsed n + N.of_nat (S w)) as <- by lia.
  destruct (role n) eqn:Hrn; [| |done]; cbn [election_timeout election_elapsed set_election_elapsed];
    rewrite wadd_small by (unfold two64, u64_max in *; lia); rewrite decide_True by lia; done.
Qed.

(** [C16] Timers: in every state a node reaches from its creation, by any
    operations with any messages, its election timeout lies within the
    configured range, and neither timer runs past its limit. A node that is not
    leader and hears nothing campaigns, once, within
    [max(1, election_timeout_max)] ticks, and not before its timeout is over:
    only its last tick changes anything but the timer. *)
Theorem timers_bounded entropy i ps c n0 ops :
  new entropy i ps c = Some n0 → election_timeout_max c < u64_max →
  let n := foldl (λ n o, exec o n) n0 ops in
  election_timeout_min c ≤ election_timeout n ≤ election_timeout_max c ∧
  election_elapsed n ≤ election_timeout n ∧ heartbeat_elapsed n ≤ heartbeat_ticks c ∧
  (role n ≠ Leader →
    N.of_nat (patience n) ≤ N.max 1 (election_timeout_max c) ∧
    (∀ k, (k < patience n)%nat →
      Nat.iter k tick n = set_election_elapsed (election_elapsed n + N.of_nat k) n) ∧
    let n' := Nat.iter (patience n) tick n in
    current_term n' = current_term n +w 1 ∧ voted_for n' = Some (id n) ∧
    (role n' = Candidate ∨ role n' = Leader)).
Proof.
  intros Hnew Hb n.
  assert (timers_ok n ∧ config n = c) as [Hok Hc].
  { subst n. induction ops as [|o ops IH] using rev_ind.
    - split; [by eapply timers_new|]. unfold new in Hnew. case_decide; [|done]. by injection Hnew as <-.
    - rewrite foldl_app. cbn. destruct IH as [IH IHc]. split; [by apply timers_exec|].
      rewrite <-IHc. apply exec_config. }
  destruct Hok as [_ Ht He Hh]. rewrite Hc in Ht, Hh. split; [done|]. split; [done|]. split; [done|].
  intros Hr. split; [unfold patience; lia|]. split.
  - intros k Hk. destruct (decide (k = 0)%nat) as [->|Hz].
    { cbn. rewrite N.add_0_r. by destruct n. }
    apply idle_ticks; [done| |]; unfold patience, two64, u64_max in *; lia.
  - destruct (campaign_ticks n) as (n1 & -> & Hn1); [done|done|lia|].
    rewrite become_candidate_eq. cbv zeta. rewrite Hn1.
    case_decide; [rewrite become_leader_eq|]; cbn; by auto.
Qed.
End Timers.

(** ** Memory *)
Section Retention.
Context `{Rng}.
Implicit Types (n : RaftNode).

(** [C17] Compaction bounds the log: with a positive [snapshot_threshold], after
    a drain in any state that satisfies the node's invariant, fewer than
    [snapshot_threshold] applied entries are retained (a log with exactly that
    many has been compacted, where the comment of the field says "beyond"), so the log holds fewer than that many entries plus the
    uncommitted ones; and nothing uncommitted is ever dropped. *)
Theorem retention_bounded n :
  node_ok n → 0 < snapshot_threshold (config n) →
  let n' := (take_ready n).1 in
  last_applied n' = commit_index n ∧
  last_applied n' - snapshot_index (log n') < snapshot_threshold (config n) ∧
  len64 (entries (log n')) < snapshot_threshold (config n) + (last_index (log n) - commit_index n) ∧
  ∀ k, commit_index n < k → get (log n') k = get (log n) k.
Proof.
  intros Hok Ht n'. pose proof Hok as [Hl Hs Ha Hc Hb]. subst n'.
  pose proof (take_ready_ok n Hok) as [Hl' Hs' _ _ _]. revert Hl' Hs'.
  unfold take_ready. rewrite apply_committed_eq by lia. rewrite N.max_r by done.
  unfold maybe_compact. cbn [config last_applied log set_committed set_last_applied].
  case_decide as Hd; cbn -[len64 last_index]; intros Hl' Hs'.
  - pose proof (compact_last_index (log n) (commit_index n) Hl) as Hli.
    rewrite last_index_eq in Hli by done.
    assert (snapshot_index (compact (log n) (commit_index n)) = commit_index n) as Hsi.
    { rewrite compact_snapshot_index. rewrite decide_False; [done|]. lia. }
    rewrite Hsi in *. split_and!; [done|lia|lia|]. intros k Hk. by apply compact_get.
  - pose proof (last_index_eq (log n) Hl) as Hli. split_and!; [done|lia|lia|done].
Qed.
End Retention.

Section Witnesses.
#[local] Existing Instance low_rng.
#[local] Existing Instance low_rng_laws.

Definition waiting_ops : list node_op := [OpTick; OpStep "n3" demo_append; OpTick; OpTick].

Lemma timers_bounded_witness :
  match new low_state "n1" ["n2"; "n3"] default_config with
  | Some n0 => let n := foldl (λ n o, exec o n) n0 waiting_ops in
      patience n = 3%nat ∧ current_term n = 1 ∧ current_term (Nat.iter 3 tick n) = 2
  | None => False
  end.
Proof.
  destruct (timers_bounded low_state "n1" ["n2"; "n3"] default_config demo_node waiting_ops
    eq_refl ltac:(reflexivity)) as (_ & _ & _ & Hr).
  destruct (Hr ltac:(discriminate)) as (_ & _ & Ht & _).
  split; [reflexivity|]. split; [reflexivity|]. exact Ht.
Defined.

(** Two committed entries behind a snapshot point, one uncommitted. *)
Definition full_node : RaftNode :=
  mkNode "n1" ["n2"; "n3"] (mkConfig 1 5 10 2 None) low_state Follower None 1 None
    (mkLog [mkEntry 1 [x01]; mkEntry 1 [x02]; mkEntry 1 [x03]] 4 1) 6 4
    progress_default ∅ 0 0 5 [] [].

Lemma retention_bounded_witness :
  let n' := (take_ready full_node).1 in
  last_applied n' = 6 ∧ len64 (entries (log n')) < 2 + (7 - 6) ∧ get (log n') 7 = Some (mkEntry 1 [x03]).
Proof.
  destruct (retention_bounded full_node) as (Ha & _ & Hl & Hg).
  - split; cbn; vm_compute; done || discriminate.
  - reflexivity.
  - split; [exact Ha|]. split; [exact Hl|]. rewrite Hg by reflexivity. reflexivity.
Defined.
End Witnesses.
