(* ===== verification/Widths.v ===== *)
(** * Machine widths

    Numbers of the code are [u64]; the model computes with [N] and wraps where
    the code does. Here is the typing of the model: with fields and messages
    in range, every operation of a node leaves its fields in range and sends
    messages in range, in any state and whatever the messages say. *)

From S2P Require Import Prelude Storage RaftLog RaftState RaftNode NodeTheory NodeProps.
Local Open Scope N_scope.
Local Open Scope u64_scope.

Definition u64 (x : N) : Prop := x < two64.

Create HintDb widths.

Lemma u64_wadd a b : u64 (a +w b).
Proof. apply wadd_lt. Qed.
Lemma u64_wsub a b : u64 (a -w b).
Proof. unfold u64, wsub. by apply N.mod_upper_bound. Qed.
Lemma u64_min a b : u64 a → u64 (N.min a b).
Proof. unfold u64. lia. Qed.
Lemma u64_max_of a b : u64 a → u64 b → u64 (N.max a b).
Proof. unfold u64. lia. Qed.
Lemma u64_0 : u64 0.
Proof. done. Qed.
Lemma u64_1 : u64 1.
Proof. done. Qed.
#[export] Hint Resolve u64_wadd u64_wsub u64_min u64_max_of u64_0 u64_1 : widths.

(** ** Types of the data *)
Definition u64_entry (e : LogEntry) : Prop := u64 (entry_term e).

Record u64_log (l : RaftLog) : Prop := {
  ul_entries : Forall u64_entry (entries l);
  ul_index : u64 (snapshot_index l);
  ul_term : u64 (snapshot_term l);
}.

Record u64_progress (p : LeaderProgress) : Prop := {
  up_next : ∀ i x, next_index p !! i = Some x → u64 x;
  up_match : ∀ i x, match_index p !! i = Some x → u64 x;
}.

Definition u64_message (msg : Message) : Prop :=
  match msg with
  | MRequestVote m => u64 (rv_term m) ∧ u64 (rv_last_log_index m) ∧ u64 (rv_last_log_term m)
  | MRequestVoteReply m => u64 (rvr_term m)
  | MAppendEntries m => u64 (ae_term m) ∧ u64 (ae_prev_log_index m) ∧ u64 (ae_prev_log_term m) ∧
      Forall u64_entry (ae_entries m) ∧ u64 (ae_leader_commit m)
  | MAppendEntriesReply m => u64 (aer_term m) ∧ u64 (aer_match_index m) ∧ u64 (aer_conflict_index m)
  | MInstallSnapshot m => u64 (is_term m) ∧ u64 (is_last_included_index m) ∧
      u64 (is_last_included_term m)
  | MInstallSnapshotReply m => u64 (isr_term m)
  end.

Definition u64_envelope (e : Envelope) : Prop := u64_message (message e).

Definition u64_committed (c : Committed) : Prop :=
  match c with CommittedCommand i _ => u64 i | CommittedSnapshot _ => True end.

Definition u64_config (c : RaftConfig) : Prop :=
  u64 (heartbeat_ticks c) ∧ u64 (election_timeout_max c) ∧
  election_timeout_min c ≤ election_timeout_max c.

(** ** The log *)
Lemma u64_log_new : u64_log RaftLog.new.
Proof. by split; [constructor|..]. Qed.

Lemma u64_last_index l : u64 (last_index l).
Proof. apply u64_wadd. Qed.

Lemma u64_get l i e : u64_log l → get l i = Some e → u64_entry e.
Proof.
  intros Hl. unfold get. case_decide; [done|]. intros He.
  eapply Forall_lookup_1; [apply Hl|done].
Qed.

Lemma u64_term_at l i t : u64_log l → term_at l i = Some t → u64 t.
Proof.
  intros Hl. unfold term_at. case_decide; [intros [= <-]; apply Hl|].
  intros (e & He & ->)%fmap_Some. by eapply u64_get.
Qed.

Lemma u64_term_default l i t : u64_log l → u64 t → u64 (default t (term_at l i)).
Proof.
  intros Hl Ht. destruct (term_at l i) as [x|] eqn:Hx; cbn; [|done]. by eapply u64_term_at.
Qed.

Lemma u64_last_term l : u64_log l → u64 (last_term l).
Proof.
  intros Hl. unfold last_term. destruct (last (entries l)) as [e|] eqn:He; [|apply Hl].
  apply last_Some in He as [es He]. pose proof (ul_entries _ Hl) as Hf. rewrite He in Hf.
  apply Forall_app in Hf as [_ Hf]. by apply Forall_cons in Hf as [Hf _].
Qed.

Lemma u64_set_entries l es : u64_log l → Forall u64_entry es → u64_log (set_entries es l).
Proof. intros [_ ? ?] Hes. by split. Qed.

Lemma u64_append l es : u64_log l → Forall u64_entry es → u64_log (append l es).2.
Proof. intros Hl Hes. apply u64_set_entries; [done|]. apply Forall_app. split; [apply Hl|done]. Qed.

Lemma u64_truncate l i : u64_log l → u64_log (truncate_from l i).
Proof.
  intros Hl. unfold truncate_from. case_decide; apply u64_set_entries; try done.
  apply Forall_take, Hl.
Qed.

Lemma u64_splice_loop l next es : u64_log l → Forall u64_entry es → u64_log (splice_loop l next es).
Proof.
  intros Hl Hes. revert next. induction Hes as [|e es He Hes IH]; intros next; cbn; [done|].
  case_decide; [apply IH|]. cbv zeta. apply u64_set_entries; [by apply u64_truncate|].
  rewrite <-app_assoc. apply Forall_app. split; [by apply u64_truncate|]. by constructor.
Qed.

Lemma u64_splice l prev es : u64_log l → Forall u64_entry es → u64_log (splice l prev es).2.
Proof. apply u64_splice_loop. Qed.

Lemma u64_compact l i : u64_log l → u64 i → u64_log (compact l i).
Proof.
  intros Hl Hi. unfold compact. case_decide; [done|]. split; cbn.
  - apply Forall_drop, Hl.
  - done.
  - apply u64_term_default; [done|apply Hl].
Qed.

Lemma u64_entries_from l i : u64_log l → Forall u64_entry (entries_from l i).
Proof.
  intros Hl. unfold entries_from. repeat case_decide; [apply Hl|apply Forall_drop, Hl|constructor].
Qed.

(** ** Progress *)
Lemma u64_progress_default : u64_progress progress_default.
Proof. by split. Qed.

Lemma u64_progress_next p i : u64_progress p → u64 (progress_next_index p i).
Proof.
  intros Hp. unfold progress_next_index. destruct (next_index p !! i) eqn:Hi; cbn; [|done].
  by eapply up_next.
Qed.

Lemma u64_progress_reset p ps i : u64_progress (progress_reset p ps i).
Proof.
  unfold progress_reset. induction ps as [|q ps IH] using rev_ind; [by split|].
  rewrite foldl_app. cbn [foldl]. destruct IH as [Hn Hm].
  split; cbn; intros j x [[_ <-]|[_ ?]]%lookup_insert_Some; eauto with widths.
Qed.

Lemma u64_set_next p i x : u64_progress p → u64 x → u64_progress (set_next_index p i x).
Proof.
  intros [Hn Hm] Hx. split; cbn; [|done]. intros j y [[_ <-]|[_ ?]]%lookup_insert_Some; eauto.
Qed.

Lemma u64_set_match p i x : u64_progress p → u64 x → u64_progress (set_match_index p i x).
Proof.
  intros [Hn Hm] Hx. split; cbn; [done|]. intros j y [[_ <-]|[_ ?]]%lookup_insert_Some; eauto.
Qed.

#[export] Hint Resolve u64_last_index u64_term_default u64_last_term u64_append u64_splice
  u64_compact u64_entries_from u64_progress_next u64_progress_reset u64_set_next u64_set_match
  u64_log_new u64_progress_default : widths.

(** ** Nodes *)
Section Nodes.
Context `{RngLaws}.
Implicit Types (n : RaftNode).

Record u64_node n : Prop := {
  un_config : u64_config (config n);
  un_term : u64 (current_term n);
  un_log : u64_log (log n);
  un_commit : u64 (commit_index n);
  un_applied : u64 (last_applied n);
  un_progress : u64_progress (progress n);
  un_elapsed : u64 (election_elapsed n) ∧ u64 (heartbeat_elapsed n) ∧ u64 (election_timeout n);
  un_outgoing : Forall u64_envelope (outgoing n);
  un_committed : Forall u64_committed (committed n);
}.

Definition u64_op (o : node_op) : Prop :=
  match o with OpStep _ msg => u64_message msg | _ => True end.

(** The types of the fields an operation replaces. *)
Ltac fields := intros []; split; cbn; naive_solver.

Lemma u64_set_role r n : u64_node n → u64_node (set_role r n).
Proof. fields. Qed.
Lemma u64_set_leader l n : u64_node n → u64_node (set_leader_id l n).
Proof. fields. Qed.
Lemma u64_set_voted v n : u64_node n → u64_node (set_voted_for v n).
Proof. fields. Qed.
Lemma u64_set_votes v n : u64_node n → u64_node (set_votes v n).
Proof. fields. Qed.
Lemma u64_set_term t n : u64 t → u64_node n → u64_node (set_current_term t n).
Proof. intros ?. fields. Qed.
Lemma u64_set_log l n : u64_log l → u64_node n → u64_node (set_log l n).
Proof. intros ?. fields. Qed.
Lemma u64_set_commit i n : u64 i → u64_node n → u64_node (set_commit_index i n).
Proof. intros ?. fields. Qed.
Lemma u64_set_applied i n : u64 i → u64_node n → u64_node (set_last_applied i n).
Proof. intros ?. fields. Qed.
Lemma u64_set_progress p n : u64_progress p → u64_node n → u64_node (set_progress p n).
Proof. intros ?. fields. Qed.
Lemma u64_set_election x n : u64 x → u64_node n → u64_node (set_election_elapsed x n).
Proof. intros ?. fields. Qed.
Lemma u64_set_heartbeat x n : u64 x → u64_node n → u64_node (set_heartbeat_elapsed x n).
Proof. intros ?. fields. Qed.
Lemma u64_set_committed cs n : Forall u64_committed cs → u64_node n → u64_node (set_committed cs n).
Proof. intros ?. fields. Qed.
Lemma u64_set_outgoing es n : Forall u64_envelope es → u64_node n → u64_node (set_outgoing es n).
Proof. intros ?. fields. Qed.

Lemma u64_send p msg n : u64_message msg → u64_node n → u64_node (send p msg n).
Proof.
  intros Hm Hn. apply u64_set_outgoing; [|done]. apply Forall_app. split; [apply Hn|].
  by constructor.
Qed.

Hint Resolve un_term un_log un_commit un_applied un_progress : widths.
Hint Resolve u64_set_role u64_set_leader u64_set_voted u64_set_votes u64_set_term u64_set_log
  u64_set_commit u64_set_applied u64_set_progress u64_set_election u64_set_heartbeat u64_send : widths.
Hint Resolve ul_index ul_term : widths.

Lemma u64_reset_timer n : u64_node n → u64_node (reset_election_timer n).
Proof.
  intros Hn. unfold reset_election_timer. destruct Hn as [Hc ? ? ? ? ? He ? ?].
  destruct Hc as (? & Hmax & Hle). cbn.
  pose proof (gen_range_bounds _ _ (rng n) Hle) as [_ Hb].
  split; cbn; try done. destruct He as (_ & ? & _). split_and!; [done..|]. unfold u64 in *. lia.
Qed.
Hint Resolve u64_reset_timer : widths.

Lemma u64_become_follower t l n : u64 t → u64_node n → u64_node (become_follower t l n).
Proof. unfold become_follower. eauto 10 with widths. Qed.

Lemma u64_append_envelope n p : u64_node n → u64_envelope (append_envelope n p).
Proof.
  intros Hn. unfold u64_envelope, append_envelope, append_message. cbn. pose proof (un_log _ Hn).
  case_decide; cbn; split_and!; eauto with widths.
Qed.

Lemma u64_broadcast n : u64_node n → u64_node (broadcast_append n).
Proof.
  intros Hn. rewrite broadcast_append_eq. apply u64_set_outgoing; [|done].
  apply Forall_app. split; [apply Hn|]. apply Forall_fmap, Forall_forall. intros p _.
  by apply u64_append_envelope.
Qed.

Lemma u64_send_append p n : u64_node n → u64_node (send_append p n).
Proof.
  intros Hn. rewrite send_append_eq. apply u64_set_outgoing; [|done].
  apply Forall_app. split; [apply Hn|]. constructor; [by apply u64_append_envelope|done].
Qed.
Hint Resolve u64_become_follower u64_broadcast u64_send_append : widths.

Lemma u64_advance n : u64_node n → u64_node (advance_commit n).
Proof.
  intros Hn. rewrite advance_commit_eq. apply u64_set_commit; [|done].
  unfold next_commit. case_decide; [apply Hn|]. cbv zeta.
  destruct (commit_scan _ _ _) as [i|] eqn:Hs; [|apply Hn]. cbn.
  apply commit_scan_Some in Hs as (Hb & _). pose proof (u64_last_index (log n)).
  unfold u64 in *. lia.
Qed.
Hint Resolve u64_advance : widths.

Lemma u64_become_leader n : u64_node n → u64_node (become_leader n).
Proof. intros Hn. unfold become_leader. eauto 15 with widths. Qed.
Hint Resolve u64_become_leader : widths.

Lemma u64_requests msg ps n :
  u64_message msg → u64_node n → u64_node (foldl (λ n p, send p msg n) n ps).
Proof. intros Hm. revert n. induction ps as [|p ps IH]; intros n Hn; cbn; eauto with widths. Qed.

Lemma u64_become_candidate n : u64_node n → u64_node (become_candidate n).
Proof.
  intros Hn. unfold become_candidate. cbv zeta. set (n1 := reset_election_timer _).
  assert (u64_node n1) as Hn1 by (subst n1; eauto 15 with widths). clearbody n1.
  case_decide; [eauto with widths|]. apply u64_requests; [|done].
  cbn. pose proof (un_log _ Hn1). split_and!; eauto with widths.
Qed.
Hint Resolve u64_become_candidate : widths.

Lemma u64_tick n : u64_node n → u64_node (tick n).
Proof.
  intros Hn. unfold tick. destruct (role n); cbv zeta; case_decide; eauto 10 with widths.
Qed.

Lemma u64_request_vote m n :
  u64_node n → u64_node (handle_request_vote m n).
Proof.
  intros Hn. unfold handle_request_vote. repeat case_match; simplify_eq;
    (apply u64_send; [apply un_term|]); eauto with widths.
Qed.

Lemma u64_request_vote_reply m n : u64_node n → u64_node (handle_request_vote_reply m n).
Proof.
  intros Hn. unfold handle_request_vote_reply, votes_record. case_decide; [done|].
  destruct (rvr_vote_granted m); [|done]. cbv zeta. case_decide; eauto with widths.
Qed.

Lemma u64_reject l c n : u64 c → u64_node n → u64_node (reject_append l c n).
Proof. intros Hc Hn. apply u64_send; [|done]. cbn. split_and!; eauto with widths. Qed.

Lemma u64_conflict_hint n i : u64 i → u64 (conflict_hint n i).
Proof. intros Hi. unfold conflict_hint, first_index. case_decide; eauto with widths. Qed.

Lemma u64_append_entries m n :
  u64_message (MAppendEntries m) → u64_node n → u64_node (handle_append_entries m n).
Proof.
  intros (Ht & Hp & _ & Hes & Hc) Hn. unfold handle_append_entries.
  case_decide; [apply u64_reject; eauto with widths|]. cbv zeta.
  set (n1 := become_follower _ _ n).
  assert (u64_node n1) as Hn1 by (subst n1; eauto with widths). clearbody n1.
  destruct (matches _ _ _); [|apply u64_reject; [by apply u64_conflict_hint|done]].
  pose proof (u64_splice (log n1) (ae_prev_log_index m) (ae_entries m) (un_log _ Hn1) Hes) as Hl.
  assert (u64 (splice (log n1) (ae_prev_log_index m) (ae_entries m)).1) as Hi
    by apply u64_last_index.
  destruct (splice _ _ _) as [i l]. cbn [fst snd] in Hl, Hi.
  set (n2 := if decide _ then _ else set_log l n1).
  assert (u64_node n2) as Hn2 by (subst n2; case_decide; eauto with widths). clearbody n2.
  apply u64_send; [|done]. cbn [u64_message aer_term aer_match_index aer_conflict_index].
  split_and!; [apply Hn2|done..].
Qed.

Lemma u64_append_reply from m n :
  u64_message (MAppendEntriesReply m) → u64_node n → u64_node (handle_append_entries_reply from m n).
Proof.
  intros (_ & Hm & Hc) Hn. unfold handle_append_entries_reply. case_decide; [done|].
  destruct (aer_success m); cbv zeta; [apply u64_advance|apply u64_send_append].
  - apply u64_set_progress; [|by eauto with widths]. apply u64_set_next; [|eauto with widths].
    cbn. eauto with widths.
  - eauto with widths.
Qed.

Lemma u64_install m n :
  u64_message (MInstallSnapshot m) → u64_node n → u64_node (handle_install_snapshot m n).
Proof.
  intros (Ht & Hi & Hit) Hn. unfold handle_install_snapshot. case_decide; [done|]. cbv zeta.
  set (n1 := become_follower _ _ n).
  assert (u64_node n1) as Hn1 by (subst n1; eauto with widths). clearbody n1.
  assert (u64_log (install_snapshot (log n1) (is_last_included_index m) (is_last_included_term m)))
    as Hl by (by split).
  set (n2 := set_committed _ _). assert (u64_node n2) as Hn2.
  { apply u64_set_committed; [|eauto with widths]. apply Forall_app. split; [apply Hn1|by constructor]. }
  clearbody n2. apply u64_send; [|done]. apply Hn2.
Qed.

Lemma u64_install_reply from m n : u64_node n → u64_node (handle_install_snapshot_reply from m n).
Proof.
  intros Hn. unfold handle_install_snapshot_reply. case_decide; [done|]. cbv zeta.
  pose proof (un_log _ Hn). apply u64_set_progress; [|eauto with widths]. cbn. eauto with widths.
Qed.

Lemma u64_step from msg n : u64_message msg → u64_node n → u64_node (step from msg n).
Proof.
  intros Hm Hn. rewrite step_eq.
  assert (u64_node (step_down msg n)) as Hn1.
  { unfold step_down. case_decide; [|done]. apply u64_become_follower; [|done].
    by destruct msg; cbn in *; naive_solver. }
  destruct msg; cbn [dispatch].
  - by apply u64_request_vote.
  - by apply u64_request_vote_reply.
  - by apply u64_append_entries.
  - by apply u64_append_reply.
  - by apply u64_install.
  - by apply u64_install_reply.
Qed.

Lemma u64_propose cmd n :
  u64_node n → u64_node (propose cmd n).1 ∧
  match (propose cmd n).2 with inl i => u64 i | inr _ => True end.
Proof.
  intros Hn. unfold propose. case_decide; [done|].
  pose proof (u64_append (log n) [mkEntry (current_term n) cmd] (un_log _ Hn)) as Hl.
  specialize (Hl ltac:(constructor; [apply Hn|done])).
  cbn [append fst snd] in *. split; [eauto with widths|apply u64_last_index].
Qed.

Lemma u64_apply_one n : u64_node n → u64_node (apply_one n).
Proof.
  intros Hn. unfold apply_one. cbv zeta. set (n1 := set_last_applied _ n).
  assert (u64_node n1) as Hn1 by (subst n1; eauto with widths). clearbody n1.
  destruct (get _ _); [|done]. case_decide; [done|]. apply u64_set_committed; [|done].
  apply Forall_app. split; [apply Hn1|]. constructor; [apply Hn1|done].
Qed.

Lemma u64_apply_committed n : u64_node n → u64_node (apply_committed n).
Proof.
  intros Hn. unfold apply_committed.
  assert (∀ fuel n, u64_node n → u64_node (apply_loop fuel n)) as Hloop.
  { induction fuel as [|fuel IH]; intros n0 Hn0; cbn; [done|].
    case_decide; [|done]. by apply IH, u64_apply_one. }
  apply (Hloop (N.to_nat (commit_index n - last_applied n))) in Hn.
  unfold maybe_compact. case_decide; [|done]. apply u64_set_log; [|done].
  apply u64_compact; apply Hn.
Qed.

Definition u64_ready (r : Ready) : Prop :=
  Forall u64_envelope (ready_messages r) ∧ Forall u64_committed (ready_committed r).

Lemma u64_take_ready n : u64_node n → u64_node (take_ready n).1 ∧ u64_ready (take_ready n).2.
Proof.
  intros Hn%u64_apply_committed. unfold take_ready. cbn. split; [|by split; apply Hn].
  by apply u64_set_committed, u64_set_outgoing.
Qed.

Lemma u64_new entropy i ps c n : u64_config c → new entropy i ps c = Some n → u64_node n.
Proof.
  intros Hc. unfold new. case_decide as Hle; [|done]. intros [= <-].
  set (r := match seed c with Some s => _ | None => _ end).
  pose proof (gen_range_bounds _ _ r Hle) as [_ Hb].
  split; cbn; try done.
  destruct Hc as (_ & Hmax & _).
  split_and!; [done..|]. unfold u64 in *. lia.
Qed.

Lemma u64_exec o n : u64_node n → u64_op o → u64_node (exec o n).
Proof.
  intros Hn Ho. destruct o as [|from msg|cmd|]; cbn [exec].
  - by apply u64_tick.
  - by apply u64_step.
  - by apply u64_propose.
  - by apply u64_take_ready.
Qed.

(** Type preservation: in every state whose fields are in range, every
    operation - a tick, a message in range with any content, a proposal, a
    drain - leaves the fields in range, and what it hands out (messages,
    committed items, the index of a proposal) is in range; a new node is in
    range. So [N] with the wrap-around written out is a faithful [u64]: no
    value of the model is one the code cannot have. *)
Theorem widths_preserved entropy i ps c n0 n o :
  u64_config c → new entropy i ps c = Some n0 → u64_node n → u64_op o →
  u64_node n0 ∧ u64_node (exec o n) ∧ u64_ready (take_ready (exec o n)).2 ∧
  ∀ cmd idx, (propose cmd n).2 = inl idx → u64 idx.
Proof.
  intros Hc Hnew Hn Ho. split; [by eapply u64_new|].
  pose proof (u64_exec o n Hn Ho) as Hex.
  split; [done|]. split; [by apply u64_take_ready|].
  intros cmd idx Hi. destruct (u64_propose cmd n Hn) as [_ Hidx]. by rewrite Hi in Hidx.
Qed.
End Nodes.

(** A follower that accepts an append at the top of the range. *)
Section Example.
#[local] Existing Instance low_rng.
#[local] Existing Instance low_rng_laws.

Definition top_append : Message :=
  MAppendEntries (mkAppendEntries u64_max "n2" 0 0 [mkEntry u64_max [x01]] u64_max).

Lemma widths_preserved_witness :
  ∃ n0, new low_state "n1" ["n2"] default_config = Some n0 ∧
    current_term (exec (OpStep "n2" top_append) n0) = u64_max ∧
    u64_node (exec (OpStep "n2" top_append) n0).
Proof.
  eexists. split; [reflexivity|]. split; [reflexivity|].
  assert (u64_config default_config) as Hc by (by split_and!).
  eapply (widths_preserved low_state "n1" ["n2"] default_config); [exact Hc|reflexivity| |].
  - eapply u64_new; [exact Hc|reflexivity].
  - split_and!; try done. by repeat constructor.
Defined.
End Example.
