(* ===== verification/Replication.v ===== *)
(** * Exchanges between a leader and a follower

    One [AppendEntries] or [InstallSnapshot] round between two nodes: what the
    follower ends up with, how the leader backs up after a rejection, and where
    the exchange makes no progress. *)

From S2P Require Import Prelude Storage RaftLog RaftState RaftNode NodeTheory.
Local Open Scope N_scope.
Local Open Scope u64_scope.

Section Exchange.
Context `{Rng}.
Implicit Types (L F n : RaftNode) (f : NodeId).

(** The reply just emitted by [n]. *)
Definition last_sent n : option Message := message <$> last (outgoing n).

(** One round: the message [L] would send to [f] now (on its next heartbeat),
    handled by the follower, whose reply is handled by the leader. *)
Definition round f (s : RaftNode * RaftNode) : RaftNode * RaftNode :=
  let (L, F) := s in
  let F := step (id L) (append_message L f) F in
  match last_sent F with
  | Some reply => (step f reply L, F)
  | None => (L, F)
  end.

(** ** Handler equations *)

Lemma step_append_accept from m n :
  current_term n ≤ ae_term m →
  matches (log n) (ae_prev_log_index m) (ae_prev_log_term m) = true →
  let n' := step from (MAppendEntries m) n in
  let l := (splice (log n) (ae_prev_log_index m) (ae_entries m)).2 in
  log n' = l ∧ role n' = Follower ∧ leader_id n' = Some (ae_leader_id m) ∧
  current_term n' = ae_term m ∧ last_applied n' = last_applied n ∧
  commit_index n' = (if decide (commit_index n < ae_leader_commit m)
                     then N.min (ae_leader_commit m) (last_index l) else commit_index n) ∧
  outgoing n' = outgoing n ++ [mkEnvelope (ae_leader_id m) (MAppendEntriesReply
    (mkAppendEntriesReply (ae_term m) (id n) true (last_index l) 0))].
Proof.
  intros Ht Hma. rewrite step_eq. cbv zeta. unfold dispatch.
  set (n1 := step_down _ n).
  assert (log n1 = log n ∧ id n1 = id n ∧ outgoing n1 = outgoing n ∧
    commit_index n1 = commit_index n ∧ last_applied n1 = last_applied n ∧
    current_term n1 ≤ ae_term m) as (Hl & Hi & Ho & Hc & Ha & Ht').
  { subst n1. unfold step_down. case_decide; cbn in *; split_and!; done || lia. }
  rewrite <-Hl, <-Hi, <-Ho, <-Hc, <-Ha in *. clearbody n1. clear Hl Hi Ho Hc Ha.
  unfold handle_append_entries. rewrite decide_False by lia. cbv zeta.
  cbn [log become_follower reset_election_timer set_current_term set_role set_voted_for
    set_leader_id set_election_elapsed set_rng set_election_timeout].
  rewrite Hma. cbn [splice].
  split_and!; repeat case_decide; done.
Qed.

Lemma step_append_reject from m n :
  current_term n ≤ ae_term m →
  matches (log n) (ae_prev_log_index m) (ae_prev_log_term m) = false →
  let n' := step from (MAppendEntries m) n in
  log n' = log n ∧ current_term n' = ae_term m ∧
  outgoing n' = outgoing n ++ [mkEnvelope (ae_leader_id m) (MAppendEntriesReply
    (mkAppendEntriesReply (ae_term m) (id n) false 0
       (conflict_hint n (ae_prev_log_index m))))].
Proof.
  intros Ht Hma. rewrite step_eq. cbv zeta. unfold dispatch.
  set (n1 := step_down _ n).
  assert (log n1 = log n ∧ id n1 = id n ∧ outgoing n1 = outgoing n ∧
    current_term n1 ≤ ae_term m) as (Hl & Hi & Ho & Ht').
  { subst n1. unfold step_down. case_decide; cbn in *; split_and!; done || lia. }
  unfold conflict_hint. rewrite <-Hl, <-Hi, <-Ho in *. clearbody n1. clear Hl Hi Ho.
  unfold handle_append_entries. rewrite decide_False by lia. cbv zeta.
  cbn [log become_follower reset_election_timer set_current_term set_role set_voted_for
    set_leader_id set_election_elapsed set_rng set_election_timeout].
  rewrite Hma. done.
Qed.

(** A leader's reaction to a rejection in its own term. *)
Lemma step_append_reply_reject f m L :
  role L = Leader → aer_term m = current_term L → aer_success m = false →
  step f (MAppendEntriesReply m) L =
    send_append f (set_progress (set_next_index (progress L) f (N.max (aer_conflict_index m) 1)) L).
Proof.
  intros Hr Ht Hs. rewrite step_eq. unfold step_down. cbn [message_term].
  rewrite decide_False by lia. unfold dispatch, handle_append_entries_reply.
  rewrite decide_False by naive_solver. by rewrite Hs.
Qed.

Lemma append_message_entries L f :
  let next := progress_next_index (progress L) f in
  snapshot_index (log L) < next →
  append_message L f = MAppendEntries (mkAppendEntries (current_term L) (id L) (next -w 1)
    (default 0 (term_at (log L) (next -w 1))) (entries_from (log L) next) (commit_index L)).
Proof. intros next Hn. unfold append_message. by rewrite decide_False by (fold next; lia). Qed.

Lemma append_message_snapshot L f :
  progress_next_index (progress L) f ≤ snapshot_index (log L) →
  append_message L f = MInstallSnapshot (mkInstallSnapshot (current_term L) (id L)
    (snapshot_index (log L)) (last_term (log L)) []).
Proof. intros Hn. unfold append_message. by rewrite decide_True. Qed.

(** ** Properties *)

(** Replication: when the append message a leader builds for a follower
    passes the log-matching test there, the follower's log ends up with the
    leader's term at every index after [prev_log_index] that the leader has,
    keeps what it had before it, reaches at least the leader's last index, and
    it answers with its own last index as [match_index]. *)
Theorem append_exchange_replicates L F f :
  log_ok (log L) → last_index (log L) + 1 < u64_max → log_ok (log F) →
  let next := progress_next_index (progress L) f in
  snapshot_index (log L) < next ≤ last_index (log L) + 1 →
  current_term F ≤ current_term L →
  snapshot_index (log F) ≤ next - 1 →
  matches (log F) (next - 1) (default 0 (term_at (log L) (next - 1))) = true →
  let F' := step (id L) (append_message L f) F in
  (∀ i, next ≤ i ≤ last_index (log L) → term_at (log F') i = term_at (log L) i) ∧
  (∀ i, i < next → get (log F') i = get (log F) i) ∧
  last_index (log L) ≤ last_index (log F') ∧
  last_sent F' = Some (MAppendEntriesReply (mkAppendEntriesReply (current_term L) (id F)
    true (last_index (log F')) 0)).
Proof.
  intros HokL HbL HokF next Hnext Ht Hsnap Hma F'. unfold u64_max in *.
  assert (next -w 1 = next - 1) as Hprev by (apply wsub_small; unfold two64; lia).
  subst F'. rewrite append_message_entries by (fold next; lia). fold next. rewrite Hprev.
  edestruct (step_append_accept (id L) (mkAppendEntries (current_term L) (id L) (next - 1)
    (default 0 (term_at (log L) (next - 1))) (entries_from (log L) next) (commit_index L)) F)
    as (Hl & _ & _ & _ & _ & _ & Ho); [done..|].
  pose proof (entries_from_length (log L) next HokL ltac:(lia) ltac:(unfold two64; lia)) as Hlen.
  assert (spliceable (log F) (next - 1) (entries_from (log L) next)) as Hsp.
  { split_and!; [done|lia| |unfold u64_max; lia].
    destruct (matches_range _ _ _ HokF Hma) as [?|?]; lia. }
  cbn [ae_prev_log_index ae_entries] in *. rewrite Hl.
  pose proof (splice_last_index_ge _ _ _ Hsp) as Hge.
  split_and!.
  - intros i Hi.
    assert (entries_from (log L) next !! N.to_nat (i - next) = get (log L) i) as He.
    { rewrite entries_from_nth by (done || unfold two64; lia). f_equal. lia. }
    destruct (proj2 (get_is_Some (log L) i HokL)) as [e Hge']; [lia|].
    rewrite Hge' in He. rewrite (term_at_get (log L)), Hge' by lia.
    cbn [fmap option_fmap option_map].
    rewrite <-(splice_term_after _ _ _ _ _ Hsp He). f_equal. lia.
  - intros i Hi. apply splice_get_before; [done|lia].
  - lia.
  - unfold last_sent. by rewrite Ho, last_snoc.
Qed.

(** Backing up after a rejection: a refused [AppendEntries] makes the
    leader's next index either drop below the refused position, or jump to just
    past the follower's snapshot point when the refused position was not after
    that point. *)
Theorem reject_backs_up L F f :
  log_ok (log F) → last_index (log F) < u64_max →
  role L = Leader → current_term F ≤ current_term L →
  let next := progress_next_index (progress L) f in
  snapshot_index (log L) < next → next < two64 →
  matches (log F) (next - 1) (default 0 (term_at (log L) (next - 1))) = false →
  let s := round f (L, F) in
  log s.2 = log F ∧ log s.1 = log L ∧
  let next' := progress_next_index (progress s.1) f in
  (1 ≤ next' < next) ∨
  (next - 1 ≤ snapshot_index (log F) ∧ next' = snapshot_index (log F) + 1).
Proof.
  intros HokF HbF Hr Ht next Hn Hn' Hma s. unfold u64_max in *.
  assert (next -w 1 = next - 1) as Hprev by (apply wsub_small; [lia|done]).
  subst s. unfold round. rewrite append_message_entries by (fold next; lia). fold next.
  rewrite Hprev.
  edestruct (step_append_reject (id L) (mkAppendEntries (current_term L) (id L) (next - 1)
    (default 0 (term_at (log L) (next - 1))) (entries_from (log L) next) (commit_index L)) F)
    as (Hl & _ & Ho); [done..|].
  unfold last_sent. rewrite Ho, last_snoc. cbn [fmap option_fmap option_map message].
  rewrite step_append_reply_reject by done. rewrite send_append_eq. cbn [fst snd].
  split_and!; [done..|]. cbn [progress set_outgoing set_progress aer_conflict_index
    ae_prev_log_index].
  assert (next - 1 = 0 → snapshot_index (log F) = 0) as Hz.
  { intros Hz. rewrite Hz in Hma. destruct (decide (snapshot_index (log F) = 0)); [done|].
    unfold matches in Hma. rewrite term_at_get, get_out in Hma by lia. done. }
  unfold progress_next_index. cbn [set_next_index next_index]. rewrite lookup_insert_eq.
  cbn [default from_option Datatypes.id]. unfold conflict_hint. cbv zeta.
  unfold first_index. rewrite last_index_eq in * by done.
  rewrite !wadd_small by (unfold two64, len64 in *; lia).
  case_decide; lia.
Qed.

(** The state of a follower stuck behind a mismatched snapshot point. *)
Definition stuck f (L0 : RaftNode) (s : RaftNode * RaftNode) : Prop :=
  role s.1 = Leader ∧ current_term s.1 = current_term L0 ∧ id s.1 = id L0 ∧
  log s.1 = log L0 ∧
  progress_next_index (progress s.1) f = snapshot_index (log L0) + 1 ∧
  current_term s.2 = current_term L0 ∧
  log s.2 = mkLog [] (snapshot_index (log L0)) (last_term (log L0)).

Lemma stuck_round f L0 s :
  snapshot_index (log L0) + 1 < two64 → last_term (log L0) ≠ snapshot_term (log L0) →
  stuck f L0 s → stuck f L0 (round f s).
Proof.
  intros Hb Hne. destruct s as [L F]. intros (Hr & Ht & Hi & Hl & Hn & HtF & HlF).
  cbn [fst snd] in *.
  assert (snapshot_index (log L0) + 1 -w 1 = snapshot_index (log L0)) as Hprev.
  { rewrite wsub_small by lia. lia. }
  unfold round. rewrite append_message_entries by (rewrite Hn, Hl; lia).
  rewrite Hn, Hl, Hprev, term_at_snapshot.
  assert (log_ok (log F)) as HokF.
  { rewrite HlF. unfold log_ok, len64. cbn. lia. }
  edestruct (step_append_reject (id L) (mkAppendEntries (current_term L) (id L)
    (snapshot_index (log L0)) (default 0 (Some (snapshot_term (log L0))))
    (entries_from (log L0) (snapshot_index (log L0) + 1)) (commit_index L)) F)
    as (Hl' & Ht' & Ho).
  { cbn. lia. }
  { rewrite HlF. cbn. unfold matches, term_at. cbn. rewrite decide_True by done.
    by apply bool_decide_eq_false_2. }
  unfold last_sent. rewrite Ho, last_snoc. cbn [fmap option_fmap option_map message].
  rewrite step_append_reply_reject by done. rewrite send_append_eq.
  unfold stuck. cbn [fst snd]. rewrite Hl', Ht'.
  split_and!; try done.
  unfold progress_next_index. cbn. rewrite lookup_insert_eq. cbn. unfold conflict_hint.
  rewrite (last_index_eq (log F)) by done. unfold first_index. rewrite HlF. cbn.
  unfold len64. cbn. rewrite decide_False by lia. rewrite wadd_small by lia. lia.
Qed.

(** [C38] A snapshot is sent with the term of the leader's last entry instead of
    the term at the snapshot point. When the two differ, the follower that
    installs it refuses every later append, the leader keeps sending the same
    one, and however many rounds follow the follower never receives an entry. *)
Theorem snapshot_term_livelock L F f k :
  role L = Leader → current_term F ≤ current_term L →
  progress_next_index (progress L) f ≤ snapshot_index (log L) →
  snapshot_index (log L) + 1 < two64 →
  last_term (log L) ≠ snapshot_term (log L) →
  let s := Nat.iter (S k) (round f) (L, F) in
  log s.2 = mkLog [] (snapshot_index (log L)) (last_term (log L)) ∧
  log s.1 = log L ∧ role s.1 = Leader.
Proof.
  intros Hr Ht Hn Hb Hne s.
  assert (stuck f L s) as (? & ? & ? & ? & ? & ? & ?); [|done].
  subst s. induction k as [|k IH]; [|by apply stuck_round].
  cbn [Nat.iter nat_rect]. unfold round. rewrite append_message_snapshot by done.
  rewrite step_eq. unfold dispatch. set (F1 := step_down _ F).
  assert (current_term F1 = current_term L) as HtF.
  { subst F1. rewrite step_down_term. cbn. lia. }
  unfold handle_install_snapshot. rewrite decide_False by (cbn; lia). cbv zeta.
  unfold last_sent. cbn [outgoing send set_outgoing]. rewrite last_snoc.
  cbn [fmap option_fmap option_map message].
  rewrite step_eq. unfold step_down at 1. cbn. rewrite decide_False by lia.
  unfold handle_install_snapshot_reply. cbn. rewrite decide_False by naive_solver.
  unfold stuck. cbn. split_and!; try done.
  unfold progress_next_index. cbn. rewrite lookup_insert_eq. cbn.
  by apply wadd_small.
Qed.

(** An accepted [InstallSnapshot] is applied unconditionally: whatever its
    index, the whole log is discarded and [commit_index] and [last_applied] are
    set to it. A delayed snapshot older than what the follower has committed
    therefore moves both back and drops committed entries. *)
Theorem install_snapshot_overwrites from m n :
  current_term n ≤ is_term m →
  let n' := step from (MInstallSnapshot m) n in
  log n' = mkLog [] (is_last_included_index m) (is_last_included_term m) ∧
  commit_index n' = is_last_included_index m ∧ last_applied n' = is_last_included_index m ∧
  committed n' = committed n ++ [CommittedSnapshot (is_data m)] ∧
  (is_last_included_index m < commit_index n → commit_index n' < commit_index n ∧
     ∀ i, is_last_included_index m < i → get (log n') i = None).
Proof.
  intros Ht n'. subst n'. rewrite step_eq. unfold dispatch, handle_install_snapshot.
  assert (¬ is_term m < current_term (step_down (MInstallSnapshot m) n)) as Hd.
  { rewrite step_down_term. cbn. lia. }
  rewrite decide_False by done. cbv zeta.
  assert (committed (step_down (MInstallSnapshot m) n) = committed n) as Hc.
  { unfold step_down. by case_decide. }
  split_and!; try done; [cbn; by rewrite Hc|].
  intros Hlt. split; [done|]. intros i Hi. cbn. unfold get. cbn.
  case_decide as Hout; [done|]. by rewrite lookup_nil.
Qed.
End Exchange.

(** ** Witnesses *)
Section Witnesses.
#[local] Existing Instance low_rng.

Definition demo (i : NodeId) (ps : list NodeId) (r : Role) (t : N) (l : RaftLog) : RaftNode :=
  mkNode i ps default_config low_state r None t None l (snapshot_index l) (snapshot_index l)
    progress_default ∅ 0 0 5 [] [].

(** A leader of term 2 that compacted index 2 (term 1) and holds index 3 (term 2). *)
Definition demo_leader : RaftNode :=
  demo "n1" ["n2"] Leader 2 (mkLog [mkEntry 2 [x03]] 2 1).

(** A leader of term 2 with two entries and nothing compacted. *)
Definition demo_leader2 : RaftNode :=
  demo "n1" ["n2"] Leader 2 (mkLog [mkEntry 1 [x01]; mkEntry 2 [x03]] 0 0).

Definition demo_follower : RaftNode := demo "n2" ["n1"] Follower 1 RaftLog.new.

Lemma append_exchange_replicates_witness :
  term_at (log (step "n1" (append_message demo_leader2 "n2") demo_follower)) 2 = Some 2.
Proof.
  destruct (append_exchange_replicates demo_leader2 demo_follower "n2") as (Ht & _);
    [vm_compute; intuition congruence..|].
  etrans; [apply (Ht 2); vm_compute; intuition congruence|]. vm_compute. reflexivity.
Defined.

Lemma reject_backs_up_witness :
  let L := set_progress (set_next_index progress_default "n2" 3) demo_leader2 in
  progress_next_index (progress (round "n2" (L, demo_follower)).1) "n2" < 3.
Proof.
  intros L. destruct (reject_backs_up L demo_follower "n2") as (_ & _ & [H|[H _]]);
    [vm_compute; intuition congruence..| |].
  - exact (proj2 H).
  - exfalso. revert H. vm_compute. congruence.
Defined.

Lemma snapshot_term_livelock_witness :
  log (Nat.iter 10 (round "n2") (demo_leader, demo_follower)).2 = mkLog [] 2 2.
Proof.
  destruct (snapshot_term_livelock demo_leader demo_follower "n2" 9) as [H _];
    [vm_compute; congruence..|exact H].
Defined.

Lemma install_snapshot_overwrites_witness :
  let n := set_commit_index 2 (demo "n2" ["n1"] Follower 1
             (mkLog [mkEntry 1 [x01]; mkEntry 1 [x02]] 0 0)) in
  get (log (step "n1" (MInstallSnapshot (mkInstallSnapshot 1 "n1" 1 1 [])) n)) 2 = None.
Proof.
  intros n.
  destruct (install_snapshot_overwrites "n1" (mkInstallSnapshot 1 "n1" 1 1 []) n)
    as (_ & _ & _ & _ & H); [vm_compute; congruence|].
  apply H; vm_compute; reflexivity.
Defined.
End Witnesses.
