(* ===== verification/ElectionSpec.v ===== *)
(** * Abstract specification of leader election

    What leader election promises, without logs, messages or timers: each node
    has a role, a term, a remembered vote, a known leader and a vote tally, and
    moves by seven kinds of atomic steps. [Election.v] shows that every
    operation of [RaftNode] is a sequence of these steps. *)

From S2P Require Import Prelude RaftState.
Local Open Scope N_scope.

Record view := mkView {
  v_id : NodeId;
  v_quorum : nat;
  v_role : Role;
  v_term : N;
  v_voted : option NodeId;
  v_leader : option NodeId;
  v_votes : gset NodeId;
}.

(** A vote as a fact: [(voter, term, candidate)]. *)
Abbreviation ballot := (NodeId * N * NodeId)%type.

(** Atomic steps. [ev u t] is the evidence that [u] voted for this node in term
    [t]. [VAccept] forgets the vote of the current term, as the code does when
    it defers to a leader; [VGrant] is only allowed when no vote of this term
    can have been forgotten. *)
Inductive vstep (ev : NodeId → N → Prop) (v : view) : view → Prop :=
  | VStepDown t l :
      v_term v < t →
      vstep ev v (mkView (v_id v) (v_quorum v) Follower t None l (v_votes v))
  | VAccept l :
      vstep ev v (mkView (v_id v) (v_quorum v) Follower (v_term v) None (Some l) (v_votes v))
  | VGrant c :
      v_voted v = Some c ∨ (v_voted v = None ∧ v_leader v = None) →
      vstep ev v (mkView (v_id v) (v_quorum v) (v_role v) (v_term v) (Some c) (v_leader v)
                    (v_votes v))
  | VCampaign :
      vstep ev v (mkView (v_id v) (v_quorum v) Candidate (v_term v + 1) (Some (v_id v)) None
                    {[v_id v]})
  | VRecord u :
      v_role v = Candidate → ev u (v_term v) →
      vstep ev v (mkView (v_id v) (v_quorum v) Candidate (v_term v) (v_voted v) (v_leader v)
                    (v_votes v ∪ {[u]}))
  | VWin :
      v_role v = Candidate → (v_quorum v ≤ size (v_votes v))%nat →
      vstep ev v (mkView (v_id v) (v_quorum v) Leader (v_term v) (v_voted v) (Some (v_id v))
                    (v_votes v)).

Lemma vstep_static ev v v' :
  vstep ev v v' → v_id v' = v_id v ∧ v_quorum v' = v_quorum v ∧ v_term v ≤ v_term v'.
Proof. destruct 1; cbn; split_and!; done || lia. Qed.

(** ** Votes cast so far, and the election invariant *)
Section Invariant.
Context (cluster : gset NodeId).
Implicit Types (B : gset ballot) (vs : gmap NodeId view).

Definition quorum : nat := (size cluster `div` 2 + 1)%nat.

(** [c] gathered a majority of ballots in term [t]. *)
Definition won B (t : N) (c : NodeId) : Prop :=
  ∃ Q : gset NodeId, (quorum ≤ size Q)%nat ∧ ∀ u, u ∈ Q → (u, t, c) ∈ B.

(** The ballots agree with one node's view. *)
Record view_ok B (v : view) : Prop := {
  vo_quorum : v_quorum v = quorum;
  vo_past : ∀ t c, (v_id v, t, c) ∈ B → t ≤ v_term v;
  vo_present : ∀ c, (v_id v, v_term v, c) ∈ B →
    v_voted v = Some c ∨ (v_voted v = None ∧ v_leader v ≠ None);
  vo_voted : ∀ c, v_voted v = Some c → (v_id v, v_term v, c) ∈ B;
  vo_tally : v_role v ≠ Follower → ∀ u, u ∈ v_votes v → (u, v_term v, v_id v) ∈ B;
  vo_leader : v_role v = Leader → (quorum ≤ size (v_votes v))%nat;
}.

Record election_ok B vs : Prop := {
  eo_voters : ∀ u t c, (u, t, c) ∈ B → u ∈ cluster;
  eo_once : ∀ u t c1 c2, (u, t, c1) ∈ B → (u, t, c2) ∈ B → c1 = c2;
  eo_views : ∀ i v, vs !! i = Some v → v_id v = i ∧ view_ok B v;
  eo_dom : dom vs = cluster;
}.

(** The ballots after a step: the remembered vote is recorded. *)
Definition cast (v : view) : gset ballot :=
  match v_voted v with Some c => {[(v_id v, v_term v, c)]} | None => ∅ end.

Lemma elem_of_cast v u t c :
  (u, t, c) ∈ cast v ↔ u = v_id v ∧ t = v_term v ∧ v_voted v = Some c.
Proof. unfold cast. destruct (v_voted v); set_solver. Qed.

(** A ballot cast by a step is not contradicted by an earlier one. *)
Lemma cast_fresh ev B v v' c c' :
  vstep ev v v' → view_ok B v →
  v_voted v' = Some c → (v_id v, v_term v', c') ∈ B → c' = c.
Proof.
  intros Hs Hok Hc Hb. pose proof (vo_past _ _ Hok _ _ Hb) as Hpast.
  destruct Hs as [t l Ht|l|c0 Hg| |u Hr He|Hr Hq]; cbn in *; simplify_eq.
  - destruct (vo_present _ _ Hok _ Hb) as [?|[? ?]]; destruct Hg as [?|[? ?]]; congruence.
  - lia.
  - destruct (vo_present _ _ Hok _ Hb) as [?|[? ?]]; congruence.
  - destruct (vo_present _ _ Hok _ Hb) as [?|[? ?]]; congruence.
Qed.

(** The stepping node's own view stays consistent. *)
Lemma view_ok_step ev B v v' :
  (∀ u t, ev u t → (u, t, v_id v) ∈ B) →
  vstep ev v v' → view_ok B v → view_ok (B ∪ cast v') v'.
Proof.
  intros Hev Hs Hok.
  pose proof (vstep_static _ _ _ Hs) as (Hid & Hq & Hle).
  split.
  - by rewrite Hq, (vo_quorum _ _ Hok).
  - intros t c [Hb|Hb]%elem_of_union.
    + rewrite Hid in Hb. pose proof (vo_past _ _ Hok _ _ Hb). lia.
    + apply elem_of_cast in Hb. lia.
  - intros c [Hb|Hb]%elem_of_union; [|apply elem_of_cast in Hb; naive_solver].
    rewrite Hid in Hb. pose proof (vo_past _ _ Hok _ _ Hb) as Hpast.
    destruct Hs as [t l Ht|l|c0 Hg| |u Hr He|Hr Hqs]; cbn in *; try lia.
    + by right.
    + destruct (vo_present _ _ Hok _ Hb) as [?|[? ?]]; destruct Hg as [?|[? ?]];
        left; congruence.
    + by apply (vo_present _ _ Hok).
    + destruct (vo_present _ _ Hok _ Hb) as [?|[? ?]]; [by left|by right].
  - intros c Hc. apply elem_of_union. right. apply elem_of_cast. done.
  - intros Hr' u Hu. apply elem_of_union.
    destruct Hs as [t l Ht|l|c0 Hg| |w Hr He|Hr Hqs]; cbn in *; try done.
    + left. by apply (vo_tally _ _ Hok).
    + right. apply elem_of_singleton in Hu as ->. by apply elem_of_singleton.
    + left. apply elem_of_union in Hu as [Hu| ->%elem_of_singleton].
      * apply (vo_tally _ _ Hok); [congruence|done].
      * by apply Hev.
    + left. apply (vo_tally _ _ Hok); [congruence|done].
  - intros Hl. destruct Hs as [t l Ht|l|c0 Hg| |w Hr He|Hr Hqs]; cbn in *; try done.
    + by apply (vo_leader _ _ Hok).
    + revert Hqs. by rewrite (vo_quorum _ _ Hok).
Qed.

(** Other nodes' views only mention their own ballots and tallies. *)
Lemma view_ok_other B B' v :
  B ⊆ B' → (∀ t c, (v_id v, t, c) ∈ B' → (v_id v, t, c) ∈ B) →
  view_ok B v → view_ok B' v.
Proof.
  intros Hsub Hsame Hok. split.
  - apply Hok.
  - intros t c Hb. by eapply vo_past, Hsame.
  - intros c Hb. by eapply vo_present, Hsame.
  - intros c Hc. by apply Hsub, (vo_voted _ _ Hok).
  - intros Hr u Hu. by apply Hsub, (vo_tally _ _ Hok).
  - apply Hok.
Qed.

Lemma election_ok_step ev B vs i v v' :
  election_ok B vs → vs !! i = Some v →
  (∀ u t, ev u t → (u, t, i) ∈ B) → vstep ev v v' →
  election_ok (B ∪ cast v') (<[i := v']> vs).
Proof.
  intros Hok Hi Hev Hs. destruct (eo_views _ _ Hok _ _ Hi) as [Hid Hv]. subst i.
  pose proof (vstep_static _ _ _ Hs) as (Hid' & _ & _).
  pose proof (eo_dom _ _ Hok) as Hdom.
  assert (v_id v ∈ cluster) as Hin by (rewrite <-Hdom; by eapply elem_of_dom_2).
  split.
  - intros u t c [Hb|Hb]%elem_of_union; [by eapply eo_voters|].
    apply elem_of_cast in Hb as (-> & _). by rewrite Hid'.
  - intros u t c1 c2. rewrite !elem_of_union, !elem_of_cast.
    intros [H1|(-> & -> & H1)] [H2|(? & ? & H2)].
    + by eapply eo_once.
    + subst. rewrite Hid' in H1. by eapply cast_fresh.
    + rewrite Hid' in H2. symmetry. by eapply cast_fresh.
    + congruence.
  - intros j w Hw. apply lookup_insert_Some in Hw as [[<- <-]|[Hne Hw]].
    + split; [done|]. by eapply view_ok_step.
    + destruct (eo_views _ _ Hok _ _ Hw) as [Hidw Hokw]. split; [done|].
      eapply view_ok_other; [|..|exact Hokw]; [set_solver|].
      intros t c [?|Hc]%elem_of_union; [done|].
      apply elem_of_cast in Hc as (? & _). congruence.
  - rewrite dom_insert_L, Hdom. set_solver.
Qed.

(** Majorities intersect. *)
Lemma quorums_intersect (Q1 Q2 : gset NodeId) :
  Q1 ⊆ cluster → Q2 ⊆ cluster → (quorum ≤ size Q1)%nat → (quorum ≤ size Q2)%nat →
  ∃ u, u ∈ Q1 ∧ u ∈ Q2.
Proof.
  intros H1 H2 Hs1 Hs2. destruct (decide (Q1 ∩ Q2 = ∅)) as [He|Hne].
  - exfalso. assert (size (Q1 ∪ Q2) = size Q1 + size Q2)%nat as Hsize
      by (apply size_union; set_solver).
    pose proof (subseteq_size (Q1 ∪ Q2) cluster ltac:(set_solver)).
    unfold quorum in *. pose proof (Nat.div_mod_eq (size cluster) 2).
    pose proof (Nat.mod_upper_bound (size cluster) 2). lia.
  - apply set_choose_L in Hne as [u Hu]. exists u. set_solver.
Qed.

Lemma won_unique B vs t c1 c2 : election_ok B vs → won B t c1 → won B t c2 → c1 = c2.
Proof.
  intros Hok (Q1 & Hs1 & H1) (Q2 & Hs2 & H2).
  assert (∀ (Q : gset NodeId) c, (∀ u, u ∈ Q → (u, t, c) ∈ B) → Q ⊆ cluster) as Hsub.
  { intros Q c HQ u Hu. by eapply eo_voters, HQ. }
  destruct (quorums_intersect Q1 Q2) as (u & Hu1 & Hu2); [by eapply Hsub..|done|done|].
  by eapply eo_once; [|apply H1|apply H2].
Qed.

Lemma won_mono B B' t c : B ⊆ B' → won B t c → won B' t c.
Proof. intros Hsub (Q & Hs & HQ). exists Q. split; [done|]. set_solver. Qed.

Lemma leader_won B v : view_ok B v → v_role v = Leader → won B (v_term v) (v_id v).
Proof.
  intros Hok Hl. exists (v_votes v). split; [by apply (vo_leader _ _ Hok)|].
  intros u Hu. apply (vo_tally _ _ Hok); [congruence|done].
Qed.
End Invariant.
