(* ===== verification/Election.v ===== *)
(** * Refinement of the election specification

    Every operation of [RaftNode] is a sequence of the abstract election steps
    of [ElectionSpec.v], under the discipline [remembers]. *)

From S2P Require Import Prelude Storage RaftLog RaftState RaftNode NodeTheory NodeProps ElectionSpec.
Local Open Scope N_scope.
Local Open Scope u64_scope.

Section Refinement.
Context `{Rng}.
Implicit Types (n : RaftNode) (o : node_op).

Definition view_of n : view :=
  mkView (id n) (majority n) (role n) (current_term n) (voted_for n) (leader_id n) (votes n).

(** The vote a message carries to this node. *)
Definition evidence o (u : NodeId) (t : N) : Prop :=
  ∃ from r, o = OpStep from (MRequestVoteReply r) ∧ rvr_vote_granted r = true ∧
            u = rvr_voter_id r ∧ t = rvr_term r.

(** The two conditions under which an operation is an election step: the term
    does not wrap, and no [RequestVote] of the node's current term is handled
    after the node forgot its vote by deferring to a leader of that term. *)
Definition remembers n o : Prop :=
  match o with
  | OpTick => current_term n < u64_max
  | OpStep _ (MRequestVote m) =>
      current_term n = rv_term m → voted_for n = None → leader_id n = None
  | _ => True
  end.

#[export] Instance remembers_dec n o : Decision (remembers n o).
Proof. unfold remembers. destruct o as [|from []| |]; apply _. Defined.

Lemma majority_static n1 n2 : peers n1 = peers n2 → majority n1 = majority n2.
Proof. unfold majority, cluster_size. by intros ->. Qed.

Lemma vstep_eq ev v v' w : vstep ev v w → w = v' → rtc (vstep ev) v v'.
Proof. intros Hs <-. by apply rtc_once. Qed.

Lemma rtc_view_eq (ev : NodeId → N → Prop) v v' : v = v' → rtc (vstep ev) v v'.
Proof. by intros ->. Qed.

Lemma step_down_refines ev msg n : rtc (vstep ev) (view_of n) (view_of (step_down msg n)).
Proof.
  unfold step_down. case_decide as Ht; [|done].
  eapply vstep_eq; [by apply (VStepDown _ _ (message_term msg) None)|done].
Qed.

Lemma become_leader_view n :
  view_of (become_leader n) =
    mkView (id n) (majority n) Leader (current_term n) (voted_for n) (Some (id n)) (votes n).
Proof. by rewrite become_leader_eq. Qed.

Lemma win_refines ev n :
  role n = Candidate → (majority n ≤ size (votes n))%nat →
  rtc (vstep ev) (view_of n) (view_of (become_leader n)).
Proof.
  intros Hr Hq. rewrite become_leader_view. eapply vstep_eq; [by apply VWin|done].
Qed.

Lemma become_candidate_refines ev n :
  current_term n < u64_max → rtc (vstep ev) (view_of n) (view_of (become_candidate n)).
Proof.
  intros Ht. assert (current_term n +w 1 = current_term n + 1) as Hw.
  { apply wadd_small. unfold u64_max, two64 in *. lia. }
  rewrite become_candidate_eq. cbv zeta.
  set (n1 := reset_election_timer _).
  assert (rtc (vstep ev) (view_of n) (view_of n1)) as Hc.
  { eapply vstep_eq; [apply VCampaign|]. unfold view_of. cbn. by rewrite Hw. }
  case_decide as Hm; [|exact Hc].
  etrans; [exact Hc|]. apply win_refines; [done|].
  subst n1. cbn [votes reset_election_timer set_election_timeout set_rng set_election_elapsed
    set_votes]. by rewrite size_singleton.
Qed.

Lemma tick_refines ev n :
  current_term n < u64_max → rtc (vstep ev) (view_of n) (view_of (tick n)).
Proof.
  intros Ht. unfold tick. destruct (role n) eqn:Hr; cbv zeta; rewrite ?broadcast_append_eq.
  1,2: destruct (decide _); [|done];
    exact (become_candidate_refines ev (set_election_elapsed (election_elapsed n +w 1) n) Ht).
  by destruct (decide _).
Qed.

Lemma handle_request_vote_refines ev m n :
  rv_term m ≤ current_term n →
  (current_term n = rv_term m → voted_for n = None → leader_id n = None) →
  rtc (vstep ev) (view_of n) (view_of (handle_request_vote m n)).
Proof.
  intros Hle Hrem. unfold handle_request_vote, can_vote.
  case_decide as Hge; [|done]. destruct (_ && _) eqn:Hg; [|done].
  apply andb_true_iff in Hg as [Hv%bool_decide_eq_true_1 _].
  eapply vstep_eq; [apply (VGrant _ _ (rv_candidate_id m))|done].
  destruct Hv as [Hv|Hv]; [right|by left]. split; [done|]. apply Hrem; [lia|done].
Qed.

Lemma handle_request_vote_reply_refines (ev : NodeId → N → Prop) m n :
  (rvr_vote_granted m = true → ev (rvr_voter_id m) (rvr_term m)) →
  rtc (vstep ev) (view_of n) (view_of (handle_request_vote_reply m n)).
Proof.
  intros Hev. unfold handle_request_vote_reply. case_decide as Hr; [done|].
  assert (role n = Candidate) as Hc by (destruct (role n); naive_solver).
  assert (rvr_term m = current_term n) as Ht by (destruct (decide (rvr_term m = current_term n)); naive_solver).
  destruct (rvr_vote_granted m); [|done]. unfold votes_record. cbv zeta.
  set (n1 := set_votes _ n).
  assert (rtc (vstep ev) (view_of n) (view_of n1)) as Hrec.
  { eapply vstep_eq; [apply (VRecord _ _ (rvr_voter_id m))|]; [done| |].
    - cbn. rewrite <-Ht. by apply Hev.
    - unfold view_of. cbn. by rewrite Hc. }
  case_decide as Hq; [|exact Hrec]. etrans; [exact Hrec|]. by apply win_refines.
Qed.

Lemma accept_refines ev l n :
  rtc (vstep ev) (view_of n) (view_of (become_follower (current_term n) (Some l) n)).
Proof. eapply vstep_eq; [apply (VAccept _ _ l)|done]. Qed.

Lemma dispatch_refines o from msg n :
  o = OpStep from msg → message_term msg ≤ current_term n → remembers n o →
  rtc (vstep (evidence o)) (view_of n) (view_of (dispatch from msg n)).
Proof.
  intros -> Hle Hrem. destruct msg as [m|m|m|m|m|m]; cbn [dispatch message_term] in *.
  - by apply handle_request_vote_refines.
  - apply handle_request_vote_reply_refines. intros Hg. by exists from, m.
  - unfold handle_append_entries. case_decide; [done|].
    replace (ae_term m) with (current_term n) by lia. cbv zeta.
    etrans; [apply (accept_refines _ (ae_leader_id m))|]. apply rtc_view_eq.
    destruct (matches _ _ _); [|done]. cbn [splice]. by destruct (decide _).
  - apply rtc_view_eq. unfold handle_append_entries_reply. case_decide; [done|].
    destruct (aer_success m); by rewrite ?advance_commit_eq, ?send_append_eq.
  - unfold handle_install_snapshot. case_decide; [done|].
    replace (is_term m) with (current_term n) by lia. cbv zeta.
    etrans; [apply (accept_refines _ (is_leader_id m))|]. by apply rtc_view_eq.
  - apply rtc_view_eq. unfold handle_install_snapshot_reply. by case_decide.
Qed.

Lemma take_ready_view n : view_of (take_ready n).1 = view_of n.
Proof. by destruct (take_ready_shape n) as (la & l & -> & _). Qed.

Lemma exec_refines o n :
  remembers n o → rtc (vstep (evidence o)) (view_of n) (view_of (exec o n)).
Proof.
  intros Hrem. destruct o as [|from msg|cmd|]; cbn [exec].
  - by apply tick_refines.
  - rewrite step_eq. etrans; [apply step_down_refines|].
    apply dispatch_refines; [done|rewrite step_down_term; lia|].
    cbn in *. destruct msg as [m|m|m|m|m|m]; try done. unfold step_down. cbn [message_term].
    by case_decide.
  - apply rtc_view_eq. unfold propose. case_decide; [done|]. cbn [append fst].
    by rewrite advance_commit_eq, broadcast_append_eq.
  - apply rtc_view_eq. by rewrite take_ready_view.
Qed.

(** [C27] Refinement of the election specification: every operation of a node
    that does not forget a vote is, on the node's role, term, vote, known leader
    and tally, a sequence of abstract election steps, in which a granted vote
    is only recorded from a reply that carries it. *)
Theorem node_refines_election_spec o n :
  remembers n o → rtc (vstep (evidence o)) (view_of n) (view_of (exec o n)).
Proof. apply exec_refines. Qed.
End Refinement.

(** ** Witness *)
Section Witnesses.
#[local] Existing Instance low_rng.

Definition demo_candidate : RaftNode :=
  mkNode "n1" ["n2"; "n3"] default_config low_state Candidate None 1 (Some "n1") RaftLog.new
    0 0 progress_default {["n1"]} 0 0 5 [] [].

Lemma node_refines_election_spec_witness :
  let o := OpStep "n2" (MRequestVoteReply (mkRequestVoteReply 1 "n2" true)) in
  rtc (vstep (evidence o)) (view_of demo_candidate) (view_of (exec o demo_candidate)) ∧
  v_role (view_of (exec o demo_candidate)) = Leader.
Proof.
  intros o. split; [|vm_compute; reflexivity].
  apply (node_refines_election_spec o demo_candidate). exact I.
Defined.
End Witnesses.
