(* ===== verification/Network.v ===== *)
(** * A cluster of nodes over an unreliable network

    The nodes of a cluster and every packet ever handed to the transport.
    Packets may be delivered late, in any order, repeatedly or never, as the
    TCP links of [src/net/peer.rs] and the simulator of [src/sim.rs] allow. The
    discipline under which elections are safe, and runs of the code that break
    election safety without it and commit safety even with it. *)

From S2P Require Import Prelude Storage RaftLog RaftState RaftNode NodeTheory NodeProps Widths ElectionSpec Election.
Local Open Scope N_scope.
Local Open Scope u64_scope.

Record packet := mkPacket {
  p_from : NodeId;
  p_to : NodeId;
  p_msg : Message;
}.

(** The driver fills the data of an [InstallSnapshot] before sending it, the
    simulator sends it as it is. *)
Definition fill (data : option (list KeyValue)) (m : Message) : Message :=
  match data, m with
  | Some data, MInstallSnapshot s => MInstallSnapshot (mkInstallSnapshot (is_term s)
      (is_leader_id s) (is_last_included_index s) (is_last_included_term s) data)
  | _, _ => m
  end.

Inductive action :=
  | ATick (i : NodeId)
  | ADeliver (k : nat)
  | APropose (i : NodeId) (cmd : bytes)
  | ADrain (i : NodeId) (data : option (list KeyValue)).

Section Network.
Context `{Rng}.

Record sys := mkSys {
  nodes : gmap NodeId RaftNode;
  net : list packet;
}.

Implicit Types (s : sys) (a : action).

(** The node an action is performed by, and its operation. *)
Definition op_of s a : option (NodeId * node_op) :=
  match a with
  | ATick i => Some (i, OpTick)
  | ADeliver k => p ← net s !! k; Some (p_to p, OpStep (p_from p) (p_msg p))
  | APropose i cmd => Some (i, OpPropose cmd)
  | ADrain i _ => Some (i, OpTakeReady)
  end.

(** What the action hands to the transport. *)
Definition sent a (i : NodeId) (n : RaftNode) : list packet :=
  match a with
  | ADrain _ data =>
      (λ e, mkPacket i (to e) (fill data (message e))) <$> ready_messages (take_ready n).2
  | _ => []
  end.

(** The commands node [i] would hand to its driver now. *)
Definition delivers (s : sys) (i : NodeId) : option (list Committed) :=
  (λ n, ready_committed (take_ready n).2) <$> nodes s !! i.

(** What a run may be held to. [Voting]: no operation can make a node vote twice
    in a term ([remembers]). [Quiet]: moreover no log is compacted, replaced by
    a snapshot or filled up to the last [u64] index. [Faithful]: moreover a node
    that accepts an append is left with no entries the leader did not send,
    unless its last entry is of the leader's own term. [Compacting]: as
    [Faithful], but logs may be compacted, as long as nobody needs what is gone:
    no snapshot is shipped, appends start above the snapshot point, or at it
    and agree with it.
    [Shipping]: as [Compacting], but snapshots may be shipped, as long as each
    carries the term of its last entry and is installed by a node whose log does
    not reach beyond it. *)
Inductive discipline := Free | Voting | Quiet | Faithful | Compacting | Shipping.

Definition quiet (n : RaftNode) (o : node_op) : Prop :=
  match o with
  | OpTakeReady => log (exec o n) = log n
  | OpPropose _ => last_index (log n) + 1 < u64_max
  | OpStep _ (MInstallSnapshot _) => False
  | _ => True
  end.

#[export] Instance quiet_dec n o : Decision (quiet n o).
Proof. unfold quiet. destruct o as [|from []| |]; apply _. Defined.

Definition faithful (n : RaftNode) (o : node_op) : Prop :=
  match o with
  | OpStep _ (MAppendEntries m) =>
      current_term n ≤ ae_term m →
      matches (log n) (ae_prev_log_index m) (ae_prev_log_term m) = true →
      let l := (splice (log n) (ae_prev_log_index m) (ae_entries m)).2 in
      last_index l = ae_prev_log_index m + len64 (ae_entries m) ∨ last_term l = ae_term m
  | _ => True
  end.

#[export] Instance faithful_dec n o : Decision (faithful n o).
Proof. unfold faithful. destruct o as [|from []| |]; apply _. Defined.

Definition plain_envelope (e : Envelope) : Prop :=
  match message e with MInstallSnapshot _ | MInstallSnapshotReply _ => False | _ => True end.

#[export] Instance plain_envelope_dec e : Decision (plain_envelope e).
Proof. unfold plain_envelope. destruct (message e); apply _. Defined.

(** No snapshot waits to be sent. *)
Definition no_snapshots (n : RaftNode) : Prop := Forall plain_envelope (outgoing n).

(** The append starts after the snapshot point, or at it and agrees with it. *)
Definition starts_above (l : RaftLog) (m : AppendEntries) : Prop :=
  snapshot_index l < ae_prev_log_index m ∨
  (ae_prev_log_index m = snapshot_index l ∧
   matches l (ae_prev_log_index m) (ae_prev_log_term m) = true).

#[export] Instance starts_above_dec l m : Decision (starts_above l m).
Proof. unfold starts_above. apply _. Defined.

(** No snapshot is received or sent, and appends start above the snapshot. *)
Definition anchored (n : RaftNode) (o : node_op) : Prop :=
  match o with
  | OpTakeReady | OpTick => True
  | OpPropose _ => last_index (log n) + 1 < u64_max
  | OpStep _ (MAppendEntries m) => current_term n ≤ ae_term m → starts_above (log n) m
  | OpStep _ (MInstallSnapshot _) | OpStep _ (MInstallSnapshotReply _) => False
  | OpStep _ _ => True
  end ∧ no_snapshots (exec o n).

#[export] Instance anchored_dec n o : Decision (anchored n o).
Proof. unfold anchored, no_snapshots. destruct o as [|from []| |]; apply _. Defined.

(** A snapshot sent from this log carries the term of its snapshot point. *)
Definition labelled (l : RaftLog) (e : Envelope) : Prop :=
  match message e with
  | MInstallSnapshot m => is_last_included_index m = snapshot_index l →
      is_last_included_term m = snapshot_term l
  | _ => True
  end.

#[export] Instance labelled_dec l e : Decision (labelled l e).
Proof. unfold labelled. destruct (message e); apply _. Defined.

(** Appends start above the snapshot point; a snapshot is installed by a node
    whose log does not reach beyond it, and sent with the right term. *)
Definition shipping (n : RaftNode) (o : node_op) : Prop :=
  match o with
  | OpPropose _ => last_index (log n) + 1 < u64_max
  | OpStep _ (MAppendEntries m) => current_term n ≤ ae_term m → starts_above (log n) m
  | OpStep _ (MInstallSnapshot m) => current_term n ≤ is_term m →
      last_index (log n) ≤ is_last_included_index m
  | _ => True
  end ∧ Forall (labelled (log n)) (outgoing (exec o n)).

#[export] Instance shipping_dec n o : Decision (shipping n o).
Proof. unfold shipping. destruct o as [|from []| |]; apply _. Defined.

Definition obeys (d : discipline) (n : RaftNode) (o : node_op) : Prop :=
  match d with
  | Free => True
  | Voting => remembers n o
  | Quiet => remembers n o ∧ quiet n o
  | Faithful => remembers n o ∧ quiet n o ∧ faithful n o
  | Compacting => remembers n o ∧ anchored n o ∧ faithful n o
  | Shipping => remembers n o ∧ shipping n o ∧ faithful n o
  end.

#[export] Instance obeys_dec d n o : Decision (obeys d n o).
Proof. destruct d; apply _. Defined.

(** One action; a run stops at an operation the discipline forbids. *)
Definition act (d : discipline) s a : option sys :=
  io ← op_of s a;
  n ← nodes s !! io.1;
  if decide (obeys d n io.2) then
    Some (mkSys (<[io.1 := exec io.2 n]> (nodes s)) (net s ++ sent a io.1 n))
  else None.

Fixpoint run (d : discipline) (acts : list action) s : option sys :=
  match acts with
  | [] => Some s
  | a :: acts => s' ← act d s a; run d acts s'
  end.

(** All nodes freshly created, each knowing the others. *)
Definition fresh_cluster s : Prop :=
  net s = [] ∧
  ∀ i n, nodes s !! i = Some n →
    ∃ entropy peers c, new entropy i peers c = Some n ∧
      NoDup peers ∧ ∀ j, j ∈ peers ↔ j ≠ i ∧ j ∈ dom (nodes s).

(** ** The invariant of disciplined runs *)

(** A message is backed by the ballots: a granted vote is a ballot for its
    destination, and the sender of leader messages won its term. *)
Definition backed (cluster : gset NodeId) (B : gset ballot) (dst : NodeId) (m : Message) : Prop :=
  match m with
  | MRequestVoteReply r => rvr_vote_granted r = true → (rvr_voter_id r, rvr_term r, dst) ∈ B
  | MAppendEntries m => won cluster B (ae_term m) (ae_leader_id m)
  | MInstallSnapshot m => won cluster B (is_term m) (is_leader_id m)
  | _ => True
  end.

Lemma backed_mono cl B B' dst m : B ⊆ B' → backed cl B dst m → backed cl B' dst m.
Proof.
  intros Hsub. destruct m; cbn; try done; [|by apply won_mono..].
  intros Hg Hr. by apply Hsub, Hg.
Qed.

(** The append message for some [next_index], as [send_append] reads the log. *)
Definition excerpt (l : RaftLog) (m : AppendEntries) : Prop :=
  ∃ next, snapshot_index l < next ∧ ae_prev_log_index m = next -w 1 ∧
    ae_prev_log_term m = default 0 (term_at l (next -w 1)) ∧ ae_entries m = entries_from l next.

(** A message just sent by a node in its present state. *)
Definition fresh_env (n : RaftNode) (e : Envelope) : Prop :=
  match message e with
  | MRequestVoteReply r => rvr_vote_granted r = true →
      rvr_voter_id r = id n ∧ rvr_term r = current_term n ∧ voted_for n = Some (to e)
  | MRequestVote m => role n = Candidate ∧ rv_term m = current_term n ∧
      rv_candidate_id m = id n ∧ rv_last_log_index m = last_index (log n) ∧
      rv_last_log_term m = last_term (log n)
  | MAppendEntries m => role n = Leader ∧ ae_term m = current_term n ∧ ae_leader_id m = id n ∧
      excerpt (log n) m
  | MInstallSnapshot m => role n = Leader ∧ is_term m = current_term n ∧ is_leader_id m = id n
  | _ => True
  end.

Definition emits (n n' : RaftNode) : Prop :=
  ∀ e, e ∈ outgoing n' → e ∈ outgoing n ∨ fresh_env n' e.

Lemma emits_app n n' es :
  outgoing n' = outgoing n ++ es → Forall (fresh_env n') es → emits n n'.
Proof.
  intros Ho Hf e. rewrite Ho, elem_of_app. intros [?|He]; [by left|right].
  by eapply Forall_forall in Hf.
Qed.

Lemma emits_same n n' : outgoing n' = outgoing n → emits n n'.
Proof. intros Ho. apply (emits_app _ _ []); [by rewrite app_nil_r|done]. Qed.

Lemma append_envelope_fresh n n1 p :
  role n = Leader → id n = id n1 → current_term n = current_term n1 → log n = log n1 →
  fresh_env n (append_envelope n1 p).
Proof.
  intros Hr Hi Ht Hl. unfold fresh_env, append_envelope, append_message. cbn.
  case_decide; cbn; rewrite Hi, Ht; [done|]. split_and!; [done..|]. rewrite Hl.
  eexists. split; [|by split_and!]. lia.
Qed.

Lemma broadcast_fresh n n1 ps :
  role n = Leader → id n = id n1 → current_term n = current_term n1 → log n = log n1 →
  Forall (fresh_env n) (append_envelope n1 <$> ps).
Proof.
  intros Hr Hi Ht Hl. apply Forall_fmap, Forall_forall. intros p _. by apply append_envelope_fresh.
Qed.

Lemma become_leader_emits n : emits n (become_leader n).
Proof.
  rewrite become_leader_eq. cbv zeta. eapply emits_app; [reflexivity|].
  by apply broadcast_fresh.
Qed.

Lemma emits_trans n1 n2 n3 : outgoing n2 = outgoing n1 → emits n2 n3 → emits n1 n3.
Proof. unfold emits. by intros ->. Qed.

Lemma become_candidate_emits n : emits n (become_candidate n).
Proof.
  rewrite become_candidate_eq. cbv zeta. case_decide.
  - by eapply emits_trans, become_leader_emits.
  - eapply emits_app; [reflexivity|]. by apply Forall_fmap, Forall_forall.
Qed.

Lemma tick_emits n : emits n (tick n).
Proof.
  unfold tick. destruct (role n) eqn:Hr; cbv zeta; case_decide; try by apply emits_same.
  1,2: by eapply emits_trans, become_candidate_emits.
  rewrite broadcast_append_eq. eapply emits_app; [reflexivity|]. by apply broadcast_fresh.
Qed.

Lemma dispatch_emits from msg n : emits n (dispatch from msg n).
Proof.
  destruct msg as [m|m|m|m|m|m]; cbn [dispatch].
  - unfold handle_request_vote. repeat case_match; simplify_eq;
      (eapply emits_app; [reflexivity|]); by repeat constructor.
  - unfold handle_request_vote_reply, votes_record. case_decide; [by apply emits_same|].
    destruct (rvr_vote_granted m); [|by apply emits_same]. cbv zeta.
    case_decide; [|by apply emits_same]. by eapply emits_trans, become_leader_emits.
  - unfold handle_append_entries, reject_append. case_decide.
    { eapply emits_app; [reflexivity|]. by repeat constructor. }
    cbv zeta. destruct (matches _ _ _).
    + cbn [splice]. case_decide; (eapply emits_app; [reflexivity|]); by repeat constructor.
    + eapply emits_app; [reflexivity|]. by repeat constructor.
  - unfold handle_append_entries_reply. case_decide as Hg; [by apply emits_same|].
    destruct (aer_success m); cbv zeta; [rewrite advance_commit_eq; by apply emits_same|].
    rewrite send_append_eq. eapply emits_app; [reflexivity|]. constructor; [|done].
    apply append_envelope_fresh; [|done..]. cbn. destruct (role n); naive_solver.
  - unfold handle_install_snapshot. case_decide; [by apply emits_same|].
    eapply emits_app; [reflexivity|]. by repeat constructor.
  - unfold handle_install_snapshot_reply. case_decide; by apply emits_same.
Qed.

Lemma exec_emits o n : emits n (exec o n).
Proof.
  destruct o as [|from msg|cmd|]; cbn [exec].
  - apply tick_emits.
  - rewrite step_eq. eapply emits_trans, dispatch_emits. unfold step_down. by case_decide.
  - unfold propose. case_decide as Hr; [by apply emits_same|]. cbn [append fst].
    rewrite broadcast_append_eq, advance_commit_eq. eapply emits_app; [reflexivity|].
    apply broadcast_fresh; [|done..]. cbn. destruct (role n); naive_solver.
  - intros e He. by apply not_elem_of_nil in He.
Qed.

Lemma ready_messages_outgoing n : ready_messages (take_ready n).2 = outgoing n.
Proof. by destruct (take_ready_shape n) as (la & l & _ & _ & ?). Qed.

(** Nodes in range send messages in range, and handle what they are sent. *)
Definition typed s : Prop := ∀ i n, nodes s !! i = Some n → u64_node n.
Definition typed_net s : Prop := ∀ p, p ∈ net s → u64_message (p_msg p).

Lemma sent_typed a i n p : u64_node n → p ∈ sent a i n → u64_message (p_msg p).
Proof.
  intros Hu Hp. destruct a as [j|k|j cmd|j data]; try by apply not_elem_of_nil in Hp.
  apply list_elem_of_fmap in Hp as (e & -> & He). rewrite ready_messages_outgoing in He.
  pose proof (proj1 (Forall_forall _ _) (un_outgoing _ Hu) e He) as Hue. unfold u64_envelope in Hue.
  cbn. destruct data, (message e); exact Hue.
Qed.

Lemma op_of_typed s a i o : typed_net s → op_of s a = Some (i, o) → u64_op o.
Proof.
  intros Ht Ho. destruct a as [j|k|j cmd|j data]; cbn in Ho; simplify_eq; try done.
  destruct (net s !! k) as [p|] eqn:Hp; [|done]. cbn in Ho. simplify_eq.
  eapply Ht. by eapply list_elem_of_lookup_2.
Qed.

(** Everything the election invariant says of a system. *)
Record net_ok (cluster : gset NodeId) (B : gset ballot) s : Prop := {
  no_election : election_ok cluster B (view_of <$> nodes s);
  no_outgoing : ∀ i n e, nodes s !! i = Some n → e ∈ outgoing n →
    backed cluster B (to e) (message e);
  no_net : ∀ p, p ∈ net s → backed cluster B (p_to p) (p_msg p);
}.

Lemma election_ok_steps cl ev B vs i v v' :
  election_ok cl B vs → vs !! i = Some v →
  (∀ u t, ev u t → (u, t, i) ∈ B) → rtc (vstep ev) v v' →
  ∃ B', B ⊆ B' ∧ election_ok cl B' (<[i := v']> vs).
Proof.
  intros Hok Hi Hev Hs. revert B vs Hok Hi Hev.
  induction Hs as [v|v v1 v2 Hs _ IH]; intros B vs Hok Hi Hev.
  - exists B. by rewrite insert_id.
  - destruct (IH (B ∪ cast v1) (<[i := v1]> vs)) as (B' & Hsub & Hok').
    + by eapply election_ok_step.
    + by rewrite lookup_insert_eq.
    + intros u t Hu. apply elem_of_union. left. by apply Hev.
    + exists B'. rewrite insert_insert_eq in Hok'. split; [set_solver|done].
Qed.

Lemma fresh_backed cl B n e :
  view_ok cl B (view_of n) → fresh_env n e → backed cl B (to e) (message e).
Proof.
  intros Hv. unfold fresh_env, backed. destruct (message e) as [m|m|m|m|m|m]; try done.
  - intros Hf Hg. destruct (Hf Hg) as (-> & -> & Hvote). by apply (vo_voted _ _ _ Hv).
  - intros (Hr & -> & -> & _). by apply (leader_won _ _ _ Hv).
  - intros (Hr & -> & ->). by apply (leader_won _ _ _ Hv).
Qed.

Lemma backed_fill cl B dst data m : backed cl B dst (fill data m) ↔ backed cl B dst m.
Proof. by destruct data, m. Qed.

(** The operation of a disciplined action finds its vote among the ballots. *)
Lemma op_of_evidence cl B s a i o u t :
  net_ok cl B s → op_of s a = Some (i, o) → evidence o u t → (u, t, i) ∈ B.
Proof.
  intros Hok Ho (from & r & -> & Hg & -> & ->).
  destruct a as [j|k|j cmd|j data]; cbn in Ho; simplify_eq.
  destruct (net s !! k) as [p|] eqn:Hp; cbn in Ho; simplify_eq.
  pose proof (no_net _ _ _ Hok p) as Hb. apply list_elem_of_lookup_2 in Hp.
  specialize (Hb Hp). match goal with H : p_msg p = _ |- _ => rewrite H in Hb end.
  by apply Hb.
Qed.

Lemma run_app d acts1 acts2 s : run d (acts1 ++ acts2) s = run d acts1 s ≫= run d acts2.
Proof.
  revert s. induction acts1 as [|a acts1 IH]; intros s; cbn; [done|].
  destruct (act d s a); [apply IH|done].
Qed.

Lemma run_after d acts1 acts2 s s1 :
  run d acts1 s = Some s1 → run d (acts1 ++ acts2) s = run d acts2 s1.
Proof. rewrite run_app. by intros ->. Qed.

(** Reading a node of a run's final system by evaluation. *)
Lemma observed {A} (f : RaftNode → A) d acts s0 s i n x :
  run d acts s0 = Some s → nodes s !! i = Some n →
  (run d acts s0 ≫= λ s, f <$> nodes s !! i) = Some x → f n = x.
Proof. intros -> Hn. cbn. rewrite Hn. by intros [= <-]. Qed.

Lemma act_ok cl B s a s' :
  net_ok cl B s → act Voting s a = Some s' → ∃ B', B ⊆ B' ∧ net_ok cl B' s'.
Proof.
  intros Hok Ha. unfold act in Ha.
  destruct (op_of s a) as [[i o]|] eqn:Ho; [|done]. cbn in Ha.
  destruct (nodes s !! i) as [n|] eqn:Hn; [|done]. cbn in Ha.
  case_decide as Hrem; [|done]. simplify_eq. cbn in Hrem.
  destruct (election_ok_steps cl (evidence o) B (view_of <$> nodes s) i (view_of n)
    (view_of (exec o n))) as (B' & Hsub & Hok').
  { apply Hok. }
  { by rewrite lookup_fmap, Hn. }
  { intros u t Hu. by eapply op_of_evidence. }
  { by apply exec_refines. }
  exists B'. split; [done|]. rewrite <-fmap_insert in Hok'. split; cbn; [done|..].
  - intros j n' e Hj He. apply lookup_insert_Some in Hj as [[-> <-]|[_ Hj]].
    + destruct (exec_emits o n e He) as [Hold|Hf].
      * eapply backed_mono; [done|]. by eapply no_outgoing.
      * eapply fresh_backed; [|done]. eapply (eo_views _ _ _ Hok').
        by rewrite lookup_fmap, lookup_insert_eq.
    + eapply backed_mono; [done|]. by eapply no_outgoing.
  - intros p [Hp|Hp]%elem_of_app.
    + eapply backed_mono; [done|]. by eapply no_net.
    + destruct a as [j|k|j cmd|j data]; cbn [sent] in Hp; try by apply not_elem_of_nil in Hp.
      apply list_elem_of_fmap in Hp as (e & -> & He). rewrite ready_messages_outgoing in He.
      cbn. apply backed_fill. eapply backed_mono; [done|]. by eapply no_outgoing.
Qed.

Lemma act_inv d s a s' :
  act d s a = Some s' → ∃ i o n, op_of s a = Some (i, o) ∧ nodes s !! i = Some n ∧ obeys d n o ∧
    s' = mkSys (<[i := exec o n]> (nodes s)) (net s ++ sent a i n).
Proof.
  unfold act. destruct (op_of s a) as [[i o]|]; [|done]. cbn.
  destruct (nodes s !! i) as [n|] eqn:Hn; [|done]. cbn.
  case_decide; [|done]. intros [= <-]. by exists i, o, n.
Qed.

Lemma act_weaken d d' s a s' :
  (∀ n o, obeys d n o → obeys d' n o) → act d s a = Some s' → act d' s a = Some s'.
Proof.
  intros Hw. unfold act. destruct (op_of s a) as [[i o]|]; [|done]. cbn.
  destruct (nodes s !! i) as [n|]; [|done]. cbn.
  case_decide as Hq; [|done]. rewrite decide_True; [done|by apply Hw].
Qed.

Lemma run_weaken d d' acts s s' :
  (∀ n o, obeys d n o → obeys d' n o) → run d acts s = Some s' → run d' acts s = Some s'.
Proof.
  intros Hw. revert s. induction acts as [|a acts IH]; intros s Hr; [done|]. cbn in *.
  destruct (act d s a) as [s1|] eqn:Ha; [|done]. rewrite (act_weaken d d' s a s1) by done.
  by apply IH.
Qed.

Lemma run_ok cl B s acts s' :
  net_ok cl B s → run Voting acts s = Some s' → ∃ B', B ⊆ B' ∧ net_ok cl B' s'.
Proof.
  revert B s. induction acts as [|a acts IH]; intros B s Hok Hr; cbn in Hr.
  { simplify_eq. by exists B. }
  destruct (act Voting s a) as [s1|] eqn:Ha; [|done]. cbn in Hr.
  destruct (act_ok _ _ _ _ _ Hok Ha) as (B1 & Hs1 & Hok1).
  destruct (IH _ _ Hok1 Hr) as (B2 & Hs2 & Hok2). exists B2. split; [set_solver|done].
Qed.

(** A node has one peer less than the cluster has nodes. *)
Lemma cluster_peers s i n ps :
  nodes s !! i = Some n → NoDup ps → (∀ j, j ∈ ps ↔ j ≠ i ∧ j ∈ dom (nodes s)) →
  (length ps + 1 = size (nodes s))%nat.
Proof.
  intros Hn Hnd Hps. rewrite <-size_dom.
  assert (dom (nodes s) = {[i]} ∪ list_to_set ps) as ->.
  { apply set_eq. intros j. rewrite elem_of_union, elem_of_singleton, elem_of_list_to_set, Hps.
    apply elem_of_dom_2 in Hn. destruct (decide (j = i)); naive_solver. }
  rewrite size_union; [rewrite size_singleton, size_list_to_set by done; lia|].
  intros j ->%elem_of_singleton Hj%elem_of_list_to_set. by apply Hps in Hj as [? _].
Qed.

Lemma fresh_cluster_ok s :
  fresh_cluster s → net_ok (dom (nodes s)) ∅ s.
Proof.
  intros [Hnet Hfresh].
  assert (∀ i n, nodes s !! i = Some n → id n = i ∧ role n = Follower ∧ voted_for n = None ∧
    outgoing n = [] ∧ majority n = quorum (dom (nodes s))) as Hnew.
  { intros i n Hn. destruct (Hfresh _ _ Hn) as (e & ps & c & Hnw & Hnd & Hps).
    pose proof (cluster_peers s i n ps Hn Hnd Hps) as Hsz.
    unfold new in Hnw. case_decide; [|done].
    injection Hnw as Hnw. split_and!; [by rewrite <-Hnw..|].
    rewrite <-Hnw. unfold majority, quorum, cluster_size. cbn [peers]. by rewrite Hsz, size_dom. }
  split; [split|..].
  - by intros u t c Hb%elem_of_empty.
  - by intros u t c1 c2 Hb%elem_of_empty.
  - intros i v Hv. rewrite lookup_fmap in Hv. destruct (nodes s !! i) as [n|] eqn:Hn; [|done].
    cbn in Hv. simplify_eq. destruct (Hnew _ _ Hn) as (Hi & Hr & Hvote & _ & Hm).
    split; [done|]. split; cbn; try congruence; [done| |].
    + by intros t c Hb%elem_of_empty.
    + by intros c Hb%elem_of_empty.
  - by rewrite dom_fmap_L.
  - intros i n e Hn He. destruct (Hnew _ _ Hn) as (_ & _ & _ & Ho & _). rewrite Ho in He.
    by apply not_elem_of_nil in He.
  - intros p Hp. rewrite Hnet in Hp. by apply not_elem_of_nil in Hp.
Qed.

(** ** Properties *)

(** [C3] Election safety (§5.2): in a cluster of any size, started from fresh
    nodes, whatever the timings, message delays, reorderings, duplications and
    losses, two leaders of the same term are the same node, and all append
    messages of one term ever sent come from one leader, as long as no node
    handles a vote request of a term in which it already deferred to a leader
    (and no term reaches [2^64 - 1]). *)
Theorem election_safety s0 acts s :
  fresh_cluster s0 → run Voting acts s0 = Some s →
  (∀ i j ni nj, nodes s !! i = Some ni → nodes s !! j = Some nj →
     role ni = Leader → role nj = Leader → current_term ni = current_term nj → i = j) ∧
  (∀ p q m1 m2, p ∈ net s → q ∈ net s → p_msg p = MAppendEntries m1 → p_msg q = MAppendEntries m2 →
     ae_term m1 = ae_term m2 → ae_leader_id m1 = ae_leader_id m2).
Proof.
  intros Hf Hr. destruct (run_ok _ _ _ _ _ (fresh_cluster_ok _ Hf) Hr) as (B & _ & Hok).
  pose proof (no_election _ _ _ Hok) as He. split.
  - intros i j ni nj Hi Hj Hli Hlj Ht.
    assert (∀ k n, nodes s !! k = Some n → role n = Leader →
      won (dom (nodes s0)) B (current_term n) k) as Hw.
    { intros k n Hk Hl. destruct (eo_views _ _ _ He k (view_of n)) as [<- Hv];
        [by rewrite lookup_fmap, Hk|]. by apply (leader_won _ _ _ Hv). }
    eapply won_unique; [done|by apply Hw|]. rewrite Ht. by apply Hw.
  - intros p q m1 m2 Hp Hq Ha Hb Ht.
    pose proof (no_net _ _ _ Hok _ Hp) as Hwp. pose proof (no_net _ _ _ Hok _ Hq) as Hwq.
    rewrite Ha in Hwp. rewrite Hb in Hwq. cbn in Hwp, Hwq. rewrite Ht in Hwp.
    by eapply won_unique.
Qed.
End Network.

(** ** Concrete runs *)
Section Runs.
#[local] Existing Instance low_rng.

Definition others (i : NodeId) (ids : list NodeId) : list NodeId := filter (.≠ i) ids.

Definition fresh_node (ids : list NodeId) (i : NodeId) : RaftNode :=
  mkNode i (others i ids) default_config low_state Follower None 0 None RaftLog.new 0 0
    progress_default ∅ 0 0 5 [] [].

Definition cluster_of (ids : list NodeId) : sys :=
  mkSys (list_to_map ((λ i, (i, fresh_node ids i)) <$> ids)) [].

Definition trio : sys := cluster_of ["n1"; "n2"; "n3"].

Lemma trio_fresh : fresh_cluster trio.
Proof.
  split; [done|]. intros i n Hn.
  apply elem_of_list_to_map_2 in Hn. cbn [fmap list_fmap] in Hn.
  rewrite !elem_of_cons in Hn. destruct Hn as [Hn|[Hn|[Hn|Hn]]];
    [injection Hn as -> ->..|by apply not_elem_of_nil in Hn].
  - exists low_state, ["n2"; "n3"], default_config. split; [done|]. split; [|intros j; set_solver].
    by apply (bool_decide_unpack _).
  - exists low_state, ["n1"; "n3"], default_config. split; [done|]. split; [|intros j; set_solver].
    by apply (bool_decide_unpack _).
  - exists low_state, ["n1"; "n2"], default_config. split; [done|]. split; [|intros j; set_solver].
    by apply (bool_decide_unpack _).
Defined.

Definition standing (s : sys) (i : NodeId) : option (Role * N) :=
  (λ n, (role n, current_term n)) <$> nodes s !! i.

(** Enough ticks for an election with the lowest drawn timeout. *)
Definition timeout (i : NodeId) : list action := replicate 5 (ATick i).

(** ["n2"] votes for ["n1"], whose heartbeat then makes it forget the vote;
    ["n3"] asks for its vote in the same term. *)
Definition forgotten_vote_run : list action :=
  timeout "n1" ++ [ADrain "n1" None; ADeliver 0; ADrain "n2" None; ADeliver 2; ADrain "n1" None;
    ADeliver 3] ++
  timeout "n3" ++ [ADrain "n3" None; ADeliver 6; ADrain "n2" None; ADeliver 8].

(** ["n2"] leads term 1 and replicates one command, then takes two more that
    reach nobody; ["n1"] leads term 2, hears from ["n2"] and proposes; then
    ["n2"] leads term 3. *)
Definition foreign_suffix_run : list action :=
  timeout "n2" ++ [ADrain "n2" None; ADeliver 0; ADrain "n1" None; ADeliver 2;
    APropose "n2" [x01]; ADrain "n2" None; ADeliver 5; ADeliver 6;
    APropose "n2" [x02]; APropose "n2" [x03]] ++
  timeout "n1" ++ [ADrain "n1" None; ADeliver 9; ADrain "n3" None; ADeliver 11; ADrain "n1" None;
    ADeliver 12; ADrain "n2" None; ADeliver 18; APropose "n1" [x04]] ++
  timeout "n2" ++ [ADrain "n2" None; ADeliver 20; ADrain "n3" None; ADeliver 21;
    APropose "n2" [x05]; ADrain "n2" None; ADeliver 25; ADrain "n3" None; ADeliver 26;
    ADrain "n2" None; ADeliver 27; ADrain "n3" None; ADeliver 28].

(** [C33] Election safety fails without the discipline: a node that accepts a
    leader's append forgets its vote of the same term, votes again, and two
    nodes lead term 1. *)
Theorem two_leaders_reachable :
  match run Free forgotten_vote_run trio with
  | Some s => standing s "n1" = Some (Leader, 1) ∧ standing s "n3" = Some (Leader, 1)
  | None => False
  end.
Proof. vm_compute. split; reflexivity. Qed.

(** [C32] Commit safety fails even when nodes remember their votes and nothing
    is compacted: a follower's reply counts entries of its own that the leader
    never sent, the leader commits an entry only it holds, and two nodes hand
    different commands of the same index to their state machines. *)
Theorem divergent_commits_reachable :
  match run Quiet foreign_suffix_run trio with
  | Some s =>
      delivers s "n1" = Some [CommittedCommand 1 [x01]; CommittedCommand 2 [x04]] ∧
      delivers s "n2" = Some [CommittedCommand 1 [x01]; CommittedCommand 2 [x02];
                              CommittedCommand 3 [x03]; CommittedCommand 4 [x05]]
  | None => False
  end.
Proof. vm_compute. split; reflexivity. Qed.

Lemma election_safety_witness :
  match run Voting foreign_suffix_run trio with
  | Some s => ∀ i j ni nj, nodes s !! i = Some ni → nodes s !! j = Some nj →
      role ni = Leader → role nj = Leader → current_term ni = current_term nj → i = j
  | None => False
  end.
Proof.
  destruct (run Voting foreign_suffix_run trio) as [s|] eqn:Hr.
  - exact (proj1 (election_safety trio foreign_suffix_run s trio_fresh Hr)).
  - vm_compute in Hr. discriminate Hr.
Defined.
End Runs.
