(* ===== verification/LogMatching.v ===== *)
(** * Log matching

    Raft's log matching property for the cluster of [Network.v]: in quiet runs
    (no compaction, no snapshot) two logs that hold an entry of the same term
    at the same index are equal up to it. The proof keeps a chronicle: for
    every term that had a leader, that leader's log. *)

From S2P Require Import Prelude Storage RaftLog RaftState RaftNode NodeTheory NodeProps ElectionSpec Election Network.
Local Open Scope N_scope.
Local Open Scope u64_scope.

(** ** Chronicles *)

(** The log of the leader of each term, as it was last. *)
Abbreviation chronicle := (gmap N (list LogEntry)).

Implicit Types (T : chronicle) (L : list LogEntry) (l : RaftLog) (m : AppendEntries).

(** Up to each of its entries, the log is the log of that entry's leader. *)
Definition chronicled T L : Prop :=
  ∀ i e, L !! i = Some e → ∃ L', T !! entry_term e = Some L' ∧ take (S i) L = take (S i) L'.

(** Leaders only append. *)
Definition grows T T' : Prop :=
  ∀ t L, T !! t = Some L → ∃ L', T' !! t = Some L' ∧ L `prefix_of` L'.

Lemma take_prefix_eq {A} (k : nat) (l1 l2 : list A) :
  (k ≤ length l1)%nat → l1 `prefix_of` l2 → take k l2 = take k l1.
Proof. intros Hk [l ->]. by rewrite take_app_le. Qed.

Lemma take_eq_length {A} (k : nat) (l1 l2 : list A) :
  take k l1 = take k l2 → (k ≤ length l1)%nat → (k ≤ length l2)%nat.
Proof. intros He Hk. apply (f_equal length) in He. rewrite !length_take in He. lia. Qed.

Lemma take_eq_le {A} (j k : nat) (l1 l2 : list A) :
  (j ≤ k)%nat → take k l1 = take k l2 → take j l1 = take j l2.
Proof.
  intros Hj He. apply (f_equal (take j)) in He. rewrite !take_take in He.
  by rewrite !Nat.min_l in He by done.
Qed.

Lemma take_eq_lookup {A} (k i : nat) (l1 l2 : list A) :
  take k l1 = take k l2 → (i < k)%nat → l1 !! i = l2 !! i.
Proof. intros He Hi. by rewrite <-(lookup_take_lt l1 k i), He, lookup_take_lt. Qed.

Lemma take_app_piece {A} (p : nat) (inc l : list A) :
  inc `prefix_of` drop p l → take p l ++ inc = take (p + length inc) l.
Proof.
  intros [rest Hr]. rewrite <-take_take_drop. f_equal.
  by rewrite Hr, take_app_le, firstn_all by done.
Qed.

Lemma chronicled_nil T : chronicled T [].
Proof. intros i e Hi. by rewrite lookup_nil in Hi. Qed.

Lemma chronicled_mono T T' L : grows T T' → chronicled T L → chronicled T' L.
Proof.
  intros Hg HL i e Hi. destruct (HL i e Hi) as (L' & HT & He).
  destruct (Hg _ _ HT) as (L'' & HT' & Hp). exists L''. split; [done|]. rewrite He.
  symmetry. apply take_prefix_eq; [|done].
  eapply take_eq_length; [done|]. by apply lookup_lt_Some in Hi.
Qed.

Lemma chronicled_take T L k : chronicled T L → chronicled T (take k L).
Proof.
  intros HL i e Hi. apply lookup_take_Some in Hi as [Hi Hik].
  destruct (HL i e Hi) as (L' & HT & He). exists L'. split; [done|].
  rewrite take_take, Nat.min_l by lia. done.
Qed.

(** Log matching, between any two chronicled logs. *)
Lemma chronicled_match T L1 L2 i e1 e2 :
  chronicled T L1 → chronicled T L2 → L1 !! i = Some e1 → L2 !! i = Some e2 →
  entry_term e1 = entry_term e2 → take (S i) L1 = take (S i) L2.
Proof.
  intros H1 H2 Hi1 Hi2 He. destruct (H1 i e1 Hi1) as (L & HT & ->).
  destruct (H2 i e2 Hi2) as (L' & HT' & ->). rewrite He in HT. congruence.
Qed.

Lemma chronicled_snoc T L e :
  chronicled T L → T !! entry_term e = Some (L ++ [e]) → chronicled T (L ++ [e]).
Proof.
  intros HL HT i e' Hi. destruct (decide (i < length L)%nat) as [Hlt|Hge].
  - rewrite lookup_app_l in Hi by done. destruct (HL i e' Hi) as (L' & HT' & He).
    exists L'. split; [done|]. rewrite <-He. by apply take_app_le.
  - apply lookup_lt_Some in Hi as Hlen. rewrite length_app in Hlen. cbn in Hlen.
    assert (i = length L) as -> by lia.
    rewrite lookup_app_r, Nat.sub_diag in Hi by lia. cbn in Hi. simplify_eq. by exists (L ++ [e']).
Qed.

(** Merging a piece of one chronicled log into another that agrees with it
    before the piece gives one of the two, and the piece in any case. *)
Lemma merge_chronicled T L1 L2 inc (p : nat) :
  chronicled T L1 → chronicled T L2 → take p L1 = take p L2 → (p ≤ length L1)%nat →
  inc `prefix_of` drop p L2 →
  let R := take p L1 ++ merge (drop p L1) inc in
  (R = L1 ∨ R = take (p + length inc) L2) ∧ take (p + length inc) R = take (p + length inc) L2.
Proof.
  intros H1 H2. cbv zeta. revert p. induction inc as [|e inc IH]; intros p Heq Hp Hpre.
  { rewrite merge_nil_r, take_drop, Nat.add_0_r. auto. }
  assert (L2 !! p = Some e) as He2.
  { destruct Hpre as [rest Hr]. rewrite <-(Nat.add_0_r p), <-lookup_drop, Hr. done. }
  assert (inc `prefix_of` drop (S p) L2) as Hpre'.
  { destruct Hpre as [rest Hr]. exists rest. rewrite (drop_S L2 e) in Hr by done.
    by injection Hr. }
  assert (∀ R, R = take p L2 ++ e :: inc →
    (R = L1 ∨ R = take (p + length (e :: inc)) L2) ∧
    take (p + length (e :: inc)) R = take (p + length (e :: inc)) L2) as Hcut.
  { intros R ->. rewrite (take_app_piece p (e :: inc)) by done.
    by rewrite take_take, Nat.min_id; split; [right|]. }
  destruct (L1 !! p) as [o|] eqn:Ho1.
  - rewrite (drop_S L1 o) by done. cbn [merge]. case_decide as Ht.
    + pose proof (chronicled_match T L1 L2 p o e H1 H2 Ho1 He2 Ht) as HS.
      apply lookup_lt_Some in Ho1 as Hlt.
      specialize (IH (S p) HS Hlt Hpre'). rewrite (take_S_r L1 p o), <-app_assoc in IH by done.
      cbn [app] in IH. cbn [length]. rewrite <-Nat.add_succ_comm. exact IH.
    + apply Hcut. by rewrite Heq.
  - rewrite (drop_ge L1) by (by apply lookup_ge_None). rewrite merge_nil_l.
    apply Hcut. by rewrite Heq.
Qed.

(** A merge keeps what the two logs already share. *)
Lemma merge_retains T L1 L2 inc (p x : nat) :
  chronicled T L1 → chronicled T L2 → take p L1 = take p L2 → (p ≤ length L1)%nat →
  inc `prefix_of` drop p L2 → take x L1 = take x L2 → (x ≤ length L1)%nat →
  take x (take p L1 ++ merge (drop p L1) inc) = take x L1.
Proof.
  intros H1 H2 Hp Hple Hpre Hx Hxle.
  destruct (decide (p + length inc ≤ x)%nat) as [Hle|Hgt].
  - assert (merge (drop p L1) inc = drop p L1) as ->; [|by rewrite take_drop].
    apply merge_agreeing. destruct Hpre as [rest Hr].
    exists (terms (drop (length inc) (drop p L1))). unfold terms. rewrite <-fmap_app. f_equal.
    rewrite <-(take_drop (length inc) (drop p L1)) at 1. f_equal.
    assert (take (p + length inc) L1 = take (p + length inc) L2) as Heq
      by (by apply (take_eq_le _ x)).
    rewrite <-!take_take_drop, Hp in Heq. apply app_inv_head in Heq. rewrite Heq, Hr.
    by rewrite take_app_le, firstn_all.
  - destruct (merge_chronicled T L1 L2 inc p) as [[Hr' | Hr'] _]; [done..| |].
    + by rewrite Hr'.
    + by rewrite Hr', take_take, Nat.min_l by lia.
Qed.

(** Terms grow along a log, from 1 to at most [t]. *)
Definition ordered (t : N) L : Prop :=
  ∀ i e, L !! i = Some e → 0 < entry_term e ∧ entry_term e ≤ t ∧
    ∀ j e', (i ≤ j)%nat → L !! j = Some e' → entry_term e ≤ entry_term e'.

Lemma ordered_mono t t' L : t ≤ t' → ordered t L → ordered t' L.
Proof. intros Ht HL i e Hi. destruct (HL i e Hi) as (? & ? & ?). split_and!; [done|lia|done]. Qed.

Lemma ordered_take t L k : ordered t L → ordered t (take k L).
Proof.
  intros HL i e Hi. apply lookup_take_Some in Hi as [Hi _].
  destruct (HL i e Hi) as (? & ? & Hj). split_and!; [done..|].
  intros j e' Hij Hj'. apply lookup_take_Some in Hj' as [Hj' _]. by eapply Hj.
Qed.

Lemma ordered_snoc t L e : ordered t L → 0 < t → entry_term e = t → ordered t (L ++ [e]).
Proof.
  intros HL Ht He i x Hi. apply lookup_app_Some in Hi as [Hi|[Hle Hi]].
  - destruct (HL i x Hi) as (? & ? & Hj). split_and!; [done..|]. intros j y Hij Hy.
    apply lookup_app_Some in Hy as [Hy|[_ Hy]]; [by eapply Hj|].
    apply list_lookup_singleton_Some in Hy as [_ <-]. lia.
  - apply list_lookup_singleton_Some in Hi as [Hi <-]. split_and!; [lia..|].
    intros j y Hij Hy. apply lookup_app_Some in Hy as [Hy|[_ Hy]].
    + apply lookup_lt_Some in Hy. lia.
    + by apply list_lookup_singleton_Some in Hy as [_ <-].
Qed.

(** ** Messages *)

(** The entries continue [L] after the previous index, whose term in [L] is the
    one announced; a leader that has no entry there sends none and announces
    term 0. *)
Definition told_by L m : Prop :=
  let p := N.to_nat (ae_prev_log_index m) in
  ae_entries m `prefix_of` drop p L ∧
  (p = 0%nat ∨ (∃ e, L !! (p - 1)%nat = Some e ∧ entry_term e = ae_prev_log_term m) ∨
   (ae_entries m = [] ∧ ae_prev_log_term m = 0)).

Definition told T m : Prop := ∃ L, T !! ae_term m = Some L ∧ told_by L m.

Lemma told_mono T T' m : grows T T' → told T m → told T' m.
Proof.
  intros Hg (L & HT & Hm). destruct (Hg _ _ HT) as (L' & HT' & [L'' ->]).
  exists (L ++ L''). split; [done|]. destruct Hm as [Hp He]. split; cbv zeta.
  - destruct (decide (N.to_nat (ae_prev_log_index m) ≤ length L)%nat) as [Hle|Hgt].
    + rewrite drop_app_le by done. by apply prefix_app_r.
    + rewrite drop_ge in Hp by lia. apply prefix_nil_inv in Hp. rewrite Hp. apply prefix_nil.
  - destruct He as [?|[(e & He & Ht)|?]]; [by left| |by do 2 right].
    right; left. exists e. split; [|done]. by apply lookup_app_l_Some.
Qed.

(** A log without a snapshot, shorter than the last index. *)
Definition plain T l : Prop :=
  snapshot_index l = 0 ∧ snapshot_term l = 0 ∧ len64 (entries l) < u64_max ∧
  chronicled T (entries l).

Lemma plain_log_ok T l : plain T l → log_ok l.
Proof. intros (Hi & _ & Hb & _). unfold log_ok, u64_max, two64 in *. lia. Qed.

Lemma plain_mono T T' l : grows T T' → plain T l → plain T' l.
Proof. intros Hg (? & ? & ? & ?). split_and!; [done..|]. by eapply chronicled_mono. Qed.

Lemma plain_term_at T l (k : nat) :
  plain T l → term_at l (N.of_nat (S k)) = entry_term <$> entries l !! k.
Proof.
  intros Hp. pose proof (term_at_nth l k (plain_log_ok _ _ Hp)) as Ht.
  rewrite (proj1 Hp) in Ht. rewrite <-Ht. f_equal. lia.
Qed.

Lemma plain_matches T l prev term :
  plain T l → matches l prev term = true →
  prev = 0 ∨ ∃ (k : nat) e, prev = N.of_nat (S k) ∧ entries l !! k = Some e ∧ entry_term e = term.
Proof.
  intros Hp. unfold matches. destruct (decide (prev = 0)) as [|Hz]; [by left|].
  destruct (term_at l prev) as [t|] eqn:Ht; [|by rewrite bool_decide_eq_true].
  rewrite bool_decide_eq_true. intros <-. right. exists (N.to_nat (prev - 1)).
  replace prev with (N.of_nat (S (N.to_nat (prev - 1)))) in Ht by lia.
  rewrite (plain_term_at _ _ _ Hp) in Ht. apply fmap_Some in Ht as (e & He & ->).
  exists e. split; [lia|done].
Qed.

Lemma excerpt_told T l m : plain T l → excerpt l m → told_by (entries l) m.
Proof.
  intros Hpl (next & Hn & Hi & Ht & He). pose proof Hpl as (Hs & Hst & Hb & _).
  unfold told_by. cbv zeta. rewrite Hs in Hn. rewrite Hi in *. set (prev := next -w 1) in *.
  assert (offset l next = N.to_nat prev) as Ho.
  { unfold offset. by rewrite Hs, wsub_0_r. }
  unfold entries_from in He. rewrite Hs, decide_False, Ho in He by lia. split.
  - rewrite He. case_decide; [done|apply prefix_nil].
  - destruct (decide (N.to_nat prev = 0%nat)) as [|Hz]; [by left|right].
    replace prev with (N.of_nat (S (N.to_nat prev - 1))) in Ht by lia.
    rewrite (plain_term_at _ _ _ Hpl) in Ht.
    destruct (entries l !! (N.to_nat prev - 1)%nat) as [e|] eqn:Hl; cbn in Ht; [left; by exists e|].
    right. apply lookup_ge_None in Hl. rewrite He. split; [|done].
    case_decide; [apply drop_ge; lia|done].
Qed.

(** Splicing a piece of a leader's log. *)
Lemma splice_told T l L m t :
  plain T l → ordered t (entries l) → chronicled T L → len64 L < u64_max → told_by L m →
  matches l (ae_prev_log_index m) (ae_prev_log_term m) = true →
  let l' := (splice l (ae_prev_log_index m) (ae_entries m)).2 in
  let k := (N.to_nat (ae_prev_log_index m) + length (ae_entries m))%nat in
  plain T l' ∧ (l' = l ∨ entries l' = take k L) ∧
  take k (entries l') = take k L ∧ (k ≤ length L)%nat ∧
  ∀ x, take x (entries l) = take x L → (x ≤ length (entries l))%nat →
    take x (entries l') = take x (entries l).
Proof.
  intros Hpl Hord HL HbL [Hpre Hprev] Hma l' k. pose proof Hpl as (Hs & Hst & Hb & Hc).
  assert (snapshot_index l' = 0 ∧ snapshot_term l' = 0) as [Hs' Hst'].
  { destruct (splice_snapshot l (ae_prev_log_index m) (ae_entries m)) as [H1 H2].
    unfold l'. by rewrite H1, H2. }
  unfold k. clear k. set (p := N.to_nat (ae_prev_log_index m)) in *.
  assert (take p (entries l) = take p L ∧ (p ≤ length (entries l))%nat) as [Hag Hple].
  { destruct (plain_matches _ _ _ _ Hpl Hma) as [Hz|(k & e & Hk & He & Ht)].
    { subst p. rewrite Hz. cbn. split; [by rewrite !take_0|lia]. }
    assert (p = S k) as -> by (subst p; lia). split; [|by apply lookup_lt_Some in He].
    rewrite Nat.sub_succ, Nat.sub_0_r in Hprev.
    destruct Hprev as [?|[(e' & He' & Ht')|[_ Hz]]]; [lia|..].
    - eapply chronicled_match; [done..|congruence].
    - destruct (Hord _ _ He) as [? _]. lia. }
  assert (p + length (ae_entries m) ≤ length L)%nat as Hlen.
  { apply prefix_length in Hpre. rewrite length_drop in Hpre.
    pose proof (take_eq_length _ _ _ Hag Hple). lia. }
  assert (entries l' = take p (entries l) ++ merge (drop p (entries l)) (ae_entries m)) as Hent.
  { unfold l'. rewrite splice_merge.
    - unfold tail_pos. by rewrite Hs, N.sub_0_r.
    - split; [by eapply plain_log_ok|]. rewrite last_index_eq by (by eapply plain_log_ok).
      rewrite Hs. unfold len64 in *. subst p. lia. }
  destruct (merge_chronicled T (entries l) L (ae_entries m) p) as [Hr Hk]; [done..|].
  cbv zeta in Hr, Hk. rewrite <-Hent in Hr, Hk.
  assert (l' = l ∨ entries l' = take (p + length (ae_entries m)) L) as Hcase.
  { destruct Hr as [Hr|Hr]; [left|by right].
    destruct l' as [es si st], l as [es0 si0 st0]. cbn in *. congruence. }
  split; [|split_and!; [done..|]].
  - destruct Hcase as [->|Hr']; [done|]. split_and!; [done..| |]; rewrite Hr'.
    + unfold len64 in *. rewrite length_take. lia.
    + by apply chronicled_take.
  - intros x Hx Hxle. rewrite Hent. by apply (merge_retains T (entries l) L).
Qed.

(** ** What an operation does to a log and to a role *)
Section Invariant.
Context `{Rng}.
Implicit Types (n : RaftNode) (o : node_op) (s : sys).

Inductive log_change o n n' : Prop :=
  | LogSame : log n' = log n → log_change o n n'
  | LogPropose cmd :
      o = OpPropose cmd → role n = Leader → role n' = Leader → current_term n' = current_term n →
      log n' = set_entries (entries (log n) ++ [mkEntry (current_term n) cmd]) (log n) →
      log_change o n n'
  | LogSplice from m :
      o = OpStep from (MAppendEntries m) → role n' = Follower → current_term n' = ae_term m →
      matches (log n) (ae_prev_log_index m) (ae_prev_log_term m) = true →
      log n' = (splice (log n) (ae_prev_log_index m) (ae_entries m)).2 → log_change o n n'.

Lemma step_down_log msg n : log (step_down msg n) = log n.
Proof. unfold step_down. by case_decide. Qed.

Lemma become_leader_log n : log (become_leader n) = log n.
Proof. by rewrite become_leader_eq. Qed.

Lemma become_candidate_log n : log (become_candidate n) = log n.
Proof. rewrite become_candidate_eq. cbv zeta. case_decide; [|done]. by rewrite become_leader_log. Qed.

Lemma tick_log n : log (tick n) = log n.
Proof.
  unfold tick. destruct (role n); cbv zeta; case_decide; rewrite ?become_candidate_log;
    rewrite ?broadcast_append_eq; done.
Qed.

Lemma exec_log n o : quiet n o → log_change o n (exec o n).
Proof.
  intros Hq. destruct o as [|from msg|cmd|]; cbn [exec].
  - apply LogSame, tick_log.
  - rewrite step_eq. pose proof (step_down_log msg n) as Hl. revert Hl.
    generalize (step_down msg n) as n1. intros n1 Hl.
    destruct msg as [m|m|m|m|m|m]; cbn [dispatch] in *; [| | | |done|].
    + apply LogSame. unfold handle_request_vote. by repeat case_match; simplify_eq.
    + apply LogSame. unfold handle_request_vote_reply, votes_record. case_decide; [done|].
      destruct (rvr_vote_granted m); [|done]. case_decide; [|done]. by rewrite become_leader_log.
    + unfold handle_append_entries. case_decide; [by apply LogSame|]. cbv zeta.
      destruct (matches _ _ _) eqn:Hma; [|by apply LogSame].
      eapply (LogSplice _ _ _ from m); [done|..].
      * cbn [splice]. by case_decide.
      * cbn [splice]. by case_decide.
      * rewrite <-Hl. exact Hma.
      * rewrite <-Hl. cbn [splice]. by case_decide.
    + apply LogSame. unfold handle_append_entries_reply. case_decide; [done|].
      destruct (aer_success m); by rewrite ?advance_commit_eq, ?send_append_eq.
    + apply LogSame. unfold handle_install_snapshot_reply. by case_decide.
  - unfold propose. case_decide as Hr; [by apply LogSame|]. cbn [append fst].
    rewrite advance_commit_eq, broadcast_append_eq.
    assert (role n = Leader) as Hr' by (destruct (role n); naive_solver).
    by eapply (LogPropose _ _ _ cmd).
  - by apply LogSame.
Qed.

(** The roles of a node over time. *)
Definition later (v v' : view) : Prop :=
  v_term v ≤ v_term v' ∧ ((v_role v ≠ Follower → 0 < v_term v) → v_role v' ≠ Follower → 0 < v_term v') ∧
  (v_term v = v_term v' → v_role v ≠ Candidate → v_role v' ≠ Candidate) ∧
  (v_term v = v_term v' → v_role v' = Leader → v_role v ≠ Follower).

Lemma vstep_later ev v v' : vstep ev v v' → later v v'.
Proof.
  unfold later. destruct 1; cbn; split_and!; try lia; try done; try (intros; congruence).
  all: intros Hpos _; apply Hpos; congruence.
Qed.

Lemma later_trans v1 v2 v3 : later v1 v2 → later v2 v3 → later v1 v3.
Proof.
  intros (H1 & Hp1 & H2 & H3) (H4 & Hp2 & H5 & H6). split; [lia|]. split; [auto|]. split.
  - intros Ht Hr. apply H5; [lia|]. apply H2; [lia|done].
  - intros Ht Hr Hf. apply H6 in Hr; [|lia].
    assert (v_role v2 ≠ Candidate) as Hc by (apply H2; [lia|congruence]).
    destruct (v_role v2) eqn:Hr2; [done|done|]. apply H3; [lia|done|done].
Qed.

Lemma exec_later n o : remembers n o → later (view_of n) (view_of (exec o n)).
Proof.
  intros Hrem. apply exec_refines in Hrem. revert Hrem.
  generalize (view_of n) as v, (view_of (exec o n)) as v'. intros v v'.
  induction 1 as [v|v v1 v' Hs _ IH].
  - split_and!; [lia|auto|auto|intros; congruence].
  - eapply later_trans; [by eapply vstep_later|done].
Qed.

(** ** The invariant *)

(** Not to become the leader of term [t] again. *)
Definition past n (t : N) : Prop :=
  t < current_term n ∨ (t = current_term n ∧ role n ≠ Candidate).

Lemma past_later n n' t : later (view_of n) (view_of n') → past n t → past n' t.
Proof.
  intros (Hle & _ & Hc & _) [Ht|[-> Hr]]; cbn in *; unfold past; [lia|].
  destruct (decide (current_term n = current_term n')) as [He|He]; [right; auto|left; lia].
Qed.

Definition append_of (msg : Message) : option AppendEntries :=
  match msg with MAppendEntries m => Some m | _ => None end.

Record chronicle_ok (cl : gset NodeId) (B : gset ballot) T s : Prop := {
  co_node : ∀ i n, nodes s !! i = Some n →
    plain T (log n) ∧ ordered (current_term n) (entries (log n)) ∧
    (role n ≠ Follower → 0 < current_term n);
  co_leader : ∀ i n, nodes s !! i = Some n → role n = Leader →
    T !! current_term n = Some (entries (log n));
  co_history : ∀ t L, T !! t = Some L →
    chronicled T L ∧ ordered t L ∧ len64 L < u64_max ∧
    ∃ c n, nodes s !! c = Some n ∧ won cl B t c ∧ past n t;
  co_outgoing : ∀ i n e m, nodes s !! i = Some n → e ∈ outgoing n →
    message e = MAppendEntries m → told T m;
  co_net : ∀ p m, p ∈ net s → p_msg p = MAppendEntries m → told T m;
}.

(** The chronicle after an operation of one node. *)
Definition record T n' : chronicle :=
  if decide (role n' = Leader) then <[current_term n' := entries (log n')]> T else T.

Lemma record_grows T n' :
  (role n' = Leader → ∀ L, T !! current_term n' = Some L → L `prefix_of` entries (log n')) →
  grows T (record T n').
Proof.
  intros Hp t L Ht. unfold record. case_decide as Hr; [|by exists L].
  destruct (decide (t = current_term n')) as [->|Hne].
  - rewrite lookup_insert_eq. eexists. split; [done|]. by apply Hp.
  - rewrite lookup_insert_ne by done. by exists L.
Qed.

(** A leader's log after an operation extends what is recorded of its term. *)
Lemma leader_extends cl B B' T s i n o :
  chronicle_ok cl B T s → B ⊆ B' → nodes s !! i = Some n → remembers n o → quiet n o →
  (∀ t c, won cl B' t c → won cl B' t i → c = i) →
  (role (exec o n) = Leader → won cl B' (current_term (exec o n)) i) →
  role (exec o n) = Leader → ∀ L, T !! current_term (exec o n) = Some L →
  L `prefix_of` entries (log (exec o n)).
Proof.
  intros Hok Hsub Hn Hrem Hq Hun Hwon Hl L HT.
  destruct (exec_later n o Hrem) as (Hle & _ & _ & Hlead). cbn in Hle, Hlead.
  destruct (co_history _ _ _ _ Hok _ _ HT) as (_ & _ & _ & c & n2 & Hc & Hw & Hpast).
  assert (c = i) as -> by (apply (Hun (current_term (exec o n))); [by eapply won_mono|auto]).
  rewrite Hn in Hc. injection Hc as <-.
  assert (current_term n = current_term (exec o n) ∧ role n = Leader) as [Hct Hr].
  { destruct Hpast as [?|[He Hnc]]; [lia|]. split; [done|].
    specialize (Hlead (eq_sym He) Hl). destruct (role n); done. }
  rewrite <-Hct, (co_leader _ _ _ _ Hok _ _ Hn Hr) in HT. injection HT as <-.
  destruct (exec_log n o Hq) as [-> |cmd _ _ _ _ ->|from m _ Hf _ _ _]; [done|by apply prefix_app_r|].
  congruence.
Qed.

Lemma record_leader T n' : role n' = Leader → record T n' !! current_term n' = Some (entries (log n')).
Proof. intros Hr. unfold record. rewrite decide_True by done. apply lookup_insert_eq. Qed.

Lemma record_Some T n' t L :
  record T n' !! t = Some L →
  T !! t = Some L ∨ (role n' = Leader ∧ t = current_term n' ∧ L = entries (log n')).
Proof.
  unfold record. case_decide; [|by left]. intros [[<- <-]|[_ ?]]%lookup_insert_Some; auto.
Qed.

Lemma fill_append data msg m : fill data msg = MAppendEntries m → msg = MAppendEntries m.
Proof. by destruct data, msg. Qed.

(** The message an append step handles is a packet of the network. *)
Lemma op_of_packet s a i from msg :
  op_of s a = Some (i, OpStep from msg) →
  ∃ p, p ∈ net s ∧ p_from p = from ∧ p_to p = i ∧ p_msg p = msg.
Proof.
  destruct a as [j|k|j cmd|j data]; cbn; try done.
  destruct (net s !! k) as [p|] eqn:Hp; [|done]. cbn. intros [= <- <- <-].
  exists p. by apply list_elem_of_lookup_2 in Hp.
Qed.

(** The log of the acting node stays in the chronicle, in order. *)
Lemma exec_plain cl B T s a i o n :
  chronicle_ok cl B T s → op_of s a = Some (i, o) → nodes s !! i = Some n → quiet n o →
  remembers n o → grows T (record T (exec o n)) →
  plain (record T (exec o n)) (log (exec o n)) ∧
  ordered (current_term (exec o n)) (entries (log (exec o n))) ∧
  (role (exec o n) ≠ Follower → 0 < current_term (exec o n)).
Proof.
  intros Hok Ho Hn Hq Hrem Hg. destruct (co_node _ _ _ _ Hok _ _ Hn) as (Hpl & Hord & Hpos).
  destruct (exec_later n o Hrem) as (Hle & Hpos' & _). cbn in Hle, Hpos'. specialize (Hpos' Hpos).
  pose proof (plain_mono _ _ _ Hg Hpl) as (Hs & Hst & Hb & Hc).
  destruct (exec_log n o Hq) as [->|cmd -> Hr Hr' Ht Hl|from m -> Hf Htm Hma Hl].
  - split; [by split_and!|]. split; [by eapply ordered_mono|done].
  - pose proof (record_leader T _ Hr') as HT. rewrite Hl in *. cbn [entries set_entries] in *.
    split; [split_and!; [done..| |]|split; [|done]]; cbn [entries set_entries].
    + cbn in Hq. rewrite last_index_eq, Hs in Hq by (by eapply plain_log_ok).
      rewrite len64_app. change (len64 [_]) with 1. lia.
    + apply chronicled_snoc; [done|]. cbn [entry_term]. rewrite Ht in HT. exact HT.
    + apply ordered_snoc; [by eapply ordered_mono| |done]. apply Hpos'. congruence.
  - rewrite Hl. destruct (op_of_packet _ _ _ _ _ Ho) as (p & Hp & _ & _ & Hm).
    destruct (co_net _ _ _ _ Hok _ _ Hp Hm) as (L & HT & Htold).
    destruct (co_history _ _ _ _ Hok _ _ HT) as (HL & HoL & HbL & _).
    destruct (splice_told T (log n) L m _ Hpl Hord HL HbL Htold Hma) as (Hpl' & Hcase & _).
    split; [by eapply plain_mono|]. split; [|done].
    destruct Hcase as [->|Hc']; [by eapply ordered_mono|].
    rewrite Hc', Htm. by apply ordered_take.
Qed.

Lemma act_chronicle cl B B' T s a i o n :
  let n' := exec o n in
  let s' := mkSys (<[i := n']> (nodes s)) (net s ++ sent a i n) in
  B ⊆ B' → net_ok cl B' s' → chronicle_ok cl B T s →
  op_of s a = Some (i, o) → nodes s !! i = Some n → remembers n o → quiet n o →
  grows T (record T n') ∧ chronicle_ok cl B' (record T n') s'.
Proof.
  intros n' s' Hsub Hok' Hok Ho Hn Hrem Hq. subst s'.
  pose proof (no_election _ _ _ Hok') as He. cbn [nodes net] in *.
  assert (∀ j nj, <[i := n']> (nodes s) !! j = Some nj → role nj = Leader →
    won cl B' (current_term nj) j) as Hwon.
  { intros j nj Hj Hr. destruct (eo_views _ _ _ He j (view_of nj)) as [<- Hv];
      [by rewrite lookup_fmap, Hj|]. by apply (leader_won _ _ _ Hv). }
  assert (∀ t c1 c2, won cl B' t c1 → won cl B' t c2 → c1 = c2) as Hun.
  { intros t c1 c2. by eapply won_unique. }
  assert (grows T (record T n')) as Hg.
  { apply record_grows. intros Hr. eapply leader_extends; [done..| | |done].
    - intros t c Hc Hi. by eapply Hun.
    - intros _. apply Hwon; [apply lookup_insert_eq|done]. }
  destruct (exec_plain cl B T s a i o n Hok Ho Hn Hq Hrem Hg) as (Hpl & Hord & Hpos).
  fold n' in Hpl, Hord, Hpos. split; [done|]. split; cbn [nodes net].
  - intros j nj Hj. apply lookup_insert_Some in Hj as [[-> <-]|[_ Hj]]; [done|].
    destruct (co_node _ _ _ _ Hok _ _ Hj) as (Hplj & ? & ?).
    split; [by eapply plain_mono|done].
  - intros j nj Hj Hr. destruct (decide (j = i)) as [->|Hne].
    { rewrite lookup_insert_eq in Hj. injection Hj as <-. by apply record_leader. }
    pose proof (Hwon j nj Hj Hr) as Hw. rewrite lookup_insert_ne in Hj by done.
    unfold record. case_decide as Hr'; [|by eapply co_leader].
    rewrite lookup_insert_ne; [by eapply co_leader|]. intros Ht. apply Hne.
    eapply Hun; [exact Hw|]. rewrite <-Ht. apply Hwon; [apply lookup_insert_eq|done].
  - intros t L HT. apply record_Some in HT as [HT|(Hr & -> & ->)].
    + destruct (co_history _ _ _ _ Hok _ _ HT) as (HL & HoL & Hb & c & nc & Hc & Hw & Hpast).
      split; [by eapply chronicled_mono|]. split; [done|]. split; [done|]. exists c.
      destruct (decide (c = i)) as [->|Hne].
      * exists n'. rewrite lookup_insert_eq. split; [done|]. split; [by eapply won_mono|].
        rewrite Hn in Hc. injection Hc as <-. eapply past_later; [by apply exec_later|done].
      * exists nc. rewrite lookup_insert_ne by done. split; [done|].
        split; [by eapply won_mono|done].
    + destruct Hpl as (_ & _ & Hb & Hc). split; [done|]. split; [done|]. split; [done|].
      exists i, n'. rewrite lookup_insert_eq. split; [done|].
      split; [apply Hwon; [apply lookup_insert_eq|done]|]. right. split; [done|congruence].
  - intros j nj e m Hj Hin Hm. apply lookup_insert_Some in Hj as [[-> <-]|[_ Hj]].
    + destruct (exec_emits o n e Hin) as [Hold|Hf]; [by eapply told_mono, co_outgoing|].
      unfold fresh_env in Hf. rewrite Hm in Hf. destruct Hf as (Hr & Ht & _ & Hex).
      exists (entries (log n')). rewrite Ht. split; [by apply record_leader|].
      by eapply excerpt_told.
    + by eapply told_mono, co_outgoing.
  - intros p m [Hp|Hp]%elem_of_app Hm; [by eapply told_mono, co_net|].
    destruct a as [j|k|j cmd|j data]; cbn [sent] in Hp; try by apply not_elem_of_nil in Hp.
    apply list_elem_of_fmap in Hp as (e & -> & Hin). rewrite ready_messages_outgoing in Hin.
    cbn in Hm. apply fill_append in Hm. by eapply told_mono, co_outgoing.
Qed.

Lemma quiet_voting n o : obeys Quiet n o → obeys Voting n o.
Proof. by intros [? _]. Qed.

Lemma run_chronicle cl B T s acts s' :
  net_ok cl B s → chronicle_ok cl B T s → run Quiet acts s = Some s' →
  ∃ B' T', grows T T' ∧ net_ok cl B' s' ∧ chronicle_ok cl B' T' s'.
Proof.
  revert B T s. induction acts as [|a acts IH]; intros B T s Hn Hc Hr; cbn in Hr.
  { simplify_eq. exists B, T. split_and!; [|done..]. intros t L. by exists L. }
  destruct (act Quiet s a) as [s1|] eqn:Ha; [|done]. cbn in Hr.
  destruct (act_ok _ _ _ _ _ Hn (act_weaken Quiet Voting _ _ _ quiet_voting Ha)) as (B1 & Hsub & Hn1).
  destruct (act_inv _ _ _ _ Ha) as (i & o & n & Ho & Hi & [Hrem Hq] & ->).
  destruct (act_chronicle _ _ _ _ _ _ _ _ _ Hsub Hn1 Hc Ho Hi Hrem Hq) as [Hg1 Hc1].
  destruct (IH _ _ _ Hn1 Hc1 Hr) as (B2 & T2 & Hg2 & Hn2 & Hc2).
  exists B2, T2. split_and!; [|done..]. intros t L HT. destruct (Hg1 _ _ HT) as (L1 & HT1 & Hp1).
  destruct (Hg2 _ _ HT1) as (L2 & HT2 & Hp2). exists L2. split; [done|by etrans].
Qed.

Lemma fresh_cluster_chronicle s : fresh_cluster s → chronicle_ok (dom (nodes s)) ∅ ∅ s.
Proof.
  intros [Hnet Hfresh].
  assert (∀ i n, nodes s !! i = Some n → role n = Follower ∧ log n = RaftLog.new ∧ outgoing n = [])
    as Hnew.
  { intros i n Hn. destruct (Hfresh _ _ Hn) as (e & ps & c & Hnw & _).
    unfold new in Hnw. case_decide; [|done]. injection Hnw as <-. done. }
  split.
  - intros i n Hn. destruct (Hnew _ _ Hn) as (Hf & -> & _). split; [|split; [|done]].
    + split_and!; [done..|]. apply chronicled_nil.
    + intros k e Hk. by destruct k.
  - intros i n Hn Hr. destruct (Hnew _ _ Hn) as (Hf & _). congruence.
  - intros t L HT. by rewrite lookup_empty in HT.
  - intros i n e m Hn He. destruct (Hnew _ _ Hn) as (_ & _ & Ho). rewrite Ho in He.
    by apply not_elem_of_nil in He.
  - intros p m Hp. rewrite Hnet in Hp. by apply not_elem_of_nil in Hp.
Qed.

(** ** The property *)

(** [C11] Log matching (§5.3): in every quiet run of a cluster of any size from
    fresh nodes, whatever the timings and message losses, delays, reorderings
    and duplications, if two logs have an entry of the same term at the same
    index then they hold the same entries up to that index; in particular the
    same command there. *)
Theorem log_matching s0 acts s :
  fresh_cluster s0 → run Quiet acts s0 = Some s →
  ∀ i j ni nj k t,
    nodes s !! i = Some ni → nodes s !! j = Some nj →
    entry_term <$> get (log ni) k = Some t → entry_term <$> get (log nj) k = Some t →
    ∀ k', k' ≤ k → get (log ni) k' = get (log nj) k'.
Proof.
  intros Hf Hr i j ni nj k t Hi Hj Hti Htj k' Hk'.
  destruct (run_chronicle _ _ _ _ _ _ (fresh_cluster_ok _ Hf) (fresh_cluster_chronicle _ Hf) Hr)
    as (B & T & _ & _ & Hok).
  destruct (co_node _ _ _ _ Hok _ _ Hi) as [Hpi _]. destruct (co_node _ _ _ _ Hok _ _ Hj) as [Hpj _].
  destruct (decide (k' = 0)) as [->|Hz].
  { rewrite !get_out; [done| |]; left; lia. }
  assert (∀ l x, plain T l → x ≠ 0 → get l x = entries l !! N.to_nat (x - 1)) as Hget.
  { intros l x Hp Hx. rewrite <-(get_nth l) by (by eapply plain_log_ok). rewrite (proj1 Hp).
    f_equal. lia. }
  rewrite !(Hget _ k) in * by (done || lia). rewrite !Hget by done.
  apply fmap_Some in Hti as (ei & Hei & ->). apply fmap_Some in Htj as (ej & Hej & Het).
  destruct Hpi as (_ & _ & _ & Hci). destruct Hpj as (_ & _ & _ & Hcj).
  eapply take_eq_lookup; [by eapply chronicled_match|]. lia.
Qed.
End Invariant.

(** ["n1"] leads term 1 and replicates to ["n2"]; both hold the entry. *)
Section Example.
#[local] Existing Instance low_rng.

Definition replicate_run : list action :=
  timeout "n1" ++ [ADrain "n1" None; ADeliver 0; ADrain "n2" None; ADeliver 2;
    APropose "n1" [x01]; ADrain "n1" None; ADeliver 5].

Lemma log_matching_witness :
  match run Quiet replicate_run trio with
  | Some s => ∀ n1 n2, nodes s !! "n1" = Some n1 → nodes s !! "n2" = Some n2 →
      get (log n1) 1 = get (log n2) 1
  | None => False
  end.
Proof.
  destruct (run Quiet replicate_run trio) as [s|] eqn:Hr.
  - intros n1 n2 H1 H2.
    apply (log_matching trio replicate_run s trio_fresh Hr "n1" "n2" n1 n2 1 1 H1 H2);
      [| |reflexivity].
    + by apply (observed (λ n, entry_term <$> get (log n) 1) _ _ _ _ _ _ _ Hr H1).
    + by apply (observed (λ n, entry_term <$> get (log n) 1) _ _ _ _ _ _ _ Hr H2).
  - vm_compute in Hr. discriminate Hr.
Defined.
End Example.
