(* ===== verification/StepFacts.v ===== *)
(** * What one operation of a node can do

    Facts about every operation of [RaftNode], for the safety argument: where a
    vote, a tally, a role, a progress entry, a commit index and a message can
    come from. *)

From S2P Require Import Prelude Storage RaftLog RaftState RaftNode NodeTheory NodeProps ElectionSpec Election Network LogMatching.
Local Open Scope N_scope.
Local Open Scope u64_scope.

Section Facts.
Context `{Rng}.
Implicit Types (n : RaftNode) (o : node_op).

(** The universal rule: either nothing, or a follower of the message's term. *)
Lemma step_down_cases msg n :
  (message_term msg ≤ current_term n ∧ step_down msg n = n) ∨
  (current_term n < message_term msg ∧
   step_down msg n = become_follower (message_term msg) None n).
Proof. unfold step_down. case_decide; [by right|left; split; [lia|done]]. Qed.

(** ** Campaigns *)
Lemma become_candidate_spec n :
  current_term n < u64_max →
  let n' := become_candidate n in
  current_term n' = current_term n + 1 ∧ voted_for n' = Some (id n) ∧ votes n' = {[id n]} ∧
  (role n' = Candidate ∨ role n' = Leader) ∧ id n' = id n ∧ peers n' = peers n.
Proof.
  intros Hlt n'. assert (current_term n +w 1 = current_term n + 1) as Hw.
  { apply wadd_small. unfold u64_max, two64 in *. lia. }
  subst n'. rewrite become_candidate_eq. cbv zeta.
  case_decide; [rewrite become_leader_eq|]; cbn; rewrite Hw; split_and!; auto.
Qed.

(** A tick either leaves the election state alone or campaigns. *)
Lemma tick_cases n :
  current_term n < u64_max →
  (view_of (tick n) = view_of n ∧ progress (tick n) = progress n ∧
   commit_index (tick n) = commit_index n) ∨
  (role n ≠ Leader ∧ ∃ n0, tick n = become_candidate n0 ∧ view_of n0 = view_of n ∧
     log n0 = log n ∧ commit_index n0 = commit_index n ∧ outgoing n0 = outgoing n).
Proof.
  intros _. unfold tick. destruct (role n) eqn:Hr; cbv zeta; case_decide;
    rewrite ?broadcast_append_eq; try (by left); right; (split; [done|]); by eexists.
Qed.

(** ** Votes *)
Lemma exec_vote n o c :
  remembers n o → voted_for (exec o n) = Some c →
  (voted_for n = Some c ∧ current_term (exec o n) = current_term n) ∨
  (o = OpTick ∧ c = id n ∧ current_term (exec o n) = current_term n + 1 ∧
     role (exec o n) ≠ Follower) ∨
  (∃ from m, o = OpStep from (MRequestVote m) ∧ c = rv_candidate_id m ∧
     current_term (exec o n) = rv_term m ∧
     candidate_is_up_to_date n (rv_last_log_index m) (rv_last_log_term m) = true ∧
     (current_term n < rv_term m ∨
      current_term n = rv_term m ∧ voted_for n = None ∧ leader_id n = None)).
Proof.
  intros Hrem. destruct o as [|from msg|cmd|]; cbn [exec].
  - destruct (tick_cases n Hrem) as [[Hv _]|(_ & n0 & -> & Hv & _)].
    + injection Hv as _ _ _ -> -> _ _. by left.
    + injection Hv as Hi _ _ Ht _ _ _. rewrite <-Hi, <-Ht. cbn in Hrem. rewrite <-Ht in Hrem.
      destruct (become_candidate_spec n0 Hrem) as (-> & -> & _ & Hr & _). intros [= ->].
      right; left. split_and!; [done..|]. destruct Hr as [-> | ->]; done.
  - rewrite step_eq. destruct (step_down_cases msg n) as [[Hle ->]|[Hlt ->]].
    + destruct msg as [m|m|m|m|m|m]; cbn [dispatch message_term] in *.
      * unfold handle_request_vote, can_vote. case_decide as Hge; [|cbn; auto].
        destruct (_ && _) eqn:Hg; [|cbn; auto]. cbn. intros [= <-].
        apply andb_true_iff in Hg as [Hv%bool_decide_eq_true_1 Hup].
        destruct Hv as [Hv|Hv]; [|by left]. right; right. exists from, m.
        split_and!; [done|done|lia|done|]. right. split; [lia|]. split; [done|].
        apply Hrem; [lia|done].
      * unfold handle_request_vote_reply, votes_record. case_decide; [auto|].
        destruct (rvr_vote_granted m); [|auto]. cbv zeta.
        case_decide; [rewrite become_leader_eq|]; cbn; auto.
      * unfold handle_append_entries. case_decide; [cbn; auto|]. cbv zeta.
        destruct (matches _ _ _); cbn [splice]; [case_decide|]; cbn; done.
      * unfold handle_append_entries_reply. case_decide; [auto|].
        destruct (aer_success m); rewrite ?advance_commit_eq, ?send_append_eq; cbn; auto.
      * unfold handle_install_snapshot. case_decide; cbn; auto. done.
      * unfold handle_install_snapshot_reply. case_decide; cbn; auto.
    + destruct msg as [m|m|m|m|m|m]; cbn [dispatch message_term] in *.
      * unfold handle_request_vote, can_vote. rewrite decide_True by (cbn; lia).
        destruct (_ && _) eqn:Hg; [|done]. cbn. intros [= <-].
        apply andb_true_iff in Hg as [_ Hup]. right; right. exists from, m.
        split_and!; [done..|exact Hup|by left].
      * unfold handle_request_vote_reply. by rewrite decide_True by (left; done).
      * unfold handle_append_entries. case_decide; [done|]. cbv zeta.
        destruct (matches _ _ _); cbn [splice]; [case_decide|]; cbn; done.
      * unfold handle_append_entries_reply. by rewrite decide_True by (left; done).
      * unfold handle_install_snapshot. by case_decide.
      * unfold handle_install_snapshot_reply. by rewrite decide_True by (left; done).
  - unfold propose. case_decide; [by left|]. cbn [append fst].
    rewrite advance_commit_eq, broadcast_append_eq. by left.
  - destruct (take_ready_shape n) as (la & l & -> & _). by left.
Qed.

(** ** Roles and tallies *)
Ltac same_tally := cbn; intros; left; split_and!; by auto.

Lemma exec_tally n o :
  remembers n o → role (exec o n) ≠ Follower →
  (role n ≠ Follower ∧ current_term (exec o n) = current_term n ∧
   (role (exec o n) = Candidate → role n = Candidate) ∧
   ∀ u, u ∈ votes (exec o n) → u ∈ votes n ∨ evidence o u (current_term n)) ∨
  (o = OpTick ∧ current_term (exec o n) = current_term n + 1 ∧
   voted_for (exec o n) = Some (id n) ∧ ∀ u, u ∈ votes (exec o n) → u = id n).
Proof.
  intros Hrem. destruct o as [|from msg|cmd|]; cbn [exec].
  - destruct (tick_cases n Hrem) as [[Hv _]|(_ & n0 & -> & Hv & _)].
    + injection Hv as _ _ -> -> _ _ ->. same_tally.
    + injection Hv as Hi _ _ Ht _ _ _. rewrite <-Hi, <-Ht. cbn in Hrem. rewrite <-Ht in Hrem.
      destruct (become_candidate_spec n0 Hrem) as (-> & -> & -> & _). intros _. right.
      split_and!; [done..|]. by intros u ->%elem_of_singleton.
  - rewrite step_eq. destruct (step_down_cases msg n) as [[Hle ->]|[Hlt ->]].
    + destruct msg as [m|m|m|m|m|m]; cbn [dispatch message_term] in *.
      * unfold handle_request_vote. repeat case_match; simplify_eq; same_tally.
      * unfold handle_request_vote_reply, votes_record. case_decide as Hg; [same_tally|].
        assert (role n = Candidate ∧ rvr_term m = current_term n) as [Hc Ht].
        { destruct (decide (rvr_term m = current_term n)), (role n); naive_solver. }
        destruct (rvr_vote_granted m) eqn:Hgr; [|same_tally]. cbv zeta. intros _. left.
        split; [congruence|].
        case_decide; [rewrite become_leader_eq|]; cbn; split_and!; try done.
        all: intros u [? | ->%elem_of_singleton]%elem_of_union; [by left|right].
        all: by exists from, m.
      * unfold handle_append_entries. case_decide; [same_tally|]. cbv zeta.
        destruct (matches _ _ _); cbn [splice]; [case_decide|]; cbn; done.
      * unfold handle_append_entries_reply. case_decide; [same_tally|].
        destruct (aer_success m); rewrite ?advance_commit_eq, ?send_append_eq; same_tally.
      * unfold handle_install_snapshot. case_decide; [same_tally|done].
      * unfold handle_install_snapshot_reply. case_decide; same_tally.
    + destruct msg as [m|m|m|m|m|m]; cbn [dispatch message_term] in *.
      * unfold handle_request_vote. repeat case_match; simplify_eq; done.
      * unfold handle_request_vote_reply. by rewrite decide_True by (left; done).
      * unfold handle_append_entries. case_decide; [done|]. cbv zeta.
        destruct (matches _ _ _); cbn [splice]; [case_decide|]; cbn; done.
      * unfold handle_append_entries_reply. by rewrite decide_True by (left; done).
      * unfold handle_install_snapshot. by case_decide.
      * unfold handle_install_snapshot_reply. by rewrite decide_True by (left; done).
  - unfold propose. case_decide as Hr; [same_tally|]. cbn [append fst].
    rewrite advance_commit_eq, broadcast_append_eq. same_tally.
  - destruct (take_ready_shape n) as (la & l & -> & _). same_tally.
Qed.

(** The log does not change in an election. *)
Lemma exec_campaign_log n o : quiet n o → role n ≠ Leader → role (exec o n) ≠ Follower →
  log (exec o n) = log n.
Proof. intros Hq Hr Hr'. by destruct (exec_log n o Hq). Qed.

(** ** Deferring to a leader: a node that did casts no vote in its term *)
Definition deferred (v : view) : Prop :=
  v_role v = Follower ∧ v_voted v = None ∧ v_leader v ≠ None.

Lemma exec_deferred n o :
  remembers n o → deferred (view_of n) → current_term (exec o n) = current_term n →
  deferred (view_of (exec o n)).
Proof.
  intros Hrem Hd Ht. apply exec_refines in Hrem. revert Hrem Hd Ht.
  change (current_term n) with (v_term (view_of n)).
  change (current_term (exec o n)) with (v_term (view_of (exec o n))).
  generalize (view_of n) as v, (view_of (exec o n)) as v'. intros v v' Hs.
  induction Hs as [v|v v1 v' Hs Hss IH]; intros Hd Ht; [done|].
  assert (v_term v1 ≤ v_term v') as Hle.
  { clear IH Hs. induction Hss as [|a b c Hab _ IH]; [done|].
    destruct (vstep_static _ _ _ Hab) as (_ & _ & ?). lia. }
  assert (deferred v1 ∧ v_term v1 = v_term v) as [Hd1 Ht1].
  { unfold deferred in *. destruct Hd as (Hr & Hv & Hl).
    destruct Hs as [t l Hlt|l|c Hg| |u Hc He|Hc Hq]; cbn in *; split_and!; try done; try lia.
    all: try congruence; destruct Hg as [Hg|[Hg Hg']]; congruence. }
  apply IH; [done|congruence].
Qed.

(** Accepting an append. *)
Definition accepts n o (m : AppendEntries) n' : Prop :=
  (∃ from, o = OpStep from (MAppendEntries m)) ∧
  current_term n ≤ ae_term m ∧ current_term n' = ae_term m ∧ deferred (view_of n') ∧
  matches (log n) (ae_prev_log_index m) (ae_prev_log_term m) = true ∧
  log n' = (splice (log n) (ae_prev_log_index m) (ae_entries m)).2.

Lemma handle_append_accepts n m :
  ae_term m ≤ current_term n →
  let n' := handle_append_entries m n in
  (ae_term m = current_term n ∧ deferred (view_of n') ∧ current_term n' = ae_term m ∧
   matches (log n) (ae_prev_log_index m) (ae_prev_log_term m) = true ∧
   log n' = (splice (log n) (ae_prev_log_index m) (ae_entries m)).2 ∧
   (commit_index n' = commit_index n ∨
    commit_index n' = N.min (ae_leader_commit m) (last_index (log n'))) ∧
   outgoing n' = outgoing n ++ [mkEnvelope (ae_leader_id m) (MAppendEntriesReply
     (mkAppendEntriesReply (ae_term m) (id n) true (last_index (log n')) 0))]) ∨
  (log n' = log n ∧ commit_index n' = commit_index n ∧
   ∃ e, outgoing n' = outgoing n ++ [e] ∧
     ∃ r, message e = MAppendEntriesReply r ∧ aer_success r = false).
Proof.
  intros Hle n'. subst n'. unfold handle_append_entries.
  case_decide as Ht; [right; cbn; split_and!; [done..|]; eauto|]. cbv zeta.
  destruct (matches _ _ _) eqn:Hma; [left|right; cbn; split_and!; [done..|]; eauto].
  cbn [splice]. split; [lia|].
  case_decide; cbn; (split; [by split_and!|]); split_and!; try done; auto.
Qed.

Lemma step_down_keeps msg n :
  log (step_down msg n) = log n ∧ commit_index (step_down msg n) = commit_index n ∧
  outgoing (step_down msg n) = outgoing n ∧ progress (step_down msg n) = progress n ∧
  peers (step_down msg n) = peers n ∧ id (step_down msg n) = id n.
Proof. by destruct (step_down_cases msg n) as [[_ ->]|[_ ->]]. Qed.

(** An append is accepted, or changes neither log nor commit index. *)
Lemma exec_append n from m :
  let n' := exec (OpStep from (MAppendEntries m)) n in
  (accepts n (OpStep from (MAppendEntries m)) m n' ∧
   (commit_index n' = commit_index n ∨
    commit_index n' = N.min (ae_leader_commit m) (last_index (log n'))) ∧
   outgoing n' = outgoing n ++ [mkEnvelope (ae_leader_id m) (MAppendEntriesReply
     (mkAppendEntriesReply (ae_term m) (id n) true (last_index (log n')) 0))]) ∨
  (log n' = log n ∧ commit_index n' = commit_index n ∧
   ∃ e, outgoing n' = outgoing n ++ [e] ∧
     ∃ r, message e = MAppendEntriesReply r ∧ aer_success r = false).
Proof.
  cbn [exec]. rewrite step_eq. cbn [dispatch].
  destruct (step_down_keeps (MAppendEntries m) n) as (Hl & Hc & Ho & _ & _ & Hi).
  pose proof (step_down_term (MAppendEntries m) n) as Ht. cbn [message_term] in Ht.
  rewrite <-Hl, <-Hc, <-Ho, <-Hi.
  destruct (decide (current_term n ≤ ae_term m)) as [Hle|Hgt].
  - destruct (handle_append_accepts (step_down (MAppendEntries m) n) m) as
      [(_ & Hd & Ht' & Hma & Hl' & Hc' & Ho')|Hr]; [lia| |by right].
    left. split; [|done]. unfold accepts. rewrite <-Hl. split_and!; try done. by exists from.
  - right. assert (step_down (MAppendEntries m) n = n) as ->.
    { destruct (step_down_cases (MAppendEntries m) n) as [[_ ->]|[Hlt _]]; [done|].
      cbn in Hlt. lia. }
    unfold handle_append_entries. rewrite decide_True by lia. cbn. split_and!; [done..|]. eauto.
Qed.

(** ** The commit index *)
Lemma next_commit_quorum n :
  next_commit n = commit_index n ∨ (role n = Leader ∧ quorum_at n (next_commit n)).
Proof.
  unfold next_commit. case_decide as Hr; [by left|].
  destruct (commit_scan _ _ _) as [i|] eqn:Hs; [right|by left].
  split; [by destruct (role n); naive_solver|]. by apply commit_scan_Some in Hs as (_ & ? & _).
Qed.

(** A quorum does not depend on the fields [f] touches. *)
Lemma quorum_at_ext n1 n2 i :
  log n1 = log n2 → current_term n1 = current_term n2 → peers n1 = peers n2 →
  progress n1 = progress n2 → quorum_at n1 i → quorum_at n2 i.
Proof. unfold quorum_at, majority, replicas, cluster_size. by intros -> -> -> ->. Qed.

Definition commits n' : Prop := role n' = Leader ∧ quorum_at n' (commit_index n').

Lemma advance_commits n :
  commit_index (advance_commit n) = commit_index n ∨ commits (advance_commit n).
Proof.
  rewrite advance_commit_eq. destruct (next_commit_quorum n) as [Hn|[Hr Hq]]; [by left|right].
  split; [done|]. by eapply (quorum_at_ext n).
Qed.

Lemma become_leader_commits n :
  commit_index (become_leader n) = commit_index n ∨ commits (become_leader n).
Proof.
  unfold become_leader. set (n1 := broadcast_append _).
  assert (commit_index n1 = commit_index n) as <- by (subst n1; by rewrite broadcast_append_eq).
  apply advance_commits.
Qed.

Lemma become_candidate_commits n :
  commit_index (become_candidate n) = commit_index n ∨ commits (become_candidate n).
Proof.
  rewrite become_candidate_eq. cbv zeta. set (n1 := reset_election_timer _).
  assert (commit_index n1 = commit_index n) as <- by done.
  case_decide; [apply become_leader_commits|by left].
Qed.

Lemma exec_commit n o :
  quiet n o →
  commit_index (exec o n) = commit_index n ∨ commits (exec o n) ∨
  ∃ m, accepts n o m (exec o n) ∧
    commit_index (exec o n) = N.min (ae_leader_commit m) (last_index (log (exec o n))).
Proof.
  intros Hq. destruct o as [|from msg|cmd|].
  - cbn [exec]. unfold tick. destruct (role n) eqn:Hr; cbv zeta; case_decide;
      rewrite ?broadcast_append_eq; auto.
    all: match goal with |- context [become_candidate ?n0] =>
           destruct (become_candidate_commits n0); auto end.
  - destruct msg as [m|m|m|m|m|m].
    3: { destruct (exec_append n from m) as [(Ha & Hc & _)|(_ & Hc & _)]; [|by left].
         destruct Hc as [Hc|Hc]; [by left|right; right]. by exists m. }
    all: cbn [exec]; rewrite step_eq; cbn [dispatch];
      match goal with |- context [step_down ?msg ?n0] =>
        destruct (step_down_keeps msg n0) as (_ & Hc & _); revert Hc;
        generalize (step_down msg n0) as n1 end; intros n1 <-.
    + unfold handle_request_vote. repeat case_match; simplify_eq; auto.
    + unfold handle_request_vote_reply, votes_record. case_decide; [auto|].
      destruct (rvr_vote_granted m); [|auto]. cbv zeta. case_decide; [|auto].
      match goal with |- context [become_leader ?n0] =>
        destruct (become_leader_commits n0); auto end.
    + unfold handle_append_entries_reply. case_decide; [auto|].
      destruct (aer_success m); [|rewrite send_append_eq; auto].
      match goal with |- context [advance_commit ?n0] =>
        destruct (advance_commits n0); auto end.
    + done.
    + unfold handle_install_snapshot_reply. case_decide; auto.
  - cbn [exec]. unfold propose. case_decide; [auto|]. cbn [append fst].
    rewrite broadcast_append_eq.
    match goal with |- context [advance_commit ?n0] =>
      destruct (advance_commits n0); auto end.
  - cbn [exec]. destruct (take_ready_shape n) as (la & l & -> & _). auto.
Qed.

(** ** Progress *)
Lemma become_leader_matched n p : matched (progress (become_leader n)) p = 0.
Proof. rewrite become_leader_eq. cbn. apply progress_reset_matched. Qed.

Lemma become_candidate_matched n p :
  role (become_candidate n) = Leader → matched (progress (become_candidate n)) p = 0.
Proof.
  rewrite become_candidate_eq. cbv zeta. case_decide; [|done]. intros _.
  apply become_leader_matched.
Qed.

Lemma exec_progress n o p :
  quiet n o → snapshot_index (log n) = 0 → role (exec o n) = Leader →
  matched (progress (exec o n)) p = 0 ∨
  (role n = Leader ∧ current_term (exec o n) = current_term n ∧
   (matched (progress (exec o n)) p = matched (progress n) p ∨
    ∃ m, o = OpStep p (MAppendEntriesReply m) ∧ aer_success m = true ∧
      aer_term m = current_term n ∧ matched (progress (exec o n)) p = aer_match_index m)).
Proof.
  intros Hq Hs. destruct o as [|from msg|cmd|]; cbn [exec].
  - unfold tick. destruct (role n) eqn:Hr; cbv zeta; case_decide;
      rewrite ?broadcast_append_eq; cbn; try congruence; auto.
    all: intros Hr'; left; by apply become_candidate_matched.
  - rewrite step_eq. destruct (step_down_cases msg n) as [[Hle ->]|[Hlt ->]].
    2: { destruct msg as [m|m|m|m|m|m]; cbn [dispatch message_term] in *.
      - unfold handle_request_vote. repeat case_match; simplify_eq; done.
      - unfold handle_request_vote_reply. by rewrite decide_True by (left; done).
      - unfold handle_append_entries. case_decide; [done|]. cbv zeta.
        destruct (matches _ _ _); cbn [splice]; [case_decide|]; cbn; done.
      - unfold handle_append_entries_reply. by rewrite decide_True by (left; done).
      - done.
      - unfold handle_install_snapshot_reply. by rewrite decide_True by (left; done). }
    destruct msg as [m|m|m|m|m|m]; cbn [dispatch message_term] in *.
    + unfold handle_request_vote. repeat case_match; simplify_eq; cbn; auto.
    + unfold handle_request_vote_reply, votes_record. case_decide; [auto|].
      destruct (rvr_vote_granted m); [|auto]. cbv zeta. case_decide; [|auto].
      intros _. left. apply become_leader_matched.
    + unfold handle_append_entries. case_decide; [cbn; auto|]. cbv zeta.
      destruct (matches _ _ _); cbn [splice]; [case_decide|]; cbn; done.
    + unfold handle_append_entries_reply. case_decide as Hg; [auto|].
      assert (aer_term m = current_term n) as Ht
        by (destruct (decide (aer_term m = current_term n)); naive_solver).
      destruct (aer_success m) eqn:Hsuc; [|rewrite send_append_eq; cbn; auto].
      rewrite advance_commit_eq. cbn. intros Hr. right. split_and!; [done..|].
      change (matched (set_next_index ?x ?y ?z) p) with (matched x p).
      rewrite set_match_index_matched. case_decide as Hf; [right|by left].
      subst from. by exists m.
    + done.
    + unfold handle_install_snapshot_reply. case_decide as Hg; [auto|]. cbn. intros Hr.
      change (matched (set_next_index ?x ?y ?z) p) with (matched x p).
      rewrite set_match_index_matched. case_decide; [by left|right]. auto.
  - unfold propose. case_decide as Hr; [auto|]. cbn [append fst].
    rewrite advance_commit_eq, broadcast_append_eq. cbn. auto.
  - destruct (take_ready_shape n) as (la & l & -> & _). cbn. auto.
Qed.

(** ** Messages *)

(** What a new message says of commits and of the sender's log. *)
Definition reports n o n' (e : Envelope) : Prop :=
  match message e with
  | MAppendEntries m => ae_leader_commit m = commit_index n
  | MAppendEntriesReply r => aer_success r = true →
      ∃ m, accepts n o m n' ∧ aer_term r = ae_term m ∧ aer_match_index r = last_index (log n')
  | MInstallSnapshot m => is_last_included_index m = snapshot_index (log n)
  | _ => True
  end.

Lemma sends_app n o n' es :
  outgoing n' = outgoing n ++ es → Forall (reports n o n') es →
  ∀ e, e ∈ outgoing n' → e ∈ outgoing n ∨ reports n o n' e.
Proof.
  intros -> Hf e [?|He]%elem_of_app; [by left|right]. by eapply Forall_forall in Hf.
Qed.

Lemma append_envelope_reports n o n' n1 p :
  commit_index n1 = commit_index n → snapshot_index (log n1) = snapshot_index (log n) →
  reports n o n' (append_envelope n1 p).
Proof. intros Hc Hs. unfold reports, append_envelope, append_message. cbn. by case_decide. Qed.

Lemma broadcast_reports n o n' n1 ps :
  commit_index n1 = commit_index n → snapshot_index (log n1) = snapshot_index (log n) →
  Forall (reports n o n') (append_envelope n1 <$> ps).
Proof. intros Hc Hs. apply Forall_fmap, Forall_forall. intros p _. by apply append_envelope_reports. Qed.

Lemma become_leader_sends n o n' n0 :
  n' = become_leader n0 → outgoing n0 = outgoing n → commit_index n0 = commit_index n →
  log n0 = log n → ∀ e, e ∈ outgoing n' → e ∈ outgoing n ∨ reports n o n' e.
Proof.
  intros -> Ho Hc Hl. eapply sends_app; [rewrite become_leader_eq; cbn; by rewrite Ho|].
  apply broadcast_reports; cbn; by rewrite ?Hl.
Qed.

Lemma become_candidate_sends n o n' n0 :
  n' = become_candidate n0 → outgoing n0 = outgoing n → commit_index n0 = commit_index n →
  log n0 = log n → ∀ e, e ∈ outgoing n' → e ∈ outgoing n ∨ reports n o n' e.
Proof.
  intros -> Ho Hc Hl. rewrite become_candidate_eq. cbv zeta. case_decide.
  - by eapply become_leader_sends.
  - eapply sends_app; [cbn; by rewrite Ho|]. by apply Forall_fmap, Forall_forall.
Qed.

Lemma exec_sends n o e :
  quiet n o → e ∈ outgoing (exec o n) → e ∈ outgoing n ∨ reports n o (exec o n) e.
Proof.
  intros Hq. destruct o as [|from msg|cmd|].
  - cbn [exec]. unfold tick. destruct (role n) eqn:Hr; cbv zeta; case_decide; try by left.
    1,2: by eapply become_candidate_sends.
    rewrite broadcast_append_eq. eapply sends_app; [done|]. by apply broadcast_reports.
  - destruct msg as [m|m|m|m|m|m].
    3: { destruct (exec_append n from m) as [(Ha & _ & Ho)|(_ & _ & e' & Ho & r & Hm & Hf)].
      - eapply sends_app; [exact Ho|]. constructor; [|done]. intros _. by exists m.
      - eapply sends_app; [exact Ho|]. constructor; [|done]. unfold reports. rewrite Hm.
        congruence. }
    all: cbn [exec]; rewrite step_eq; cbn [dispatch];
      match goal with |- context [step_down ?msg ?n0] =>
        destruct (step_down_keeps msg n0) as (Hl & Hc & Ho & _); revert Hl Hc Ho;
        generalize (step_down msg n0) as n1 end; intros n1 Hl Hc Ho.
    + unfold handle_request_vote. repeat case_match; simplify_eq;
        (eapply sends_app; [cbn; by rewrite Ho|]); by repeat constructor.
    + unfold handle_request_vote_reply, votes_record. case_decide; [rewrite Ho; by left|].
      destruct (rvr_vote_granted m); [|rewrite Ho; by left]. cbv zeta.
      case_decide; [|cbn; rewrite Ho; by left]. by eapply become_leader_sends.
    + unfold handle_append_entries_reply. case_decide; [rewrite Ho; by left|].
      destruct (aer_success m); [rewrite advance_commit_eq; cbn; rewrite Ho; by left|].
      rewrite send_append_eq. eapply sends_app; [cbn; by rewrite Ho|]. constructor; [|done].
      apply append_envelope_reports; cbn; by rewrite ?Hl.
    + done.
    + unfold handle_install_snapshot_reply. case_decide; cbn; rewrite Ho; by left.
  - cbn [exec]. unfold propose. case_decide; [by left|]. cbn [append fst].
    rewrite broadcast_append_eq, advance_commit_eq. eapply sends_app; [done|].
    by apply broadcast_reports.
  - intros He. by apply not_elem_of_nil in He.
Qed.

(** ** The log *)

(** A log changes only by a leader's proposal or an accepted append. *)
Lemma exec_log_cases n o :
  quiet n o →
  log (exec o n) = log n ∨
  (∃ cmd, o = OpPropose cmd ∧ role n = Leader ∧ role (exec o n) = Leader ∧
     log (exec o n) =
       set_entries (entries (log n) ++ [mkEntry (current_term n) cmd]) (log n)) ∨
  ∃ m, accepts n o m (exec o n).
Proof.
  intros Hq. destruct (exec_log n o Hq) as [?|cmd ? ? ? _ ?|from m -> _ _ _ _]; [by left| |].
  - right; left. by exists cmd.
  - destruct (exec_append n from m) as [(? & _)|(? & _)]; [right; right; by exists m|by left].
Qed.

(** The snapshot point stays. *)
Lemma exec_snapshot_point n o :
  quiet n o → snapshot_index (log (exec o n)) = snapshot_index (log n) ∧
    snapshot_term (log (exec o n)) = snapshot_term (log n).
Proof.
  intros Hq. destruct (exec_log n o Hq) as [-> |cmd _ _ _ _ ->|from m _ _ _ _ ->]; [done..|].
  apply splice_snapshot.
Qed.
End Facts.
