(* ===== verification/Safety.v ===== *)
(** * Leader completeness and state machine safety: the invariant

    The record the safety proof keeps of a run (logs at candidacies, votes and
    elections, and acknowledgements), what it says of the nodes and of the
    messages in flight, and leader completeness: an entry on a quorum of
    acknowledged logs is in the log of every later leader. *)

From S2P Require Import Prelude Storage RaftLog RaftState RaftNode NodeTheory NodeProps ElectionSpec Election Network LogMatching StepFacts.
Local Open Scope N_scope.
Local Open Scope u64_scope.

(** ** The record *)

(** [g_first t]: the log of the leader of term [t] when it was elected.
    [g_cand (c, t)]: the log of [c] when it became a candidate of term [t].
    [g_vote (u, t, c)]: the log of [u] when it voted for [c] in term [t].
    [(v, t, x)] in [g_ack]: [v] acknowledged to the leader of term [t] that it
    has the first [x] entries of that leader's log. *)
Record history := mkHistory {
  g_first : gmap N (list LogEntry);
  g_cand : gmap (NodeId * N) (list LogEntry);
  g_vote : gmap (NodeId * N * NodeId) (list LogEntry);
  g_ack : gset (NodeId * N * nat);
}.

Definition extends (g g' : history) : Prop :=
  g_first g ⊆ g_first g' ∧ g_cand g ⊆ g_cand g' ∧ g_vote g ⊆ g_vote g' ∧ g_ack g ⊆ g_ack g'.

Implicit Types (T : chronicle) (g : history) (L : list LogEntry).

(** [RaftLog::last_term] of a log without a snapshot. *)
Definition final_term L : N := match last L with Some e => entry_term e | None => 0 end.

(** The order of [candidate_is_up_to_date]. *)
Definition fresher L1 L2 : Prop :=
  final_term L2 < final_term L1 ∨
  (final_term L1 = final_term L2 ∧ (length L2 ≤ length L1)%nat).

(** The leader of [t'] does not start with the first [y] entries of [L]. *)
Definition strays g (t' : N) (y : nat) L : Prop :=
  ∃ L0, g_first g !! t' = Some L0 ∧ take y L0 ≠ take y L.

Section Safety.
Context `{Rng} (cl : gset NodeId).
Implicit Types (n : RaftNode) (s : sys).

(** The entry [y] of the leader of [t] is of its own term and a quorum has it. *)
Definition chosen T g (t : N) (y : nat) : Prop :=
  ∃ L e (Q : gset NodeId), T !! t = Some L ∧ L !! (y - 1)%nat = Some e ∧ entry_term e = t ∧ (0 < y)%nat ∧
    (quorum cl ≤ size Q)%nat ∧ ∀ v, v ∈ Q → ∃ x, (y ≤ x)%nat ∧ (v, t, x) ∈ g_ack g.

(** The first [x] entries of [L] are below a chosen entry of a term up to [t0]. *)
Definition settled T g (t0 : N) L (x : nat) : Prop :=
  x = 0%nat ∨ ∃ t y L', chosen T g t y ∧ t ≤ t0 ∧ T !! t = Some L' ∧ (x ≤ y)%nat ∧
    take x L = take x L'.

(** What a message from [from] to [dst] promises. *)
Definition message_safe T g (from dst : NodeId) (msg : Message) : Prop :=
  match msg with
  | MRequestVote m => ∃ L, g_cand g !! (rv_candidate_id m, rv_term m) = Some L ∧
      rv_last_log_index m = len64 L ∧ rv_last_log_term m = final_term L
  | MRequestVoteReply r => rvr_vote_granted r = true →
      is_Some (g_vote g !! (rvr_voter_id r, rvr_term r, dst))
  | MAppendEntries m => ∃ L, T !! ae_term m = Some L ∧
      settled T g (ae_term m) L (N.to_nat (ae_leader_commit m))
  | MAppendEntriesReply r => aer_success r = true →
      (from, aer_term r, N.to_nat (aer_match_index r)) ∈ g_ack g
  | _ => True
  end.

(** Queued by its sender or handed to the transport. *)
Definition in_flight s (from dst : NodeId) (msg : Message) : Prop :=
  (∃ n e, nodes s !! from = Some n ∧ e ∈ outgoing n ∧ dst = to e ∧ msg = message e) ∨
  (∃ p, p ∈ net s ∧ from = p_from p ∧ dst = p_to p ∧ msg = p_msg p).

Record safe T g s : Prop := {
  sf_peers : ∀ i n, nodes s !! i = Some n →
    i ∈ cl ∧ NoDup (peers n) ∧ ∀ p, p ∈ peers n → p ≠ i ∧ p ∈ cl;
  sf_running : ∀ i n, nodes s !! i = Some n → role n ≠ Follower →
    is_Some (g_cand g !! (i, current_term n));
  sf_candidate : ∀ i n, nodes s !! i = Some n → role n = Candidate →
    g_cand g !! (i, current_term n) = Some (entries (log n));
  sf_cand : ∀ c t L, g_cand g !! (c, t) = Some L →
    (∃ n, nodes s !! c = Some n ∧ t ≤ current_term n) ∧ chronicled T L ∧ ordered t L ∧
    ∀ i e, L !! i = Some e → entry_term e < t;
  sf_vote : ∀ u t c L, g_vote g !! (u, t, c) = Some L →
    u ∈ cl ∧ (∃ n, nodes s !! u = Some n ∧ t ≤ current_term n) ∧ chronicled T L ∧ ordered t L ∧
    ∃ L', g_cand g !! (c, t) = Some L' ∧ fresher L' L;
  sf_voted : ∀ i n c, nodes s !! i = Some n → voted_for n = Some c →
    is_Some (g_vote g !! (i, current_term n, c));
  sf_tally : ∀ i n, nodes s !! i = Some n → role n ≠ Follower → ∀ u, u ∈ votes n →
    is_Some (g_vote g !! (u, current_term n, i));
  sf_first : ∀ t L0, g_first g !! t = Some L0 →
    (∃ L, T !! t = Some L ∧ L0 `prefix_of` L) ∧
    ∃ c (Q : gset NodeId), (quorum cl ≤ size Q)%nat ∧ (∀ u, u ∈ Q → is_Some (g_vote g !! (u, t, c))) ∧
      g_cand g !! (c, t) = Some L0;
  sf_led : ∀ t L, T !! t = Some L → is_Some (g_first g !! t);
  sf_ack : ∀ v t x, (v, t, x) ∈ g_ack g → v ∈ cl ∧ ∃ L n,
    T !! t = Some L ∧ (x ≤ length L)%nat ∧ nodes s !! v = Some n ∧ t ≤ current_term n ∧
    ∀ y, (y ≤ x)%nat → take y (entries (log n)) = take y L ∨
      ∃ t', t < t' ∧ strays g t' y L ∧
        (t' < current_term n ∨ t' = current_term n ∧ deferred (view_of n));
  sf_ack_vote : ∀ v t x t' c L L', (v, t, x) ∈ g_ack g → g_vote g !! (v, t', c) = Some L' →
    t < t' → T !! t = Some L → ∀ y, (y ≤ x)%nat →
    take y L' = take y L ∨ ∃ t'', t < t'' < t' ∧ strays g t'' y L;
  sf_matched : ∀ i n p, nodes s !! i = Some n → role n = Leader → p ∈ peers n →
    settled T g (current_term n) (entries (log n)) (N.to_nat (matched (progress n) p)) ∨
    (p, current_term n, N.to_nat (matched (progress n) p)) ∈ g_ack g;
  sf_message : ∀ from dst msg, in_flight s from dst msg → message_safe T g from dst msg;
  sf_commit : ∀ i n, nodes s !! i = Some n →
    settled T g (current_term n) (entries (log n)) (N.to_nat (commit_index n));
}.

(** ** Logs *)
Lemma final_term_last L (k : nat) :
  (0 < length L)%nat → k = (length L - 1)%nat →
  ∃ e, L !! k = Some e ∧ final_term L = entry_term e.
Proof.
  intros Hl ->. unfold final_term. rewrite last_lookup.
  destruct (lookup_lt_is_Some_2 L (length L - 1)) as [e He]; [lia|].
  replace (pred (length L)) with (length L - 1)%nat by lia. exists e. by rewrite He.
Qed.

Lemma chronicled_final T L :
  chronicled T L → (0 < length L)%nat →
  ∃ L', T !! final_term L = Some L' ∧ L = take (length L) L'.
Proof.
  intros HL Hlen. destruct (final_term_last L _ Hlen eq_refl) as (e & He & ->).
  destruct (HL _ _ He) as (L' & HT & Ht). exists L'. split; [done|].
  replace (S (length L - 1)) with (length L) in Ht by lia. by rewrite firstn_all in Ht.
Qed.

(** A log fresher than one that has the entry [y], of term [t], has it too,
    when no leader in between strays from it. *)
Lemma fresher_has T g t y L L1 L2 e u2 :
  (∀ u L', T !! u = Some L' → chronicled T L' ∧ ordered u L') →
  (∀ u L', T !! u = Some L' → ∃ L0, g_first g !! u = Some L0 ∧ L0 `prefix_of` L') →
  T !! t = Some L → (0 < y)%nat → L !! (y - 1)%nat = Some e → entry_term e = t →
  chronicled T L1 → chronicled T L2 → ordered u2 L2 →
  fresher L1 L2 → take y L2 = take y L →
  (∀ u, t < u → u ≤ final_term L1 → ¬ strays g u y L) →
  take y L1 = take y L.
Proof.
  intros HTs Hfirst HT Hy He Het H1 H2 Ho2 Hf Hy2 Hnos.
  assert (y ≤ length L)%nat as HyL by (apply lookup_lt_Some in He; lia).
  pose proof (take_eq_length y L L2 (eq_sym Hy2) HyL) as HyL2.
  assert (L2 !! (y - 1)%nat = Some e) as He2.
  { rewrite (take_eq_lookup y _ L2 L) by (done || lia). done. }
  assert (t ≤ final_term L2) as Ht2.
  { destruct (final_term_last L2 _ ltac:(lia) eq_refl) as (e2 & Hl2 & ->).
    destruct (Ho2 _ _ He2) as (_ & _ & Hm). rewrite <-Het. eapply Hm; [|exact Hl2]. lia. }
  assert (0 < length L1)%nat as Hl1.
  { destruct Hf as [Hf|[_ Hf]]; [|lia]. destruct L1; [cbn in Hf; lia|cbn; lia]. }
  destruct (chronicled_final T L1 H1 Hl1) as (Lu & HTu & HL1).
  destruct Hf as [Hlt|[Heq Hlen]].
  - destruct (Hfirst _ _ HTu) as (L0 & HC & Hp).
    assert (take y L0 = take y L) as Hy0.
    { destruct (decide (take y L0 = take y L)) as [|Hne]; [done|].
      destruct (Hnos (final_term L1)); [lia|lia|]. by exists L0. }
    assert (y ≤ length L0)%nat as HyL0 by (by eapply take_eq_length).
    assert (take y Lu = take y L) as HyLu.
    { rewrite <-Hy0. by apply take_prefix_eq. }
    assert (Lu !! (y - 1)%nat = Some e) as Heu.
    { rewrite (take_eq_lookup y _ Lu L) by (done || lia). done. }
    destruct (final_term_last L1 _ Hl1 eq_refl) as (e1 & He1 & Hf1).
    assert (Lu !! (length L1 - 1)%nat = Some e1) as He1u.
    { rewrite <-(lookup_take_lt Lu (length L1)) by lia. by rewrite <-HL1. }
    assert (y ≤ length L1)%nat as Hyl1.
    { destruct (decide (y ≤ length L1)%nat) as [|Hgt]; [done|exfalso].
      destruct (HTs _ _ HTu) as [_ Hou]. destruct (Hou _ _ He1u) as (_ & _ & Hmono).
      specialize (Hmono (y - 1)%nat e ltac:(lia) Heu). lia. }
    rewrite HL1, take_take, Nat.min_l by done. done.
  - assert (0 < length L2)%nat as Hl2 by lia.
    destruct (chronicled_final T L2 H2 Hl2) as (Lu' & HTu' & HL2).
    assert (Lu' = Lu) as -> by congruence.
    rewrite <-Hy2, HL1, HL2, !take_take, !Nat.min_l by lia. done.
Qed.

(** ** Chosen and settled entries *)
Lemma chosen_length T g t y L : chosen T g t y → T !! t = Some L → (y ≤ length L)%nat.
Proof.
  intros (L' & e & Q & HT & He & _) HT'. rewrite HT in HT'. injection HT' as <-.
  apply lookup_lt_Some in He. lia.
Qed.

Lemma chosen_mono T T' g g' t y :
  grows T T' → extends g g' → chosen T g t y → chosen T' g' t y.
Proof.
  intros Hg (_ & _ & _ & Hack) (L & e & Q & HT & He & Het & Hy & Hsz & Hacks).
  destruct (Hg _ _ HT) as (L' & HT' & Hp). exists L', e, Q. split_and!; try done.
  - by eapply prefix_lookup_Some.
  - intros v Hv. destruct (Hacks v Hv) as (x & ? & ?). exists x. split; [done|by apply Hack].
Qed.

Lemma settled_mono T T' g g' t0 L x :
  grows T T' → extends g g' → settled T g t0 L x → settled T' g' t0 L x.
Proof.
  intros Hg Hext [->|(t & y & L' & Hc & Ht & HT & Hx & Heq)]; [by left|right].
  destruct (Hg _ _ HT) as (L'' & HT' & Hp). exists t, y, L''.
  split_and!; [by eapply chosen_mono|done..|]. rewrite Heq. symmetry.
  pose proof (chosen_length _ _ _ _ _ Hc HT). apply take_prefix_eq; [lia|done].
Qed.

Lemma settled_length T g t0 L x : settled T g t0 L x → (x ≤ length L)%nat.
Proof.
  intros [->|(t & y & L' & Hc & _ & HT & Hx & He)]; [lia|].
  pose proof (chosen_length _ _ _ _ _ Hc HT). eapply take_eq_length; [by symmetry|lia].
Qed.

Lemma settled_le T g t0 t1 L x x' :
  settled T g t0 L x → t0 ≤ t1 → (x' ≤ x)%nat → settled T g t1 L x'.
Proof.
  intros [->|(t & y & L' & Hc & Ht & HT & Hx & He)] Hle Hx'; [left; lia|right].
  exists t, y, L'. split_and!; [done|lia|done|lia|by eapply take_eq_le].
Qed.

Lemma settled_same T g t0 L L' x :
  settled T g t0 L x → take x L' = take x L → settled T g t0 L' x.
Proof.
  intros [->|(t & y & L0 & Hc & Ht & HT & Hx & He)] Heq; [by left|right].
  exists t, y, L0. split_and!; [done..|]. by rewrite Heq.
Qed.

(** ** Leader completeness *)

(** What the chronicle says of each leader's log. *)
Definition chronicle_logs T : Prop :=
  ∀ u L, T !! u = Some L → chronicled T L ∧ ordered u L.

Lemma leader_complete T g s t y L :
  chronicle_logs T → safe T g s → chosen T g t y → T !! t = Some L →
  ∀ t', t < t' → ¬ strays g t' y L.
Proof.
  intros HTs Hok Hch HT t'.
  induction t' as [t' IH] using (well_founded_induction N.lt_wf_0). intros Hlt (L0 & HC & Hne).
  destruct (sf_first _ _ _ Hok _ _ HC) as (_ & c & Q' & Hq' & Hvotes & HK).
  destruct Hch as (L' & e & Q & HT' & He & Het & Hy & Hq & Hacks).
  rewrite HT in HT'. injection HT' as <-.
  destruct (quorums_intersect cl Q Q') as (u & Hu & Hu').
  { intros v Hv. destruct (Hacks v Hv) as (x & _ & Ha). by apply (sf_ack _ _ _ Hok) in Ha as [? _]. }
  { intros v Hv. destruct (Hvotes v Hv) as [Lv HV]. by apply (sf_vote _ _ _ Hok) in HV as [? _]. }
  { done. }
  { done. }
  destruct (Hacks u Hu) as (x & Hyx & Ha). destruct (Hvotes u Hu') as [Lv HV].
  destruct (sf_vote _ _ _ Hok _ _ _ _ HV) as (_ & _ & HcLv & HoLv & Lc & HK' & Hfr).
  rewrite HK in HK'. injection HK' as <-.
  destruct (sf_cand _ _ _ Hok _ _ _ HK) as (_ & HcL0 & _ & Hbelow).
  destruct (sf_ack_vote _ _ _ Hok u t x t' c L Lv Ha HV Hlt HT y Hyx) as [Hyv|(t'' & Ht'' & Hs)].
  - apply Hne. apply (fresher_has T g t y L L0 Lv e t'); try done.
    + intros w Lw HTw. destruct (sf_led _ _ _ Hok _ _ HTw) as [Lw0 HCw].
      destruct (sf_first _ _ _ Hok _ _ HCw) as ((Lw' & HTw' & Hp) & _).
      rewrite HTw in HTw'. injection HTw' as <-. by exists Lw0.
    + intros w Hw Hw'. apply IH; [|done].
      destruct (decide (length L0 = 0%nat)) as [Hz|Hz].
      { destruct L0; [cbn in Hw'; lia|done]. }
      destruct (final_term_last L0 _ ltac:(lia) eq_refl) as (e0 & He0 & Hf0).
      pose proof (Hbelow _ _ He0). lia.
  - by apply (IH t'' ltac:(lia) ltac:(lia)).
Qed.

(** A leader's log has what was settled up to its term. *)
Lemma settled_led T g s t0 L x t L' :
  chronicle_logs T → safe T g s → settled T g t0 L x → t0 ≤ t → T !! t = Some L' →
  take x L' = take x L.
Proof.
  intros HTs Hok [->|(t1 & y & L1 & Hc & Ht1 & HT1 & Hx & ->)] Ht HT; [by rewrite !take_0|].
  pose proof (chosen_length _ _ _ _ _ Hc HT1) as Hy.
  destruct (decide (t1 = t)) as [->|Hne]; [congruence|].
  destruct (sf_led _ _ _ Hok _ _ HT) as [L0 HL0].
  destruct (sf_first _ _ _ Hok _ _ HL0) as ((L2 & HT2 & Hp) & _).
  rewrite HT in HT2. injection HT2 as <-. apply (take_eq_le _ y); [done|].
  destruct (decide (take y L0 = take y L1)) as [He|Hs].
  - rewrite <-He. apply take_prefix_eq; [|done]. by eapply take_eq_length.
  - exfalso. apply (leader_complete T g s t1 y L1 HTs Hok Hc HT1 t); [lia|]. by exists L0.
Qed.

(** Two logs agree on what is settled in both. *)
Lemma settled_agree T g s t1 t2 L1 L2 x :
  chronicle_logs T → safe T g s → settled T g t1 L1 x → settled T g t2 L2 x →
  take x L1 = take x L2.
Proof.
  intros HTs Hok H1 H2. pose proof H1 as H1'. pose proof H2 as H2'.
  destruct H1 as [->|(u1 & y1 & M1 & Hc1 & Hu1 & HT1 & Hx1 & He1)]; [by rewrite !take_0|].
  destruct H2 as [->|(u2 & y2 & M2 & Hc2 & Hu2 & HT2 & Hx2 & He2)]; [by rewrite !take_0|].
  destruct (N.le_ge_cases u1 u2) as [Hle|Hle].
  - rewrite He2. symmetry. eapply (settled_led T g s u1); [done..| |done|done].
    right. by exists u1, y1, M1.
  - rewrite He1. eapply (settled_led T g s u2); [done..| |done|done].
    right. by exists u2, y2, M2.
Qed.
End Safety.
