(* ===== verification/SafetyProof.v ===== *)
(** * State machine safety: the proof

    Every action of a faithful run keeps the invariant of [Safety.v]; hence
    nodes never commit different entries at an index, and a leader holds every
    entry committed in an earlier term. *)

From S2P Require Import Prelude Storage RaftLog RaftState RaftNode NodeTheory NodeProps ElectionSpec Election Network LogMatching StepFacts Safety.
Local Open Scope N_scope.
Local Open Scope u64_scope.

Implicit Types (T : chronicle) (g : history) (L : list LogEntry).

Section Update.
Context `{Rng}.
Implicit Types (n : RaftNode) (i : NodeId).

(** ** The record after an operation of node [i], now in state [n] *)
Definition next_first g n : gmap N (list LogEntry) :=
  if decide (role n = Leader ∧ g_first g !! current_term n = None)
  then <[current_term n := entries (log n)]> (g_first g) else g_first g.

Definition next_cand g i n : gmap (NodeId * N) (list LogEntry) :=
  if decide (role n ≠ Follower ∧ g_cand g !! (i, current_term n) = None)
  then <[(i, current_term n) := entries (log n)]> (g_cand g) else g_cand g.

Definition next_vote g i n : gmap (NodeId * N * NodeId) (list LogEntry) :=
  match voted_for n with
  | Some c => if decide (g_vote g !! (i, current_term n, c) = None)
              then <[(i, current_term n, c) := entries (log n)]> (g_vote g) else g_vote g
  | None => g_vote g
  end.

(** The node has acknowledged its log when it is a prefix of the log of the
    leader of its term. *)
Definition next_ack T g i n : gset (NodeId * N * nat) :=
  g_ack g ∪ match T !! current_term n with
            | Some L => if decide (entries (log n) `prefix_of` L)
                        then {[(i, current_term n, length (entries (log n)))]} else ∅
            | None => ∅
            end.

Definition next_history T g i n : history :=
  mkHistory (next_first g n) (next_cand g i n) (next_vote g i n) (next_ack T g i n).

Lemma next_extends T g i n : extends g (next_history T g i n).
Proof.
  unfold extends, next_history. cbn. split_and!.
  - unfold next_first. case_decide as Hd; [|done]. destruct Hd as [_ Hd]. by apply insert_subseteq.
  - unfold next_cand. case_decide as Hd; [|done]. destruct Hd as [_ Hd]. by apply insert_subseteq.
  - unfold next_vote. destruct (voted_for n); [|done]. case_decide; [|done].
    by apply insert_subseteq.
  - unfold next_ack. set_solver.
Qed.

Lemma next_first_inv g n t L :
  next_first g n !! t = Some L → g_first g !! t = Some L ∨
  (role n = Leader ∧ t = current_term n ∧ L = entries (log n) ∧ g_first g !! t = None).
Proof.
  unfold next_first. case_decide as Hd; [|by left]. destruct Hd as [Hr Hno].
  intros [[<- <-]|[_ ?]]%lookup_insert_Some; auto.
Qed.

Lemma next_cand_inv g i n c t L :
  next_cand g i n !! (c, t) = Some L → g_cand g !! (c, t) = Some L ∨
  (role n ≠ Follower ∧ c = i ∧ t = current_term n ∧ L = entries (log n) ∧
   g_cand g !! (i, current_term n) = None).
Proof.
  unfold next_cand. case_decide as Hd; [|by left]. destruct Hd as [Hr Hno].
  intros [[[= <- <-] <-]|[_ ?]]%lookup_insert_Some; [right|by left]. auto.
Qed.

Lemma next_vote_inv g i n u t c L :
  next_vote g i n !! (u, t, c) = Some L → g_vote g !! (u, t, c) = Some L ∨
  (voted_for n = Some c ∧ u = i ∧ t = current_term n ∧ L = entries (log n) ∧
   g_vote g !! (i, current_term n, c) = None).
Proof.
  unfold next_vote. destruct (voted_for n) as [c'|]; [|by left].
  case_decide as Hd; [|by left].
  intros [[[= <- <- <-] <-]|[_ ?]]%lookup_insert_Some; [right|by left]. auto.
Qed.

Lemma next_ack_inv T g i n v t x :
  (v, t, x) ∈ next_ack T g i n → (v, t, x) ∈ g_ack g ∨
  (v = i ∧ t = current_term n ∧ x = length (entries (log n)) ∧
   ∃ L, T !! t = Some L ∧ entries (log n) `prefix_of` L).
Proof.
  unfold next_ack. intros [?|Hx]%elem_of_union; [by left|right].
  destruct (T !! current_term n) as [L|] eqn:HT; [|set_solver].
  case_decide as Hp; [|set_solver]. apply elem_of_singleton in Hx as [= -> -> ->].
  split_and!; [done..|]. by exists L.
Qed.

Lemma next_ack_self T g i n L :
  T !! current_term n = Some L → entries (log n) `prefix_of` L →
  (i, current_term n, length (entries (log n))) ∈ next_ack T g i n.
Proof. intros HT Hp. unfold next_ack. rewrite HT, decide_True by done. set_solver. Qed.

Lemma next_vote_self g i n c :
  voted_for n = Some c → is_Some (next_vote g i n !! (i, current_term n, c)).
Proof.
  intros Hv. unfold next_vote. rewrite Hv. case_decide as Hd.
  - rewrite lookup_insert_eq. by eexists.
  - by apply not_eq_None_Some.
Qed.

Lemma next_cand_self g i n :
  role n ≠ Follower → is_Some (next_cand g i n !! (i, current_term n)).
Proof.
  intros Hr. unfold next_cand. case_decide as Hd.
  - rewrite lookup_insert_eq. by eexists.
  - apply not_eq_None_Some. naive_solver.
Qed.

Lemma next_first_self g n :
  role n = Leader → is_Some (next_first g n !! current_term n).
Proof.
  intros Hr. unfold next_first. case_decide as Hd.
  - rewrite lookup_insert_eq. by eexists.
  - apply not_eq_None_Some. naive_solver.
Qed.
End Update.

Section Step.
Context `{Rng} (cl : gset NodeId) (B B' : gset ballot) (T : chronicle) (g : history) (s : sys).
Context (a : action) (i : NodeId) (o : node_op) (n : RaftNode).
Hypothesis Hok : safe cl T g s.
Hypothesis Hch : chronicle_ok cl B T s.
Hypothesis Hop : op_of s a = Some (i, o).
Hypothesis Hn : nodes s !! i = Some n.
Hypothesis Hrem : remembers n o.
Hypothesis Hq : quiet n o.
Hypothesis Hfa : faithful n o.

#[local] Abbreviation n' := (exec o n).
#[local] Abbreviation T' := (record T n').
#[local] Abbreviation g' := (next_history T' g i n').
#[local] Abbreviation s' := (mkSys (<[i := n']> (nodes s)) (net s ++ sent a i n)).

Hypothesis Hgrow : grows T T'.
Hypothesis Hch' : chronicle_ok cl B' T' s'.
Hypothesis Hnet' : net_ok cl B' s'.

(** ** The two states *)
Lemma st_id : id n = i.
Proof.
  destruct (eo_views _ _ _ (no_election _ _ _ Hnet') i (view_of n')) as [Hi _].
  { cbn. by rewrite lookup_fmap, lookup_insert_eq. }
  rewrite <-Hi. cbn. symmetry. apply exec_identity.
Qed.

Lemma st_view : view_ok cl B' (view_of n').
Proof.
  apply (eo_views _ _ _ (no_election _ _ _ Hnet') i). cbn. by rewrite lookup_fmap, lookup_insert_eq.
Qed.

Lemma st_later : later (view_of n) (view_of n').
Proof. by apply exec_later. Qed.

Lemma st_term : current_term n ≤ current_term n'.
Proof. apply st_later. Qed.

Lemma st_node j nj : nodes s' !! j = Some nj → (j = i ∧ nj = n') ∨ (j ≠ i ∧ nodes s !! j = Some nj).
Proof. cbn. intros [[<- <-]|[? ?]]%lookup_insert_Some; auto. Qed.

Lemma st_self : nodes s' !! i = Some n'.
Proof. cbn. apply lookup_insert_eq. Qed.

Lemma st_keeps j nj t :
  nodes s !! j = Some nj → t ≤ current_term nj →
  ∃ nj', nodes s' !! j = Some nj' ∧ t ≤ current_term nj'.
Proof.
  intros Hj Ht. destruct (decide (j = i)) as [->|Hne].
  - exists n'. split; [apply st_self|]. rewrite Hn in Hj. injection Hj as <-.
    pose proof st_term. lia.
  - exists nj. cbn. by rewrite lookup_insert_ne.
Qed.

Lemma st_plain : plain T (log n) ∧ ordered (current_term n) (entries (log n)).
Proof. destruct (co_node _ _ _ _ Hch _ _ Hn) as (? & ? & _). done. Qed.

Lemma st_plain' : plain T' (log n') ∧ ordered (current_term n') (entries (log n')) ∧
  (role n' ≠ Follower → 0 < current_term n').
Proof. apply (co_node _ _ _ _ Hch' i). apply st_self. Qed.

Lemma st_packet from msg : o = OpStep from msg → message_safe cl T g from i msg.
Proof.
  intros ->. destruct (op_of_packet _ _ _ _ _ Hop) as (p & Hp & <- & <- & <-).
  apply (sf_message _ _ _ _ Hok). right. by exists p.
Qed.

Lemma st_told from m : o = OpStep from (MAppendEntries m) → told T m.
Proof.
  intros ->. destruct (op_of_packet _ _ _ _ _ Hop) as (p & Hp & _ & _ & Hm).
  by eapply (co_net _ _ _ _ Hch).
Qed.

Lemma st_logs : chronicle_logs T.
Proof. intros u L HT. destruct (co_history _ _ _ _ Hch _ _ HT) as (? & ? & _). done. Qed.

Lemma st_ext : extends g g'.
Proof. apply next_extends. Qed.

Lemma st_first t L : g_first g !! t = Some L → g_first g' !! t = Some L.
Proof. intros HL. eapply lookup_weaken; [done|apply st_ext]. Qed.
Lemma st_cand c t L : g_cand g !! (c, t) = Some L → g_cand g' !! (c, t) = Some L.
Proof. intros HL. eapply lookup_weaken; [done|apply st_ext]. Qed.
Lemma st_vote u t c L : g_vote g !! (u, t, c) = Some L → g_vote g' !! (u, t, c) = Some L.
Proof. intros HL. eapply lookup_weaken; [done|apply st_ext]. Qed.
Lemma st_ack v t x : (v, t, x) ∈ g_ack g → (v, t, x) ∈ g_ack g'.
Proof. apply st_ext. Qed.

Lemma st_is_vote u t c : is_Some (g_vote g !! (u, t, c)) → is_Some (g_vote g' !! (u, t, c)).
Proof. intros [L HL]. exists L. by apply st_vote. Qed.

(** A leader's log keeps its first entries. *)
Lemma st_take t L L' (y : nat) :
  T !! t = Some L → T' !! t = Some L' → (y ≤ length L)%nat → take y L' = take y L.
Proof.
  intros HT HT' Hy. destruct (Hgrow _ _ HT) as (L'' & HT'' & Hp).
  assert (L'' = L') as -> by congruence. by apply take_prefix_eq.
Qed.

(** ** Candidacies *)
Lemma st_campaign : g_cand g !! (i, current_term n + 1) = None.
Proof.
  destruct (g_cand g !! _) as [L|] eqn:HL; [exfalso|done].
  destruct (sf_cand _ _ _ _ Hok _ _ _ HL) as ((m & Hm & Ht) & _). rewrite Hn in Hm.
  injection Hm as <-. lia.
Qed.

Lemma st_campaigned :
  role n' ≠ Follower → o = OpTick → current_term n' = current_term n + 1 →
  g_cand g' !! (i, current_term n') = Some (entries (log n')) ∧ log n' = log n.
Proof.
  intros Hr Ho Ht. split.
  - cbn. unfold next_cand. rewrite decide_True; [apply lookup_insert_eq|].
    split; [done|]. rewrite Ht. apply st_campaign.
  - destruct (exec_log_cases n o Hq) as [?|[(cmd & ? & _)|(m & (from & ?) & _)]]; congruence.
Qed.

Lemma st_candidate : role n' = Candidate →
  g_cand g' !! (i, current_term n') = Some (entries (log n')).
Proof.
  intros Hr. destruct (exec_tally n o Hrem) as [(_ & Ht & Hc & _)|(Ho & Ht & _)]; [congruence|..].
  - specialize (Hc Hr). rewrite (exec_campaign_log n o Hq), Ht by congruence.
    by apply st_cand, (sf_candidate _ _ _ _ Hok).
  - apply st_campaigned; [congruence|done..].
Qed.

Lemma st_new_cand c t L :
  g_cand g' !! (c, t) = Some L → g_cand g !! (c, t) = Some L ∨
  (c = i ∧ t = current_term n' ∧ current_term n < t ∧ L = entries (log n)).
Proof.
  intros [?|(Hr & -> & -> & -> & Hno)]%next_cand_inv; [by left|right].
  destruct (exec_tally n o Hrem Hr) as [(Hr0 & Ht & _)|(Ho & Ht & _)].
  - destruct (sf_running _ _ _ _ Hok _ _ Hn Hr0) as [L HL]. rewrite Ht in Hno. congruence.
  - destruct (st_campaigned Hr Ho Ht) as [_ ->]. split_and!; [done|done|lia|done].
Qed.

Lemma next_safe_cand c t L : g_cand g' !! (c, t) = Some L →
  (∃ m, nodes s' !! c = Some m ∧ t ≤ current_term m) ∧ chronicled T' L ∧ ordered t L ∧
  ∀ k e, L !! k = Some e → entry_term e < t.
Proof.
  intros [HL|(-> & -> & Ht & ->)]%st_new_cand.
  - destruct (sf_cand _ _ _ _ Hok _ _ _ HL) as ((m & Hm & Ht) & Hc & Ho & Hb).
    split; [by eapply st_keeps|]. split; [by eapply chronicled_mono|done].
  - destruct st_plain as [(_ & _ & _ & Hc) Ho]. split; [exists n'; split; [apply st_self|lia]|].
    split; [by eapply chronicled_mono|]. split; [eapply ordered_mono; [|done]; lia|].
    intros k e He. destruct (Ho _ _ He) as (_ & ? & _). lia.
Qed.

(** ** Votes *)
Lemma plain_last T0 l : plain T0 l →
  last_index l = len64 (entries l) ∧ last_term l = final_term (entries l).
Proof.
  intros Hp. split.
  - rewrite last_index_eq by (by eapply plain_log_ok). destruct Hp as (-> & _). lia.
  - unfold last_term, final_term. by destruct Hp as (_ & -> & _).
Qed.

Lemma st_new_vote u t c L :
  g_vote g' !! (u, t, c) = Some L → g_vote g !! (u, t, c) = Some L ∨
  (u = i ∧ t = current_term n' ∧ voted_for n' = Some c ∧ L = entries (log n') ∧
   ∃ L', g_cand g' !! (c, t) = Some L' ∧ fresher L' L).
Proof.
  intros [?|(Hv & -> & -> & -> & Hno)]%next_vote_inv; [by left|right]. split_and!; [done..|].
  destruct (exec_vote n o c Hrem Hv) as [[Hv0 Ht]|[(Ho & -> & Ht & Hr)|Hr]].
  - destruct (sf_voted _ _ _ _ Hok _ _ _ Hn Hv0) as [L HL]. rewrite Ht in Hno. congruence.
  - rewrite st_id. destruct (st_campaigned Hr Ho Ht) as [HK _]. eexists. split; [exact HK|].
    right. split; [done|lia].
  - destruct Hr as (from & m & Ho & -> & -> & Hup & _).
    destruct (st_packet _ _ Ho) as (L' & HK & Hli & Hlt).
    exists L'. split; [by apply st_cand|].
    assert (log n' = log n) as ->.
    { destruct (exec_log_cases n o Hq) as [?|[(cmd & ? & _)|(x & (from' & ?) & _)]]; congruence. }
    unfold candidate_is_up_to_date in Hup. apply bool_decide_eq_true_1 in Hup.
    destruct (plain_last _ _ (proj1 st_plain)) as [Hi' Ht']. rewrite Hi', Ht', Hli, Hlt in Hup.
    unfold fresher, len64 in *. destruct Hup as [?|[? ?]]; [by left|right]. split; [done|lia].
Qed.

Lemma next_safe_vote u t c L : g_vote g' !! (u, t, c) = Some L →
  u ∈ cl ∧ (∃ m, nodes s' !! u = Some m ∧ t ≤ current_term m) ∧ chronicled T' L ∧ ordered t L ∧
  ∃ L', g_cand g' !! (c, t) = Some L' ∧ fresher L' L.
Proof.
  intros [HL|(-> & -> & Hv & -> & HK)]%st_new_vote.
  - destruct (sf_vote _ _ _ _ Hok _ _ _ _ HL) as (Hu & (m & Hm & Ht) & Hc & Ho & L' & HK & Hf).
    split; [done|]. split; [by eapply st_keeps|]. split; [by eapply chronicled_mono|].
    split; [done|]. exists L'. split; [by apply st_cand|done].
  - destruct st_plain' as ((_ & _ & _ & Hc) & Ho & _).
    split; [exact (proj1 (sf_peers _ _ _ _ Hok _ _ Hn))|].
    split; [exists n'; split; [apply st_self|lia]|]. done.
Qed.

Lemma st_voted c : voted_for n' = Some c → is_Some (g_vote g' !! (i, current_term n', c)).
Proof. apply next_vote_self. Qed.

Lemma st_tally : role n' ≠ Follower → ∀ u, u ∈ votes n' →
  is_Some (g_vote g' !! (u, current_term n', i)).
Proof.
  intros Hr u Hu. destruct (exec_tally n o Hrem Hr) as [(Hr0 & Ht & _ & He)|(_ & _ & Hv & He)].
  - rewrite Ht. destruct (He u Hu) as [Hu0|(from & r & Ho & Hg & -> & Htr)].
    + by apply st_is_vote, (sf_tally _ _ _ _ Hok).
    + rewrite Htr. by apply st_is_vote, (st_packet _ _ Ho).
  - rewrite (He u Hu), st_id in *. by apply st_voted.
Qed.

(** ** Leaders *)
Lemma st_elected : role n' = Leader → g_first g !! current_term n' = None →
  g_cand g' !! (i, current_term n') = Some (entries (log n')).
Proof.
  intros Hr Hno.
  destruct (exec_tally n o Hrem) as [(Hr0 & Ht & _)|(Ho & Ht & _)]; [congruence|..].
  - assert (role n = Candidate) as Hc.
    { destruct (role n) eqn:Hrn; [done|done|exfalso].
      pose proof (co_leader _ _ _ _ Hch _ _ Hn Hrn) as HT.
      destruct (sf_led _ _ _ _ Hok _ _ HT) as [L0 HL0]. rewrite Ht in Hno. congruence. }
    rewrite (exec_campaign_log n o Hq), Ht by congruence.
    by apply st_cand, (sf_candidate _ _ _ _ Hok).
  - apply st_campaigned; [congruence|done..].
Qed.

Lemma next_safe_first t L0 : g_first g' !! t = Some L0 →
  (∃ L, T' !! t = Some L ∧ L0 `prefix_of` L) ∧
  ∃ c (Q : gset NodeId), (quorum cl ≤ size Q)%nat ∧ (∀ u, u ∈ Q → is_Some (g_vote g' !! (u, t, c))) ∧
    g_cand g' !! (c, t) = Some L0.
Proof.
  intros [HL|(Hr & -> & -> & Hno)]%next_first_inv.
  - destruct (sf_first _ _ _ _ Hok _ _ HL) as ((L & HT & Hp) & c & Q & Hsz & HQ & HK).
    destruct (Hgrow _ _ HT) as (L' & HT' & Hp'). split; [exists L'; split; [done|by etrans]|].
    exists c, Q. split; [done|]. split; [|by apply st_cand]. intros u Hu. by apply st_is_vote, HQ.
  - split; [exists (entries (log n')); split; [by apply record_leader|done]|].
    exists i, (votes n'). split; [by apply (vo_leader _ _ _ st_view)|].
    split; [|by apply st_elected]. apply st_tally. congruence.
Qed.

Lemma next_safe_led t L : T' !! t = Some L → is_Some (g_first g' !! t).
Proof.
  intros [HT|(Hr & -> & _)]%record_Some.
  - destruct (sf_led _ _ _ _ Hok _ _ HT) as [L0 HL0]. exists L0. by apply st_first.
  - by apply next_first_self.
Qed.

(** ** Acknowledgements *)
Lemma st_strays t' y L L' :
  strays g t' y L → take y L' = take y L → strays g' t' y L'.
Proof. intros (L0 & HC & Hne) Ht. exists L0. split; [by apply st_first|congruence]. Qed.

(** The log an accepted message comes from, and what accepting it does. *)
Lemma st_accepted m :
  accepts n o m n' →
  ∃ L L0, T !! ae_term m = Some L ∧ g_first g !! ae_term m = Some L0 ∧ L0 `prefix_of` L ∧
    (∀ y, take y (entries (log n)) = take y L → (y ≤ length (entries (log n)))%nat →
       take y (entries (log n')) = take y L) ∧
    entries (log n') `prefix_of` L ∧
    message_safe cl T g (ae_leader_id m) i (MAppendEntries m).
Proof.
  intros ((from & Ho) & Hle & Ht & _ & Hma & Hl).
  destruct (st_told _ _ Ho) as (L & HT & Htold).
  destruct (sf_led _ _ _ _ Hok _ _ HT) as [L0 HL0].
  destruct (sf_first _ _ _ _ Hok _ _ HL0) as ((L' & HT0 & Hp) & _).
  assert (L' = L) as -> by congruence.
  destruct (co_history _ _ _ _ Hch _ _ HT) as (HcL & HoL & HbL & _).
  destruct st_plain as [Hpl Hord].
  destruct (splice_told T (log n) L m _ Hpl Hord HcL HbL Htold Hma) as (Hpl' & _ & Hk & HkL & Hret).
  rewrite <-Hl in *. exists L, L0. split_and!; try done.
  - intros y Hy Hyl. by rewrite (Hret y Hy Hyl).
  - rewrite Ho in Hfa. cbn in Hfa. specialize (Hfa Hle Hma).
    cbn [splice snd] in Hfa. cbn [splice snd] in Hl. rewrite <-Hl in Hfa.
    destruct (plain_last _ _ Hpl') as [Hli Hlt]. rewrite Hli, Hlt in Hfa.
    destruct Hfa as [Hlen|Hlast].
    + assert (length (entries (log n')) =
        N.to_nat (ae_prev_log_index m) + length (ae_entries m))%nat as Hlen'
        by (unfold len64 in Hlen; lia).
      rewrite <-Hlen', firstn_all in Hk. exists (drop (length (entries (log n'))) L).
      rewrite Hk at 1. symmetry. apply take_drop.
    + destruct (decide (length (entries (log n')) = 0%nat)) as [Hz|Hz].
      { destruct (entries (log n')); [apply prefix_nil|done]. }
      destruct Hpl' as (_ & _ & _ & Hc').
      destruct (chronicled_final _ _ Hc') as (L2 & HT2 & Heq); [lia|].
      rewrite Hlast, HT in HT2. injection HT2 as <-.
      exists (drop (length (entries (log n'))) L). rewrite Heq at 1. symmetry. apply take_drop.
  - exact (st_packet _ _ Ho).
Qed.

(** A log prefix of an earlier leader stays, or the new leader strays from it. *)
Lemma st_holds t L (y : nat) :
  T !! t = Some L → t ≤ current_term n → take y (entries (log n)) = take y L → (y ≤ length L)%nat →
  take y (entries (log n')) = take y L ∨
  ∃ m, accepts n o m n' ∧ t < ae_term m ∧ strays g (ae_term m) y L.
Proof.
  intros HT Ht Hy Hyl.
  assert (y ≤ length (entries (log n)))%nat as Hyn by (by eapply take_eq_length).
  destruct (exec_log_cases n o Hq) as [-> |[(cmd & _ & _ & _ & ->)|(m & Ha)]]; [by left|left|].
  { cbn [entries set_entries]. by rewrite take_app_le. }
  destruct (st_accepted m Ha) as (Lm & L0 & HTm & HL0 & Hp & Hret & _).
  destruct (decide (t = ae_term m)) as [->|Hne].
  - left. rewrite HT in HTm. injection HTm as <-. by apply Hret.
  - destruct (decide (take y L0 = take y L)) as [He|Hs].
    + left. assert (take y Lm = take y L) as Hm.
      { rewrite <-He. apply take_prefix_eq; [|done]. by eapply take_eq_length. }
      rewrite <-Hm. apply Hret; [by rewrite Hm|done].
    + right. exists m. split; [done|]. destruct Ha as (_ & Hle & _). split; [lia|]. by exists L0.
Qed.

Lemma st_old_ack t x : (i, t, x) ∈ g_ack g → ∃ L,
  T' !! t = Some L ∧ (x ≤ length L)%nat ∧ t ≤ current_term n' ∧
  ∀ y, (y ≤ x)%nat → take y (entries (log n')) = take y L ∨
    ∃ t', t < t' ∧ strays g' t' y L ∧
      (t' < current_term n' ∨ t' = current_term n' ∧ deferred (view_of n')).
Proof.
  intros Hack. destruct (sf_ack _ _ _ _ Hok _ _ _ Hack) as (_ & L & m & HT & Hx & Hm & Ht & Hy).
  rewrite Hn in Hm. injection Hm as <-. destruct (Hgrow _ _ HT) as (L' & HT' & Hp). exists L'.
  pose proof st_term as Hle. pose proof (prefix_length _ _ Hp).
  split_and!; [done|lia|lia|]. intros y Hyx.
  pose proof (st_take t L L' y HT HT' ltac:(lia)) as HyL. rewrite HyL.
  destruct (Hy y Hyx) as [Hin|(t' & Hlt & Hs & Hd)].
  - destruct (st_holds t L y HT Ht Hin) as [?|(m & Ha & Htm & Hs)]; [lia|by left|right].
    destruct Ha as (_ & _ & Het & Hdef & _). exists (ae_term m).
    split; [done|]. split; [by eapply st_strays|]. by right.
  - right. exists t'. split; [done|]. split; [by eapply st_strays|].
    destruct Hd as [?|[-> Hd]]; [left; lia|].
    destruct (decide (current_term n = current_term n')) as [He|Hne]; [right|left; lia].
    split; [done|]. by apply exec_deferred.
Qed.

Lemma next_safe_ack v t x : (v, t, x) ∈ g_ack g' → v ∈ cl ∧ ∃ L m,
  T' !! t = Some L ∧ (x ≤ length L)%nat ∧ nodes s' !! v = Some m ∧ t ≤ current_term m ∧
  ∀ y, (y ≤ x)%nat → take y (entries (log m)) = take y L ∨
    ∃ t', t < t' ∧ strays g' t' y L ∧
      (t' < current_term m ∨ t' = current_term m ∧ deferred (view_of m)).
Proof.
  intros [Hack|(-> & -> & -> & L & HT & Hp)]%next_ack_inv.
  - destruct (sf_ack _ _ _ _ Hok _ _ _ Hack) as (Hv & L & m & HT & Hx & Hm & Ht & Hy).
    split; [done|]. destruct (decide (v = i)) as [->|Hne].
    { destruct (st_old_ack _ _ Hack) as (L' & ? & ? & ? & ?). exists L', n'.
      split_and!; [done|done|apply st_self|done..]. }
    destruct (Hgrow _ _ HT) as (L' & HT' & Hp). exists L', m. pose proof (prefix_length _ _ Hp).
    split_and!; [done|lia|cbn; by rewrite lookup_insert_ne|done|]. intros y Hyx.
    pose proof (st_take t L L' y HT HT' ltac:(lia)) as HyL. rewrite HyL.
    destruct (Hy y Hyx) as [?|(t' & ? & Hs & ?)]; [by left|right]. exists t'.
    split; [done|]. split; [by eapply st_strays|done].
  - split; [exact (proj1 (sf_peers _ _ _ _ Hok _ _ Hn))|]. exists L, n'.
    pose proof (prefix_length _ _ Hp). split_and!; [done|lia|apply st_self|lia|]. intros y Hy. left.
    symmetry. by apply take_prefix_eq.
Qed.

Lemma next_safe_ack_vote v t x t' c L L' :
  (v, t, x) ∈ g_ack g' → g_vote g' !! (v, t', c) = Some L' → t < t' → T' !! t = Some L →
  ∀ y, (y ≤ x)%nat → take y L' = take y L ∨ ∃ t'', t < t'' < t' ∧ strays g'  t'' y L.
Proof.
  intros Hack Hvote Hlt HT' y Hy. destruct (st_new_vote _ _ _ _ Hvote) as [Hold|Hnew].
  - apply next_ack_inv in Hack as [Hack|(-> & -> & _)].
    + destruct (sf_ack _ _ _ _ Hok _ _ _ Hack) as (_ & L0 & _ & HT & Hx & _).
      rewrite (st_take t L0 L y HT HT') by lia.
      destruct (sf_ack_vote _ _ _ _ Hok _ _ _ _ _ _ _ Hack Hold Hlt HT y Hy)
        as [?|(t'' & Hr & Hs)]; [by left|right].
      exists t''. split; [done|]. eapply st_strays; [done|]. apply (st_take t); [done..|lia].
    + destruct (sf_vote _ _ _ _ Hok _ _ _ _ Hold) as (_ & (m & Hm & Ht) & _).
      rewrite Hn in Hm. injection Hm as <-. pose proof st_term. lia.
  - destruct Hnew as (-> & -> & Hv & -> & _).
    destruct (next_safe_ack _ _ _ Hack) as (_ & L0 & m & HT0 & _ & Hm & _ & Hyy).
    rewrite st_self in Hm. injection Hm as <-. rewrite HT' in HT0. injection HT0 as <-.
    destruct (Hyy y Hy) as [?|(t'' & ? & Hs & [?|[_ (_ & Hd & _)]])]; [by left|right|].
    + by exists t''.
    + cbn in Hd. congruence.
Qed.

(** ** Commits *)
(** What a log has settled stays in it. *)
Lemma st_settled_log x :
  settled cl T g (current_term n) (entries (log n)) x →
  settled cl T g (current_term n') (entries (log n')) x.
Proof.
  intros Hset. pose proof st_term as Hle.
  apply (settled_le _ _ _ _ (current_term n') _ _ x) in Hset as Hset'; [|done..].
  destruct Hset as [->|(t & y & L & Hc & Ht & HT & Hx & He)]; [by left|].
  eapply settled_same; [exact Hset'|].
  pose proof (chosen_length _ _ _ _ _ _ Hc HT) as HyL.
  destruct (st_holds t L x HT Ht He) as [Heq|(m & _ & Hlt & L0 & HL0 & Hne)];
    [lia|by rewrite Heq|exfalso].
  apply (leader_complete cl T g s t y L st_logs Hok Hc HT _ Hlt). exists L0. split; [done|].
  intros Hy. by apply Hne, (take_eq_le _ y).
Qed.

(** A leader credits a peer with what it acknowledged or with what is settled. *)
Lemma next_safe_matched p : role n' = Leader → p ∈ peers n →
  settled cl T' g' (current_term n') (entries (log n')) (N.to_nat (matched (progress n') p)) ∨
  (p, current_term n', N.to_nat (matched (progress n') p)) ∈ g_ack g'.
Proof.
  intros Hr Hp. destruct st_plain as [(Hs & _) _].
  destruct (exec_progress n o p Hq Hs Hr) as [->|(Hr0 & Ht & [Hm|(m & Ho & Hsuc & Htm & Hm)])];
    [by do 2 left|..].
  - destruct (sf_matched _ _ _ _ Hok _ _ _ Hn Hr0 Hp) as [Hset|Ha]; rewrite Hm; [left|right].
    + by apply (settled_mono _ _ _ _ _ _ _ _ Hgrow st_ext), st_settled_log.
    + rewrite Ht. by apply st_ack.
  - right. rewrite Hm, Ht, <-Htm. by apply st_ack, (st_packet _ _ Ho).
Qed.

Lemma st_commits : commits n' →
  settled cl T' g' (current_term n') (entries (log n')) (N.to_nat (commit_index n')).
Proof.
  intros [Hr [Hterm Hmaj]]. destruct (decide (commit_index n' = 0)) as [->|Hz]; [by left|].
  pose proof (record_leader T n' Hr) as HT. destruct st_plain' as [Hpl _].
  destruct (sf_peers _ _ _ _ Hok _ _ Hn) as (_ & Hnd & Hpeers).
  destruct (exec_identity n o) as [_ Hps]. remember (commit_index n') as c eqn:Hc.
  set (F := filter (λ peer, c <= matched (progress n') peer) (peers n)).
  destruct (list_some_or_all (λ p, settled cl T' g' (current_term n') (entries (log n')) (N.to_nat c))
    (λ p, ∃ x, (N.to_nat c ≤ x)%nat ∧ (p, current_term n', x) ∈ g_ack g') F) as [(_ & _ & ?)|Hacks];
    [|done|].
  { intros p [Hm Hp]%list_elem_of_filter. destruct (next_safe_matched p Hr Hp) as [Hs|Ha].
    - left. eapply settled_le; [exact Hs|done|lia].
    - right. eexists. split; [|exact Ha]. lia. }
  right. exists (current_term n'), (N.to_nat c), (entries (log n')). split_and!; [|lia|done|done|done].
  replace c with (N.of_nat (S (N.to_nat c - 1))) in Hterm by lia.
  rewrite (plain_term_at _ _ _ Hpl) in Hterm. apply fmap_Some in Hterm as (e & He & Het).
  exists (entries (log n')), e, ({[i]} ∪ list_to_set F). split_and!; [done|done|done|lia|..].
  - rewrite <-(vo_quorum _ _ _ st_view). change (v_quorum (view_of n')) with (majority n').
    rewrite size_union, size_singleton, size_list_to_set.
    + unfold replicas in Hmaj. rewrite Hps in Hmaj. exact Hmaj.
    + by apply NoDup_filter.
    + intros j ->%elem_of_singleton [_ Hj]%elem_of_list_to_set%list_elem_of_filter.
      by destruct (Hpeers _ Hj).
  - intros v [->%elem_of_singleton|Hv%elem_of_list_to_set]%elem_of_union; [|by apply Hacks].
    exists (length (entries (log n'))). apply lookup_lt_Some in He. split; [lia|].
    by apply (next_ack_self _ _ _ _ (entries (log n'))).
Qed.

Lemma next_safe_commit :
  settled cl T' g' (current_term n') (entries (log n')) (N.to_nat (commit_index n')).
Proof.
  destruct (exec_commit n o Hq) as [->|[Hc|(m & Ha & ->)]].
  - by apply (settled_mono _ _ _ _ _ _ _ _ Hgrow st_ext), st_settled_log, (sf_commit _ _ _ _ Hok _ _ Hn).
  - by apply st_commits.
  - apply (settled_mono _ _ _ _ _ _ _ _ Hgrow st_ext). destruct (st_accepted m Ha) as (L & L0 & HT & _ & _ & _ & Hp & Hsafe).
    destruct Ha as (_ & _ & Ht & _). destruct Hsafe as (L' & HT' & Hset). rewrite HT in HT'.
    injection HT' as <-. destruct st_plain' as [Hpl' _]. destruct (plain_last _ _ Hpl') as [Hli _].
    eapply settled_same.
    + eapply (settled_le _ _ _ _ _ _ _ (N.to_nat (N.min (ae_leader_commit m) (last_index (log n')))) Hset).
      * by rewrite Ht.
      * lia.
    + symmetry. apply take_prefix_eq; [|done]. unfold len64 in Hli. lia.
Qed.

(** ** Messages *)
Lemma st_message_mono from dst msg :
  message_safe cl T g from dst msg → message_safe cl T' g' from dst msg.
Proof.
  destruct msg as [m|m|m|m|m|m]; cbn [message_safe]; try done.
  - intros (L & HK & ?). exists L. split; [by apply st_cand|done].
  - intros Hv Hg. by apply st_is_vote, Hv.
  - intros (L & HT & Hset). destruct (Hgrow _ _ HT) as (L' & HT' & Hp). exists L'.
    split; [done|]. apply (settled_mono _ _ _ _ _ _ _ _ Hgrow st_ext). eapply settled_same; [done|].
    apply take_prefix_eq; [|done]. by eapply settled_length.
  - intros Ha Hg. by apply st_ack, Ha.
Qed.

Lemma message_safe_fill from dst data msg :
  message_safe cl T' g' from dst (fill data msg) ↔ message_safe cl T' g' from dst msg.
Proof. by destruct data, msg. Qed.

Lemma st_fresh_message e :
  fresh_env n' e → reports n o n' e → message_safe cl T' g' i (to e) (message e).
Proof.
  destruct (exec_identity n o) as [Hid _]. rewrite st_id in Hid.
  destruct st_plain' as [Hpl _]. destruct (plain_last _ _ Hpl) as [Hli Hlt].
  unfold fresh_env, reports. destruct (message e) as [m|r|m|r|m|r]; cbn [message_safe]; try done.
  - intros (Hr & -> & -> & -> & ->) _. rewrite Hid. exists (entries (log n')).
    split; [by apply st_candidate|done].
  - intros Hf _ Hg. destruct (Hf Hg) as (-> & -> & Hv). rewrite Hid. by apply st_voted.
  - intros (Hr & -> & _) ->. exists (entries (log n')). split; [by apply record_leader|].
    by apply (settled_mono _ _ _ _ _ _ _ _ Hgrow st_ext), st_settled_log, (sf_commit _ _ _ _ Hok _ _ Hn).
  - intros _ Hrep Hg. destruct (Hrep Hg) as (m & Ha & -> & ->). rewrite Hli.
    destruct (st_accepted m Ha) as (L & _ & HT & _ & _ & _ & Hp & _).
    destruct Ha as (_ & _ & Het & _). destruct (Hgrow _ _ HT) as (L' & HT' & Hp').
    rewrite <-Het in *.
    unfold len64. rewrite Nat2N.id. apply (next_ack_self _ _ _ _ L'); [done|by etrans].
Qed.

Lemma next_safe_message from dst msg :
  in_flight s' from dst msg → message_safe cl T' g' from dst msg.
Proof.
  intros [(m & e & Hm & He & -> & ->)|(p & Hp & -> & -> & ->)].
  - destruct (st_node _ _ Hm) as [[-> ->]|[_ Hm']].
    + destruct (exec_emits o n e He) as [Hold|Hf];
        [|destruct (exec_sends n o e Hq He) as [Hold|Hs]].
      3: by apply st_fresh_message.
      all: apply st_message_mono, (sf_message _ _ _ _ Hok); left; by exists n, e.
    + apply st_message_mono, (sf_message _ _ _ _ Hok). left. by exists m, e.
  - cbn [net] in Hp. apply elem_of_app in Hp as [Hp|Hp].
    + apply st_message_mono, (sf_message _ _ _ _ Hok). right. by exists p.
    + destruct a as [j|k|j cmd|j data]; cbn [sent] in Hp; try by apply not_elem_of_nil in Hp.
      apply list_elem_of_fmap in Hp as (e & -> & He). rewrite ready_messages_outgoing in He.
      cbn [p_from p_to p_msg]. apply message_safe_fill, st_message_mono, (sf_message _ _ _ _ Hok).
      left. by exists n, e.
Qed.

(** ** The invariant is kept *)
Lemma step_safe : safe cl T' g' s'.
Proof.
  split.
  - intros j m Hm. destruct (st_node _ _ Hm) as [[-> ->]|[_ Hm']]; [|by apply (sf_peers _ _ _ _ Hok)].
    destruct (exec_identity n o) as [_ ->]. by apply (sf_peers _ _ _ _ Hok).
  - intros j m Hm Hr. destruct (st_node _ _ Hm) as [[-> ->]|[_ Hm']]; [by apply next_cand_self|].
    destruct (sf_running _ _ _ _ Hok _ _ Hm' Hr) as [L HL]. exists L. by apply st_cand.
  - intros j m Hm Hr. destruct (st_node _ _ Hm) as [[-> ->]|[_ Hm']]; [by apply st_candidate|].
    by apply st_cand, (sf_candidate _ _ _ _ Hok).
  - apply next_safe_cand.
  - apply next_safe_vote.
  - intros j m c Hm Hv. destruct (st_node _ _ Hm) as [[-> ->]|[_ Hm']]; [by apply st_voted|].
    by apply st_is_vote, (sf_voted _ _ _ _ Hok).
  - intros j m Hm Hr u Hu. destruct (st_node _ _ Hm) as [[-> ->]|[_ Hm']]; [by apply st_tally|].
    by apply st_is_vote, (sf_tally _ _ _ _ Hok).
  - apply next_safe_first.
  - apply next_safe_led.
  - apply next_safe_ack.
  - apply next_safe_ack_vote.
  - intros j m p Hm Hr Hp. destruct (st_node _ _ Hm) as [[-> ->]|[_ Hm']].
    + apply next_safe_matched; [done|]. by destruct (exec_identity n o) as [_ <-].
    + destruct (sf_matched _ _ _ _ Hok _ _ _ Hm' Hr Hp) as [Hset|Ha]; [left|right; by apply st_ack].
      by apply (settled_mono _ _ _ _ _ _ _ _ Hgrow st_ext).
  - apply next_safe_message.
  - intros j m Hm. destruct (st_node _ _ Hm) as [[-> ->]|[_ Hm']]; [by apply next_safe_commit|].
    by apply (settled_mono _ _ _ _ _ _ _ _ Hgrow st_ext), (sf_commit _ _ _ _ Hok _ _ Hm').
Qed.

End Step.
