(* ===== verification/Agreement.v ===== *)
(** * What the nodes of a cluster agree on

    Faithful runs keep the invariant of [Safety.v]: nodes never commit
    different entries at an index, leaders hold every committed entry, and the
    commands handed to the drivers of any two nodes are the same sequence, one
    node perhaps further than the other. *)

From S2P Require Import Prelude Storage RaftLog RaftState RaftNode NodeTheory NodeProps ElectionSpec Election Network LogMatching StepFacts Safety SafetyProof.
Local Open Scope N_scope.
Local Open Scope u64_scope.

Section Agreement.
Context `{Rng}.
Implicit Types (n : RaftNode) (s : sys) (T : chronicle) (g : history).

(** All three invariants, for some ballots. *)
Definition sound (cl : gset NodeId) T g s : Prop :=
  ∃ B, net_ok cl B s ∧ chronicle_ok cl B T s ∧ safe cl T g s.

Lemma faithful_voting n o : obeys Faithful n o → obeys Voting n o.
Proof. by intros [? _]. Qed.

Lemma faithful_quiet n o : obeys Faithful n o → obeys Quiet n o.
Proof. by intros (? & ? & _). Qed.

(** What is settled in a node's log stays settled in it. *)
Definition retains cl T g s T' g' s' : Prop :=
  ∀ i n x, nodes s !! i = Some n → settled cl T g (current_term n) (entries (log n)) x →
  ∃ n', nodes s' !! i = Some n' ∧ settled cl T' g' (current_term n') (entries (log n')) x.

(** An operation, with what the chronicle records of it. *)
Lemma op_sound cl T g s a i o n :
  let n' := exec o n in
  let s' := mkSys (<[i := n']> (nodes s)) (net s ++ sent a i n) in
  sound cl T g s → op_of s a = Some (i, o) → nodes s !! i = Some n → obeys Faithful n o →
  ∃ g', grows T (record T n') ∧ extends g g' ∧ sound cl (record T n') g' s' ∧
    retains cl T g s (record T n') g' s'.
Proof.
  intros n' s' (B & Hnet & Hch & Hok) Hop Hn Hobs. pose proof Hobs as (Hrem & Hq & Hfa).
  assert (act Faithful s a = Some s') as Ha.
  { unfold act. rewrite Hop. cbn. rewrite Hn. cbn. by rewrite decide_True. }
  destruct (act_ok _ _ _ _ _ Hnet (act_weaken _ Voting _ _ _ faithful_voting Ha))
    as (B' & Hsub & Hnet').
  destruct (act_chronicle _ _ _ _ _ _ _ _ _ Hsub Hnet' Hch Hop Hn Hrem Hq) as [Hg Hch'].
  exists (next_history (record T n') g i n').
  pose proof (next_extends (record T n') g i n') as He.
  split; [done|]. split; [done|]. split.
  { exists B'. split; [done|]. split; [done|]. by eapply step_safe. }
  intros j m x Hj Hset. cbn. destruct (decide (j = i)) as [->|Hne].
  - exists n'. rewrite lookup_insert_eq. split; [done|]. rewrite Hn in Hj. injection Hj as <-.
    eapply settled_mono; [done..|]. by eapply st_settled_log.
  - exists m. rewrite lookup_insert_ne by done. split; [done|]. by eapply settled_mono.
Qed.

Lemma act_sound cl T g s a s' :
  sound cl T g s → act Faithful s a = Some s' →
  ∃ T' g', grows T T' ∧ extends g g' ∧ sound cl T' g' s' ∧ retains cl T g s T' g' s'.
Proof.
  intros Hs Ha. destruct (act_inv _ _ _ _ Ha) as (i & o & n & Hop & Hn & Hobs & ->).
  destruct (op_sound _ _ _ _ _ _ _ _ Hs Hop Hn Hobs) as (g' & ?). by exists (record T (exec o n)), g'.
Qed.

Lemma grows_trans T1 T2 T3 : grows T1 T2 → grows T2 T3 → grows T1 T3.
Proof.
  intros H1 H2 t L HT. destruct (H1 _ _ HT) as (L' & HT' & ?).
  destruct (H2 _ _ HT') as (L'' & HT'' & ?). exists L''. split; [done|by etrans].
Qed.

Lemma extends_trans g1 g2 g3 : extends g1 g2 → extends g2 g3 → extends g1 g3.
Proof. intros (? & ? & ? & ?) (? & ? & ? & ?). split_and!; by etrans. Qed.

Lemma grows_refl T : grows T T.
Proof. intros t L HT. by exists L. Qed.

Lemma run_sound cl T g s acts s' :
  sound cl T g s → run Faithful acts s = Some s' →
  ∃ T' g', grows T T' ∧ extends g g' ∧ sound cl T' g' s'.
Proof.
  revert T g s. induction acts as [|a acts IH]; intros T g s Hs Hr; cbn in Hr.
  { simplify_eq. exists T, g. split; [apply grows_refl|]. by split. }
  destruct (act Faithful s a) as [s1|] eqn:Ha; [|done]. cbn in Hr.
  destruct (act_sound _ _ _ _ _ _ Hs Ha) as (T1 & g1 & Hg1 & He1 & Hs1 & _).
  destruct (IH _ _ _ Hs1 Hr) as (T2 & g2 & Hg2 & He2 & Hs2). exists T2, g2.
  split; [by eapply grows_trans|]. split; [by eapply extends_trans|done].
Qed.

Definition no_history : history := mkHistory ∅ ∅ ∅ ∅.

Lemma fresh_cluster_sound s : fresh_cluster s → sound (dom (nodes s)) ∅ no_history s.
Proof.
  intros Hf. exists ∅. split; [by apply fresh_cluster_ok|].
  split; [by apply fresh_cluster_chronicle|]. destruct Hf as [Hnet Hfresh].
  assert (∀ i n, nodes s !! i = Some n → role n = Follower ∧ voted_for n = None ∧
    outgoing n = [] ∧ commit_index n = 0 ∧ NoDup (peers n) ∧
    ∀ p, p ∈ peers n → p ≠ i ∧ p ∈ dom (nodes s)) as Hnew.
  { intros i n Hn. destruct (Hfresh _ _ Hn) as (e & ps & c & Hnw & Hnd & Hps).
    unfold new in Hnw. case_decide; [|done]. injection Hnw as <-. cbn.
    split_and!; try done. intros p. apply Hps. }
  split; cbn.
  - intros i n Hn. destruct (Hnew _ _ Hn) as (_ & _ & _ & _ & Hnd & Hps).
    split; [by eapply elem_of_dom_2|done].
  - intros i n Hn Hr. by destruct (Hnew _ _ Hn).
  - intros i n Hn Hr. destruct (Hnew _ _ Hn). congruence.
  - done.
  - done.
  - intros i n c Hn Hv. destruct (Hnew _ _ Hn) as (_ & ? & _). congruence.
  - intros i n Hn Hr. by destruct (Hnew _ _ Hn).
  - done.
  - done.
  - intros v t x Hx. by apply elem_of_empty in Hx.
  - intros v t x t' c L L' Hx. by apply elem_of_empty in Hx.
  - intros i n p Hn Hr. destruct (Hnew _ _ Hn). congruence.
  - intros from dst msg [(n & e & Hn & He & _)|(p & Hp & _)].
    + destruct (Hnew _ _ Hn) as (_ & _ & Ho & _). rewrite Ho in He. by apply not_elem_of_nil in He.
    + rewrite Hnet in Hp. by apply not_elem_of_nil in Hp.
  - intros i n Hn. left. destruct (Hnew _ _ Hn) as (_ & _ & _ & -> & _). done.
Qed.

Lemma sound_logs cl T g s : sound cl T g s → chronicle_logs T.
Proof.
  intros (B & _ & Hch & _) u L HT. by destruct (co_history _ _ _ _ Hch _ _ HT) as (? & ? & _).
Qed.

Lemma sound_plain cl T g s i n :
  sound cl T g s → nodes s !! i = Some n → plain T (log n).
Proof. intros (B & _ & Hch & _) Hn. by destruct (co_node _ _ _ _ Hch _ _ Hn) as (? & _). Qed.

Lemma sound_commit cl T g s i n :
  sound cl T g s → nodes s !! i = Some n →
  settled cl T g (current_term n) (entries (log n)) (N.to_nat (commit_index n)).
Proof. intros (B & _ & _ & Hok) Hn. by apply (sf_commit _ _ _ _ Hok _ _ Hn). Qed.

Lemma plain_get T l k : plain T l → 0 < k → get l k = entries l !! N.to_nat (k - 1).
Proof.
  intros Hp Hk. rewrite <-(get_nth l) by (by eapply plain_log_ok). rewrite (proj1 Hp). f_equal. lia.
Qed.

Lemma plain_get_0 T l : plain T l → get l 0 = None.
Proof. intros Hp. apply get_out. left. lia. Qed.

(** Logs equal up to [x] have the same entries at the indices up to [x]. *)
Lemma take_get T1 T2 l1 l2 (x : nat) k :
  plain T1 l1 → plain T2 l2 → take x (entries l1) = take x (entries l2) →
  (N.to_nat k ≤ x)%nat → get l1 k = get l2 k.
Proof.
  intros H1 H2 He Hk. destruct (decide (k = 0)) as [->|Hz].
  { by rewrite (plain_get_0 _ _ H1), (plain_get_0 _ _ H2). }
  rewrite (plain_get _ _ _ H1), (plain_get _ _ _ H2) by lia.
  eapply take_eq_lookup; [done|lia].
Qed.

(** What the sender owes the receiver, the hypotheses of the theorems about one
    node, holds in faithful runs. *)
Lemma sound_append_ok cl T g s a i from m n :
  sound cl T g s → op_of s a = Some (i, OpStep from (MAppendEntries m)) → nodes s !! i = Some n →
  message_ok n (MAppendEntries m).
Proof.
  intros Hs Hop Hn Hle Hma.
  destruct (op_of_packet _ _ _ _ _ Hop) as (p & Hp & _ & _ & Hm).
  pose proof (sound_commit _ _ _ _ _ _ Hs Hn) as Hcom. pose proof (sound_logs _ _ _ _ Hs) as HTs.
  destruct Hs as (B & _ & Hch & Hok). destruct (co_node _ _ _ _ Hch _ _ Hn) as (Hpl & Hord & _).
  destruct (co_net _ _ _ _ Hch _ _ Hp Hm) as (L & HT & Htold).
  destruct (co_history _ _ _ _ Hch _ _ HT) as (HL & HoL & HbL & _).
  destruct (splice_told T (log n) L m _ Hpl Hord HL HbL Htold Hma) as (_ & _ & _ & Hlen & _).
  split; [rewrite (proj1 Hpl); lia|]. split; [unfold len64 in *; lia|].
  intros j e Hj Hc. destruct Htold as [[rest Hpre] _].
  assert (L !! (N.to_nat (ae_prev_log_index m) + j)%nat = Some e) as HLj.
  { rewrite <-lookup_drop, Hpre. by apply lookup_app_l_Some. }
  pose proof (settled_led _ _ _ _ _ _ _ _ _ HTs Hok Hcom Hle HT) as Heq.
  rewrite (take_eq_lookup _ _ _ _ Heq) in HLj by lia.
  replace (ae_prev_log_index m + 1 + N.of_nat j) with
    (N.of_nat (S (N.to_nat (ae_prev_log_index m) + j))) by lia.
  rewrite (plain_term_at _ _ _ Hpl), HLj. done.
Qed.

Lemma sound_op_ok cl T g s a i o n :
  sound cl T g s → op_of s a = Some (i, o) → nodes s !! i = Some n → obeys Faithful n o →
  op_ok n o.
Proof.
  intros Hs Hop Hn (_ & Hq & _). destruct o as [|from msg|cmd|]; [done| |done|done].
  destruct msg as [m|m|m|m|m|m]; try done. by eapply sound_append_ok.
Qed.

(** The nodes keep their invariant and what they have committed. *)
Definition steady s : Prop := ∀ i n, nodes s !! i = Some n → node_ok n.

Definition kept_from s s' : Prop :=
  ∀ i n, nodes s !! i = Some n → ∃ n', nodes s' !! i = Some n' ∧ keeps_committed n n'.

Lemma act_keeps cl T g s a s' :
  sound cl T g s → steady s → act Faithful s a = Some s' → steady s' ∧ kept_from s s'.
Proof.
  intros Hs Hw Ha. destruct (act_inv _ _ _ _ Ha) as (j & o & m & Hop & Hm & Hob & ->).
  pose proof (sound_op_ok _ _ _ _ _ _ _ _ Hs Hop Hm Hob) as Ho. pose proof (Hw _ _ Hm) as Hok.
  split; intros i n; cbn.
  - intros [[<- <-]|[_ Hi]]%lookup_insert_Some; [by apply exec_ok|by eapply Hw].
  - intros Hi. destruct (decide (j = i)) as [->|Hne].
    2: { exists n. by rewrite lookup_insert_ne. }
    rewrite Hi in Hm. injection Hm as <-. exists (exec o n). rewrite lookup_insert_eq.
    split; [done|]. destruct Hob as (_ & Hq & _). destruct o as [|from msg|cmd|].
    + by apply exec_keeps_committed.
    + apply exec_keeps_committed; [done..|]. by intros f m' [= -> ->].
    + by apply exec_keeps_committed.
    + cbn [quiet] in Hq. unfold keeps_committed. rewrite Hq. cbn [exec].
      by destruct (take_ready_shape n) as (la & l & -> & _).
Qed.

Lemma run_keeps cl T g s acts s' :
  sound cl T g s → steady s → run Faithful acts s = Some s' → steady s' ∧ kept_from s s'.
Proof.
  revert T g s. induction acts as [|a acts IH]; intros T g s Hs Hw Hr; cbn in Hr.
  { injection Hr as <-. split; [done|]. intros i n Hi. by exists n. }
  destruct (act Faithful s a) as [s1|] eqn:Ha; [|done]. cbn in Hr.
  destruct (act_keeps _ _ _ _ _ _ Hs Hw Ha) as [Hw1 Hk1].
  destruct (act_sound _ _ _ _ _ _ Hs Ha) as (T1 & g1 & _ & _ & Hs1 & _).
  destruct (IH _ _ _ Hs1 Hw1 Hr) as [Hw2 Hk2]. split; [done|]. intros i n Hi.
  destruct (Hk1 _ _ Hi) as (n1 & Hi1 & Hkn). destruct (Hk2 _ _ Hi1) as (n2 & Hi2 & ?).
  exists n2. split; [done|]. by etrans.
Qed.

(** Committed entries, now and later in the run. *)
Lemma sound_agree cl T1 g1 s1 acts s2 i j ni nj k :
  sound cl T1 g1 s1 → run Faithful acts s1 = Some s2 →
  nodes s1 !! i = Some ni → nodes s2 !! j = Some nj → 0 < k → k ≤ commit_index ni →
  k ≤ commit_index nj ∨ (role nj = Leader ∧ current_term ni ≤ current_term nj) →
  ∃ e, get (log ni) k = Some e ∧ get (log nj) k = Some e.
Proof.
  intros H1 Hr Hi Hj Hk Hki Hkj.
  destruct (run_sound _ _ _ _ _ _ H1 Hr) as (T2 & g2 & Hg & He & H2).
  pose proof (sound_commit _ _ _ _ _ _ H1 Hi) as Hci.
  pose proof (settled_length _ _ _ _ _ _ Hci) as Hlen.
  apply (settled_mono _ _ _ _ _ _ _ _ Hg He) in Hci.
  pose proof (sound_plain _ _ _ _ _ _ H1 Hi) as Hpi.
  pose proof (sound_plain _ _ _ _ _ _ H2 Hj) as Hpj.
  pose proof (sound_logs _ _ _ _ H2) as HTs.
  destruct (lookup_lt_is_Some_2 (entries (log ni)) (N.to_nat (k - 1))) as [e Hei]; [lia|].
  exists e. rewrite <-(plain_get _ _ _ Hpi) in Hei by done. split; [done|]. rewrite <-Hei.
  apply (take_get T2 T1 _ _ (N.to_nat k)); [done|done| |done].
  pose proof (settled_le _ _ _ _ _ _ _ (N.to_nat k) Hci (N.le_refl _) ltac:(lia)) as Hsk.
  pose proof H2 as (B & _ & Hch & Hok). destruct Hkj as [Hkj|[Hl Ht]].
  - eapply settled_agree; [exact HTs|exact Hok| |exact Hsk].
    eapply settled_le; [by eapply sound_commit|done|lia].
  - eapply settled_led; [exact HTs|exact Hok|exact Hsk|exact Ht|].
    by apply (co_leader _ _ _ _ Hch _ _ Hj).
Qed.

(** ** The properties *)

(** [C2] State machine safety (§5.4.3): in every faithful run of a cluster of
    any size from fresh nodes, whatever the timings and message losses, delays,
    reorderings and duplications, once a node has committed an index, it holds
    an entry there, and any node that has committed that index, then or at any
    later time, holds the same entry there. *)
Theorem state_machine_safety s0 acts1 s1 acts2 s2 :
  fresh_cluster s0 → run Faithful acts1 s0 = Some s1 → run Faithful acts2 s1 = Some s2 →
  ∀ i j ni nj k,
    nodes s1 !! i = Some ni → nodes s2 !! j = Some nj →
    0 < k → k ≤ commit_index ni → k ≤ commit_index nj →
    ∃ e, get (log ni) k = Some e ∧ get (log nj) k = Some e.
Proof.
  intros Hf Hr1 Hr2 i j ni nj k Hi Hj Hk Hki Hkj.
  destruct (run_sound _ _ _ _ _ _ (fresh_cluster_sound _ Hf) Hr1) as (T1 & g1 & _ & _ & H1).
  eapply sound_agree; eauto.
Qed.

(** [C15] Committed entries are stable: in every faithful run from fresh nodes,
    whatever messages arrive, a node's commit index never goes back, and every
    entry at or below it stays where it is, to the end of the run. *)
Theorem committed_prefix_stable s0 acts1 s1 acts2 s2 :
  fresh_cluster s0 → run Faithful acts1 s0 = Some s1 → run Faithful acts2 s1 = Some s2 →
  ∀ i n1, nodes s1 !! i = Some n1 → ∃ n2, nodes s2 !! i = Some n2 ∧
    commit_index n1 ≤ commit_index n2 ≤ last_index (log n2) ∧
    ∀ k, k ≤ commit_index n1 → get (log n2) k = get (log n1) k.
Proof.
  intros Hf Hr1 Hr2 i n1 Hi.
  pose proof (fresh_cluster_sound _ Hf) as Hs0.
  assert (steady s0) as Hw0.
  { intros j n Hj. destruct (proj2 Hf _ _ Hj) as (e & ps & c & Hnew & _). by eapply new_ok. }
  destruct (run_sound _ _ _ _ _ _ Hs0 Hr1) as (T1 & g1 & _ & _ & Hs1).
  destruct (run_keeps _ _ _ _ _ _ Hs0 Hw0 Hr1) as [Hw1 _].
  destruct (run_keeps _ _ _ _ _ _ Hs1 Hw1 Hr2) as [Hw2 Hk].
  destruct (Hk _ _ Hi) as (n2 & Hi2 & Hle & Hget). exists n2. split; [done|].
  split; [|done]. split; [done|]. apply (Hw2 _ _ Hi2).
Qed.

(** [C9] Leader completeness (§5.4): in every faithful run, a leader of the
    same or a later term holds every entry that a node has committed, then or
    earlier in the run. *)
Theorem leader_completeness s0 acts1 s1 acts2 s2 :
  fresh_cluster s0 → run Faithful acts1 s0 = Some s1 → run Faithful acts2 s1 = Some s2 →
  ∀ i j ni nj,
    nodes s1 !! i = Some ni → nodes s2 !! j = Some nj →
    role nj = Leader → current_term ni ≤ current_term nj →
    commit_index ni ≤ last_index (log nj) ∧
    ∀ k, k ≤ commit_index ni → get (log nj) k = get (log ni) k.
Proof.
  intros Hf Hr1 Hr2 i j ni nj Hi Hj Hlead Ht.
  destruct (run_sound _ _ _ _ _ _ (fresh_cluster_sound _ Hf) Hr1) as (T1 & g1 & _ & _ & H1).
  destruct (run_sound _ _ _ _ _ _ H1 Hr2) as (T2 & g2 & Hg & He & H2).
  pose proof (sound_commit _ _ _ _ _ _ H1 Hi) as Hci.
  pose proof (settled_length _ _ _ _ _ _ Hci) as Hlen.
  pose proof (sound_plain _ _ _ _ _ _ H1 Hi) as Hpi.
  pose proof (sound_plain _ _ _ _ _ _ H2 Hj) as Hpj.
  pose proof H2 as (B & _ & Hch & Hok).
  pose proof (settled_led _ _ _ _ _ _ _ _ _ (sound_logs _ _ _ _ H2) Hok
    (settled_mono _ _ _ _ _ _ _ _ Hg He Hci) Ht (co_leader _ _ _ _ Hch _ _ Hj Hlead)) as Heq.
  split.
  - destruct (plain_last _ _ Hpj) as [-> _]. symmetry in Heq.
    apply take_eq_length in Heq; [|done]. unfold len64. lia.
  - intros k Hk. apply (take_get T2 T1 _ _ (N.to_nat (commit_index ni))); [done..|lia].
Qed.

(** ** What the drivers are handed *)

(** What node [i] hands to its driver in the action [a]. *)
Definition handed s (a : action) (i : NodeId) : list Committed :=
  match a with
  | ADrain j _ => if decide (j = i) then default [] (delivers s i) else []
  | _ => []
  end.

(** What it hands over in the whole run, in order. *)
Fixpoint delivered (d : discipline) (acts : list action) s (i : NodeId) : list Committed :=
  match acts with
  | [] => []
  | a :: acts =>
      handed s a i ++ match act d s a with Some s' => delivered d acts s' i | None => [] end
  end.

Lemma delivered_after d acts1 acts2 s s1 i :
  run d acts1 s = Some s1 →
  delivered d (acts1 ++ acts2) s i = delivered d acts1 s i ++ delivered d acts2 s1 i.
Proof.
  revert s. induction acts1 as [|a acts1 IH]; intros s Hr; cbn in *; [by simplify_eq|].
  destruct (act d s a) as [s2|]; [|done]. cbn in Hr. by rewrite (IH s2 Hr), app_assoc.
Qed.

(** Applying moves [last_applied], nothing else does without a snapshot. *)
Lemma exec_unapplied n o :
  quiet n o → o ≠ OpTakeReady →
  last_applied (exec o n) = last_applied n ∧ committed (exec o n) = committed n.
Proof.
  intros Hq Ho. enough (applied_view (exec o n) = applied_view n) as Hv by (by injection Hv).
  destruct o as [|from msg|cmd|]; cbn [exec]; [apply tick_applied| |apply propose_applied|done].
  destruct (step_applied from msg n) as [[? _]|(m & -> & _)]; done.
Qed.

(** Node [n] has handed over [cs], the commands of its first [last_applied]
    entries. *)
Record applied cl T g n (cs : list Committed) : Prop := {
  ap_settled : settled cl T g (current_term n) (entries (log n)) (N.to_nat (last_applied n));
  ap_queue : committed n = [];
  ap_handed : cs = deliveries (log n) 0 (N.to_nat (last_applied n));
}.

Lemma take_deliveries T1 T2 l1 l2 (x : nat) :
  plain T1 l1 → plain T2 l2 → take x (entries l1) = take x (entries l2) →
  deliveries l1 0 x = deliveries l2 0 x.
Proof. intros H1 H2 He. apply deliveries_ext. intros k Hk. eapply take_get; [done..|lia]. Qed.

Lemma handed_drain s a i n :
  op_of s a = Some (i, OpTakeReady) → nodes s !! i = Some n → commit_index n ≤ u64_max →
  handed s a i = committed n ++ pending n.
Proof.
  intros Hop Hn Hb. destruct a as [k|k|k cmd|k data]; cbn in Hop; [done| |done|].
  - by destruct (net s !! k).
  - injection Hop as ->. cbn [handed]. rewrite decide_True by done.
    unfold delivers. rewrite Hn. destruct (take_ready_eq n Hb) as (l & _ & _ & Hcs).
    by trans (ready_committed (take_ready n).2).
Qed.

Lemma handed_other s a i j o :
  op_of s a = Some (j, o) → j ≠ i ∨ o ≠ OpTakeReady → handed s a i = [].
Proof.
  intros Hop Hne. destruct a as [k|k|k cmd|k data]; try done. cbn in *. simplify_eq.
  rewrite decide_False; [done|]. naive_solver.
Qed.

Lemma sound_commit_bound cl T g s i n :
  sound cl T g s → nodes s !! i = Some n → commit_index n ≤ u64_max.
Proof.
  intros Hs Hn. pose proof (settled_length _ _ _ _ _ _ (sound_commit _ _ _ _ _ _ Hs Hn)).
  destruct (sound_plain _ _ _ _ _ _ Hs Hn) as (_ & _ & Hb & _). unfold len64 in Hb. lia.
Qed.

(** A drain hands over what is committed and not yet applied. *)
Lemma drain_applied cl T g n cs :
  applied cl T g n cs → quiet n OpTakeReady → commit_index n ≤ u64_max →
  settled cl T g (current_term n) (entries (log n)) (N.to_nat (commit_index n)) →
  applied cl T g (take_ready n).1 (cs ++ pending n).
Proof.
  intros [Hset Hque ->] Hq Hb Hcom. destruct (take_ready_eq n Hb) as (l & Htr & _ & _).
  change (log (take_ready n).1 = log n) in Hq. rewrite Htr in Hq. rewrite Htr.
  change (l = log n) in Hq. subst l. split; cbn.
  - destruct (N.max_spec (last_applied n) (commit_index n)) as [[_ ->]|[_ ->]]; done.
  - done.
  - unfold pending. rewrite <-(N2Nat.id (last_applied n)) at 2.
    rewrite <-(N.add_0_l (N.of_nat _)), <-deliveries_app. f_equal. lia.
Qed.

Lemma applied_mono cl T T' g g' n cs :
  grows T T' → extends g g' → applied cl T g n cs → applied cl T' g' n cs.
Proof. intros Hg He [? ? ?]. split; [by eapply settled_mono|done..]. Qed.

(** Another operation hands over nothing and leaves the applied entries. *)
Lemma other_applied cl T g s T' g' s' i n n' cs :
  sound cl T g s → sound cl T' g' s' → grows T T' → extends g g' → retains cl T g s T' g' s' →
  nodes s !! i = Some n → nodes s' !! i = Some n' →
  last_applied n' = last_applied n → committed n' = committed n →
  applied cl T g n cs → applied cl T' g' n' cs.
Proof.
  intros Hs Hs' Hg He Hret Hn Hn' Hla Hc [Hset Hque ->].
  destruct (Hret i n _ Hn Hset) as (m & Hm & Hset'). rewrite Hn' in Hm. injection Hm as <-.
  split; [by rewrite Hla|by rewrite Hc|]. rewrite Hla.
  pose proof Hs' as (B & _ & _ & Hok). apply (take_deliveries T T').
  - by eapply sound_plain.
  - by eapply sound_plain.
  - eapply settled_agree; [by eapply sound_logs|exact Hok| |exact Hset']. by eapply settled_mono.
Qed.

(** Node [i] has handed over [cs i], for every node. *)
Definition all_applied cl T g s (cs : NodeId → list Committed) : Prop :=
  ∀ i n, nodes s !! i = Some n → applied cl T g n (cs i).

Lemma act_applied cl T g s a s' cs :
  sound cl T g s → act Faithful s a = Some s' → all_applied cl T g s cs →
  ∃ T' g', sound cl T' g' s' ∧ all_applied cl T' g' s' (λ i, cs i ++ handed s a i).
Proof.
  intros Hs Ha Hap. destruct (act_sound _ _ _ _ _ _ Hs Ha) as (T' & g' & Hg & He & Hs' & Hret).
  destruct (act_inv _ _ _ _ Ha) as (j & o & m & Hop & Hm & (_ & Hq & _) & Heq).
  exists T', g'. split; [done|]. intros i n' Hn'. pose proof Hn' as Hi.
  rewrite Heq in Hi. cbn in Hi. apply lookup_insert_Some in Hi as [[-> Hex]|[Hne Hn]].
  - specialize (Hap _ _ Hm). subst n'.
    assert (o = OpTakeReady ∨ o ≠ OpTakeReady) as [->|Ho] by (destruct o; auto).
    + pose proof (sound_commit_bound _ _ _ _ _ _ Hs Hm) as Hb.
      rewrite (handed_drain _ _ _ _ Hop Hm Hb), (ap_queue _ _ _ _ _ Hap), app_nil_l.
      eapply applied_mono; [done..|]. apply drain_applied; [done..|].
      by apply (sound_commit _ _ _ s i).
    + rewrite (handed_other _ _ _ _ _ Hop) by auto. rewrite app_nil_r.
      destruct (exec_unapplied m o Hq Ho) as [Hla Hc].
      exact (other_applied _ _ _ _ _ _ _ _ _ _ _ Hs Hs' Hg He Hret Hm Hn' Hla Hc Hap).
  - rewrite (handed_other _ _ _ _ _ Hop) by auto. rewrite app_nil_r.
    exact (other_applied _ _ _ _ _ _ _ _ _ _ _ Hs Hs' Hg He Hret Hn Hn' eq_refl eq_refl (Hap _ _ Hn)).
Qed.

Lemma run_applied cl T g s acts s' cs :
  sound cl T g s → run Faithful acts s = Some s' → all_applied cl T g s cs →
  ∃ T' g', sound cl T' g' s' ∧
    all_applied cl T' g' s' (λ i, cs i ++ delivered Faithful acts s i).
Proof.
  revert T g s cs. induction acts as [|a acts IH]; intros T g s cs Hs Hr Hap; cbn in Hr.
  { simplify_eq. exists T, g. split; [done|]. intros i n Hn. rewrite app_nil_r. by apply Hap. }
  destruct (act Faithful s a) as [s1|] eqn:Ha; [|done]. cbn in Hr.
  destruct (act_applied _ _ _ _ _ _ _ Hs Ha Hap) as (T1 & g1 & Hs1 & Hap1).
  destruct (IH _ _ _ _ Hs1 Hr Hap1) as (T2 & g2 & Hs2 & Hap2).
  exists T2, g2. split; [done|]. intros i n Hn. cbn [delivered]. rewrite Ha, app_assoc.
  by apply Hap2.
Qed.

Lemma fresh_cluster_applied s T g :
  fresh_cluster s → all_applied (dom (nodes s)) T g s (λ _, []).
Proof.
  intros [_ Hfresh] i n Hn. destruct (Hfresh _ _ Hn) as (e & ps & c & Hnw & _).
  unfold new in Hnw. case_decide; [|done]. injection Hnw as <-. split; [by left|done..].
Qed.

Lemma run_handed s0 acts s :
  fresh_cluster s0 → run Faithful acts s0 = Some s →
  ∃ T g, sound (dom (nodes s0)) T g s ∧
    all_applied (dom (nodes s0)) T g s (delivered Faithful acts s0).
Proof.
  intros Hf Hr. eapply run_applied in Hr; [|by apply fresh_cluster_sound|by apply fresh_cluster_applied].
  exact Hr.
Qed.

Lemma sound_dom cl T g s : sound cl T g s → dom (nodes s) = cl.
Proof.
  intros (B & Hnet & _). rewrite <-(eo_dom _ _ _ (no_election _ _ _ Hnet)). by rewrite dom_fmap_L.
Qed.

(** Two nodes have the same entries up to where both have applied. *)
Lemma applied_same cl T g s i j ni nj ci cj :
  sound cl T g s → nodes s !! i = Some ni → nodes s !! j = Some nj →
  applied cl T g ni ci → applied cl T g nj cj → last_applied ni ≤ last_applied nj →
  take (N.to_nat (last_applied ni)) (entries (log ni)) =
  take (N.to_nat (last_applied ni)) (entries (log nj)).
Proof.
  intros Hs Hi Hj [Hsi _ _] [Hsj _ _] Hle. pose proof Hs as (B & _ & _ & Hok).
  eapply settled_agree; [by eapply sound_logs|exact Hok|exact Hsi|].
  eapply settled_le; [exact Hsj|done|lia].
Qed.

(** Hence the same commands. *)
Lemma applied_agree cl T g s i j ni nj ci cj :
  sound cl T g s → nodes s !! i = Some ni → nodes s !! j = Some nj →
  applied cl T g ni ci → applied cl T g nj cj → last_applied ni ≤ last_applied nj →
  deliveries (log ni) 0 (N.to_nat (last_applied ni)) =
  deliveries (log nj) 0 (N.to_nat (last_applied ni)).
Proof.
  intros Hs Hi Hj Hai Haj Hle. apply (take_deliveries T T); [by eapply sound_plain..|].
  by eapply applied_same.
Qed.

Lemma handed_prefix cl T g s cs i j ni nj :
  sound cl T g s → all_applied cl T g s cs → nodes s !! i = Some ni → nodes s !! j = Some nj →
  last_applied ni ≤ last_applied nj →
  cs i = deliveries (log ni) 0 (N.to_nat (last_applied ni)) ∧ cs i `prefix_of` cs j.
Proof.
  intros Hs Hap Hi Hj Hle. pose proof (Hap _ _ Hi) as Hai. pose proof (Hap _ _ Hj) as Haj.
  rewrite (ap_handed _ _ _ _ _ Hai), (ap_handed _ _ _ _ _ Haj). split; [done|].
  rewrite (applied_agree _ _ _ _ _ _ _ _ _ _ Hs Hi Hj Hai Haj Hle).
  replace (N.to_nat (last_applied nj)) with
    (N.to_nat (last_applied ni) + N.to_nat (last_applied nj - last_applied ni))%nat by lia.
  rewrite deliveries_app. by apply prefix_app_r.
Qed.

(** Every node feeds its driver the same sequence of commands: in every
    faithful run from fresh nodes, what a node has handed over so far are
    exactly the commands of its log up to [last_applied], in order, none skipped
    and none repeated, and the sequence of a node that has applied less is a
    prefix of the sequence of one that has applied more. *)
Theorem delivered_prefix s0 acts s :
  fresh_cluster s0 → run Faithful acts s0 = Some s →
  ∀ i j ni nj, nodes s !! i = Some ni → nodes s !! j = Some nj →
    last_applied ni ≤ last_applied nj →
    delivered Faithful acts s0 i = deliveries (log ni) 0 (N.to_nat (last_applied ni)) ∧
    delivered Faithful acts s0 i `prefix_of` delivered Faithful acts s0 j.
Proof.
  intros Hf Hr i j ni nj Hi Hj Hle.
  destruct (run_handed _ _ _ Hf Hr) as (T & g & Hs & Hap). by eapply handed_prefix.
Qed.
End Agreement.

(** ** A run *)
Section Example.
#[local] Existing Instance low_rng.

(** ["n1"] leads term 1, replicates a command to ["n2"] and commits it. *)
Definition commit_run : list action :=
  replicate_run ++ [ADrain "n2" None; ADeliver 7; APropose "n1" [x02]].

(** ["n1"] hands it to its driver and tells ["n2"], which does so too; then
    ["n2"] is elected for term 2 with the vote of ["n1"]. *)
Definition succeed_run : list action :=
  [ADrain "n1" None; ADeliver 8; ADrain "n2" None] ++ timeout "n2" ++
  [ADrain "n2" None; ADeliver 11; ADrain "n1" None; ADeliver 13].

Lemma state_machine_safety_witness :
  match run Faithful commit_run trio with
  | Some s1 =>
      match run Faithful succeed_run s1 with
      | Some s2 => ∀ n1 n2, nodes s1 !! "n1" = Some n1 → nodes s2 !! "n2" = Some n2 →
          ∃ e, get (log n1) 1 = Some e ∧ get (log n2) 1 = Some e
      | None => False
      end
  | None => False
  end.
Proof.
  destruct (run Faithful commit_run trio) as [s1|] eqn:Hr1; [|vm_compute in Hr1; discriminate Hr1].
  destruct (run Faithful succeed_run s1) as [s2|] eqn:Hr2.
  2: { rewrite <-(run_after _ commit_run _ _ _ Hr1) in Hr2. vm_compute in Hr2. discriminate Hr2. }
  pose proof (eq_trans (run_after _ commit_run _ _ _ Hr1) Hr2) as Hr.
  intros n1 n2 H1 H2.
  apply (state_machine_safety trio commit_run s1 succeed_run s2 trio_fresh Hr1 Hr2 "n1" "n2" n1 n2
    1 H1 H2); [reflexivity| |].
  - rewrite (observed commit_index _ _ _ _ _ _ 1 Hr1 H1) by reflexivity. discriminate.
  - rewrite (observed commit_index _ _ _ _ _ _ 1 Hr H2) by reflexivity. discriminate.
Defined.

(** The committed entry of ["n1"] survives the election of another leader. *)
Lemma committed_prefix_stable_witness :
  match run Faithful commit_run trio with
  | Some s1 =>
      match run Faithful succeed_run s1 with
      | Some s2 => ∀ n1, nodes s1 !! "n1" = Some n1 → ∃ n2, nodes s2 !! "n1" = Some n2 ∧
          1 ≤ commit_index n2 ∧ get (log n2) 1 = get (log n1) 1
      | None => False
      end
  | None => False
  end.
Proof.
  destruct (run Faithful commit_run trio) as [s1|] eqn:Hr1; [|vm_compute in Hr1; discriminate Hr1].
  destruct (run Faithful succeed_run s1) as [s2|] eqn:Hr2.
  2: { rewrite <-(run_after _ commit_run _ _ _ Hr1) in Hr2. vm_compute in Hr2. discriminate Hr2. }
  intros n1 H1.
  destruct (committed_prefix_stable trio commit_run s1 succeed_run s2 trio_fresh Hr1 Hr2 "n1" n1 H1)
    as (n2 & H2 & [Hle _] & Hk). exists n2.
  assert (1 ≤ commit_index n1) as Hc.
  { rewrite (observed commit_index _ _ _ _ _ _ 1 Hr1 H1) by reflexivity. discriminate. }
  split; [exact H2|]. split; [by etrans|by apply Hk].
Defined.

Lemma leader_completeness_witness :
  match run Faithful commit_run trio with
  | Some s1 =>
      match run Faithful succeed_run s1 with
      | Some s2 => ∀ n1 n2, nodes s1 !! "n1" = Some n1 → nodes s2 !! "n2" = Some n2 →
          current_term n1 = 1 ∧ current_term n2 = 2 ∧ commit_index n1 ≤ last_index (log n2)
      | None => False
      end
  | None => False
  end.
Proof.
  destruct (run Faithful commit_run trio) as [s1|] eqn:Hr1; [|vm_compute in Hr1; discriminate Hr1].
  destruct (run Faithful succeed_run s1) as [s2|] eqn:Hr2.
  2: { rewrite <-(run_after _ commit_run _ _ _ Hr1) in Hr2. vm_compute in Hr2. discriminate Hr2. }
  pose proof (eq_trans (run_after _ commit_run _ _ _ Hr1) Hr2) as Hr.
  intros n1 n2 H1 H2.
  assert (current_term n1 = 1) as Ht1 by (by apply (observed current_term _ _ _ _ _ _ _ Hr1 H1)).
  assert (current_term n2 = 2) as Ht2 by (by apply (observed current_term _ _ _ _ _ _ _ Hr H2)).
  split; [exact Ht1|]. split; [exact Ht2|].
  apply (leader_completeness trio commit_run s1 succeed_run s2 trio_fresh Hr1 Hr2 "n1" "n2" n1 n2
    H1 H2); [by apply (observed role _ _ _ _ _ _ _ Hr H2)|]. rewrite Ht1, Ht2. discriminate.
Defined.

Lemma delivered_prefix_witness :
  match run Faithful (commit_run ++ succeed_run) trio with
  | Some s => ∀ n1 n3, nodes s !! "n1" = Some n1 → nodes s !! "n3" = Some n3 →
      delivered Faithful (commit_run ++ succeed_run) trio "n3" `prefix_of`
      delivered Faithful (commit_run ++ succeed_run) trio "n1"
  | None => False
  end.
Proof.
  destruct (run Faithful (commit_run ++ succeed_run) trio) as [s|] eqn:Hr;
    [|vm_compute in Hr; discriminate Hr].
  intros n1 n3 H1 H3.
  apply (delivered_prefix trio (commit_run ++ succeed_run) s trio_fresh Hr "n3" "n1" n3 n1 H3 H1).
  rewrite (observed last_applied _ _ _ _ _ _ 0 Hr H3) by reflexivity.
  rewrite (observed last_applied _ _ _ _ _ _ 1 Hr H1) by reflexivity. discriminate.
Defined.
End Example.
