(* ===== verification/Liveness.v ===== *)
(** * No reachable state is stuck

    From every state of a faithful run, as long as the logs stay below the
    compaction threshold and the terms below the top of [u64], the run can be
    continued so that a leader is elected, and a leader can get a new command
    committed on all its peers and handed to its driver. The continuations are
    built here: a campaign, a poll of every peer, a proposal, and for each peer
    the exchange that makes its log the leader's. *)

From S2P Require Import Prelude Storage RaftLog RaftState RaftNode NodeTheory NodeProps Widths Bounds ElectionSpec Election Network LogMatching StepFacts Safety SafetyProof Agreement Replication.
Local Open Scope N_scope.
Local Open Scope u64_scope.

Section Liveness.
Context `{RngLaws}.
Implicit Types (n : RaftNode) (s : sys) (i p : NodeId).

(** ** Continuations *)
Definition reach s s' : Prop := ∃ acts, run Faithful acts s = Some s'.

Lemma reach_refl s : reach s s.
Proof. by exists []. Qed.

Lemma reach_trans s1 s2 s3 : reach s1 s2 → reach s2 s3 → reach s1 s3.
Proof.
  intros [acts1 H1] [acts2 H2]. exists (acts1 ++ acts2). by rewrite (run_after _ _ _ _ _ H1).
Qed.

Lemma reach_act s a s' : act Faithful s a = Some s' → reach s s'.
Proof. intros Ha. exists [a]. cbn. by rewrite Ha. Qed.

(** What can be done for one peer can be done for all. *)
Lemma one_by_one (P : list NodeId → sys → Prop) (ps done : list NodeId) s :
  (∀ q done s, P done s → q ∈ ps → q ∉ done → ∃ s', reach s s' ∧ P (q :: done) s') →
  P done s → ∃ s' (done' : list NodeId), reach s s' ∧ P done' s' ∧ ∀ p, p ∈ ps → p ∈ done'.
Proof.
  intros Hone HP.
  assert (∀ qs : list NodeId, (∀ p, p ∈ qs → p ∈ ps) →
    ∃ s' (done' : list NodeId), reach s s' ∧ P done' s' ∧ ∀ p, p ∈ qs → p ∈ done') as Hall.
  { intros qs. induction qs as [|q qs IH]; intros Hqs.
    { exists s, done. split; [apply reach_refl|]. split; [done|]. intros p Hp. by apply not_elem_of_nil in Hp. }
    destruct IH as (s1 & d1 & Hre1 & HP1 & Hd1); [set_solver|].
    destruct (decide (q ∈ d1)) as [Hq|Hq].
    { exists s1, d1. split; [done|]. split; [done|]. set_solver. }
    destruct (Hone q d1 s1 HP1) as (s2 & Hre2 & HP2); [set_solver|done|].
    exists s2, (q :: d1). split; [by eapply reach_trans|]. split; [done|]. set_solver. }
  by apply Hall.
Qed.

(** ** States of a run *)

(** What every node of a faithful run satisfies. *)
Record well n : Prop := {
  wl_ok : node_ok n;
  wl_timers : timers_ok n;
  wl_typed : u64_node n;
  wl_next : ∀ p, 0 < progress_next_index (progress n) p;
}.

Lemma next_index_set pr p q x :
  progress_next_index (set_next_index pr p x) q =
  if decide (p = q) then x else progress_next_index pr q.
Proof. unfold progress_next_index. cbn. rewrite lookup_insert. by case_decide. Qed.

Lemma next_index_reset pr ps x q :
  0 < x +w 1 → 0 < progress_next_index (progress_reset pr ps x) q.
Proof.
  intros Hx. unfold progress_reset.
  assert (∀ p0 : LeaderProgress, 0 < progress_next_index p0 q → 0 < progress_next_index (foldl (λ (p : LeaderProgress) peer,
    mkProgress (<[peer := x +w 1]> (next_index p)) (<[peer := 0]> (match_index p))) p0 ps) q) as Hf.
  { induction ps as [|p ps IH]; intros p0 Hp0; [done|]. cbn. apply IH.
    unfold progress_next_index in *. cbn. rewrite lookup_insert. by case_decide. }
  apply Hf. unfold progress_next_index. cbn. by rewrite lookup_empty.
Qed.

(** No operation makes a next index 0. *)
Lemma exec_next n o q :
  node_ok n → (∀ p, 0 < progress_next_index (progress n) p) →
  (∀ from m, o = OpStep from (MAppendEntriesReply m) → aer_success m = true →
     aer_match_index m < u64_max) →
  0 < progress_next_index (progress (exec o n)) q.
Proof.
  intros Hok Hpos Hre.
  assert (∀ x, x < u64_max → 0 < x +w 1) as Hw.
  { intros x Hx. rewrite wadd_small by (unfold two64, u64_max in *; lia). lia. }
  pose proof (Hw _ (ok_bound _ Hok)) as Hlast.
  assert (∀ n1, log n1 = log n → 0 < progress_next_index (progress (become_leader n1)) q) as Hlead.
  { intros n1 Hl. rewrite become_leader_eq. cbn. apply next_index_reset. by rewrite Hl. }
  destruct o as [|from msg|cmd|]; cbn [exec].
  - unfold tick. destruct (role n); cbv zeta; case_decide; try apply Hpos;
      [rewrite become_candidate_eq; cbv zeta; case_decide; [by apply Hlead|apply Hpos]..|].
    rewrite broadcast_append_eq. apply Hpos.
  - rewrite step_eq. destruct (step_down_keeps msg n) as (Hl & _ & _ & Hp & _).
    revert Hpos Hlead Hp Hl. generalize (step_down msg n). intros n1 Hpos Hlead Hp Hl.
    rewrite <-Hp in Hpos. destruct msg as [m|m|m|m|m|m]; cbn [dispatch].
    + unfold handle_request_vote. repeat case_match; simplify_eq; apply Hpos.
    + unfold handle_request_vote_reply, votes_record. case_decide; [apply Hpos|].
      destruct (rvr_vote_granted m); [|apply Hpos]. cbv zeta.
      case_decide; [by apply Hlead|apply Hpos].
    + unfold handle_append_entries. case_decide; [apply Hpos|]. cbv zeta.
      destruct (matches _ _ _); cbn [splice]; [case_decide|]; apply Hpos.
    + unfold handle_append_entries_reply. case_decide; [apply Hpos|].
      destruct (aer_success m) eqn:Hs; cbv zeta.
      * rewrite advance_commit_eq. cbn [progress set_commit_index set_progress].
        rewrite next_index_set. case_decide; [|apply Hpos]. apply Hw. by eapply Hre.
      * rewrite send_append_eq. cbn [progress set_outgoing set_progress].
        rewrite next_index_set. case_decide; [lia|apply Hpos].
    + unfold handle_install_snapshot. case_decide; apply Hpos.
    + unfold handle_install_snapshot_reply. case_decide; [apply Hpos|]. cbv zeta.
      cbn [progress set_progress]. rewrite next_index_set. case_decide; [|apply Hpos].
      cbn [log set_progress]. rewrite Hl. apply Hw. destruct Hok. lia.
  - unfold propose. case_decide; [apply Hpos|]. cbn [append fst].
    rewrite advance_commit_eq, broadcast_append_eq. apply Hpos.
  - destruct (take_ready_shape n) as (la & l & -> & _). apply Hpos.
Qed.

Context (cl : gset NodeId).

Record healthy s : Prop := {
  hl_sound : ∃ T g, sound cl T g s;
  hl_well : ∀ i n, nodes s !! i = Some n → well n;
  hl_mesh : ∀ i n p, nodes s !! i = Some n → p ≠ i → is_Some (nodes s !! p) → p ∈ peers n;
  hl_packets : typed_net s;
}.

(** The match index of a reply in flight is an index of the leader's log. *)
Lemma sound_reply_bound T g s a i from m :
  sound cl T g s → op_of s a = Some (i, OpStep from (MAppendEntriesReply m)) →
  aer_success m = true → aer_match_index m < u64_max.
Proof.
  intros (B & _ & Hch & Hok) Hop Hsu. destruct (op_of_packet _ _ _ _ _ Hop) as (p & Hp & Hf & Ht & Hm).
  assert (message_safe cl T g from i (MAppendEntriesReply m)) as Hms.
  { apply (sf_message _ _ _ _ Hok). right. by exists p. }
  destruct (sf_ack _ _ _ _ Hok _ _ _ (Hms Hsu)) as (_ & L & n & HT & Hx & _).
  destruct (co_history _ _ _ _ Hch _ _ HT) as (_ & _ & Hb & _). unfold len64 in Hb. lia.
Qed.

Lemma healthy_act s a s' : healthy s → act Faithful s a = Some s' → healthy s'.
Proof.
  intros Hh Ha. pose proof Hh as [(T & g & Hs) Hw Hmesh Hpk].
  destruct (act_inv _ _ _ _ Ha) as (i & o & n & Hop & Hn & Hob & Heq).
  pose proof (op_of_typed _ _ _ _ Hpk Hop) as Huo. destruct (Hw _ _ Hn) as [Hok Htm Hu Hnx].
  split.
  - destruct (act_sound _ _ _ _ _ _ Hs Ha) as (T' & g' & _ & _ & ? & _). by exists T', g'.
  - rewrite Heq. cbn. intros j m [[<- <-]|[_ Hj]]%lookup_insert_Some; [|by eapply Hw]. split.
    + apply exec_ok; [done|]. by eapply sound_op_ok.
    + by apply timers_exec.
    + by apply u64_exec.
    + intros p. apply exec_next; [done..|]. intros from m ->. by eapply sound_reply_bound.
  - rewrite Heq. cbn. intros j m p Hj Hpj [mp Hp].
    assert (is_Some (nodes s !! p)) as Hp'.
    { apply lookup_insert_Some in Hp as [[<- _]|[_ Hp]]; by eexists. }
    apply lookup_insert_Some in Hj as [[<- <-]|[_ Hj]]; [|by eapply Hmesh].
    destruct (exec_identity n o) as [_ ->]. by eapply Hmesh.
  - rewrite Heq. cbn. intros p [Hp|Hp]%elem_of_app; [by apply Hpk|]. by eapply sent_typed.
Qed.

Lemma healthy_run acts s s' : healthy s → run Faithful acts s = Some s' → healthy s'.
Proof.
  revert s. induction acts as [|a acts IH]; intros s Hh Hr; cbn in Hr; [by simplify_eq|].
  destruct (act Faithful s a) as [s1|] eqn:Ha; [|done]. by eapply IH, Hr; eapply healthy_act.
Qed.

(** ** States that may go on *)
Context (R : N).

(** Room for a log up to index [R] that is not compacted. *)
Record able n : Prop := {
  ab_well : well n;
  ab_patience : election_timeout_max (config n) < u64_max;
  ab_room : last_index (log n) ≤ R;
  ab_threshold : R < snapshot_threshold (config n);
}.

Lemma ab_ok n : able n → node_ok n.
Proof. intros Hab. apply Hab. Qed.

Record calm s : Prop := {
  cm_healthy : healthy s;
  cm_able : ∀ i n, nodes s !! i = Some n → able n;
}.

Lemma cm_mesh s i n p :
  calm s → nodes s !! i = Some n → p ≠ i → is_Some (nodes s !! p) → p ∈ peers n.
Proof. intros Hc. apply Hc. Qed.

Lemma calm_id s i n : calm s → nodes s !! i = Some n → id n = i.
Proof.
  intros [[(T & g & B & Hnet & _) _ _ _] _] Hn.
  destruct (eo_views _ _ _ (no_election _ _ _ Hnet) i (view_of n)) as [Hi _]; [|exact Hi].
  by rewrite lookup_fmap, Hn.
Qed.

Lemma calm_peers s i n : calm s → nodes s !! i = Some n → NoDup (peers n) ∧ (i ∉ peers n) ∧
  ∀ p, p ∈ peers n → is_Some (nodes s !! p).
Proof.
  intros [[(T & g & Hs) _ _ _] _] Hn. pose proof (sound_dom _ _ _ _ Hs) as Hdom.
  destruct Hs as (B & _ & _ & Hok).
  destruct (sf_peers _ _ _ _ Hok _ _ Hn) as (_ & Hnd & Hps). split; [done|]. split.
  - intros Hi. by destruct (Hps i Hi).
  - intros p Hp. apply elem_of_dom. rewrite Hdom. by apply Hps.
Qed.

Lemma calm_step s a i o n :
  calm s → op_of s a = Some (i, o) → nodes s !! i = Some n → obeys Faithful n o →
  last_index (log (exec o n)) ≤ R →
  let s' := mkSys (<[i := exec o n]> (nodes s)) (net s ++ sent a i n) in reach s s' ∧ calm s'.
Proof.
  intros [Hh Hab] Hop Hn Hob Hr s'.
  assert (act Faithful s a = Some s') as Ha.
  { unfold act. rewrite Hop. cbn. rewrite Hn. cbn. by rewrite decide_True. }
  pose proof (healthy_act _ _ _ Hh Ha) as Hh'.
  split; [by eapply reach_act|]. split; [done|].
  intros j m Hj. pose proof (hl_well _ Hh' _ _ Hj) as Hw. cbn in Hj.
  apply lookup_insert_Some in Hj as [[<- <-]|[_ Hj]]; [|by eapply Hab].
  destruct (Hab _ _ Hn) as [_ Hp _ Hth]. by split; rewrite ?exec_config.
Qed.

Lemma calm_deliver s (p : packet) n :
  calm s → p ∈ net s → nodes s !! p_to p = Some n → obeys Faithful n (OpStep (p_from p) (p_msg p)) →
  last_index (log (step (p_from p) (p_msg p) n)) ≤ R →
  let s' := mkSys (<[p_to p := step (p_from p) (p_msg p) n]> (nodes s)) (net s) in
  reach s s' ∧ calm s'.
Proof.
  intros Hc Hp Hn Hob Hr. apply list_elem_of_lookup_1 in Hp as [k Hk].
  destruct (calm_step s (ADeliver k) (p_to p) (OpStep (p_from p) (p_msg p)) n) as [Hre Hca]; try done.
  { cbn. by rewrite Hk. }
  cbn [sent exec] in Hre, Hca. by rewrite app_nil_r in Hre, Hca.
Qed.

(** A drain below the threshold does not compact. *)
Definition drained n : RaftNode :=
  set_committed [] (set_outgoing [] (set_last_applied (commit_index n) n)).

Lemma able_drained n : able n → (take_ready n).1 = drained n.
Proof.
  intros [[Hok _ _ _] _ Hr Ht]. pose proof Hok as [_ _ Ha Hc Hb].
  unfold take_ready. rewrite apply_committed_eq by lia.
  unfold maybe_compact. cbn [config last_applied log set_committed set_last_applied].
  rewrite decide_False by lia. by rewrite N.max_r by lia.
Qed.

Lemma drain_obeys n : able n → obeys Faithful n OpTakeReady.
Proof. intros Hab. split; [done|]. split; [|done]. cbn [quiet exec]. by rewrite able_drained. Qed.

Lemma calm_drain s i n :
  calm s → nodes s !! i = Some n →
  let s' := mkSys (<[i := drained n]> (nodes s))
              (net s ++ ((λ e, mkPacket i (to e) (message e)) <$> outgoing n)) in
  act Faithful s (ADrain i None) = Some s' ∧ reach s s' ∧ calm s'.
Proof.
  intros Hc Hn s'. pose proof (cm_able _ Hc _ _ Hn) as Hab.
  assert (act Faithful s (ADrain i None) = Some s') as Ha.
  { unfold act. cbn [op_of mbind option_bind fst snd]. rewrite Hn. cbn [mbind option_bind].
    rewrite decide_True by (by apply drain_obeys). cbn [exec sent].
    by rewrite ready_messages_outgoing, able_drained. }
  split; [done|]. destruct (calm_step s (ADrain i None) i OpTakeReady n) as [Hre Hca]; try done.
  - by apply drain_obeys.
  - cbn [exec]. rewrite able_drained by done. apply Hab.
  - cbn [exec sent] in Hre, Hca. by rewrite ready_messages_outgoing, able_drained in Hre, Hca.
Qed.

(** [k] ticks of one node. *)
Lemma calm_ticks s i n k :
  calm s → nodes s !! i = Some n →
  (∀ k', (k' < k)%nat → current_term (Nat.iter k' tick n) < u64_max) →
  let s' := mkSys (<[i := Nat.iter k tick n]> (nodes s)) (net s) in reach s s' ∧ calm s'.
Proof.
  intros Hc Hn. induction k as [|k IH]; intros Ht s'.
  { subst s'. cbn. rewrite insert_id by done. destruct s. by split; [apply reach_refl|]. }
  destruct IH as [Hre Hca]; [intros k' Hk'; apply Ht; lia|].
  destruct (calm_step _ (ATick i) i OpTick (Nat.iter k tick n) Hca) as [Hre' Hca'];
    [done|apply lookup_insert_eq| | |].
  - split; [apply Ht; lia|done].
  - cbn [exec]. rewrite tick_log. apply (cm_able _ Hca i). apply lookup_insert_eq.
  - cbn [exec sent nodes net] in Hre', Hca'. rewrite insert_insert_eq, app_nil_r in Hre', Hca'.
    split; [by eapply reach_trans|done].
Qed.

(** Logs of such states have no snapshot. *)
Definition plain_zero (l : RaftLog) : Prop := snapshot_index l = 0 ∧ snapshot_term l = 0.

Lemma plain_zero_term l : plain_zero l → term_at l 0 = Some 0.
Proof. intros [Hs Ht]. unfold term_at. by rewrite decide_True, Ht. Qed.

Lemma calm_plain s i n : calm s → nodes s !! i = Some n → plain_zero (log n).
Proof.
  intros [[(T & g & Hs) _ _ _] _] Hn.
  by destruct (sound_plain _ _ _ _ _ _ Hs Hn) as (? & ? & _).
Qed.

(** ** Campaigns *)

(** Candidate with [done] among its votes but no majority yet, or leader. *)
Definition standing_with (done : list NodeId) n : Prop :=
  role n = Leader ∨
  (role n = Candidate ∧ (∀ p, p ∈ done → p ∈ votes n) ∧ (size (votes n) < majority n)%nat).

Lemma campaign_outcome n :
  current_term n < u64_max →
  let n' := become_candidate n in
  current_term n' = current_term n + 1 ∧ log n' = log n ∧ peers n' = peers n ∧
  standing_with [id n] n' ∧
  ∀ p, p ∈ peers n → mkEnvelope p (MRequestVote (mkRequestVote (current_term n + 1) (id n)
    (last_index (log n)) (last_term (log n)))) ∈ outgoing n'.
Proof.
  intros Ht n'. subst n'.
  assert (current_term n +w 1 = current_term n + 1) as Hw.
  { apply wadd_small. unfold u64_max, two64 in *. lia. }
  rewrite become_candidate_eq. cbv zeta. case_decide as Hm.
  - rewrite become_leader_eq. cbn. rewrite Hw. split_and!; try done; [by left|].
    unfold majority, cluster_size in Hm.
    pose proof (Nat.div_mod_eq (length (peers n) + 1) 2).
    pose proof (Nat.mod_upper_bound (length (peers n) + 1) 2).
    destruct (peers n); [|cbn in *; lia]. intros p Hp. by apply not_elem_of_nil in Hp.
  - cbn -[majority]. rewrite Hw. split_and!; try done.
    + right. split; [done|]. split; [set_solver|]. cbn -[majority]. rewrite size_singleton.
      change (majority (set_outgoing _ _)) with (majority n). lia.
    + intros p Hp. apply elem_of_app. right. apply list_elem_of_fmap. by exists p.
Qed.

(** The peers of [i] asked for their votes. *)
Definition asked i t L (ps : list NodeId) s : Prop :=
  ∀ p, p ∈ ps →
    mkPacket i p (MRequestVote (mkRequestVote t i (last_index L) (last_term L))) ∈ net s.

Lemma calm_campaign s i n :
  calm s → nodes s !! i = Some n → role n ≠ Leader → current_term n < u64_max →
  ∃ s' n', reach s s' ∧ calm s' ∧ (∀ j, j ≠ i → nodes s' !! j = nodes s !! j) ∧
    nodes s' !! i = Some n' ∧ current_term n' = current_term n + 1 ∧ log n' = log n ∧
    peers n' = peers n ∧ standing_with [i] n' ∧
    asked i (current_term n + 1) (log n) (peers n) s'.
Proof.
  intros Hc Hn Hr Ht. pose proof (calm_id _ _ _ Hc Hn) as Hid.
  pose proof (cm_able _ Hc _ _ Hn) as [[_ [_ Htm He _] _ _] Hp _ _].
  destruct (calm_ticks s i n (patience n) Hc Hn) as [Hre Hca].
  { intros k Hk. destruct (decide (k = 0)%nat) as [->|Hz]; [done|].
    rewrite idle_ticks; [done|done| |]; unfold patience, two64, u64_max in *; lia. }
  destruct (campaign_ticks n Hr He ltac:(lia)) as (n0 & Hn0 & Heq).
  rewrite Hn0 in Hre, Hca.
  destruct (campaign_outcome n0) as (Ht' & Hl' & Hp' & Hst & Hout); [by rewrite Heq|].
  assert (current_term n0 = current_term n ∧ log n0 = log n ∧ peers n0 = peers n ∧ id n0 = i)
    as (H1 & H2 & H3 & H4) by (rewrite Heq; split_and!; [reflexivity..|exact Hid]).
  rewrite H1, ?H2, ?H3, ?H4 in *. clear Hn0 Heq H1 H2 H3 H4.
  revert Hre Hca Ht' Hl' Hp' Hst Hout. generalize (become_candidate n0) as n1.
  intros n1 Hre Hca Ht' Hl' Hp' Hst Hout.
  destruct (calm_drain _ i _ Hca (lookup_insert_eq _ _ _)) as (_ & Hre' & Hca').
  eexists _, _. split; [by eapply reach_trans|]. split; [exact Hca'|]. cbn [nodes net].
  split; [intros j Hj; by rewrite !lookup_insert_ne|]. rewrite lookup_insert_eq.
  split; [reflexivity|]. cbn [current_term log peers drained set_committed set_outgoing set_last_applied].
  split; [done|]. split; [done|]. split; [done|]. split; [exact Hst|].
  intros p Hpp. apply elem_of_app. right. apply list_elem_of_fmap.
  eexists. split; [|by apply Hout]. done.
Qed.

(** ** The poll *)
Lemma vote_granted from m n :
  current_term n < rv_term m →
  candidate_is_up_to_date n (rv_last_log_index m) (rv_last_log_term m) = true →
  let n' := step from (MRequestVote m) n in
  role n' = Follower ∧ current_term n' = rv_term m ∧ log n' = log n ∧
  mkEnvelope (rv_candidate_id m) (MRequestVoteReply (mkRequestVoteReply (rv_term m) (id n) true))
    ∈ outgoing n'.
Proof.
  intros Ht Hup n'. subst n'. rewrite step_eq. cbn [dispatch]. unfold step_down. cbn [message_term].
  rewrite decide_True by done. unfold handle_request_vote. cbn [current_term become_follower
    reset_election_timer set_current_term set_role set_voted_for set_leader_id set_election_elapsed
    set_rng set_election_timeout]. rewrite decide_True by lia.
  change (candidate_is_up_to_date (become_follower _ _ n)) with (candidate_is_up_to_date n).
  change (can_vote (become_follower _ _ n) _) with true. rewrite Hup. cbn.
  split_and!; try done. apply elem_of_app. right. by left.
Qed.

Lemma vote_counted from r n done :
  standing_with done n → rvr_term r = current_term n → rvr_vote_granted r = true →
  let n' := step from (MRequestVoteReply r) n in
  standing_with (rvr_voter_id r :: done) n' ∧ current_term n' = current_term n ∧
  log n' = log n ∧ peers n' = peers n.
Proof.
  intros Hst Ht Hg n'. subst n'. rewrite step_eq. unfold step_down. cbn [message_term dispatch].
  rewrite decide_False by lia. unfold handle_request_vote_reply, votes_record.
  destruct Hst as [Hl|(Hr & Hv & Hsz)].
  - rewrite decide_True by (left; congruence). by split; [left|].
  - rewrite decide_False by naive_solver. rewrite Hg. cbv zeta.
    case_decide as Hm; [rewrite become_leader_eq; by split; [left|]|].
    split; [|done]. right. split; [done|]. split; [set_solver|]. cbn -[majority].
    change (majority (set_votes _ n)) with (majority n) in *. lia.
Qed.

Record polled i t L ps (done : list NodeId) s : Prop := {
  po_calm : calm s;
  po_candidate : ∃ n, nodes s !! i = Some n ∧ current_term n = t ∧ log n = L ∧ peers n = ps ∧
    standing_with (i :: done) n;
  po_asked : asked i t L ps s;
  po_voter : ∀ p n, p ∈ ps → nodes s !! p = Some n → current_term n ≤ t ∧
    (p ∉ done → current_term n < t ∧
       candidate_is_up_to_date n (last_index L) (last_term L) = true);
}.

Lemma poll_one i t L ps done s p :
  polled i t L ps done s → p ∈ ps → p ∉ done →
  ∃ s', reach s s' ∧ polled i t L ps (p :: done) s'.
Proof.
  intros [Hc (c & Hi & Htc & Hlc & Hpc & Hst) Hask Hvot] Hp Hnd.
  destruct (calm_peers _ _ _ Hc Hi) as (_ & Hni & Hall). rewrite Hpc in Hni, Hall.
  destruct (Hall p Hp) as [n Hn]. assert (p ≠ i) as Hne by congruence.
  destruct (Hvot p n Hp Hn) as [_ Hgr]. destruct (Hgr Hnd) as [Ht Hup].
  pose proof (cm_able _ Hc _ _ Hn) as Hab. pose proof (calm_id _ _ _ Hc Hn) as Hid.
  (* the request *)
  set (m := mkRequestVote t i (last_index L) (last_term L)).
  destruct (vote_granted i m n Ht Hup) as (Hr1 & Ht1 & Hl1 & Ho1).
  destruct (calm_deliver s (mkPacket i p (MRequestVote m)) n Hc (Hask p Hp) Hn) as [Hre1 Hc1].
  { split; [cbn; lia|done]. }
  { cbn [p_from p_msg]. rewrite Hl1. apply Hab. }
  cbn [p_from p_msg p_to] in Hre1, Hc1. revert Hr1 Ht1 Hl1 Ho1 Hre1 Hc1.
  generalize (step i (MRequestVote m) n) as n1. intros n1 Hr1 Ht1 Hl1 Ho1 Hre1 Hc1.
  (* the answer is sent *)
  destruct (calm_drain _ p n1 Hc1 (lookup_insert_eq _ _ _)) as (_ & Hre2 & Hc2).
  cbn [nodes net] in Hre2, Hc2. rewrite insert_insert_eq in Hre2, Hc2.
  set (n2 := drained n1) in Hre2, Hc2. rewrite Hid in Ho1. cbn in Ho1.
  match type of Hc2 with calm ?x => set (s2 := x) in Hre2, Hc2 end.
  assert (mkPacket p i (MRequestVoteReply (mkRequestVoteReply t p true)) ∈ net s2) as Hreply.
  { cbn. apply elem_of_app. right. apply list_elem_of_fmap. eexists. split; [|exact Ho1]. done. }
  assert (nodes s2 !! i = Some c) as Hi2 by (cbn; by rewrite lookup_insert_ne).
  (* and counted *)
  destruct (vote_counted p (mkRequestVoteReply t p true) c (i :: done) Hst (eq_sym Htc) eq_refl)
    as (Hst3 & Ht3 & Hl3 & Hp3).
  destruct (calm_deliver s2 _ c Hc2 Hreply Hi2) as [Hre3 Hc3].
  { by split. }
  { cbn [p_from p_msg]. rewrite Hl3. apply (cm_able _ Hc _ _ Hi). }
  cbn [p_from p_msg p_to rvr_voter_id] in *. eexists. split; [do 2 (eapply reach_trans; [done|]); done|].
  split; [done| | |]; cbn [nodes net].
  - eexists. rewrite lookup_insert_eq. split; [done|]. rewrite Ht3, Hl3, Hp3.
    split_and!; try done. destruct Hst3 as [?|(? & Hv & ?)]; [by left|right].
    split_and!; [done| |done]. intros q Hq. apply Hv. set_solver.
  - intros q Hq. apply elem_of_app. left. by apply Hask.
  - intros q m' Hq Hm'. assert (q ≠ i) as Hqi by congruence.
    rewrite lookup_insert_ne in Hm' by done.
    cbn [s2 nodes] in Hm'. apply lookup_insert_Some in Hm' as [[<- <-]|[Hqp Hm']].
    + split; [change (current_term n2) with (current_term n1); rewrite Ht1; cbn; lia|]. set_solver.
    + destruct (Hvot q m' Hq Hm') as [? Hq']. split; [done|]. intros Hqd. apply Hq'. set_solver.
Qed.

Lemma poll_all i t L ps done s :
  polled i t L ps done s → ∃ s' (done' : list NodeId), reach s s' ∧ polled i t L ps done' s' ∧
    ∀ p, p ∈ ps → p ∈ done'.
Proof. apply (one_by_one (polled i t L ps)). intros q d s1 HP Hq Hd. by eapply poll_one. Qed.

(** Whoever has asked all its peers leads. *)
Lemma polled_leads i t L ps done s n :
  polled i t L ps done s → (∀ p, p ∈ ps → p ∈ done) → nodes s !! i = Some n → role n = Leader.
Proof.
  intros [Hc (c & Hi & _ & _ & Hpc & Hst) _ _] Hall Hn. rewrite Hn in Hi. injection Hi as <-.
  destruct Hst as [?|(_ & Hv & Hsz)]; [done|exfalso].
  destruct (calm_peers _ _ _ Hc Hn) as (Hnd & Hni & _).
  assert (list_to_set (i :: peers n) ⊆ votes n) as Hsub.
  { intros p Hp%elem_of_list_to_set. apply Hv. set_solver. }
  apply subseteq_size in Hsub. rewrite size_list_to_set in Hsub by (by constructor).
  cbn in Hsub. unfold majority, cluster_size in Hsz.
  pose proof (Nat.div_mod_eq (length (peers n) + 1) 2). lia.
Qed.

(** ** Electing a leader *)

(** [i] leads, and nobody is in a later term. *)
Record leading s i n : Prop := {
  ld_calm : calm s;
  ld_node : nodes s !! i = Some n;
  ld_role : role n = Leader;
  ld_terms : ∀ p m, nodes s !! p = Some m → current_term m ≤ current_term n;
}.

(** The log of [n] is as fresh as any. *)
Definition freshest s n : Prop :=
  ∀ p m, nodes s !! p = Some m →
    candidate_is_up_to_date m (last_index (log n)) (last_term (log n)) = true.

Lemma elect s i n :
  calm s → nodes s !! i = Some n → role n ≠ Leader → current_term n < u64_max →
  (∀ p m, nodes s !! p = Some m → current_term m ≤ current_term n) → freshest s n →
  ∃ s' n', reach s s' ∧ leading s' i n' ∧ log n' = log n.
Proof.
  intros Hc Hn Hr Ht Hmax Hfr.
  destruct (calm_campaign s i n Hc Hn Hr Ht)
    as (s1 & n1 & Hre1 & Hc1 & Hoth & Hn1 & Ht1 & Hl1 & Hp1 & Hst1 & Hask).
  assert (polled i (current_term n + 1) (log n) (peers n) [] s1) as Hpo.
  { split; [done| |done|].
    - by exists n1.
    - intros p m Hp Hm. destruct (calm_peers _ _ _ Hc Hn) as (_ & Hni & _).
      rewrite Hoth in Hm by congruence. pose proof (Hmax _ _ Hm). split; [lia|].
      intros _. split; [lia|by eapply Hfr]. }
  destruct (poll_all _ _ _ _ _ _ Hpo) as (s2 & done' & Hre2 & Hpo2 & Hall).
  pose proof Hpo2 as [Hc2 (n2 & Hn2 & Ht2 & Hl2 & Hp2 & _) _ Hvot].
  exists s2, n2. split; [by eapply reach_trans|]. split; [|done].
  split; [done|done|by eapply polled_leads|].
  intros p m Hm. rewrite Ht2. destruct (decide (p = i)) as [->|Hne].
  { rewrite Hn2 in Hm. injection Hm as <-. lia. }
  assert (p ∈ peers n) as Hp.
  { rewrite <-Hp2. by eapply (cm_mesh _ i _ _ Hc2). }
  by destruct (Hvot p m Hp Hm).
Qed.

(** Freshness is a total preorder on logs that fit in [u64]. *)
Definition freshness n : N := last_term (log n) * two64 + last_index (log n).

Lemma fresher_than n m :
  last_index (log n) < two64 → last_index (log m) < two64 → freshness m ≤ freshness n →
  candidate_is_up_to_date m (last_index (log n)) (last_term (log n)) = true.
Proof.
  unfold freshness, candidate_is_up_to_date. intros Hn Hm Hle. apply bool_decide_eq_true_2.
  destruct (N.lt_trichotomy (last_term (log m)) (last_term (log n))) as [?|[He|Hgt]]; [by left| |].
  - right. split; [done|]. rewrite He in Hle. lia.
  - exfalso. nia.
Qed.

Lemma hears_request from m n :
  current_term n < rv_term m →
  let n' := step from (MRequestVote m) n in
  role n' = Follower ∧ current_term n' = rv_term m ∧ log n' = log n.
Proof.
  intros Ht n'. subst n'. rewrite step_eq. cbn [dispatch]. unfold step_down. cbn [message_term].
  rewrite decide_True by done. unfold handle_request_vote.
  destruct (decide _); [destruct (_ && _)|]; done.
Qed.

Lemma some_leader s i0 n0 :
  calm s → nodes s !! i0 = Some n0 → (∀ i n, nodes s !! i = Some n → current_term n + 2 < u64_max) →
  ∃ s' i n, reach s s' ∧ leading s' i n.
Proof.
  intros Hc Hn0 Hroom.
  destruct (map_max current_term (nodes s)) as [He|(j & nj & Hj & Hmax)].
  { by rewrite He, lookup_empty in Hn0. }
  destruct (map_max freshness (nodes s)) as [He|(i & n & Hi & Hfresh)].
  { by rewrite He, lookup_empty in Hn0. }
  assert (∀ p m, nodes s !! p = Some m → last_index (log m) < two64) as Hidx.
  { intros p m Hm. pose proof (ok_bound _ (ab_ok _ (cm_able _ Hc _ _ Hm))).
    unfold u64_max, two64 in *. lia. }
  assert (∀ p m, nodes s !! p = Some m →
    candidate_is_up_to_date m (last_index (log n)) (last_term (log n)) = true) as Hup.
  { intros p m Hm. apply fresher_than; [by eapply Hidx..|by eapply Hfresh]. }
  pose proof (Hroom _ _ Hj) as Htj. destruct (decide (role nj = Leader)) as [Hlj|Hlj].
  { exists s, j, nj. split; [apply reach_refl|]. by split. }
  destruct (decide (j = i)) as [->|Hne].
  { rewrite Hj in Hi. injection Hi as ->.
    destruct (elect s i n Hc Hj Hlj) as (s' & n' & Hre & Hld & _); [lia|done|done|].
    by exists s', i, n'. }
  (* the node of the latest term makes the one with the freshest log catch up *)
  destruct (calm_campaign s j nj Hc Hj Hlj) as
    (s1 & n1 & Hre1 & Hc1 & Hoth & Hn1 & Ht1 & Hl1 & _ & _ & Hask); [lia|].
  assert (nodes s1 !! i = Some n) as Hi1 by (by rewrite Hoth).
  assert (i ∈ peers nj) as Hin by (eapply (cm_mesh _ j _ _ Hc); [done|done|by eexists]).
  specialize (Hask i Hin). pose proof (Hmax _ _ Hi) as Hti.
  set (m := mkRequestVote _ _ _ _) in Hask.
  destruct (hears_request j m n) as (Hr2 & Ht2 & Hl2); [cbn; lia|].
  destruct (calm_deliver s1 (mkPacket j i (MRequestVote m)) n Hc1 Hask Hi1) as [Hre2 Hc2].
  { split; [cbn; lia|done]. }
  { cbn [p_from p_msg]. rewrite Hl2. by apply (cm_able _ Hc _ _ Hi). }
  cbn [p_from p_msg p_to] in Hre2, Hc2. revert Hr2 Ht2 Hl2 Hre2 Hc2.
  generalize (step j (MRequestVote m) n) as n2. cbn [rv_term m]. intros n2 Hr2 Ht2 Hl2 Hre2 Hc2.
  match type of Hc2 with calm ?x => set (s2 := x) in * end.
  assert (∀ p q, nodes s2 !! p = Some q → current_term q ≤ current_term nj + 1 ∧
    candidate_is_up_to_date q (last_index (log n)) (last_term (log n)) = true) as Hq.
  { intros p q Hp. cbn in Hp. apply lookup_insert_Some in Hp as [[<- <-]|[Hpi Hp]].
    - split; [lia|]. unfold candidate_is_up_to_date. rewrite Hl2. by eapply Hup.
    - destruct (decide (p = j)) as [->|Hpj].
      + rewrite Hn1 in Hp. injection Hp as <-. split; [lia|]. unfold candidate_is_up_to_date.
        rewrite Hl1. by eapply Hup.
      + rewrite Hoth in Hp by done. pose proof (Hmax _ _ Hp). split; [lia|]. by eapply Hup. }
  destruct (elect s2 i n2 Hc2) as (s' & n' & Hre & Hld & _).
  - cbn. apply lookup_insert_eq.
  - congruence.
  - lia.
  - intros p q Hp. rewrite Ht2. by apply (Hq p q Hp).
  - intros p q Hp. rewrite Hl2. by apply (Hq p q Hp).
  - exists s', i, n'. split; [|done]. by do 2 (eapply reach_trans; [done|]).
Qed.

(** ** Replicating a log *)

(** No index above the commit index could be committed now. *)
Definition tight n : Prop :=
  ∀ k, commit_index n < k ≤ last_index (log n) → ¬ quorum_at n k.

Lemma tight_same n1 n2 :
  commit_index n2 = commit_index n1 → log n2 = log n1 → current_term n2 = current_term n1 →
  peers n2 = peers n1 → match_index (progress n2) = match_index (progress n1) → tight n1 → tight n2.
Proof.
  intros Hc Hl Ht Hp Hm H1 k Hk [Hq1 Hq2]. rewrite Hc, Hl in Hk. apply (H1 k Hk).
  unfold quorum_at, majority, replicas, cluster_size, matched in *.
  by rewrite Hl, Ht, Hp, Hm in *.
Qed.

Lemma advance_tight n : role n = Leader → commit_index n < u64_max → tight (advance_commit n).
Proof.
  intros Hr Hb. rewrite advance_commit_eq. intros k Hk Hq.
  destruct (next_commit_cases n Hb) as [_ Hmax]. by apply (Hmax Hr k Hk).
Qed.

(** A packet offers [p] the entries of the leader's log [L] from index [x]. *)
Definition offered i t (L : RaftLog) p (x : N) s : Prop :=
  ∃ c, mkPacket i p (MAppendEntries (mkAppendEntries t i (x - 1)
    (default 0 (term_at L (x - 1))) (entries_from L x) c)) ∈ net s.

Record serving i t L ps (done : list NodeId) s : Prop := {
  sv_calm : calm s;
  sv_leader : ∃ n, nodes s !! i = Some n ∧ role n = Leader ∧ current_term n = t ∧ log n = L ∧
    peers n = ps ∧ tight n ∧ ∀ p, p ∈ done → matched (progress n) p = last_index L;
  sv_offer : ∀ p, p ∈ ps → p ∉ done → ∃ x, 0 < x < two64 ∧ offered i t L p x s;
  sv_terms : ∀ p m, nodes s !! p = Some m → current_term m ≤ t;
  sv_done : ∀ p m, p ∈ done → nodes s !! p = Some m → log m = L;
}.

(** The leader's log ends in an entry of its own term. *)
Definition ends_in (t : N) (L : RaftLog) : Prop := ∃ E e, entries L = E ++ [e] ∧ entry_term e = t.

(** A follower that accepts such an offer has the leader's log. *)
Lemma accept_whole s i n p m t L x c :
  healthy s → nodes s !! i = Some n → role n = Leader → current_term n = t → log n = L →
  ends_in t L → nodes s !! p = Some m → current_term m ≤ t → 0 < x < two64 →
  let msg := mkAppendEntries t i (x - 1) (default 0 (term_at L (x - 1))) (entries_from L x) c in
  mkPacket i p (MAppendEntries msg) ∈ net s →
  matches (log m) (x - 1) (default 0 (term_at L (x - 1))) = true →
  (splice (log m) (x - 1) (entries_from L x)).2 = L ∧ last_index L = x - 1 + len64 (entries_from L x).
Proof.
  intros [(T & g & Hs) _ _ _] Hn Hr Ht Hl (E & e & HE & Het) Hm Htm Hx msg Hp Hma.
  destruct Hs as (B & _ & Hch & _).
  pose proof (co_leader _ _ _ _ Hch _ _ Hn Hr) as HT. rewrite Ht, Hl in HT.
  destruct (co_node _ _ _ _ Hch _ _ Hn) as (HplL & _). rewrite Hl in HplL.
  destruct (co_node _ _ _ _ Hch _ _ Hm) as (Hpl & Hord & _).
  destruct (co_net _ _ _ _ Hch _ msg Hp eq_refl) as (L' & HT' & Htold). cbn in HT'.
  assert (L' = entries L) as -> by congruence.
  destruct (co_history _ _ _ _ Hch _ _ HT) as (HcL & _ & HbL & _).
  destruct (splice_told T (log m) (entries L) msg _ Hpl Hord HcL HbL Htold Hma)
    as (Hpl' & Hcase & Htk & Hk & _).
  cbn [ae_prev_log_index ae_entries msg] in Hpl', Hcase, Htk, Hk.
  pose proof (plain_log_ok _ _ HplL) as HokL.
  assert (last_index L = x - 1 + len64 (entries_from L x)) as Hlast.
  { pose proof (entries_from_length L x HokL) as Hef. rewrite (proj1 HplL) in Hef.
    rewrite last_index_eq in Hef |- * by done. rewrite (proj1 HplL) in Hef |- *.
    unfold len64 in *. lia. }
  split; [|done]. set (l' := (splice _ _ _).2) in *.
  assert (N.to_nat (x - 1) + length (entries_from L x) = length (entries L))%nat as Hlen.
  { rewrite last_index_eq, (proj1 HplL) in Hlast by done. unfold len64 in Hlast. lia. }
  rewrite Hlen, firstn_all in *.
  assert (entries l' = entries L) as He.
  { destruct Hcase as [Heq|Heq]; [|exact Heq]. rewrite Heq in Htk |- *.
    destruct (decide (length (entries (log m)) ≤ length (entries L))%nat) as [Hle|Hgt].
    { rewrite <-Htk, firstn_all2; done. }
    exfalso. destruct (lookup_lt_is_Some_2 (entries (log m)) (length (entries L))) as [e' He']; [lia|].
    assert (entries (log m) !! (length (entries L) - 1)%nat = Some e) as Hend.
    { rewrite (take_eq_lookup (length (entries L)) _ _ (entries L)); [|by rewrite firstn_all|].
      - rewrite HE, length_app, lookup_app_r by (cbn; lia). cbn.
        by replace (length E + 1 - 1 - length E)%nat with 0%nat by lia.
      - rewrite HE, length_app. cbn. lia. }
    destruct (Hord _ _ Hend) as (_ & _ & Hmono). specialize (Hmono (length (entries L)) e' ltac:(lia) He').
    destruct (Hord _ _ He') as (_ & Hle' & _).
    assert (entry_term e' = t) as Het' by lia.
    destruct Hpl as (_ & _ & _ & Hchr). destruct (Hchr _ _ He') as (L'' & HT'' & Hpre).
    rewrite Het' in HT''. assert (L'' = entries L) as -> by congruence.
    apply (f_equal length) in Hpre. rewrite !length_take in Hpre. lia. }
  destruct Hpl' as (H1 & H2 & _), HplL as (H3 & H4 & _).
  destruct l' as [es si st], L as [es0 si0 st0]. cbn in *. congruence.
Qed.

(** The hint of a rejection lies below the offer. *)
Lemma hint_below l x term n :
  plain_zero l → last_index l < u64_max → 0 < x < two64 →
  (x = 1 → term = 0) → matches l (x - 1) term = false → log n = l →
  N.max (conflict_hint n (x - 1)) 1 < x.
Proof.
  intros Hpz Hb Hx Hz Hma Hl. assert (x ≠ 1) as Hx1.
  { intros ->. rewrite (Hz eq_refl) in Hma. unfold matches in Hma. change (1 - 1) with 0 in Hma.
    by rewrite (plain_zero_term _ Hpz) in Hma. }
  unfold conflict_hint. rewrite Hl. case_decide as Hd.
  - rewrite wadd_small by (unfold two64, u64_max in *; lia). lia.
  - unfold first_index. rewrite (proj1 Hpz), wadd_small by (unfold two64; lia). lia.
Qed.

(** The follower answers an offer: it takes the log or asks for more. *)
Lemma answered s i n p m t L x :
  calm s → nodes s !! i = Some n → role n = Leader → current_term n = t → log n = L →
  ends_in t L → nodes s !! p = Some m → current_term m ≤ t → 0 < x < two64 → offered i t L p x s →
  ∃ s2 m2 r, reach s s2 ∧ calm s2 ∧ nodes s2 = <[p := m2]> (nodes s) ∧
    (∀ q, q ∈ net s → q ∈ net s2) ∧ current_term m2 = t ∧
    mkPacket p i (MAppendEntriesReply r) ∈ net s2 ∧ aer_term r = t ∧
    ((aer_success r = true ∧ log m2 = L ∧ aer_match_index r = last_index L) ∨
     (aer_success r = false ∧ log m2 = log m ∧ N.max (aer_conflict_index r) 1 < x)).
Proof.
  intros Hc Hn Hr Ht Hl Hend Hm Htm Hx (c & Hp).
  pose proof (cm_able _ Hc _ _ Hm) as Habm. pose proof (cm_able _ Hc _ _ Hn) as Habn.
  assert (plain_zero (log m) ∧ plain_zero L) as [Hzm HzL].
  { split; [by eapply calm_plain|]. rewrite <-Hl. by eapply calm_plain. }
  set (msg := mkAppendEntries t i (x - 1) (default 0 (term_at L (x - 1))) (entries_from L x) c) in Hp.
  assert (∃ m1 r, step i (MAppendEntries msg) m = m1 ∧ current_term m1 = t ∧
    mkEnvelope i (MAppendEntriesReply r) ∈ outgoing m1 ∧ aer_term r = t ∧
    faithful m (OpStep i (MAppendEntries msg)) ∧ last_index (log m1) ≤ R ∧
    ((aer_success r = true ∧ log m1 = L ∧ aer_match_index r = last_index L) ∨
     (aer_success r = false ∧ log m1 = log m ∧ N.max (aer_conflict_index r) 1 < x)))
    as (m1 & r & Hm1 & Ht1 & Ho & Hrt & Hfa & Hroom & Hcase).
  { destruct (matches (log m) (x - 1) (default 0 (term_at L (x - 1)))) eqn:Hma.
    - destruct (accept_whole s i n p m t L x c (cm_healthy _ Hc) Hn Hr Ht Hl Hend Hm Htm Hx Hp Hma)
        as [Hsp Hlast].
      destruct (step_append_accept i msg m Htm Hma) as (Hl1 & _ & _ & Ht1 & _ & _ & Ho).
      cbn [ae_prev_log_index ae_entries ae_term ae_leader_id msg] in Hl1, Ht1, Ho.
      rewrite Hsp in Hl1, Ho. eexists _, _. split; [reflexivity|]. split; [exact Ht1|].
      split; [rewrite Ho; apply elem_of_app; right; by left|]. split; [done|]. split; [|split].
      + intros _ _. left. cbn [ae_prev_log_index ae_entries msg]. rewrite Hsp. exact Hlast.
      + rewrite Hl1, <-Hl. apply Habn.
      + left. by split_and!.
    - destruct (step_append_reject i msg m Htm Hma) as (Hl1 & Ht1 & Ho).
      cbn [ae_prev_log_index ae_term ae_leader_id msg] in Ht1, Ho.
      eexists _, _. split; [reflexivity|]. split; [exact Ht1|].
      split; [rewrite Ho; apply elem_of_app; right; by left|]. split; [done|]. split; [|split].
      + intros _ Hma'. cbn [ae_prev_log_index ae_prev_log_term msg] in Hma'. congruence.
      + rewrite Hl1. apply Habm.
      + right. split; [done|]. split; [done|]. cbn [aer_conflict_index].
        apply (hint_below (log m) x (default 0 (term_at L (x - 1))) m); try done; [apply Habm|].
        intros ->. change (1 - 1) with 0. by rewrite (plain_zero_term _ HzL). }
  destruct (calm_deliver s (mkPacket i p (MAppendEntries msg)) m Hc Hp Hm) as [Hre1 Hc1].
  { by split. }
  { cbn [p_from p_msg]. by rewrite Hm1. }
  cbn [p_from p_msg p_to] in Hre1, Hc1. rewrite Hm1 in Hre1, Hc1.
  destruct (calm_drain _ p m1 Hc1 (lookup_insert_eq _ _ _)) as (_ & Hre2 & Hc2).
  cbn [nodes net] in Hre2, Hc2. rewrite insert_insert_eq in Hre2, Hc2.
  eexists _, _, r. split; [by eapply reach_trans|]. split; [exact Hc2|]. split; [reflexivity|].
  cbn [nodes net]. split; [intros q Hq; apply elem_of_app; by left|]. split; [exact Ht1|].
  split; [|by split].
  apply elem_of_app. right. apply list_elem_of_fmap. eexists; split; [|exact Ho]; reflexivity.
Qed.

(** The leader counts an acceptance. *)
Lemma leader_counts from r n :
  role n = Leader → aer_term r = current_term n → aer_success r = true → commit_index n < u64_max →
  let n' := step from (MAppendEntriesReply r) n in
  role n' = Leader ∧ current_term n' = current_term n ∧ log n' = log n ∧ peers n' = peers n ∧
  tight n' ∧
  ∀ q, matched (progress n') q = if decide (from = q) then aer_match_index r else matched (progress n) q.
Proof.
  intros Hr Ht Hs Hb n'. subst n'. rewrite step_eq. unfold step_down. cbn [message_term dispatch].
  rewrite decide_False by lia. unfold handle_append_entries_reply.
  rewrite decide_False by naive_solver. rewrite Hs. cbv zeta.
  set (n1 := set_progress (set_next_index _ _ _) _).
  pose proof (advance_tight n1 Hr Hb) as Htight. rewrite advance_commit_eq in *.
  split_and!; try done. intros q. cbn [progress set_commit_index n1 set_progress].
  change (matched (set_next_index ?pr ?p ?y) q) with (matched pr q).
  apply set_match_index_matched.
Qed.

(** After a rejection it offers more. *)
Lemma leader_backs_up from r n :
  role n = Leader → aer_term r = current_term n → aer_success r = false → plain_zero (log n) →
  let n' := step from (MAppendEntriesReply r) n in let x := N.max (aer_conflict_index r) 1 in
  role n' = Leader ∧ current_term n' = current_term n ∧ log n' = log n ∧ peers n' = peers n ∧
  (tight n → tight n') ∧ progress n' = set_next_index (progress n) from x ∧
  (x < two64 → mkEnvelope from (MAppendEntries (mkAppendEntries (current_term n) (id n) (x - 1)
    (default 0 (term_at (log n) (x - 1))) (entries_from (log n) x) (commit_index n))) ∈ outgoing n').
Proof.
  intros Hr Ht Hs Hz n' x. subst n'. rewrite step_append_reply_reject by done.
  rewrite send_append_eq. split_and!; try done. intros Hx. cbn [outgoing set_outgoing set_progress].
  apply elem_of_app. right. apply list_elem_of_singleton. unfold append_envelope, append_message.
  cbn [progress set_progress log current_term id commit_index].
  rewrite next_index_set, (decide_True (P := from = from)) by done. fold x.
  rewrite decide_False by (rewrite (proj1 Hz); lia). rewrite wsub_small by lia. done.
Qed.

Lemma offered_mono i t L p x s s' :
  (∀ q, q ∈ net s → q ∈ net s') → offered i t L p x s → offered i t L p x s'.
Proof. intros Hnet [c Hc]. exists c. by apply Hnet. Qed.

(** Rebuilding [serving] after the leader and one follower moved. *)
Lemma serving_next i t L ps done done' s s' n' m' p :
  serving i t L ps done s → calm s' → p ≠ i → nodes s' = <[i := n']> (<[p := m']> (nodes s)) →
  (∀ q, q ∈ net s → q ∈ net s') →
  role n' = Leader → current_term n' = t → log n' = L → peers n' = ps → tight n' →
  (∀ q, q ∈ done' → matched (progress n') q = last_index L) →
  current_term m' ≤ t → (p ∈ done' → log m' = L) →
  (∀ q, q ∈ done → q ∈ done') → (∀ q, q ∈ done' → q = p ∨ q ∈ done) →
  serving i t L ps done' s'.
Proof.
  intros [Hc _ Hoff Hterm Hdone] Hc' Hne Hnodes Hnet H1 H2 H3 H4 H5 H6 H7 H8 H9 H10. split; [done| | | |].
  - exists n'. rewrite Hnodes, lookup_insert_eq. by split_and!.
  - intros q Hq Hqd. destruct (Hoff q Hq) as (x & Hx & Ho); [by intros ?%H9|].
    exists x. split; [done|]. by eapply offered_mono.
  - intros q m Hm. rewrite Hnodes in Hm.
    apply lookup_insert_Some in Hm as [[<- <-]|[_ Hm]]; [lia|].
    apply lookup_insert_Some in Hm as [[<- <-]|[_ Hm]]; [lia|by eapply Hterm].
  - intros q m Hq Hm. rewrite Hnodes in Hm.
    apply lookup_insert_Some in Hm as [[<- <-]|[_ Hm]]; [done|].
    apply lookup_insert_Some in Hm as [[<- <-]|[Hqp Hm]]; [by apply H8|].
    destruct (H10 q Hq) as [->|?]; [done|by eapply Hdone].
Qed.

(** A peer catches up, whatever offer it starts from. *)
Lemma catch_up i t L ps done s p x :
  ends_in t L → serving i t L ps done s → p ∈ ps → p ∉ done → 0 < x < two64 → offered i t L p x s →
  ∃ s', reach s s' ∧ serving i t L ps (p :: done) s'.
Proof.
  intros Hend. revert s. induction x as [x IH] using (well_founded_induction N.lt_wf_0).
  intros s Hsv Hp Hnd Hx Hoff.
  pose proof Hsv as [Hc (n & Hn & Hr & Ht & Hl & Hps & Htight & Hmat) _ Hterm Hdone].
  destruct (calm_peers _ _ _ Hc Hn) as (_ & Hni & Hall). rewrite Hps in Hni, Hall.
  destruct (Hall p Hp) as [m Hm]. assert (p ≠ i) as Hne by congruence.
  destruct (answered s i n p m t L x Hc Hn Hr Ht Hl Hend Hm (Hterm _ _ Hm) Hx Hoff)
    as (s2 & m2 & r & Hre2 & Hc2 & Hnodes2 & Hnet2 & Htm2 & Hrep & Hrt & Hcase).
  assert (nodes s2 !! i = Some n) as Hn2 by (by rewrite Hnodes2, lookup_insert_ne).
  assert (last_index (log n) ≤ R) as HlR by apply (cm_able _ Hc _ _ Hn).
  destruct Hcase as [(Hsu & Hlm & Hmi)|(Hsu & Hlm & Hlow)].
  - destruct (leader_counts p r n Hr) as (Hr3 & Ht3 & Hl3 & Hp3 & Htight3 & Hmat3);
      [congruence|done| |].
    { pose proof (ab_ok _ (cm_able _ Hc _ _ Hn)) as []. lia. }
    destruct (calm_deliver s2 (mkPacket p i (MAppendEntriesReply r)) n Hc2 Hrep Hn2) as [Hre3 Hc3].
    { by split. }
    { cbn [p_from p_msg]. by rewrite Hl3. }
    cbn [p_from p_msg p_to] in Hre3, Hc3. eexists. split; [by eapply reach_trans|].
    eapply (serving_next i t L ps done (p :: done) s _ _ m2 p Hsv Hc3 Hne); cbn [nodes net].
    + by rewrite Hnodes2.
    + done.
    + done.
    + congruence.
    + congruence.
    + congruence.
    + done.
    + intros q Hq. rewrite Hmat3. case_decide as Hpq; [done|]. apply Hmat. set_solver.
    + lia.
    + done.
    + set_solver.
    + set_solver.
  - assert (plain_zero (log n)) as Hz by (by eapply calm_plain).
    destruct (leader_backs_up p r n Hr) as (Hr3 & Ht3 & Hl3 & Hp3 & Htight3 & Hpr3 & Hout3);
      [congruence|done|done|].
    destruct (calm_deliver s2 (mkPacket p i (MAppendEntriesReply r)) n Hc2 Hrep Hn2) as [Hre3 Hc3].
    { by split. }
    { cbn [p_from p_msg]. by rewrite Hl3. }
    cbn [p_from p_msg p_to] in Hre3, Hc3. specialize (Htight3 Htight). specialize (Hout3 ltac:(lia)).
    rewrite Ht, Hl, (calm_id _ _ _ Hc Hn) in Hout3.
    revert Hr3 Ht3 Hl3 Hp3 Htight3 Hpr3 Hout3 Hre3 Hc3.
    generalize (step p (MAppendEntriesReply r) n) as n3. intros n3 Hr3 Ht3 Hl3 Hp3 Htight3 Hpr3 Hout3 Hre3 Hc3.
    destruct (calm_drain _ i n3 Hc3 (lookup_insert_eq _ _ _)) as (_ & Hre4 & Hc4).
    cbn [nodes net] in Hre4, Hc4. rewrite insert_insert_eq in Hre4, Hc4.
    match type of Hc4 with calm ?y => set (s4 := y) in * end.
    destruct (IH (N.max (aer_conflict_index r) 1) Hlow s4) as (s5 & Hre5 & Hsv5); [|done|done|lia| |].
    + eapply (serving_next i t L ps done done s s4 _ m2 p Hsv Hc4 Hne); cbn [nodes net s4].
      * by rewrite Hnodes2.
      * intros q Hq. apply elem_of_app. left. by apply Hnet2.
      * done.
      * cbn. congruence.
      * cbn. congruence.
      * cbn. congruence.
      * by eapply tight_same, Htight3.
      * intros q Hq. cbn [progress drained set_committed set_outgoing set_last_applied]. rewrite Hpr3.
        change (matched (set_next_index ?pr ?k ?y) q) with (matched pr q). by apply Hmat.
      * lia.
      * done.
      * done.
      * auto.
    + exists (commit_index n). cbn [net s4]. apply elem_of_app. right. apply list_elem_of_fmap.
      eexists. split; [|exact Hout3]. reflexivity.
    + exists s5. split; [|done]. do 3 (eapply reach_trans; [done|]). done.
Qed.

Lemma catch_up_all i t L ps done s :
  ends_in t L → serving i t L ps done s →
  ∃ s' (done' : list NodeId), reach s s' ∧ serving i t L ps done' s' ∧ ∀ p, p ∈ ps → p ∈ done'.
Proof.
  intros Hend. apply (one_by_one (serving i t L ps)). intros q d s1 Hsv Hq Hd.
  destruct (sv_offer _ _ _ _ _ _ Hsv q Hq Hd) as (x & Hx & Ho).
  by apply (catch_up _ _ _ _ _ _ q x Hend Hsv).
Qed.

(** When all have caught up, the whole log is committed. *)
Lemma served_commit i t L ps done s n :
  serving i t L ps done s → ends_in t L → (∀ p, p ∈ ps → p ∈ done) → nodes s !! i = Some n →
  commit_index n = last_index L.
Proof.
  intros [Hc (n' & Hn & Hr & Ht & Hl & Hps & Htight & Hmat) _ _ _] (E & e & HE & Het) Hall Hn'.
  rewrite Hn in Hn'. injection Hn' as ->.
  pose proof (ab_ok _ (cm_able _ Hc _ _ Hn)) as [Hlog _ _ Hle _]. rewrite Hl in Hlog, Hle.
  destruct (decide (commit_index n = last_index L)) as [|Hne]; [done|exfalso].
  apply (Htight (last_index L)); [rewrite Hl; lia|]. split.
  - rewrite Hl, last_term_term_at by done. unfold last_term. by rewrite HE, last_snoc, Het, Ht.
  - unfold majority, replicas, cluster_size.
    assert (filter (λ p, last_index L <= matched (progress n) p) (peers n) = peers n) as ->.
    { apply filter_all. intros p Hp. rewrite Hmat; [lia|]. apply Hall. by rewrite <-Hps. }
    pose proof (Nat.div_mod_eq (length (peers n) + 1) 2). lia.
Qed.

Lemma proposed_entry l e :
  log_ok l → last_index l + 1 < u64_max →
  let L := set_entries (entries l ++ [e]) l in get L (last_index L) = Some e ∧ 0 < last_index L.
Proof.
  intros Hok Hb L.
  assert (last_index l + len64 [e] < two64) as Hb' by (unfold len64, two64, u64_max in *; cbn; lia).
  destruct (append_last_index l [e] Hb' Hok) as [Hli _].
  change (append l [e]).2 with L in Hli. change (len64 [e]) with 1 in *.
  rewrite Hli. split; [by apply (append_get_last l)|lia].
Qed.

(** A leader takes a command and offers it to its peers. *)
Lemma propose_serves s i n cmd :
  leading s i n → last_index (log n) + 1 ≤ R → last_index (log n) + 1 < u64_max →
  let L := set_entries (entries (log n) ++ [mkEntry (current_term n) cmd]) (log n) in
  ∃ s', reach s s' ∧ serving i (current_term n) L (peers n) [] s'.
Proof.
  intros [Hc Hn Hr Hterm] HR Hb L. pose proof (cm_able _ Hc _ _ Hn) as [[Hok _ Hu Hnx] _ _ _].
  pose proof (calm_plain _ _ _ Hc Hn) as Hz. pose proof (calm_id _ _ _ Hc Hn) as Hid.
  destruct (propose_leader n cmd (ok_log _ Hok) Hb Hr) as (_ & _ & Hlast & _ & _ & _).
  set (n1 := (propose cmd n).1) in *.
  assert (n1 = advance_commit (broadcast_append (set_log L n))) as Heq.
  { subst n1. unfold propose. by rewrite decide_False by naive_solver. }
  assert (role n1 = Leader ∧ current_term n1 = current_term n ∧ log n1 = L ∧ peers n1 = peers n ∧
    tight n1 ∧ outgoing n1 = outgoing n ++ (append_envelope (set_log L n) <$> peers n))
    as (H1 & H2 & H3 & H4 & H5 & H6).
  { rewrite Heq. split_and!; try (by rewrite advance_commit_eq, broadcast_append_eq).
    apply advance_tight; rewrite broadcast_append_eq; [done|]. destruct Hok. cbn. lia. }
  clear Heq. destruct (calm_step s (APropose i cmd) i (OpPropose cmd) n Hc eq_refl Hn) as [Hre1 Hc1].
  { by split. }
  { change (exec (OpPropose cmd) n) with n1. lia. }
  change (exec (OpPropose cmd) n) with n1 in Hre1, Hc1. cbn [sent] in Hre1, Hc1.
  rewrite app_nil_r in Hre1, Hc1. clearbody n1.
  destruct (calm_drain _ i n1 Hc1 (lookup_insert_eq _ _ _)) as (_ & Hre2 & Hc2).
  cbn [nodes net] in Hre2, Hc2. rewrite insert_insert_eq in Hre2, Hc2.
  eexists. split; [by eapply reach_trans|]. split; [done| | | |]; cbn [nodes net].
  - eexists. rewrite lookup_insert_eq. split; [done|]. split_and!; try done.
    intros p Hp. by apply not_elem_of_nil in Hp.
  - intros p Hp _. exists (progress_next_index (progress n) p).
    pose proof (u64_progress_next _ p (un_progress _ Hu)) as Hx. unfold u64 in Hx.
    split; [by split|]. exists (commit_index n). cbn [net]. apply elem_of_app. right.
    apply list_elem_of_fmap. exists (append_envelope (set_log L n) p). split.
    + unfold append_envelope, append_message. cbn [progress log set_log to message].
      pose proof (Hnx p). rewrite decide_False by (cbn; rewrite (proj1 Hz); lia).
      rewrite wsub_small by lia. cbn [current_term id commit_index set_log]. by rewrite Hid.
    + rewrite H6. apply elem_of_app. right. apply list_elem_of_fmap. by exists p.
  - intros p m Hm. apply lookup_insert_Some in Hm as [[<- <-]|[_ Hm]]; [cbn; lia|by eapply Hterm].
  - intros p m Hp. by apply not_elem_of_nil in Hp.
Qed.
End Liveness.

(** ** The property *)
Section Progress.
Context `{RngLaws}.
Implicit Types (n : RaftNode) (s : sys).

Lemma fresh_healthy s : fresh_cluster s → typed s → healthy (dom (nodes s)) s.
Proof.
  intros Hf Hty. pose proof (fresh_cluster_sound _ Hf) as Hs. destruct Hf as [Hnet Hfresh]. split.
  - by exists ∅, no_history.
  - intros i n Hn. destruct (Hfresh _ _ Hn) as (e & ps & c & Hnew & _).
    split; [by eapply new_ok|by eapply timers_new|by eapply Hty|].
    intros p. unfold new in Hnew. case_decide; [|done]. injection Hnew as <-. done.
  - intros i n p Hn Hp Hd. destruct (Hfresh _ _ Hn) as (e & ps & c & Hnew & _ & Hps).
    unfold new in Hnew. case_decide; [|done]. injection Hnew as <-. cbn.
    apply Hps. split; [done|]. by apply elem_of_dom.
  - intros p Hp. rewrite Hnet in Hp. by apply not_elem_of_nil in Hp.
Qed.

(** Room for one more command: terms, timeouts and indices stay in [u64] and
    no log reaches the compaction threshold. *)
Definition roomy (R : N) s : Prop :=
  R < u64_max ∧ ∀ i n, nodes s !! i = Some n → current_term n + 2 < u64_max ∧
    election_timeout_max (config n) < u64_max ∧ last_index (log n) < R ∧
    R < snapshot_threshold (config n).

Lemma roomy_calm cl R R' s : healthy cl s → roomy R s → R' + 1 = R → calm cl R' s.
Proof.
  intros Hh [_ Hr] He. split; [done|]. intros i n Hn. destruct (Hr _ _ Hn) as (_ & Hp & Hl & Ht).
  split; [by eapply hl_well|done|lia|lia].
Qed.

Lemma calm_more cl R s :
  calm cl R s → (∀ i n, nodes s !! i = Some n → R + 1 < snapshot_threshold (config n)) →
  calm cl (R + 1) s.
Proof.
  intros [Hh Hab] Ht. split; [done|]. intros i n Hn. destruct (Hab _ _ Hn).
  split; [done|done|lia|by eapply Ht].
Qed.

(** No node comes, goes or is reconfigured. *)
Lemma run_config d acts s s' i n' :
  run d acts s = Some s' → nodes s' !! i = Some n' →
  ∃ n, nodes s !! i = Some n ∧ config n' = config n.
Proof.
  revert s. induction acts as [|a acts IH]; intros s Hr Hn'; cbn in Hr.
  { simplify_eq. by exists n'. }
  destruct (act d s a) as [s1|] eqn:Ha; [|done]. destruct (IH s1 Hr Hn') as (n1 & Hn1 & ->).
  destruct (act_inv _ _ _ _ Ha) as (j & o & n & _ & Hn & _ & ->). cbn in Hn1.
  apply lookup_insert_Some in Hn1 as [[<- <-]|[_ Hn1]]; [|by exists n1].
  exists n. split; [done|apply exec_config].
Qed.

(** [C5] The cluster never gets stuck: from every state of every faithful run of
    a cluster of any size - whatever was lost, however the nodes disagree, with
    or without a leader - the run has a continuation that elects a leader if
    there is none in the latest term, commits any given new command, hands it to
    the leader's driver, and leaves it at the same index in the log of every
    node, as long as there is room for one more entry below the compaction
    threshold. *)
Theorem cluster_makes_progress s0 acts s R cmd :
  fresh_cluster s0 → typed s0 → nodes s0 ≠ ∅ → run Faithful acts s0 = Some s → roomy R s →
  cmd ≠ [] →
  ∃ acts' s' i n k, run Faithful acts' s = Some s' ∧ nodes s' !! i = Some n ∧ role n = Leader ∧
    commit_index n = k ∧ last_applied n = k ∧
    CommittedCommand k cmd ∈ delivered Faithful (acts ++ acts') s0 i ∧
    ∀ j m, nodes s' !! j = Some m → get (log m) k = Some (mkEntry (current_term n) cmd).
Proof.
  intros Hf Hty Hne Hr Hroom Hcmd. set (cl := dom (nodes s0)).
  pose proof (healthy_run _ _ _ _ (fresh_healthy _ Hf Hty) Hr) as Hh.
  destruct (map_choose (nodes s0) Hne) as (i0 & n0 & Hn0).
  assert (is_Some (nodes s !! i0)) as [m0 Hm0].
  { apply elem_of_dom. destruct (hl_sound _ _ Hh) as (T & g & Hs). rewrite (sound_dom _ _ _ _ Hs).
    by eapply elem_of_dom_2. }
  assert (R ≠ 0) as HR by (destruct (proj2 Hroom _ _ Hm0) as (_ & _ & ? & _); lia).
  pose proof (roomy_calm cl R (R - 1) s Hh Hroom ltac:(lia)) as Hc.
  destruct (some_leader cl (R - 1) s i0 m0 Hc Hm0) as (s1 & i & n1 & [acts1 Hr1] & Hld).
  { intros j n Hn. apply (proj2 Hroom _ _ Hn). }
  assert (leading cl R s1 i n1 ∧ last_index (log n1) + 1 ≤ R) as [Hld' Hlast].
  { destruct Hld as [Hc1 Hn1 Hl Ht]. split.
    - split; [|done..]. replace R with (R - 1 + 1) by lia. apply calm_more; [done|].
      intros j n Hj. destruct (run_config _ _ _ _ _ _ Hr1 Hj) as (m & Hm & ->).
      destruct (proj2 Hroom _ _ Hm) as (_ & _ & _ & ?). lia.
    - pose proof (ab_room _ _ (cm_able _ _ _ Hc1 _ _ Hn1)). lia. }
  destruct (propose_serves cl R s1 i n1 cmd Hld' Hlast) as (s2 & [acts2 Hr2] & Hsv2);
    [destruct Hroom; lia|].
  set (t := current_term n1) in *. set (L := set_entries _ _) in *.
  assert (ends_in t L) as Hend by (by exists (entries (log n1)), (mkEntry t cmd)).
  destruct (catch_up_all cl R i t L _ _ s2 Hend Hsv2) as (s3 & done3 & [acts3 Hr3] & Hsv3 & Hall).
  pose proof Hsv3 as [Hc3 (n3 & Hn3 & Hl3 & Ht3 & Hlog3 & Hps3 & _) _ _ Hdone3].
  pose proof (served_commit cl R i t L _ _ s3 n3 Hsv3 Hend Hall Hn3) as Hcom.
  (* the leader drains once more *)
  destruct (calm_drain cl R s3 i n3 Hc3 Hn3) as (Ha4 & _ & _). set (s4 := mkSys _ _) in Ha4.
  assert (nodes s4 !! i = Some (drained n3)) as Hn4 by (cbn; apply lookup_insert_eq).
  assert (run Faithful (acts1 ++ acts2 ++ acts3 ++ [ADrain i None]) s = Some s4) as Hr4.
  { rewrite (run_after _ _ _ _ _ Hr1), (run_after _ _ _ _ _ Hr2), (run_after _ _ _ _ _ Hr3).
    cbn [run]. by rewrite Ha4. }
  destruct (proposed_entry (log n1) (mkEntry t cmd)) as [Hget Hpos];
    [apply (ab_ok _ _ (cm_able _ _ _ (ld_calm _ _ _ _ _ Hld') _ _ (ld_node _ _ _ _ _ Hld')))
    |destruct Hroom; lia|].
  fold L in Hget, Hpos.
  exists (acts1 ++ acts2 ++ acts3 ++ [ADrain i None]), s4, i, (drained n3), (last_index L).
  split; [done|]. split; [done|]. split; [done|]. split; [done|]. split; [exact Hcom|]. split.
  - destruct (run_handed s0 (acts ++ acts1 ++ acts2 ++ acts3 ++ [ADrain i None]) s4 Hf)
      as (T & g & _ & Hap); [by rewrite (run_after _ _ _ _ _ Hr)|].
    rewrite (ap_handed _ _ _ _ _ (Hap _ _ Hn4)). cbn [log last_applied drained set_committed
      set_outgoing set_last_applied]. rewrite Hlog3, Hcom. apply elem_of_deliveries.
    split; [lia|]. split; [done|]. by eexists.
  - intros j m Hm. cbn [current_term drained set_committed set_outgoing set_last_applied].
    rewrite Ht3. cbn [nodes s4] in Hm.
    apply lookup_insert_Some in Hm as [[<- <-]|[Hji Hm]]; [by cbn; rewrite Hlog3|].
    rewrite (Hdone3 j m); [done| |done]. apply Hall. rewrite <-Hps3.
    eapply (cm_mesh _ _ _ i _ _ Hc3); [done|congruence|by eexists].
Qed.
End Progress.

(** ** A leader that lost touch *)
Section Example.
#[local] Existing Instance low_rng.
#[local] Existing Instance low_rng_laws.

Lemma trio_typed : typed trio.
Proof.
  intros i n Hn. destruct (proj2 trio_fresh i n Hn) as (e & ps & c & Hnew & _).
  apply elem_of_list_to_map_2 in Hn. cbn [fmap list_fmap] in Hn. rewrite !elem_of_cons in Hn.
  assert (config n = default_config) as Hc.
  { destruct Hn as [Hn|[Hn|[Hn|Hn]]]; [injection Hn as _ ->; done..|by apply not_elem_of_nil in Hn]. }
  eapply u64_new; [|exact Hnew]. unfold new in Hnew. case_decide; [|done]. injection Hnew as <-.
  cbn in Hc. subst c. by split_and!.
Qed.

(** ["n1"] has replicated a command to ["n2"] without hearing of it, ["n3"] has
    heard nothing and campaigns in the same term. *)
Definition split_run : list action := replicate_run ++ timeout "n3".

Lemma cluster_makes_progress_witness :
  match run Faithful split_run trio with
  | Some s => ∃ acts' s' i n, run Faithful acts' s = Some s' ∧ nodes s' !! i = Some n ∧
      role n = Leader ∧
      CommittedCommand (commit_index n) [x07] ∈ delivered Faithful (split_run ++ acts') trio i
  | None => False
  end.
Proof.
  destruct (run Faithful split_run trio) as [s|] eqn:Hr; [|vm_compute in Hr; discriminate Hr].
  assert (roomy 1000 s) as Hroom.
  { split; [reflexivity|].
    assert ((s ← run Faithful split_run trio; Some (bool_decide (map_Forall (λ _ n,
      current_term n + 2 < u64_max ∧ election_timeout_max (config n) < u64_max ∧
      last_index (log n) < 1000 ∧ 1000 < snapshot_threshold (config n)) (nodes s)))) = Some true) as Hb
      by (vm_compute; reflexivity).
    rewrite Hr in Hb. cbn [mbind option_bind] in Hb. injection Hb as Hb.
    intros i n Hn. apply bool_decide_eq_true_1 in Hb. exact (Hb i n Hn). }
  destruct (cluster_makes_progress trio split_run s 1000 [x07] trio_fresh trio_typed
    ltac:(discriminate) Hr Hroom ltac:(discriminate))
    as (acts' & s' & i & n & k & Hr' & Hn & Hl & Hk & _ & Hd & _).
  exists acts', s', i, n. split; [exact Hr'|]. split; [exact Hn|]. split; [exact Hl|].
  rewrite Hk. exact Hd.
Defined.
End Example.
