(* ===== verification/Compaction.v ===== *)
(** * Compaction is invisible: one node

    A node that compacts its log behaves as one that never does: with every
    operation that neither ships nor installs a snapshot, its outputs and all
    fields but the log are those of the uncompacted node, and its log is the
    other's log less the entries before the snapshot point. *)

From S2P Require Import Prelude Storage RaftLog RaftState RaftNode NodeTheory NodeProps Widths ElectionSpec Election Network LogMatching StepFacts.
Local Open Scope N_scope.
Local Open Scope u64_scope.

(** ** Logs *)

(** [l] is the whole log [L] less the entries up to its snapshot point, whose
    term it remembers. *)
Record trims (L l : RaftLog) : Prop := {
  tr_index : snapshot_index L = 0;
  tr_zero : snapshot_term L = 0;
  tr_ok : log_ok L;
  tr_entries : entries l = drop (N.to_nat (snapshot_index l)) (entries L);
  tr_term : term_at L (snapshot_index l) = Some (snapshot_term l);
}.

Section Logs.
Implicit Types (L l : RaftLog).

Lemma whole_last_index L l : trims L l → last_index L = len64 (entries L).
Proof. intros Ht. rewrite last_index_eq, (tr_index _ _ Ht) by apply Ht. lia. Qed.

Lemma trims_within L l : trims L l → (N.to_nat (snapshot_index l) ≤ length (entries L))%nat.
Proof.
  intros Ht. pose proof (tr_term _ _ Ht) as Hs.
  assert (is_Some (term_at L (snapshot_index l))) as Hi by eauto.
  apply term_at_is_Some in Hi; [|apply Ht]. rewrite (whole_last_index _ _ Ht) in Hi.
  unfold len64 in Hi. lia.
Qed.

Lemma trims_length L l :
  trims L l → snapshot_index l + len64 (entries l) = len64 (entries L).
Proof.
  intros Ht. pose proof (trims_within _ _ Ht). rewrite (tr_entries _ _ Ht).
  unfold len64. rewrite length_drop. lia.
Qed.

Lemma trims_log_ok L l : trims L l → log_ok l.
Proof.
  intros Ht. pose proof (tr_ok _ _ Ht) as Hok. unfold log_ok in *.
  rewrite (trims_length _ _ Ht). rewrite (tr_index _ _ Ht) in Hok. lia.
Qed.

Lemma trims_last_index L l : trims L l → last_index l = last_index L.
Proof.
  intros Ht. rewrite last_index_eq by (by eapply trims_log_ok).
  by rewrite (trims_length _ _ Ht), (whole_last_index _ _ Ht).
Qed.

Lemma trims_get L l i : trims L l → snapshot_index l < i → get l i = get L i.
Proof.
  intros Ht Hi. destruct (decide (i ≤ last_index l)) as [Hle|Hgt].
  - rewrite !get_in; rewrite <-?(trims_last_index _ _ Ht), ?(tr_index _ _ Ht);
      try lia; [|apply Ht|by eapply trims_log_ok].
    rewrite (tr_entries _ _ Ht), lookup_drop. f_equal. lia.
  - rewrite !get_out; rewrite <-?(trims_last_index _ _ Ht); [done|right; lia..].
Qed.

Lemma trims_term_at L l i : trims L l → snapshot_index l ≤ i → term_at l i = term_at L i.
Proof.
  intros Ht Hi. destruct (decide (i = snapshot_index l)) as [->|Hne].
  - rewrite term_at_snapshot. symmetry. apply Ht.
  - rewrite !term_at_get, (trims_get L l) by (rewrite ?(tr_index _ _ Ht); done || lia). done.
Qed.

Lemma trims_last_term L l : trims L l → last_term l = last_term L.
Proof.
  intros Ht. pose proof (trims_log_ok _ _ Ht) as Hok.
  pose proof (last_term_term_at l Hok) as Hl. pose proof (last_term_term_at L (tr_ok _ _ Ht)) as HL.
  rewrite (trims_term_at L l), (trims_last_index _ _ Ht), HL in Hl; [congruence|done|].
  rewrite last_index_eq by done. lia.
Qed.

Lemma trims_matches L l i t :
  trims L l → snapshot_index l ≤ i → matches l i t = matches L i t.
Proof. intros Ht Hi. unfold matches. by rewrite (trims_term_at L l). Qed.

Lemma trims_entries_from L l i :
  trims L l → snapshot_index l < i → i < two64 → entries_from l i = entries_from L i.
Proof.
  intros Ht Hi Hb. unfold entries_from. rewrite !decide_False by (rewrite ?(tr_index _ _ Ht); lia).
  rewrite !offset_eq by (rewrite ?(tr_index _ _ Ht); done || lia || apply Ht || by eapply trims_log_ok).
  pose proof (trims_within _ _ Ht) as Hw.
  rewrite (tr_entries _ _ Ht), length_drop, drop_drop, (tr_index _ _ Ht).
  repeat case_decide; try lia; [|done]. f_equal. lia.
Qed.

(** A log that was never compacted. *)
Lemma trims_whole L : snapshot_index L = 0 → snapshot_term L = 0 → log_ok L → trims L L.
Proof.
  intros Hi Ht Hok. split; [done..| |]; rewrite Hi; [done|].
  rewrite <-Hi, term_at_snapshot. by rewrite Ht.
Qed.

(** Changes after the snapshot point. *)
Lemma trims_entries_change L l ES es :
  trims L l → es = drop (N.to_nat (snapshot_index l)) ES → len64 ES < two64 →
  take (N.to_nat (snapshot_index l)) ES = take (N.to_nat (snapshot_index l)) (entries L) →
  trims (set_entries ES L) (set_entries es l).
Proof.
  intros Ht -> Hb Htake. pose proof (trims_within _ _ Ht) as Hw.
  assert (log_ok (set_entries ES L)) as Hok.
  { unfold log_ok. cbn. rewrite (tr_index _ _ Ht). lia. }
  split; cbn; [apply Ht|apply Ht|done|done|].
  rewrite <-(tr_term _ _ Ht). destruct (decide (snapshot_index l = 0)) as [->|Hz].
  - unfold term_at. cbn. by rewrite (tr_index _ _ Ht).
  - assert (∀ K, snapshot_index K = 0 → log_ok K →
      term_at K (snapshot_index l) =
      entry_term <$> (take (N.to_nat (snapshot_index l)) (entries K)) !! N.to_nat (snapshot_index l - 1))
      as Hterm.
    { intros K HK HokK. rewrite term_at_get by lia. rewrite lookup_take_lt by lia.
      replace (snapshot_index l) with
        (snapshot_index K + 1 + N.of_nat (N.to_nat (snapshot_index l - 1))) at 1 by lia.
      by rewrite get_nth. }
    rewrite !Hterm by (apply Ht || done). cbn. by rewrite Htake.
Qed.

Lemma trims_append L l e :
  trims L l → last_index l + 1 < u64_max →
  trims (set_entries (entries L ++ [e]) L) (set_entries (entries l ++ [e]) l).
Proof.
  intros Ht Hb. pose proof (trims_within _ _ Ht) as Hw. apply trims_entries_change; [done|..].
  - rewrite (tr_entries _ _ Ht), drop_app_le by done. done.
  - rewrite len64_app. rewrite (trims_last_index _ _ Ht), (whole_last_index _ _ Ht) in Hb.
    unfold len64, two64, u64_max in *. cbn. lia.
  - by rewrite take_app_le.
Qed.

Lemma trims_splice L l prev inc :
  trims L l → snapshot_index l ≤ prev → spliceable L prev inc →
  trims (splice L prev inc).2 (splice l prev inc).2.
Proof.
  intros Ht Hp Hs. pose proof (trims_within _ _ Ht) as Hw. pose proof Hs as (HokL & [_ HpL] & Hb).
  assert (spliceable l prev inc) as Hsl.
  { split; [by eapply trims_log_ok|]. rewrite (trims_last_index _ _ Ht). done. }
  pose proof (splice_ok _ _ _ Hs) as Hok'. rewrite (splice_merge L) in * by done.
  rewrite (splice_merge l) by done. unfold tail_pos in *. rewrite (tr_index _ _ Ht), N.sub_0_r in *.
  rewrite (whole_last_index _ _ Ht) in HpL. unfold len64 in HpL.
  apply trims_entries_change; [done| | |].
  - rewrite (tr_entries _ _ Ht), drop_drop.
    rewrite drop_app_le by (rewrite length_take; lia). f_equal.
    + rewrite skipn_firstn_comm. f_equal. lia.
    + f_equal. f_equal. lia.
  - unfold log_ok in Hok'. cbn in Hok'. rewrite (tr_index _ _ Ht) in Hok'. lia.
  - rewrite take_app_le by (rewrite length_take; lia). rewrite take_take. f_equal. lia.
Qed.

Lemma trims_compact L l i : trims L l → trims L (compact l i).
Proof.
  intros Ht. pose proof (trims_log_ok _ _ Ht) as Hok.
  destruct (decide (snapshot_index l < i ≤ last_index l)) as [Hi|Hi].
  - pose proof (compact_term_at l i i Hok ltac:(lia) ltac:(lia)) as Hterm.
    rewrite (trims_term_at L l i Ht) in Hterm by lia.
    destruct (compact_eq l i Hok Hi) as (e & He & Hc). rewrite Hc in *.
    split; cbn; [apply Ht..| |].
    + rewrite (tr_entries _ _ Ht), drop_drop. f_equal. lia.
    + rewrite <-Hterm. unfold term_at. cbn. by rewrite decide_True.
  - by rewrite compact_noop by lia.
Qed.
End Logs.

(** ** Nodes *)
Section Nodes.
Context `{RngLaws}.
Implicit Types (n N : RaftNode) (o : node_op) (L : RaftLog).

(** The configuration under which no log that fits in [u64] is compacted. *)
Definition keep_all (c : RaftConfig) : RaftConfig :=
  mkConfig (heartbeat_ticks c) (election_timeout_min c) (election_timeout_max c) u64_max (seed c).

(** [n] with its whole log [L], never compacting. *)
Definition uncompacted L n : RaftNode :=
  mkNode (id n) (peers n) (keep_all (config n)) (rng n) (role n) (leader_id n) (current_term n)
    (voted_for n) L (commit_index n) (last_applied n) (progress n) (votes n)
    (election_elapsed n) (heartbeat_elapsed n) (election_timeout n) (outgoing n) (committed n).

(** *** Sending appends *)

(** Where the node sends [e'], the whole node sends [e]: the same envelope,
    unless what is to be sent was compacted and [e'] is a snapshot. *)
Definition stands_for (e e' : Envelope) : Prop := e = e' ∨ ¬ plain_envelope e'.

(** [N] is the whole node, up to the snapshots that wait to be sent. *)
Definition shadows N L n : Prop :=
  ∃ out, N = uncompacted L (set_outgoing out n) ∧ Forall2 stands_for out (outgoing n).

Lemma stands_for_refl es : Forall2 stands_for es es.
Proof. induction es; constructor; [by left|done]. Qed.

Lemma shadows_refl L n : shadows (uncompacted L n) L n.
Proof. exists (outgoing n). split; [by destruct n|apply stands_for_refl]. Qed.

(** An operation that sends nothing changes both alike. *)
Lemma shadows_exact N L n : N = uncompacted L n → shadows N L n.
Proof. intros ->. apply shadows_refl. Qed.

Lemma shadows_plain N L n : shadows N L n → no_snapshots n → N = uncompacted L n.
Proof.
  intros (out & -> & Hs) Hno. assert (out = outgoing n) as ->; [|by destruct n].
  unfold no_snapshots in Hno. induction Hs as [|e e' es es' [->|He] _ IH]; [done|..];
    apply Forall_cons in Hno as [? ?]; [|done]. by rewrite IH.
Qed.

Lemma append_message_uncompacted L n p :
  trims L (log n) → u64_progress (progress n) →
  stands_for (append_envelope (uncompacted L n) p) (append_envelope n p).
Proof.
  intros Ht Hp. destruct (decide (plain_envelope (append_envelope n p))) as [Hpl|Hpl]; [left|by right].
  revert Hpl. unfold append_envelope, append_message, plain_envelope. cbn.
  case_decide as Hs; [done|]. intros _. rewrite (tr_index _ _ Ht).
  pose proof (u64_progress_next _ p Hp) as Hb. unfold u64 in Hb.
  rewrite decide_False by lia. rewrite wsub_small by lia.
  rewrite (trims_term_at L (log n)), (trims_entries_from L (log n)) by (done || lia). done.
Qed.

Lemma broadcast_append_uncompacted L n :
  trims L (log n) → u64_progress (progress n) →
  shadows (broadcast_append (uncompacted L n)) L (broadcast_append n).
Proof.
  intros Ht Hp. rewrite !broadcast_append_eq. eexists. split; [reflexivity|]. cbn.
  apply Forall2_app; [apply stands_for_refl|]. apply Forall2_fmap.
  induction (peers n); constructor; [by apply append_message_uncompacted|done].
Qed.

Lemma send_append_uncompacted L n p :
  trims L (log n) → u64_progress (progress n) →
  shadows (send_append p (uncompacted L n)) L (send_append p n).
Proof.
  intros Ht Hp. rewrite !send_append_eq. eexists. split; [reflexivity|]. cbn.
  apply Forall2_app; [apply stands_for_refl|]. constructor; [by apply append_message_uncompacted|constructor].
Qed.

(** *** The commit rule *)
Lemma commit_scan_uncompacted L n lo count :
  trims L (log n) → snapshot_index (log n) ≤ lo →
  commit_scan (uncompacted L n) lo count = commit_scan n lo count.
Proof.
  intros Ht Hlo. induction count as [|c IH]; [done|]. cbn [commit_scan].
  change (log (uncompacted L n)) with L. change (current_term (uncompacted L n)) with (current_term n).
  change (majority (uncompacted L n)) with (majority n).
  change (replicas (uncompacted L n)) with (replicas n).
  rewrite <-(trims_term_at L (log n)) by (done || lia).
  by rewrite IH.
Qed.

Lemma advance_commit_uncompacted L n :
  trims L (log n) → snapshot_index (log n) ≤ commit_index n → commit_index n < u64_max →
  advance_commit (uncompacted L n) = uncompacted L (advance_commit n).
Proof.
  intros Ht Hs Hb. unfold advance_commit. cbn -[last_index]. case_decide; [done|].
  rewrite commit_scan_uncompacted, (trims_last_index L (log n)) by
    (try done; rewrite wadd_small by (unfold two64, u64_max in *; lia); lia).
  by destruct (commit_scan _ _ _).
Qed.

(** The commit rule reads nothing of what waits to be sent. *)
Lemma commit_scan_outgoing out n lo c : commit_scan (set_outgoing out n) lo c = commit_scan n lo c.
Proof. induction c as [|c IH]; [done|]. cbn [commit_scan]. by rewrite IH. Qed.

Lemma advance_commit_shadows N L n :
  trims L (log n) → snapshot_index (log n) ≤ commit_index n → commit_index n < u64_max →
  shadows N L n → shadows (advance_commit N) L (advance_commit n).
Proof.
  intros Ht Hs Hb (out & -> & Ho). exists out. split; [|by rewrite advance_commit_eq].
  rewrite (advance_commit_uncompacted L (set_outgoing out n)) by done. f_equal.
  unfold advance_commit. cbn [role set_outgoing]. case_decide; [done|].
  cbv zeta. rewrite commit_scan_outgoing.
  cbn [log commit_index set_outgoing]. by destruct (commit_scan _ _ _).
Qed.

(** *** Elections and timers *)
Record fits L n : Prop := {
  fi_trims : trims L (log n);
  fi_snapshot : snapshot_index (log n) ≤ commit_index n;
  fi_commit : commit_index n < u64_max;
  fi_progress : u64_progress (progress n);
}.

(** A broadcast followed by the commit rule. *)
Lemma announce_uncompacted L n :
  fits L n →
  shadows (advance_commit (broadcast_append (uncompacted L n))) L
          (advance_commit (broadcast_append n)).
Proof.
  intros [Ht Hs Hc Hp]. pose proof (broadcast_append_uncompacted L n Ht Hp) as Hb.
  apply advance_commit_shadows; [by rewrite broadcast_append_eq..|exact Hb].
Qed.

Lemma become_leader_uncompacted L n :
  fits L n → shadows (become_leader (uncompacted L n)) L (become_leader n).
Proof.
  intros Hf. unfold become_leader. cbn [log peers progress uncompacted set_role set_leader_id].
  rewrite <-(trims_last_index L (log n)) by apply Hf.
  match goal with |- shadows _ _ (advance_commit (broadcast_append ?x)) =>
    apply (announce_uncompacted L x) end.
  destruct Hf. split; cbn; [done..|apply u64_progress_reset].
Qed.

Lemma become_candidate_uncompacted L n :
  fits L n → shadows (become_candidate (uncompacted L n)) L (become_candidate n).
Proof.
  intros Hf. rewrite !become_candidate_eq. cbv zeta.
  change (majority (uncompacted L n)) with (majority n). case_decide as Hm.
  - match goal with |- shadows _ _ (become_leader ?x) =>
      apply (become_leader_uncompacted L x) end. by destruct Hf.
  - cbn [log uncompacted]. rewrite <-(trims_last_index L (log n)) by apply Hf.
    rewrite <-(trims_last_term L (log n)) by apply Hf. by apply shadows_exact.
Qed.

Lemma tick_uncompacted L n :
  fits L n → shadows (tick (uncompacted L n)) L (tick n).
Proof.
  intros Hf. unfold tick. cbn [role uncompacted]. destruct (role n); cbv zeta.
  3: { cbn [heartbeat_ticks config keep_all heartbeat_elapsed set_heartbeat_elapsed uncompacted].
       case_decide; [|by apply shadows_exact].
       match goal with |- shadows _ _ (broadcast_append ?x) =>
         apply (broadcast_append_uncompacted L x) end; apply Hf. }
  all: cbn [election_elapsed election_timeout set_election_elapsed uncompacted];
    (case_decide; [|by apply shadows_exact]);
    match goal with |- shadows _ _ (become_candidate ?x) =>
      apply (become_candidate_uncompacted L x) end; by destruct Hf.
Qed.

Lemma step_down_uncompacted L msg n :
  step_down msg (uncompacted L n) = uncompacted L (step_down msg n).
Proof. unfold step_down. cbn [current_term uncompacted]. by case_decide. Qed.

(** *** Messages *)
Lemma handle_request_vote_uncompacted L m n :
  trims L (log n) →
  handle_request_vote m (uncompacted L n) = uncompacted L (handle_request_vote m n).
Proof.
  intros Ht. unfold handle_request_vote, candidate_is_up_to_date.
  cbn [current_term log uncompacted]. rewrite <-(trims_last_index L (log n)) by done.
  rewrite <-(trims_last_term L (log n)) by done.
  change (can_vote (uncompacted L n)) with (can_vote n).
  case_decide; [|done]. by destruct (_ && _).
Qed.

Lemma handle_request_vote_reply_uncompacted L m n :
  fits L n →
  shadows (handle_request_vote_reply m (uncompacted L n)) L (handle_request_vote_reply m n).
Proof.
  intros Hf. unfold handle_request_vote_reply, votes_record. cbn [role current_term votes uncompacted].
  case_decide; [apply shadows_refl|]. destruct (rvr_vote_granted m); [|apply shadows_refl]. cbv zeta.
  change (majority (set_votes _ (uncompacted L n))) with (majority n).
  change (majority (set_votes _ n)) with (majority n). case_decide; [|by apply shadows_exact].
  match goal with |- shadows _ _ (become_leader ?x) =>
    apply (become_leader_uncompacted L x) end. by destruct Hf.
Qed.

Lemma handle_append_entries_reply_uncompacted L from m n :
  fits L n → u64_message (MAppendEntriesReply m) →
  shadows (handle_append_entries_reply from m (uncompacted L n)) L
          (handle_append_entries_reply from m n).
Proof.
  intros [Ht Hs Hc Hp] (_ & Hmi & Hci). unfold handle_append_entries_reply.
  cbn [role current_term progress uncompacted]. case_decide; [apply shadows_refl|].
  destruct (aer_success m); cbv zeta.
  - apply advance_commit_shadows; [done..|]. by apply shadows_exact.
  - match goal with |- shadows _ _ (send_append _ ?x) =>
      apply (send_append_uncompacted L x) end; [done|].
    cbn. apply u64_set_next; [done|]. by apply u64_max_of.
Qed.

(** An append that neither contradicts what the node compacted nor overflows
    changes both logs alike. *)
Definition agreeable L n (m : AppendEntries) : Prop :=
  current_term n ≤ ae_term m →
  starts_above (log n) m ∧
  (matches L (ae_prev_log_index m) (ae_prev_log_term m) = true →
   spliceable L (ae_prev_log_index m) (ae_entries m)).

Lemma conflict_hint_uncompacted L n i :
  trims L (log n) → snapshot_index (log n) < i → conflict_hint (uncompacted L n) i = conflict_hint n i.
Proof.
  intros Ht Hi. unfold conflict_hint. cbn [log uncompacted].
  rewrite <-(trims_last_index L (log n)) by done. case_decide as Hl; [done|].
  pose proof (u64_last_index (log n)) as Hu. unfold u64 in Hu.
  unfold first_index. rewrite (tr_index _ _ Ht), !wadd_small by (unfold two64 in *; lia). lia.
Qed.

Lemma handle_append_entries_uncompacted L m n :
  trims L (log n) → agreeable L n m →
  ∃ L', trims L' (log (handle_append_entries m n)) ∧
    handle_append_entries m (uncompacted L n) = uncompacted L' (handle_append_entries m n).
Proof.
  intros Ht Hag. unfold handle_append_entries. cbn [current_term uncompacted].
  case_decide as Hlt; [by exists L|]. destruct (Hag ltac:(lia)) as [Habove Hma].
  assert (snapshot_index (log n) ≤ ae_prev_log_index m) as Hs by (destruct Habove as [?|[-> _]]; lia).
  set (n1 := become_follower _ _ n).
  change (become_follower _ _ (uncompacted L n)) with (uncompacted L n1). cbv zeta.
  cbn [log uncompacted]. change (log n1) with (log n).
  rewrite (trims_matches L (log n)) by done. destruct (matches L _ _) eqn:HmL.
  - pose proof (trims_splice L (log n) _ _ Ht Hs (Hma eq_refl)) as Ht'.
    pose proof (trims_last_index _ _ Ht') as Hli.
    assert ((splice L (ae_prev_log_index m) (ae_entries m)).1 =
      (splice (log n) (ae_prev_log_index m) (ae_entries m)).1) as Hi by (symmetry; exact Hli).
    destruct (splice L _ _) as [LI L'], (splice (log n) _ _) as [li l']. cbn [fst snd] in *.
    subst LI. exists L'. cbn [commit_index set_log uncompacted]. by case_decide.
  - exists L. split; [done|]. rewrite conflict_hint_uncompacted; [done|done|].
    destruct Habove as [?|[Hp Hm]]; [done|]. rewrite (trims_matches L (log n)) in Hm by done. congruence.
Qed.

(** ** Every operation *)
Lemma dispatch_uncompacted L from msg n :
  fits L n → u64_message msg →
  (∀ m, msg = MAppendEntries m → agreeable L n m) →
  match msg with MInstallSnapshot _ | MInstallSnapshotReply _ => False | _ => True end →
  ∃ L', trims L' (log (dispatch from msg n)) ∧
    shadows (dispatch from msg (uncompacted L n)) L' (dispatch from msg n).
Proof.
  intros Hf Hu Hag Hmsg. destruct msg as [m|m|m|m|m|m]; cbn [dispatch] in *; try done.
  - exists L. rewrite handle_request_vote_uncompacted by apply Hf. split; [|apply shadows_refl].
    unfold handle_request_vote. repeat case_match; simplify_eq; apply Hf.
  - exists L. split; [|by apply handle_request_vote_reply_uncompacted].
    unfold handle_request_vote_reply, votes_record. case_decide; [apply Hf|].
    destruct (rvr_vote_granted m); [|apply Hf]. cbv zeta.
    case_decide; rewrite ?become_leader_eq; apply Hf.
  - destruct (handle_append_entries_uncompacted L m n) as (L' & Ht & ->); [apply Hf|by apply Hag|].
    exists L'. split; [done|apply shadows_refl].
  - exists L. split; [|by apply handle_append_entries_reply_uncompacted].
    unfold handle_append_entries_reply. case_decide; [apply Hf|].
    destruct (aer_success m); rewrite ?advance_commit_eq, ?send_append_eq; apply Hf.
Qed.

Lemma propose_uncompacted L cmd n :
  fits L n → last_index (log n) + 1 < u64_max →
  ∃ L', trims L' (log (propose cmd n).1) ∧
    shadows (propose cmd (uncompacted L n)).1 L' (propose cmd n).1.
Proof.
  intros Hf Hb. unfold propose. cbn [role uncompacted].
  case_decide; [exists L; split; [apply Hf|apply shadows_refl]|].
  cbn [append fst log current_term uncompacted].
  pose proof (trims_append L (log n) (mkEntry (current_term n) cmd) (fi_trims _ _ Hf) Hb) as Ht.
  eexists. split; [by rewrite advance_commit_eq, broadcast_append_eq|].
  match goal with |- shadows _ ?K (advance_commit (broadcast_append ?x)) =>
    apply (announce_uncompacted K x) end. destruct Hf. by split.
Qed.

(** A drain delivers the same items; it compacts at most one of the logs. *)
Lemma pending_uncompacted L n :
  node_ok n → trims L (log n) → pending (uncompacted L n) = pending n.
Proof.
  intros Hok Ht. unfold pending. cbn [log last_applied commit_index uncompacted].
  apply deliveries_ext. intros j Hj. symmetry. apply trims_get; [done|].
  pose proof (ok_snapshot _ Hok). lia.
Qed.

Lemma take_ready_uncompacted L n :
  node_ok n → trims L (log n) →
  trims L (log (take_ready n).1) ∧
  take_ready (uncompacted L n) = (uncompacted L (take_ready n).1, (take_ready n).2).
Proof.
  intros Hok Ht. pose proof Hok as [_ _ Ha Hc Hb]. unfold take_ready.
  rewrite !apply_committed_eq by (cbn; lia). rewrite (pending_uncompacted L n Hok Ht).
  change (set_committed _ (set_last_applied _ (uncompacted L n))) with
    (uncompacted L (set_committed (committed n ++ pending n)
      (set_last_applied (N.max (last_applied n) (commit_index n)) n))).
  set (n1 := set_committed (committed n ++ pending n) _). cbv zeta.
  assert (maybe_compact (uncompacted L n1) = uncompacted L n1) as ->.
  { unfold maybe_compact. cbn [snapshot_threshold config keep_all last_applied log uncompacted].
    rewrite (tr_index _ _ Ht). rewrite decide_False; [done|]. subst n1. cbn. lia. }
  unfold maybe_compact. case_decide; (split; [|done]); [by apply trims_compact|done].
Qed.

Lemma fits_of L n : node_ok n → u64_progress (progress n) → trims L (log n) → fits L n.
Proof. intros [] Hp Ht. split; try done; lia. Qed.

(** What the operations need so that both logs change alike. *)
Definition in_step L n o : Prop :=
  match o with
  | OpPropose _ => last_index (log n) + 1 < u64_max
  | OpStep _ (MAppendEntries m) => agreeable L n m
  | OpStep _ (MInstallSnapshot _) | OpStep _ (MInstallSnapshotReply _) => False
  | _ => True
  end.

(** Compaction commutes with every operation that handles no snapshot message,
    up to the snapshots sent. *)
Lemma exec_shadows L n o :
  node_ok n → u64_node n → u64_op o → trims L (log n) → in_step L n o →
  ∃ L', trims L' (log (exec o n)) ∧ shadows (exec o (uncompacted L n)) L' (exec o n).
Proof.
  intros Hok Hu Huo Ht Hin.
  pose proof (fits_of L n Hok (un_progress _ Hu) Ht) as Hf.
  destruct o as [|from msg|cmd|]; cbn [exec].
  - exists L. split; [by rewrite tick_log|by apply tick_uncompacted].
  - rewrite !step_eq, step_down_uncompacted.
    destruct (step_down_keeps msg n) as (Hl & Hc & _ & Hp & _).
    apply dispatch_uncompacted; [|done| |].
    + destruct Hf. by split; rewrite ?Hl, ?Hc, ?Hp.
    + intros m ->. cbn [in_step] in Hin. unfold agreeable in *. rewrite Hl.
      pose proof (step_down_term (MAppendEntries m) n) as Htm. rewrite Htm. cbn [message_term].
      intros Hle. apply Hin. lia.
    + by destruct msg.
  - by apply propose_uncompacted.
  - destruct (take_ready_uncompacted L n Hok Ht) as [Ht' Heq]. exists L. split; [done|].
    rewrite Heq. apply shadows_refl.
Qed.

Lemma anchored_in_step L n o :
  anchored n o → (∀ from m, o = OpStep from (MAppendEntries m) → agreeable L n m) → in_step L n o.
Proof.
  intros [Ha _] Hag. destruct o as [|from msg|cmd|]; try done. destruct msg; try done. by eapply Hag.
Qed.

(** When no snapshot is sent either, the whole node is the same node. *)
Lemma exec_uncompacted L n o :
  node_ok n → u64_node n → u64_op o → trims L (log n) → in_step L n o → no_snapshots (exec o n) →
  ∃ L', trims L' (log (exec o n)) ∧ exec o (uncompacted L n) = uncompacted L' (exec o n).
Proof.
  intros Hok Hu Huo Ht Hin Hno.
  destruct (exec_shadows L n o Hok Hu Huo Ht Hin) as (L' & Ht' & Hs).
  exists L'. split; [done|]. by apply shadows_plain.
Qed.
End Nodes.
