(* ===== verification/Transparency.v ===== *)
(** * Compaction is invisible: clusters

    A run in which logs are compacted, but nobody needs what is gone, is the
    same run of nodes that never compact: the same packets, the same commands
    for the drivers, and logs that agree wherever both have an entry. What
    [Agreement.v] shows of runs without compaction holds for them too. *)

From S2P Require Import Prelude Storage RaftLog RaftState RaftNode NodeTheory NodeProps Widths ElectionSpec Election Network LogMatching StepFacts Safety SafetyProof Agreement Compaction.
Local Open Scope N_scope.
Local Open Scope u64_scope.

Section Runs.
Context `{RngLaws}.
Implicit Types (n : RaftNode) (s S : sys).

(** The same cluster with nodes that keep their logs. *)
Definition never_compacting s : sys := mkSys ((λ n, uncompacted (log n) n) <$> nodes s) (net s).

(** [S] is [s] with whole logs. *)
Record mirrors s S : Prop := {
  mi_net : net S = net s;
  mi_none : ∀ i, nodes s !! i = None → nodes S !! i = None;
  mi_node : ∀ i n, nodes s !! i = Some n → node_ok n ∧ u64_node n ∧
    ∃ L, trims L (log n) ∧ nodes S !! i = Some (uncompacted L n);
  mi_packet : typed_net s;
}.

Lemma mirrors_op s S a i o :
  mirrors s S → op_of s a = Some (i, o) → op_of S a = Some (i, o) ∧ u64_op o.
Proof.
  intros Hm Ho. split; [|by eapply op_of_typed; [apply Hm|]].
  destruct a; cbn in *; by rewrite ?(mi_net _ _ Hm).
Qed.

(** The whole node may do what the compacting node does. *)
Lemma obeys_whole L n o :
  node_ok n → trims L (log n) → in_step L n o → remembers n o → faithful n o →
  obeys Faithful (uncompacted L n) o.
Proof.
  intros Hok Ht Hin Hrem Hfa. split; [exact Hrem|]. split.
  - destruct o as [|from msg|cmd|]; cbn [quiet]; [done| | |].
    + by destruct msg.
    + cbn [log uncompacted]. by rewrite <-(trims_last_index L (log n)).
    + cbn [exec]. by destruct (take_ready_uncompacted L n Hok Ht) as [_ ->].
  - destruct o as [|from msg|cmd|]; try done. destruct msg as [m|m|m|m|m|m]; try done.
    cbn [faithful log current_term uncompacted] in *. intros Hle Hma. destruct (Hin Hle) as [Habove Hsp].
    assert (snapshot_index (log n) ≤ ae_prev_log_index m) as Hs by (destruct Habove as [?|[-> _]]; lia).
    rewrite <-(trims_matches L (log n)) in Hma by done. specialize (Hfa Hle Hma).
    rewrite (trims_matches L (log n)) in Hma by done.
    pose proof (trims_splice L (log n) _ _ Ht Hs (Hsp Hma)) as Ht'.
    cbv zeta. rewrite <-(trims_last_index _ _ Ht'), <-(trims_last_term _ _ Ht'). exact Hfa.
Qed.

Lemma node_ok_whole L n : node_ok n → trims L (log n) → node_ok (uncompacted L n).
Proof.
  intros [Hl Hs Ha Hc Hb] Ht. rewrite (trims_last_index _ _ Ht) in *.
  split; cbn; [apply Ht|rewrite (tr_index _ _ Ht); lia|done..].
Qed.

(** The compacting node does what its invariant allows. *)
Lemma in_step_op_ok L n o :
  trims L (log n) → in_step L n o → op_ok (uncompacted L n) o → op_ok n o.
Proof.
  intros Ht Hin Ho. destruct o as [|from msg|cmd|]; try done.
  destruct msg as [m|m|m|m|m|m]; try done. cbn in *. intros Hle Hma. destruct (Hin Hle) as [Ha _].
  assert (snapshot_index (log n) ≤ ae_prev_log_index m) as Hs by (destruct Ha as [?|[-> _]]; lia).
  rewrite (trims_matches L (log n)) in Hma by done. destruct (Ho Hle Hma) as (_ & Hb & Hj).
  split; [done|]. split; [done|]. intros j e He Hc.
  rewrite (trims_term_at L (log n)) by (done || lia). by apply Hj.
Qed.

(** An append that starts above the snapshot point is handled alike. *)
Lemma sound_agreeable cl T g S a i from m n L :
  sound cl T g S → op_of S a = Some (i, OpStep from (MAppendEntries m)) → node_ok n →
  trims L (log n) → nodes S !! i = Some (uncompacted L n) →
  (current_term n ≤ ae_term m → starts_above (log n) m) → agreeable L n m.
Proof.
  intros Hs Hop Hok Ht HS Ha Hle. split; [by apply Ha|]. intros Hma.
  apply (message_ok_spliceable (uncompacted L n)); [by apply node_ok_whole| |done|done].
  by eapply sound_append_ok.
Qed.

(** One operation of a node and of its whole counterpart. *)
Lemma exec_mirrored cl T g s S a i o n L :
  sound cl T g S → mirrors s S → op_of s a = Some (i, o) → nodes s !! i = Some n →
  trims L (log n) → nodes S !! i = Some (uncompacted L n) → obeys Compacting n o →
  obeys Faithful (uncompacted L n) o ∧ node_ok (exec o n) ∧ u64_node (exec o n) ∧
  ∃ L', trims L' (log (exec o n)) ∧ exec o (uncompacted L n) = uncompacted L' (exec o n).
Proof.
  intros Hs Hm Hop Hn Ht HS (Hrem & Ha & Hfa). destruct (mi_node _ _ Hm _ _ Hn) as (Hok & Hu & _).
  destruct (mirrors_op _ _ _ _ _ Hm Hop) as [HopS Huo].
  assert (in_step L n o) as Hin.
  { apply anchored_in_step; [done|]. intros from m ->. eapply sound_agreeable; [done..|]. apply Ha. }
  pose proof (obeys_whole L n o Hok Ht Hin Hrem Hfa) as HobS.
  split; [done|]. split; [|split].
  - apply exec_ok; [done|]. eapply in_step_op_ok; [done..|].
    exact (sound_op_ok _ _ _ _ _ _ _ _ Hs HopS HS HobS).
  - by apply u64_exec.
  - apply exec_uncompacted; [done..|apply Ha].
Qed.

Lemma sent_uncompacted a i L n : sent a i (uncompacted L n) = sent a i n.
Proof. destruct a as [j|k|j cmd|j data]; [done..|]. cbn [sent]. by rewrite !ready_messages_outgoing. Qed.

Lemma delivers_mirrored s S i : mirrors s S → delivers S i = delivers s i.
Proof.
  intros Hm. unfold delivers. destruct (nodes s !! i) as [n|] eqn:Hn.
  - destruct (mi_node _ _ Hm _ _ Hn) as (Hok & _ & L & Ht & ->). cbn [fmap option_fmap option_map].
    by destruct (take_ready_uncompacted L n Hok Ht) as [_ ->].
  - by rewrite (mi_none _ _ Hm _ Hn).
Qed.

Lemma handed_mirrored s S a i : mirrors s S → handed S a i = handed s a i.
Proof. intros Hm. destruct a; cbn; [done..|]. by rewrite (delivers_mirrored _ _ _ Hm). Qed.

(** The node the action was performed by, and its counterpart. *)
Lemma mirrors_insert s S i n L ps :
  mirrors s S → node_ok n → u64_node n → trims L (log n) → (∀ p, p ∈ ps → u64_message (p_msg p)) →
  mirrors (mkSys (<[i := n]> (nodes s)) (net s ++ ps))
          (mkSys (<[i := uncompacted L n]> (nodes S)) (net S ++ ps)).
Proof.
  intros Hm Hok Hu Ht Hps. split; cbn.
  - by rewrite (mi_net _ _ Hm).
  - intros j [Hj Hne]%lookup_insert_None. rewrite lookup_insert_ne by done. by apply (mi_none _ _ Hm).
  - intros j m [[<- <-]|[Hne Hj]]%lookup_insert_Some.
    + split; [done|]. split; [done|]. exists L. by rewrite lookup_insert_eq.
    + rewrite lookup_insert_ne by done. by apply (mi_node _ _ Hm).
  - intros p [Hp|Hp]%elem_of_app; [by apply (mi_packet _ _ Hm)|by apply Hps].
Qed.

Lemma act_mirrored cl T g s S a s' :
  sound cl T g S → mirrors s S → act Compacting s a = Some s' →
  ∃ S', act Faithful S a = Some S' ∧ mirrors s' S'.
Proof.
  intros Hs Hm Ha. destruct (act_inv _ _ _ _ Ha) as (i & o & n & Hop & Hn & Hob & ->).
  destruct (mi_node _ _ Hm _ _ Hn) as (Hok & Hu & L & Ht & HS).
  destruct (exec_mirrored _ _ _ _ _ _ _ _ _ _ Hs Hm Hop Hn Ht HS Hob)
    as (HobS & Hok' & Hu' & L' & Ht' & Hex).
  destruct (mirrors_op _ _ _ _ _ Hm Hop) as [HopS _]. eexists. split.
  - unfold act. rewrite HopS. cbn. rewrite HS. cbn. by rewrite decide_True.
  - rewrite Hex, sent_uncompacted. apply mirrors_insert; [done..|]. intros p. by apply sent_typed.
Qed.

Lemma run_mirrored cl T g s S acts s' :
  sound cl T g S → mirrors s S → run Compacting acts s = Some s' →
  ∃ S', run Faithful acts S = Some S' ∧ mirrors s' S' ∧
    ∀ i, delivered Faithful acts S i = delivered Compacting acts s i.
Proof.
  revert T g s S. induction acts as [|a acts IH]; intros T g s S Hs Hm Hr; cbn [run delivered] in *.
  { simplify_eq. by exists S. }
  destruct (act Compacting s a) as [s1|] eqn:Ha; [|done]. cbn in Hr.
  destruct (act_mirrored _ _ _ _ _ _ _ Hs Hm Ha) as (S1 & Ha1 & Hm1).
  destruct (act_sound _ _ _ _ _ _ Hs Ha1) as (T1 & g1 & _ & _ & Hs1 & _).
  destruct (IH _ _ _ _ Hs1 Hm1 Hr) as (S2 & Hr2 & Hm2 & Hd). exists S2. rewrite Ha1.
  split; [done|]. split; [done|]. intros i. by rewrite (handed_mirrored _ _ _ _ Hm), Hd.
Qed.

(** ** From fresh nodes *)
Lemma never_compacting_fresh s : fresh_cluster s → fresh_cluster (never_compacting s).
Proof.
  intros [Hnet Hf]. split; [done|]. intros i N HN. cbn in *. rewrite lookup_fmap in HN.
  apply fmap_Some in HN as (n & Hn & ->). destruct (Hf _ _ Hn) as (e & ps & c & Hnw & Hps).
  exists e, ps, (keep_all c). rewrite dom_fmap_L. split; [|done].
  unfold new in *. cbn. case_decide; [|done]. by injection Hnw as <-.
Qed.

Lemma never_compacting_mirrors s : fresh_cluster s → typed s → mirrors s (never_compacting s).
Proof.
  intros [Hnet Hf] Hty. split; cbn; [done| | |].
  - intros i Hi. by rewrite lookup_fmap, Hi.
  - intros i n Hn. destruct (Hf _ _ Hn) as (e & ps & c & Hnw & _).
    split; [by eapply new_ok|]. split; [by eapply Hty|]. exists (log n).
    rewrite lookup_fmap, Hn. split; [|done].
    unfold new in Hnw. case_decide; [|done]. injection Hnw as <-. by apply trims_whole.
  - intros p Hp. rewrite Hnet in Hp. by apply not_elem_of_nil in Hp.
Qed.

(** The network run behind a compacting run. *)
Lemma run_whole s0 acts s :
  fresh_cluster s0 → typed s0 → run Compacting acts s0 = Some s →
  let S0 := never_compacting s0 in
  ∃ S T g, run Faithful acts S0 = Some S ∧ mirrors s S ∧ sound (dom (nodes S0)) T g S ∧
    all_applied (dom (nodes S0)) T g S (delivered Compacting acts s0).
Proof.
  intros Hf Hty Hr S0. pose proof (never_compacting_fresh _ Hf) as HF.
  destruct (run_mirrored _ _ _ _ _ _ _ (fresh_cluster_sound _ HF) (never_compacting_mirrors _ Hf Hty) Hr)
    as (S & HR & Hm & Hd).
  destruct (run_handed _ _ _ HF HR) as (T & g & Hs & Hap). exists S, T, g.
  split; [done|]. split; [done|]. split; [done|].
  intros i n Hn. rewrite <-Hd. by apply Hap.
Qed.

(** One log explains what every node has handed over. *)
Lemma run_history s0 acts s :
  fresh_cluster s0 → typed s0 → run Compacting acts s0 = Some s →
  ∃ K, snapshot_index K = 0 ∧ ∀ i n, nodes s !! i = Some n →
    last_applied n ≤ last_index K ∧
    delivered Compacting acts s0 i = deliveries K 0 (N.to_nat (last_applied n)) ∧
    ∀ k, snapshot_index (log n) < k ≤ last_applied n → get (log n) k = get K k.
Proof.
  intros Hf Hty Hr. destruct (run_whole _ _ _ Hf Hty Hr) as (S & T & g & _ & Hm & Hs & Hap).
  destruct (map_max last_applied (nodes s)) as [He|(j & nj & Hj & Hmax)].
  { exists RaftLog.new. split; [done|]. intros i n Hn. by rewrite He, lookup_empty in Hn. }
  destruct (mi_node _ _ Hm _ _ Hj) as (Hokj & _ & Lj & Htj & HSj).
  exists Lj. split; [apply Htj|]. intros i n Hn. specialize (Hmax _ _ Hn).
  destruct (mi_node _ _ Hm _ _ Hn) as (_ & _ & L & Ht & HS).
  pose proof (Hap _ _ HS) as Hai. pose proof (Hap _ _ HSj) as Haj. split; [|split].
  - rewrite <-(trims_last_index _ _ Htj). destruct Hokj. lia.
  - rewrite (ap_handed _ _ _ _ _ Hai).
    exact (applied_agree _ _ _ _ _ _ _ _ _ _ Hs HS HSj Hai Haj Hmax).
  - intros k [Hlo Hhi]. rewrite (trims_get L (log n)) by done.
    pose proof (applied_same _ _ _ _ _ _ _ _ _ _ Hs HS HSj Hai Haj Hmax) as Htake.
    apply (take_get T T _ _ _ _ (sound_plain _ _ _ _ _ _ Hs HS) (sound_plain _ _ _ _ _ _ Hs HSj) Htake).
    cbn. lia.
Qed.

(** ** The properties *)

(** [C12] Log compaction is transparent: every run of a cluster from fresh nodes
    that compact their logs and keep to the discipline [Compacting] (as in
    faithful runs no vote of the current term is forgotten and no follower keeps
    entries its leader did not send; no log reaches the last [u64] index, no
    snapshot is shipped, appends start above their receiver's snapshot point, or
    at it and agree with it) is step by step a faithful run of the same nodes
    configured never to compact. Both put the same packets on the network and
    hand the same commands to the drivers, and at the end each node is its
    counterpart with the front of the log replaced by the snapshot point: same
    role, term, vote, commit index, progress, timers and queues, the same
    entries above the snapshot point, and the term of the entry below it. *)
Theorem compaction_transparent s0 acts s :
  fresh_cluster s0 → typed s0 → run Compacting acts s0 = Some s →
  fresh_cluster (never_compacting s0) ∧
  ∃ S, run Faithful acts (never_compacting s0) = Some S ∧ net S = net s ∧
    (∀ i, delivered Faithful acts (never_compacting s0) i = delivered Compacting acts s0 i) ∧
    ∀ i n, nodes s !! i = Some n → ∃ L, nodes S !! i = Some (uncompacted L n) ∧
      snapshot_index L = 0 ∧ snapshot_index (log n) ≤ last_applied n ∧
      last_index (log n) = last_index L ∧
      (∀ k, snapshot_index (log n) < k → get (log n) k = get L k) ∧
      (∀ k, snapshot_index (log n) ≤ k → term_at (log n) k = term_at L k).
Proof.
  intros Hf Hty Hr. pose proof (never_compacting_fresh _ Hf) as HF. split; [done|].
  destruct (run_mirrored _ _ _ _ _ _ _ (fresh_cluster_sound _ HF) (never_compacting_mirrors _ Hf Hty) Hr)
    as (S & HR & Hm & Hd).
  exists S. split; [done|]. split; [apply Hm|]. split; [done|]. intros i n Hn.
  destruct (mi_node _ _ Hm _ _ Hn) as (Hok & _ & L & Ht & HS). exists L.
  split; [done|]. split; [apply Ht|]. split; [apply Hok|]. split; [by apply trims_last_index|].
  split; intros k Hk; [by apply trims_get|by apply trims_term_at].
Qed.

(** Agreement survives compaction: in such a run, at any two moments, two
    nodes hold the same entry at every index both have committed and neither has
    compacted; and the commands one node has handed to its driver are a prefix
    of what another that has applied as much has handed over, although the
    entries may be gone from both logs. *)
Theorem compaction_agreement s0 acts1 s1 acts2 s2 :
  fresh_cluster s0 → typed s0 →
  run Compacting acts1 s0 = Some s1 → run Compacting acts2 s1 = Some s2 →
  ∀ i j ni nj, nodes s1 !! i = Some ni → nodes s2 !! j = Some nj →
    (∀ k, snapshot_index (log ni) < k → snapshot_index (log nj) < k →
       k ≤ commit_index ni → k ≤ commit_index nj →
       ∃ e, get (log ni) k = Some e ∧ get (log nj) k = Some e) ∧
    ∀ m, nodes s2 !! i = Some m → last_applied m ≤ last_applied nj →
      delivered Compacting (acts1 ++ acts2) s0 i `prefix_of`
      delivered Compacting (acts1 ++ acts2) s0 j.
Proof.
  intros Hf Hty Hr1 Hr2 i j ni nj Hi Hj. pose proof (never_compacting_fresh _ Hf) as HF.
  pose proof (fresh_cluster_sound _ HF) as Hs0.
  pose proof (never_compacting_mirrors _ Hf Hty) as Hm0.
  destruct (run_mirrored _ _ _ _ _ _ _ Hs0 Hm0 Hr1) as (S1 & HR1 & Hm1 & _).
  destruct (run_sound _ _ _ _ _ _ Hs0 HR1) as (T1 & g1 & _ & _ & Hs1).
  destruct (run_mirrored _ _ _ _ _ _ _ Hs1 Hm1 Hr2) as (S2 & HR2 & Hm2 & _).
  destruct (mi_node _ _ Hm1 _ _ Hi) as (_ & _ & Li & Hti & HSi).
  destruct (mi_node _ _ Hm2 _ _ Hj) as (_ & _ & Lj & Htj & HSj). split.
  - intros k Hki Hkj Hci Hcj.
    rewrite (trims_get Li (log ni)), (trims_get Lj (log nj)) by done.
    apply (sound_agree _ _ _ _ _ _ _ _ _ _ k Hs1 HR2 HSi HSj); [lia|done|by left].
  - intros m Hmi Hle. destruct (mi_node _ _ Hm2 _ _ Hmi) as (_ & _ & Lm & _ & HSm).
    pose proof (run_after _ _ acts2 _ _ Hr1) as Hr. rewrite Hr2 in Hr.
    destruct (run_mirrored _ _ _ _ _ _ _ Hs0 Hm0 Hr) as (S & HR & HmS & Hd).
    rewrite (run_after _ _ acts2 _ _ HR1), HR2 in HR. injection HR as <-.
    rewrite <-!Hd. destruct (run_handed _ (acts1 ++ acts2) S2 HF) as (T & g & Hs & Hap).
    { by rewrite (run_after _ _ acts2 _ _ HR1). }
    exact (proj2 (handed_prefix _ _ _ _ _ _ _ _ _ Hs Hap HSm HSj Hle)).
Qed.
End Runs.

(** ** A run that compacts *)
Section Example.
#[local] Existing Instance low_rng.
#[local] Existing Instance low_rng_laws.

(** Compacts whatever is applied. *)
Definition eager : RaftConfig := mkConfig 1 5 10 1 None.

Definition eager_node (ids : list NodeId) (i : NodeId) : RaftNode :=
  mkNode i (others i ids) eager low_state Follower None 0 None RaftLog.new 0 0
    progress_default ∅ 0 0 5 [] [].

Definition duo : sys :=
  mkSys (list_to_map ((λ i, (i, eager_node ["n1"; "n2"] i)) <$> ["n1"; "n2"])) [].

Lemma duo_fresh : fresh_cluster duo ∧ typed duo.
Proof.
  assert (∀ i n, nodes duo !! i = Some n → (i = "n1" ∨ i = "n2") ∧ n = eager_node ["n1"; "n2"] i)
    as Hin.
  { intros i n Hn. apply elem_of_list_to_map_2 in Hn. cbn [fmap list_fmap] in Hn.
    rewrite !elem_of_cons in Hn. destruct Hn as [Hn|[Hn|Hn]];
      [injection Hn as -> ->; by auto..|by apply not_elem_of_nil in Hn]. }
  split; [split; [done|]|].
  - intros i n Hn. destruct (Hin i n Hn) as [Hi ->].
    exists low_state, (others i ["n1"; "n2"]), eager. split; [done|]. split.
    + destruct Hi as [-> | ->]; by apply (bool_decide_unpack _).
    + intros j. destruct Hi as [-> | ->]; set_solver.
  - intros i n Hn. destruct (Hin i n Hn) as [_ ->].
    apply (u64_new low_state i (others i ["n1"; "n2"]) eager); [|done].
    by split_and!.
Qed.

(** ["n1"] leads, replicates a command and compacts it, then replicates and
    commits the next on top of the snapshot point. *)
Definition compact_run : list action :=
  timeout "n1" ++ [ADrain "n1" None; ADeliver 0; ADrain "n2" None; ADeliver 1;
    APropose "n1" [x01]; ADrain "n1" None; ADeliver 2; ADeliver 3; ADrain "n2" None; ADeliver 5;
    ADrain "n1" None; APropose "n1" [x02]; ADrain "n1" None; ADeliver 6; ADrain "n2" None;
    ADeliver 7].

(** ["n2"] hears that the second is committed. *)
Definition notice_run : list action := [ATick "n1"; ADrain "n1" None; ADeliver 8].

Lemma compaction_transparent_witness :
  match run Compacting compact_run duo with
  | Some s => ∀ n1, nodes s !! "n1" = Some n1 → snapshot_index (log n1) = 1 ∧
      ∃ S L, run Faithful compact_run (never_compacting duo) = Some S ∧
        nodes S !! "n1" = Some (uncompacted L n1) ∧ snapshot_index L = 0 ∧ last_index L = 2
  | None => False
  end.
Proof.
  destruct (run Compacting compact_run duo) as [s|] eqn:Hr; [|vm_compute in Hr; discriminate Hr].
  intros n1 H1.
  destruct (compaction_transparent duo compact_run s (proj1 duo_fresh) (proj2 duo_fresh) Hr)
    as (_ & S & HS & _ & _ & Hn).
  destruct (Hn "n1" n1 H1) as (L & HL & H0 & _ & Hli & _).
  split; [by apply (observed (λ n, snapshot_index (log n)) _ _ _ _ _ _ 1 Hr H1)|].
  exists S, L. split; [exact HS|]. split; [exact HL|]. split; [exact H0|]. rewrite <-Hli.
  by apply (observed (λ n, last_index (log n)) _ _ _ _ _ _ 2 Hr H1).
Defined.

Lemma compaction_agreement_witness :
  match run Compacting compact_run duo with
  | Some s1 =>
      match run Compacting notice_run s1 with
      | Some s2 => ∀ n1 n2, nodes s1 !! "n1" = Some n1 → nodes s2 !! "n2" = Some n2 →
          ∃ e, get (log n1) 2 = Some e ∧ get (log n2) 2 = Some e
      | None => False
      end
  | None => False
  end.
Proof.
  destruct (run Compacting compact_run duo) as [s1|] eqn:Hr1; [|vm_compute in Hr1; discriminate Hr1].
  destruct (run Compacting notice_run s1) as [s2|] eqn:Hr2.
  2: { rewrite <-(run_after _ compact_run _ _ _ Hr1) in Hr2. vm_compute in Hr2. discriminate Hr2. }
  pose proof (eq_trans (run_after _ compact_run _ _ _ Hr1) Hr2) as Hr.
  intros n1 n2 H1 H2.
  apply (proj1 (compaction_agreement duo compact_run s1 notice_run s2 (proj1 duo_fresh)
    (proj2 duo_fresh) Hr1 Hr2 "n1" "n2" n1 n2 H1 H2)).
  - by rewrite (observed (λ n, snapshot_index (log n)) _ _ _ _ _ _ 1 Hr1 H1) by reflexivity.
  - by rewrite (observed (λ n, snapshot_index (log n)) _ _ _ _ _ _ 1 Hr H2) by reflexivity.
  - by rewrite (observed commit_index _ _ _ _ _ _ 2 Hr1 H1) by reflexivity.
  - by rewrite (observed commit_index _ _ _ _ _ _ 2 Hr H2) by reflexivity.
Defined.
End Example.
