(* ===== verification/Shipping.v ===== *)
(** * Clusters that ship snapshots

    A follower that needs compacted entries is sent a snapshot instead. Beside
    such a run there is the cluster with the whole logs, in which the follower
    that installs a snapshot appends all the snapshot covers: that cluster keeps
    the invariants of [Agreement.v], so the nodes still agree, and one history of
    commands explains what every node hands to its driver. At the end, runs of
    the code that the discipline forbids, and what goes wrong in them. *)

From S2P Require Import Prelude Storage RaftLog RaftState RaftNode NodeTheory NodeProps Widths ElectionSpec Election Network LogMatching StepFacts Safety SafetyProof Agreement Compaction Transparency.
Local Open Scope N_scope.
Local Open Scope u64_scope.

(** A snapshot as the append of all it covers, [L] being the sender's log. *)
Definition as_append (m : InstallSnapshot) (L : list LogEntry) : AppendEntries := {|
  ae_term := is_term m;
  ae_leader_id := is_leader_id m;
  ae_prev_log_index := 0;
  ae_prev_log_term := 0;
  ae_entries := take (N.to_nat (is_last_included_index m)) L;
  ae_leader_commit := is_last_included_index m |}.

Section Adjust.
Context `{Rng} (cl : gset NodeId) (T : chronicle) (g : history).
Implicit Types (n N : RaftNode) (s S : sys) (L : list LogEntry).

(** What the invariants read of a node, but for its queue and progress. *)
Definition core n := (view_of n, peers n, log n, commit_index n).

Lemma core_fields N N' :
  core N' = core N →
  view_of N' = view_of N ∧ role N' = role N ∧ current_term N' = current_term N ∧
  voted_for N' = voted_for N ∧ votes N' = votes N ∧ peers N' = peers N ∧ log N' = log N ∧
  commit_index N' = commit_index N.
Proof.
  intros Hc. split; [exact (f_equal (λ x, x.1.1.1) Hc)|]. injection Hc. intros. by split_and!.
Qed.

(** What a message sent to [dst] must be backed by. *)
Definition owed B (from dst : NodeId) (msg : Message) : Prop :=
  backed cl B dst msg ∧ (∀ m, msg = MAppendEntries m → told T m) ∧ message_safe cl T g from dst msg.

Lemma in_flight_owed B S from dst msg :
  net_ok cl B S → chronicle_ok cl B T S → safe cl T g S → in_flight S from dst msg → owed B from dst msg.
Proof.
  intros Hnet Hch Hok Hf. split; [|split; [|by apply (sf_message _ _ _ _ Hok)]].
  - destruct Hf as [(n & e & Hn & He & -> & ->)|(p & Hp & _ & -> & ->)];
      [by eapply no_outgoing|by apply (no_net _ _ _ Hnet)].
  - intros m ->. destruct Hf as [(n & e & Hn & He & _ & Hm)|(p & Hp & _ & _ & Hm)];
      [by eapply (co_outgoing _ _ _ _ Hch)|by eapply (co_net _ _ _ _ Hch)].
Qed.

(** Messages that may be put in flight: those that are already, a snapshot
    message of node [i] in state [N], and a snapshot in flight as an append. *)
Inductive vouched S N (i : NodeId) : NodeId → NodeId → Message → Prop :=
  | VouchedOld from dst msg : in_flight S from dst msg → vouched S N i from dst msg
  | VouchedSnapshot dst msg :
      ¬ plain_envelope (mkEnvelope dst msg) → fresh_env N (mkEnvelope dst msg) →
      vouched S N i i dst msg
  | VouchedAppend from dst m L :
      in_flight S from dst (MInstallSnapshot m) → T !! is_term m = Some L →
      settled cl T g (is_term m) L (N.to_nat (is_last_included_index m)) →
      vouched S N i from dst (MAppendEntries (as_append m L)).

Lemma vouched_owed B S N i from dst msg :
  net_ok cl B S → chronicle_ok cl B T S → safe cl T g S → view_ok cl B (view_of N) →
  vouched S N i from dst msg → owed B from dst msg.
Proof.
  intros Hnet Hch Hok Hv [f d msg' Hf|d msg' Hpl Hf|f d m L Hf HT Hset].
  - by eapply in_flight_owed.
  - split; [exact (fresh_backed _ _ _ _ Hv Hf)|]. by destruct msg'.
  - destruct (in_flight_owed B S f d _ Hnet Hch Hok Hf) as [Hb _]. split; [exact Hb|]. split.
    + intros m' [= <-]. exists L. split; [done|]. split; [|by left]. cbn.
      rewrite drop_0. apply prefix_take.
    + by exists L.
Qed.

(** A sound system stays so when a node's queue, its applied index or its
    progress below the commit index change, and with other such messages. *)
Section One.
Context (S : sys) (i : NodeId) (N N' : RaftNode) (ps : list packet).
Hypothesis HN : nodes S !! i = Some N.
Hypothesis Hcore : core N' = core N.
#[local] Abbreviation S' := (mkSys (<[i := N']> (nodes S)) ps).

Lemma adjust_back j n' :
  nodes S' !! j = Some n' → ∃ n, nodes S !! j = Some n ∧ core n' = core n ∧
    (n' = n ∨ j = i ∧ n' = N' ∧ n = N).
Proof.
  cbn. intros [[<- <-]|[_ Hj]]%lookup_insert_Some; [exists N|exists n']; auto 6.
Qed.

Lemma adjust_forth j n : nodes S !! j = Some n → ∃ n', nodes S' !! j = Some n' ∧ core n' = core n.
Proof.
  intros Hj. destruct (decide (j = i)) as [->|Hne].
  - exists N'. cbn. rewrite lookup_insert_eq. split; [done|]. congruence.
  - exists n. cbn. by rewrite lookup_insert_ne.
Qed.

Lemma adjust_views : view_of <$> nodes S' = view_of <$> nodes S.
Proof.
  cbn. rewrite fmap_insert. destruct (core_fields _ _ Hcore) as [-> _].
  apply insert_id. by rewrite lookup_fmap, HN.
Qed.

Hypothesis Hprog : ∀ p, role N = Leader →
  matched (progress N') p = matched (progress N) p ∨ matched (progress N') p ≤ commit_index N.
Hypothesis Hflight : ∀ from dst msg, in_flight S' from dst msg → vouched S N' i from dst msg.

Lemma adjust_net B :
  net_ok cl B S → chronicle_ok cl B T S → safe cl T g S → net_ok cl B S' ∧
  ∀ from dst msg, in_flight S' from dst msg → owed B from dst msg.
Proof.
  intros Hnet Hch Hok. pose proof (no_election _ _ _ Hnet) as He. rewrite <-adjust_views in He.
  assert (view_ok cl B (view_of N')) as Hv.
  { apply (eo_views _ _ _ He i). cbn. by rewrite lookup_fmap, lookup_insert_eq. }
  assert (∀ from dst msg, in_flight S' from dst msg → owed B from dst msg) as Ho.
  { intros from dst msg Hf. eapply vouched_owed; [done..|]. by apply Hflight. }
  split; [|exact Ho]. split; [exact He|..].
  - intros j n e Hj Hin. eapply (Ho j). left. by exists n, e.
  - intros p Hp. eapply (Ho (p_from p)). right. by exists p.
Qed.

Lemma adjust_chronicle B :
  chronicle_ok cl B T S → (∀ from dst msg, in_flight S' from dst msg → owed B from dst msg) →
  chronicle_ok cl B T S'.
Proof.
  intros Hch Ho. split.
  - intros j n' Hj. destruct (adjust_back _ _ Hj) as (n & Hn & Hc & _).
    destruct (core_fields _ _ Hc) as (_ & -> & -> & _ & _ & _ & -> & _). by apply (co_node _ _ _ _ Hch _ _ Hn).
  - intros j n' Hj. destruct (adjust_back _ _ Hj) as (n & Hn & Hc & _).
    destruct (core_fields _ _ Hc) as (_ & -> & -> & _ & _ & _ & -> & _). by apply (co_leader _ _ _ _ Hch _ _ Hn).
  - intros t L HT. destruct (co_history _ _ _ _ Hch _ _ HT) as (? & ? & ? & c & n & Hn & Hw & Hp).
    destruct (adjust_forth _ _ Hn) as (n' & Hn' & Hc). split_and!; [done..|]. exists c, n'.
    split; [done|]. split; [done|]. destruct (core_fields _ _ Hc) as (_ & Hr & Ht & _).
    unfold past. by rewrite Hr, Ht.
  - intros j n e m Hj Hin Hm. eapply (Ho j (to e) (message e)); [|done]. left. by exists n, e.
  - intros p m Hp Hm. eapply (Ho (p_from p) (p_to p) (p_msg p)); [|done]. right. by exists p.
Qed.

Lemma adjust_safe B :
  safe cl T g S → (∀ from dst msg, in_flight S' from dst msg → owed B from dst msg) → safe cl T g S'.
Proof.
  intros Hok Ho.
  assert (∀ c t, (∃ n, nodes S !! c = Some n ∧ t ≤ current_term n) →
    ∃ n', nodes S' !! c = Some n' ∧ t ≤ current_term n') as Hlater.
  { intros c t (n & Hn & Ht). destruct (adjust_forth _ _ Hn) as (n' & Hn' & Hc). exists n'.
    destruct (core_fields _ _ Hc) as (_ & _ & -> & _). done. }
  split.
  - intros j n' Hj. destruct (adjust_back _ _ Hj) as (n & Hn & Hc & _).
    destruct (core_fields _ _ Hc) as (_ & _ & _ & _ & _ & -> & _). by apply (sf_peers _ _ _ _ Hok _ _ Hn).
  - intros j n' Hj. destruct (adjust_back _ _ Hj) as (n & Hn & Hc & _).
    destruct (core_fields _ _ Hc) as (_ & -> & -> & _). by apply (sf_running _ _ _ _ Hok _ _ Hn).
  - intros j n' Hj. destruct (adjust_back _ _ Hj) as (n & Hn & Hc & _).
    destruct (core_fields _ _ Hc) as (_ & -> & -> & _ & _ & _ & -> & _).
    by apply (sf_candidate _ _ _ _ Hok _ _ Hn).
  - intros c t L HL. destruct (sf_cand _ _ _ _ Hok _ _ _ HL) as (Hn & ?). split; [by apply Hlater|done].
  - intros u t c L HL. destruct (sf_vote _ _ _ _ Hok _ _ _ _ HL) as (? & Hn & ?).
    split; [done|]. split; [by apply Hlater|done].
  - intros j n' c Hj. destruct (adjust_back _ _ Hj) as (n & Hn & Hc & _).
    destruct (core_fields _ _ Hc) as (_ & _ & -> & -> & _). by apply (sf_voted _ _ _ _ Hok _ _ _ Hn).
  - intros j n' Hj. destruct (adjust_back _ _ Hj) as (n & Hn & Hc & _).
    destruct (core_fields _ _ Hc) as (_ & -> & -> & _ & -> & _). by apply (sf_tally _ _ _ _ Hok _ _ Hn).
  - apply (sf_first _ _ _ _ Hok).
  - apply (sf_led _ _ _ _ Hok).
  - intros v t x Ha. destruct (sf_ack _ _ _ _ Hok _ _ _ Ha) as (? & L & n & ? & ? & Hn & Hrest).
    split; [done|]. destruct (adjust_forth _ _ Hn) as (n' & Hn' & Hc). exists L, n'.
    destruct (core_fields _ _ Hc) as (-> & _ & -> & _ & _ & _ & -> & _). done.
  - apply (sf_ack_vote _ _ _ _ Hok).
  - intros j n' p Hj Hr Hp. destruct (adjust_back _ _ Hj) as (n & Hn & Hc & Hcase).
    destruct (core_fields _ _ Hc) as (_ & Hr' & Ht & _ & _ & Hps & Hl & _).
    rewrite Hr' in Hr. rewrite Hps in Hp. rewrite Ht, Hl.
    pose proof (sf_matched _ _ _ _ Hok _ _ _ Hn Hr Hp) as Hm.
    destruct Hcase as [->|(-> & -> & ->)]; [done|]. destruct (Hprog p Hr) as [->|Hle]; [done|left].
    eapply settled_le; [by apply (sf_commit _ _ _ _ Hok _ _ Hn)|done|lia].
  - intros from dst msg Hf. by apply Ho.
  - intros j n' Hj. destruct (adjust_back _ _ Hj) as (n & Hn & Hc & _).
    destruct (core_fields _ _ Hc) as (_ & _ & -> & _ & _ & _ & -> & ->). by apply (sf_commit _ _ _ _ Hok _ _ Hn).
Qed.

Lemma adjust_sound : sound cl T g S → sound cl T g S'.
Proof.
  intros (B & Hnet & Hch & Hok). destruct (adjust_net B Hnet Hch Hok) as [Hnet' Ho]. exists B.
  split; [done|]. split; [by apply adjust_chronicle|by eapply adjust_safe].
Qed.
End One.
End Adjust.

Section Runs.
Context `{RngLaws}.
Implicit Types (n N : RaftNode) (s S : sys) (L : list LogEntry) (K : RaftLog).

(** ** One operation of a whole node *)

(** The packets [extra] are put on the network, node [i] handles [o], and its
    state [exec o N] and the network are adjusted. *)
Lemma whole_step cl T g S i N o a extra N' ps :
  let S1 := mkSys (nodes S) (net S ++ extra) in
  let S2 := mkSys (<[i := exec o N]> (nodes S)) (net S1 ++ sent a i N) in
  let S' := mkSys (<[i := N']> (nodes S)) ps in
  sound cl T g S → nodes S !! i = Some N →
  (∀ p, p ∈ extra → vouched cl T g S N i (p_from p) (p_to p) (p_msg p)) →
  op_of S1 a = Some (i, o) → obeys Faithful N o → core N' = core (exec o N) →
  (∀ p, matched (progress N') p = matched (progress (exec o N)) p ∨
    matched (progress N') p ≤ commit_index N') →
  (∀ from dst msg, in_flight S' from dst msg → in_flight S2 from dst msg ∨
    from = i ∧ ¬ plain_envelope (mkEnvelope dst msg) ∧ fresh_env N' (mkEnvelope dst msg)) →
  ∃ g', grows T (record T (exec o N)) ∧ extends g g' ∧ sound cl (record T (exec o N)) g' S' ∧
    retains cl T g S (record T (exec o N)) g' S'.
Proof.
  intros S1 S2 S' Hs HN Hextra Hop Hob Hcore Hprog Hfl.
  assert (sound cl T g S1) as Hs1.
  { subst S1. rewrite <-(insert_id (nodes S) i N HN) at 1.
    apply (adjust_sound cl T g S i N N); [done|done|by left| |done].
    rewrite insert_id by done. intros from dst msg [Hq|(p & [Hp|Hp]%elem_of_app & -> & -> & ->)].
    - apply VouchedOld. by left.
    - apply VouchedOld. right. by exists p.
    - by apply Hextra. }
  destruct (op_sound _ _ _ _ _ _ _ N Hs1 Hop HN Hob) as (g' & Hg & He & Hs2 & Hret).
  exists g'. split; [done|]. split; [done|].
  assert (S' = mkSys (<[i := N']> (nodes S2)) ps) as HS'.
  { subst S' S2. cbn. by rewrite insert_insert_eq. }
  assert (nodes S2 !! i = Some (exec o N)) as Hi by (subst S2; cbn; apply lookup_insert_eq).
  rewrite HS' in *. split.
  - apply (adjust_sound cl _ g' S2 i (exec o N) N'); [done|done| | |exact Hs2].
    + intros p _. destruct (core_fields _ _ Hcore) as (_ & _ & _ & _ & _ & _ & _ & <-). apply Hprog.
    + intros from dst msg Hf. destruct (Hfl _ _ _ Hf) as [Hold|(-> & Hpl & Hfr)];
        [by apply VouchedOld|by apply VouchedSnapshot].
  - intros j n x Hj Hset. destruct (Hret j n x Hj Hset) as (n2 & Hn2 & Hset2).
    destruct (adjust_forth S2 i (exec o N) N' ps Hi Hcore _ _ Hn2) as (n3 & Hn3 & Hc).
    exists n3. split; [done|]. destruct (core_fields _ _ Hc) as (_ & _ & -> & _ & _ & _ & -> & _). done.
Qed.
(** ** The cluster with the whole logs *)

(** A snapshot covers entries that are settled in the log of its term's leader,
    and carries the term of the last of them. *)
Definition covers cl T g (m : InstallSnapshot) : Prop :=
  ∃ L, T !! is_term m = Some L ∧
    settled cl T g (is_term m) L (N.to_nat (is_last_included_index m)) ∧
    final_term (take (N.to_nat (is_last_included_index m)) L) = is_last_included_term m.

Lemma covers_mono cl T T' g g' m :
  grows T T' → extends g g' → covers cl T g m → covers cl T' g' m.
Proof.
  intros Hg He (L & HT & Hset & Ht). destruct (Hg _ _ HT) as (L' & HT' & Hp). exists L'.
  pose proof (settled_length _ _ _ _ _ _ Hset) as Hlen.
  pose proof (take_prefix_eq _ _ _ Hlen Hp) as Heq. split; [done|]. rewrite Heq.
  split; [|done]. eapply settled_same; [|exact Heq]. by eapply settled_mono.
Qed.

Record shipped cl T g s S : Prop := {
  sh_sound : sound cl T g S;
  sh_mirrors : mirrors s S;
  sh_covers : ∀ from dst m, in_flight S from dst (MInstallSnapshot m) → covers cl T g m;
}.

Lemma trims_final K l :
  trims K l → final_term (take (N.to_nat (snapshot_index l)) (entries K)) = snapshot_term l.
Proof.
  intros Ht. pose proof (trims_within _ _ Ht) as Hw. pose proof (tr_term _ _ Ht) as Hs.
  destruct (decide (snapshot_index l = 0)) as [Hz|Hz].
  - pose proof (term_at_snapshot K) as HK. rewrite (tr_index _ _ Ht), (tr_zero _ _ Ht) in HK.
    rewrite Hz in Hs |- *. change (0 = snapshot_term l). congruence.
  - rewrite term_at_get in Hs by (rewrite (tr_index _ _ Ht); lia).
    destruct (get K _) as [e|] eqn:He; [|done]. injection Hs as <-.
    pose proof (get_nth K (N.to_nat (snapshot_index l - 1)) (tr_ok _ _ Ht)) as Hk.
    rewrite (tr_index _ _ Ht) in Hk.
    replace (0 + 1 + N.of_nat (N.to_nat (snapshot_index l - 1))) with (snapshot_index l) in Hk by lia.
    rewrite He in Hk. unfold final_term. rewrite last_lookup, length_take, Nat.min_l by done.
    rewrite lookup_take_lt by lia.
    replace (pred (N.to_nat (snapshot_index l))) with (N.to_nat (snapshot_index l - 1)) by lia.
    by rewrite <-Hk.
Qed.

(** The snapshots in flight after the operation. *)
Lemma covers_after cl T g T' g' s S a i n n' N' :
  shipped cl T g s S → grows T T' → extends g g' →
  nodes S !! i = Some N' → outgoing N' = outgoing n →
  (∀ e m, e ∈ outgoing n' → message e = MInstallSnapshot m → e ∈ outgoing n ∨ covers cl T' g' m) →
  ∀ N from dst m, outgoing N = outgoing n' →
    in_flight (mkSys (<[i := N]> (nodes S)) (net S ++ sent a i n)) from dst (MInstallSnapshot m) →
    covers cl T' g' m.
Proof.
  intros Hsh Hg He HN Ho Hnew N from dst m HoN Hf.
  assert (∀ from dst m, in_flight S from dst (MInstallSnapshot m) → covers cl T' g' m) as Hold.
  { intros f d m' Hf'. eapply covers_mono; [done..|]. by eapply (sh_covers _ _ _ _ _ Hsh). }
  assert (∀ e m, e ∈ outgoing n → message e = MInstallSnapshot m → covers cl T' g' m) as Hqueue.
  { intros e m' Hin Hm. apply (Hold i (to e)). left. exists N', e. by rewrite Ho. }
  destruct Hf as [(n2 & e & Hn & Hin & -> & Hm)|(p & Hp & -> & -> & Hm)]; cbn [nodes net] in *.
  - apply lookup_insert_Some in Hn as [[_ <-]|[_ Hn]].
    + rewrite HoN in Hin. destruct (Hnew e m Hin (eq_sym Hm)); [by eapply Hqueue|done].
    + apply (Hold from (to e)). left. by exists n2, e.
  - apply elem_of_app in Hp as [Hp|Hp].
    + apply (Hold (p_from p) (p_to p)). right. by exists p.
    + destruct a as [j|k|j cmd|j data]; cbn [sent] in Hp; try by apply not_elem_of_nil in Hp.
      apply list_elem_of_fmap in Hp as (e & -> & Hin). rewrite ready_messages_outgoing in Hin.
      cbn [p_msg] in Hm. destruct (message e) as [| | | |m0|] eqn:Hme; destruct data; try done.
      all: injection Hm as ->; by apply (Hqueue e _ Hin) in Hme.
Qed.
(** A snapshot the operation queues covers settled entries. *)
Lemma snapshot_new cl T g' S' M n o i K e m :
  quiet n o → Forall (labelled (log n)) (outgoing (exec o n)) → node_ok (exec o n) →
  trims K (log (exec o n)) → sound cl (record T M) g' S' →
  nodes S' !! i = Some (uncompacted K (exec o n)) → core (uncompacted K (exec o n)) = core M →
  e ∈ outgoing (exec o n) → message e = MInstallSnapshot m →
  e ∈ outgoing n ∨ covers cl (record T M) g' m.
Proof.
  intros Hq Hlab Hok Ht Hs Hi Hcore He Hm.
  destruct (exec_emits o n e He) as [?|Hf]; [by left|].
  destruct (exec_sends n o e Hq He) as [?|Hr]; [by left|right].
  pose proof (proj1 (Forall_forall _ _) Hlab e He) as Hl.
  unfold fresh_env, reports, labelled in *. rewrite Hm in *.
  destruct Hf as (Hrole & Hterm & _). specialize (Hl Hr).
  destruct (exec_snapshot_point n o Hq) as [Hsi Hst].
  destruct (core_fields _ _ Hcore) as (_ & HrM & HtM & _ & _ & _ & HlM & _). cbn in HrM, HtM, HlM.
  exists (entries K). rewrite Hterm, Hr, Hl, <-Hsi, <-Hst. split; [|split].
  - rewrite HtM, HlM. apply record_leader. congruence.
  - pose proof (sound_commit _ _ _ _ _ _ Hs Hi) as Hc. cbn in Hc.
    eapply settled_le; [exact Hc|done|]. destruct Hok. lia.
  - by apply trims_final.
Qed.

Lemma op_of_more S ps a i o :
  op_of S a = Some (i, o) → op_of (mkSys (nodes S) (net S ++ ps)) a = Some (i, o).
Proof.
  destruct a as [j|k|j cmd|j data]; cbn; try done.
  destruct (net S !! k) as [p|] eqn:Hp; [|done]. cbn. intros Ho.
  by rewrite (lookup_app_l_Some _ _ _ _ Hp).
Qed.

(** [s] goes to [s'], and the cluster with whole logs with it. *)
Definition ships_to cl T g S s' : Prop :=
  ∃ T' g' S', grows T T' ∧ extends g g' ∧ shipped cl T' g' s' S' ∧ retains cl T g S T' g' S'.

(** Messages about snapshots are handled on their own below. *)
Definition about_snapshots o : Prop :=
  match o with OpStep _ (MInstallSnapshot _) | OpStep _ (MInstallSnapshotReply _) => True | _ => False end.

Lemma shipping_in_step cl T g S a i n K o :
  sound cl T g S → op_of S a = Some (i, o) → node_ok n → trims K (log n) →
  nodes S !! i = Some (uncompacted K n) → shipping n o → ¬ about_snapshots o → in_step K n o.
Proof.
  intros Hs Hop Hok Ht HS [Ha _] Hno. destruct o as [|from msg|cmd|]; try done.
  destruct msg; try (by apply Hno); try done. by eapply sound_agreeable.
Qed.

(** Where the queue of the whole node stands for the queue of the node, no
    message is in flight that was not, but for snapshots just sent. *)
Lemma shadowed_flight S i o n K out ps qs a :
  nodes S !! i = Some (uncompacted K n) → Forall2 stands_for out (outgoing (exec o n)) →
  (∀ p, p ∈ ps → p ∈ net S ++ qs ++ sent a i n) → ∀ K' M from dst msg,
  outgoing M = out →
  (∀ e, e ∈ outgoing n → mkPacket i (to e) (message e) ∈ qs) →
  in_flight (mkSys (<[i := uncompacted K' (exec o n)]> (nodes S)) ps) from dst msg →
  in_flight (mkSys (<[i := M]> (nodes S)) ((net S ++ qs) ++ sent a i n)) from dst msg ∨
  from = i ∧ ¬ plain_envelope (mkEnvelope dst msg) ∧
    fresh_env (uncompacted K' (exec o n)) (mkEnvelope dst msg).
Proof.
  intros HS Hout Hps K' M from dst msg HM Hqs [(n2 & e & Hn & He & -> & ->)|(p & Hp & -> & -> & ->)].
  - cbn [nodes] in Hn. apply lookup_insert_Some in Hn as [[<- <-]|[Hne Hn]].
    2: { left. left. exists n2, e. cbn. by rewrite lookup_insert_ne. }
    change (e ∈ outgoing (exec o n)) in He.
    destruct (decide (plain_envelope e)) as [Hpl|Hpl].
    + apply list_elem_of_lookup in He as [k Hk].
      destruct (Forall2_lookup_r _ _ _ _ _ Hout Hk) as (e' & Hk' & [->|?]); [|done].
      left. left. exists M, e. cbn. rewrite lookup_insert_eq. split; [done|].
      split; [|done]. rewrite HM. by eapply list_elem_of_lookup_2.
    + destruct (exec_emits o n e He) as [Hold|Hf].
      * left. right. exists (mkPacket i (to e) (message e)). split; [|done]. cbn. apply elem_of_app. left.
        apply elem_of_app. right. by apply Hqs.
      * right. split; [done|]. destruct e as [d m]. split; [exact Hpl|].
        unfold fresh_env, plain_envelope in *. cbn in *. by destruct m.
  - left. right. exists p. split; [|done]. cbn in *. rewrite <-app_assoc. by apply Hps.
Qed.

(** An operation that handles no snapshot message. *)
Lemma ship_ordinary cl T g s S a i o n :
  shipped cl T g s S → op_of s a = Some (i, o) → nodes s !! i = Some n → obeys Shipping n o →
  ¬ about_snapshots o →
  ships_to cl T g S (mkSys (<[i := exec o n]> (nodes s)) (net s ++ sent a i n)).
Proof.
  intros Hsh Hop Hn (Hrem & Hship & Hfa) Hno. pose proof Hsh as [Hs Hm _].
  destruct (mi_node _ _ Hm _ _ Hn) as (Hok & Hu & K & Ht & HS).
  destruct (mirrors_op _ _ _ _ _ Hm Hop) as [HopS Huo].
  pose proof (shipping_in_step _ _ _ _ _ _ _ _ _ Hs HopS Hok Ht HS Hship Hno) as Hin.
  pose proof (obeys_whole K n o Hok Ht Hin Hrem Hfa) as HobS.
  assert (node_ok (exec o n)) as Hok'.
  { apply exec_ok; [done|]. eapply in_step_op_ok; [done..|]. by eapply sound_op_ok. }
  destruct (exec_shadows K n o Hok Hu Huo Ht Hin) as (K' & Ht' & out & Hex & Hout).
  set (qs := (λ e, mkPacket i (to e) (message e)) <$> outgoing n).
  destruct (whole_step cl T g S i (uncompacted K n) o a qs (uncompacted K' (exec o n))
    (net S ++ sent a i n)) as (g' & Hg & He & Hs' & Hret); [done|done| |by apply op_of_more|done| | | |].
  { intros p (e & -> & Hin')%list_elem_of_fmap. apply VouchedOld. left. by exists (uncompacted K n), e. }
  { by rewrite Hex. }
  { intros p. left. by rewrite Hex. }
  { intros from dst msg Hf. rewrite sent_uncompacted.
    eapply (shadowed_flight S i o n K out); [done|done| |by rewrite Hex| |exact Hf].
    - intros p [?|?]%elem_of_app; rewrite !elem_of_app; auto.
    - intros e Hin'. subst qs. apply list_elem_of_fmap. by exists e. }
  exists (record T (exec o (uncompacted K n))), g', (mkSys (<[i := uncompacted K' (exec o n)]> (nodes S)) (net S ++ sent a i n)).
  split; [done|]. split; [done|]. split; [|done]. split; [done| |].
  - apply mirrors_insert; [done|done|by apply u64_exec|done|]. intros p. by apply sent_typed.
  - intros from dst m Hf. eapply (covers_after cl T g _ _ s S a i n (exec o n) (uncompacted K n)); [done..| | |exact Hf]; [|done].
    intros e m' Hin' Hm'.
    assert (o = OpTakeReady ∨ o ≠ OpTakeReady) as [->|Hne] by (destruct o; auto).
    { by apply not_elem_of_nil in Hin'. }
    eapply snapshot_new; [|apply Hship|done|done|exact Hs'| |by rewrite Hex|done|done].
    + by destruct o as [|? []| |].
    + cbn. by rewrite lookup_insert_eq.
Qed.

(** The leader credits the follower with its snapshot point, which is committed. *)
Lemma ship_reply cl T g s S a i n from r :
  shipped cl T g s S → op_of s a = Some (i, OpStep from (MInstallSnapshotReply r)) →
  nodes s !! i = Some n →
  let o := OpStep from (MInstallSnapshotReply r) in
  ships_to cl T g S (mkSys (<[i := exec o n]> (nodes s)) (net s ++ sent a i n)).
Proof.
  intros Hsh Hop Hn o. pose proof Hsh as [Hs Hm _].
  destruct (mi_node _ _ Hm _ _ Hn) as (Hok & Hu & K & Ht & HS).
  destruct (mirrors_op _ _ _ _ _ Hm Hop) as [HopS Huo].
  assert (node_ok (exec o n)) as Hok' by (by apply exec_ok).
  assert (log (exec o n) = log n ∧ outgoing (exec o n) = outgoing n ∧
    outgoing (exec o (uncompacted K n)) = outgoing n ∧
    core (uncompacted K (exec o n)) = core (exec o (uncompacted K n)) ∧
    ∀ p, matched (progress (exec o n)) p = matched (progress (exec o (uncompacted K n))) p ∨
      matched (progress (exec o n)) p ≤ commit_index (exec o n)) as (Hl & Ho & HoK & Hcore & Hmat).
  { subst o. cbn [exec]. rewrite !step_eq, step_down_uncompacted. cbn [dispatch].
    destruct (step_down_keeps (MInstallSnapshotReply r) n) as (Hl & Hc & Ho & _). revert Hl Hc Ho.
    generalize (step_down (MInstallSnapshotReply r) n) as n1. intros n1 Hl Hc Ho.
    unfold handle_install_snapshot_reply. cbn [role current_term uncompacted]. case_decide.
    - split_and!; try done. by left.
    - split_and!; try done. intros p. cbn.
      change (matched (set_next_index ?x ?y ?z) p) with (matched x p).
      rewrite !set_match_index_matched. case_decide; [right|by left]. rewrite Hl, Hc.
      destruct Hok. lia. }
  destruct (whole_step cl T g S i (uncompacted K n) o a [] (uncompacted K (exec o n))
    (net S ++ sent a i n)) as (g' & Hg & He & Hs' & Hret); [done|done| | |done|done|done| |].
  { by intros p ?%not_elem_of_nil. }
  { by apply op_of_more. }
  { intros f dst msg Hf. left. rewrite sent_uncompacted, app_nil_r.
    destruct Hf as [(n2 & e & Hn2 & Hin & Hrest)|Hp]; [left|by right].
    cbn in Hn2. apply lookup_insert_Some in Hn2 as [[<- <-]|[Hne Hn2]].
    - exists (exec o (uncompacted K n)), e. cbn [nodes]. rewrite lookup_insert_eq, HoK, <-Ho. done.
    - exists n2, e. cbn. by rewrite lookup_insert_ne. }
  eexists _, g', _. split; [exact Hg|]. split; [done|]. split; [|exact Hret]. split; [done| |].
  - apply mirrors_insert; [done|done|by apply u64_exec|by rewrite Hl|]. intros p. by apply sent_typed.
  - intros f dst m Hf.
    eapply (covers_after cl T g _ _ s S a i n (exec o n) (uncompacted K n)); [done..| | |exact Hf]; [|done].
    intros e m' Hin _. left. by rewrite <-Ho.
Qed.

(** *** Installing a snapshot *)

Lemma plain_matches_0 T K : plain T K → matches K 0 0 = true.
Proof.
  intros (Hz & Hzt & _). pose proof (term_at_snapshot K) as HK. unfold matches.
  rewrite Hz, Hzt in HK. by rewrite HK.
Qed.

(** The leader's log up to what the snapshot covers replaces a log that does not
    reach beyond it. *)
Lemma splice_covered T K L t (x : nat) :
  plain T K → ordered t (entries K) → chronicled T L → len64 L < u64_max →
  (x ≤ length L)%nat → last_index K ≤ N.of_nat x →
  let K' := (splice K 0 (take x L)).2 in
  plain T K' ∧ entries K' = take x L ∧ last_index K' = N.of_nat x.
Proof.
  intros Hpl Hord HL HbL Hx Hlast K'.
  set (m := as_append (mkInstallSnapshot t "" (N.of_nat x) 0 []) L).
  assert (told_by L m) as Htold.
  { split; [|by left]. subst m. cbn. rewrite drop_0. apply prefix_take. }
  destruct (splice_told T K L m t Hpl Hord HL HbL Htold) as (Hpl' & Hcase & Htake & Hlen & _).
  { by eapply plain_matches_0. }
  subst m. cbn [as_append ae_prev_log_index ae_entries is_last_included_index] in *.
  rewrite Nat2N.id in *. fold K' in Hpl', Hcase, Htake.
  clearbody K'. change (N.to_nat 0) with 0%nat in *. rewrite Nat.add_0_l in Hcase, Htake, Hlen.
  rewrite length_take, Nat.min_l in Hcase, Htake, Hlen by done.
  assert (entries K' = take x L) as He.
  { destruct Hcase as [Heq|?]; [|done]. rewrite <-Htake. symmetry. apply take_ge.
    destruct (plain_last _ _ Hpl) as [Hli _]. rewrite Heq. unfold len64 in Hli. lia. }
  split; [done|]. split; [done|]. destruct (plain_last _ _ Hpl') as [-> _]. rewrite He.
  unfold len64. rewrite length_take. lia.
Qed.

(** The node that installs the snapshot, and its counterpart that appends what
    it covers. *)
Record installs n n' M K' (m : InstallSnapshot) : Prop := {
  in_core : core (uncompacted K' n') = core M;
  in_role : role M = Follower;
  in_progress : progress n' = progress M;
  in_log : log n' = mkLog [] (is_last_included_index m) (is_last_included_term m);
  in_commit : commit_index n' = is_last_included_index m;
  in_applied : last_applied n' = is_last_included_index m;
  in_committed : committed n' = committed n ++ [CommittedSnapshot (is_data m)];
  in_outgoing : ∀ e, e ∈ outgoing n' → e ∈ outgoing M ∨ ∃ r, message e = MInstallSnapshotReply r;
}.

Lemma install_uncompacted K n from m L :
  let K' := (splice K 0 (take (N.to_nat (is_last_included_index m)) L)).2 in
  current_term n ≤ is_term m → commit_index n ≤ is_last_included_index m →
  last_index K' = is_last_included_index m → matches K 0 0 = true →
  installs n (exec (OpStep from (MInstallSnapshot m)) n)
    (exec (OpStep from (MAppendEntries (as_append m L))) (uncompacted K n)) K' m.
Proof.
  intros K' Hterm Hcom Hlast Hma. cbn [exec]. rewrite !step_eq, step_down_uncompacted. cbn [dispatch].
  change (step_down (MAppendEntries (as_append m L)) n) with (step_down (MInstallSnapshot m) n).
  destruct (step_down_keeps (MInstallSnapshot m) n) as (_ & Hc & Ho & _).
  pose proof (step_down_term (MInstallSnapshot m) n) as Ht. cbn [message_term] in Ht.
  assert (committed (step_down (MInstallSnapshot m) n) = committed n) as Hcm
    by (by destruct (step_down_cases (MInstallSnapshot m) n) as [[_ ->]|[_ ->]]).
  revert Hc Ho Ht Hcm. generalize (step_down (MInstallSnapshot m) n) as n1. intros n1 Hc Ho Ht Hcm.
  unfold handle_install_snapshot, handle_append_entries.
  cbn [current_term uncompacted as_append ae_term]. rewrite !decide_False by lia.
  set (n2 := become_follower _ _ n1).
  change (become_follower _ _ (uncompacted K n1)) with (uncompacted K n2). cbv zeta.
  cbn [log uncompacted as_append ae_prev_log_index ae_prev_log_term ae_entries]. rewrite Hma.
  assert ((splice K 0 (take (N.to_nat (is_last_included_index m)) L)).1 = last_index K') as Hl1 by done.
  destruct (splice K 0 _) as [li K''] eqn:Hsp. cbn [fst snd] in *. subst K' li.
  change (commit_index (set_log K'' (uncompacted K n2))) with (commit_index n1).
  cbn [ae_leader_commit as_append]. rewrite Hlast, N.min_id.
  case_decide as Hd; [|assert (commit_index n1 = is_last_included_index m) as Hx by lia].
  all: split; cbn; rewrite ?Hcm, ?Ho; try done. 2: by rewrite <-Hx.
  all: intros e [He|He]%elem_of_app; [left; apply elem_of_app; by left|right];
    apply list_elem_of_singleton in He as ->; by eexists.
Qed.

(** The log it installs is what is left of the leader's. *)
Lemma installed_trims T K L (x : nat) t :
  plain T K → entries K = take x L → last_index K = N.of_nat x → final_term (take x L) = t →
  trims K (mkLog [] (N.of_nat x) t).
Proof.
  intros Hp He Hl Ht. pose proof (plain_log_ok _ _ Hp) as Hok. pose proof Hp as (Hz & Hzt & _).
  split; cbn [entries snapshot_index snapshot_term]; [done..| |].
  - rewrite He, drop_ge; [done|]. rewrite length_take. lia.
  - rewrite <-Hl, last_term_term_at by done. destruct (plain_last T K Hp) as [_ ->]. by rewrite He, Ht.
Qed.

(** It puts only its reply in flight. *)
Lemma installed_flight S i n n' M K' m K ps qs :
  installs n n' M K' m → (∀ p, p ∈ ps → p ∈ qs) →
  ∀ from dst msg, in_flight (mkSys (<[i := uncompacted K n']> (nodes S)) ps) from dst msg →
  in_flight (mkSys (<[i := M]> (nodes S)) qs) from dst msg ∨
  from = i ∧ ¬ plain_envelope (mkEnvelope dst msg) ∧
    fresh_env (uncompacted K n') (mkEnvelope dst msg).
Proof.
  intros Hin Hps from dst msg [(n2 & e & Hn2 & He & -> & ->)|(p & Hp & Hrest)].
  - cbn [nodes] in Hn2. apply lookup_insert_Some in Hn2 as [[<- <-]|[Hne Hn2]].
    + destruct (in_outgoing _ _ _ _ _ Hin e He) as [Hold|[r Hr]].
      * left. left. exists M, e. cbn. by rewrite lookup_insert_eq.
      * right. split; [done|]. rewrite Hr. by split; [intros []|].
    + left. left. exists n2, e. cbn. by rewrite lookup_insert_ne.
  - left. right. exists p. split; [by apply Hps|done].
Qed.

(** What is in flight for the node that installs. *)
Lemma sound_snapshot cl T g s S a i from m :
  shipped cl T g s S → op_of S a = Some (i, OpStep from (MInstallSnapshot m)) →
  in_flight S from i (MInstallSnapshot m) ∧ ∃ L, T !! is_term m = Some L ∧
    settled cl T g (is_term m) L (N.to_nat (is_last_included_index m)) ∧
    final_term (take (N.to_nat (is_last_included_index m)) L) = is_last_included_term m ∧
    chronicled T L ∧ len64 L < u64_max.
Proof.
  intros Hsh Hop. destruct (op_of_packet _ _ _ _ _ Hop) as (p & Hp & <- & <- & Hm).
  assert (in_flight S (p_from p) (p_to p) (MInstallSnapshot m)) as Hf by (right; by exists p).
  split; [done|]. destruct (sh_covers _ _ _ _ _ Hsh _ _ _ Hf) as (L & HT & Hset & Ht).
  destruct (sh_sound _ _ _ _ _ Hsh) as (B & _ & Hch & _).
  destruct (co_history _ _ _ _ Hch _ _ HT) as (? & _ & ? & _). by exists L.
Qed.

Lemma op_of_sent s a i n from msg : op_of s a = Some (i, OpStep from msg) → sent a i n = [].
Proof. by destruct a. Qed.

(** A node that installs a snapshot: its counterpart appends what it covers. *)
Lemma ship_install cl T g s S a i n from m :
  shipped cl T g s S → op_of s a = Some (i, OpStep from (MInstallSnapshot m)) →
  nodes s !! i = Some n → current_term n ≤ is_term m →
  last_index (log n) ≤ is_last_included_index m →
  let n' := exec (OpStep from (MInstallSnapshot m)) n in
  ships_to cl T g S (mkSys (<[i := n']> (nodes s)) (net s ++ sent a i n)) ∧
  ∃ M K', installs n n' M K' m.
Proof.
  intros Hsh Hop Hn Hterm Hlast n'. pose proof Hsh as [Hs Hm _].
  destruct (mi_node _ _ Hm _ _ Hn) as (Hok & Hu & K & Ht & HS).
  destruct (mirrors_op _ _ _ _ _ Hm Hop) as [HopS Huo].
  destruct (sound_snapshot _ _ _ _ _ _ _ _ _ Hsh HopS) as (Hf & L & HT & Hset & Hfin & HL & HbL).
  pose proof (settled_length _ _ _ _ _ _ Hset) as Hlen.
  pose proof Hs as (B & _ & Hch & _). destruct (co_node _ _ _ _ Hch _ _ HS) as (Hpl & Hord & _).
  cbn [log uncompacted current_term] in Hpl, Hord.
  set (K' := (splice K 0 (take (N.to_nat (is_last_included_index m)) L)).2).
  destruct (splice_covered T K L _ _ Hpl Hord HL HbL Hlen) as (Hpl' & He' & Hl').
  { rewrite <-(trims_last_index _ _ Ht). lia. }
  fold K' in Hpl', He', Hl'. rewrite N2Nat.id in Hl'.
  pose proof (plain_matches_0 _ _ Hpl) as Hma.
  pose proof (install_uncompacted K n from m L Hterm ltac:(destruct Hok; lia) Hl' Hma) as Hin.
  fold K' n' in Hin. assert ((splice K 0 (take (N.to_nat (is_last_included_index m)) L)).2 = K') as HK'
    by done. clearbody K'. split; [|by eexists _, K'].
  assert (node_ok n') as Hok'.
  { apply exec_ok; [done|]. cbn. unfold len64 in HbL. lia. }
  assert (trims K' (log n')) as Ht'.
  { rewrite (in_log _ _ _ _ _ Hin). rewrite <-(N2Nat.id (is_last_included_index m)) at 1.
    eapply installed_trims; [exact Hpl'|exact He'|by rewrite N2Nat.id|exact Hfin]. }
  set (v := as_append m L) in *. set (o := OpStep from (MAppendEntries v)) in *.
  destruct (whole_step cl T g S i (uncompacted K n) o (ADeliver (length (net S)))
    [mkPacket from i (MAppendEntries v)] (uncompacted K' n') (net S ++ sent a i n))
    as (g' & Hg & He & Hs' & Hret); [done|done| | | |apply Hin| | |].
  { intros p ->%list_elem_of_singleton. by apply VouchedAppend. }
  { cbn. by rewrite lookup_app_r, Nat.sub_diag by lia. }
  { split; [done|]. split; [done|]. intros _ _. left. subst v. cbn [as_append log uncompacted
      ae_prev_log_index ae_entries]. rewrite HK', Hl'. unfold len64. rewrite length_take. lia. }
  { intros p. left. cbn [progress uncompacted]. by rewrite (in_progress _ _ _ _ _ Hin). }
  { eapply installed_flight; [exact Hin|]. rewrite (op_of_sent _ _ _ _ _ _ Hop), app_nil_r.
    intros p Hp. cbn. apply elem_of_app. left. apply elem_of_app. by left. }
  eexists _, g', _. split; [exact Hg|]. split; [done|]. split; [|exact Hret]. split; [done| |].
  - apply mirrors_insert; [done|done|by apply u64_exec|done|]. intros p. by apply sent_typed.
  - intros f dst m' Hf'.
    eapply (covers_after cl T g _ _ s S a i n n' (uncompacted K n)); [done..| | |exact Hf']; [|done].
    intros e m2 Hine Hm2. left. destruct (exec_emits _ n e Hine) as [?|Hfr]; [done|exfalso].
    unfold fresh_env in Hfr. rewrite Hm2 in Hfr. destruct Hfr as [Hr _].
    pose proof (in_core _ _ _ _ _ Hin) as Hc. apply core_fields in Hc as (_ & Hrole & _).
    cbn [role uncompacted] in Hrole. fold n' in Hr. rewrite (in_role _ _ _ _ _ Hin) in Hrole. congruence.
Qed.

(** An operation on a snapshot of an earlier term does nothing. *)
Lemma step_stale n from m : is_term m < current_term n → exec (OpStep from (MInstallSnapshot m)) n = n.
Proof.
  intros Hlt. cbn [exec]. rewrite step_eq.
  destruct (step_down_cases (MInstallSnapshot m) n) as [[_ ->]|[Hle _]]; [|cbn in Hle; lia].
  cbn [dispatch]. unfold handle_install_snapshot. by rewrite decide_True.
Qed.

Lemma ships_to_refl cl T g s S : shipped cl T g s S → ships_to cl T g S s.
Proof.
  intros Hsh. exists T, g, S. split; [apply grows_refl|]. split; [by split_and!|]. split; [done|].
  intros i n x Hn Hset. by exists n.
Qed.

(** A run that only compacts is one that may ship. *)
Lemma compacting_shipping n o : obeys Compacting n o → obeys Shipping n o.
Proof.
  intros (Hrem & [Ha Hno] & Hfa). split; [done|]. split; [|done]. split.
  - destruct o as [|from msg|cmd|]; try done. by destruct msg.
  - eapply Forall_impl; [exact Hno|]. intros e. unfold plain_envelope, labelled. by destruct (message e).
Qed.

(** ** Every action *)
Lemma act_shipped cl T g s S a s' :
  shipped cl T g s S → act Shipping s a = Some s' → ships_to cl T g S s'.
Proof.
  intros Hsh Ha. destruct (act_inv _ _ _ _ Ha) as (i & o & n & Hop & Hn & Hob & ->).
  assert (about_snapshots o ∨ ¬ about_snapshots o) as [Habout|Hno]
    by (destruct o as [|from []| |]; cbn; auto).
  2: by eapply ship_ordinary.
  destruct o as [|from msg| |]; try done. destruct msg as [| | | |m|r]; try done.
  2: by eapply ship_reply.
  destruct (N.lt_ge_cases (is_term m) (current_term n)) as [Hlt|Hle].
  - rewrite step_stale, (op_of_sent _ _ _ _ _ _ Hop), app_nil_r, insert_id by done.
    destruct s. by apply ships_to_refl.
  - destruct Hob as (_ & [Hlast _] & _). by eapply ship_install; [| | | |apply Hlast].
Qed.

Lemma run_shipped cl T g s S acts s' :
  shipped cl T g s S → run Shipping acts s = Some s' → ships_to cl T g S s'.
Proof.
  revert T g s S. induction acts as [|a acts IH]; intros T g s S Hsh Hr; cbn in Hr.
  { simplify_eq. by apply ships_to_refl. }
  destruct (act Shipping s a) as [s1|] eqn:Ha; [|done]. cbn in Hr.
  destruct (act_shipped _ _ _ _ _ _ _ Hsh Ha) as (T1 & g1 & S1 & Hg1 & He1 & Hsh1 & Hret1).
  destruct (IH _ _ _ _ Hsh1 Hr) as (T2 & g2 & S2 & Hg2 & He2 & Hsh2 & Hret2).
  exists T2, g2, S2. split; [by eapply grows_trans|]. split; [by eapply extends_trans|].
  split; [done|]. intros i n x Hn Hset. destruct (Hret1 i n x Hn Hset) as (n1 & Hn1 & Hset1).
  by apply (Hret2 i n1).
Qed.

Lemma fresh_shipped s :
  fresh_cluster s → typed s →
  shipped (dom (nodes (never_compacting s))) ∅ no_history s (never_compacting s).
Proof.
  intros Hf Hty. split.
  - by apply fresh_cluster_sound, never_compacting_fresh.
  - by apply never_compacting_mirrors.
  - destruct (never_compacting_fresh _ Hf) as [Hnet Hnew].
    intros from dst m [(n & e & Hn & He & _)|(p & Hp & _)].
    + destruct (Hnew _ _ Hn) as (? & ? & ? & Hnw & _). unfold new in Hnw. case_decide; [|done].
      injection Hnw as <-. by apply not_elem_of_nil in He.
    + rewrite Hnet in Hp. by apply not_elem_of_nil in Hp.
Qed.

(** ** What the drivers are handed *)

(** The items a node has handed over tell the commands of [K] up to an index, in
    order, but for what its snapshots cover. *)
Inductive explained K : list Committed → N → Prop :=
  | ExplainedNone : explained K [] 0
  | ExplainedCommands items a (k : nat) :
      explained K items a → explained K (items ++ deliveries K a k) (a + N.of_nat k)
  | ExplainedSnapshot items a b data :
      explained K items a → a ≤ b → explained K (items ++ [CommittedSnapshot data]) b.

Lemma explained_ext T1 T2 K1 K2 items a :
  plain T1 K1 → plain T2 K2 →
  take (N.to_nat a) (entries K1) = take (N.to_nat a) (entries K2) →
  explained K1 items a → explained K2 items a.
Proof.
  intros H1 H2 Heq He. induction He as [|items a k He IH|items a x data He IH Hle].
  - constructor.
  - rewrite (deliveries_ext K1 K2).
    + constructor. apply IH. eapply take_eq_le; [|exact Heq]; lia.
    + intros j Hj. eapply take_get; [exact H1|exact H2|exact Heq|lia].
  - econstructor; [|exact Hle]. apply IH. eapply take_eq_le; [|exact Heq]; lia.
Qed.

(** [items] are explained by the log of [n], as far as it is settled. *)
Definition fed cl T g n items (a : N) : Prop :=
  settled cl T g (current_term n) (entries (log n)) (N.to_nat a) ∧ explained (log n) items a.

(** And they stay so. *)
Lemma fed_retained cl T g S T' g' S' i N N' items a :
  sound cl T g S → sound cl T' g' S' → grows T T' → extends g g' → retains cl T g S T' g' S' →
  nodes S !! i = Some N → nodes S' !! i = Some N' → fed cl T g N items a → fed cl T' g' N' items a.
Proof.
  intros Hs Hs' Hg He Hret HN HN' [Hset Hex]. destruct (Hret i N _ HN Hset) as (M & HM & Hset').
  rewrite HN' in HM. injection HM as <-. split; [done|].
  pose proof Hs' as (B & _ & _ & Hok).
  apply (explained_ext T T' (log N)); [by eapply sound_plain|by eapply sound_plain| |exact Hex].
  eapply settled_agree; [by eapply sound_logs|exact Hok| |exact Hset']. by eapply settled_mono.
Qed.

Definition all_fed cl T g s S (cs : NodeId → list Committed) : Prop :=
  ∀ i n N, nodes s !! i = Some n → nodes S !! i = Some N →
    fed cl T g N (cs i ++ committed n) (last_applied n).

(** What an operation other than a drain does to the applied index and the queue. *)
Lemma ship_unapplied cl T g s S a i o n :
  shipped cl T g s S → op_of s a = Some (i, o) → nodes s !! i = Some n → obeys Shipping n o →
  o ≠ OpTakeReady →
  (quiet n o ∨ exec o n = n) ∧
    last_applied (exec o n) = last_applied n ∧ committed (exec o n) = committed n ∨
  ∃ from m M K', o = OpStep from (MInstallSnapshot m) ∧ installs n (exec o n) M K' m ∧
    last_index (log n) ≤ is_last_included_index m ∧ last_applied n ≤ last_index (log n).
Proof.
  intros Hsh Hop Hn (_ & [Hship _] & _) Ho.
  destruct (mi_node _ _ (sh_mirrors _ _ _ _ _ Hsh) _ _ Hn) as (Hok & _).
  assert (quiet n o → (quiet n o ∨ exec o n = n) ∧
    last_applied (exec o n) = last_applied n ∧ committed (exec o n) = committed n) as Hquiet.
  { intros Hq. split; [by left|]. by apply exec_unapplied. }
  destruct o as [|from msg|cmd|]; [left; by apply Hquiet| |left; by apply Hquiet|done].
  destruct msg as [m|m|m|m|m|m]; try (left; by apply Hquiet).
  destruct (N.lt_ge_cases (is_term m) (current_term n)) as [Hlt|Hle];
    [left; rewrite step_stale by done; auto|right].
  destruct (ship_install _ _ _ _ _ _ _ _ _ _ Hsh Hop Hn Hle (Hship Hle)) as (_ & M & K' & Hin).
  exists from, m, M, K'. split_and!; [done|done|by apply Hship|destruct Hok; lia].
Qed.

Lemma act_fed cl T g s S a s' cs :
  shipped cl T g s S → act Shipping s a = Some s' → all_fed cl T g s S cs →
  ∃ T' g' S', shipped cl T' g' s' S' ∧ all_fed cl T' g' s' S' (λ i, cs i ++ handed s a i).
Proof.
  intros Hsh Ha Hfed. destruct (act_shipped _ _ _ _ _ _ _ Hsh Ha) as (T' & g' & S' & Hg & He & Hsh' & Hret).
  exists T', g', S'. split; [done|]. intros j n' N' Hn' HN'. pose proof Hsh as [Hs Hm _].
  pose proof Hsh' as [Hs' Hm' _]. destruct (mi_node _ _ Hm' _ _ Hn') as (Hok' & _ & K' & _ & HK').
  rewrite HN' in HK'. injection HK' as ->.
  destruct (act_inv _ _ _ _ Ha) as (i & o & n & Hop & Hn & Hob & ->). cbn [nodes] in Hn'.
  apply lookup_insert_Some in Hn' as [[<- <-]|[Hne Hnj]].
  2: { destruct (mi_node _ _ Hm _ _ Hnj) as (_ & _ & Kj & _ & HKj).
       rewrite (handed_other _ _ _ _ _ Hop) by auto. rewrite app_nil_r.
       exact (fed_retained _ _ _ _ _ _ _ _ _ _ _ _ Hs Hs' Hg He Hret HKj HN' (Hfed _ _ _ Hnj HKj)). }
  destruct (mi_node _ _ Hm _ _ Hn) as (Hok & _ & K & Ht & HK).
  pose proof (Hfed _ _ _ Hn HK) as [Hset Hex].
  pose proof (λ items x H, fed_retained _ _ _ _ _ _ _ _ _ _ items x Hs Hs' Hg He Hret HK HN' H) as Hkeep.
  assert (o = OpTakeReady ∨ o ≠ OpTakeReady) as [->|Ho] by (destruct o; auto).
  - assert (commit_index n ≤ u64_max) as Hb by (destruct Hok; lia).
    assert (last_applied (exec OpTakeReady n) = N.max (last_applied n) (commit_index n) ∧
      committed (exec OpTakeReady n) = []) as [-> ->]
      by (cbn [exec]; by destruct (take_ready_eq n Hb) as (l & -> & _)).
    rewrite (handed_drain _ _ _ _ Hop Hn Hb), app_nil_r, app_assoc. apply Hkeep. split.
    + pose proof (sound_commit _ _ _ _ _ _ Hs HK) as Hc. cbn [commit_index uncompacted] in Hc.
      rewrite N.max_r by apply Hok. exact Hc.
    + rewrite <-(pending_uncompacted K n Hok Ht). unfold pending.
      replace (N.max (last_applied n) (commit_index n)) with
        (last_applied n + N.of_nat (N.to_nat (commit_index n - last_applied n))) by lia.
      by constructor.
  - rewrite (handed_other _ _ _ _ _ Hop), app_nil_r by auto.
    destruct (ship_unapplied _ _ _ _ _ _ _ _ _ Hsh Hop Hn Hob Ho)
      as [(_ & -> & ->)|(from & m & M & K2 & _ & Hin & Hli & Hla)]; [by apply Hkeep|].
    rewrite (in_committed _ _ _ _ _ Hin).
    assert (last_applied n ≤ last_applied (exec o n)) as Hle
      by (rewrite (in_applied _ _ _ _ _ Hin); lia).
    destruct (Hkeep _ _ (conj Hset Hex)) as [_ Hex']. split.
    + eapply settled_le; [by eapply (sound_commit _ _ _ _ _ _ Hs' HN')|done|].
      cbn [commit_index uncompacted]. destruct Hok'. lia.
    + rewrite app_assoc. by eapply ExplainedSnapshot.
Qed.

Lemma run_fed cl T g s S acts s' cs :
  shipped cl T g s S → run Shipping acts s = Some s' → all_fed cl T g s S cs →
  ∃ T' g' S', shipped cl T' g' s' S' ∧
    all_fed cl T' g' s' S' (λ i, cs i ++ delivered Shipping acts s i).
Proof.
  revert T g s S cs. induction acts as [|a acts IH]; intros T g s S cs Hsh Hr Hfed; cbn in Hr.
  { simplify_eq. exists T, g, S. split; [done|]. intros i n N. cbn. rewrite app_nil_r. by apply Hfed. }
  destruct (act Shipping s a) as [s1|] eqn:Ha; [|done]. cbn in Hr.
  destruct (act_fed _ _ _ _ _ _ _ _ Hsh Ha Hfed) as (T1 & g1 & S1 & Hsh1 & Hfed1).
  destruct (IH _ _ _ _ _ Hsh1 Hr Hfed1) as (T2 & g2 & S2 & Hsh2 & Hfed2).
  exists T2, g2, S2. split; [done|]. intros i n N Hn HN. cbn [delivered]. rewrite Ha, app_assoc.
  by apply Hfed2.
Qed.

Lemma fresh_fed s : fresh_cluster s → all_fed (dom (nodes (never_compacting s))) ∅ no_history s
  (never_compacting s) (λ _, []).
Proof.
  intros [_ Hnew] i n N Hn HN. cbn in HN. rewrite lookup_fmap, Hn in HN. injection HN as <-.
  destruct (Hnew _ _ Hn) as (? & ? & ? & Hnw & _). unfold new in Hnw. case_decide; [|done].
  injection Hnw as <-. split; [by left|constructor].
Qed.

(** Both clusters at two moments of a run. *)
Lemma runs_shipped s0 acts1 s1 acts2 s2 :
  fresh_cluster s0 → typed s0 → run Shipping acts1 s0 = Some s1 → run Shipping acts2 s1 = Some s2 →
  ∃ cl T1 g1 S1 T2 g2 S2, shipped cl T1 g1 s1 S1 ∧ shipped cl T2 g2 s2 S2 ∧
    grows T1 T2 ∧ extends g1 g2.
Proof.
  intros Hf Hty Hr1 Hr2.
  destruct (run_shipped _ _ _ _ _ _ _ (fresh_shipped _ Hf Hty) Hr1) as (T1 & g1 & S1 & _ & _ & Hsh1 & _).
  destruct (run_shipped _ _ _ _ _ _ _ Hsh1 Hr2) as (T2 & g2 & S2 & Hg & He & Hsh2 & _).
  by eexists _, T1, g1, S1, T2, g2, S2.
Qed.

(** What [n1] committed at the first moment is in the log of [n2] at the second. *)
Lemma shipped_take cl T1 g1 s1 S1 T2 g2 s2 S2 i j n1 n2 (x : N) :
  shipped cl T1 g1 s1 S1 → shipped cl T2 g2 s2 S2 → grows T1 T2 → extends g1 g2 →
  nodes s1 !! i = Some n1 → nodes s2 !! j = Some n2 → x ≤ commit_index n1 →
  x ≤ commit_index n2 ∨ (role n2 = Leader ∧ current_term n1 ≤ current_term n2) →
  ∃ K1 K2, trims K1 (log n1) ∧ trims K2 (log n2) ∧ plain T1 K1 ∧ plain T2 K2 ∧
    take (N.to_nat x) (entries K1) = take (N.to_nat x) (entries K2) ∧
    (N.to_nat x ≤ length (entries K2))%nat.
Proof.
  intros [Hs1 Hm1 _] [Hs2 Hm2 _] Hg He H1 H2 Hx Hx2.
  destruct (mi_node _ _ Hm1 _ _ H1) as (_ & _ & K1 & Ht1 & HK1).
  destruct (mi_node _ _ Hm2 _ _ H2) as (_ & _ & K2 & Ht2 & HK2). exists K1, K2.
  pose proof (sound_commit _ _ _ _ _ _ Hs1 HK1) as Hc1.
  cbn [log uncompacted current_term commit_index] in Hc1.
  apply (settled_mono _ _ _ _ _ _ _ _ Hg He) in Hc1.
  pose proof (settled_le _ _ _ _ _ _ _ (N.to_nat x) Hc1 (N.le_refl _) ltac:(lia)) as Hc1'.
  pose proof (sound_logs _ _ _ _ Hs2) as HTs. pose proof Hs2 as (B & _ & Hch & Hok).
  assert (take (N.to_nat x) (entries K1) = take (N.to_nat x) (entries K2)) as Heq.
  { destruct Hx2 as [Hx2|[Hl Ht]].
    - pose proof (sound_commit _ _ _ _ _ _ Hs2 HK2) as Hc2.
      cbn [log uncompacted current_term commit_index] in Hc2.
      pose proof (settled_le _ _ _ _ _ _ _ (N.to_nat x) Hc2 (N.le_refl _) ltac:(lia)) as Hc2'.
      by eapply settled_agree.
    - symmetry. eapply settled_led; [exact HTs|exact Hok|exact Hc1'|exact Ht|].
      exact (co_leader _ _ _ _ Hch _ _ HK2 Hl). }
  split_and!; [done|done|exact (sound_plain _ _ _ _ _ _ Hs1 HK1)|
    exact (sound_plain _ _ _ _ _ _ Hs2 HK2)|done|].
  symmetry in Heq. eapply take_eq_length; [exact (eq_sym Heq)|].
  by eapply settled_length.
Qed.

(** ** The properties *)

(** [C10] Agreement survives snapshot transfers. Take any run of fresh nodes
    that compact their logs and ship snapshots, and that keeps to the discipline
    [Shipping]: as in faithful runs no node forgets its vote of the current term
    and no follower keeps entries its leader did not send; no log reaches the
    last [u64] index; appends start above their receiver's snapshot point, or at
    it and agree with it; each snapshot carries the term of its last entry and
    none replaces a longer log. At any two moments: two nodes that have
    committed an index hold the same entry there, unless it is gone into a
    snapshot; a leader of the same or a later term has it too, and its log
    reaches as far; and a snapshot point of the one is in the log of the other
    with the same term. *)
Theorem snapshot_agreement s0 acts1 s1 acts2 s2 :
  fresh_cluster s0 → typed s0 → run Shipping acts1 s0 = Some s1 → run Shipping acts2 s1 = Some s2 →
  ∀ i j n1 n2 x, nodes s1 !! i = Some n1 → nodes s2 !! j = Some n2 → x ≤ commit_index n1 →
    x ≤ commit_index n2 ∨ (role n2 = Leader ∧ current_term n1 ≤ current_term n2) →
    x ≤ last_index (log n2) ∧
    (snapshot_index (log n1) < x → snapshot_index (log n2) < x →
       ∃ e, get (log n1) x = Some e ∧ get (log n2) x = Some e) ∧
    (snapshot_index (log n1) = x → snapshot_index (log n2) ≤ x →
       term_at (log n2) x = Some (snapshot_term (log n1))).
Proof.
  intros Hf Hty Hr1 Hr2 i j n1 n2 x H1 H2 Hx1 Hx2.
  destruct (runs_shipped _ _ _ _ _ Hf Hty Hr1 Hr2)
    as (cl & T1 & g1 & S1 & T2 & g2 & S2 & Hsh1 & Hsh2 & Hg & He).
  destruct (shipped_take _ _ _ _ _ _ _ _ _ _ _ _ _ x Hsh1 Hsh2 Hg He H1 H2 Hx1 Hx2)
    as (K1 & K2 & Ht1 & Ht2 & Hp1 & Hp2 & Heq & Hlen).
  split; [|split].
  - rewrite (trims_last_index _ _ Ht2), (whole_last_index _ _ Ht2). unfold len64. lia.
  - intros Hs1 Hs2. rewrite (trims_get K1 (log n1)), (trims_get K2 (log n2)) by done.
    rewrite (take_get T1 T2 K1 K2 _ x Hp1 Hp2 Heq) by lia.
    destruct (lookup_lt_is_Some_2 (entries K2) (N.to_nat (x - 1))) as [e Hl]; [lia|].
    exists e. by rewrite (plain_get _ _ _ Hp2) by lia.
  - intros <- Hs2. rewrite (trims_term_at K2 (log n2)) by done. rewrite <-(tr_term _ _ Ht1).
    destruct (decide (snapshot_index (log n1) = 0)) as [->|Hz].
    + pose proof (term_at_snapshot K1) as E1. pose proof (term_at_snapshot K2) as E2.
      rewrite (tr_index _ _ Ht1), (tr_zero _ _ Ht1) in E1.
      rewrite (tr_index _ _ Ht2), (tr_zero _ _ Ht2) in E2. congruence.
    + rewrite !term_at_get by (rewrite ?(tr_index _ _ Ht1), ?(tr_index _ _ Ht2); done).
      by rewrite (take_get T1 T2 K1 K2 _ _ Hp1 Hp2 Heq) by lia.
Qed.

(** [C13] One history explains what every node hands to its driver, also when
    nodes are brought up to date by snapshots. In every run of fresh nodes that
    keeps to the discipline [Shipping] (no vote of the current term is
    forgotten, no follower keeps entries its leader did not send, no log reaches
    the last [u64] index, appends start above their receiver's snapshot point,
    or at it and agree with it, snapshots carry the term of their last entry and
    replace no longer log) there is a sequence of commands such that the items
    each node has handed over or queued are its commands in order, none repeated
    and none skipped but those a snapshot among the items covers, up to the
    node's applied index; and the applied entries a log still holds are the
    history's. *)
Theorem snapshots_explained s0 acts s :
  fresh_cluster s0 → typed s0 → run Shipping acts s0 = Some s →
  ∃ K, snapshot_index K = 0 ∧ ∀ i n, nodes s !! i = Some n →
    last_applied n ≤ last_index K ∧
    explained K (delivered Shipping acts s0 i ++ committed n) (last_applied n) ∧
    ∀ k, snapshot_index (log n) < k ≤ last_applied n → get (log n) k = get K k.
Proof.
  intros Hf Hty Hr.
  destruct (run_fed _ _ _ _ _ _ _ _ (fresh_shipped _ Hf Hty) Hr (fresh_fed _ Hf))
    as (T & g & S & [Hs Hm _] & Hfed).
  destruct (map_max last_applied (nodes s)) as [He|(j & nj & Hj & Hmax)].
  { exists RaftLog.new. split; [done|]. intros i n Hn. by rewrite He, lookup_empty in Hn. }
  destruct (mi_node _ _ Hm _ _ Hj) as (Hokj & _ & Kj & Htj & HSj).
  destruct (Hfed _ _ _ Hj HSj) as [Hsetj _].
  cbn [log uncompacted current_term last_applied] in Hsetj. pose proof Hs as (B & _ & _ & Hok).
  exists Kj. split; [apply Htj|]. intros i n Hn. specialize (Hmax _ _ Hn).
  destruct (mi_node _ _ Hm _ _ Hn) as (_ & _ & K & Ht & HS).
  destruct (Hfed _ _ _ Hn HS) as [Hset Hex].
  cbn [log uncompacted current_term last_applied] in Hset, Hex.
  pose proof (sound_plain _ _ _ _ _ _ Hs HS) as Hp. pose proof (sound_plain _ _ _ _ _ _ Hs HSj) as Hpj.
  assert (take (N.to_nat (last_applied n)) (entries K) = take (N.to_nat (last_applied n)) (entries Kj))
    as Heq.
  { eapply settled_agree; [by eapply sound_logs|exact Hok|exact Hset|].
    eapply settled_le; [exact Hsetj|apply N.le_refl|lia]. }
  split; [|split].
  - rewrite <-(trims_last_index _ _ Htj). destruct Hokj. lia.
  - by apply (explained_ext T T K Kj).
  - intros k Hk. rewrite (trims_get K (log n)) by (done || lia).
    apply (take_get T T K Kj _ _ Hp Hpj Heq). lia.
Qed.
End Runs.

(** ** A follower that is brought up to date by a snapshot *)
Section Example.
#[local] Existing Instance low_rng.
#[local] Existing Instance low_rng_laws.

(** Three nodes that compact whatever is applied. *)
Definition eager_trio : sys :=
  mkSys (list_to_map ((λ i, (i, eager_node ["n1"; "n2"; "n3"] i)) <$> ["n1"; "n2"; "n3"])) [].

Lemma eager_trio_fresh : fresh_cluster eager_trio ∧ typed eager_trio.
Proof.
  assert (∀ i n, nodes eager_trio !! i = Some n →
    (i = "n1" ∨ i = "n2" ∨ i = "n3") ∧ n = eager_node ["n1"; "n2"; "n3"] i) as Hin.
  { intros i n Hn. apply elem_of_list_to_map_2 in Hn. cbn [fmap list_fmap] in Hn.
    rewrite !elem_of_cons in Hn. destruct Hn as [Hn|[Hn|[Hn|Hn]]];
      [injection Hn as -> ->; by auto..|by apply not_elem_of_nil in Hn]. }
  split; [split; [done|]|].
  - intros i n Hn. destruct (Hin i n Hn) as [Hi ->].
    exists low_state, (others i ["n1"; "n2"; "n3"]), eager. split; [done|]. split.
    + destruct Hi as [-> |[-> | ->]]; by apply (bool_decide_unpack _).
    + intros j. destruct Hi as [-> |[-> | ->]]; set_solver.
  - intros i n Hn. destruct (Hin i n Hn) as [_ ->].
    apply (u64_new low_state i (others i ["n1"; "n2"; "n3"]) eager); [|done].
    by split_and!.
Qed.

(** ["n1"] leads, commits a command with ["n2"] and compacts it; ["n3"], which
    missed it, is sent the snapshot. *)
Definition ship_run : list action :=
  timeout "n1" ++ [ADrain "n1" None; ADeliver 0; ADrain "n2" None; ADeliver 2; APropose "n1" [x01];
    ADrain "n1" None; ADeliver 5; ADrain "n2" None; ADeliver 7; ADrain "n1" None;
    ATick "n1"; ADrain "n1" (Some [("k", [x01])]); ADeliver 9].

(** ["n3"] answers, and takes the next command, which ["n1"] commits. *)
Definition resume_run : list action :=
  ship_run ++ [ADrain "n3" None; ADeliver 10; APropose "n1" [x02]; ADrain "n1" None; ADeliver 12;
   ADrain "n3" None; ADeliver 13].

(** ["n1"] compacts it; ["n3"] hears that it is committed. *)
Definition hear_run : list action :=
  [ADrain "n1" None; ATick "n1"; ADrain "n1" None; ADeliver 15].

Lemma snapshot_agreement_witness :
  match run Shipping resume_run eager_trio with
  | Some s1 =>
      match run Shipping hear_run s1 with
      | Some s2 => ∀ n1 n3, nodes s1 !! "n1" = Some n1 → nodes s2 !! "n3" = Some n3 →
          snapshot_index (log n1) = 1 ∧ snapshot_index (log n3) = 1 ∧
          ∃ e, get (log n1) 2 = Some e ∧ get (log n3) 2 = Some e
      | None => False
      end
  | None => False
  end.
Proof.
  destruct (run Shipping resume_run eager_trio) as [s1|] eqn:Hr1; [|vm_compute in Hr1; discriminate Hr1].
  destruct (run Shipping hear_run s1) as [s2|] eqn:Hr2.
  2: { rewrite <-(run_after _ resume_run _ _ _ Hr1) in Hr2. vm_compute in Hr2. discriminate Hr2. }
  pose proof (eq_trans (run_after _ resume_run _ _ _ Hr1) Hr2) as Hr.
  intros n1 n3 H1 H3.
  assert (snapshot_index (log n1) = 1) as S1
    by (by apply (observed (λ n, snapshot_index (log n)) _ _ _ _ _ _ 1 Hr1 H1)).
  assert (snapshot_index (log n3) = 1) as S3
    by (by apply (observed (λ n, snapshot_index (log n)) _ _ _ _ _ _ 1 Hr H3)).
  split; [exact S1|]. split; [exact S3|].
  apply (snapshot_agreement eager_trio resume_run s1 hear_run s2 (proj1 eager_trio_fresh)
    (proj2 eager_trio_fresh) Hr1 Hr2 "n1" "n3" n1 n3 2 H1 H3); [|left| |].
  - by rewrite (observed commit_index _ _ _ _ _ _ 2 Hr1 H1) by reflexivity.
  - by rewrite (observed commit_index _ _ _ _ _ _ 2 Hr H3) by reflexivity.
  - by rewrite S1.
  - by rewrite S3.
Defined.

Definition explained_run : list action := resume_run ++ hear_run ++ [ADrain "n3" None].

Lemma snapshots_explained_witness :
  match run Shipping explained_run eager_trio with
  | Some s => ∀ n3, nodes s !! "n3" = Some n3 →
      ∃ K, snapshot_index K = 0 ∧
        explained K [CommittedSnapshot [("k", [x01])]; CommittedCommand 2 [x02]] 2
  | None => False
  end.
Proof.
  destruct (run Shipping explained_run eager_trio) as [s|] eqn:Hr; [|vm_compute in Hr; discriminate Hr].
  intros n3 H3.
  destruct (snapshots_explained eager_trio explained_run s (proj1 eager_trio_fresh)
    (proj2 eager_trio_fresh) Hr) as (K & HK & Hall).
  exists K. split; [exact HK|]. destruct (Hall "n3" n3 H3) as (_ & Hex & _).
  rewrite (observed last_applied _ _ _ _ _ _ 2 Hr H3) in Hex by (vm_compute; reflexivity).
  rewrite (observed committed _ _ _ _ _ _ [] Hr H3) in Hex by (vm_compute; reflexivity).
  assert (delivered Shipping explained_run eager_trio "n3" =
    [CommittedSnapshot [("k", [x01])]; CommittedCommand 2 [x02]]) as Hd by (vm_compute; reflexivity).
  rewrite Hd in Hex. exact Hex.
Defined.

(** *** What the discipline forbids

    The code does it: snapshots and appends that arrive late are accepted. *)

(** The snapshot of index 1 arrives at ["n3"] a second time, after ["n3"] has
    acknowledged the command of index 2; then ["n2"], which never had it, is
    elected by ["n3"] and commits another command there. *)
Definition late_snapshot_run : list action :=
  explained_run ++ [ADeliver 9] ++ timeout "n2" ++
  [ADrain "n2" None; ADeliver 18; ADrain "n3" None; ADeliver 20; APropose "n2" [x07];
   ADrain "n2" None; ADeliver 24; ADrain "n3" None; ADeliver 25].

(** No entries are kept beyond an accepted append, in any step. *)
Fixpoint faithful_along (acts : list action) (s : sys) : bool :=
  match acts with
  | [] => true
  | a :: acts =>
      match op_of s a, act Voting s a with
      | Some (i, o), Some s' =>
          match nodes s !! i with
          | Some n => bool_decide (faithful n o) && faithful_along acts s'
          | None => false
          end
      | _, _ => false
      end
  end.

(** [C40] A snapshot that arrives late takes back what its receiver has
    acknowledged, and with it a commit: [handle_install_snapshot] installs a
    snapshot below the commit index too. In this run of three fresh nodes, in
    which votes are remembered and no node keeps entries beyond an accepted
    append, two nodes hand different commands for the same index to their
    drivers. *)
Theorem late_snapshot_loses_commit :
  fresh_cluster eager_trio ∧ faithful_along late_snapshot_run eager_trio = true ∧
  match run Voting late_snapshot_run eager_trio with
  | Some s =>
      delivered Voting late_snapshot_run eager_trio "n1" =
        [CommittedCommand 1 [x01]; CommittedCommand 2 [x02]] ∧
      delivers s "n2" = Some [CommittedCommand 1 [x01]; CommittedCommand 2 [x07]]
  | None => False
  end.
Proof.
  split; [exact (proj1 eager_trio_fresh)|]. split; [by vm_compute|].
  vm_compute. split; reflexivity.
Qed.

(** An append from before the first entry is accepted by a log that was
    compacted: ["n3"], whose snapshot covers two entries, takes the first one as
    its third. *)
Theorem late_append_misplaced :
  match run Voting (explained_run ++ [ADeliver 6]) eager_trio with
  | Some s => ∃ n3, nodes s !! "n3" = Some n3 ∧ snapshot_index (log n3) = 2 ∧
      get (log n3) 3 = Some (mkEntry 1 [x01])
  | None => False
  end.
Proof. vm_compute. eexists. split; [reflexivity|]. split; reflexivity. Qed.
End Example.
