(* ===== verification/Peer.v ===== *)
(** * Peer transport ([src/net/peer.rs])

    Length-prefixed JSON frames over a byte stream: the frame codec, the
    receiving loop, and the sending task with its reconnections. *)

From S2P Require Import Prelude Storage Apply RaftLog RaftState.
Local Open Scope N_scope.

Record Wire := mkWire {
  from : NodeId;
  wire_message : Message;
}.

(** ** Frames *)
Definition two32 : N := 4294967296.

(** The low byte of a number. *)
Definition low_byte (n : N) : Byte.byte := default x00 (Byte.of_N (n `mod` 256)).

(** [write_u32]: big endian, of [payload.len() as u32]. *)
Definition u32_bytes (n : N) : bytes :=
  [low_byte (n / 16777216); low_byte (n / 65536); low_byte (n / 256); low_byte n].

Definition bytes_u32 (b3 b2 b1 b0 : Byte.byte) : N :=
  Byte.to_N b3 * 16777216 + Byte.to_N b2 * 65536 + Byte.to_N b1 * 256 + Byte.to_N b0.

Definition write_frame (payload : bytes) : bytes :=
  u32_bytes (len64 payload `mod` two32) ++ payload.

(** [Ok(Some(payload))] and what is left of the stream, [Ok(None)] at the end of
    the stream, [Err] when it ends inside a payload. *)
Inductive read_outcome :=
  | GotFrame (payload rest : bytes)
  | EndOfStream
  | ReadError.

Definition read_frame (stream : bytes) : read_outcome :=
  match stream with
  | b3 :: b2 :: b1 :: b0 :: stream =>
      let len := bytes_u32 b3 b2 b1 b0 in
      if decide (len <= len64 stream)
      then GotFrame (take (N.to_nat len) stream) (drop (N.to_nat len) stream)
      else ReadError
  | _ => EndOfStream
  end.

Section Transport.
Context `{Json Wire}.

(** ** Receiving: the messages forwarded to the driver. The stream is all the
    bytes the connection will ever carry; each round takes at least four. *)
Fixpoint read_loop (fuel : nat) (stream : bytes) : list (NodeId * Message) :=
  match fuel with
  | O => []
  | S fuel =>
      match read_frame stream with
      | GotFrame payload rest =>
          match from_slice payload with
          | Some wire => (from wire, wire_message wire) :: read_loop fuel rest
          | None => read_loop fuel rest
          end
      | EndOfStream | ReadError => []
      end
  end.

Definition read_connection (stream : bytes) : list (NodeId * Message) :=
  read_loop (length stream) stream.

(** The accept loop: a reader per accepted connection; a failed accept is
    passed over. Each reader forwards its messages in order, the readers
    interleave. *)
Definition serve (accepts : list (option bytes)) : list (list (NodeId * Message)) :=
  omap (fmap read_connection) accepts.

(** ** Sending *)

(** A message for the link, and what the network does: whether a connection
    attempt would succeed, and how many bytes are written when writing fails. *)
Record link_event := mkLinkEvent {
  le_message : Message;
  le_connects : bool;
  le_fails_after : option nat;
}.

(** The connections opened so far (latest last) with the bytes written to each,
    and whether the last one is still open. *)
Record Link := mkLink {
  closed : list bytes;
  conn : option bytes;
}.

Definition peer_link_step (my_id : NodeId) (l : Link) (ev : link_event) : Link :=
  let frame := write_frame (to_vec (mkWire my_id (le_message ev))) in
  let c := match conn l with
           | Some s => Some s
           | None => if le_connects ev then Some [] else None
           end in
  match c with
  | Some s =>
      match le_fails_after ev with
      | None => mkLink (closed l) (Some (s ++ frame))
      | Some k => mkLink (closed l ++ [s ++ take k frame]) None
      end
  | None => mkLink (closed l) None
  end.

Definition peer_link (my_id : NodeId) (evs : list link_event) : Link :=
  foldl (peer_link_step my_id) (mkLink [] None) evs.

(** Every stream a receiver may see. *)
Definition streams (l : Link) : list bytes :=
  closed l ++ match conn l with Some s => [s] | None => [] end.
End Transport.

(** ** Theory *)
Section Theory.
Implicit Types (p stream rest : bytes).

Lemma low_byte_to_N n : Byte.to_N (low_byte n) = n `mod` 256.
Proof.
  unfold low_byte. pose proof (N.mod_upper_bound n 256 ltac:(done)) as Hb.
  destruct (Byte.of_N (n `mod` 256)) as [b|] eqn:Hn; cbn.
  - by apply Byte.to_of_N.
  - apply Byte.of_N_None_iff in Hn. lia.
Qed.

Lemma bytes_u32_bytes n :
  n < two32 →
  bytes_u32 (low_byte (n / 16777216)) (low_byte (n / 65536)) (low_byte (n / 256)) (low_byte n) = n.
Proof.
  intros Hn. unfold bytes_u32, two32 in *. rewrite !low_byte_to_N.
  rewrite (N.mod_small (n / 16777216)) by (apply N.Div0.div_lt_upper_bound; lia).
  pose proof (N.div_mod n 256 ltac:(done)) as H1.
  pose proof (N.div_mod (n / 256) 256 ltac:(done)) as H2.
  pose proof (N.div_mod (n / 65536) 256 ltac:(done)) as H3.
  rewrite N.Div0.div_div in H2, H3. change (256 * 256) with 65536 in H2.
  change (65536 * 256) with 16777216 in H3. lia.
Qed.

Lemma read_write_frame p rest :
  read_frame (write_frame p ++ rest) =
  let n := N.to_nat (len64 p `mod` two32) in GotFrame (take n p) (drop n p ++ rest).
Proof.
  unfold write_frame, u32_bytes. cbn [app read_frame].
  pose proof (N.mod_upper_bound (len64 p) two32 ltac:(done)) as Hb.
  rewrite bytes_u32_bytes by done.
  pose proof (N.Div0.mod_le (len64 p) two32) as Hle. unfold len64 in *.
  rewrite decide_True by (rewrite length_app; lia). cbv zeta.
  by rewrite take_app_le, drop_app_le by lia.
Qed.

Lemma read_frame_small p rest :
  len64 p < two32 → read_frame (write_frame p ++ rest) = GotFrame p rest.
Proof.
  intros Hp. rewrite read_write_frame, N.mod_small by done. unfold len64.
  rewrite Nat2N.id. cbv zeta. by rewrite firstn_all, drop_all.
Qed.

(** No whole frame is left in the stream. *)
Definition incomplete (s : bytes) : Prop :=
  read_frame s = EndOfStream ∨ read_frame s = ReadError.

Lemma incomplete_take s k : incomplete s → incomplete (take k s).
Proof.
  unfold incomplete.
  destruct s as [|b3 [|b2 [|b1 [|b0 s]]]]; do 4 (destruct k as [|k]; [by left|]); cbn;
    try by left.
  destruct (decide (_ <= len64 s)) as [|Hlen]; [by intros [|]|]. intros _. right.
  rewrite decide_False; [done|]. unfold len64 in *. rewrite length_take. lia.
Qed.

(** A strict prefix of a frame holds no frame. *)
Lemma read_frame_prefix p k :
  len64 p < two32 → (k < length (write_frame p))%nat →
  incomplete (take k (write_frame p)).
Proof.
  intros Hp Hk. unfold incomplete, write_frame, u32_bytes in *. cbn [app] in *. cbn in Hk.
  do 4 (destruct k as [|k]; [by left|]). cbn [take read_frame]. right.
  rewrite bytes_u32_bytes by (rewrite N.mod_small; done). rewrite N.mod_small by done.
  rewrite decide_False; [done|]. unfold len64. rewrite length_take. lia.
Qed.
End Theory.

Section Links.
Context `{JsonLaws Wire} (my_id : NodeId).
Implicit Types (m : Message) (ms : list Message) (ev : link_event).

Definition frame_of m : bytes := write_frame (to_vec (mkWire my_id m)).
Definition sends_small ms : Prop := Forall (λ m, len64 (to_vec (mkWire my_id m)) < two32) ms.

Lemma sends_small_sublist ms ms' : ms `sublist_of` ms' → sends_small ms' → sends_small ms.
Proof.
  unfold sends_small. induction 1; [done| |]; rewrite !Forall_cons; [|tauto].
  intros [??]. auto.
Qed.

Lemma frame_of_length m : (4 ≤ length (frame_of m))%nat.
Proof. unfold frame_of, write_frame, u32_bytes. cbn. lia. Qed.

Lemma read_loop_frames ms tail fuel :
  sends_small ms → (length (concat (frame_of <$> ms) ++ tail) ≤ fuel)%nat →
  incomplete tail →
  read_loop fuel (concat (frame_of <$> ms) ++ tail) = pair my_id <$> ms.
Proof.
  intros Hsm Hf Ht. revert fuel Hf. induction Hsm as [|m ms Hm _ IH]; intros fuel Hf.
  - cbn in *. destruct fuel; [done|]. cbn. by destruct Ht as [-> | ->].
  - rewrite fmap_cons in Hf |- *. cbn [concat] in Hf |- *. rewrite <-app_assoc, length_app in Hf.
    rewrite <-app_assoc. pose proof (frame_of_length m) as Hl.
    set (rest := concat _ ++ tail) in *.
    assert (4 + length rest ≤ fuel)%nat as Hf'
      by (etrans; [|exact Hf]; by apply Nat.add_le_mono_r).
    clear Hf. destruct fuel as [|fuel]; [lia|]. cbn [read_loop].
    unfold frame_of at 1. rewrite read_frame_small by done. rewrite from_to. cbn [from wire_message].
    rewrite fmap_cons. f_equal. apply IH. lia.
Qed.

Lemma read_connection_frames ms tail :
  sends_small ms → incomplete tail →
  read_connection (concat (frame_of <$> ms) ++ tail) = pair my_id <$> ms.
Proof. intros. by apply read_loop_frames. Qed.

(** Whole frames of a subsequence of [sent], then at most a part of one. *)
Definition carries (sent : list Message) (s : bytes) : Prop :=
  ∃ ms tail, ms `sublist_of` sent ∧ s = concat (frame_of <$> ms) ++ tail ∧
    incomplete tail.

Lemma carries_mono sent sent' s : sent `sublist_of` sent' → carries sent s → carries sent' s.
Proof. intros Hs (ms & tail & Hms & Hrest). exists ms, tail. split; [by etrans|done]. Qed.

(** The stream of an open connection has no partial frame. *)
Definition carries_whole (sent : list Message) (s : bytes) : Prop :=
  ∃ ms, ms `sublist_of` sent ∧ s = concat (frame_of <$> ms).

(** Cutting a stream anywhere leaves whole frames and a part of one. *)
Lemma frames_take ms tail k :
  sends_small ms → incomplete tail →
  ∃ ms' tail', ms' `prefix_of` ms ∧ incomplete tail' ∧
    take k (concat (frame_of <$> ms) ++ tail) = concat (frame_of <$> ms') ++ tail'.
Proof.
  intros Hsm Ht. revert k. induction Hsm as [|m ms Hm _ IH]; intros k.
  - exists [], (take k tail). split; [done|]. by split; [apply incomplete_take|].
  - rewrite fmap_cons. cbn [concat]. rewrite <-app_assoc.
    destruct (decide (k < length (frame_of m))%nat) as [Hk|Hk].
    + rewrite take_app_le by (by apply Nat.lt_le_incl). exists [], (take k (frame_of m)).
      split; [apply prefix_nil|]. split; [|done]. by apply read_frame_prefix.
    + rewrite take_app_ge by (by apply Nat.nlt_ge).
      destruct (IH (k - length (frame_of m))%nat) as (ms' & tail' & Hms' & Ht' & ->).
      exists (m :: ms'), tail'. split; [by apply prefix_cons|]. split; [done|].
      rewrite fmap_cons. cbn [concat]. by rewrite <-app_assoc.
Qed.

Lemma carries_take sent s k : sends_small sent → carries sent s → carries sent (take k s).
Proof.
  intros Hsm (ms & tail & Hms & -> & Ht).
  destruct (frames_take ms tail k) as (ms' & tail' & Hp & Ht' & ->);
    [by eapply sends_small_sublist|done|].
  exists ms', tail'. split; [|done]. etrans; [|exact Hms].
  destruct Hp as [ms'' ->]. by apply sublist_inserts_r.
Qed.

Lemma carries_whole_carries sent s : carries_whole sent s → carries sent s.
Proof.
  intros (ms & Hms & ->). exists ms, []. split; [done|]. split; [by rewrite app_nil_r|by left].
Qed.

Lemma carries_cut sent s m k :
  len64 (to_vec (mkWire my_id m)) < two32 → carries_whole sent s →
  carries (sent ++ [m]) (s ++ take k (frame_of m)).
Proof.
  intros Hm (ms & Hms & ->). destruct (decide (k < length (frame_of m))%nat) as [Hk|Hk].
  - exists ms, (take k (frame_of m)). split; [by apply sublist_inserts_r|]. split; [done|].
    by apply read_frame_prefix.
  - exists (ms ++ [m]), []. split; [by apply sublist_app|]. split; [|by left].
    rewrite fmap_app, concat_app, app_nil_r. cbn. rewrite app_nil_r.
    by rewrite firstn_all2 by (by apply Nat.nlt_ge).
Qed.

Lemma peer_link_carries evs :
  sends_small (le_message <$> evs) →
  let l := peer_link my_id evs in
  Forall (carries (le_message <$> evs)) (closed l) ∧
  match conn l with Some s => carries_whole (le_message <$> evs) s | None => True end.
Proof.
  induction evs as [|ev evs IH] using rev_ind; [done|]. intros Hsm.
  rewrite fmap_app in *. apply Forall_app in Hsm as [Hsm Hm].
  apply Forall_cons in Hm as [Hm _]. specialize (IH Hsm) as [Hcl Hco].
  unfold peer_link in *. rewrite foldl_app. cbn [foldl]. set (l := foldl _ _ evs) in *.
  cbn [fmap list_fmap] in *. set (m := le_message ev) in *.
  assert (Forall (carries ((le_message <$> evs) ++ [m])) (closed l)) as Hcl'.
  { eapply Forall_impl; [exact Hcl|]. intros s. by apply carries_mono, sublist_inserts_r. }
  unfold peer_link_step. fold m. fold (frame_of m).
  destruct (match conn l with Some s => Some s | None => _ end) as [s|] eqn:Hc; [|done].
  assert (carries_whole (le_message <$> evs) s) as Hs.
  { destruct (conn l); [by simplify_eq|]. destruct (le_connects ev); [|done]. simplify_eq.
    exists []. split; [apply sublist_nil_l|done]. }
  destruct (le_fails_after ev) as [k|]; cbn.
  - split; [|done]. apply Forall_app. split; [done|]. constructor; [|done].
    by apply carries_cut.
  - split; [done|]. destruct Hs as (ms & Hms & ->). exists (ms ++ [m]).
    split; [by apply sublist_app|]. rewrite fmap_app, concat_app. cbn. by rewrite app_nil_r.
Qed.

Lemma peer_link_faultless evs :
  Forall (λ ev, le_connects ev = true ∧ le_fails_after ev = None) evs → evs ≠ [] →
  peer_link my_id evs = mkLink [] (Some (concat (frame_of <$> (le_message <$> evs)))).
Proof.
  induction evs as [|ev evs IH] using rev_ind; [done|]. intros Hgood _.
  apply Forall_app in Hgood as [Hg Hev]. apply Forall_cons in Hev as [[Hc Hfa] _].
  unfold peer_link in *. rewrite foldl_app, !fmap_app, concat_app. cbn [foldl].
  destruct (decide (evs = [])) as [->|Hne].
  - unfold peer_link_step. cbn. rewrite Hc, Hfa. cbn. by rewrite app_nil_r.
  - rewrite (IH Hg Hne). unfold peer_link_step. cbn [conn closed]. rewrite Hfa.
    cbn. by rewrite app_nil_r.
Qed.

(** [C29] The transport only loses, as long as every payload is shorter than 4 GiB
    (what its length field can hold): whatever connections are refused or break,
    wherever a write stops and however much of a stream has reached the
    receiver, that part yields, under this node's identity, a subsequence in
    order of the messages handed to the link; and a link without failures
    delivers them all. *)
Theorem link_delivers_only_sent evs :
  sends_small (le_message <$> evs) →
  (∀ s k, s ∈ streams (peer_link my_id evs) →
     ∃ ms, ms `sublist_of` (le_message <$> evs) ∧
       read_connection (take k s) = pair my_id <$> ms) ∧
  (Forall (λ ev, le_connects ev = true ∧ le_fails_after ev = None) evs → evs ≠ [] →
     ∃ s, streams (peer_link my_id evs) = [s] ∧
       read_connection s = pair my_id <$> (le_message <$> evs)).
Proof.
  intros Hsm. destruct (peer_link_carries evs Hsm) as [Hcl Hco]. split.
  - intros s k Hs. assert (carries (le_message <$> evs) s) as Hc.
    { unfold streams in Hs. apply elem_of_app in Hs as [Hs|Hs].
      - rewrite Forall_forall in Hcl. by apply Hcl.
      - destruct (conn (peer_link my_id evs)) as [s'|]; [|by apply not_elem_of_nil in Hs].
        apply list_elem_of_singleton in Hs as ->. by apply carries_whole_carries. }
    apply (carries_take _ _ k Hsm) in Hc as (ms & tail & Hms & -> & Ht).
    exists ms. split; [done|]. apply read_connection_frames; [|done].
    by eapply sends_small_sublist.
  - intros Hgood Hne.
    rewrite peer_link_faultless by done.
    eexists. split; [reflexivity|]. rewrite <-(app_nil_r (concat _)).
    apply read_connection_frames; [done|by left].
Qed.
End Links.

(** A concrete codec for the witness: messages are countable, and the bits of
    their number are bytes of the payload. *)
Module BitCodec.

#[export] Instance byte_countable : Countable Byte.byte.
Proof.
  apply (inj_countable Byte.to_N Byte.of_N). intros b. by rewrite Byte.of_to_N.
Defined.

#[export] Instance LogEntry_countable : Countable LogEntry.
Proof.
  apply (inj_countable' (λ e, (entry_term e, command e)) (λ p, mkEntry p.1 p.2)).
  by intros [].
Defined.

Abbreviation wire_repr := (NodeId * (
  (N * NodeId * N * N) + (N * NodeId * bool) + (N * NodeId * N * N * list LogEntry * N) +
  (N * NodeId * bool * N * N) + (N * NodeId * N * N * list KeyValue) + (N * NodeId)))%type.

Definition to_repr (w : Wire) : wire_repr :=
  (from w, match wire_message w with
   | MRequestVote (mkRequestVote a b c d) => inl (inl (inl (inl (inl (a, b, c, d)))))
   | MRequestVoteReply (mkRequestVoteReply a b c) => inl (inl (inl (inl (inr (a, b, c)))))
   | MAppendEntries (mkAppendEntries a b c d e f) => inl (inl (inl (inr (a, b, c, d, e, f))))
   | MAppendEntriesReply (mkAppendEntriesReply a b c d e) => inl (inl (inr (a, b, c, d, e)))
   | MInstallSnapshot (mkInstallSnapshot a b c d e) => inl (inr (a, b, c, d, e))
   | MInstallSnapshotReply (mkInstallSnapshotReply a b) => inr (a, b)
   end).

Definition of_repr (r : wire_repr) : Wire :=
  mkWire r.1 match r.2 with
   | inl (inl (inl (inl (inl (a, b, c, d))))) => MRequestVote (mkRequestVote a b c d)
   | inl (inl (inl (inl (inr (a, b, c))))) => MRequestVoteReply (mkRequestVoteReply a b c)
   | inl (inl (inl (inr (a, b, c, d, e, f)))) => MAppendEntries (mkAppendEntries a b c d e f)
   | inl (inl (inr (a, b, c, d, e))) => MAppendEntriesReply (mkAppendEntriesReply a b c d e)
   | inl (inr (a, b, c, d, e)) => MInstallSnapshot (mkInstallSnapshot a b c d e)
   | inr (a, b) => MInstallSnapshotReply (mkInstallSnapshotReply a b)
   end.

#[export] Instance Wire_eq_dec : EqDecision Wire.
Proof. solve_decision. Defined.

#[export] Instance Wire_countable : Countable Wire.
Proof. apply (inj_countable' to_repr of_repr). by intros [? [[]|[]|[]|[]|[]|[]]]. Defined.

Fixpoint pos_bits (p : positive) : bytes :=
  match p with xH => [x01] | xO p => x30 :: pos_bits p | xI p => x31 :: pos_bits p end.

Fixpoint bits_pos (b : bytes) : option positive :=
  match b with
  | [x01] => Some xH
  | x30 :: b => xO <$> bits_pos b
  | x31 :: b => xI <$> bits_pos b
  | _ => None
  end.

Lemma bits_pos_bits p : bits_pos (pos_bits p) = Some p.
Proof. induction p as [p IH|p IH|]; cbn; [by rewrite IH..|done]. Qed.

#[export] Instance Wire_json : Json Wire := {|
  to_vec w := pos_bits (countable.encode w);
  from_slice b := bits_pos b ≫= countable.decode;
|}.

#[export] Instance Wire_json_laws : JsonLaws Wire.
Proof.
  split; intros w; cbn.
  - rewrite bits_pos_bits. cbn. apply decode_encode.
  - by destruct (countable.encode w).
Qed.
End BitCodec.

Import BitCodec.

(** A first message is written half, the link reconnects for the second. *)
Definition flaky_events : list link_event :=
  [mkLinkEvent (MInstallSnapshotReply (mkInstallSnapshotReply 1 "b")) true (Some 7%nat);
   mkLinkEvent (MRequestVoteReply (mkRequestVoteReply 1 "b" true)) true None].

Lemma link_delivers_only_sent_witness :
  sends_small "b" (le_message <$> flaky_events) ∧
  (∀ s k, s ∈ streams (peer_link "b" flaky_events) →
     ∃ ms, ms `sublist_of` (le_message <$> flaky_events) ∧
       read_connection (take k s) = pair "b" <$> ms) ∧
  (read_connection <$> streams (peer_link "b" flaky_events)) =
    [[]; [("b", MRequestVoteReply (mkRequestVoteReply 1 "b" true))]].
Proof.
  assert (sends_small "b" (le_message <$> flaky_events)) as Hsm.
  { repeat constructor; vm_compute; reflexivity. }
  split; [exact Hsm|]. split; [|vm_compute; reflexivity].
  apply (link_delivers_only_sent "b" flaky_events Hsm).
Defined.

(** The frame codec: reading back a frame gives the payload and leaves what
    follows as long as its length is below [2^32]. The length header is taken
    modulo [2^32], so a longer payload comes back cut and its tail is read as
    further frames. *)
Theorem frame_roundtrip p rest :
  read_frame (write_frame p ++ rest) =
    (let n := N.to_nat (len64 p `mod` two32) in GotFrame (take n p) (drop n p ++ rest)) ∧
  (len64 p < two32 → read_frame (write_frame p ++ rest) = GotFrame p rest).
Proof. split; [apply read_write_frame|apply read_frame_small]. Qed.
