(* ===== verification/Server.v ===== *)
(** * The driver ([src/server.rs])

    [Driver] owns the Raft node, the store, the metrics and the clients waiting
    for their writes. One turn of [Driver::run] handles an event (a tick, a
    message, a request) and then [process_ready]. Channels are numbered; what
    is sent on them, and to the peer links, is recorded in order. *)

From S2P Require Import Prelude Storage Errors Apply RaftLog RaftState RaftNode.
From S2P Require Metrics.
Local Open Scope N_scope.

(** A one-shot channel to a client task. *)
Abbreviation waiter := nat.

(** [ProposeOutcome::Committed] and [ProposeOutcome::NotLeader]. *)
Inductive ProposeOutcome :=
  | OutCommitted
  | OutNotLeader (leader : option string).

#[export] Instance ProposeOutcome_eq_dec : EqDecision ProposeOutcome.
Proof. solve_decision. Defined.

Record ClusterStatus := mkStatus {
  st_id : string;
  st_role : string;
  st_term : N;
  st_leader : option string;
  st_commit_index : N;
  st_cluster_size : nat;
}.

Inductive DriverMsg :=
  | DPeer (from : NodeId) (message : Message)
  | DPropose (command : WriteCommand) (done : waiter)
  | DStatus (reply : waiter).

Section Driver.
Context `{Rng} {E : Type} `{StorageEngine E} `{Json WriteCommand}.
Context `{!HashIter N (list waiter)} (parse_error : bytes → string).

Record Driver := mkDriver {
  node : RaftNode;
  storage : E;
  metrics : Metrics.MetricsInner;
  links : gset NodeId;
  waiters : gmap N (list waiter);
  was_leader : bool;
  d_cluster_size : nat;
  sent : list (NodeId * Message);
  replies : list (waiter * ProposeOutcome);
  statuses : list (waiter * ClusterStatus);
}.

Definition set_node (v : RaftNode) (d : Driver) : Driver :=
  mkDriver v (storage d) (metrics d) (links d) (waiters d) (was_leader d) (d_cluster_size d)
    (sent d) (replies d) (statuses d).
Definition set_storage (v : E) (d : Driver) : Driver :=
  mkDriver (node d) v (metrics d) (links d) (waiters d) (was_leader d) (d_cluster_size d)
    (sent d) (replies d) (statuses d).
Definition set_metrics (v : Metrics.MetricsInner) (d : Driver) : Driver :=
  mkDriver (node d) (storage d) v (links d) (waiters d) (was_leader d) (d_cluster_size d)
    (sent d) (replies d) (statuses d).
Definition set_waiters (v : gmap N (list waiter)) (d : Driver) : Driver :=
  mkDriver (node d) (storage d) (metrics d) (links d) v (was_leader d) (d_cluster_size d)
    (sent d) (replies d) (statuses d).
Definition set_was_leader (v : bool) (d : Driver) : Driver :=
  mkDriver (node d) (storage d) (metrics d) (links d) (waiters d) v (d_cluster_size d)
    (sent d) (replies d) (statuses d).
Definition set_sent (v : list (NodeId * Message)) (d : Driver) : Driver :=
  mkDriver (node d) (storage d) (metrics d) (links d) (waiters d) (was_leader d)
    (d_cluster_size d) v (replies d) (statuses d).
Definition set_replies (v : list (waiter * ProposeOutcome)) (d : Driver) : Driver :=
  mkDriver (node d) (storage d) (metrics d) (links d) (waiters d) (was_leader d)
    (d_cluster_size d) (sent d) v (statuses d).
Definition set_statuses (v : list (waiter * ClusterStatus)) (d : Driver) : Driver :=
  mkDriver (node d) (storage d) (metrics d) (links d) (waiters d) (was_leader d)
    (d_cluster_size d) (sent d) (replies d) v.

(** [done.send(outcome)] on each of the channels. *)
Definition answer (ws : list waiter) (outcome : ProposeOutcome) (d : Driver) : Driver :=
  set_replies (replies d ++ ((λ w, (w, outcome)) <$> ws)) d.

(** ** Requests *)
Definition status (d : Driver) : ClusterStatus :=
  {| st_id := id (node d);
     st_role := match role (node d) with
                | Leader => "leader" | Candidate => "candidate" | Follower => "follower" end;
     st_term := current_term (node d);
     st_leader := leader_id (node d);
     st_commit_index := commit_index (node d);
     st_cluster_size := d_cluster_size d |}.

Definition handle_request (msg : DriverMsg) (d : Driver) : Driver :=
  match msg with
  | DPeer from message => set_node (step from message (node d)) d
  | DPropose command done =>
      match propose (encode command) (node d) with
      | (n, inl index) =>
          let d := set_node n d in
          set_waiters (<[index := default [] (waiters d !! index) ++ [done]]> (waiters d)) d
      | (n, inr not_leader) =>
          let d := set_node n d in
          let d := set_metrics (Metrics.incr_not_leader (metrics d)) d in
          answer [done] (OutNotLeader (leader not_leader)) d
      end
  | DStatus reply => set_statuses (statuses d ++ [(reply, status d)]) d
  end.

(** ** Outputs of the node *)
Definition fill_snapshot (d : Driver) (message : Message) : Message :=
  match message with
  | MInstallSnapshot snap =>
      MInstallSnapshot (mkInstallSnapshot (is_term snap) (is_leader_id snap)
        (is_last_included_index snap) (is_last_included_term snap) (Storage.snapshot (storage d)))
  | other => other
  end.

(** [Peers::send]: only to a configured peer. *)
Definition peers_send (to : NodeId) (message : Message) (d : Driver) : Driver :=
  if decide (to ∈ links d) then set_sent (sent d ++ [(to, message)]) d else d.

Definition resolve (index : N) (outcome : ProposeOutcome) (d : Driver) : Driver :=
  match waiters d !! index with
  | Some ws => answer ws outcome (set_waiters (delete index (waiters d)) d)
  | None => d
  end.

Definition send_ready (env : Envelope) (d : Driver) : Driver :=
  peers_send (to env) (fill_snapshot d (message env)) d.

Definition apply_ready (c : Committed) (d : Driver) : Driver :=
  match c with
  | CommittedCommand index command =>
      let d := match decode parse_error command with
               | Ok cmd => set_storage (apply cmd (storage d)).1 d
               | Err _ => d
               end in
      resolve index OutCommitted d
  | CommittedSnapshot data => set_storage (Storage.restore (storage d) data) d
  end.

Definition update_metrics (d : Driver) : Driver :=
  let leads := is_leader (node d) in
  let d := if leads && negb (was_leader d)
           then set_metrics (Metrics.incr_elections_won (metrics d)) d else d in
  let d := set_was_leader leads d in
  set_metrics (Metrics.set_gauges (current_term (node d)) leads (commit_index (node d))
                 (last_log_index (node d)) (metrics d)) d.

(** The drain of [self.waiters], in the order of the map. *)
Definition fail_waiters (d : Driver) : Driver :=
  if negb (is_leader (node d)) && bool_decide (waiters d ≠ ∅) then
    let leader := leader_id (node d) in
    let drained := hash_iter (waiters d) in
    foldl (λ d kv, answer kv.2 (OutNotLeader leader) d) (set_waiters ∅ d) drained
  else d.

Definition process_ready (d : Driver) : Driver :=
  let (n, ready) := take_ready (node d) in
  let d := set_node n d in
  let d := foldl (λ d env, send_ready env d) d (ready_messages ready) in
  let d := foldl (λ d c, apply_ready c d) d (ready_committed ready) in
  let d := update_metrics d in
  fail_waiters d.

(** ** The loop of [Driver::run]: any of the three sources may be next. *)
Inductive event :=
  | EvTick
  | EvInbound (from : NodeId) (msg : Message)
  | EvRequest (msg : DriverMsg).

Definition handle_event (ev : event) (d : Driver) : Driver :=
  match ev with
  | EvTick => set_node (tick (node d)) d
  | EvInbound from msg => set_node (step from msg (node d)) d
  | EvRequest msg => handle_request msg d
  end.

Definition turn (ev : event) (d : Driver) : Driver := process_ready (handle_event ev d).

Definition run (evs : list event) (d : Driver) : Driver := foldl (λ d ev, turn ev d) d evs.

(** The driver as [server::run] creates it. *)
Definition server_config : RaftConfig := mkConfig 2 6 12 1024 None.

Definition start (n : RaftNode) (e : E) (peer_ids : list NodeId) : Driver :=
  mkDriver n e Metrics.new (list_to_set peer_ids) ∅ false (length peer_ids + 1) [] [] [].
End Driver.
Arguments Driver {_} E.
