(* ===== verification/ServerTheory.v ===== *)
(** * Theory of the driver

    What one turn does to the waiters, the store and the node, and the
    invariant that ties the waiting clients to the log. *)

From S2P Require Import Prelude Storage Errors Apply RaftLog RaftState RaftNode NodeTheory NodeProps Server.
From S2P Require Metrics.
Local Open Scope N_scope.

Section Theory.
Context `{Rng} {E : Type} `{StorageEngine E} `{Json WriteCommand}.
Context `{!HashIter N (list waiter)} (parse_error : bytes → string).
Implicit Types (d : Driver E) (ev : event).

Abbreviation turn := (turn parse_error).
Abbreviation process_ready := (process_ready parse_error).
Abbreviation apply_ready := (apply_ready parse_error).

(** ** What the steps of [process_ready] leave alone *)

Lemma sends_frame msgs d :
  let d' := foldl (λ d env, send_ready env d) d msgs in
  node d' = node d ∧ storage d' = storage d ∧ metrics d' = metrics d ∧ waiters d' = waiters d ∧
  was_leader d' = was_leader d ∧ replies d' = replies d.
Proof.
  revert d. induction msgs as [|env msgs IH]; intros d; cbn; [done|].
  destruct (IH (send_ready env d)) as (-> & -> & -> & -> & -> & ->).
  unfold send_ready, peers_send. by case_decide.
Qed.

(** The effect of a committed item on the store. *)
Definition store_item (e : E) (c : Committed) : E :=
  match c with
  | CommittedCommand _ command =>
      match decode parse_error command with Ok cmd => (apply cmd e).1 | Err _ => e end
  | CommittedSnapshot data => Storage.restore e data
  end.

Lemma apply_ready_frame c d :
  node (apply_ready c d) = node d ∧ metrics (apply_ready c d) = metrics d ∧
  was_leader (apply_ready c d) = was_leader d ∧
  storage (apply_ready c d) = store_item (storage d) c ∧ sent (apply_ready c d) = sent d.
Proof.
  destruct c as [i cmd|data]; [|done]. cbn. unfold resolve.
  destruct (decode parse_error cmd); cbn; by destruct (waiters d !! i).
Qed.

Lemma applies_frame cs d :
  let d' := foldl (λ d c, apply_ready c d) d cs in
  node d' = node d ∧ metrics d' = metrics d ∧ was_leader d' = was_leader d ∧
  storage d' = foldl store_item (storage d) cs ∧ sent d' = sent d.
Proof.
  revert d. induction cs as [|c cs IH]; intros d; cbn [foldl]; [done|].
  destruct (IH (apply_ready c d)) as (-> & -> & -> & -> & ->).
  by destruct (apply_ready_frame c d) as (-> & -> & -> & -> & ->).
Qed.

(** Removing the waiters of the delivered indices, in order. *)
Definition resolved_at (c : Committed) (ws : gmap N (list waiter)) : gmap N (list waiter) :=
  match c with CommittedCommand i _ => delete i ws | CommittedSnapshot _ => ws end.

Definition answers_at (c : Committed) (ws : gmap N (list waiter))
    : list (waiter * ProposeOutcome) :=
  match c with
  | CommittedCommand i _ => (λ w, (w, OutCommitted)) <$> default [] (ws !! i)
  | CommittedSnapshot _ => []
  end.

Lemma apply_ready_waiters c d :
  waiters (apply_ready c d) = resolved_at c (waiters d) ∧
  replies (apply_ready c d) = replies d ++ answers_at c (waiters d).
Proof.
  destruct c as [i cmd|data]; cbn; [|by rewrite app_nil_r].
  unfold resolve. set (d1 := match decode parse_error cmd with Ok _ => _ | Err _ => _ end).
  assert (waiters d1 = waiters d ∧ replies d1 = replies d) as [-> Hr]
    by (subst d1; by destruct (decode parse_error cmd)).
  destruct (waiters d !! i) as [ws|] eqn:Hi; cbn; rewrite Hr; [done|].
  rewrite app_nil_r. split; [|done].
  rewrite delete_id by done. subst d1. by destruct (decode parse_error cmd).
Qed.

Lemma fail_waiters_frame d :
  let d' := fail_waiters d in
  node d' = node d ∧ metrics d' = metrics d ∧ was_leader d' = was_leader d ∧
  storage d' = storage d ∧ sent d' = sent d.
Proof.
  unfold fail_waiters. destruct (_ && _); [|done]. cbv zeta.
  set (d1 := Server.set_waiters ∅ d).
  assert (node d1 = node d ∧ metrics d1 = metrics d ∧ was_leader d1 = was_leader d ∧
    storage d1 = storage d ∧ sent d1 = sent d) as (<- & <- & <- & <- & <-) by done.
  clearbody d1. generalize (leader_id (node d)). intros l.
  induction (hash_iter (waiters d)) as [|kv kvs IH] using rev_ind; [done|].
  rewrite foldl_app. cbn. exact IH.
Qed.

Lemma fail_waiters_drains d :
  waiters (fail_waiters d) = if is_leader (node d) then waiters d else ∅.
Proof.
  unfold fail_waiters. destruct (is_leader (node d)); cbn [negb andb]; [done|].
  destruct (bool_decide_reflect (waiters d ≠ ∅)) as [|Hempty].
  - cbv zeta. generalize (leader_id (node d)). intros l.
    induction (hash_iter (waiters d)) as [|kv kvs IH] using rev_ind; [done|].
    rewrite foldl_app. exact IH.
  - by destruct (decide (waiters d = ∅)).
Qed.

(** ** The shape of a turn *)
Lemma process_ready_spec d :
  let n := (take_ready (node d)).1 in
  let items := ready_committed (take_ready (node d)).2 in
  let d' := process_ready d in
  node d' = n ∧ storage d' = foldl store_item (storage d) items ∧
  was_leader d' = is_leader n ∧
  waiters d' = (if is_leader n then foldl (flip resolved_at) (waiters d) items else ∅).
Proof.
  cbv zeta. unfold Server.process_ready. destruct (take_ready (node d)) as [n ready]. cbn [fst snd].
  set (d1 := foldl _ _ (ready_messages ready)).
  destruct (sends_frame (ready_messages ready) (set_node n d)) as (Hn & Hs & _ & Hw & _).
  fold d1 in Hn, Hs, Hw. cbn in Hn, Hs, Hw.
  set (d2 := foldl _ d1 (ready_committed ready)).
  destruct (applies_frame (ready_committed ready) d1) as (Hn2 & _ & _ & Hs2 & _).
  fold d2 in Hn2, Hs2.
  assert (waiters d2 = foldl (flip resolved_at) (waiters d1) (ready_committed ready)) as Hw2.
  { subst d2. clearbody d1. clear. revert d1. induction (ready_committed ready) as [|c cs IH]; intros d1; [done|].
    cbn [foldl]. rewrite IH. by rewrite (proj1 (apply_ready_waiters c d1)). }
  destruct (fail_waiters_frame (update_metrics d2)) as (-> & _ & -> & -> & _).
  rewrite fail_waiters_drains.
  assert (node (update_metrics d2) = node d2 ∧ storage (update_metrics d2) = storage d2 ∧
    waiters (update_metrics d2) = waiters d2 ∧
    was_leader (update_metrics d2) = is_leader (node d2)) as (-> & -> & -> & ->).
  { unfold update_metrics. by destruct (_ && _). }
  by rewrite Hn2, Hn, Hs2, Hs, Hw2, Hw.
Qed.

(** ** Accounting for the waiting clients *)

Definition waiting (ws : gmap N (list waiter)) : list waiter := concat (map_to_list ws).*2.

(** The channels answered so far, and those still waiting. *)
Definition account d : list waiter := (replies d).*1 ++ waiting (waiters d).

Definition asked ev : list waiter :=
  match ev with EvRequest (DPropose _ w) => [w] | _ => [] end.

Lemma waiting_delete ws i l :
  ws !! i = Some l → waiting ws ≡ₚ l ++ waiting (delete i ws).
Proof.
  intros Hi. unfold waiting. rewrite <-(map_to_list_delete ws i l Hi). done.
Qed.

Lemma waiting_insert ws i l :
  waiting (<[i := l]> ws) ≡ₚ l ++ waiting (delete i ws).
Proof.
  rewrite (waiting_delete (<[i := l]> ws) i l) by by rewrite lookup_insert_eq.
  by rewrite delete_insert_eq.
Qed.

Lemma waiting_push ws i w :
  waiting (<[i := default [] (ws !! i) ++ [w]]> ws) ≡ₚ waiting ws ++ [w].
Proof.
  rewrite waiting_insert. destruct (ws !! i) as [l|] eqn:Hi; cbn.
  - rewrite (waiting_delete ws i l Hi). solve_Permutation.
  - rewrite delete_id by done. solve_Permutation.
Qed.

Lemma fst_answers (ws : list waiter) (o : ProposeOutcome) : ((λ w, (w, o)) <$> ws).*1 = ws.
Proof. rewrite <-list_fmap_compose. apply list_fmap_id. Qed.

Lemma apply_ready_account c d : account (apply_ready c d) ≡ₚ account d.
Proof.
  unfold account. destruct (apply_ready_waiters c d) as [-> ->]. rewrite fmap_app.
  destruct c as [i cmd|data]; cbn; [|by rewrite app_nil_r].
  destruct (waiters d !! i) as [l|] eqn:Hi; cbn.
  - rewrite fst_answers, (waiting_delete _ _ _ Hi). solve_Permutation.
  - rewrite app_nil_r. by rewrite delete_id.
Qed.

Lemma applies_account cs d : account (foldl (λ d c, apply_ready c d) d cs) ≡ₚ account d.
Proof.
  revert d. induction cs as [|c cs IH]; intros d; cbn [foldl]; [done|].
  by rewrite IH, apply_ready_account.
Qed.

Lemma fail_waiters_account d : account (fail_waiters d) ≡ₚ account d.
Proof.
  unfold fail_waiters. destruct (_ && _); [|done]. cbv zeta.
  generalize (OutNotLeader (leader_id (node d))). intros o. unfold account at 2, waiting.
  rewrite <-(hash_iter_perm (waiters d)).
  assert (∀ (kvs : list (N * list waiter)) d1, waiters d1 = ∅ →
    account (foldl (λ d kv, answer kv.2 o d) d1 kvs) ≡ₚ (replies d1).*1 ++ concat kvs.*2) as Hf.
  { induction kvs as [|kv kvs IH]; intros d1 Hd1; cbn.
    - unfold account. rewrite Hd1. done.
    - rewrite IH by done. cbn. rewrite fmap_app, fst_answers. by rewrite <-app_assoc. }
  by rewrite Hf.
Qed.

Lemma handle_event_account ev d : account (handle_event ev d) ≡ₚ account d ++ asked ev.
Proof.
  unfold account. destruct ev as [|from msg|[from msg|cmd w|w]]; cbn; rewrite ?app_nil_r; try done.
  destruct (propose (encode cmd) (node d)) as [n [i|l]]; cbn.
  - rewrite waiting_push. by rewrite app_assoc.
  - rewrite fmap_app. cbn. solve_Permutation.
Qed.

Lemma process_ready_account d : account (process_ready d) ≡ₚ account d.
Proof.
  unfold Server.process_ready. destruct (take_ready (node d)) as [n ready].
  rewrite fail_waiters_account.
  assert (∀ d, account (update_metrics d) = account d) as ->.
  { intros d'. unfold update_metrics. by destruct (_ && _). }
  rewrite applies_account. unfold account.
  destruct (sends_frame (ready_messages ready) (set_node n d)) as (_ & _ & _ & -> & _ & ->).
  done.
Qed.

Lemma turn_account ev d : account (turn ev d) ≡ₚ account d ++ asked ev.
Proof. unfold Server.turn. by rewrite process_ready_account, handle_event_account. Qed.
(** ** Answers *)
Lemma handle_event_storage ev d : storage (handle_event ev d) = storage d.
Proof.
  destruct ev as [|from msg|[from msg|cmd w|w]]; try done.
  cbn. by destruct (propose (encode cmd) (node d)) as [n [i|l]].
Qed.

(** The items a turn hands to the state machine. *)
Definition delivered_items d : list Committed := ready_committed (take_ready (node d)).2.

(** The answers [process_ready] gives for the delivered items. *)
Lemma applies_replies items d :
  ∃ new, replies (foldl (λ d c, apply_ready c d) d items) = replies d ++ new ∧
    ∀ w o, (w, o) ∈ new → o = OutCommitted ∧
      ∃ i cmd ws, CommittedCommand i cmd ∈ items ∧ waiters d !! i = Some ws ∧ w ∈ ws.
Proof.
  revert d. induction items as [|c items IH]; intros d; cbn [foldl].
  { exists []. rewrite app_nil_r. split; [done|]. by intros w o Hin%not_elem_of_nil. }
  destruct (IH (apply_ready c d)) as (new & -> & Hnew).
  destruct (apply_ready_waiters c d) as [Hw ->]. rewrite <-app_assoc.
  eexists. split; [done|]. intros w o [Hin|Hin]%elem_of_app.
  - destruct c as [i cmd|data]; cbn in Hin; [|by apply not_elem_of_nil in Hin].
    apply list_elem_of_fmap in Hin as (w' & [= -> ->] & Hin). split; [done|].
    destruct (waiters d !! i) as [ws|] eqn:Hi; [|by apply not_elem_of_nil in Hin].
    exists i, cmd, ws. set_solver.
  - destruct (Hnew w o Hin) as (-> & i & cmd & ws & Hi & Hws & Hwin). split; [done|].
    rewrite Hw in Hws. exists i, cmd, ws. split; [set_solver|]. split; [|done].
    destruct c as [j cmd'|data]; cbn in Hws; [|done]. by apply lookup_delete_Some in Hws as [_ ?].
Qed.

Lemma process_ready_replies d :
  role (node d) = Leader →
  ∃ new, replies (process_ready d) = replies d ++ new ∧
    ∀ w o, (w, o) ∈ new → o = OutCommitted ∧
      ∃ i cmd ws, CommittedCommand i cmd ∈ delivered_items d ∧ waiters d !! i = Some ws ∧ w ∈ ws.
Proof.
  intros Hr. unfold Server.process_ready, delivered_items.
  destruct (take_ready_shape (node d)) as (la & l & Hn & _).
  destruct (take_ready (node d)) as [n ready]. cbn [fst snd] in *.
  set (d1 := foldl _ _ (ready_messages ready)).
  destruct (sends_frame (ready_messages ready) (set_node n d)) as (Hn1 & _ & _ & Hw1 & _ & Hr1).
  fold d1 in Hn1, Hw1, Hr1. cbn in Hn1, Hw1, Hr1. rewrite <-Hw1, <-Hr1.
  destruct (applies_replies (ready_committed ready) d1) as (new & Hnew & Hin).
  exists new. split; [|done]. rewrite <-Hnew.
  set (d2 := foldl _ d1 _).
  assert (node d2 = n) as Hn2 by (subst d2; by destruct (applies_frame (ready_committed ready) d1) as (-> & _)).
  assert (is_leader (node (update_metrics d2)) = true ∧
    replies (update_metrics d2) = replies d2) as [Hl <-].
  { unfold update_metrics. destruct (_ && _); cbn; rewrite Hn2, Hn; unfold is_leader; cbn;
      by rewrite Hr. }
  unfold fail_waiters. by rewrite Hl.
Qed.

Lemma handle_event_replies ev d :
  ∃ new, replies (handle_event ev d) = replies d ++ new ∧ ∀ w, (w, OutCommitted) ∉ new.
Proof.
  assert (∃ new, replies d = replies d ++ new ∧ ∀ w, (w, OutCommitted) ∉ new) as Hnone.
  { exists []. rewrite app_nil_r. split; [done|]. intros w. apply not_elem_of_nil. }
  destruct ev as [|from msg|[from msg|cmd w|w]]; try exact Hnone.
  cbn. destruct (propose (encode cmd) (node d)) as [n [i|l]]; cbn; [exact Hnone|].
  eexists. split; [done|]. intros w'. rewrite list_elem_of_singleton. by intros [=].
Qed.

(** Answers are only added. *)
Lemma fail_waiters_replies d : replies d `prefix_of` replies (fail_waiters d).
Proof.
  unfold fail_waiters. destruct (_ && _); [|done]. cbv zeta.
  change (replies d) with (replies (set_waiters ∅ d)) at 1.
  generalize (set_waiters ∅ d), (hash_iter (waiters d)), (OutNotLeader (leader_id (node d))).
  intros d1 kvs o. revert d1. induction kvs as [|kv kvs IH]; intros d1; [done|]. cbn [foldl].
  etrans; [|apply IH]. cbn. by apply prefix_app_r.
Qed.

Lemma turn_replies ev d : ∃ new, replies (turn ev d) = replies d ++ new.
Proof.
  change (replies d `prefix_of` replies (turn ev d)). unfold Server.turn.
  destruct (handle_event_replies ev d) as (new1 & Hnew1 & _).
  etrans; [by exists new1|]. generalize (handle_event ev d). clear d new1 Hnew1. intros d.
  unfold Server.process_ready. destruct (take_ready (node d)) as [n ready].
  etrans; [|apply fail_waiters_replies].
  destruct (sends_frame (ready_messages ready) (set_node n d)) as (_ & _ & _ & _ & _ & Hr).
  set (d1 := foldl _ (set_node n d) _) in *.
  destruct (applies_replies (ready_committed ready) d1) as (new & Hnew & _).
  set (d2 := foldl _ d1 _) in *.
  assert (replies (update_metrics d2) = replies d2) as ->.
  { unfold update_metrics. by destruct (_ && _). }
  exists new. rewrite Hnew. by f_equal.
Qed.

(** ** The node and its messages *)

(** The node operation an event performs. *)
Definition event_op ev : option node_op :=
  match ev with
  | EvTick => Some OpTick
  | EvInbound from msg | EvRequest (DPeer from msg) => Some (OpStep from msg)
  | EvRequest (DPropose cmd _) => Some (OpPropose (encode cmd))
  | EvRequest (DStatus _) => None
  end.

Lemma event_op_drain ev o : event_op ev = Some o → o ≠ OpTakeReady.
Proof. by destruct ev as [|?|[|?|]]; intros [= <-]. Qed.

Definition exec_event ev n : RaftNode :=
  match event_op ev with Some o => exec o n | None => n end.

Lemma handle_event_node ev d : node (handle_event ev d) = exec_event ev (node d).
Proof.
  destruct ev as [|from msg|[from msg|cmd w|w]]; try done.
  unfold exec_event. cbn. by destruct (propose (encode cmd) (node d)) as [n [i|l]].
Qed.

(** What [process_ready] sends: what the node queued, to configured peers only,
    snapshots filled from the store. *)
Definition outbox d : list (NodeId * Message) :=
  (λ env, (to env, fill_snapshot d (message env))) <$>
    filter (λ env, to env ∈ links d) (outgoing (node d)).

Lemma sends_sent msgs d :
  sent (foldl (λ d env, send_ready env d) d msgs) = sent d ++
    ((λ env, (to env, fill_snapshot d (message env))) <$> filter (λ env, to env ∈ links d) msgs).
Proof.
  revert d. induction msgs as [|env msgs IH]; intros d; cbn [foldl]; [by rewrite app_nil_r|].
  rewrite IH. unfold send_ready, peers_send. rewrite filter_cons. case_decide; [|done].
  cbn. by rewrite <-app_assoc.
Qed.

Lemma process_ready_sent d : sent (process_ready d) = sent d ++ outbox d.
Proof.
  unfold Server.process_ready, outbox. destruct (take_ready_shape (node d)) as (? & ? & _ & _ & <-).
  destruct (take_ready (node d)) as [n ready]. cbn [snd].
  set (d1 := foldl _ _ (ready_messages ready)).
  destruct (applies_frame (ready_committed ready) d1) as (_ & _ & _ & _ & Hs).
  destruct (fail_waiters_frame (update_metrics (foldl (λ d c, apply_ready c d) d1
    (ready_committed ready)))) as (_ & _ & _ & _ & ->).
  assert (∀ d, sent (update_metrics d) = sent d) as ->.
  { intros d'. unfold update_metrics. by destruct (_ && _). }
  rewrite Hs. subst d1. by rewrite sends_sent.
Qed.

Lemma handle_event_sent ev d : sent (handle_event ev d) = sent d.
Proof.
  destruct ev as [|from msg|[from msg|cmd w|w]]; try done.
  cbn. by destruct (propose (encode cmd) (node d)) as [n [i|l]].
Qed.

(** ** Commands and the store *)
Definition commands (cs : list Committed) : list WriteCommand :=
  omap (λ c, match c with
             | CommittedCommand _ b =>
                 match decode parse_error b with Ok cmd => Some cmd | Err _ => None end
             | CommittedSnapshot _ => None
             end) cs.

Lemma commands_app cs1 cs2 : commands (cs1 ++ cs2) = commands cs1 ++ commands cs2.
Proof. apply omap_app. Qed.

Lemma store_deliveries l i count (e : E) :
  foldl store_item e (deliveries l i count) =
    apply_all (commands (deliveries l i count)) e.
Proof.
  revert i e. induction count as [|c IH]; intros i e; [done|]. cbn [deliveries].
  rewrite foldl_app, commands_app, apply_all_app, IH. f_equal.
  unfold delivery. destruct (get l (i + 1)); [|done]. case_decide; [done|].
  cbn. by destruct (decode parse_error _).
Qed.


(** ** Counters do not matter

    Two drivers that differ in their metrics only do the same; the connections
    count their commands in the metrics they share with the driver. *)
Definition bare d : Driver E := set_metrics Metrics.new d.

Definition same_driver d d' : Prop := bare d = bare d'.

#[export] Instance same_driver_equiv : Equivalence same_driver.
Proof. unfold same_driver. split; congruence. Qed.

Lemma same_bare d : same_driver (bare d) d.
Proof. done. Qed.

Lemma same_metrics m d : same_driver (set_metrics m d) d.
Proof. done. Qed.

Lemma same_fields d d' :
  same_driver d d' →
  node d = node d' ∧ storage d = storage d' ∧ links d = links d' ∧ waiters d = waiters d' ∧
  was_leader d = was_leader d' ∧ sent d = sent d' ∧ replies d = replies d'.
Proof. intros Hs. by injection Hs. Qed.

(** A function that ignores the metrics respects the relation. *)
Lemma blind_proper (f : Driver E → Driver E) :
  (∀ d, bare (f d) = bare (f (bare d))) → Proper (same_driver ==> same_driver) f.
Proof. intros Hf d d' Hd. unfold same_driver. rewrite (Hf d), (Hf d'). by rewrite Hd. Qed.

Lemma foldl_proper {A} (f : A → Driver E → Driver E) (xs : list A) :
  (∀ x, Proper (same_driver ==> same_driver) (f x)) →
  Proper (same_driver ==> same_driver) (λ d, foldl (λ d x, f x d) d xs).
Proof.
  intros Hf. induction xs as [|x xs IH]; intros d d' Hd; [done|]. cbn. apply IH. by apply Hf.
Qed.

#[export] Instance set_node_proper n : Proper (same_driver ==> same_driver) (set_node n).
Proof. by apply blind_proper. Qed.

#[export] Instance set_waiters_proper ws : Proper (same_driver ==> same_driver) (set_waiters ws).
Proof. by apply blind_proper. Qed.

#[export] Instance send_ready_proper env : Proper (same_driver ==> same_driver) (send_ready env).
Proof.
  apply blind_proper. intros d. unfold send_ready, peers_send.
  destruct (message env); cbn [fill_snapshot bare set_metrics links storage]; by case_decide.
Qed.

#[export] Instance apply_ready_proper c : Proper (same_driver ==> same_driver) (apply_ready c).
Proof.
  apply blind_proper. intros d. destruct c as [i cmd|data]; [|done].
  cbn. unfold resolve. destruct (decode parse_error cmd); cbn; by destruct (waiters d !! i).
Qed.

#[export] Instance update_metrics_proper : Proper (same_driver ==> same_driver) update_metrics.
Proof.
  apply blind_proper. intros d. unfold update_metrics. cbn. by destruct (is_leader _ && _).
Qed.

#[export] Instance answer_proper ws o : Proper (same_driver ==> same_driver) (answer ws o).
Proof. by apply blind_proper. Qed.

#[export] Instance fail_waiters_proper : Proper (same_driver ==> same_driver) fail_waiters.
Proof.
  intros d d' Hd. destruct (same_fields _ _ Hd) as (Hn & _ & _ & Hw & _). unfold fail_waiters.
  rewrite Hn, Hw. destruct (_ && _); [|done].
  apply (foldl_proper (λ kv, answer kv.2 (OutNotLeader (leader_id (node d'))))); [apply _|].
  by rewrite Hd.
Qed.

#[export] Instance process_ready_proper : Proper (same_driver ==> same_driver) process_ready.
Proof.
  intros d d' Hd. destruct (same_fields _ _ Hd) as (Hn & _). unfold Server.process_ready.
  rewrite Hn. destruct (take_ready (node d')) as [n ready]. apply fail_waiters_proper, update_metrics_proper.
  apply (foldl_proper apply_ready); [apply _|]. apply (foldl_proper send_ready); [apply _|].
  by rewrite Hd.
Qed.

#[export] Instance handle_event_proper ev : Proper (same_driver ==> same_driver) (handle_event ev).
Proof.
  apply blind_proper. intros d. destruct ev as [|from msg|[from msg|cmd w|w]]; try done.
  cbn. by destruct (propose (encode cmd) (node d)) as [n [i|l]].
Qed.

#[export] Instance turn_proper ev : Proper (same_driver ==> same_driver) (turn ev).
Proof. intros d d' Hd. unfold Server.turn. by rewrite Hd. Qed.
End Theory.
