(* ===== verification/Turns.v ===== *)
(** * A turn of the driver, in pieces

    The clients' tasks run beside the driver's task and share its store and the
    channels they wait on. So they can see a turn half done: [begin_turn] is what
    the driver does up to [process_ready]'s loop over the committed items, which
    clients cannot see, and the rest of the turn is a list of jobs, each of them
    one access to the store or one index resolved. A turn is its beginning
    followed by its jobs ([turn_in_jobs]). *)

From S2P Require Import Prelude Storage Errors Apply RaftLog RaftState RaftNode NodeTheory NodeProps Server ServerTheory.
From S2P Require Metrics.
Local Open Scope N_scope.

Inductive job :=
  | JChange (x : change)
  | JRestore (data : list KeyValue)
  | JResolve (index : N)
  | JFinish.

Section Jobs.
Context `{Rng} {E : Type} `{StorageEngine E} `{Json WriteCommand}.
Context `{!HashIter N (list waiter)} (parse_error : bytes → string).
Implicit Types (d : Driver E) (ev : event) (j : job).

(** The loop body of [process_ready] for one item. *)
Definition item_jobs (c : Committed) : list job :=
  match c with
  | CommittedCommand index command =>
      (match decode parse_error command with
       | Ok cmd => JChange <$> changes cmd
       | Err _ => []
       end) ++ [JResolve index]
  | CommittedSnapshot data => [JRestore data]
  end.

(** A job. Resolving an index sends on all its channels, and finishing updates
    the gauges and fails the waiters: what the clients see of either is that
    their channel has an answer, at some later moment. *)
Definition do_job (j : job) (d : Driver E) : Driver E :=
  match j with
  | JChange x => set_storage (change_store (storage d) x) d
  | JRestore data => set_storage (Storage.restore (storage d) data) d
  | JResolve index => resolve index OutCommitted d
  | JFinish => fail_waiters (update_metrics d)
  end.

Definition do_jobs (js : list job) (d : Driver E) : Driver E := foldl (λ d j, do_job j d) d js.

(** The event, the drain of the node and the messages; what is left to do. *)
Definition begin_turn (ev : event) (d : Driver E) : Driver E * list job :=
  let d := handle_event ev d in
  let (n, ready) := take_ready (node d) in
  let d := set_node n d in
  let d := foldl (λ d env, send_ready env d) d (ready_messages ready) in
  (d, (ready_committed ready ≫= item_jobs) ++ [JFinish]).

(** ** A turn is its beginning and its jobs *)
Lemma do_jobs_app js1 js2 d : do_jobs (js1 ++ js2) d = do_jobs js2 (do_jobs js1 d).
Proof. apply foldl_app. Qed.

Lemma do_changes xs d :
  do_jobs (JChange <$> xs) d = set_storage (foldl change_store (storage d) xs) d.
Proof.
  revert d. induction xs as [|x xs IH]; intros d; [by destruct d|].
  unfold do_jobs in *. cbn [fmap list_fmap foldl do_job]. by rewrite IH.
Qed.

Lemma do_item c d : do_jobs (item_jobs c) d = apply_ready parse_error c d.
Proof.
  destruct c as [i b|data]; [|done]. cbn [item_jobs apply_ready]. rewrite do_jobs_app.
  destruct (decode parse_error b) as [cmd|e]; [|done]. by rewrite do_changes, <-apply_changes.
Qed.

Theorem turn_in_jobs ev d :
  let (d1, js) := begin_turn ev d in do_jobs js d1 = turn parse_error ev d.
Proof.
  unfold begin_turn, turn, process_ready. destruct (take_ready (node (handle_event ev d))) as [n ready].
  cbv zeta. rewrite do_jobs_app. cbn [do_jobs foldl do_job]. do 2 f_equal.
  generalize (foldl (λ d env, send_ready env d) (set_node n (handle_event ev d)) (ready_messages ready)).
  induction (ready_committed ready) as [|c cs IH]; intros d1; [done|].
  change (do_jobs (item_jobs c ++ (cs ≫= item_jobs)) d1 = foldl (λ d c, apply_ready parse_error c d)
    (apply_ready parse_error c d1) cs).
  by rewrite do_jobs_app, do_item, IH.
Qed.

Lemma jobs_finish ev d d1 js :
  begin_turn ev d = (d1, js) → do_jobs js d1 = turn parse_error ev d.
Proof. intros Hb. pose proof (turn_in_jobs ev d) as Ht. by rewrite Hb in Ht. Qed.

(** ** What jobs leave alone *)
Lemma update_metrics_frame d :
  let d' := update_metrics d in
  node d' = node d ∧ storage d' = storage d ∧ sent d' = sent d ∧ replies d' = replies d ∧
  waiters d' = waiters d.
Proof. unfold update_metrics. by destruct (_ && _). Qed.

Lemma do_job_frame j d : node (do_job j d) = node d ∧ sent (do_job j d) = sent d.
Proof.
  destruct j as [x|data|i|]; [done|done| |]; cbn [do_job].
  - unfold resolve. by destruct (waiters d !! i).
  - destruct (fail_waiters_frame (update_metrics d)) as (-> & _ & _ & _ & ->).
    by destruct (update_metrics_frame d) as (-> & _ & -> & _).
Qed.

Lemma do_jobs_frame js d : node (do_jobs js d) = node d ∧ sent (do_jobs js d) = sent d.
Proof.
  revert d. induction js as [|j js IH]; intros d; [done|]. cbn. destruct (IH (do_job j d)) as [Hn Hs].
  unfold do_jobs in *. rewrite Hn, Hs. apply do_job_frame.
Qed.

Lemma do_job_replies j d : replies d `prefix_of` replies (do_job j d).
Proof.
  destruct j as [x|data|i|]; cbn [do_job]; [done|done| |].
  - unfold resolve. destruct (waiters d !! i); [|done]. cbn. by apply prefix_app_r.
  - etrans; [|apply fail_waiters_replies].
    by destruct (update_metrics_frame d) as (_ & _ & _ & -> & _).
Qed.

Lemma do_jobs_replies js d : replies d `prefix_of` replies (do_jobs js d).
Proof.
  revert d. induction js as [|j js IH]; intros d; [done|]. cbn. etrans; [apply do_job_replies|apply IH].
Qed.

(** Waiters are only removed, except by the event itself. *)
Lemma fail_waiters_some d i ws : waiters (fail_waiters d) !! i = Some ws → waiters d !! i = Some ws.
Proof. rewrite fail_waiters_drains. destruct (is_leader (node d)); [done|]. by rewrite lookup_empty. Qed.

Lemma do_job_waiters j d i ws : waiters (do_job j d) !! i = Some ws → waiters d !! i = Some ws.
Proof.
  destruct j as [x|data|k|]; cbn [do_job]; [done|done| |].
  - unfold resolve. destruct (waiters d !! k); [|done]. cbn. by intros [_ ?]%lookup_delete_Some.
  - intros Hi%fail_waiters_some. by destruct (update_metrics_frame d) as (_ & _ & _ & _ & <-).
Qed.

Lemma do_jobs_waiters js d i ws : waiters (do_jobs js d) !! i = Some ws → waiters d !! i = Some ws.
Proof.
  revert d. induction js as [|j js IH]; intros d; [done|]. cbn. intros Hi%IH. by eapply do_job_waiters.
Qed.

(** Who is told by a job that a write is committed waited at its index. *)
Lemma fail_waiters_negative d (P : waiter → Prop) :
  ∃ new, replies (fail_waiters d) = replies d ++ new ∧ ∀ w, (w, OutCommitted) ∈ new → P w.
Proof.
  unfold fail_waiters. destruct (_ && _).
  2: { exists []. rewrite app_nil_r. split; [done|]. by intros w ?%not_elem_of_nil. }
  cbv zeta. change (replies d) with (replies (set_waiters ∅ d)).
  generalize (set_waiters ∅ d), (hash_iter (waiters d)), (leader_id (node d)).
  intros d1 kvs l. revert d1. induction kvs as [|kv kvs IH]; intros d1.
  { exists []. rewrite app_nil_r. split; [done|]. by intros w ?%not_elem_of_nil. }
  cbn [foldl]. destruct (IH (answer kv.2 (OutNotLeader l) d1)) as (new & -> & Hnew).
  cbn. rewrite <-app_assoc. eexists. split; [reflexivity|].
  intros w [Hw|Hw]%elem_of_app; [|by apply Hnew].
  by apply list_elem_of_fmap in Hw as (w' & [=] & _).
Qed.

Lemma do_job_told j d :
  ∃ new, replies (do_job j d) = replies d ++ new ∧ ∀ w, (w, OutCommitted) ∈ new →
    ∃ k ws, j = JResolve k ∧ waiters d !! k = Some ws ∧ w ∈ ws.
Proof.
  assert (∃ new, replies d = replies d ++ new ∧ ∀ w, (w, OutCommitted) ∈ new →
    ∃ k ws, j = JResolve k ∧ waiters d !! k = Some ws ∧ w ∈ ws) as Hnone.
  { exists []. rewrite app_nil_r. split; [done|]. by intros w ?%not_elem_of_nil. }
  destruct j as [x|data|k|]; cbn [do_job]; [exact Hnone|exact Hnone| |].
  - unfold resolve. destruct (waiters d !! k) as [ws|] eqn:Hk; [|exact Hnone].
    eexists. split; [reflexivity|]. intros w (w' & [= <-] & Hw)%list_elem_of_fmap. by exists k, ws.
  - destruct (update_metrics_frame d) as (_ & _ & _ & <- & _). apply fail_waiters_negative.
Qed.

Lemma begin_turn_fields ev d :
  let d1 := (begin_turn ev d).1 in
  node d1 = node (turn parse_error ev d) ∧ sent d1 = sent (turn parse_error ev d) ∧
  storage d1 = storage d ∧ replies d1 = replies (handle_event ev d) ∧
  waiters d1 = waiters (handle_event ev d) ∧
  (begin_turn ev d).2 =
    (ready_committed (take_ready (node (handle_event ev d))).2 ≫= item_jobs) ++ [JFinish].
Proof.
  destruct (begin_turn ev d) as [d1 js] eqn:Hb. pose proof (jobs_finish _ _ _ _ Hb) as <-.
  destruct (do_jobs_frame js d1) as [-> ->]. unfold begin_turn in Hb.
  pose proof (handle_event_storage ev d) as Hst.
  destruct (take_ready (node (handle_event ev d))) as [n ready]. injection Hb as <- <-.
  destruct (sends_frame (ready_messages ready) (set_node n (handle_event ev d)))
    as (_ & Hs & _ & Hw & _ & Hr).
  cbn in Hs, Hw, Hr |- *. by rewrite Hs, Hw, Hr, Hst.
Qed.

(** ** Metrics do not matter *)
#[export] Instance do_job_proper j : Proper (same_driver ==> same_driver) (do_job j).
Proof.
  destruct j as [x|data|i|].
  - by apply blind_proper.
  - by apply blind_proper.
  - apply blind_proper. intros d. unfold do_job, resolve. cbn. by destruct (waiters d !! i).
  - intros d d' Hd. by apply fail_waiters_proper, update_metrics_proper.
Qed.

#[export] Instance do_jobs_proper js : Proper (same_driver ==> same_driver) (do_jobs js).
Proof. apply (foldl_proper do_job). apply _. Qed.

#[export] Instance begin_turn_proper ev :
  Proper (same_driver ==> (prod_relation same_driver (=))) (begin_turn ev).
Proof.
  intros d d' Hd. unfold begin_turn. pose proof (handle_event_proper ev _ _ Hd) as He.
  destruct (same_fields _ _ He) as (Hn & _). rewrite Hn.
  destruct (take_ready (node (handle_event ev d'))) as [n ready]. split; [|done]. cbn [fst].
  apply (foldl_proper send_ready); [apply _|]. by rewrite He.
Qed.

(** ** The accesses to the store among jobs *)
Definition job_changes (j : job) : list change := match j with JChange x => [x] | _ => [] end.

Definition pending_changes (js : list job) : list change := js ≫= job_changes.

Lemma pending_app js1 js2 : pending_changes (js1 ++ js2) = pending_changes js1 ++ pending_changes js2.
Proof. apply bind_app. Qed.

Lemma pending_fmap xs : pending_changes (JChange <$> xs) = xs.
Proof. induction xs as [|x xs IH]; [done|]. cbn. by f_equal. Qed.

(** Of the jobs of log entries, those up to the resolution of an index make the
    changes of the entries up to it. *)
Lemma item_point (xs : list change) q R J1 k J2 :
  (JChange <$> xs) ++ JResolve q :: R = J1 ++ JResolve k :: J2 →
  (pending_changes J1 = xs ∧ k = q ∧ R = J2) ∨
  ∃ J1', pending_changes J1 = xs ++ pending_changes J1' ∧ R = J1' ++ JResolve k :: J2.
Proof.
  revert J1. induction xs as [|x xs IH]; intros [|j J1] Heq; cbn in Heq.
  - injection Heq as -> ->. by left.
  - injection Heq as <- ->. right. by exists J1.
  - discriminate Heq.
  - injection Heq as <- Heq. destruct (IH J1 Heq) as [(<- & -> & ->)|(J1' & Hp & ->)]; [by left|right].
    exists J1'. split; [|done]. cbn. by f_equal.
Qed.

Lemma resolve_point (l : RaftLog) a cnt J1 k J2 :
  (deliveries l a cnt ≫= item_jobs) ++ [JFinish] = J1 ++ JResolve k :: J2 →
  a < k ≤ a + N.of_nat cnt ∧ pending_changes J1 =
    commands parse_error (deliveries l a (N.to_nat (k - a))) ≫= changes.
Proof.
  revert a J1. induction cnt as [|cnt IH]; intros a J1 Heq.
  { cbn in Heq. destruct J1 as [|j [|]]; simplify_eq/=. }
  cbn [deliveries] in Heq. rewrite bind_app, <-app_assoc in Heq.
  assert (∀ J1' J1'' cs, a + 1 < k ≤ a + 1 + N.of_nat cnt ∧
      pending_changes J1' = commands parse_error (deliveries l (a + 1) (N.to_nat (k - (a + 1)))) ≫= changes →
    delivery l (a + 1) = cs → pending_changes J1'' = (commands parse_error cs ≫= changes) ++ pending_changes J1' →
    a < k ≤ a + N.of_nat (S cnt) ∧ pending_changes J1'' = commands parse_error (deliveries l a (N.to_nat (k - a))) ≫= changes)
    as Hmore.
  { intros J1' J1'' cs [Hk Hp] Hd Hj. split; [lia|].
    replace (N.to_nat (k - a)) with (S (N.to_nat (k - (a + 1)))) by lia.
    cbn [deliveries]. by rewrite commands_app, bind_app, Hd, Hj, Hp. }
  unfold delivery in Heq, Hmore. destruct (get l (a + 1)) as [e|] eqn:Hg.
  2: { eapply Hmore; [by apply IH|done|done]. }
  case_decide as He; [eapply Hmore; [by apply IH|done|done]|].
  set (cs := [CommittedCommand (a + 1) (command e)]) in *.
  set (xs := commands parse_error cs ≫= changes).
  assert (cs ≫= item_jobs = (JChange <$> xs) ++ [JResolve (a + 1)]) as Hcs.
  { subst xs cs. cbn. rewrite app_nil_r. destruct (decode parse_error (command e)); [|done].
    cbn. by rewrite app_nil_r. }
  rewrite Hcs, <-app_assoc in Heq. cbn [app] in Heq.
  apply item_point in Heq as [(Hp & -> & _)|(J1' & Hp & Heq)].
  - split; [lia|]. replace (N.to_nat (a + 1 - a)) with 1%nat by lia. cbn [deliveries].
    rewrite app_nil_r. unfold delivery. rewrite Hg, decide_False by done. exact Hp.
  - eapply (Hmore J1' J1 cs); [by apply IH|done|exact Hp].
Qed.

(** The changes of a turn's items. *)
Lemma items_changes (l : RaftLog) a cnt :
  pending_changes ((deliveries l a cnt ≫= item_jobs) ++ [JFinish]) =
    commands parse_error (deliveries l a cnt) ≫= changes.
Proof.
  rewrite pending_app. cbn. rewrite app_nil_r. revert a. induction cnt as [|cnt IH]; intros a; [done|].
  cbn [deliveries]. rewrite bind_app, pending_app, commands_app, bind_app, IH. f_equal.
  unfold delivery. destruct (get l (a + 1)); [|done]. case_decide; [done|]. cbn.
  rewrite app_nil_r, pending_app. cbn. rewrite app_nil_r.
  destruct (decode parse_error _); [|done]. cbn. by rewrite app_nil_r, pending_fmap.
Qed.

Lemma items_no_restore (l : RaftLog) a cnt data :
  JRestore data ∉ (deliveries l a cnt ≫= item_jobs) ++ [JFinish].
Proof.
  rewrite elem_of_app, list_elem_of_singleton. intros [Hin|?]; [|done].
  apply list_elem_of_bind in Hin as (c & Hc & Hin).
  destruct c as [i b|data'].
  - cbn in Hc. rewrite elem_of_app, list_elem_of_singleton in Hc. destruct Hc as [Hc|?]; [|done].
    destruct (decode parse_error b); [|by apply not_elem_of_nil in Hc].
    by apply list_elem_of_fmap in Hc as (? & [=] & _).
  - clear Hc. revert a Hin. induction cnt as [|cnt IH]; intros a Hin; [by apply not_elem_of_nil in Hin|].
    cbn [deliveries] in Hin. apply elem_of_app in Hin as [Hin|Hin]; [|by eapply IH].
    unfold delivery in Hin. destruct (get l (a + 1)); [|by apply not_elem_of_nil in Hin].
    case_decide; [by apply not_elem_of_nil in Hin|]. by apply list_elem_of_singleton in Hin.
Qed.
End Jobs.
