(* ===== verification/Cluster.v ===== *)
(** * A cluster of servers

    The drivers of [Server.v], each with its node and its store, exchange the
    messages they send over the network. Every run of the cluster is a run of
    [Network.v] whose nodes are the drivers' nodes; what the nodes agree on
    ([Agreement.v]) becomes a statement about the stores. *)

From S2P Require Import Prelude Storage Errors Apply RaftLog RaftState RaftNode NodeTheory NodeProps ElectionSpec Election Network LogMatching StepFacts Safety SafetyProof Agreement Server ServerTheory.
Local Open Scope N_scope.

Section Cluster.
Context `{Rng} {E : Type} `{StorageEngine E} `{Json WriteCommand}.
Context `{!HashIter N (list waiter)} (parse_error : bytes → string).

Abbreviation turn := (turn parse_error).
Abbreviation store_item := (store_item parse_error).

Record cluster := mkCluster {
  drivers : gmap NodeId (Driver E);
  wire : list packet;
}.

Implicit Types (c : cluster) (s : sys) (d : Driver E).

(** What wakes a driver: its ticker, the delivery of the packet [k] of the
    wire, a client's write, a status request. *)
Inductive caction :=
  | CTick (i : NodeId)
  | CDeliver (k : nat)
  | CPropose (i : NodeId) (cmd : WriteCommand) (done : waiter)
  | CStatus (i : NodeId) (reply : waiter).

Definition event_of c (a : caction) : option (NodeId * event) :=
  match a with
  | CTick i => Some (i, EvTick)
  | CDeliver k => p ← wire c !! k; Some (p_to p, EvInbound (p_from p) (p_msg p))
  | CPropose i cmd w => Some (i, EvRequest (DPropose cmd w))
  | CStatus i w => Some (i, EvRequest (DStatus w))
  end.

(** The packets of a turn from [d] to [d']. *)
Definition posted (i : NodeId) d d' : list packet :=
  (λ m, mkPacket i m.1 m.2) <$> drop (length (Server.sent d)) (Server.sent d').

(** The turn performs the event's operation, then a drain. *)
Definition permitted (disc : discipline) (ev : event) d : Prop :=
  match event_op ev with Some o => obeys disc (node d) o | None => True end ∧
  obeys disc (node (handle_event ev d)) OpTakeReady.

#[export] Instance permitted_dec disc ev d : Decision (permitted disc ev d).
Proof. unfold permitted. destruct (event_op ev); apply _. Defined.

Definition cstep (disc : discipline) c (a : caction) : option cluster :=
  e ← event_of c a;
  d ← drivers c !! e.1;
  if decide (permitted disc e.2 d) then
    let d' := turn e.2 d in
    Some (mkCluster (<[e.1 := d']> (drivers c)) (wire c ++ posted e.1 d d'))
  else None.

Fixpoint crun (disc : discipline) (acts : list caction) c : option cluster :=
  match acts with
  | [] => Some c
  | a :: acts => c' ← cstep disc c a; crun disc acts c'
  end.

(** The network's view of the cluster. *)
Definition nodes_of c : gmap NodeId RaftNode := node <$> drivers c.

(** ** Every run of the cluster is a run of the network *)
Record simulated c s : Prop := {
  sm_nodes : nodes s = nodes_of c;
  sm_wire : ∀ p, p ∈ wire c → p ∈ net s;
}.

Lemma turn_posted i ev d :
  posted i d (turn ev d) = (λ m, mkPacket i m.1 m.2) <$> outbox (handle_event ev d).
Proof.
  unfold posted, Server.turn. rewrite process_ready_sent, handle_event_sent.
  by rewrite drop_app_length.
Qed.

Lemma fill_snapshot_fill d m : fill_snapshot d m = fill (Some (Storage.snapshot (storage d))) m.
Proof. by destruct m. Qed.

(** What the driver posts, the node's drain sends. *)
Lemma posted_sent i ev d p :
  p ∈ posted i d (turn ev d) →
  p ∈ Network.sent (ADrain i (Some (Storage.snapshot (storage d)))) i (node (handle_event ev d)).
Proof.
  rewrite turn_posted. intros (m & -> & Hm)%list_elem_of_fmap.
  apply list_elem_of_fmap in Hm as (env & -> & Henv).
  apply list_elem_of_filter in Henv as [_ Henv]. cbn [Network.sent]. rewrite ready_messages_outgoing.
  apply list_elem_of_fmap. exists env. split; [|done]. cbn [fst snd].
  by rewrite fill_snapshot_fill, handle_event_storage.
Qed.

Lemma turn_node ev d : node (turn ev d) = (take_ready (node (handle_event ev d))).1.
Proof. unfold Server.turn. by destruct (process_ready_spec parse_error (handle_event ev d)) as (-> & _). Qed.

Lemma turn_storage ev d :
  storage (turn ev d) = foldl store_item (storage d)
    (ready_committed (take_ready (node (handle_event ev d))).2).
Proof.
  destruct (process_ready_spec parse_error (handle_event ev d)) as (_ & Hs & _).
  unfold Server.turn. rewrite Hs. by rewrite handle_event_storage.
Qed.

(** The stores in [c'] are those in [c] after the items [cs]. *)
Definition fed c c' (cs : NodeId → list Committed) : Prop :=
  ∀ i d, drivers c !! i = Some d →
    ∃ d', drivers c' !! i = Some d' ∧ storage d' = foldl store_item (storage d) (cs i).

(** Every drain of the network's run is given the snapshot of the sender's store
    at that moment: what the store started as, fed with what has been handed over
    so far. *)
Definition filled disc nacts s c : Prop :=
  ∀ m i data, nacts !! m = Some (ADrain i data) → ∃ d, drivers c !! i = Some d ∧
    data = Some (Storage.snapshot (foldl store_item (storage d) (delivered disc (take m nacts) s i))).

(** The network action of an event. *)
Lemma event_action c s a i ev :
  simulated c s → event_of c a = Some (i, ev) →
  event_op ev = None ∨ ∃ na o, event_op ev = Some o ∧ op_of s na = Some (i, o) ∧
    (∀ n, Network.sent na i n = []) ∧ ∀ j, handed s na j = [].
Proof.
  intros [_ Hw] Hev. destruct a as [j|k|j cmd w|j w]; cbn in Hev; simplify_eq.
  - right. by exists (ATick i), OpTick.
  - destruct (wire c !! k) as [p|] eqn:Hk; cbn in Hev; simplify_eq.
    apply list_elem_of_lookup_2, Hw, list_elem_of_lookup_1 in Hk as [k' Hk].
    right. exists (ADeliver k'), (OpStep (p_from p) (p_msg p)). cbn. by rewrite Hk.
  - right. by exists (APropose i (encode cmd)), (OpPropose (encode cmd)).
  - by left.
Qed.

(** Performing it. *)
Lemma event_simulated disc c s a i ev d :
  simulated c s → event_of c a = Some (i, ev) → drivers c !! i = Some d → permitted disc ev d →
  ∃ acts s1, Network.run disc acts s = Some s1 ∧
    nodes s1 = <[i := node (handle_event ev d)]> (nodes_of c) ∧ net s1 = net s ∧
    (∀ j, delivered disc acts s j = []) ∧ ∀ j data, ADrain j data ∉ acts.
Proof.
  intros Hsim Hev Hd [Hob _]. pose proof (sm_nodes _ _ Hsim) as Hns.
  assert (nodes s !! i = Some (node d)) as Hi by (by rewrite Hns; unfold nodes_of; rewrite lookup_fmap, Hd).
  rewrite handle_event_node. unfold exec_event.
  destruct (event_action _ _ _ _ _ Hsim Hev) as [He|(na & o & He & Ho & Hs & Hh)].
  - rewrite He. exists [], s. split_and!; [done| |done|done|by intros j data ?%not_elem_of_nil].
    rewrite Hns. symmetry. apply insert_id. unfold nodes_of. by rewrite lookup_fmap, Hd.
  - rewrite He in *. exists [na].
    assert (act disc s na = Some (mkSys (<[i := exec o (node d)]> (nodes s)) (net s))) as Ha.
    { unfold act. rewrite Ho. cbn. rewrite Hi. cbn. rewrite decide_True by done.
      by rewrite Hs, app_nil_r. }
    eexists. cbn. rewrite Ha. cbn. split_and!; [done|by rewrite Hns|done|intros j; by rewrite Hh|].
    intros j data <-%list_elem_of_singleton. cbn in Ho. injection Ho as -> <-.
    by destruct (event_op_drain _ _ He).
Qed.

(** The drain that follows it. *)
Lemma drain_simulated disc c s i d n d' pk data :
  let drain := ADrain i data in
  nodes s = <[i := n]> (nodes_of c) → (∀ p, p ∈ wire c → p ∈ net s) →
  drivers c !! i = Some d → obeys disc n OpTakeReady →
  node d' = (take_ready n).1 →
  storage d' = foldl store_item (storage d) (ready_committed (take_ready n).2) →
  (∀ p, p ∈ pk → p ∈ Network.sent drain i n) →
  let c' := mkCluster (<[i := d']> (drivers c)) (wire c ++ pk) in
  ∃ s', Network.run disc [drain] s = Some s' ∧ simulated c' s' ∧
    fed c c' (delivered disc [drain] s).
Proof.
  intros drain Hns Hw Hd Hob Hn Hst Hpk c'.
  assert (nodes s !! i = Some n) as Hi by (rewrite Hns; apply lookup_insert_eq).
  assert (act disc s drain = Some (mkSys (<[i := exec OpTakeReady n]> (nodes s))
    (net s ++ Network.sent drain i n))) as Ha.
  { unfold act. cbn [drain op_of mbind option_bind fst snd]. rewrite Hi.
    cbn [mbind option_bind]. by rewrite decide_True. }
  eexists. cbn [Network.run]. rewrite Ha. split; [reflexivity|]. split.
  - split; cbn [nodes net]; [|set_solver]. unfold nodes_of, c'. cbn [drivers].
    rewrite Hns, insert_insert_eq, fmap_insert, Hn. done.
  - intros j dj Hj. cbn [delivered drivers c']. rewrite Ha, app_nil_r. cbn [drain handed].
    destruct (decide (i = j)) as [->|Hne].
    + rewrite Hd in Hj. injection Hj as <-. exists d'. rewrite lookup_insert_eq.
      split; [done|]. rewrite Hst. unfold delivers. by rewrite Hi.
    + exists dj. by rewrite lookup_insert_ne.
Qed.

Lemma cstep_filled disc c s a c' :
  simulated c s → cstep disc c a = Some c' →
  ∃ acts s', Network.run disc acts s = Some s' ∧ simulated c' s' ∧
    fed c c' (delivered disc acts s) ∧ filled disc acts s c.
Proof.
  intros Hsim Hst. unfold cstep in Hst.
  destruct (event_of c a) as [[i ev]|] eqn:Hev; [|done]. cbn [mbind option_bind fst snd] in Hst.
  destruct (drivers c !! i) as [d|] eqn:Hd; [|done]. cbn [mbind option_bind] in Hst.
  case_decide as Hp; [|done].
  destruct (event_simulated _ _ _ _ _ _ _ Hsim Hev Hd Hp) as (acts & s1 & Hr & Hns & Hnet & Hdel & Hnd).
  pose proof (turn_node ev d) as Hn. pose proof (turn_storage ev d) as Hs.
  pose proof (posted_sent i ev d) as Hpost. pose proof (proj2 Hp) as Hob.
  revert Hst Hns Hn Hs Hpost Hob. generalize (turn ev d) as d'.
  generalize (node (handle_event ev d)) as n. intros n d' Hst Hns Hn Hs Hpost Hob.
  injection Hst as <-.
  destruct (drain_simulated disc c s1 i d n d' _ _ Hns
    ltac:(rewrite Hnet; apply Hsim) Hd Hob Hn Hs Hpost) as (s2 & Hr2 & Hsim2 & Hf).
  eexists (acts ++ [_]), s2. rewrite (run_after _ _ _ _ _ Hr). split; [exact Hr2|].
  split; [exact Hsim2|]. split.
  { intros j dj Hj. rewrite (delivered_after _ _ _ _ _ _ Hr), Hdel. by apply Hf. }
  intros m j data [Hm|[Hm Hl]]%lookup_app_Some.
  { by apply list_elem_of_lookup_2, Hnd in Hm. }
  apply list_lookup_singleton_Some in Hl as [Hz [= <- <-]]. exists d. split; [done|].
  replace m with (length acts) by lia. by rewrite take_app_length, Hdel.
Qed.

Lemma cstep_simulated disc c s a c' :
  simulated c s → cstep disc c a = Some c' →
  ∃ acts s', Network.run disc acts s = Some s' ∧ simulated c' s' ∧
    fed c c' (delivered disc acts s).
Proof.
  intros Hsim Hst. destruct (cstep_filled _ _ _ _ _ Hsim Hst) as (acts & s' & ? & ? & ? & _).
  by exists acts, s'.
Qed.

Lemma fed_trans c1 c2 c3 cs1 cs2 cs :
  (∀ i, cs i = cs1 i ++ cs2 i) → fed c1 c2 cs1 → fed c2 c3 cs2 → fed c1 c3 cs.
Proof.
  intros Hcs Hf1 Hf2 i d Hd. destruct (Hf1 _ _ Hd) as (d1 & Hd1 & Hs1).
  destruct (Hf2 _ _ Hd1) as (d2 & Hd2 & Hs2). exists d2. split; [done|].
  by rewrite Hs2, Hs1, Hcs, foldl_app.
Qed.

(** No server comes or goes. *)
Lemma crun_dom disc acts c c' : crun disc acts c = Some c' → dom (drivers c') = dom (drivers c).
Proof.
  revert c. induction acts as [|a acts IH]; intros c Hr; cbn in Hr; [by simplify_eq|].
  destruct (cstep disc c a) as [c1|] eqn:Ha; [|done]. cbn in Hr. rewrite (IH _ Hr).
  unfold cstep in Ha. destruct (event_of c a) as [[i ev]|]; [|done]. cbn [mbind option_bind fst] in Ha.
  destruct (drivers c !! i) as [d|] eqn:Hd; [|done]. cbn [mbind option_bind] in Ha.
  case_decide; [|done]. injection Ha as <-. cbn [drivers]. rewrite dom_insert_L.
  apply elem_of_dom_2 in Hd. set_solver.
Qed.

(** Each store of the end is a store of the start, fed. *)
Lemma fed_back disc acts c c' cs i d :
  crun disc acts c = Some c' → fed c c' cs → drivers c' !! i = Some d →
  ∃ d0, drivers c !! i = Some d0 ∧ storage d = foldl store_item (storage d0) (cs i).
Proof.
  intros Hr Hf Hd. pose proof Hd as Hdom. apply elem_of_dom_2 in Hdom.
  rewrite (crun_dom _ _ _ _ Hr) in Hdom. apply elem_of_dom in Hdom as [d0 Hd0].
  destruct (Hf _ _ Hd0) as (d' & Hd' & Hs). rewrite Hd in Hd'. injection Hd' as <-. by exists d0.
Qed.

Lemma filled_app disc n1 n2 s s1 c c1 :
  Network.run disc n1 s = Some s1 → (∀ i, is_Some (drivers c1 !! i) → is_Some (drivers c !! i)) →
  fed c c1 (delivered disc n1 s) → filled disc n1 s c → filled disc n2 s1 c1 →
  filled disc (n1 ++ n2) s c.
Proof.
  intros Hr Hdom Hf Hl1 Hl2 m i data [Hm|[Hle Hm]]%lookup_app_Some.
  - rewrite take_app_le by (apply lookup_lt_Some in Hm; lia). by apply Hl1.
  - destruct (Hl2 _ _ _ Hm) as (d1 & Hd1 & ->). destruct (Hdom i) as [d Hd]; [by eexists|].
    destruct (Hf _ _ Hd) as (d1' & Hd1' & Hs). rewrite Hd1 in Hd1'. injection Hd1' as <-.
    exists d. split; [done|]. rewrite take_app_ge by done.
    rewrite (delivered_after _ _ _ _ _ _ Hr), foldl_app. by rewrite Hs.
Qed.

Lemma crun_filled disc acts c s c' :
  simulated c s → crun disc acts c = Some c' →
  ∃ nacts s', Network.run disc nacts s = Some s' ∧ simulated c' s' ∧
    fed c c' (delivered disc nacts s) ∧ filled disc nacts s c.
Proof.
  revert c s. induction acts as [|a acts IH]; intros c s Hsim Hr; cbn in Hr.
  { injection Hr as <-. exists [], s. split; [done|]. split; [done|].
    split; [intros i d Hd; by exists d|]. by intros m i data. }
  destruct (cstep disc c a) as [c1|] eqn:Ha; [|done]. cbn in Hr.
  destruct (cstep_filled _ _ _ _ _ Hsim Ha) as (n1 & s1 & Hr1 & Hsim1 & Hf1 & Hl1).
  destruct (IH _ _ Hsim1 Hr) as (n2 & s2 & Hr2 & Hsim2 & Hf2 & Hl2).
  exists (n1 ++ n2), s2. rewrite (run_after _ _ _ _ _ Hr1). split; [done|]. split; [done|]. split.
  - eapply fed_trans; [|done..]. intros i. by apply delivered_after.
  - eapply filled_app; [done| |done..]. intros i Hi. apply elem_of_dom.
    rewrite <-(crun_dom disc [a] c c1) by (cbn; by rewrite Ha). by apply elem_of_dom.
Qed.

Lemma crun_simulated disc acts c s c' :
  simulated c s → crun disc acts c = Some c' →
  ∃ nacts s', Network.run disc nacts s = Some s' ∧ simulated c' s' ∧ fed c c' (delivered disc nacts s).
Proof.
  intros Hsim Hr. destruct (crun_filled _ _ _ _ _ Hsim Hr) as (nacts & s' & ? & ? & ? & _).
  by exists nacts, s'.
Qed.

(** ** The properties *)

(** [C21] Every run of a cluster of servers is a run of the network of its
    nodes, under the same discipline: the nodes are the network's nodes and every
    message on the wire was sent by a node; every drain fills the snapshots it
    sends with the sender's store at that moment, its first store fed with what
    the node has handed over until then; and the store of each server at the end
    is its first store fed with exactly what the node handed over, in order. *)
Theorem cluster_refines_network disc acts c0 c :
  wire c0 = [] → crun disc acts c0 = Some c →
  let s0 := mkSys (nodes_of c0) [] in
  ∃ nacts s, Network.run disc nacts s0 = Some s ∧ nodes s = nodes_of c ∧
    (∀ p, p ∈ wire c → p ∈ net s) ∧ filled disc nacts s0 c0 ∧
    ∀ i d0, drivers c0 !! i = Some d0 → ∃ d, drivers c !! i = Some d ∧
      storage d = foldl store_item (storage d0) (delivered disc nacts s0 i).
Proof.
  intros Hw Hr s0. destruct (crun_filled disc acts c0 s0 c) as (nacts & s & Hn & Hsim & Hf & Hl); [|done|].
  { split; [done|]. intros p. by rewrite Hw. }
  exists nacts, s. split; [done|]. split; [apply Hsim|]. split; [apply Hsim|]. split; [exact Hl|exact Hf].
Qed.

(** All servers freshly started on the same store, nobody waiting. *)
Definition fresh_servers c (e : E) : Prop :=
  wire c = [] ∧ fresh_cluster (mkSys (nodes_of c) []) ∧
  ∀ i d, drivers c !! i = Some d → storage d = e ∧ waiters d = ∅.

(** The commands of the entries of [l] with indices above [a] and up to [b]. *)
Definition log_commands (l : RaftLog) (a b : N) : list WriteCommand :=
  commands parse_error (deliveries l a (N.to_nat (b - a))).

Lemma log_commands_split l a b : a ≤ b →
  log_commands l 0 b = log_commands l 0 a ++ log_commands l a b.
Proof.
  intros Hab. unfold log_commands. rewrite <-commands_app. f_equal. rewrite !N.sub_0_r.
  replace (N.to_nat b) with (N.to_nat a + N.to_nat (b - a))%nat by lia.
  rewrite deliveries_app. by rewrite N.add_0_l, N2Nat.id.
Qed.

(** The network run behind a cluster run, with what every server applied. *)
Lemma crun_stores e acts c0 c :
  fresh_servers c0 e → crun Faithful acts c0 = Some c →
  let cl := dom (drivers c0) in
  ∃ s T g cs, simulated c s ∧ sound cl T g s ∧ all_applied cl T g s cs ∧
    ∀ i d, drivers c !! i = Some d → nodes s !! i = Some (node d) ∧
      storage d = apply_all (log_commands (log (node d)) 0 (last_applied (node d))) e.
Proof.
  intros (Hw & Hfresh & Hst) Hr cl. set (s0 := mkSys (nodes_of c0) []) in *.
  assert (dom (nodes s0) = cl) as Hcl by (cbn; unfold nodes_of; by rewrite dom_fmap_L).
  destruct (crun_simulated Faithful acts c0 s0 c) as (nacts & s & Hn & Hsim & Hf); [|done|].
  { split; [done|]. intros p. by rewrite Hw. }
  destruct (run_handed _ _ _ Hfresh Hn) as (T & g & Hs & Hap). rewrite Hcl in Hs, Hap.
  exists s, T, g, (delivered Faithful nacts s0). split; [done|]. split; [done|]. split; [done|].
  intros i d Hd. assert (nodes s !! i = Some (node d)) as Hi.
  { rewrite (sm_nodes _ _ Hsim). unfold nodes_of. by rewrite lookup_fmap, Hd. }
  split; [done|]. destruct (fed_back _ _ _ _ _ _ _ Hr Hf Hd) as (d0 & Hd0 & Hsd).
  rewrite Hsd, (proj1 (Hst _ _ Hd0)), (ap_handed _ _ _ _ _ (Hap _ _ Hi)), store_deliveries.
  unfold log_commands. by rewrite N.sub_0_r.
Qed.

(** The servers are replicas of one state machine: in every faithful run
    from fresh servers, each store is the initial store after the commands of
    the server's own log up to [last_applied], and a server that has applied
    more has the store of one that has applied less, followed by the commands
    in between. In particular two servers that have applied up to the same
    index have the same store. *)
Theorem replicas_consistent e acts c0 c :
  fresh_servers c0 e → crun Faithful acts c0 = Some c →
  ∀ i j di dj, drivers c !! i = Some di → drivers c !! j = Some dj →
    let ai := last_applied (node di) in let aj := last_applied (node dj) in
    ai ≤ aj →
    storage di = apply_all (log_commands (log (node di)) 0 ai) e ∧
    storage dj = apply_all (log_commands (log (node dj)) ai aj) (storage di).
Proof.
  intros Hf Hr i j di dj Hi Hj ai aj Hle.
  destruct (crun_stores _ _ _ _ Hf Hr) as (s & T & g & cs & _ & Hs & Hap & Hst).
  destruct (Hst _ _ Hi) as [Hni Hsi]. destruct (Hst _ _ Hj) as [Hnj Hsj].
  split; [exact Hsi|]. rewrite Hsj, Hsi.
  pose proof (applied_agree _ _ _ _ _ _ _ _ _ _ Hs Hni Hnj (Hap _ _ Hni) (Hap _ _ Hnj) Hle) as Hag.
  change (last_applied (node di)) with ai in Hag |- *. change (last_applied (node dj)) with aj.
  assert (log_commands (log (node di)) 0 ai = log_commands (log (node dj)) 0 ai) as ->.
  { unfold log_commands. by rewrite !N.sub_0_r, Hag. }
  by rewrite (log_commands_split _ ai aj), apply_all_app.
Qed.
End Cluster.
Arguments cluster {_} E.

(** ** A run of three servers *)
Section Runs.
#[local] Existing Instance low_rng.
#[local] Existing Instance canonical_iter.
#[local] Existing Instance DemoCodec.demo_json.

Definition plain_error (b : bytes) : string := "".

Definition server_of (ids : list NodeId) (i : NodeId) : Driver Memory.MemoryEngine :=
  start (fresh_node ids i) Memory.new (others i ids).

Definition servers (ids : list NodeId) : cluster Memory.MemoryEngine :=
  mkCluster (list_to_map ((λ i, (i, server_of ids i)) <$> ids)) [].

Definition three : cluster Memory.MemoryEngine := servers ["n1"; "n2"; "n3"].

Lemma three_fresh : fresh_servers three Memory.new.
Proof.
  split; [done|]. split; [exact trio_fresh|]. intros i d Hd.
  apply elem_of_list_to_map_2 in Hd. cbn [fmap list_fmap] in Hd.
  rewrite !elem_of_cons in Hd. destruct Hd as [Hd|[Hd|[Hd|Hd]]];
    [injection Hd as _ ->; by split..|by apply not_elem_of_nil in Hd].
Defined.

(** ["n1"] is elected and takes two writes; the first reaches ["n2"], is
    committed and applied by both; ["n3"] has applied nothing. *)
Definition write_run : list caction :=
  replicate 5 (CTick "n1") ++ [CDeliver 0; CDeliver 2; CPropose "n1" (Set_ "a" [x01]) 7;
    CDeliver 5; CDeliver 7; CPropose "n1" (Set_ "b" [x02]) 8; CDeliver 8].

(** Evaluating a server of a run's final cluster. *)
Lemma watched {A} (f : Driver Memory.MemoryEngine → A) disc acts c0 c i d x :
  crun plain_error disc acts c0 = Some c → drivers c !! i = Some d →
  (c ← crun plain_error disc acts c0; f <$> drivers c !! i) = Some x → f d = x.
Proof. intros -> Hd. cbn. rewrite Hd. by intros [= <-]. Qed.

Lemma cluster_refines_network_witness :
  match crun plain_error Faithful write_run three with
  | Some c => ∃ nacts s, Network.run Faithful nacts trio = Some s ∧ nodes s = nodes_of c
  | None => False
  end.
Proof.
  destruct (crun plain_error Faithful write_run three) as [c|] eqn:Hr;
    [|vm_compute in Hr; discriminate Hr].
  destruct (cluster_refines_network plain_error Faithful write_run three c eq_refl Hr)
    as (nacts & s & Hn & Hs & _). exists nacts, s. split; [exact Hn|exact Hs].
Defined.

Lemma replicas_consistent_witness :
  match crun plain_error Faithful write_run three with
  | Some c => ∀ d1 d2 d3, drivers c !! "n1" = Some d1 → drivers c !! "n2" = Some d2 →
      drivers c !! "n3" = Some d3 →
      storage d2 = storage d1 ∧ Storage.get (storage d2) "a" = Some [x01] ∧
      storage d2 = apply_all (log_commands plain_error (log (node d2)) 0 1) (storage d3)
  | None => False
  end.
Proof.
  destruct (crun plain_error Faithful write_run three) as [c|] eqn:Hr;
    [|vm_compute in Hr; discriminate Hr].
  intros d1 d2 d3 H1 H2 H3.
  pose proof (watched (last_applied ∘ node) _ _ _ _ _ _ 1 Hr H1 ltac:(vm_compute; reflexivity)) as A1.
  pose proof (watched (last_applied ∘ node) _ _ _ _ _ _ 1 Hr H2 ltac:(vm_compute; reflexivity)) as A2.
  pose proof (watched (last_applied ∘ node) _ _ _ _ _ _ 0 Hr H3 ltac:(vm_compute; reflexivity)) as A3.
  cbn [compose] in A1, A2, A3.
  pose proof (replicas_consistent plain_error Memory.new write_run three c three_fresh Hr) as Hc.
  assert (last_applied (node d1) ≤ last_applied (node d2)) as Hle by (rewrite A1, A2; discriminate).
  destruct (Hc "n1" "n2" d1 d2 H1 H2 Hle) as [_ Hs]. rewrite A1, A2 in Hs.
  assert (last_applied (node d3) ≤ last_applied (node d2)) as Hle' by (rewrite A3, A2; discriminate).
  destruct (Hc "n3" "n2" d3 d2 H3 H2 Hle') as [_ Hs']. rewrite A3, A2 in Hs'.
  split; [exact Hs|]. split; [|exact Hs'].
  apply (watched (λ d, Storage.get (storage d) "a") _ _ _ _ _ _ _ Hr H2). vm_compute. reflexivity.
Defined.
End Runs.
