(* ===== verification/Replicas.v ===== *)
(** * Replicas that compact their logs

    The stores of a cluster of servers whose nodes compact their logs: one
    history of commands explains all of them, although no node may have it in
    its log any more. *)

From S2P Require Import Prelude Storage Errors Apply RaftLog RaftState RaftNode NodeTheory NodeProps Widths ElectionSpec Election Network LogMatching StepFacts Safety SafetyProof Agreement Compaction Transparency Server ServerTheory Cluster.
Local Open Scope N_scope.

Section Replicas.
Context `{RngLaws} {E : Type} `{StorageEngine E} `{Json WriteCommand}.
Context `{!HashIter N (list waiter)} (parse_error : bytes → string).
Implicit Types (c : cluster E).

(** [C6] The servers are replicas of one state machine also when their nodes
    compact. Take any run from fresh servers, configured in [u64], that keeps to
    the discipline [Compacting]: as in faithful runs no node forgets its vote of
    the current term and no follower keeps entries its leader did not send, no
    log reaches the last [u64] index, and nobody needs a compacted entry: no
    snapshot is shipped, appends start above their receiver's snapshot point, or
    at it and agree with it. Then there is one history of commands such that the
    store of every server is the initial store after the commands of the history
    up to what the server has applied, and every applied entry a log still holds
    is the history's. Hence two servers that have applied up to the same index
    have the same store. *)
Theorem compacting_replicas_consistent e acts c0 c :
  fresh_servers c0 e → (∀ i d, drivers c0 !! i = Some d → u64_node (node d)) →
  crun parse_error Compacting acts c0 = Some c →
  ∃ K, snapshot_index K = 0 ∧ ∀ i d, drivers c !! i = Some d →
    let n := node d in
    last_applied n ≤ last_index K ∧
    storage d = apply_all (log_commands parse_error K 0 (last_applied n)) e ∧
    ∀ k, snapshot_index (log n) < k ≤ last_applied n → get (log n) k = get K k.
Proof.
  intros (Hw & Hfresh & Hst) Hty Hr. set (s0 := mkSys (nodes_of c0) []) in *.
  assert (typed s0) as Hty0.
  { intros i n Hn. cbn in Hn. unfold nodes_of in Hn. rewrite lookup_fmap in Hn.
    apply fmap_Some in Hn as (d & Hd & ->). by eapply Hty. }
  destruct (crun_simulated parse_error Compacting acts c0 s0 c) as (nacts & s & Hn & Hsim & Hf); [|done|].
  { split; [done|]. intros p. by rewrite Hw. }
  destruct (run_history _ _ _ Hfresh Hty0 Hn) as (K & HK & Hall). exists K. split; [done|].
  intros i d Hd n.
  assert (nodes s !! i = Some n) as Hi.
  { rewrite (sm_nodes _ _ Hsim). unfold nodes_of. by rewrite lookup_fmap, Hd. }
  destruct (Hall i n Hi) as (Hle & Hdel & Hget). split; [done|]. split; [|done].
  destruct (fed_back _ _ _ _ _ _ _ _ Hr Hf Hd) as (d0 & Hd0 & ->).
  rewrite (proj1 (Hst _ _ Hd0)), Hdel, store_deliveries. unfold log_commands. by rewrite N.sub_0_r.
Qed.
End Replicas.

(** ** Two servers whose nodes compact whatever is applied *)
Section Example.
#[local] Existing Instance low_rng.
#[local] Existing Instance low_rng_laws.
#[local] Existing Instance canonical_iter.
#[local] Existing Instance DemoCodec.demo_json.

Definition eager_server (i : NodeId) : Driver Memory.MemoryEngine :=
  start (eager_node ["n1"; "n2"] i) Memory.new (others i ["n1"; "n2"]).

Definition pair : cluster Memory.MemoryEngine :=
  mkCluster (list_to_map ((λ i, (i, eager_server i)) <$> ["n1"; "n2"])) [].

Lemma pair_nodes : mkSys (nodes_of pair) [] = duo.
Proof. vm_compute. reflexivity. Qed.

Lemma pair_fresh :
  fresh_servers pair Memory.new ∧ ∀ i d, drivers pair !! i = Some d → u64_node (node d).
Proof.
  destruct duo_fresh as [Hf Hty]. split.
  - split; [done|]. split; [by rewrite pair_nodes|]. intros i d Hd.
    apply elem_of_list_to_map_2 in Hd. cbn [fmap list_fmap] in Hd. rewrite !elem_of_cons in Hd.
    destruct Hd as [Hd|[Hd|Hd]]; [injection Hd as _ ->; by split..|by apply not_elem_of_nil in Hd].
  - intros i d Hd. apply (Hty i). rewrite <-pair_nodes. cbn [nodes]. unfold nodes_of.
    by rewrite lookup_fmap, Hd.
Qed.

(** ["n1"] is elected and takes two writes, each committed and compacted by it;
    ["n2"] has compacted the first. *)
Definition compacting_writes : list caction :=
  replicate 5 (CTick "n1") ++ [CDeliver 0; CDeliver 1; CPropose "n1" (Set_ "a" [x01]) 7;
    CDeliver 3; CDeliver 4; CPropose "n1" (Set_ "a" [x02]) 8; CDeliver 5; CDeliver 6].

Lemma compacting_replicas_consistent_witness :
  match crun plain_error Compacting compacting_writes pair with
  | Some c => ∀ d1 d2, drivers c !! "n1" = Some d1 → drivers c !! "n2" = Some d2 →
      snapshot_index (log (node d1)) = 2 ∧ snapshot_index (log (node d2)) = 1 ∧
      ∃ K, storage d1 = apply_all (log_commands plain_error K 0 2) Memory.new ∧
        storage d2 = apply_all (log_commands plain_error K 0 1) Memory.new
  | None => False
  end.
Proof.
  destruct (crun plain_error Compacting compacting_writes pair) as [c|] eqn:Hr;
    [|vm_compute in Hr; discriminate Hr].
  intros d1 d2 H1 H2.
  pose proof (watched (λ d, snapshot_index (log (node d))) _ _ _ _ _ _ 2 Hr H1
    ltac:(vm_compute; reflexivity)) as S1.
  pose proof (watched (λ d, snapshot_index (log (node d))) _ _ _ _ _ _ 1 Hr H2
    ltac:(vm_compute; reflexivity)) as S2.
  pose proof (watched (last_applied ∘ node) _ _ _ _ _ _ 2 Hr H1 ltac:(vm_compute; reflexivity)) as A1.
  pose proof (watched (last_applied ∘ node) _ _ _ _ _ _ 1 Hr H2 ltac:(vm_compute; reflexivity)) as A2.
  cbn [compose] in A1, A2. split; [exact S1|]. split; [exact S2|].
  destruct (compacting_replicas_consistent plain_error Memory.new compacting_writes pair c
    (proj1 pair_fresh) (proj2 pair_fresh) Hr) as (K & _ & Hall).
  exists K. destruct (Hall "n1" d1 H1) as (_ & HS1 & _). destruct (Hall "n2" d2 H2) as (_ & HS2 & _).
  cbv zeta in HS1, HS2. rewrite A1 in HS1. rewrite A2 in HS2. split; [exact HS1|exact HS2].
Defined.
End Example.
