(* ===== verification/Convergence.v ===== *)
(** * Replicas that ship snapshots

    The data of an outgoing snapshot is the sender's live store, which is newer
    than the index it is sent for. What that does to the stores of a cluster: a
    restored store is ahead of its node, replays commands it already reflects,
    and is exact again once it has applied as far as the sender had. *)

From S2P Require Import Prelude Storage Errors Apply RaftLog RaftState RaftNode NodeTheory NodeProps Widths ElectionSpec Election Network LogMatching StepFacts Safety SafetyProof Agreement Compaction Transparency Shipping Server ServerTheory Cluster.
Local Open Scope N_scope.

(** ** A store that may be ahead of its node *)
Section Replay.
Context `{Rng} {E : Type} `{EngineLaws E} `{Json WriteCommand} (parse_error : bytes → string).
Implicit Types (K : RaftLog) (σ e : E).

Abbreviation log_commands := (log_commands parse_error).

Lemma log_commands_app K a b c :
  a ≤ b → b ≤ c → log_commands K a c = log_commands K a b ++ log_commands K b c.
Proof.
  intros Hab Hbc. unfold Cluster.log_commands. rewrite <-commands_app. f_equal.
  replace (N.to_nat (c - a)) with (N.to_nat (b - a) + N.to_nat (c - b))%nat by lia.
  rewrite deliveries_app. do 2 f_equal. lia.
Qed.

Lemma log_commands_nil K a b : b ≤ a → log_commands K a b = [].
Proof. intros Hab. unfold Cluster.log_commands. by replace (N.to_nat (b - a)) with 0%nat by lia. Qed.

Lemma log_commands_ext K K' a b :
  (∀ k, a < k ≤ b → get K k = get K' k) → log_commands K a b = log_commands K' a b.
Proof.
  intros Hext. unfold Cluster.log_commands. f_equal. apply deliveries_ext. intros k Hk. apply Hext. lia.
Qed.

(** The store [σ] of a node that has applied up to [a] becomes the store of the
    history [K] from [e] when it has applied up to [h], and applying again what
    it applied after [b] changes nothing. *)
Record replica_of K e σ (b a h : N) : Prop := {
  rp_base : b ≤ a;
  rp_ahead : a ≤ h;
  rp_reach : same_contents (apply_all (log_commands K a h) σ) (apply_all (log_commands K 0 h) e);
  rp_replay : ∀ x, b ≤ x → x ≤ a → same_contents (apply_all (log_commands K x a) σ) σ;
}.

Lemma replica_start K e : replica_of K e e 0 0 0.
Proof.
  split; [done|done| |intros x _ Hx]; by rewrite log_commands_nil by lia.
Qed.

Lemma replica_ext K K' e σ b a h :
  (∀ k, 0 < k ≤ h → get K k = get K' k) → replica_of K e σ b a h → replica_of K' e σ b a h.
Proof.
  intros Hext [Hb Ha Hr Hp]. split; [done|done| |].
  - rewrite <-!(log_commands_ext K K'); [done|intros k Hk; apply Hext; lia..].
  - intros x Hx Hxa. rewrite <-(log_commands_ext K K'); [by apply Hp|]. intros k Hk. apply Hext. lia.
Qed.

(** Applying up to [c]. *)
Lemma replica_advance K e σ b a h c :
  replica_of K e σ b a h → a ≤ c →
  replica_of K e (apply_all (log_commands K a c) σ) b c (N.max h c).
Proof.
  intros [Hb Ha Hr Hp] Hac. split; [lia|lia| |].
  - rewrite <-apply_all_app, <-log_commands_app by lia. destruct (N.le_ge_cases c h) as [Hc|Hc].
    + by rewrite N.max_l.
    + rewrite N.max_r by done. rewrite (log_commands_app K a h c), (log_commands_app K 0 h c) by lia.
      rewrite !apply_all_app. by rewrite Hr.
  - intros x Hx Hxc. destruct (N.le_ge_cases a x) as [Hax|Hxa].
    + rewrite (log_commands_app K a x c) by done. apply replay_suffix.
    + assert (same_contents (apply_all (log_commands K a c) σ) (apply_all (log_commands K x c) σ)) as Hs.
      { rewrite (log_commands_app K x a c), apply_all_app by done. by rewrite (Hp x Hx Hxa). }
      rewrite Hs. exact (replay_suffix σ [] (log_commands K x c)).
Qed.

(** Restoring the store of a node as of an earlier index. *)
Lemma replica_restore K e σ σ' b a h x :
  replica_of K e σ b a h → b ≤ x → x ≤ a → replica_of K e (restore σ' (Storage.snapshot σ)) x x h.
Proof.
  intros [Hb Ha Hr Hp] Hx Hxa. pose proof (restore_snapshot σ σ') as Hrest. split; [done|lia| |].
  - rewrite Hrest, (log_commands_app K x a h), apply_all_app by done. by rewrite (Hp x).
  - intros y Hy Hyx. by rewrite log_commands_nil.
Qed.

(** Up to [h] its contents are the history's as soon as it has applied that far. *)
Lemma replica_exact K e σ b a h : replica_of K e σ b a h → h ≤ a → same_contents σ (apply_all (log_commands K 0 a) e).
Proof.
  intros [Hb Ha Hr _] Hle. assert (h = a) as -> by lia. by rewrite log_commands_nil in Hr.
Qed.
End Replay.

(** ** The cluster *)
Section Cluster.
Context `{RngLaws} {E : Type} `{EngineLaws E} `{Json WriteCommand}.
Context `{!HashIter N (list waiter)} (parse_error : bytes → string).
Implicit Types (c : cluster E) (s S : sys) (d : Driver E) (n : RaftNode) (K : RaftLog) (e : E).

Abbreviation log_commands := (log_commands parse_error).
Abbreviation replica_of := (replica_of parse_error).
Abbreviation turn := (turn parse_error).

(** [K] is history up to [h]. *)
Definition past cl T g K (h : N) : Prop :=
  plain T K ∧ ∃ t, settled cl T g t (entries K) (N.to_nat h).

Lemma past_mono cl T T' g g' K h : grows T T' → extends g g' → past cl T g K h → past cl T' g' K h.
Proof.
  intros Hg He [Hp (t & Hs)]. split; [by eapply plain_mono|]. exists t. by eapply settled_mono.
Qed.

Lemma past_le cl T g K h h' : h' ≤ h → past cl T g K h → past cl T g K h'.
Proof.
  intros Hle [Hp (t & Hs)]. split; [done|]. exists t. eapply settled_le; [exact Hs|done|lia].
Qed.

Lemma past_agree cl T g S K K' h :
  sound cl T g S → past cl T g K h → past cl T g K' h → ∀ k, k ≤ h → get K k = get K' k.
Proof.
  intros Hs [Hp (t & Hset)] [Hp' (t' & Hset')] k Hk. pose proof Hs as (B & _ & _ & Hok).
  apply (take_get T T K K' (N.to_nat h)); [done|done| |lia].
  eapply settled_agree; [by eapply sound_logs|exact Hok|exact Hset|exact Hset'].
Qed.

Lemma past_commit cl T g s S i n :
  shipped cl T g s S → nodes s !! i = Some n →
  ∃ K, trims K (log n) ∧ past cl T g K (commit_index n) ∧ node_ok n.
Proof.
  intros [Hs Hm _] Hn. destruct (mi_node _ _ Hm _ _ Hn) as (Hok & _ & K & Ht & HS). exists K.
  split; [done|]. split; [|done]. split; [exact (sound_plain _ _ _ _ _ _ Hs HS)|].
  eexists. exact (sound_commit _ _ _ _ _ _ Hs HS).
Qed.

(** Some server has applied up to [h]. *)
Definition reached c (h : N) : Prop := ∃ j d, drivers c !! j = Some d ∧ h ≤ last_applied (node d).

(** The data of a snapshot message, restored, is a store of this kind. *)
Definition restorable cl T g c e (m : InstallSnapshot) : Prop :=
  ∃ K h, past cl T g K h ∧ reached c h ∧
    ∀ σ, replica_of K e (restore σ (is_data m)) (is_last_included_index m) (is_last_included_index m) h.

(** Stores and snapshots on the wire are ahead of their index at most up to
    where some server is. *)
Record converging cl T g c e : Prop := {
  cv_store : ∀ i d, drivers c !! i = Some d → ∃ K b h, past cl T g K h ∧ reached c h ∧
    b ≤ snapshot_index (log (node d)) ∧ replica_of K e (storage d) b (last_applied (node d)) h;
  cv_wire : ∀ p m, p ∈ wire c → p_msg p = MInstallSnapshot m → restorable cl T g c e m;
  cv_queue : ∀ i d, drivers c !! i = Some d → outgoing (node d) = [] ∧ committed (node d) = [];
}.

Lemma restorable_mono cl T T' g g' c e m :
  grows T T' → extends g g' → restorable cl T g c e m → restorable cl T' g' c e m.
Proof.
  intros Hg He (K & h & Hpast & ?). exists K, h. split; [by eapply past_mono|done].
Qed.

Lemma converging_mono cl T T' g g' c e :
  grows T T' → extends g g' → converging cl T g c e → converging cl T' g' c e.
Proof.
  intros Hg He [Hst Hw Hq]. split; [| |done].
  - intros i d Hd. destruct (Hst i d Hd) as (K & b & h & Hp & ?). exists K, b, h.
    split; [by eapply past_mono|done].
  - intros p m Hp Hm. by eapply restorable_mono, Hw.
Qed.

(** *** The event of a turn *)

(** A snapshot of the wire that is installed by the event. *)
Definition installing c n n1 (m : InstallSnapshot) : Prop :=
  (∃ p, p ∈ wire c ∧ p_msg p = MInstallSnapshot m) ∧
  last_applied n ≤ is_last_included_index m ∧ snapshot_index (log n1) = is_last_included_index m ∧
  last_applied n1 = is_last_included_index m ∧ commit_index n1 = is_last_included_index m ∧
  committed n1 = [CommittedSnapshot (is_data m)].

Record eventful c n n1 : Prop := {
  ev_point : snapshot_index (log n) ≤ snapshot_index (log n1);
  ev_sent : ∀ x m, x ∈ outgoing n1 → message x = MInstallSnapshot m →
    is_last_included_index m = snapshot_index (log n);
  ev_items : last_applied n1 = last_applied n ∧ committed n1 = [] ∨ ∃ m, installing c n n1 m;
}.

Lemma event_packet c a i ev from msg :
  event_of c a = Some (i, ev) → event_op ev = Some (OpStep from msg) →
  ∃ p, p ∈ wire c ∧ p_msg p = msg.
Proof.
  destruct a as [j|k|j cmd w|j w]; cbn; try (by intros [= <- <-]).
  destruct (wire c !! k) as [p|] eqn:Hp; [|done]. cbn. intros [= <- <-] [= <- <-].
  exists p. by apply list_elem_of_lookup_2 in Hp.
Qed.

Lemma event_eventful cl T g c s S a i ev d :
  shipped cl T g s S → simulated c s → event_of c a = Some (i, ev) → drivers c !! i = Some d →
  permitted Shipping ev d → outgoing (node d) = [] → committed (node d) = [] →
  eventful c (node d) (node (handle_event ev d)).
Proof.
  intros Hsh Hsim Hev Hd [Hob _] Hout Hcom. rewrite handle_event_node. unfold exec_event.
  destruct (event_action _ _ _ _ _ Hsim Hev) as [He|(na & o & He & Hop & _)]; rewrite He in *.
  { split; [done| |by left]. intros x m Hx. rewrite Hout in Hx. by apply not_elem_of_nil in Hx. }
  assert (nodes s !! i = Some (node d)) as Hi.
  { rewrite (sm_nodes _ _ Hsim). unfold nodes_of. by rewrite lookup_fmap, Hd. }
  pose proof (sh_mirrors _ _ _ _ _ Hsh) as Hm. destruct (mi_node _ _ Hm _ _ Hi) as (Hok & _).
  assert (o ≠ OpTakeReady) as Ho by (intros ->; by destruct ev as [| |[]]).
  destruct (ship_unapplied _ _ _ _ _ _ _ _ _ Hsh Hop Hi Hob Ho)
    as [([Hq|Hsame] & Hla & Hc)|(from & m & M & K' & -> & Hin & Hli & Hla)].
  - split; [|intros x m Hx Hm'|left; split; [done|by rewrite Hc]].
    + by destruct (exec_snapshot_point (node d) o Hq) as [-> _].
    + destruct (exec_sends (node d) o x Hq Hx) as [Hold|Hr].
      { rewrite Hout in Hold. by apply not_elem_of_nil in Hold. }
      unfold reports in Hr. by rewrite Hm' in Hr.
  - rewrite Hsame. split; [done| |by left]. intros x m Hx. rewrite Hout in Hx. by apply not_elem_of_nil in Hx.
  - assert (snapshot_index (log (exec (OpStep from (MInstallSnapshot m)) (node d))) =
      is_last_included_index m) as Hsi by (by rewrite (in_log _ _ _ _ _ Hin)).
    split; [rewrite Hsi; destruct Hok; lia| |right; exists m].
    + intros x m' Hx Hm'. destruct (exec_emits _ _ _ Hx) as [Hold|Hf].
      { rewrite Hout in Hold. by apply not_elem_of_nil in Hold. }
      unfold fresh_env in Hf. rewrite Hm' in Hf. destruct Hf as [Hr _].
      pose proof (in_core _ _ _ _ _ Hin) as Hcore. apply core_fields in Hcore as (_ & Hrole & _).
      cbn [role uncompacted] in Hrole. rewrite (in_role _ _ _ _ _ Hin) in Hrole. congruence.
    + split; [by eapply event_packet|]. split; [lia|]. split; [done|].
      split; [by apply Hin|]. split; [by apply Hin|]. by rewrite (in_committed _ _ _ _ _ Hin), Hcom.
Qed.

(** *** A turn *)
Lemma replica_turn cl T g S K K1 e σ b a h x :
  sound cl T g S → past cl T g K h → past cl T g K1 x → replica_of K e σ b a h → a ≤ x →
  ∃ K', past cl T g K' (N.max h x) ∧
    replica_of K' e (apply_all (log_commands K1 a x) σ) b x (N.max h x).
Proof.
  intros Hs Hp Hp1 Hr Hax. destruct (N.le_ge_cases x h) as [Hle|Hle].
  - exists K. rewrite N.max_l by done. split; [done|].
    rewrite (log_commands_ext parse_error K1 K).
    + pose proof (replica_advance _ _ _ _ _ _ _ x Hr Hax) as Hr'. by rewrite N.max_l in Hr'.
    + intros k Hk. eapply past_agree; [exact Hs|exact Hp1|by eapply past_le|lia].
  - exists K1. rewrite N.max_r by done. split; [done|].
    assert (replica_of K1 e σ b a h) as Hr1.
    { apply (replica_ext parse_error K K1); [|done]. intros k Hk.
      eapply past_agree; [exact Hs|exact Hp|by eapply past_le|lia]. }
    pose proof (replica_advance _ _ _ _ _ _ _ x Hr1 Hax) as Hr'. by rewrite N.max_r in Hr'.
Qed.

(** What a drain leaves. *)
Lemma drained n :
  node_ok n → let n' := (take_ready n).1 in
  last_applied n' = commit_index n ∧ outgoing n' = [] ∧ committed n' = [] ∧
  snapshot_index (log n) ≤ snapshot_index (log n').
Proof.
  intros Hok n'. destruct Hok as [_ _ Ha Hc Hb].
  destruct (take_ready_eq n ltac:(lia)) as (l & Hn & Hl & _). subst n'. rewrite Hn. cbn.
  split; [lia|]. split; [done|]. split; [done|]. destruct Hl as [->| ->]; [done|].
  unfold compact. case_decide; cbn; lia.
Qed.

(** The store after the items of a turn. *)
Lemma turn_replica cl T g S c c' i d n1 K1 e :
  let n := node d in let x := commit_index n1 in
  sound cl T g S → converging cl T g c e → drivers c !! i = Some d → node_ok n → node_ok n1 →
  eventful c n n1 → trims K1 (log n1) → past cl T g K1 x →
  (∀ h, reached c h → reached c' h) → reached c' x →
  ∃ K b h, past cl T g K h ∧ reached c' h ∧ b ≤ snapshot_index (log n1) ∧
    replica_of K e (foldl (store_item parse_error) (storage d) (committed n1 ++ pending n1)) b x h.
Proof.
  intros n x Hs Hcv Hd Hok Hok1 [Hpt _ Hit] Ht1 Hpast1 Hreach Hx.
  rewrite <-(pending_uncompacted K1 n1 Hok1 Ht1). unfold pending.
  cbn [log last_applied commit_index uncompacted].
  destruct Hit as [[Hla Hc]|(m & (p & Hp & Hm) & Hle & Hsi & Hla & Hcom & Hc)]; rewrite Hc, Hla.
  - destruct (cv_store _ _ _ _ _ Hcv i d Hd) as (K & b & h & Hpast & Hr & Hb & Hrep).
    rewrite app_nil_l, store_deliveries.
    destruct (replica_turn _ _ _ _ _ _ _ _ _ _ _ x Hs Hpast Hpast1 Hrep) as (K' & Hp' & Hr').
    { subst x n. rewrite <-Hla. apply Hok1. }
    exists K', b, (N.max h x). split; [done|]. split; [|split; [by etrans|exact Hr']].
    destruct (N.max_spec h x) as [[_ ->]|[_ ->]]; [done|by apply Hreach].
  - destruct (cv_wire _ _ _ _ _ Hcv p m Hp Hm) as (K & h & Hpast & Hr & Hrep).
    exists K, (is_last_included_index m), h. split; [done|]. split; [by apply Hreach|].
    split; [lia|]. subst x. rewrite Hcom. rewrite N.sub_diag. cbn [N.to_nat deliveries app foldl store_item].
    apply Hrep.
Qed.

(** A snapshot it posts. *)
Lemma posted_replica cl T g c s S i ev d p m e :
  converging cl T g c e → shipped cl T g s S → simulated c s → drivers c !! i = Some d →
  eventful c (node d) (node (handle_event ev d)) →
  p ∈ posted i d (turn ev d) → p_msg p = MInstallSnapshot m → restorable cl T g c e m.
Proof.
  intros Hcv Hsh Hsim Hd [_ Hsent _] Hp Hm.
  apply posted_sent, list_elem_of_fmap in Hp as (x & -> & Hx). rewrite ready_messages_outgoing in Hx.
  cbn [p_msg] in Hm. destruct (message x) as [| | | |m0|] eqn:Hmx; try done.
  injection Hm as <-. specialize (Hsent x m0 Hx Hmx).
  assert (nodes s !! i = Some (node d)) as Hi.
  { rewrite (sm_nodes _ _ Hsim). unfold nodes_of. by rewrite lookup_fmap, Hd. }
  destruct (mi_node _ _ (sh_mirrors _ _ _ _ _ Hsh) _ _ Hi) as (Hok & _).
  destruct (cv_store _ _ _ _ _ Hcv i d Hd) as (K & b & h & Hpast & Hr & Hb & Hrep).
  exists K, h. split; [done|]. split; [done|]. intros σ. cbn [is_last_included_index is_data]. rewrite Hsent.
  eapply replica_restore; [exact Hrep|done|apply Hok].
Qed.

(** The cluster after the turn. *)
Lemma insert_converging cl T g S c i d d' n1 K1 pk e :
  sound cl T g S → converging cl T g c e → drivers c !! i = Some d →
  node_ok (node d) → node_ok n1 → eventful c (node d) n1 →
  trims K1 (log n1) → past cl T g K1 (commit_index n1) →
  node d' = (take_ready n1).1 →
  storage d' = foldl (store_item parse_error) (storage d) (ready_committed (take_ready n1).2) →
  (∀ p m, p ∈ pk → p_msg p = MInstallSnapshot m → restorable cl T g c e m) →
  converging cl T g (mkCluster (<[i := d']> (drivers c)) (wire c ++ pk)) e.
Proof.
  intros Hs Hcv Hd Hok Hok1 Hevf Ht1 Hpast1 Hnode Hsto Hpk.
  destruct (drained n1 Hok1) as (Hla & Hout' & Hcom' & Hpt). rewrite <-Hnode in Hla, Hout', Hcom', Hpt.
  set (c' := mkCluster _ _).
  assert (drivers c' !! i = Some d') as Hi' by apply lookup_insert_eq.
  assert (reached c' (commit_index n1)) as Hx by (exists i, d'; split; [done|by rewrite Hla]).
  assert (last_applied (node d) ≤ commit_index n1) as Hmono.
  { destruct (ev_items _ _ _ Hevf) as [[<- _]|(m & _ & Hle & _ & _ & -> & _)]; [apply Hok1|done]. }
  assert (∀ h, reached c h → reached c' h) as Hreach.
  { intros h (j & dj & Hj & Hle). destruct (decide (j = i)) as [->|Hne].
    - exists i, d'. split; [done|]. rewrite Hd in Hj. injection Hj as <-. rewrite Hla. lia.
    - exists j, dj. split; [|done]. unfold c'. cbn [drivers]. by rewrite lookup_insert_ne. }
  split.
  - intros j dj Hj. unfold c' in Hj. cbn [drivers] in Hj.
    apply lookup_insert_Some in Hj as [[<- <-]|[Hne Hj]].
    + destruct (turn_replica cl T g S c c' i d n1 K1 e Hs Hcv Hd Hok Hok1
        Hevf Ht1 Hpast1 Hreach Hx) as (K & b & h & Hp' & Hr & Hb & Hrep).
      exists K, b, h. split; [done|]. split; [done|]. split; [by etrans|]. rewrite Hla, Hsto.
      destruct (take_ready_eq n1 ltac:(destruct Hok1; lia)) as (_ & _ & _ & ->). exact Hrep.
    + destruct (cv_store _ _ _ _ _ Hcv j dj Hj) as (K & b & h & ? & ? & ?). exists K, b, h.
      split; [done|]. split; [by apply Hreach|done].
  - intros p m Hin Hm. assert (restorable cl T g c e m) as (K & h & ? & ? & ?).
    { apply elem_of_app in Hin as [Hin|Hin]; [by apply (cv_wire _ _ _ _ _ Hcv p)|by apply (Hpk p)]. }
    exists K, h. split; [done|]. split; [by apply Hreach|done].
  - intros j dj Hj. unfold c' in Hj. cbn [drivers] in Hj.
    apply lookup_insert_Some in Hj as [[_ <-]|[_ Hj]]; [done|]. by apply (cv_queue _ _ _ _ _ Hcv j).
Qed.

Lemma cstep_converging cl T g c s S e a c' :
  shipped cl T g s S → simulated c s → converging cl T g c e →
  cstep parse_error Shipping c a = Some c' →
  ∃ T' g' s' S', shipped cl T' g' s' S' ∧ simulated c' s' ∧ converging cl T' g' c' e.
Proof.
  intros Hsh Hsim Hcv Hst. unfold cstep in Hst.
  destruct (event_of c a) as [[i ev]|] eqn:Hev; [|done]. cbn [mbind option_bind fst snd] in Hst.
  destruct (drivers c !! i) as [d|] eqn:Hd; [|done]. cbn [mbind option_bind] in Hst.
  case_decide as Hp; [|done].
  destruct (cv_queue _ _ _ _ _ Hcv i d Hd) as [Hout Hcom].
  pose proof (event_eventful _ _ _ _ _ _ _ _ _ _ Hsh Hsim Hev Hd Hp Hout Hcom) as Hevf.
  assert (node_ok (node d)) as Hok.
  { assert (nodes s !! i = Some (node d)) as Hi.
    { rewrite (sm_nodes _ _ Hsim). unfold nodes_of. by rewrite lookup_fmap, Hd. }
    by destruct (mi_node _ _ (sh_mirrors _ _ _ _ _ Hsh) _ _ Hi). }
  destruct (event_simulated _ _ _ _ _ _ _ Hsim Hev Hd Hp) as (acts & s1 & Hr1 & Hns & Hnet & _).
  destruct (run_shipped _ _ _ _ _ _ _ Hsh Hr1) as (T1 & g1 & S1 & Hg1 & He1 & Hsh1 & _).
  pose proof (λ p m, posted_replica cl T g c s S i ev d p m e Hcv Hsh Hsim Hd Hevf) as Hpk.
  pose proof (turn_node parse_error ev d) as Hn. pose proof (turn_storage parse_error ev d) as Hsto.
  pose proof (posted_sent parse_error i ev d) as Hpost. pose proof (proj2 Hp) as Hob.
  revert Hst Hns Hn Hsto Hpk Hpost Hob Hevf. generalize (turn ev d) as d'.
  generalize (node (handle_event ev d)) as n1. intros n1 d' Hst Hns Hn Hsto Hpk Hpost Hob Hevf.
  injection Hst as <-.
  assert (nodes s1 !! i = Some n1) as Hn1 by (rewrite Hns; apply lookup_insert_eq).
  destruct (past_commit _ _ _ _ _ _ _ Hsh1 Hn1) as (K1 & Ht1 & Hpast1 & Hok1).
  destruct (drain_simulated parse_error Shipping c s1 i d n1 d' _ _ Hns
    ltac:(rewrite Hnet; apply Hsim) Hd Hob Hn Hsto Hpost) as (s2 & Hr2 & Hsim2 & _).
  destruct (run_shipped _ _ _ _ _ _ _ Hsh1 Hr2) as (T2 & g2 & S2 & Hg2 & He2 & Hsh2 & _).
  exists T2, g2, s2, S2. split; [done|]. split; [done|].
  pose proof (grows_trans _ _ _ Hg1 Hg2) as Hg. pose proof (extends_trans _ _ _ He1 He2) as He.
  apply (insert_converging cl T2 g2 S2 c i d d' n1 K1); try done.
  - apply Hsh2.
  - exact (converging_mono _ _ _ _ _ _ _ Hg He Hcv).
  - exact (past_mono _ _ _ _ _ _ _ Hg2 He2 Hpast1).
  - intros p m Hin Hm. exact (restorable_mono _ _ _ _ _ _ _ _ Hg He (Hpk p m Hin Hm)).
Qed.

Lemma crun_converging cl T g c s S e acts c' :
  shipped cl T g s S → simulated c s → converging cl T g c e →
  crun parse_error Shipping acts c = Some c' →
  ∃ T' g' s' S', shipped cl T' g' s' S' ∧ simulated c' s' ∧ converging cl T' g' c' e.
Proof.
  revert T g c s S. induction acts as [|a acts IH]; intros T g c s S Hsh Hsim Hcv Hr; cbn in Hr.
  { injection Hr as <-. by exists T, g, s, S. }
  destruct (cstep parse_error Shipping c a) as [c1|] eqn:Ha; [|done]. cbn in Hr.
  destruct (cstep_converging _ _ _ _ _ _ _ _ _ Hsh Hsim Hcv Ha) as (T1 & g1 & s1 & S1 & Hsh1 & Hsim1 & Hcv1).
  exact (IH _ _ _ _ _ Hsh1 Hsim1 Hcv1 Hr).
Qed.

Lemma fresh_converging cl T g c e :
  fresh_servers c e → converging cl T g c e.
Proof.
  intros (Hw & [_ Hfresh] & Hst).
  assert (∀ i d, drivers c !! i = Some d → storage d = e ∧ last_applied (node d) = 0 ∧
    outgoing (node d) = [] ∧ committed (node d) = [] ∧ log (node d) = RaftLog.new) as Hnew.
  { intros i d Hd. split; [by eapply Hst|].
    destruct (Hfresh i (node d)) as (? & ? & ? & Hnw & _).
    { cbn. unfold nodes_of. by rewrite lookup_fmap, Hd. }
    unfold new in Hnw. case_decide; [|done]. by injection Hnw as <-. }
  split.
  - intros i d Hd. destruct (Hnew i d Hd) as (-> & -> & _ & _ & ->). exists RaftLog.new, 0, 0.
    split.
    { split; [|by exists 0; left]. split_and!; [done..|apply chronicled_nil]. }
    split; [exists i, d; split; [done|lia]|].
    split; [done|apply replica_start].
  - intros p m Hp. rewrite Hw in Hp. by apply not_elem_of_nil in Hp.
  - intros i d Hd. by destruct (Hnew i d Hd) as (_ & _ & ? & ? & _).
Qed.

(** ** The property *)

(** [C7] The stores converge also when servers are brought up to date by
    snapshots. Take any run from fresh servers, configured in [u64], that keeps
    to the discipline [Shipping]: as in faithful runs no node forgets its vote
    of the current term and no follower keeps entries its leader did not send;
    no log reaches the last [u64] index; appends start above their receiver's
    snapshot point, or at it and agree with it; snapshots carry the term of
    their last entry and are installed by followers whose log is not longer.
    Then there is one history of commands such that the store of every server,
    once the server has applied the history from its applied index up to some
    index that another server has reached, holds what the history writes up to
    there; a server that has applied as much as any other holds exactly that
    already. So a restored store may be ahead of its node, and replays what it
    already reflects, but it ends up right. *)
Theorem stores_converge e acts c0 c :
  fresh_servers c0 e → (∀ i d, drivers c0 !! i = Some d → u64_node (node d)) →
  crun parse_error Shipping acts c0 = Some c →
  ∃ K, snapshot_index K = 0 ∧ ∀ i d, drivers c !! i = Some d →
    let a := last_applied (node d) in
    a ≤ last_index K ∧
    (∃ h, a ≤ h ∧ reached c h ∧
       same_contents (apply_all (log_commands K a h) (storage d)) (apply_all (log_commands K 0 h) e)) ∧
    ((∀ h, reached c h → h ≤ a) → same_contents (storage d) (apply_all (log_commands K 0 a) e)).
Proof.
  intros Hfr Hty Hr. pose proof Hfr as (Hw & Hfresh & _).
  set (s0 := mkSys (nodes_of c0) []) in *.
  assert (typed s0) as Hty0.
  { intros i n Hn. cbn in Hn. unfold nodes_of in Hn. rewrite lookup_fmap in Hn.
    apply fmap_Some in Hn as (d & Hd & ->). by eapply Hty. }
  assert (simulated c0 s0) as Hsim0 by (split; [done|]; intros p; by rewrite Hw).
  destruct (crun_converging _ _ _ _ _ _ _ _ _ (fresh_shipped _ Hfresh Hty0) Hsim0
    (fresh_converging _ _ _ _ _ Hfr) Hr) as (T & g & s & S & Hsh & Hsim & Hcv).
  pose proof (sh_sound _ _ _ _ _ Hsh) as Hs.
  assert (∀ i d, drivers c !! i = Some d → nodes s !! i = Some (node d)) as Hnodes.
  { intros i d Hd. rewrite (sm_nodes _ _ Hsim). unfold nodes_of. by rewrite lookup_fmap, Hd. }
  destruct (map_max (λ d, last_applied (node d)) (drivers c)) as [He|(j & dj & Hj & Hmax)].
  { exists RaftLog.new. split; [done|]. intros i d Hd. by rewrite He, lookup_empty in Hd. }
  destruct (past_commit _ _ _ _ _ _ _ Hsh (Hnodes _ _ Hj)) as (K & Ht & Hp & Hok).
  pose proof (past_le _ _ _ _ _ _ (ok_applied _ Hok) Hp) as Hpast.
  exists K. split; [apply Ht|]. intros i d Hd a. split; [|].
  { rewrite <-(trims_last_index _ _ Ht). specialize (Hmax _ _ Hd). destruct Hok. subst a. lia. }
  destruct (cv_store _ _ _ _ _ Hcv i d Hd) as (K' & b & h & Hp' & Hreach & _ & Hrep).
  apply (replica_ext parse_error K' K) in Hrep.
  - split; [exists h; split; [apply Hrep|split; [done|apply Hrep]]|].
    intros Hall. eapply replica_exact; [exact Hrep|by apply Hall].
  - destruct Hreach as (i' & d' & Hd' & Hle). specialize (Hmax _ _ Hd'). intros k Hk.
    eapply past_agree; [exact Hs|exact Hp'| |lia]. eapply past_le; [|exact Hpast]. lia.
Qed.
End Cluster.

(** ** A restored store that is ahead of its node *)
Section Example.
#[local] Existing Instance low_rng.
#[local] Existing Instance low_rng_laws.
#[local] Existing Instance canonical_iter.
#[local] Existing Instance DemoCodec.demo_json.

(** Compacts every two entries. *)
Definition thrifty : RaftConfig := mkConfig 1 5 10 2 None.

Definition thrifty_server (i : NodeId) : Driver Memory.MemoryEngine :=
  let ps := others i ["n1"; "n2"; "n3"] in
  start (mkNode i ps thrifty low_state Follower None 0 None RaftLog.new 0 0 progress_default ∅ 0 0 5 [] [])
    Memory.new ps.

Definition thrifty_trio : cluster Memory.MemoryEngine :=
  mkCluster (list_to_map ((λ i, (i, thrifty_server i)) <$> ["n1"; "n2"; "n3"])) [].

Lemma thrifty_trio_fresh :
  fresh_servers thrifty_trio Memory.new ∧ ∀ i d, drivers thrifty_trio !! i = Some d → u64_node (node d).
Proof.
  assert (∀ i d, drivers thrifty_trio !! i = Some d →
    (i = "n1" ∨ i = "n2" ∨ i = "n3") ∧ d = thrifty_server i) as Hin.
  { intros i d Hd. apply elem_of_list_to_map_2 in Hd. cbn [fmap list_fmap] in Hd.
    rewrite !elem_of_cons in Hd. destruct Hd as [Hd|[Hd|[Hd|Hd]]];
      [injection Hd as -> ->; by auto..|by apply not_elem_of_nil in Hd]. }
  split; [split; [done|split; [split; [done|]|]]|].
  - intros i n Hn. cbn [nodes] in Hn. unfold nodes_of in Hn. rewrite lookup_fmap in Hn.
    apply fmap_Some in Hn as (d & Hd & ->). destruct (Hin i d Hd) as [Hi ->].
    exists low_state, (others i ["n1"; "n2"; "n3"]), thrifty. split; [done|]. split.
    + destruct Hi as [-> |[-> | ->]]; by apply (bool_decide_unpack _).
    + intros j. cbn [nodes]. unfold nodes_of. rewrite dom_fmap_L.
      destruct Hi as [-> |[-> | ->]]; set_solver.
  - intros i d Hd. by destruct (Hin i d Hd) as [_ ->].
  - intros i d Hd. destruct (Hin i d Hd) as [_ ->].
    apply (u64_new low_state i (others i ["n1"; "n2"; "n3"]) thrifty); [|done].
    by split_and!.
Qed.

(** ["n1"] commits three writes with ["n2"], compacts the first two, and sends
    ["n3"] a snapshot for them whose data has the third. *)
Definition snapshot_run : list caction :=
  replicate 5 (CTick "n1") ++ [CDeliver 0; CDeliver 2;
    CPropose "n1" (Set_ "a" [x01]) 7; CDeliver 5; CDeliver 7;
    CPropose "n1" (Set_ "a" [x02]) 8; CDeliver 8; CDeliver 10;
    CPropose "n1" (Set_ "a" [x03]) 9; CDeliver 11; CDeliver 13; CTick "n1"; CDeliver 15].

Definition held_a (d : Driver Memory.MemoryEngine) : option bytes := Storage.get (storage d) "a".

Lemma stores_converge_witness :
  match crun plain_error Shipping snapshot_run thrifty_trio with
  | Some c => ∀ d1 d3, drivers c !! "n1" = Some d1 → drivers c !! "n3" = Some d3 →
      last_applied (node d3) = 2 ∧ held_a d3 = Some [x03] ∧
      ∃ K, same_contents (storage d1) (apply_all (log_commands plain_error K 0 3) Memory.new) ∧
        ∃ h, 2 ≤ h ∧ reached c h ∧ same_contents (apply_all (log_commands plain_error K 2 h) (storage d3))
          (apply_all (log_commands plain_error K 0 h) Memory.new)
  | None => False
  end.
Proof.
  destruct (crun plain_error Shipping snapshot_run thrifty_trio) as [c|] eqn:Hr;
    [|vm_compute in Hr; discriminate Hr].
  intros d1 d3 H1 H3.
  pose proof (watched (last_applied ∘ node) _ _ _ _ _ _ 3 Hr H1 ltac:(vm_compute; reflexivity)) as A1.
  pose proof (watched (last_applied ∘ node) _ _ _ _ _ _ 2 Hr H3 ltac:(vm_compute; reflexivity)) as A3.
  pose proof (watched held_a _ _ _ _ _ _ (Some [x03]) Hr H3
    ltac:(vm_compute; reflexivity)) as S3.
  assert (map_Forall (λ _ d, last_applied (node d) <= 3) (drivers c)) as Hmax.
  { assert ((c ← crun plain_error Shipping snapshot_run thrifty_trio;
      Some (bool_decide (map_Forall (λ _ d, last_applied (node d) <= 3) (drivers c)))) = Some true)
      as Hall by (vm_compute; reflexivity).
    rewrite Hr in Hall. injection Hall as Hall. exact (bool_decide_eq_true_1 _ Hall). }
  cbn [compose] in A1, A3. split; [exact A3|]. split; [exact S3|].
  destruct (stores_converge plain_error Memory.new snapshot_run thrifty_trio c
    (proj1 thrifty_trio_fresh) (proj2 thrifty_trio_fresh) Hr) as (K & _ & Hconv).
  exists K. destruct (Hconv "n1" d1 H1) as (_ & _ & Hexact).
  destruct (Hconv "n3" d3 H3) as (_ & Hahead & _). cbv zeta in Hexact, Hahead.
  rewrite A1 in Hexact. rewrite A3 in Hahead. split; [|exact Hahead].
  apply Hexact. intros h (j & d & Hd & Hle). etrans; [exact Hle|exact (Hmax j d Hd)].
Defined.
End Example.
