(* ===== verification/ServerProps.v ===== *)
(** * Properties of the driver

    The invariant of a running driver (clients wait only for entries of a
    leader's log that are not applied yet; the store is what the applied
    commands make of it) and the properties that follow. *)

From S2P Require Import Prelude Storage Errors Apply RaftLog RaftState RaftNode NodeTheory NodeProps Server ServerTheory.
From S2P Require Metrics.
Local Open Scope N_scope.

Section Invariant.
Context `{Rng} {E : Type} `{EngineLaws E} `{JsonLaws WriteCommand}.
Context `{!HashIter N (list waiter)} (parse_error : bytes → string).
Context (cmd_of : waiter → WriteCommand).
Implicit Types (d : Driver E) (ev : event) (n : RaftNode).

Abbreviation turn := (turn parse_error).
Abbreviation process_ready := (process_ready parse_error).
Abbreviation commands := (ServerTheory.commands parse_error).

(** Messages are legitimate for the node, and [cmd_of] records which command
    each channel was opened for. *)
Definition event_ok d ev : Prop :=
  match event_op ev with Some o => op_ok (node d) o | None => True end ∧
  match ev with EvRequest (DPropose cmd w) => cmd_of w = cmd | _ => True end.

Inductive driver_reach (d0 : Driver E) : Driver E → Prop :=
  | dreach_start : driver_reach d0 d0
  | dreach_turn d ev : driver_reach d0 d → event_ok d ev → driver_reach d0 (turn ev d).

(** ** Commands applied since the last compaction *)
Definition applied_since (n : RaftNode) : list WriteCommand :=
  commands (deliveries (log n) (snapshot_index (log n))
              (N.to_nat (last_applied n - snapshot_index (log n)))).

(** ** The invariant *)
Record driver_ok d : Prop := {
  dok_node : node_ok (node d);
  dok_queue : committed (node d) = [];
  dok_follower : role (node d) ≠ Leader → waiters d = ∅;
  dok_waiters : ∀ i ws w, waiters d !! i = Some ws → w ∈ ws →
    last_applied (node d) < i ∧
    ∃ e, get (log (node d)) i = Some e ∧ command e = encode (cmd_of w);
  dok_store : ∃ base, same_contents (storage d) (apply_all (applied_since (node d)) base);
}.

Lemma encode_nonempty c : encode c ≠ [].
Proof. apply to_vec_nonempty. Qed.

(** Leaders keep their entries. *)
Lemma exec_leader_keeps o n i e :
  node_ok n → op_ok n o → o ≠ OpTakeReady → role n = Leader → role (exec o n) = Leader →
  get (log n) i = Some e → get (log (exec o n)) i = Some e.
Proof.
  intros Hok Ho Ht Hr Hr' Hg. destruct o as [|from msg|cmd|]; cbn [exec op_ok] in *; [..|done].
  - unfold tick. rewrite Hr. cbv zeta. rewrite broadcast_append_eq. by case_decide.
  - by rewrite step_leader_keeps_log.
  - destruct (propose_leader n cmd (ok_log _ Hok) Ho Hr) as (_ & _ & _ & _ & -> & _); [done|].
    assert (is_Some (get (log n) i)) as Hi by done.
    apply get_is_Some in Hi; [lia|apply Hok].
Qed.

Lemma exec_applied o n :
  node_ok n → op_ok n o → o ≠ OpTakeReady →
  (applied_view (exec o n) = applied_view n ∧
   ∀ i, i ≤ commit_index n → get (log (exec o n)) i = get (log n) i) ∨
  ∃ data, role (exec o n) = Follower ∧
    last_applied (exec o n) = snapshot_index (log (exec o n)) ∧
    commit_index (exec o n) = last_applied (exec o n) ∧
    committed (exec o n) = committed n ++ [CommittedSnapshot data].
Proof.
  intros Hok Ho Ht.
  assert ((∃ from m, o = OpStep from (MInstallSnapshot m)) ∨
    ∀ from m, o ≠ OpStep from (MInstallSnapshot m)) as [(from & m & ->)|Hns]
    by (destruct o as [|from []| |]; naive_solver).
  - cbn [exec]. destruct (step_applied from (MInstallSnapshot m) n) as [[Ha Hl]|(? & _ & ?)].
    + left. split; [done|]. intros i _. rewrite Hl; [done|by eexists].
    + right. by eexists.
  - assert (keeps_committed n (exec o n)) as [_ Hk].
    { by apply exec_keeps_committed. }
    destruct o as [|from msg|cmd|]; cbn [exec] in *; [..|done].
    + left. split; [apply tick_applied|done].
    + destruct (step_applied from msg n) as [[Ha _]|(m & -> & _)]; [by left|].
      by destruct (Hns from m).
    + left. split; [apply propose_applied|done].
Qed.

(** The node between the event and [process_ready]. *)
Record mid_ok d : Prop := {
  mok_node : node_ok (node d);
  mok_queue : committed (node d) = [] ∨
    ∃ data, committed (node d) = [CommittedSnapshot data] ∧ role (node d) = Follower ∧
      last_applied (node d) = snapshot_index (log (node d)) ∧
      commit_index (node d) = last_applied (node d);
  mok_waiters : role (node d) = Leader → ∀ i ws w, waiters d !! i = Some ws → w ∈ ws →
    last_applied (node d) < i ∧
    ∃ e, get (log (node d)) i = Some e ∧ command e = encode (cmd_of w);
  mok_store : ∃ base, same_contents (storage d) (apply_all (applied_since (node d)) base);
}.

Lemma applied_since_ext n n' :
  applied_view n' = applied_view n →
  (∀ i, i ≤ last_applied n → get (log n') i = get (log n) i) →
  applied_since n' = applied_since n.
Proof.
  intros [= Ha Hs _] Hg. unfold applied_since. rewrite Ha, Hs. f_equal.
  apply deliveries_ext. intros j Hj. apply Hg. lia.
Qed.

Lemma applied_since_caught_up n : last_applied n = snapshot_index (log n) → applied_since n = [].
Proof. intros Ha. unfold applied_since. rewrite Ha. by replace (N.to_nat _) with 0%nat by lia. Qed.

Lemma exec_event_applied ev d :
  driver_ok d → event_ok d ev →
  (applied_view (exec_event ev (node d)) = applied_view (node d) ∧
   ∀ i, i ≤ commit_index (node d) →
     get (log (exec_event ev (node d))) i = get (log (node d)) i) ∨
  ∃ data, role (exec_event ev (node d)) = Follower ∧
    last_applied (exec_event ev (node d)) = snapshot_index (log (exec_event ev (node d))) ∧
    commit_index (exec_event ev (node d)) = last_applied (exec_event ev (node d)) ∧
    committed (exec_event ev (node d)) = [CommittedSnapshot data].
Proof.
  intros Hok [Hev _]. unfold exec_event.
  destruct (event_op ev) as [o|] eqn:Ho; [|by left].
  assert (o ≠ OpTakeReady) as Hnt by by eapply event_op_drain.
  destruct (exec_applied o (node d) (dok_node _ Hok) Hev Hnt) as [?|(data & ? & ? & ? & Hc)];
    [by left|right]. exists data. by rewrite Hc, (dok_queue _ Hok).
Qed.

(** The waiters after an event that leaves the node leading. *)
Lemma handle_event_waiters ev d i ws w :
  driver_ok d → event_ok d ev → role (exec_event ev (node d)) = Leader →
  waiters (handle_event ev d) !! i = Some ws → w ∈ ws →
  last_applied (exec_event ev (node d)) < i ∧
  ∃ e, get (log (exec_event ev (node d))) i = Some e ∧ command e = encode (cmd_of w).
Proof.
  intros Hok Hev Hl Hi Hw.
  destruct (exec_event_applied ev d Hok Hev) as [[Ha Hg]|(data & Hf & _)]; [|congruence].
  injection Ha as Ha _ _. rewrite Ha. destruct Hev as [Hop Hcmd].
  assert (∀ i ws, waiters d !! i = Some ws → w ∈ ws → last_applied (node d) < i ∧
    ∃ e, get (log (exec_event ev (node d))) i = Some e ∧ command e = encode (cmd_of w)) as Hold.
  { clear i ws Hi Hw. intros i ws Hi Hw.
    destruct (decide (role (node d) = Leader)) as [Hr|Hr]; [|by rewrite (dok_follower _ Hok) in Hi].
    destruct (dok_waiters _ Hok _ _ _ Hi Hw) as (Hlt & e & He & Hc). split; [done|].
    exists e. split; [|done]. unfold exec_event in *.
    destruct (event_op ev) as [o|] eqn:Ho; [|done].
    apply exec_leader_keeps; try done; [apply Hok|].
    by eapply event_op_drain. }
  destruct ev as [|from msg|[from msg|cmd w'|w']]; try by eapply Hold.
  unfold exec_event in *. cbn [event_op exec op_ok] in *. cbn [handle_event handle_request] in Hi.
  destruct (decide (role (node d) = Leader)) as [Hr|Hr].
  - destruct (propose_leader (node d) (encode cmd) (ok_log _ (dok_node _ Hok)) Hop Hr)
      as (Hres & _ & _ & Hnew & _). destruct (propose _ _) as [n r]. cbn [fst snd] in *. subst r.
    cbn in Hi. rewrite lookup_insert in Hi. case_decide as Heq; [|by eapply Hold].
    subst i. injection Hi as <-. apply elem_of_app in Hw as [Hw|Hw].
    + destruct (waiters d !! _) as [ws0|] eqn:Hi0; [by eapply Hold|].
      by apply not_elem_of_nil in Hw.
    + apply list_elem_of_singleton in Hw as ->. split.
      * pose proof (ok_applied _ (dok_node _ Hok)). pose proof (ok_commit _ (dok_node _ Hok)). lia.
      * eexists. split; [done|]. cbn. by rewrite Hcmd.
  - unfold propose in Hi. rewrite decide_True in Hi by done. cbn in Hi. by eapply Hold.
Qed.

Lemma handle_event_mid ev d : driver_ok d → event_ok d ev → mid_ok (handle_event ev d).
Proof.
  intros Hok Hev. pose proof (exec_event_applied ev d Hok Hev) as Hcase.
  split; rewrite ?handle_event_node, ?handle_event_storage.
  - destruct Hev as [Hev _]. unfold exec_event.
    destruct (event_op ev); [by apply exec_ok; [apply Hok|]|apply Hok].
  - destruct Hcase as [[[= _ _ ->] _]|(data & ? & ? & ? & ?)]; [left; apply Hok|right; eauto].
  - intros Hl i ws w. by apply handle_event_waiters.
  - destruct Hcase as [[Ha Hg]|(data & _ & Hla & _)].
    + rewrite (applied_since_ext _ _ Ha); [apply Hok|]. intros i Hi. apply Hg.
      pose proof (ok_applied _ (dok_node _ Hok)). lia.
    + rewrite applied_since_caught_up by done. by exists (storage d).
Qed.

(** ** From the event to the end of the turn *)

Lemma resolved_lookup items (ws : gmap N (list waiter)) i l :
  foldl (flip resolved_at) ws items !! i = Some l ↔
  ws !! i = Some l ∧ ∀ cmd, CommittedCommand i cmd ∉ items.
Proof.
  revert ws. induction items as [|c items IH]; intros ws; cbn [foldl].
  { split; [|by intros []]. intros Hi. split; [done|]. intros cmd. apply not_elem_of_nil. }
  rewrite IH. destruct c as [j cmd|data]; cbn.
  - rewrite lookup_delete. setoid_rewrite not_elem_of_cons. case_decide; [subst|]; naive_solver.
  - setoid_rewrite not_elem_of_cons. naive_solver.
Qed.

(** The node after the drain, and the items. *)
Lemma drain_eq d :
  mid_ok d →
  ∃ l, (take_ready (node d)).1 = RaftNode.set_committed [] (set_outgoing [] (set_log l
      (set_last_applied (commit_index (node d)) (node d)))) ∧
    (l = log (node d) ∨ l = compact (log (node d)) (commit_index (node d))) ∧
    delivered_items d = committed (node d) ++ pending (node d).
Proof.
  intros Hok. pose proof (mok_node _ Hok) as Hn. destruct Hn as [_ _ Ha Hc Hb].
  destruct (take_ready_eq (node d)) as (l & Hn & Hl & Hi); [lia|].
  rewrite N.max_r in Hn, Hl by done. by exists l.
Qed.

Lemma process_ready_waiters d i ws w :
  mid_ok d → role (node d) = Leader →
  foldl (flip resolved_at) (waiters d) (delivered_items d) !! i = Some ws → w ∈ ws →
  commit_index (node d) < i ∧
  ∃ e, get (log (node d)) i = Some e ∧ command e = encode (cmd_of w).
Proof.
  intros Hok Hr Hi Hw. destruct (drain_eq d Hok) as (l & _ & _ & Hit).
  apply resolved_lookup in Hi as [Hi Hnot].
  destruct (mok_waiters _ Hok Hr _ _ _ Hi Hw) as (Hla & e & He & Hc). split; [|eauto].
  apply N.nle_gt. intros Hle. apply (Hnot (command e)). rewrite Hit.
  apply elem_of_app. right. apply elem_of_deliveries. split; [lia|]. split; [|eauto].
  rewrite Hc. apply encode_nonempty.
Qed.

(** The store after a drain that only delivers log entries. *)
Lemma drain_store n l base e :
  node_ok n → l = log n ∨ l = compact (log n) (commit_index n) →
  same_contents e (apply_all (applied_since n) base) →
  ∃ base', same_contents (apply_all (commands (pending n)) e)
    (apply_all (applied_since (set_log l (set_last_applied (commit_index n) n))) base').
Proof.
  intros Hok Hl He. destruct Hok as [Hlog Hs Ha Hc Hb].
  assert (commands (deliveries (log n) (snapshot_index (log n))
      (N.to_nat (commit_index n - snapshot_index (log n)))) =
    applied_since n ++ commands (pending n)) as Hsplit.
  { unfold applied_since, pending. rewrite <-commands_app. f_equal.
    replace (N.to_nat (commit_index n - snapshot_index (log n))) with
      (N.to_nat (last_applied n - snapshot_index (log n)) +
       N.to_nat (commit_index n - last_applied n))%nat by lia.
    rewrite deliveries_app. do 2 f_equal. lia. }
  destruct (decide (commit_index n ≤ snapshot_index (log n) ∨ l = log n)) as [Hcase|Hcase].
  - assert (l = log n) as ->.
    { destruct Hl as [->| ->]; [done|]. destruct Hcase as [Hle|?]; [|done].
      apply compact_noop. lia. }
    exists base. unfold applied_since at 1. cbn. rewrite Hsplit, apply_all_app. by rewrite He.
  - destruct Hl as [->| ->]; [tauto|].
    rewrite (applied_since_caught_up (set_log _ _)); [by eexists|].
    cbn. rewrite compact_snapshot_index, decide_False by lia. done.
Qed.

Lemma process_ready_ok d : mid_ok d → driver_ok (process_ready d).
Proof.
  intros Hok. destruct (process_ready_spec parse_error d) as (Hn & Hst & _ & Hw).
  destruct (drain_eq d Hok) as (l & Hn' & Hl & Hit).
  fold (delivered_items d) in Hst, Hw. pose proof (mok_node _ Hok) as Hnok.
  split; rewrite ?Hn, ?Hst, ?Hw.
  - by apply take_ready_ok.
  - by rewrite Hn'.
  - unfold is_leader. intros Hr. by rewrite bool_decide_eq_false_2.
  - unfold is_leader. intros i ws w. case_bool_decide as Hr; [|by rewrite lookup_empty].
    rewrite Hn' in Hr. cbn in Hr. intros Hi Hin.
    destruct (process_ready_waiters d i ws w Hok Hr Hi Hin) as (Hlt & e & He & Hc).
    rewrite Hn'. cbn. split; [done|]. exists e. split; [|done].
    destruct Hl as [->| ->]; [done|]. by rewrite compact_get by (apply Hnok || done).
  - rewrite Hn', Hit. cbn [app].
    assert (∀ n cs out, applied_since (RaftNode.set_committed cs (set_outgoing out n)) =
      applied_since n) as -> by done.
    destruct (mok_queue _ Hok) as [Hq|(data & Hq & _ & Hla & Hci)]; rewrite Hq, ?foldl_app.
    + destruct (mok_store _ Hok) as [base Hbase]. cbn [app]. unfold pending.
      rewrite store_deliveries. by apply (drain_store (node d) l base).
    + assert (pending (node d) = []) as ->.
      { unfold pending. by replace (N.to_nat _) with 0%nat by lia. }
      cbn [app]. rewrite applied_since_caught_up; [by eexists|]. cbn.
      destruct Hl as [->| ->]; [lia|]. rewrite compact_snapshot_index, decide_True; lia.
Qed.

Lemma driver_reach_ok d0 d : driver_ok d0 → driver_reach d0 d → driver_ok d.
Proof.
  intros H0' Hr. induction Hr as [|d ev _ IH Hev]; [done|].
  apply process_ready_ok. by apply handle_event_mid.
Qed.

Lemma start_ok entropy i ps c n (e : E) ids :
  RaftNode.new entropy i ps c = Some n → driver_ok (start n e ids).
Proof.
  intros Hn. pose proof (new_ok _ _ _ _ _ Hn) as Hok.
  assert (committed n = [] ∧ last_applied n = snapshot_index (log n)) as [Hc Ha].
  { unfold RaftNode.new in Hn. case_decide; [|done]. by simplify_eq. }
  split; cbn; try done. exists e. by rewrite applied_since_caught_up.
Qed.
End Invariant.

(** ** Properties *)
Section Turns.
Context `{Rng} {E : Type} `{StorageEngine E} `{Json WriteCommand}.
Context `{!HashIter N (list waiter)} (parse_error : bytes → string).
Implicit Types (d : Driver E) (ev : event).

(** [C24] Every write is answered once: whatever events a driver handles, the
    channels it has answered together with those still waiting are exactly the
    channels of the proposals it received, each once; and when the node does
    not lead at the end of a turn nobody is left waiting. *)
Theorem proposals_answered_once evs n (e : E) ids :
  let d := run parse_error evs (start n e ids) in
  account d ≡ₚ concat (asked <$> evs) ∧
  (role (node d) = Leader ∨ waiters d = ∅).
Proof.
  assert (account (run parse_error evs (start n e ids)) ≡ₚ concat (asked <$> evs)) as Ha.
  { induction evs as [|ev evs IH] using rev_ind; [done|].
    unfold run in *. rewrite foldl_app, fmap_app, concat_app. cbn [foldl].
    rewrite turn_account, IH. cbn. by rewrite app_nil_r. }
  split; [exact Ha|]. clear Ha. destruct evs as [|ev evs _] using rev_ind; [by right|].
  unfold run. rewrite foldl_app. cbn [foldl]. set (d := foldl _ _ evs).
  unfold turn.
  destruct (process_ready_spec parse_error (handle_event ev d)) as (-> & _ & _ & ->).
  unfold is_leader. case_bool_decide; [by left|by right].
Qed.

(** The gauges after every turn are the node's current term, leadership,
    commit index and last log index, and [elections_won_total] counts exactly
    the turns at whose end the node leads and at whose start it did not. *)
Theorem metrics_follow_node ev d :
  let d' := turn parse_error ev d in
  let m := metrics d' in
  Metrics.m_current_term m = current_term (node d') ∧
  Metrics.m_is_leader m = (if is_leader (node d') then 1%Z else 0%Z) ∧
  Metrics.m_commit_index m = commit_index (node d') ∧
  Metrics.m_log_len m = last_log_index (node d') ∧
  was_leader d' = is_leader (node d') ∧
  Metrics.elections_won_total m =
    (if is_leader (node d') && negb (was_leader d)
     then Metrics.incr (Metrics.elections_won_total (metrics d))
     else Metrics.elections_won_total (metrics d)).
Proof.
  cbv zeta. unfold turn.
  assert (was_leader (handle_event ev d) = was_leader d ∧
    Metrics.elections_won_total (metrics (handle_event ev d)) =
      Metrics.elections_won_total (metrics d)) as [<- <-].
  { destruct ev as [|from msg|[from msg|cmd w|w]]; try done.
    cbn. by destruct (propose (encode cmd) (node d)) as [n [i|l]]. }
  generalize (handle_event ev d). clear d. intros d. unfold process_ready.
  destruct (take_ready (node d)) as [n ready].
  set (d1 := foldl _ _ (ready_messages ready)).
  destruct (sends_frame (ready_messages ready) (set_node n d)) as (_ & _ & Hm1 & _ & Hwl1 & _).
  fold d1 in Hm1, Hwl1. cbn in Hm1, Hwl1. rewrite <-Hm1, <-Hwl1.
  set (d2 := foldl _ d1 _).
  destruct (applies_frame parse_error (ready_committed ready) d1) as (_ & Hm2 & Hwl2 & _).
  fold d2 in Hm2, Hwl2. rewrite <-Hm2, <-Hwl2. clearbody d2.
  destruct (fail_waiters_frame (update_metrics d2)) as (-> & -> & -> & _).
  unfold update_metrics. destruct (is_leader (node d2)) eqn:Hl, (was_leader d2); cbn;
    by rewrite ?Hl.
Qed.
End Turns.

Section Properties.
Context `{Rng} {E : Type} `{EngineLaws E} `{JsonLaws WriteCommand}.
Context `{!HashIter N (list waiter)} (parse_error : bytes → string).
Context (cmd_of : waiter → WriteCommand).
Implicit Types (d : Driver E) (ev : event) (n : RaftNode).

(** [C18] An acknowledgement is true while the node leads. Take a driver all of
    whose messages so far were legitimate ([message_ok]: an append that it accepts
    starts at or above its snapshot point and agrees with what it has committed,
    as the messages of a faithful run do), with a channel for each write. In a
    turn on such an event that leaves the node leader, every client answered [Committed] is one whose own command
    is among the entries delivered in that turn, and the store has them all
    applied. (The turn in which the node is deposed is the exception, see
    [lost_write_acknowledged].) *)
Theorem acknowledged_is_applied d0 d ev :
  driver_ok parse_error cmd_of d0 → driver_reach parse_error cmd_of d0 d → event_ok cmd_of d ev →
  role (node (handle_event ev d)) = Leader →
  let items := delivered_items (handle_event ev d) in
  ∃ new, replies (turn parse_error ev d) = replies d ++ new ∧
    storage (turn parse_error ev d) = foldl (store_item parse_error) (storage d) items ∧
    ∀ w, (w, OutCommitted) ∈ new → ∃ i, CommittedCommand i (encode (cmd_of w)) ∈ items.
Proof.
  intros H0' Hr Hev Hl items.
  pose proof (driver_reach_ok parse_error cmd_of d0 d H0' Hr) as Hok.
  pose proof (handle_event_mid parse_error cmd_of ev d Hok Hev) as Hmid.
  destruct (handle_event_replies ev d) as (new1 & Hr1 & Hnot).
  destruct (process_ready_replies parse_error (handle_event ev d) Hl) as (new2 & Hr2 & Hin).
  destruct (process_ready_spec parse_error (handle_event ev d)) as (_ & Hst & _ & _).
  exists (new1 ++ new2). unfold turn. split_and!.
  - by rewrite Hr2, Hr1, app_assoc.
  - by rewrite Hst, handle_event_storage.
  - intros w [Hw|Hw]%elem_of_app; [by destruct (Hnot w)|].
    destruct (Hin _ _ Hw) as (_ & i & cmd & ws & Hi & Hws & Hwin). exists i.
    destruct (mok_waiters _ _ _ Hmid Hl _ _ _ Hws Hwin) as (_ & e & He & Hc).
    fold items in Hi. assert (cmd = encode (cmd_of w)) as <-; [|done].
    destruct (drain_eq _ _ _ Hmid) as (l & _ & _ & Hit). subst items. rewrite Hit in Hi.
    apply elem_of_app in Hi as [Hi|Hi].
    + destruct (mok_queue _ _ _ Hmid) as [Hq|(data & Hq & Hf & _)]; [|congruence].
      rewrite Hq in Hi. by apply not_elem_of_nil in Hi.
    + apply elem_of_deliveries in Hi as (_ & _ & e' & He' & <-). congruence.
Qed.

(** Snapshot transfer converges: the data the driver puts into an outgoing
    [InstallSnapshot] is its whole current store, which may be newer than the
    snapshot index. A follower that restores it (whatever it held) and then
    applies the leader's entries between the snapshot point and its last
    applied index ends up with the leader's contents. *)
Theorem snapshot_transfer_converges d0 d m (follower : E) :
  driver_ok parse_error cmd_of d0 → driver_reach parse_error cmd_of d0 d →
  match fill_snapshot d (MInstallSnapshot m) with
  | MInstallSnapshot m' =>
      is_last_included_index m' = is_last_included_index m ∧
      same_contents
        (apply_all (applied_since parse_error (node d)) (restore follower (is_data m')))
        (storage d)
  | _ => False
  end.
Proof.
  intros H0' Hr. cbn. split; [done|].
  destruct (dok_store _ _ _ (driver_reach_ok parse_error cmd_of d0 d H0' Hr)) as [base Hb].
  assert (same_contents (restore follower (Storage.snapshot (storage d))) (storage d)) as ->.
  { by apply restore_snapshot. }
  rewrite Hb at 1. rewrite Hb. apply (replay_suffix base []).
Qed.

End Properties.

(** ** Concrete runs *)
Section Runs.
#[local] Existing Instance low_rng.
#[local] Existing Instance low_rng_laws.
#[local] Existing Instance canonical_iter.
#[local] Existing Instance DemoCodec.demo_json.
#[local] Existing Instance DemoCodec.demo_json_laws.

Definition no_error (b : bytes) : string := "".

Definition boot (i : NodeId) (ps : list NodeId) : Driver Memory.MemoryEngine :=
  start (mkNode i ps default_config low_state Follower None 0 None RaftLog.new 0 0
    progress_default ∅ 0 0 5 [] []) Memory.new ps.

Definition write_a : WriteCommand := Set_ "a" [x01].
Definition write_b : WriteCommand := Set_ "b" [x02].

(** ["n1"] wins term 1, takes a client's write at index 1, and before that
    write reaches anybody hears from the leader of term 2, which has committed
    another entry at index 1. *)
Definition deposed_run : list event :=
  replicate 5 EvTick ++
  [EvInbound "n2" (MRequestVoteReply (mkRequestVoteReply 1 "n2" true));
   EvRequest (DPropose write_a 7);
   EvInbound "n3" (MAppendEntries (mkAppendEntries 2 "n3" 0 0
     [mkEntry 2 (encode write_b)] 1))].

(** [C34] A lost write is acknowledged: when one message both deposes the leader
    and commits a different entry at the index a client waits for, the client
    is told its write is committed, though it was overwritten and never
    applied. *)
Theorem lost_write_acknowledged :
  let d := run no_error deposed_run (boot "n1" ["n2"; "n3"]) in
  replies d = [(7%nat, OutCommitted)] ∧
  Storage.get (storage d) "a" = None ∧ Storage.get (storage d) "b" = Some [x02] ∧
  get (log (node d)) 1 = Some (mkEntry 2 (encode write_b)).
Proof. vm_compute. by repeat split. Qed.

Lemma boot_ok cmd_of : driver_ok no_error cmd_of (boot "solo" []).
Proof.
  exact (start_ok no_error cmd_of low_state "solo" [] default_config _ Memory.new [] eq_refl).
Defined.

Definition solo_leader : Driver Memory.MemoryEngine :=
  run no_error (replicate 5 EvTick) (boot "solo" []).

Lemma solo_reach cmd_of : driver_reach no_error cmd_of (boot "solo" []) solo_leader.
Proof.
  unfold solo_leader, run. cbn [replicate foldl].
  repeat (apply dreach_turn; [|by split]). apply dreach_start.
Defined.

Lemma acknowledged_is_applied_witness :
  let ev := EvRequest (DPropose write_a 7) in
  ∃ new, replies (turn no_error ev solo_leader) = replies solo_leader ++ new ∧
    storage (turn no_error ev solo_leader) = foldl (store_item no_error) (storage solo_leader)
      (delivered_items (handle_event ev solo_leader)) ∧
    ∀ w, (w, OutCommitted) ∈ new →
      ∃ i, CommittedCommand i (encode write_a) ∈ delivered_items (handle_event ev solo_leader).
Proof.
  apply (acknowledged_is_applied no_error (λ _, write_a) (boot "solo" [])).
  - apply boot_ok.
  - apply solo_reach.
  - split; [vm_compute; reflexivity|reflexivity].
  - vm_compute. reflexivity.
Defined.

Lemma snapshot_transfer_converges_witness :
  let d := turn no_error (EvRequest (DPropose write_a 7)) solo_leader in
  Storage.get (apply_all (applied_since no_error (node d))
    (restore Memory.new (Storage.snapshot (storage d)))) "a" = Some [x01].
Proof.
  intros d.
  assert (driver_reach no_error (λ _, write_a) (boot "solo" []) d) as Hr.
  { apply dreach_turn; [apply solo_reach|]. split; [vm_compute; reflexivity|reflexivity]. }
  destruct (snapshot_transfer_converges no_error (λ _, write_a) (boot "solo" []) d
    (mkInstallSnapshot 1 "solo" 0 0 []) Memory.new (boot_ok _) Hr) as [_ Hs].
  etrans; [exact (Hs "a")|]. vm_compute. reflexivity.
Defined.
End Runs.
