(* ===== verification/Durability.v ===== *)
(** * Acknowledged writes are durable

    The driver's invariant holds at every server of a faithful cluster run:
    what it asks of messages follows from the safety invariant. Hence a write
    that a leading server acknowledges stays, at its index, in the log of every
    server that commits that index and of every later leader. *)

From S2P Require Import Prelude Storage Errors Apply RaftLog RaftState RaftNode NodeTheory NodeProps ElectionSpec Election Network LogMatching StepFacts Safety SafetyProof Agreement Server ServerTheory Cluster ServerProps.
Local Open Scope N_scope.

Section Durability.
Context `{Rng} {E : Type} `{EngineLaws E} `{JsonLaws WriteCommand}.
Context `{!HashIter N (list waiter)} (parse_error : bytes → string).
Context (cmd_of : waiter → WriteCommand).
Implicit Types (c : cluster E) (s : sys) (d : Driver E).

Abbreviation crun := (crun parse_error).
Abbreviation cstep := (cstep parse_error).

(** [cmd_of] names the command each channel was opened for. *)
Definition tagged (a : caction) : Prop :=
  match a with CPropose _ cmd w => cmd_of w = cmd | _ => True end.

(** The drivers keep their invariant and their nodes the network's. *)
Record serving (cl : gset NodeId) c s : Prop := {
  sv_simulated : simulated c s;
  sv_sound : ∃ T g, sound cl T g s;
  sv_drivers : ∀ i d, drivers c !! i = Some d → driver_ok parse_error cmd_of d;
}.

Lemma serving_event cl c s a i ev d :
  serving cl c s → tagged a → event_of c a = Some (i, ev) → drivers c !! i = Some d →
  permitted Faithful ev d → event_ok cmd_of d ev.
Proof.
  intros [Hsim (T & g & Hs) _] Htag Hev Hd [Hob _]. split.
  - destruct (event_action _ _ _ _ _ Hsim Hev) as [He|(na & o & He & Ho & _)];
      [by rewrite He|]. rewrite He in *. eapply (sound_op_ok _ _ _ _ na i); [done..| |exact Hob].
    rewrite (sm_nodes _ _ Hsim). unfold nodes_of. by rewrite lookup_fmap, Hd.
  - destruct a as [j|k|j cmd w|j w]; cbn in Hev; simplify_eq; try done.
    destruct (wire c !! k) as [p|]; by simplify_eq/=.
Qed.

Lemma cstep_inv disc c a c' :
  cstep disc c a = Some c' → ∃ i ev d, event_of c a = Some (i, ev) ∧ drivers c !! i = Some d ∧
    permitted disc ev d ∧ drivers c' = <[i := turn parse_error ev d]> (drivers c).
Proof.
  unfold Cluster.cstep. destruct (event_of c a) as [[i ev]|]; [|done]. cbn [mbind option_bind fst snd].
  destruct (drivers c !! i) as [d|] eqn:Hd; [|done]. cbn [mbind option_bind].
  case_decide; [|done]. intros [= <-]. by exists i, ev, d.
Qed.

Lemma cstep_serving cl c s a c' :
  serving cl c s → tagged a → cstep Faithful c a = Some c' →
  ∃ nacts s', Network.run Faithful nacts s = Some s' ∧ serving cl c' s'.
Proof.
  intros Hsv Htag Hst. pose proof Hsv as [Hsim (T & g & Hs) Hdrv].
  destruct (cstep_simulated _ _ _ _ _ _ Hsim Hst) as (nacts & s' & Hr & Hsim' & _).
  exists nacts, s'. split; [done|]. split; [done| |].
  - destruct (run_sound _ _ _ _ _ _ Hs Hr) as (T' & g' & _ & _ & ?). by exists T', g'.
  - destruct (cstep_inv _ _ _ _ Hst) as (i & ev & d & Hev & Hd & Hp & ->).
    intros j dj [[<- <-]|[_ Hj]]%lookup_insert_Some; [|by eapply Hdrv].
    apply process_ready_ok, handle_event_mid; [by eapply Hdrv|]. by eapply serving_event.
Qed.

Lemma crun_serving cl c s acts c' :
  serving cl c s → Forall tagged acts → crun Faithful acts c = Some c' →
  ∃ nacts s', Network.run Faithful nacts s = Some s' ∧ serving cl c' s'.
Proof.
  intros Hsv Htag. revert c s Hsv. induction Htag as [|a acts Ha _ IH]; intros c s Hsv Hr; cbn in Hr.
  { injection Hr as <-. by exists [], s. }
  destruct (cstep Faithful c a) as [c1|] eqn:Hst; [|done]. cbn in Hr.
  destruct (cstep_serving _ _ _ _ _ Hsv Ha Hst) as (n1 & s1 & Hr1 & Hsv1).
  destruct (IH _ _ Hsv1 Hr) as (n2 & s2 & Hr2 & Hsv2). exists (n1 ++ n2), s2.
  by rewrite (run_after _ _ _ _ _ Hr1).
Qed.

Lemma fresh_serving c e :
  fresh_servers c e → serving (dom (drivers c)) c (mkSys (nodes_of c) []).
Proof.
  intros (Hw & Hfresh & Hst). split.
  - split; [done|]. intros p. by rewrite Hw.
  - exists ∅, no_history. apply fresh_cluster_sound in Hfresh. cbn in Hfresh.
    unfold nodes_of in Hfresh. by rewrite dom_fmap_L in Hfresh.
  - intros i d Hd. destruct (Hst _ _ Hd) as [_ Hwt].
    destruct (proj2 Hfresh i (node d)) as (en & ps & cfg & Hnew & _).
    { cbn. unfold nodes_of. by rewrite lookup_fmap, Hd. }
    pose proof (new_ok _ _ _ _ _ Hnew) as Hok.
    assert (committed (node d) = [] ∧ last_applied (node d) = snapshot_index (log (node d)))
      as [Hc Ha].
    { unfold new in Hnew. case_decide; [|done]. by injection Hnew as <-. }
    split; [done|done|by intros _| |].
    + intros k ws w. by rewrite Hwt, lookup_empty.
    + exists (storage d). by rewrite applied_since_caught_up.
Qed.

(** A write acknowledged in a turn that leaves the node leading is committed,
    at some index of its log. *)
Lemma acknowledged_committed ev d :
  driver_ok parse_error cmd_of d → event_ok cmd_of d ev →
  role (node (handle_event ev d)) = Leader →
  let n := node (handle_event ev d) in
  ∃ new, replies (turn parse_error ev d) = replies d ++ new ∧
    ∀ w, (w, OutCommitted) ∈ new → ∃ k e, 0 < k ∧ k ≤ commit_index n ∧
      get (log n) k = Some e ∧ command e = encode (cmd_of w) ∧
      ∃ ws, waiters (handle_event ev d) !! k = Some ws ∧ w ∈ ws.
Proof.
  intros Hok Hev Hl n.
  pose proof (handle_event_mid parse_error cmd_of ev d Hok Hev) as Hmid.
  destruct (handle_event_replies ev d) as (new1 & Hr1 & Hnot).
  destruct (process_ready_replies parse_error (handle_event ev d) Hl) as (new2 & Hr2 & Hin).
  exists (new1 ++ new2). unfold Server.turn. split; [by rewrite Hr2, Hr1, app_assoc|].
  intros w [Hw|Hw]%elem_of_app; [by destruct (Hnot w)|].
  destruct (Hin _ _ Hw) as (_ & k & cmd & ws & Hi & Hws & Hwin).
  destruct (mok_waiters _ _ _ Hmid Hl _ _ _ Hws Hwin) as (Hla & e & He & Hc).
  exists k, e. fold n in Hla, He. split; [lia|]. split; [|by eauto].
  destruct (drain_eq _ _ _ Hmid) as (l & _ & _ & Hit). rewrite Hit in Hi.
  apply elem_of_app in Hi as [Hi|Hi].
  - destruct (mok_queue _ _ _ Hmid) as [Hq|(data & Hq & Hf & _)]; [|congruence].
    rewrite Hq in Hi. by apply not_elem_of_nil in Hi.
  - apply elem_of_deliveries in Hi as (Hr & _). fold n in Hr. lia.
Qed.

(** The entry is still there after the drain. *)
Lemma turn_keeps ev d :
  permitted Faithful ev d →
  let n := node (handle_event ev d) in let n' := node (turn parse_error ev d) in
  log n' = log n ∧ commit_index n' = commit_index n ∧ current_term n' = current_term n.
Proof.
  intros [_ (_ & Hq & _)] n n'. subst n n'. rewrite turn_node.
  change (log (take_ready (node (handle_event ev d))).1 = log (node (handle_event ev d))) in Hq.
  split; [exact Hq|].
  destruct (take_ready_shape (node (handle_event ev d))) as (la & l & Heq & _). rewrite Heq. done.
Qed.

Lemma crun_app disc acts1 acts2 c :
  crun disc (acts1 ++ acts2) c = crun disc acts1 c ≫= crun disc acts2.
Proof.
  revert c. induction acts1 as [|a acts1 IH]; intros c; cbn; [done|].
  destruct (cstep disc c a); [apply IH|done].
Qed.

Lemma in_log_commands (l : RaftLog) k b e cmd :
  get l k = Some e → command e = encode cmd → 0 < k → k ≤ b →
  cmd ∈ log_commands parse_error l 0 b.
Proof.
  intros Hg Hc Hk Hb. unfold log_commands, commands. apply list_elem_of_omap.
  exists (CommittedCommand k (encode cmd)). split.
  - apply elem_of_deliveries. split; [lia|]. split; [apply encode_nonempty|eauto].
  - unfold decode, encode. by rewrite from_to.
Qed.

(** [C8] Acknowledged writes are durable: take any faithful run of a cluster
    from fresh servers and a turn in it in which a server that leads tells a
    client that its write is committed. Then the write has an index at which,
    whatever happens later in the run, every server that has committed that
    index, and every leader of the same or a later term, has this very write;
    and every server that has applied that index has applied it: the store is
    the initial one after a list of commands that contains it. *)
Theorem acknowledged_write_durable e acts1 a acts2 c0 c1 c1' c2 i ev d :
  fresh_servers c0 e → Forall tagged (acts1 ++ a :: acts2) →
  crun Faithful acts1 c0 = Some c1 → event_of c1 a = Some (i, ev) → drivers c1 !! i = Some d →
  cstep Faithful c1 a = Some c1' → crun Faithful acts2 c1' = Some c2 →
  role (node (handle_event ev d)) = Leader →
  ∃ new, replies (turn parse_error ev d) = replies d ++ new ∧
    ∀ w, (w, OutCommitted) ∈ new → ∃ k, ∀ j dj, drivers c2 !! j = Some dj →
      (k ≤ commit_index (node dj) ∨ role (node dj) = Leader ∧
         current_term (node (turn parse_error ev d)) ≤ current_term (node dj) →
       ∃ t, get (log (node dj)) k = Some (mkEntry t (encode (cmd_of w)))) ∧
      (k ≤ last_applied (node dj) → ∃ cmds, cmd_of w ∈ cmds ∧ storage dj = apply_all cmds e).
Proof.
  intros Hf Htag Hr1 Hev Hd Hst Hr2 Hl. apply Forall_app in Htag as [Ht1 Hta].
  apply Forall_cons in Hta as [Hta Ht2].
  destruct (crun_serving _ _ _ _ _ (fresh_serving _ _ Hf) Ht1 Hr1) as (na1 & s1 & _ & Hsv1).
  destruct (cstep_serving _ _ _ _ _ Hsv1 Hta Hst) as (na & s1' & _ & Hsv1').
  destruct (crun_serving _ _ _ _ _ Hsv1' Ht2 Hr2) as (na2 & s2 & Hrun & Hsv2).
  destruct (cstep_inv _ _ _ _ Hst) as (i' & ev' & d' & Hev' & Hd' & Hp & Hc1').
  rewrite Hev in Hev'. injection Hev' as <- <-. rewrite Hd in Hd'. injection Hd' as <-.
  destruct (acknowledged_committed ev d) as (new & Hnew & Hack); [exact (sv_drivers _ _ _ Hsv1 _ _ Hd)| |done|].
  { by apply (serving_event _ _ _ _ _ _ _ Hsv1 Hta Hev Hd). }
  exists new. split; [done|]. intros w Hw. destruct (Hack w Hw) as (k & x & Hk & Hkc & Hx & Hcmd & _).
  destruct (turn_keeps ev d Hp) as (Hlog & Hcom & _). rewrite <-Hlog in Hx. rewrite <-Hcom in Hkc.
  assert (nodes s1' !! i = Some (node (turn parse_error ev d))) as Hi.
  { rewrite (sm_nodes _ _ (sv_simulated _ _ _ Hsv1')). unfold nodes_of.
    by rewrite lookup_fmap, Hc1', lookup_insert_eq. }
  destruct (sv_sound _ _ _ Hsv1') as (T & g & Hs).
  exists k. intros j dj Hj.
  assert (nodes s2 !! j = Some (node dj)) as Hnj.
  { rewrite (sm_nodes _ _ (sv_simulated _ _ _ Hsv2)). unfold nodes_of. by rewrite lookup_fmap, Hj. }
  assert (∀ y, get (log (node (turn parse_error ev d))) k = Some y ∧ get (log (node dj)) k = Some y →
    get (log (node dj)) k = Some x) as Hsame by (intros y [Hy Hy']; congruence).
  split.
  - intros Hwhere. destruct (sound_agree _ _ _ _ _ _ _ _ _ _ k Hs Hrun Hi Hnj Hk Hkc Hwhere)
      as (y & Hy). apply Hsame in Hy. exists (entry_term x). rewrite Hy, <-Hcmd. by destruct x.
  - intros Hka. pose proof (sv_drivers _ _ _ Hsv2 _ _ Hj) as Hdj.
    pose proof (ok_applied _ (dok_node _ _ _ Hdj)) as Hle.
    destruct (sound_agree _ _ _ _ _ _ _ _ _ _ k Hs Hrun Hi Hnj Hk Hkc) as (y & Hy); [left; lia|].
    apply Hsame in Hy.
    destruct (crun_stores parse_error e (acts1 ++ a :: acts2) c0 c2 Hf) as (s & T' & g' & cs & _ & _ & _ & Hstore).
    { rewrite crun_app, Hr1. cbn [mbind option_bind Cluster.crun]. by rewrite Hst. }
    eexists. split; [|by apply (Hstore j)]. by eapply in_log_commands.
Qed.
End Durability.

(** ** The first write of [write_run] *)
Section Example.
#[local] Existing Instance low_rng.
#[local] Existing Instance canonical_iter.
#[local] Existing Instance DemoCodec.demo_json.
#[local] Existing Instance DemoCodec.demo_json_laws.

Definition opened_for (w : waiter) : WriteCommand :=
  if decide (w = 7%nat) then Set_ "a" [x01] else Set_ "b" [x02].

(** Up to the turn of ["n1"] in which the reply of ["n2"] arrives. *)
Definition before_ack : list caction :=
  replicate 5 (CTick "n1") ++ [CDeliver 0; CDeliver 2; CPropose "n1" (Set_ "a" [x01]) 7; CDeliver 5].
Definition after_ack : list caction := [CPropose "n1" (Set_ "b" [x02]) 8; CDeliver 8].

(** Evaluating a turn of a run. *)
Lemma turned {A} (f : event → Driver Memory.MemoryEngine → A) acts a c i ev d x :
  crun plain_error Faithful acts three = Some c → event_of c a = Some (i, ev) →
  drivers c !! i = Some d →
  (c ← crun plain_error Faithful acts three; y ← event_of c a;
   d ← drivers c !! y.1; Some (f y.2 d)) = Some x → f ev d = x.
Proof. intros -> Hev Hd. cbn. rewrite Hev. cbn. rewrite Hd. cbn. by intros [= <-]. Qed.

(** The leader ["n1"] still has the write it acknowledged to channel [7]. *)
Lemma acknowledged_write_durable_witness :
  match crun plain_error Faithful before_ack three with
  | Some c1 =>
      match cstep plain_error Faithful c1 (CDeliver 7) with
      | Some c1' =>
          match crun plain_error Faithful after_ack c1' with
          | Some c2 => ∀ d1, drivers c2 !! "n1" = Some d1 →
              ∃ k t, get (log (node d1)) k = Some (mkEntry t (encode (Set_ "a" [x01])))
          | None => False
          end
      | None => False
      end
  | None => False
  end.
Proof.
  destruct (crun plain_error Faithful (before_ack ++ CDeliver 7 :: after_ack) three) as [c|] eqn:Hr;
    [|vm_compute in Hr; discriminate Hr].
  pose proof Hr as Hall. rewrite crun_app in Hr.
  destruct (crun plain_error Faithful before_ack three) as [c1|] eqn:Hr1; [|discriminate Hr].
  cbn [mbind option_bind Cluster.crun] in Hr.
  destruct (cstep plain_error Faithful c1 (CDeliver 7)) as [c1'|] eqn:Hst; [|discriminate Hr].
  cbn [mbind option_bind] in Hr. rewrite Hr. intros d1 Hd1.
  destruct (cstep_inv _ _ _ _ _ Hst) as (i & ev & d & Hev & Hd & _).
  assert (∀ {A} (f : event → Driver Memory.MemoryEngine → A) x, _ → f ev d = x) as Hread
    by (intros A f x; exact (turned f _ _ _ _ _ _ x Hr1 Hev Hd)).
  assert (bool_decide (role (node (handle_event ev d)) = Leader) = true) as Hlead.
  { apply (Hread _ (λ ev d, bool_decide (role (node (handle_event ev d)) = Leader))).
    vm_compute. reflexivity. }
  assert (replies d = []) as Hrep by (apply (Hread _ (λ _, replies)); vm_compute; reflexivity).
  assert (replies (turn plain_error ev d) = [(7%nat, OutCommitted)]) as Hrep'.
  { apply (Hread _ (λ ev d, replies (turn plain_error ev d))). vm_compute. reflexivity. }
  assert (current_term (node (turn plain_error ev d)) = 1) as Hterm.
  { apply (Hread _ (λ ev d, current_term (node (turn plain_error ev d)))).
    vm_compute. reflexivity. }
  assert (role (node d1) = Leader ∧ current_term (node d1) = 1) as [Hl1 Ht1].
  { split; [apply (watched (role ∘ node) _ _ _ _ _ _ _ Hall Hd1)
           |apply (watched (current_term ∘ node) _ _ _ _ _ _ _ Hall Hd1)];
      vm_compute; reflexivity. }
  destruct (acknowledged_write_durable plain_error opened_for Memory.new before_ack (CDeliver 7)
    after_ack three c1 c1' c i ev d) as (new & Hnew & Hw);
    [exact three_fresh|repeat constructor|exact Hr1|exact Hev|exact Hd|exact Hst|exact Hr
    |by apply (bool_decide_unpack _); rewrite Hlead|].
  rewrite Hrep', Hrep in Hnew. cbn [app] in Hnew.
  destruct (Hw 7%nat) as (k & Hk); [rewrite <-Hnew; left|].
  exists k. apply (Hk "n1" d1 Hd1). right. split; [exact Hl1|]. rewrite Hterm, Ht1. reflexivity.
Defined.
End Example.
