(* ===== verification/Linearization.v ===== *)
(** * One order of the clients' writes

    Every entry of every log comes from exactly one write of a client. The
    ledger of a run records, for each write a leading server took, the term and
    the index it got; from it and the agreement of the nodes follows that the
    writes of a faithful run are linearizable. *)

From S2P Require Import Prelude Storage Errors Apply RaftLog RaftState RaftNode NodeTheory NodeProps ElectionSpec Election Network LogMatching StepFacts Safety SafetyProof Agreement Server ServerTheory Cluster ServerProps Durability.
Local Open Scope N_scope.

(** ** The ledger *)
Section Ledger.
Context `{JsonLaws WriteCommand} (cmd_of : waiter → WriteCommand).
Implicit Types (T : chronicle) (L : list LogEntry) (tk : gmap waiter (N * nat)) (os : list waiter).

(** [tk !! w = Some (t, k)]: the leader of term [t] put the write of [w] at
    index [k] of its log. Every chronicled entry has its write and every write
    its entry; no two writes share one; [os] are the channels opened so far. *)
Record ledger os T tk : Prop := {
  lg_entries : ∀ t L k e, T !! t = Some L → L !! k = Some e →
    ∃ w, tk !! w = Some (entry_term e, S k) ∧ command e = encode (cmd_of w);
  lg_held : ∀ w t k, tk !! w = Some (t, k) → (0 < k)%nat ∧
    ∃ L e, T !! t = Some L ∧ L !! (k - 1)%nat = Some e ∧ entry_term e = t;
  lg_once : ∀ w w' x, tk !! w = Some x → tk !! w' = Some x → w = w';
  lg_opened : ∀ w, is_Some (tk !! w) → w ∈ os;
}.

Lemma ledger_fresh : ledger [] ∅ ∅.
Proof. split; by setoid_rewrite lookup_empty || intros w [x Hx%lookup_empty_Some]. Qed.

Lemma ledger_more os os' T tk : ledger os T tk → ledger (os ++ os') T tk.
Proof. intros [? ? ? Ho]. split; try done. intros w Hw. apply elem_of_app. left. by apply Ho. Qed.

(** The entries of a chronicled log are the chronicle's. *)
Lemma chronicled_entry T L k e :
  chronicled T L → L !! k = Some e → ∃ L', T !! entry_term e = Some L' ∧ L' !! k = Some e.
Proof.
  intros HL Hk. destruct (HL _ _ Hk) as (L' & HT & Heq). exists L'. split; [done|].
  rewrite <-Hk. symmetry. eapply take_eq_lookup; [exact Heq|lia].
Qed.

Lemma ledger_entry os T tk L k e :
  ledger os T tk → chronicled T L → L !! k = Some e →
  ∃ w, tk !! w = Some (entry_term e, S k) ∧ command e = encode (cmd_of w).
Proof.
  intros Hl HL Hk. destruct (chronicled_entry _ _ _ _ HL Hk) as (L' & HT & Hk').
  by eapply lg_entries.
Qed.

Lemma grows_held T T' t L k e :
  grows T T' → T !! t = Some L → L !! k = Some e → ∃ L', T' !! t = Some L' ∧ L' !! k = Some e.
Proof.
  intros Hg HT Hk. destruct (Hg _ _ HT) as (L' & HT' & Hp). exists L'. split; [done|].
  by eapply prefix_lookup_Some.
Qed.

(** A leader whose log is chronicled already adds nothing. *)
Lemma ledger_record `{Rng} os T tk (n' : RaftNode) :
  ledger os T tk → grows T (record T n') →
  (role n' = Leader → chronicled T (entries (log n'))) →
  ledger os (record T n') tk.
Proof.
  intros Hl Hg Hc. split; [|..|by apply (lg_once _ _ _ Hl)|by apply (lg_opened _ _ _ Hl)].
  - intros t L k e [HT|(Hr & _ & ->)]%record_Some Hk; [by eapply lg_entries|].
    eapply ledger_entry; [done|by apply Hc|done].
  - intros w t k Hw. destruct (lg_held _ _ _ Hl _ _ _ Hw) as (Hk & L & e & HT & He & Het).
    split; [done|]. destruct (grows_held _ _ _ _ _ _ Hg HT He) as (L' & ? & ?). by exists L', e.
Qed.

(** A write taken by the leader of term [t]. *)
Lemma ledger_propose os T tk t L e w :
  ledger os T tk → T !! t = Some L → w ∉ os → entry_term e = t → command e = encode (cmd_of w) →
  ledger (os ++ [w]) (<[t := L ++ [e]]> T) (<[w := (t, S (length L))]> tk).
Proof.
  intros Hl HT Hw Het Hce.
  assert (∀ w' x, tk !! w' = Some x → w' ≠ w) as Hfresh.
  { intros w' x Hx ->. apply Hw, (lg_opened _ _ _ Hl). by eexists. }
  assert (∀ w', tk !! w' ≠ Some (t, S (length L))) as Hfree.
  { intros w' Hw'. destruct (lg_held _ _ _ Hl _ _ _ Hw') as (_ & L' & e' & HT' & He' & _).
    rewrite HT in HT'. injection HT' as <-. apply lookup_lt_Some in He'. lia. }
  split.
  - intros t' L' k e' HT' Hk. apply lookup_insert_Some in HT' as [[<- <-]|[Hne HT']].
    + apply lookup_app_Some in Hk as [Hk|[Hlen Hk]].
      * destruct (lg_entries _ _ _ Hl _ _ _ _ HT Hk) as (w' & Hw' & ?). exists w'.
        rewrite lookup_insert_ne by (symmetry; by eapply Hfresh). done.
      * apply list_lookup_singleton_Some in Hk as [Hk <-].
        assert (k = length L) as -> by lia. exists w. rewrite lookup_insert_eq, Het. done.
    + destruct (lg_entries _ _ _ Hl _ _ _ _ HT' Hk) as (w' & Hw' & ?). exists w'.
      rewrite lookup_insert_ne by (symmetry; by eapply Hfresh). done.
  - intros w' t' k [[<- [= <- <-]]|[_ Hw']]%lookup_insert_Some.
    + split; [lia|]. exists (L ++ [e]), e. rewrite lookup_insert_eq.
      rewrite lookup_app_r by lia. by replace (S (length L) - 1 - length L)%nat with 0%nat by lia.
    + destruct (lg_held _ _ _ Hl _ _ _ Hw') as (Hk & L' & e' & HT' & He' & Hte). split; [done|].
      destruct (decide (t' = t)) as [->|Hne].
      * rewrite HT in HT'. injection HT' as <-. exists (L ++ [e]), e'. rewrite lookup_insert_eq.
        split; [done|]. split; [by apply lookup_app_l_Some|done].
      * exists L', e'. by rewrite lookup_insert_ne.
  - intros w1 w2 x [[<- <-]|[_ H1]]%lookup_insert_Some [[<- Heq]|[_ H2]]%lookup_insert_Some; try done.
    + by destruct (Hfree w2).
    + subst x. by destruct (Hfree w1).
    + by eapply lg_once.
  - intros w' [x Hx]. apply elem_of_app. apply lookup_insert_Some in Hx as [[<- _]|[_ Hx]]; [right|left].
    + by left.
    + apply (lg_opened _ _ _ Hl). by exists x.
Qed.
End Ledger.

(** ** The ledger of a cluster's run *)
Section Book.
Context `{Rng} {E : Type} `{EngineLaws E} `{JsonLaws WriteCommand}.
Context `{!HashIter N (list waiter)} (parse_error : bytes → string).
Context (cmd_of : waiter → WriteCommand).
Implicit Types (c : cluster E) (s : sys) (d : Driver E) (T : chronicle) (g : history).
Implicit Types (tk : gmap waiter (N * nat)) (os : list waiter).

Abbreviation turn := (turn parse_error).
Abbreviation crun := (crun parse_error).
Abbreviation cstep := (cstep parse_error).
Abbreviation tagged := (tagged cmd_of).

(** The channels a step or a run opens. *)
Definition opens (a : caction) : list waiter :=
  match a with CPropose _ _ w => [w] | _ => [] end.

Definition opened (acts : list caction) : list waiter := acts ≫= opens.

(** A proposal that reaches a leader is put in the ledger. *)
Definition takes c (a : caction) tk : gmap waiter (N * nat) :=
  match a with
  | CPropose i _ w =>
      match drivers c !! i with
      | Some d =>
          if decide (role (node d) = Leader)
          then <[w := (current_term (node d), S (length (entries (log (node d)))))]> tk else tk
      | None => tk
      end
  | _ => tk
  end.

Record book (cl : gset NodeId) os c s T g tk : Prop := {
  bk_simulated : simulated c s;
  bk_sound : sound cl T g s;
  bk_drivers : ∀ i d, drivers c !! i = Some d → driver_ok parse_error cmd_of d;
  bk_ledger : ledger cmd_of os T tk;
  bk_waiters : ∀ i d k ws w, drivers c !! i = Some d → waiters d !! k = Some ws → w ∈ ws →
    tk !! w = Some (current_term (node d), N.to_nat k);
}.

Lemma book_node cl os c s T g tk i d :
  book cl os c s T g tk → drivers c !! i = Some d → nodes s !! i = Some (node d).
Proof.
  intros Hb Hd. rewrite (sm_nodes _ _ (bk_simulated _ _ _ _ _ _ _ Hb)).
  unfold nodes_of. by rewrite lookup_fmap, Hd.
Qed.

Lemma book_serving cl os c s T g tk :
  book cl os c s T g tk → serving parse_error cmd_of cl c s.
Proof. intros [? ? ? _ _]. split; [done|by exists T, g|done]. Qed.

(** A leader's proposal, exactly. *)
Lemma propose_log (n : RaftNode) cmd :
  role n = Leader →
  role (propose cmd n).1 = Leader ∧ current_term (propose cmd n).1 = current_term n ∧
  entries (log (propose cmd n).1) = entries (log n) ++ [mkEntry (current_term n) cmd].
Proof.
  intros Hl. unfold propose. rewrite decide_False by naive_solver. cbn [append fst].
  by rewrite advance_commit_eq, broadcast_append_eq.
Qed.

(** The ledger after the event of a turn. *)
Lemma event_ledger cl os c s T g tk a i ev d :
  book cl os c s T g tk → tagged a → (∀ w, w ∈ opens a → w ∉ os) →
  event_of c a = Some (i, ev) → drivers c !! i = Some d → permitted Faithful ev d →
  let n1 := node (handle_event ev d) in
  grows T (record T n1) → ledger cmd_of (os ++ opens a) (record T n1) (takes c a tk).
Proof.
  intros Hb Htag Hfresh Hev Hd [Hob _] n1 Hg. pose proof (book_node _ _ _ _ _ _ _ _ _ Hb Hd) as Hi.
  pose proof (bk_ledger _ _ _ _ _ _ _ Hb) as Hlg.
  destruct (bk_sound _ _ _ _ _ _ _ Hb) as (B & _ & Hch & _).
  subst n1. rewrite handle_event_node in *.
  assert (chronicled T (entries (log (node d)))) as Hc by apply (co_node _ _ _ _ Hch _ _ Hi).
  assert ((∃ cmd w, a = CPropose i cmd w ∧ role (node d) = Leader) ∨
    ¬ ∃ cmd w, a = CPropose i cmd w ∧ role (node d) = Leader) as [(cmd & w & -> & Hl)|Hno].
  { destruct a as [j|k|j cmd w|j w]; try (right; naive_solver).
    cbn in Hev. injection Hev as -> _. destruct (decide (role (node d) = Leader)); naive_solver. }
  - cbn in Hev. injection Hev as <-. cbn in Htag. cbn [takes opens]. rewrite Hd, decide_True by done.
    unfold exec_event. cbn [event_op exec].
    destruct (propose_log (node d) (encode cmd) Hl) as (Hl' & Ht & Hes).
    unfold record. rewrite decide_True, Ht, Hes by done.
    apply ledger_propose; [done|by eapply co_leader|apply Hfresh; left|done|by rewrite Htag].
  - assert (takes c a tk = tk) as ->.
    { destruct a as [j|k|j cmd w|j w]; try done. cbn in Hev. injection Hev as -> _. cbn.
      rewrite Hd. rewrite decide_False; [done|]. intros Hl. apply Hno. by exists cmd, w. }
    apply ledger_more, ledger_record; [done|done|]. intros Hl'. unfold exec_event in *.
    destruct (event_op ev) as [o|] eqn:Ho; [|done]. destruct Hob as (_ & Hq & _).
    destruct (exec_log (node d) o Hq) as [-> |cmd -> Hl _ _ _|from m _ Hf _ _ _]; [done| |congruence].
    destruct Hno. destruct a as [j|k|j cmd' w|j w]; cbn in Hev; try by simplify_eq.
    + destruct (wire c !! k); by simplify_eq/=.
    + simplify_eq. by exists cmd', w.
Qed.

(** The event of a turn on the network. *)
Lemma event_sound cl T g c s a i ev d :
  simulated c s → sound cl T g s → event_of c a = Some (i, ev) → drivers c !! i = Some d →
  permitted Faithful ev d →
  let n1 := node (handle_event ev d) in
  ∃ nacts s1 g1, Network.run Faithful nacts s = Some s1 ∧ nodes s1 = <[i := n1]> (nodes_of c) ∧
    net s1 = net s ∧ grows T (record T n1) ∧ extends g g1 ∧ sound cl (record T n1) g1 s1.
Proof.
  intros Hsim Hs Hev Hd [Hob _] n1. pose proof (sm_nodes _ _ Hsim) as Hns.
  assert (nodes s !! i = Some (node d)) as Hi by (by rewrite Hns; unfold nodes_of; rewrite lookup_fmap, Hd).
  subst n1. rewrite handle_event_node. unfold exec_event.
  destruct (event_action _ _ _ _ _ Hsim Hev) as [He|(na & o & He & Ho & Hsent & _)]; rewrite He in *.
  - exists [], s, g. assert (record T (node d) = T) as ->.
    { unfold record. case_decide; [|done]. apply insert_id.
      destruct Hs as (B & _ & Hch & _). by eapply co_leader. }
    split; [done|]. split; [|by split; [|split; [apply grows_refl|split; [by split_and!|]]]].
    rewrite Hns. symmetry. apply insert_id. by rewrite <-Hns.
  - destruct (op_sound _ _ _ _ _ _ _ _ Hs Ho Hi Hob) as (g1 & Hg & Hext & Hs1 & _).
    rewrite Hsent, app_nil_r in Hs1. exists [na], (mkSys (<[i := exec o (node d)]> (nodes s)) (net s)), g1.
    split; [|split; [by rewrite <-Hns|done]]. cbn. unfold act. rewrite Ho. cbn. rewrite Hi. cbn.
    rewrite decide_True by done. cbn. by rewrite Hsent, app_nil_r.
Qed.

(** The drain that follows it. *)
Lemma drain_sound cl os T g tk s1 i n1 data s2 :
  let drain := ADrain i data in
  sound cl T g s1 → nodes s1 !! i = Some n1 → Network.run Faithful [drain] s1 = Some s2 →
  ledger cmd_of os T tk →
  ∃ T2 g2, grows T T2 ∧ extends g g2 ∧ sound cl T2 g2 s2 ∧ ledger cmd_of os T2 tk.
Proof.
  intros drain Hs Hi Hr Hl. cbn [Network.run] in Hr.
  destruct (act Faithful s1 drain) as [s'|] eqn:Ha; [|done]. injection Hr as <-.
  destruct (act_inv _ _ _ _ Ha) as (j & o & n & Hop & Hn & Hob & ->).
  assert (Some (j, o) = Some (i, OpTakeReady)) as [= -> ->] by (by rewrite <-Hop).
  rewrite Hi in Hn. injection Hn as <-.
  destruct (op_sound _ _ _ _ _ _ _ _ Hs Hop Hi Hob) as (g2 & Hg & Hext & Hs2 & _).
  exists (record T (exec OpTakeReady n1)), g2.
  split; [done|]. split; [done|]. split; [done|].
  apply ledger_record; [done|done|]. intros _. destruct Hob as (_ & Hq & _). cbn [quiet] in Hq.
  destruct (sound_plain _ _ _ _ _ _ Hs Hi) as (_ & _ & _ & Hc).
  by rewrite Hq.
Qed.

(** A leading server's waiters have their tickets. *)
Lemma event_waiters cl os c s T g tk a i ev d k ws w :
  book cl os c s T g tk → (∀ w, w ∈ opens a → w ∉ os) →
  event_of c a = Some (i, ev) → drivers c !! i = Some d → permitted Faithful ev d →
  role (node (handle_event ev d)) = Leader →
  waiters (handle_event ev d) !! k = Some ws → w ∈ ws →
  takes c a tk !! w = Some (current_term (node (handle_event ev d)), N.to_nat k).
Proof.
  intros Hb Hfresh Hev Hd [Hob _] Hl Hk Hw.
  rewrite handle_event_node in *. unfold exec_event in *.
  assert (∀ ws, waiters d !! k = Some ws → w ∈ ws → role (node d) = Leader ∧
    tk !! w = Some (current_term (node d), N.to_nat k)) as Hold.
  { intros ws0 Hk0 Hw0. split; [|by eapply bk_waiters].
    destruct (decide (role (node d) = Leader)) as [|Hn]; [done|].
    by rewrite (dok_follower _ _ _ (bk_drivers _ _ _ _ _ _ _ Hb _ _ Hd) Hn) in Hk0. }
  assert (waiters (handle_event ev d) = waiters d ∧ takes c a tk = tk ∨
    ∃ cmd w', a = CPropose i cmd w' ∧ ev = EvRequest (DPropose cmd w')) as [[Hws Htk]|Hp].
  { destruct a as [j|k'|j cmd w'|j w']; cbn in Hev; simplify_eq; [by left| |right; eauto|by left].
    destruct (wire c !! k'); simplify_eq/=; by left. }
  - rewrite Hws in Hk. rewrite Htk. destruct (Hold _ Hk Hw) as [Hr ->]. f_equal. f_equal.
    destruct (event_op ev) as [o|]; [|done]. symmetry. by apply exec_leader_term.
  - destruct Hp as (cmd & w' & -> & ->). cbn [event_op exec takes opens] in *. rewrite Hd.
    destruct (decide (role (node d) = Leader)) as [Hr|Hr].
    2: { unfold propose in Hl. by rewrite decide_True in Hl. }
    pose proof (book_node _ _ _ _ _ _ _ _ _ Hb Hd) as Hi.
    destruct (sound_plain _ _ _ _ _ _ (bk_sound _ _ _ _ _ _ _ Hb) Hi) as (Hs0 & _ & Hlen & _).
    destruct Hob as (_ & Hq & _). cbn [quiet] in Hq.
    pose proof (dok_node _ _ _ (bk_drivers _ _ _ _ _ _ _ Hb _ _ Hd)) as Hnok.
    destruct (propose_leader (node d) (encode cmd) (ok_log _ Hnok) Hq Hr) as (Hres & _).
    destruct (propose_log (node d) (encode cmd) Hr) as (_ & Ht & _).
    cbn [handle_event handle_request] in Hk. rewrite Ht.
    destruct (propose (encode cmd) (node d)) as [n1 r]. cbn [fst snd] in *. subst r.
    cbn [set_waiters set_node waiters] in Hk. rewrite lookup_insert in Hk.
    assert (N.to_nat (last_index (log (node d)) + 1) = S (length (entries (log (node d))))) as Hix.
    { rewrite last_index_eq by apply Hnok. unfold len64. lia. }
    assert (w ≠ w' → tk !! w = Some (current_term (node d), N.to_nat k) →
      <[w' := (current_term (node d), S (length (entries (log (node d)))))]> tk !! w =
      Some (current_term (node d), N.to_nat k)) as Hkeep by (intros; by rewrite lookup_insert_ne).
    assert (∀ x, tk !! w = Some x → w ≠ w') as Hne.
    { intros x Hx ->. apply (Hfresh w'); [left|].
      eapply lg_opened; [apply (bk_ledger _ _ _ _ _ _ _ Hb)|by eexists]. }
    case_decide as Hkk; [|destruct (Hold _ Hk Hw) as [_ Htk]; eauto]. subst k. injection Hk as <-.
    apply elem_of_app in Hw as [Hw|Hw].
    + destruct (waiters d !! _) as [ws0|] eqn:Hk0; [|by apply not_elem_of_nil in Hw].
      destruct (Hold _ eq_refl Hw) as [_ Htk]; eauto.
    + apply list_elem_of_singleton in Hw as ->. by rewrite lookup_insert_eq, Hix.
Qed.

(** ** A turn, and the rest of a run *)

(** Who waits after a turn waited in it, at a leader. *)
Lemma turn_waiters ev d k ws :
  waiters (turn ev d) !! k = Some ws →
  role (node (handle_event ev d)) = Leader ∧ waiters (handle_event ev d) !! k = Some ws.
Proof.
  unfold Server.turn. generalize (handle_event ev d). clear d. intros d.
  destruct (process_ready_spec parse_error d) as (_ & _ & _ & ->).
  destruct (take_ready_shape (node d)) as (la & l & -> & _).
  generalize (ready_committed (take_ready (node d)).2). intros items. unfold is_leader.
  case_bool_decide as Hl; [|by rewrite lookup_empty]. intros Hk.
  split; [exact Hl|]. by apply resolved_lookup in Hk as [? _].
Qed.

(** A turn applies what is committed, and no less than before. *)
Lemma turn_applies ev d :
  driver_ok parse_error cmd_of d → event_ok cmd_of d ev → permitted Faithful ev d →
  last_applied (node (turn ev d)) = commit_index (node (handle_event ev d)) ∧
  last_applied (node d) ≤ last_applied (node (turn ev d)).
Proof.
  intros Hok Hev [Hob _]. pose proof (handle_event_mid parse_error cmd_of ev d Hok Hev) as Hmid.
  assert (last_applied (node d) = last_applied (node (handle_event ev d))) as ->.
  { rewrite handle_event_node. unfold exec_event.
    destruct (event_op ev) as [o|] eqn:Ho; [|done]. destruct Hob as (_ & Hq & _).
    destruct (exec_unapplied (node d) o Hq) as [-> _]; [|done].
    by eapply event_op_drain. }
  rewrite turn_node. destruct (drain_eq _ _ _ Hmid) as (l & Hn & _ & _).
  pose proof (ok_applied _ (mok_node _ _ _ Hmid)) as Hle. revert Hn Hle.
  generalize (take_ready (node (handle_event ev d))).1 (node (handle_event ev d)).
  by intros ? n -> Hle.
Qed.

(** What a turn hands to the store: the entries between the old and the new
    applied index; the commands before them stay. *)
Lemma turn_commands ev d :
  driver_ok parse_error cmd_of d → event_ok cmd_of d ev → permitted Faithful ev d →
  let n := node d in let n' := node (turn ev d) in
  (∀ k, k ≤ last_applied n → log_commands parse_error (log n') 0 k = log_commands parse_error (log n) 0 k) ∧
  ready_committed (take_ready (node (handle_event ev d))).2 =
    deliveries (log n') (last_applied n) (N.to_nat (last_applied n' - last_applied n)).
Proof.
  intros Hok Hev Hp n n'. destruct (turn_applies ev d Hok Hev Hp) as [Hla Hle].
  destruct (turn_keeps parse_error ev d Hp) as (Hlog & _). subst n n'.
  pose proof (handle_event_mid parse_error cmd_of ev d Hok Hev) as Hmid.
  destruct (drain_eq _ _ _ Hmid) as (_ & _ & _ & Hit). unfold delivered_items in Hit.
  assert (applied_view (node (handle_event ev d)) = applied_view (node d) ∧
    ∀ i, i ≤ commit_index (node d) → get (log (node (handle_event ev d))) i = get (log (node d)) i)
    as [Hv Hg].
  { rewrite handle_event_node.
    destruct (exec_event_applied parse_error cmd_of ev d Hok Hev) as [?|(data & _ & _ & _ & Hc)]; [done|].
    exfalso. destruct Hp as [Hob _]. unfold exec_event in Hc.
    destruct (event_op ev) as [o|] eqn:Ho; [|by rewrite (dok_queue _ _ _ Hok) in Hc].
    destruct Hob as (_ & Hq & _). destruct (exec_unapplied (node d) o Hq) as [_ Hce].
    { by eapply event_op_drain. }
    rewrite Hce, (dok_queue _ _ _ Hok) in Hc. done. }
  injection Hv as Ha _ Hc. rewrite Hlog. split.
  - intros k Hk. unfold log_commands. f_equal. apply deliveries_ext. intros j Hj. apply Hg.
    pose proof (ok_applied _ (dok_node _ _ _ Hok)). lia.
  - rewrite Hit, Hc, (dok_queue _ _ _ Hok). cbn [app]. unfold pending. by rewrite Ha, Hla.
Qed.

(** From one moment of a run to a later one. *)
Record onward c s tk c' s' tk' : Prop := {
  on_run : ∃ nacts, Network.run Faithful nacts s = Some s';
  on_tickets : tk ⊆ tk';
  on_applied : ∀ i d, drivers c !! i = Some d →
    ∃ d', drivers c' !! i = Some d' ∧ last_applied (node d) ≤ last_applied (node d');
}.

Lemma onward_refl c s tk : onward c s tk c s tk.
Proof. split; [by exists []|done|]. intros i d Hd. by exists d. Qed.

Lemma onward_trans c1 s1 tk1 c2 s2 tk2 c3 s3 tk3 :
  onward c1 s1 tk1 c2 s2 tk2 → onward c2 s2 tk2 c3 s3 tk3 → onward c1 s1 tk1 c3 s3 tk3.
Proof.
  intros [[n1 Hn1] Ht1 Ha1] [[n2 Hn2] Ht2 Ha2]. split.
  - exists (n1 ++ n2). by rewrite (run_after _ _ _ _ _ Hn1).
  - by etrans.
  - intros i d Hd. destruct (Ha1 _ _ Hd) as (d1 & Hd1 & ?). destruct (Ha2 _ _ Hd1) as (d2 & ? & ?).
    exists d2. split; [done|]. by etrans.
Qed.

Lemma takes_more cl os c s T g tk a :
  book cl os c s T g tk → (∀ w, w ∈ opens a → w ∉ os) → tk ⊆ takes c a tk.
Proof.
  intros Hb Hfresh. destruct a as [j|k|j cmd w|j w]; cbn [takes opens] in *; try done.
  destruct (drivers c !! j) as [d|]; [|done]. case_decide; [|done].
  apply insert_subseteq. apply eq_None_not_Some. intros Hw. apply (Hfresh w); [left|].
  by eapply lg_opened; [apply (bk_ledger _ _ _ _ _ _ _ Hb)|].
Qed.

Lemma cstep_book cl os c s T g tk a c' :
  book cl os c s T g tk → tagged a → (∀ w, w ∈ opens a → w ∉ os) → cstep Faithful c a = Some c' →
  ∃ s' T' g', book cl (os ++ opens a) c' s' T' g' (takes c a tk) ∧
    onward c s tk c' s' (takes c a tk).
Proof.
  intros Hb Htag Hfresh Hst. pose proof Hst as Hst'. unfold Cluster.cstep in Hst'.
  destruct (event_of c a) as [[i ev]|] eqn:Hev; [|done]. cbn [mbind option_bind fst snd] in Hst'.
  destruct (drivers c !! i) as [d|] eqn:Hd; [|done]. cbn [mbind option_bind] in Hst'.
  case_decide as Hp; [|done]. injection Hst' as <-.
  pose proof Hb as [Hsim Hs Hdrv Hlg Hws].
  pose proof (takes_more _ _ _ _ _ _ _ _ Hb Hfresh) as Hmore.
  pose proof (serving_event _ _ _ _ _ _ _ _ _ (book_serving _ _ _ _ _ _ _ Hb) Htag Hev Hd Hp) as Hevok.
  destruct (event_sound _ _ _ _ _ _ _ _ _ Hsim Hs Hev Hd Hp)
    as (n1 & s1 & g1 & Hr1 & Hns1 & Hnet1 & Hg1 & _ & Hs1).
  pose proof (event_ledger _ _ _ _ _ _ _ _ _ _ _ Hb Htag Hfresh Hev Hd Hp Hg1) as Hlg1.
  destruct (drain_simulated parse_error Faithful c s1 i d (node (handle_event ev d)) (turn ev d)
    (posted i d (turn ev d)) (Some (Storage.snapshot (storage d))) Hns1
    ltac:(rewrite Hnet1; apply Hsim) Hd (proj2 Hp) (turn_node parse_error ev d)
    (turn_storage parse_error ev d) (posted_sent parse_error i ev d))
    as (s2 & Hr2 & Hsim2 & _).
  destruct (drain_sound _ _ _ _ _ _ _ (node (handle_event ev d)) _ _ Hs1
    ltac:(rewrite Hns1; apply lookup_insert_eq) Hr2 Hlg1) as (T2 & g2 & _ & _ & Hs2 & Hlg2).
  exists s2, T2, g2. split; [split|split].
  - exact Hsim2.
  - exact Hs2.
  - intros j dj. cbn [drivers]. intros [[<- <-]|[_ Hj]]%lookup_insert_Some; [|by eapply Hdrv].
    apply process_ready_ok, handle_event_mid; [by eapply Hdrv|done].
  - exact Hlg2.
  - intros j dj k ws w. cbn [drivers].
    intros [[<- <-]|[_ Hj]]%lookup_insert_Some Hk Hw.
    + apply turn_waiters in Hk as [Hl Hk]. destruct (turn_keeps parse_error ev d Hp) as (_ & _ & ->).
      by eapply event_waiters.
    + eapply lookup_weaken; [|exact Hmore]. by eapply Hws.
  - exists (n1 ++ [ADrain i (Some (Storage.snapshot (storage d)))]).
    by rewrite (run_after _ _ _ _ _ Hr1).
  - exact Hmore.
  - intros j dj Hj. cbn [drivers]. destruct (decide (i = j)) as [->|Hne].
    + rewrite Hd in Hj. injection Hj as <-. eexists. rewrite lookup_insert_eq. split; [done|].
      apply turn_applies; [by eapply Hdrv|done..].
    + exists dj. by rewrite lookup_insert_ne.
Qed.

(** What is known at the moment [m] of a run that ends in [c']: the books then,
    and after the next step. *)
Definition moment cl os acts m c (c' : cluster E) (s' : sys) tk' : Prop :=
  ∃ s T g tk, book cl (os ++ opened (take m acts)) c s T g tk ∧ onward c s tk c' s' tk' ∧
  ∀ a c1, acts !! m = Some a → cstep Faithful c a = Some c1 →
    ∃ s1 T1 g1, book cl (os ++ opened (take (S m) acts)) c1 s1 T1 g1 (takes c a tk) ∧
      onward c1 s1 (takes c a tk) c' s' tk'.

Lemma crun_book cl os c s T g tk acts c' :
  book cl os c s T g tk → Forall tagged acts → NoDup (os ++ opened acts) →
  crun Faithful acts c = Some c' →
  ∃ s' T' g' tk', book cl (os ++ opened acts) c' s' T' g' tk' ∧ onward c s tk c' s' tk' ∧
    ∀ m cm, crun Faithful (take m acts) c = Some cm → moment cl os acts m cm c' s' tk'.
Proof.
  intros Hb Htag. revert os c s T g tk Hb.
  induction Htag as [|a acts Ha _ IH]; intros os c s T g tk Hb Hnd Hr; cbn [Cluster.crun] in Hr.
  { injection Hr as <-. exists s, T, g, tk. cbn. rewrite app_nil_r. split; [done|].
    split; [apply onward_refl|]. intros m cm Hm. rewrite take_nil in Hm. injection Hm as <-.
    exists s, T, g, tk. rewrite take_nil. split; [by rewrite app_nil_r|].
    split; [apply onward_refl|]. intros a c1 Hm. by rewrite lookup_nil in Hm. }
  destruct (cstep Faithful c a) as [c1|] eqn:Hst; [|done]. cbn [mbind option_bind] in Hr.
  change (opened (a :: acts)) with (opens a ++ opened acts) in *. rewrite app_assoc in Hnd |- *.
  assert (∀ w, w ∈ opens a → w ∉ os) as Hfresh.
  { apply NoDup_app in Hnd as [Hnd _]. apply NoDup_app in Hnd as (_ & Hdj & _).
    intros w Hw Hos. by apply (Hdj w). }
  destruct (cstep_book _ _ _ _ _ _ _ _ _ Hb Ha Hfresh Hst) as (s1 & T1 & g1 & Hb1 & Ho1).
  destruct (IH _ _ _ _ _ _ Hb1 Hnd Hr) as (s2 & T2 & g2 & tk2 & Hb2 & Ho2 & Hm2).
  exists s2, T2, g2, tk2. split; [done|]. split; [by eapply onward_trans|].
  intros [|m] cm Hcm; cbn [take Cluster.crun] in Hcm.
  - injection Hcm as <-. exists s, T, g, tk. cbn [take]. change (opened []) with (@nil waiter).
    rewrite app_nil_r. split; [done|]. split; [by eapply onward_trans|].
    intros a' c1' Ha' Hst'. cbn in Ha'. injection Ha' as <-. rewrite Hst in Hst'. injection Hst' as <-.
    exists s1, T1, g1. cbn [take]. rewrite take_0.
    change (opened [a]) with (opens a ++ []). by rewrite app_nil_r.
  - rewrite Hst in Hcm. cbn [mbind option_bind] in Hcm.
    assert (∀ m, os ++ opened (take (S m) (a :: acts)) = (os ++ opens a) ++ opened (take m acts))
      as Heq by (intros m'; cbn [take]; change (opened (a :: ?l)) with (opens a ++ opened l);
        by rewrite app_assoc).
    destruct (Hm2 m cm Hcm) as (s3 & T3 & g3 & tk3 & Hb3 & Ho3 & Hnext).
    exists s3, T3, g3, tk3. rewrite !Heq. split; [done|]. split; [done|].
    intros a' c3 Ha'. cbn in Ha'. by apply Hnext.
Qed.

Lemma fresh_book c e :
  fresh_servers c e → book (dom (drivers c)) [] c (mkSys (nodes_of c) []) ∅ no_history ∅.
Proof.
  intros Hf. pose proof (fresh_serving parse_error cmd_of c e Hf) as [Hsim _ Hdrv].
  split; [done| |done|apply ledger_fresh|].
  - destruct Hf as (_ & Hfresh & _). apply fresh_cluster_sound in Hfresh. cbn in Hfresh.
    unfold nodes_of in Hfresh. by rewrite dom_fmap_L in Hfresh.
  - intros i d k ws w Hd. destruct Hf as (_ & _ & Hst). destruct (Hst _ _ Hd) as [_ ->].
    by rewrite lookup_empty.
Qed.

(** ** The common order *)

(** The entries a server has applied, earlier or now, are those of the writes
    in [ws], by the ledger then and now. *)
Definition spelled (ws : list waiter) c tk tk' : Prop :=
  ∀ i d k, drivers c !! i = Some d → (k < N.to_nat (last_applied (node d)))%nat →
  ∃ x w, entries (log (node d)) !! k = Some x ∧ ws !! k = Some w ∧
    tk !! w = Some (entry_term x, S k) ∧ tk' !! w = Some (entry_term x, S k) ∧
    command x = encode (cmd_of w).

(** What a server has applied, the server that has applied most has too. *)
Lemma onward_same cl os1 c1 s1 T1 g1 tk1 os2 c2 s2 T2 g2 tk2 j dj i d k :
  book cl os1 c1 s1 T1 g1 tk1 → book cl os2 c2 s2 T2 g2 tk2 → onward c1 s1 tk1 c2 s2 tk2 →
  drivers c2 !! j = Some dj →
  (∀ i d, drivers c2 !! i = Some d → last_applied (node d) ≤ last_applied (node dj)) →
  drivers c1 !! i = Some d → (k < N.to_nat (last_applied (node d)))%nat →
  (k < N.to_nat (last_applied (node dj)))%nat ∧
  ∃ x, entries (log (node d)) !! k = Some x ∧ entries (log (node dj)) !! k = Some x.
Proof.
  intros Hb1 Hb2 [[nacts Hrun] _ Happ] Hj Hmax Hd Hk.
  destruct (Happ _ _ Hd) as (d2 & Hd2 & Hle). specialize (Hmax _ _ Hd2). split; [lia|].
  pose proof (ok_applied _ (dok_node _ _ _ (bk_drivers _ _ _ _ _ _ _ Hb1 _ _ Hd))) as Ha1.
  pose proof (ok_applied _ (dok_node _ _ _ (bk_drivers _ _ _ _ _ _ _ Hb2 _ _ Hj))) as Ha2.
  pose proof (book_node _ _ _ _ _ _ _ _ _ Hb1 Hd) as Hn1.
  pose proof (book_node _ _ _ _ _ _ _ _ _ Hb2 Hj) as Hn2.
  destruct (sound_agree _ _ _ _ _ _ _ _ _ _ (N.of_nat (S k)) (bk_sound _ _ _ _ _ _ _ Hb1) Hrun Hn1 Hn2)
    as (x & Hx1 & Hx2); [lia|lia|left; lia|].
  rewrite (plain_get _ _ _ (sound_plain _ _ _ _ _ _ (bk_sound _ _ _ _ _ _ _ Hb1) Hn1)) in Hx1 by lia.
  rewrite (plain_get _ _ _ (sound_plain _ _ _ _ _ _ (bk_sound _ _ _ _ _ _ _ Hb2) Hn2)) in Hx2 by lia.
  exists x. by replace (N.to_nat (N.of_nat (S k) - 1)) with k in Hx1, Hx2 by lia.
Qed.

Lemma book_chronicled cl os c s T g tk i d :
  book cl os c s T g tk → drivers c !! i = Some d → chronicled T (entries (log (node d))).
Proof.
  intros Hb Hd.
  by destruct (sound_plain _ _ _ _ _ _ (bk_sound _ _ _ _ _ _ _ Hb) (book_node _ _ _ _ _ _ _ _ _ Hb Hd))
    as (_ & _ & _ & ?).
Qed.

Lemma common_order cl os c s T g tk :
  book cl os c s T g tk →
  ∃ ws, NoDup ws ∧ (∀ w, w ∈ ws → w ∈ os) ∧
    ∀ os1 c1 s1 T1 g1 tk1, book cl os1 c1 s1 T1 g1 tk1 → onward c1 s1 tk1 c s tk →
    spelled ws c1 tk1 tk.
Proof.
  intros Hb. pose proof (bk_ledger _ _ _ _ _ _ _ Hb) as Hlg.
  destruct (map_max (λ d, last_applied (node d)) (drivers c)) as [He|(j & dj & Hj & Hmax)].
  { exists []. split; [constructor|]. split; [by intros w Hw%not_elem_of_nil|].
    intros os1 c1 s1 T1 g1 tk1 _ [_ _ Happ] i d k Hd _.
    destruct (Happ _ _ Hd) as (d' & Hd' & _). by rewrite He, lookup_empty in Hd'. }
  set (la := N.to_nat (last_applied (node dj))).
  destruct (list_choice (λ k x w, tk !! w = Some (entry_term x, S k) ∧ command x = encode (cmd_of w))
    (take la (entries (log (node dj))))) as (ws & Hlen & Hws).
  { intros k x Hx. eapply (ledger_entry cmd_of); [done| |exact Hx].
    by eapply chronicled_take, book_chronicled. }
  assert (∀ k w, ws !! k = Some w → ∃ t, tk !! w = Some (t, S k)) as Hwk.
  { intros k w Hw. pose proof (lookup_lt_Some _ _ _ Hw) as Hlt. rewrite Hlen in Hlt.
    apply lookup_lt_is_Some in Hlt as [x Hx]. destruct (Hws _ _ Hx) as (w' & Hw' & Htk & _).
    rewrite Hw in Hw'. injection Hw' as <-. by eexists. }
  exists ws. split; [|split].
  - apply NoDup_alt. intros k k' w Hk Hk'. destruct (Hwk _ _ Hk) as [t Ht].
    destruct (Hwk _ _ Hk') as [t' Ht']. congruence.
  - intros w [k Hk]%list_elem_of_lookup_1. destruct (Hwk _ _ Hk) as [t Ht].
    eapply lg_opened; [exact Hlg|by eexists].
  - intros os1 c1 s1 T1 g1 tk1 Hb1 Hon i d k Hd Hk.
    destruct (onward_same _ _ _ _ _ _ _ _ _ _ _ _ _ _ _ _ _ _ Hb1 Hb Hon Hj Hmax Hd Hk)
      as (Hkj & x & Hx & Hxj).
    destruct (Hws k x) as (w & Hw & Htk & Hc); [by rewrite lookup_take_lt|].
    exists x, w. split; [done|]. split; [done|]. split; [|done].
    destruct (ledger_entry cmd_of _ _ _ _ _ _ (bk_ledger _ _ _ _ _ _ _ Hb1)
      (book_chronicled _ _ _ _ _ _ _ _ _ Hb1 Hd) Hx) as (w' & Hw' & _).
    assert (w' = w) as <-; [|done]. eapply (lg_once _ _ _ _ Hlg); [|exact Htk].
    eapply lookup_weaken; [exact Hw'|apply Hon].
Qed.

(** The commands of a log whose entries are spelled by [ws]. *)
Lemma spelled_commands (l : RaftLog) ws (n : nat) :
  (∀ k, (k < n)%nat → ∃ x w, get l (N.of_nat (S k)) = Some x ∧ ws !! k = Some w ∧
    command x = encode (cmd_of w)) →
  commands parse_error (deliveries l 0 n) = cmd_of <$> take n ws.
Proof.
  induction n as [|n IH]; intros Hsp; [done|].
  destruct (Hsp n ltac:(lia)) as (x & w & Hx & Hw & Hc).
  rewrite <-Nat.add_1_r, deliveries_app, commands_app, IH by (intros k Hk; apply Hsp; lia).
  rewrite Nat.add_1_r, (take_S_r _ _ _ Hw), fmap_app. f_equal. cbn [deliveries app].
  rewrite app_nil_r. unfold delivery. replace (0 + N.of_nat n + 1) with (N.of_nat (S n)) by lia.
  rewrite Hx. rewrite decide_False by (rewrite Hc; by apply encode_nonempty).
  cbn. rewrite Hc. unfold decode, encode. by rewrite from_to.
Qed.

(** ** The property *)

(** Whom step [m] of a run tells, from a server that leads, that a write is
    committed: the server and the channels. *)
Definition acks (acts : list caction) c0 (m : nat) : option (NodeId * list waiter) :=
  c ← crun Faithful (take m acts) c0;
  a ← acts !! m;
  e ← event_of c a;
  d ← drivers c !! e.1;
  if decide (role (node (handle_event e.2 d)) = Leader) then
    Some (e.1, omap (λ r, match r.2 with OutCommitted => Some r.1 | OutNotLeader _ => None end)
                 (drop (length (replies d)) (replies (turn e.2 d))))
  else None.

Definition acked (acts : list caction) c0 (m : nat) (i : NodeId) (w : waiter) : Prop :=
  ∃ ws, acks acts c0 m = Some (i, ws) ∧ w ∈ ws.

Lemma acked_inv acts c0 m i w :
  acked acts c0 m i w →
  ∃ c a ev d, crun Faithful (take m acts) c0 = Some c ∧ acts !! m = Some a ∧
    event_of c a = Some (i, ev) ∧ drivers c !! i = Some d ∧
    role (node (handle_event ev d)) = Leader ∧
    (w, OutCommitted) ∈ drop (length (replies d)) (replies (turn ev d)).
Proof.
  intros (ws & Hack & Hw). unfold acks in Hack.
  destruct (crun Faithful (take m acts) c0) as [c|]; [|done]. cbn [mbind option_bind] in Hack.
  destruct (acts !! m) as [a|]; [|done]. cbn [mbind option_bind] in Hack.
  destruct (event_of c a) as [[j ev]|] eqn:Hev; [|done]. cbn [mbind option_bind fst snd] in Hack.
  destruct (drivers c !! j) as [d|] eqn:Hd; [|done]. cbn [mbind option_bind] in Hack.
  case_decide as Hl; [|done]. remember (omap _ _) as l eqn:Hlist. injection Hack as -> ->. subst ws.
  apply list_elem_of_omap in Hw as ([w' o] & Hin & Ho). cbn in Ho.
  destruct o; [injection Ho as ->|done]. by exists c, a, ev, d.
Qed.

Definition opened_at (acts : list caction) (m : nat) (w : waiter) : Prop :=
  ∃ i cmd, acts !! m = Some (CPropose i cmd w).

(** The same, with the index at which the write was acknowledged: a leader's turn
    commits it, and the client waits there. *)
Definition acked_index (acts : list caction) c0 (m : nat) (i : NodeId) (w : waiter) (k : N) : Prop :=
  ∃ c a ev d ws, crun Faithful (take m acts) c0 = Some c ∧ acts !! m = Some a ∧
    event_of c a = Some (i, ev) ∧ drivers c !! i = Some d ∧
    role (node (handle_event ev d)) = Leader ∧
    0 < k ≤ commit_index (node (handle_event ev d)) ∧
    waiters (handle_event ev d) !! k = Some ws ∧ w ∈ ws.

Lemma acked_indexed e acts c0 c' m i w :
  fresh_servers c0 e → Forall tagged acts → crun Faithful acts c0 = Some c' →
  acked acts c0 m i w → ∃ k, acked_index acts c0 m i w k.
Proof.
  intros Hf Htag Hrun (c & a & ev & d & Hr & Ha & Hev & Hd & Hl & Hin)%acked_inv.
  assert (∃ c1, cstep Faithful c a = Some c1) as [c1 Hst].
  { rewrite <-(take_drop_middle _ _ _ Ha), crun_app, Hr in Hrun.
    cbn [mbind option_bind Cluster.crun] in Hrun. destruct (cstep Faithful c a) as [c1|]; [by exists c1|done]. }
  destruct (crun_serving _ _ _ _ _ _ _ (fresh_serving _ cmd_of _ _ Hf) (Forall_take _ m _ Htag) Hr)
    as (nacts & s & _ & Hsv).
  destruct (cstep_inv _ _ _ _ _ Hst) as (i' & ev' & d' & Hev' & Hd' & Hp & _).
  rewrite Hev in Hev'. injection Hev' as <- <-. rewrite Hd in Hd'. injection Hd' as <-.
  pose proof (proj1 (Forall_lookup _ _) Htag _ _ Ha) as Hta.
  pose proof (serving_event _ _ _ _ _ _ _ _ _ Hsv Hta Hev Hd Hp) as Hevok.
  destruct (acknowledged_committed parse_error cmd_of ev d (sv_drivers _ _ _ _ _ Hsv _ _ Hd) Hevok Hl)
    as (new & Hnew & Hack).
  rewrite Hnew, drop_app_length in Hin.
  destruct (Hack _ Hin) as (k & x & Hk & Hkc & _ & _ & ws & Hws & Hw).
  by exists k, c, a, ev, d, ws.
Qed.

(** Each store is the initial store after a first part of the writes [ws]: those
    the server has applied. *)
Definition reads (ws : list waiter) (e : E) c : Prop :=
  ∀ i d, drivers c !! i = Some d →
    last_applied (node d) ≤ N.of_nat (length ws) ∧
    storage d = apply_all (cmd_of <$> take (N.to_nat (last_applied (node d))) ws) e.

(** What a server has applied is a first part of the writes. *)
Definition follows_order (ws : list waiter) c : Prop :=
  ∀ i d, drivers c !! i = Some d →
    last_applied (node d) ≤ N.of_nat (length ws) ∧
    ∀ k, k ≤ last_applied (node d) →
      log_commands parse_error (log (node d)) 0 k = cmd_of <$> take (N.to_nat k) ws.

Lemma spelled_follows ws e acts c0 c tk tk' :
  fresh_servers c0 e → crun Faithful acts c0 = Some c → spelled ws c tk tk' → follows_order ws c.
Proof.
  intros Hf Hr Hsp i d Hd.
  destruct (crun_stores parse_error e acts c0 c Hf Hr) as (s & T & g & cs & _ & Hs & _ & Hst).
  destruct (Hst _ _ Hd) as [Hi _]. pose proof (sound_plain _ _ _ _ _ _ Hs Hi) as Hpl.
  set (la := last_applied (node d)). split.
  - destruct (decide (la = 0)) as [|Hz]; [lia|].
    destruct (Hsp i d (N.to_nat (la - 1)) Hd) as (_ & w & _ & Hw & _); [subst la; lia|].
    apply lookup_lt_Some in Hw. lia.
  - intros b Hb. unfold log_commands. rewrite N.sub_0_r. apply spelled_commands. intros k Hk.
    destruct (Hsp i d k Hd ltac:(subst la; lia)) as (x & w & Hx & Hw & _ & _ & Hc). exists x, w.
    rewrite (plain_get _ _ _ Hpl) by lia.
    by replace (N.to_nat (N.of_nat (S k) - 1)) with k by lia.
Qed.

Lemma follows_reads ws e acts c0 c :
  fresh_servers c0 e → crun Faithful acts c0 = Some c → follows_order ws c → reads ws e c.
Proof.
  intros Hf Hr Hfo i d Hd.
  destruct (crun_stores parse_error e acts c0 c Hf Hr) as (s & T & g & cs & _ & _ & _ & Hst).
  destruct (Hst _ _ Hd) as [_ ->]. destruct (Hfo _ _ Hd) as [Hle Heq]. split; [done|]. by rewrite Heq.
Qed.

Lemma opened_split acts m a :
  acts !! m = Some a → opened acts = opened (take m acts) ++ opens a ++ opened (drop (S m) acts).
Proof.
  intros Ha. rewrite <-(take_drop_middle _ _ _ Ha) at 1. unfold opened. by rewrite bind_app.
Qed.

Lemma crun_next acts c0 c' m c a :
  crun Faithful acts c0 = Some c' → crun Faithful (take m acts) c0 = Some c → acts !! m = Some a →
  ∃ c1, cstep Faithful c a = Some c1 ∧ crun Faithful (take (S m) acts) c0 = Some c1.
Proof.
  intros Hr Hm Ha. rewrite <-(take_drop_middle _ _ _ Ha), crun_app, Hm in Hr.
  cbn [mbind option_bind Cluster.crun] in Hr.
  destruct (cstep Faithful c a) as [c1|] eqn:Hst; [|done]. exists c1. split; [done|].
  rewrite (take_S_r _ _ _ Ha), crun_app, Hm. cbn [mbind option_bind Cluster.crun]. by rewrite Hst.
Qed.

Lemma turn_role ev d : role (node (turn ev d)) = role (node (handle_event ev d)).
Proof.
  rewrite turn_node. by destruct (take_ready_shape (node (handle_event ev d))) as (la & l & -> & _).
Qed.

(** An acknowledged write is in the ledger, and applied. *)
Lemma acked_ticket cl acts c0 m i w k c' s' tk' :
  Forall tagged acts → NoDup (opened acts) → crun Faithful acts c0 = Some c' →
  (∀ m c, crun Faithful (take m acts) c0 = Some c → moment cl [] acts m c c' s' tk') →
  acked_index acts c0 m i w k →
  ∃ c1 d1 s1 T1 g1 tk1 x, crun Faithful (take (S m) acts) c0 = Some c1 ∧ drivers c1 !! i = Some d1 ∧
    book cl (opened (take (S m) acts)) c1 s1 T1 g1 tk1 ∧ onward c1 s1 tk1 c' s' tk' ∧
    0 < k ≤ last_applied (node d1) ∧ entries (log (node d1)) !! (N.to_nat k - 1)%nat = Some x ∧
    tk1 !! w = Some (entry_term x, N.to_nat k).
Proof.
  intros Htag Hnd Hrun Hmom (c & a & ev & d & ws & Hr & Ha & Hev & Hd & Hl & Hk & Hws & Hw).
  destruct (Hmom _ _ Hr) as (s & T & g & tk & Hb & _ & Hnext). cbn [app] in Hb, Hnext.
  destruct (crun_next _ _ _ _ _ _ Hrun Hr Ha) as (c1 & Hst & Hr1).
  destruct (Hnext a c1 Ha Hst) as (s1 & T1 & g1 & Hb1 & Ho1).
  destruct (cstep_inv _ _ _ _ _ Hst) as (i' & ev' & d' & Hev' & Hd' & Hp & Hc1).
  rewrite Hev in Hev'. injection Hev' as <- <-. rewrite Hd in Hd'. injection Hd' as <-.
  pose proof (proj1 (Forall_lookup _ _) Htag _ _ Ha) as Hta.
  assert (∀ w, w ∈ opens a → w ∉ opened (take m acts)) as Hfresh.
  { rewrite (opened_split _ _ _ Ha) in Hnd. apply NoDup_app in Hnd as (_ & Hdj & _).
    intros w' Hw' Ho. apply (Hdj w' Ho). apply elem_of_app. by left. }
  pose proof (bk_drivers _ _ _ _ _ _ _ Hb _ _ Hd) as Hdok.
  pose proof (serving_event _ _ _ _ _ _ _ _ _ (book_serving _ _ _ _ _ _ _ Hb) Hta Hev Hd Hp) as Hevok.
  pose proof (event_waiters _ _ _ _ _ _ _ _ _ _ _ _ _ _ Hb Hfresh Hev Hd Hp Hl Hws Hw) as Htk.
  destruct (turn_keeps parse_error ev d Hp) as (_ & _ & Hterm).
  destruct (turn_applies _ _ Hdok Hevok Hp) as [Hla _].
  assert (drivers c1 !! i = Some (turn ev d)) as Hd1 by (rewrite Hc1; apply lookup_insert_eq).
  destruct (lg_held _ _ _ _ (bk_ledger _ _ _ _ _ _ _ Hb1) _ _ _ Htk) as (_ & L & x & HT & Hx & Het).
  assert (L = entries (log (node (turn ev d)))) as ->.
  { destruct (bk_sound _ _ _ _ _ _ _ Hb1) as (B & _ & Hch & _).
    pose proof (co_leader _ _ _ _ Hch _ _ (book_node _ _ _ _ _ _ _ _ _ Hb1 Hd1)) as HL.
    rewrite turn_role, Hterm in HL. specialize (HL Hl). congruence. }
  exists c1, (turn ev d), s1, T1, g1, (takes c a tk), x.
  split; [done|]. split; [done|]. split; [done|]. split; [done|].
  split; [by rewrite Hla|]. split; [done|]. by rewrite Htk, Het.
Qed.

(** The common order of a run. *)
Lemma common_linear_order e acts c0 c :
  fresh_servers c0 e → Forall tagged acts → NoDup (opened acts) → crun Faithful acts c0 = Some c →
  ∃ ws, NoDup ws ∧ (∀ w, w ∈ ws → w ∈ opened acts) ∧
    (∀ m cm, crun Faithful (take m acts) c0 = Some cm → follows_order ws cm) ∧
    ∀ m i w k, acked_index acts c0 m i w k →
      ws !! (N.to_nat k - 1)%nat = Some w ∧ 0 < k ∧
      (∀ c1 d1, crun Faithful (take (S m) acts) c0 = Some c1 → drivers c1 !! i = Some d1 →
         k ≤ last_applied (node d1)) ∧
      ∀ m' w' p', (m < m')%nat → opened_at acts m' w' → ws !! p' = Some w' →
        (N.to_nat k - 1 < p')%nat.
Proof.
  intros Hf Htag Hnd Hr.
  destruct (crun_book _ _ _ _ _ _ _ acts c (fresh_book c0 e Hf) Htag Hnd Hr)
    as (s & T & g & tk & Hb & _ & Hmom).
  destruct (common_order _ _ _ _ _ _ _ Hb) as (ws & Hnw & Hop & Hsp).
  exists ws. split; [done|]. split; [done|]. split.
  - intros m cm Hm. destruct (Hmom m cm Hm) as (s1 & T1 & g1 & tk1 & Hb1 & Ho1 & _).
    eapply spelled_follows; [done..|by eapply Hsp].
  - intros m i w k Hack.
    destruct (acked_ticket _ _ _ _ _ _ _ _ _ _ Htag Hnd Hr Hmom Hack)
      as (c1 & d1 & s1 & T1 & g1 & tk1 & x & Hr1 & Hd1 & Hb1 & Ho1 & Hk & Hx & Htk).
    pose proof (Hsp _ _ _ _ _ _ Hb1 Ho1) as Hs1.
    pose proof (lg_once _ _ _ _ (bk_ledger _ _ _ _ _ _ _ Hb1)) as Honce.
    split; [|split; [lia|split]].
    + destruct (Hs1 i d1 (N.to_nat k - 1)%nat Hd1 ltac:(lia)) as (y & w0 & Hy & Hw0 & Htk0 & _).
      rewrite Hx in Hy. injection Hy as <-.
      replace (S (N.to_nat k - 1)) with (N.to_nat k) in Htk0 by lia.
      by rewrite (Honce w w0 _ Htk Htk0).
    + intros c2 d2 Hr2 Hd2. assert (d2 = d1) as -> by congruence. lia.
    + intros m' w' p' Hm (i' & cmd & Ha') Hp'. apply Nat.nle_gt. intros Hle.
      destruct (Hs1 i d1 p' Hd1 ltac:(lia)) as (y & w0 & _ & Hw0 & Htk0 & _).
      rewrite Hp' in Hw0. injection Hw0 as <-.
      assert (w' ∈ opened (take (S m) acts)) as Hearly
        by (eapply lg_opened; [apply (bk_ledger _ _ _ _ _ _ _ Hb1)|by eexists]).
      rewrite (opened_split _ _ _ Ha') in Hnd. apply NoDup_app in Hnd as (_ & Hdj & _).
      apply (Hdj w'); [|by left].
      assert (take (S m) acts = take (S m) (take m' acts)) as Htt
        by (rewrite take_take; f_equal; lia).
      rewrite Htt in Hearly. rewrite <-(take_drop (S m) (take m' acts)).
      unfold opened in *. rewrite bind_app. apply elem_of_app. by left.
Qed.

Lemma linear_order e acts c0 c :
  fresh_servers c0 e → Forall tagged acts → NoDup (opened acts) → crun Faithful acts c0 = Some c →
  ∃ ws, NoDup ws ∧ (∀ w, w ∈ ws → w ∈ opened acts) ∧
    (∀ m cm, crun Faithful (take m acts) c0 = Some cm → reads ws e cm) ∧
    ∀ m i w, acked acts c0 m i w → ∃ p, ws !! p = Some w ∧
      (∀ c1 d1, crun Faithful (take (S m) acts) c0 = Some c1 → drivers c1 !! i = Some d1 →
         N.of_nat p < last_applied (node d1)) ∧
      ∀ m' w' p', (m < m')%nat → opened_at acts m' w' → ws !! p' = Some w' → (p < p')%nat.
Proof.
  intros Hf Htag Hnd Hr.
  destruct (common_linear_order _ _ _ _ Hf Htag Hnd Hr) as (ws & Hnw & Hop & Hfo & Hack).
  exists ws. split; [done|]. split; [done|]. split.
  - intros m cm Hm. eapply follows_reads; [done..|by eapply Hfo].
  - intros m i w Hw. destruct (acked_indexed _ _ _ _ _ _ _ Hf Htag Hr Hw) as (k & Hk).
    destruct (Hack _ _ _ _ Hk) as (Hp & Hpos & Hla & Hlater). exists (N.to_nat k - 1)%nat.
    split; [done|]. split; [|done]. intros c1 d1 Hr1 Hd1. specialize (Hla _ _ Hr1 Hd1). lia.
Qed.

(** Servers never unapply. *)
Lemma crun_applied e acts c0 c m m' c1 c2 i d1 d2 :
  fresh_servers c0 e → Forall tagged acts → NoDup (opened acts) → crun Faithful acts c0 = Some c →
  (m ≤ m')%nat → crun Faithful (take m acts) c0 = Some c1 → crun Faithful (take m' acts) c0 = Some c2 →
  drivers c1 !! i = Some d1 → drivers c2 !! i = Some d2 →
  last_applied (node d1) ≤ last_applied (node d2).
Proof.
  intros Hf Htag Hnd Hr Hm Hr1 Hr2 H1' H2'.
  assert (NoDup (opened (take m' acts))) as Hnd'.
  { rewrite <-(take_drop m' acts) in Hnd. unfold opened in *. rewrite bind_app in Hnd.
    by apply NoDup_app in Hnd as [? _]. }
  destruct (crun_book _ _ _ _ _ _ _ (take m' acts) c2 (fresh_book c0 e Hf) ltac:(by apply Forall_take) Hnd' Hr2)
    as (s & T & g & tk & _ & _ & Hmom).
  destruct (Hmom m c1) as (? & ? & ? & ? & _ & Hon & _); [by rewrite take_take, Nat.min_l by done|].
  destruct (on_applied _ _ _ _ _ _ Hon _ _ H1') as (d2' & H2'' & Hle). congruence.
Qed.

(** A server that acknowledges a write leads: what fails otherwise is
    [lost_write_acknowledged]. *)
Definition honest (ev : event) d : Prop :=
  role (node (handle_event ev d)) = Leader ∨
  Forall (λ r, r.2 ≠ OutCommitted) (drop (length (replies d)) (replies (turn ev d))).

Definition honest_run (acts : list caction) c0 : Prop :=
  ∀ m c a i ev d, crun Faithful (take m acts) c0 = Some c → acts !! m = Some a →
    event_of c a = Some (i, ev) → drivers c !! i = Some d → honest ev d.

Lemma acks_intro acts c0 m c a i ev d w :
  crun Faithful (take m acts) c0 = Some c → acts !! m = Some a → event_of c a = Some (i, ev) →
  drivers c !! i = Some d → role (node (handle_event ev d)) = Leader →
  (w, OutCommitted) ∈ drop (length (replies d)) (replies (turn ev d)) → acked acts c0 m i w.
Proof.
  intros Hr Ha Hev Hd Hl Hin. unfold acked, acks. rewrite Hr. cbn [mbind option_bind].
  rewrite Ha. cbn [mbind option_bind]. rewrite Hev. cbn [mbind option_bind fst snd].
  rewrite Hd. cbn [mbind option_bind]. rewrite decide_True by done. eexists. split; [done|].
  apply list_elem_of_omap. by exists (w, OutCommitted).
Qed.

(** Who has been told that a write is committed was told so in some step. *)
Lemma replies_acked acts c0 c i d w :
  (∀ i d, drivers c0 !! i = Some d → replies d = []) → honest_run acts c0 →
  crun Faithful acts c0 = Some c → drivers c !! i = Some d → (w, OutCommitted) ∈ replies d →
  ∃ m, (m < length acts)%nat ∧ acked acts c0 m i w.
Proof.
  intros H0'. revert c d. induction acts as [|a acts IH] using rev_ind; intros c d Hh Hr Hd Hw.
  { cbn in Hr. injection Hr as <-. rewrite (H0' _ _ Hd) in Hw. by apply not_elem_of_nil in Hw. }
  pose proof Hr as Hall. rewrite crun_app in Hr.
  destruct (crun Faithful acts c0) as [c1|] eqn:Hr1; [|done]. cbn [mbind option_bind Cluster.crun] in Hr.
  destruct (cstep Faithful c1 a) as [c2|] eqn:Hst; [|done]. injection Hr as ->.
  assert (∀ m, (m ≤ length acts)%nat → take m (acts ++ [a]) = take m acts) as Htk
    by (intros; by apply take_app_le).
  assert ((∃ d1, drivers c1 !! i = Some d1 ∧ (w, OutCommitted) ∈ replies d1) ∨
    acked (acts ++ [a]) c0 (length acts) i w) as [(d1 & Hd1 & Hw1)|Hack].
  - destruct (cstep_inv _ _ _ _ _ Hst) as (j & ev & d1 & Hev & Hd1 & _ & Hc).
    rewrite Hc in Hd. apply lookup_insert_Some in Hd as [[<- <-]|[_ Hd]]; [|left; by exists d].
    destruct (decide ((w, OutCommitted) ∈ drop (length (replies d1)) (replies (turn ev d1)))) as [Hin|Hout].
    + right. assert (crun Faithful (take (length acts) (acts ++ [a])) c0 = Some c1) as Hc1
        by (by rewrite take_app_length).
      assert ((acts ++ [a]) !! length acts = Some a) as Ha by (by rewrite lookup_app_r, Nat.sub_diag).
      destruct (Hh _ _ _ _ _ _ Hc1 Ha Hev Hd1) as [Hl|Hno].
      * by eapply acks_intro.
      * rewrite Forall_forall in Hno. by destruct (Hno _ Hin).
    + left. exists d1. split; [done|]. destruct (turn_replies parse_error ev d1) as (new & Hnew).
      rewrite Hnew in Hw, Hout. rewrite drop_app_length in Hout.
      by apply elem_of_app in Hw as [|].
  - destruct (IH c1 d1) as (m & Hm & Hack); [|done..|].
    { intros m cm a' i' ev d' Hcm Ha'. apply (Hh m); [|by apply lookup_app_l_Some].
      rewrite Htk; [done|]. apply lookup_lt_Some in Ha'. lia. }
    exists m. split; [rewrite length_app; lia|].
    destruct (acked_inv _ _ _ _ _ Hack) as (cm & a' & ev & d' & Hcm & Ha' & Hev & Hd' & Hl & Hin).
    eapply acks_intro; [|by apply lookup_app_l_Some|done..]. by rewrite Htk by lia.
  - exists (length acts). rewrite length_app. split; [cbn; lia|done].
Qed.

(** [C4] Writes are linearizable: in every faithful run from fresh servers in
    which each write has its own channel, there is one order of writes such that
    at every moment each server's store is the initial store after a first part
    of the order; every write in it was made by a client, and is in it once;
    every write that a leading server acknowledges is in it, and in the part
    that server has applied, so the client reads it there; and a write made
    after another was acknowledged comes after it, whichever servers took them.
    A moment is one between the drivers' turns. *)
Theorem writes_linearizable e acts c0 c :
  fresh_servers c0 e → Forall tagged acts → NoDup (opened acts) → crun Faithful acts c0 = Some c →
  ∃ ws, NoDup ws ∧ (∀ w, w ∈ ws → w ∈ opened acts) ∧
    (∀ m cm, crun Faithful (take m acts) c0 = Some cm → reads ws e cm) ∧
    ∀ m i w, acked acts c0 m i w → ∃ p, ws !! p = Some w ∧
      (∀ c1 d1, crun Faithful (take (S m) acts) c0 = Some c1 → drivers c1 !! i = Some d1 →
         N.of_nat p < last_applied (node d1)) ∧
      ∀ m' w' p', (m < m')%nat → opened_at acts m' w' → ws !! p' = Some w' → (p < p')%nat.
Proof. apply linear_order. Qed.
End Book.

(** ** Two writes, one after the other *)
Section Example.
#[local] Existing Instance low_rng.
#[local] Existing Instance canonical_iter.
#[local] Existing Instance DemoCodec.demo_json.
#[local] Existing Instance DemoCodec.demo_json_laws.

(** [write_run], and the reply of ["n2"] to the append of the second write. *)
Definition two_writes : list caction := write_run ++ [CDeliver 10].

(** Both are acknowledged, the second was made after the first was; so the order
    has the first before the second. *)
Lemma writes_linearizable_witness :
  match crun plain_error Faithful two_writes three with
  | Some c => ∃ ws p p', NoDup ws ∧ reads opened_for ws Memory.new c ∧
      ws !! p = Some 7%nat ∧ ws !! p' = Some 8%nat ∧ (p < p')%nat
  | None => False
  end.
Proof.
  destruct (crun plain_error Faithful two_writes three) as [c|] eqn:Hr;
    [|vm_compute in Hr; discriminate Hr].
  destruct (writes_linearizable plain_error opened_for Memory.new two_writes three c)
    as (ws & Hnd & _ & Hreads & Hack);
    [exact three_fresh|repeat constructor|apply (bool_decide_unpack _); reflexivity|exact Hr|].
  destruct (Hack 9%nat "n1" 7%nat) as (p & Hp & _ & Hlater).
  { exists [7%nat]. split; [vm_compute; reflexivity|left]. }
  destruct (Hack 12%nat "n1" 8%nat) as (p' & Hp' & _).
  { exists [8%nat]. split; [vm_compute; reflexivity|left]. }
  exists ws, p, p'. split; [exact Hnd|]. split; [by apply (Hreads 13%nat)|].
  split; [exact Hp|]. split; [exact Hp'|].
  apply (Hlater 10%nat 8%nat); [lia|by exists "n1", (Set_ "b" [x02])|exact Hp'].
Defined.
End Example.
