(* ===== verification/Sim.v ===== *)
(** * The simulator ([src/sim.rs])

    A whole cluster of nodes over a synchronous in-memory bus, stepped
    deterministically. The theorems relate it to the network of [Network.v],
    of which every simulation is a run, and state what crashes and partitions
    do. *)

From S2P Require Import Prelude Text Storage Errors Apply RaftLog RaftState RaftNode NodeTheory NodeProps Server ServerTheory Network.
Local Open Scope N_scope.

Section Sim.
Context `{Rng} `{Json WriteCommand} `{!HashIter string bytes} (parse_error : bytes → string).

Abbreviation MemoryEngine := Storage.Memory.MemoryEngine.

Record SimCluster := mkSim {
  sim_nodes : list RaftNode;
  stores : list MemoryEngine;
  alive : list bool;
  connected : list bool;
  ids : list NodeId;
  id_to_idx : gmap NodeId nat;
  step_count : N;
}.

Definition set_sim_nodes (v : list RaftNode) (c : SimCluster) : SimCluster :=
  mkSim v (stores c) (alive c) (connected c) (ids c) (id_to_idx c) (step_count c).
Definition set_stores (v : list MemoryEngine) (c : SimCluster) : SimCluster :=
  mkSim (sim_nodes c) v (alive c) (connected c) (ids c) (id_to_idx c) (step_count c).
Definition set_alive (v : list bool) (c : SimCluster) : SimCluster :=
  mkSim (sim_nodes c) (stores c) v (connected c) (ids c) (id_to_idx c) (step_count c).
Definition set_connected (v : list bool) (c : SimCluster) : SimCluster :=
  mkSim (sim_nodes c) (stores c) (alive c) v (ids c) (id_to_idx c) (step_count c).
Definition set_step_count (v : N) (c : SimCluster) : SimCluster :=
  mkSim (sim_nodes c) (stores c) (alive c) (connected c) (ids c) (id_to_idx c) v.

(** ** Construction *)

(** [format!("n{i}")] *)
Definition node_name (i : nat) : NodeId := of_bytes (x6e :: N_to_bytes (N.of_nat i)).

Definition sim_config (seed : N) (i : nat) : RaftConfig :=
  mkConfig 1 5 10 8 (Some (wadd seed (N.of_nat i))).

Definition sim_node_of (entropy : StdRng) (n : nat) (seed : N) (i : nat) : option RaftNode :=
  let ids := node_name <$> seq 0 n in
  new entropy (node_name i) (filter (.≠ node_name i) ids) (sim_config seed i).

(** [RaftNode::new] cannot panic on this configuration; the entropy is not
    used with a seed. *)
Definition sim_new (entropy : StdRng) (n : nat) (seed : N) : option SimCluster :=
  let ids := node_name <$> seq 0 n in
  nodes ← mapM (sim_node_of entropy n seed) (seq 0 n);
  Some (mkSim nodes (replicate n Storage.Memory.new) (replicate n true) (replicate n true)
          ids (list_to_map (zip ids (seq 0 n))) 0).

(** ** One step

    The vectors have the same length in every cluster [sim_new] builds, so the
    indexing of the loops is in range; a read out of range is [false] or
    nothing here. *)
Definition alive_at (c : SimCluster) (i : nat) : bool := default false (alive c !! i).
Definition connected_at (c : SimCluster) (i : nat) : bool := default false (connected c !! i).

Definition deliverable (c : SimCluster) (from to : nat) : bool :=
  alive_at c from && alive_at c to && connected_at c from && connected_at c to.

Definition sim_apply (node : nat) (c : SimCluster) (item : Committed) : SimCluster :=
  match item with
  | CommittedCommand _ command =>
      match decode parse_error command with
      | Ok cmd => set_stores (alter (λ st, (apply cmd st).1) node (stores c)) c
      | Err _ => c
      end
  | CommittedSnapshot data =>
      set_stores (alter (λ st, Storage.restore st data) node (stores c)) c
  end.

Definition bus_message : Type := nat * NodeId * Message.

Definition tick_one (c : SimCluster) (i : nat) : SimCluster :=
  if alive_at c i then set_sim_nodes (alter tick i (sim_nodes c)) c else c.

(** The envelopes of node [i] whose destination is in the cluster. *)
Definition on_bus (c : SimCluster) (i : nat) (messages : list Envelope) : list bus_message :=
  omap (λ env, to ← id_to_idx c !! to env;
               from ← ids c !! i;
               Some (to, from, message env)) messages.

Definition drain_one (cb : SimCluster * list bus_message) (i : nat)
    : SimCluster * list bus_message :=
  let (c, bus) := cb in
  if alive_at c i then
    match sim_nodes c !! i with
    | Some n =>
        let (n, ready) := take_ready n in
        let c := set_sim_nodes (<[i := n]> (sim_nodes c)) c in
        let c := foldl (sim_apply i) c (ready_committed ready) in
        (c, bus ++ on_bus c i (ready_messages ready))
    | None => (c, bus)
    end
  else (c, bus).

Definition deliver_one (c : SimCluster) (m : bus_message) : SimCluster :=
  let '(to, from, message) := m in
  match id_to_idx c !! from with
  | Some from_idx =>
      if deliverable c from_idx to
      then set_sim_nodes (alter (step from message) to (sim_nodes c)) c else c
  | None => c
  end.

Definition sim_step (c : SimCluster) : SimCluster :=
  let c := set_step_count (wadd (step_count c) 1) c in
  let every := seq 0 (length (sim_nodes c)) in
  let c := foldl tick_one c every in
  let (c, bus) := foldl drain_one (c, []) every in
  foldl deliver_one c bus.

Definition sim_run (steps : nat) (c : SimCluster) : SimCluster := Nat.iter steps sim_step c.

Fixpoint run_until (max : nat) (pred : SimCluster → bool) (c : SimCluster) : bool * SimCluster :=
  match max with
  | O => (pred c, c)
  | S max => if pred c then (true, c) else run_until max pred (sim_step c)
  end.

(** ** Inspection and control *)

(** The largest term of a live node. *)
Definition max_term (c : SimCluster) : option N :=
  let terms := omap (λ i, if alive_at c i then current_term <$> sim_nodes c !! i else None)
                 (seq 0 (length (sim_nodes c))) in
  match terms with [] => None | t :: ts => Some (foldl N.max t ts) end.

Definition leads_at (c : SimCluster) (term : N) (i : nat) : bool :=
  alive_at c i &&
  match sim_nodes c !! i with
  | Some n => bool_decide (role n = Leader) && bool_decide (current_term n = term)
  | None => false
  end.

Definition sim_leader (c : SimCluster) : option nat :=
  max_term ← max_term c;
  match filter (λ i, leads_at c max_term i = true) (seq 0 (length (sim_nodes c))) with
  | [only] => Some only
  | _ => None
  end.

(** Indexing out of range panics: [None]. *)
Definition sim_propose (idx : nat) (command : WriteCommand) (c : SimCluster)
    : option (option N * SimCluster) :=
  n ← sim_nodes c !! idx;
  let (n, outcome) := propose (encode command) n in
  Some (match outcome with inl index => Some index | inr _ => None end,
        set_sim_nodes (<[idx := n]> (sim_nodes c)) c).

Definition sim_get (idx : nat) (key : string) (c : SimCluster) : option (option bytes) :=
  (λ st, Storage.get st key) <$> stores c !! idx.

Definition sim_commit_index (idx : nat) (c : SimCluster) : option N :=
  commit_index <$> sim_nodes c !! idx.
Definition sim_term (idx : nat) (c : SimCluster) : option N :=
  current_term <$> sim_nodes c !! idx.
Definition sim_size (c : SimCluster) : nat := length (sim_nodes c).

Definition assign (idx : nat) (v : bool) (flags : list bool) : option (list bool) :=
  if decide (idx < length flags)%nat then Some (<[idx := v]> flags) else None.

Definition crash (idx : nat) (c : SimCluster) : option SimCluster :=
  (λ f, set_alive f c) <$> assign idx false (alive c).
Definition restart (idx : nat) (c : SimCluster) : option SimCluster :=
  (λ f, set_alive f c) <$> assign idx true (alive c).
Definition disconnect (idx : nat) (c : SimCluster) : option SimCluster :=
  (λ f, set_connected f c) <$> assign idx false (connected c).
Definition reconnect (idx : nat) (c : SimCluster) : option SimCluster :=
  (λ f, set_connected f c) <$> assign idx true (connected c).

(** What a test may do with a cluster. *)
Inductive sim_op :=
  | SimStep
  | SimPropose (idx : nat) (command : WriteCommand)
  | SimCrash (idx : nat)
  | SimRestart (idx : nat)
  | SimDisconnect (idx : nat)
  | SimReconnect (idx : nat).

Definition sim_do (o : sim_op) (c : SimCluster) : option SimCluster :=
  match o with
  | SimStep => Some (sim_step c)
  | SimPropose idx command => snd <$> sim_propose idx command c
  | SimCrash idx => crash idx c
  | SimRestart idx => restart idx c
  | SimDisconnect idx => disconnect idx c
  | SimReconnect idx => reconnect idx c
  end.

Fixpoint script (ops : list sim_op) (c : SimCluster) : option SimCluster :=
  match ops with
  | [] => Some c
  | o :: ops => c ← sim_do o c; script ops c
  end.
End Sim.

(** ** Every simulation is a run of the network *)
Section Refinement.
Context `{Rng} `{Json WriteCommand} `{!HashIter string bytes} (parse_error : bytes → string).
Implicit Types (c : SimCluster) (s : sys).

Record tracks c s : Prop := {
  tr_ids i id : ids c !! i = Some id ↔ id_to_idx c !! id = Some i;
  tr_nodes i id : ids c !! i = Some id → nodes s !! id = sim_nodes c !! i;
  tr_length : length (ids c) = length (sim_nodes c);
}.

(** Some actions lead from [s] to [s']. *)
Definition reaches s s' : Prop := (∃ acts, run Free acts s = Some s') ∧ net s `prefix_of` net s'.

#[export] Instance reaches_preorder : PreOrder reaches.
Proof.
  split.
  - intros s. split; [by exists []|done].
  - intros s1 s2 s3 [[a1 H1] P1] [[a2 H2] P2]. split; [|by etrans].
    exists (a1 ++ a2). by rewrite run_app, H1.
Qed.

Lemma act_reaches s a i o n :
  op_of s a = Some (i, o) → nodes s !! i = Some n →
  reaches s (mkSys (<[i := exec o n]> (nodes s)) (net s ++ sent a i n)).
Proof.
  intros Ho Hn. split; [|by apply prefix_app_r].
  exists [a]. cbn. unfold act. rewrite Ho. cbn. rewrite Hn. cbn. by rewrite decide_True.
Qed.

(** Replacing the state of one node on both sides. *)
Lemma tracks_insert c s i id n' packets :
  tracks c s → ids c !! i = Some id →
  tracks (set_sim_nodes (<[i := n']> (sim_nodes c)) c) (mkSys (<[id := n']> (nodes s)) packets).
Proof.
  intros [Hid Hn Hl] Hi. split; cbn; [exact Hid| |by rewrite length_insert].
  intros j id' Hj. destruct (decide (j = i)) as [->|Hne].
  - rewrite Hi in Hj. simplify_eq. rewrite lookup_insert_eq, list_lookup_insert_eq; [done|].
    rewrite <-Hl. by eapply lookup_lt_Some.
  - rewrite list_lookup_insert_ne by done. rewrite lookup_insert_ne; [by apply Hn|].
    intros ->. apply Hid in Hi, Hj. congruence.
Qed.

Lemma tracks_act c s a i id o n :
  tracks c s → ids c !! i = Some id → sim_nodes c !! i = Some n → op_of s a = Some (id, o) →
  ∃ s', reaches s s' ∧ tracks (set_sim_nodes (<[i := exec o n]> (sim_nodes c)) c) s' ∧
    net s' = net s ++ sent a id n.
Proof.
  intros Ht Hi Hn Ho. eexists. split; [|split].
  - apply act_reaches; [exact Ho|]. by rewrite (tr_nodes _ _ Ht i).
  - by apply tracks_insert.
  - done.
Qed.

Lemma tracks_id c s i n :
  tracks c s → sim_nodes c !! i = Some n → ∃ id, ids c !! i = Some id.
Proof.
  intros Ht Hn. apply lookup_lt_is_Some. rewrite (tr_length _ _ Ht). by eapply lookup_lt_Some.
Qed.

Lemma set_sim_nodes_id c : set_sim_nodes (sim_nodes c) c = c.
Proof. by destruct c. Qed.

(** A method of a node, run by the simulator, is an action of the network. *)
Lemma tracks_alter c s a i o :
  tracks c s → (∀ id, ids c !! i = Some id → op_of s a = Some (id, o)) →
  ∃ s', reaches s s' ∧ tracks (set_sim_nodes (alter (exec o) i (sim_nodes c)) c) s'.
Proof.
  intros Ht Ho. destruct (sim_nodes c !! i) as [n|] eqn:Hn.
  - destruct (tracks_id _ _ _ _ Ht Hn) as [id Hi].
    destruct (tracks_act c s a i id o n) as (s' & Hr & Ht' & _); [by auto..|].
    exists s'. by rewrite (list_alter_insert _ _ _ _ Hn).
  - exists s. rewrite list_alter_none by done. by rewrite set_sim_nodes_id.
Qed.

(** The fields the relation does not mention. *)
Lemma tracks_frame c c' s :
  ids c' = ids c → id_to_idx c' = id_to_idx c → sim_nodes c' = sim_nodes c →
  tracks c s → tracks c' s.
Proof. intros Hi Hx Hn [H1 H2 H3]. by split; rewrite ?Hi, ?Hx, ?Hn. Qed.

Lemma tick_one_tracks c s i :
  tracks c s → ∃ s', reaches s s' ∧ tracks (tick_one c i) s'.
Proof.
  intros Ht. unfold tick_one. destruct (alive_at c i); [|by exists s].
  destruct (ids c !! i) as [id|] eqn:Hi.
  - apply (tracks_alter c s (ATick id) i OpTick); [done|]. intros id' Hid.
    cbn. congruence.
  - exists s. rewrite list_alter_none; [by rewrite set_sim_nodes_id|].
    apply lookup_ge_None. rewrite <-(tr_length _ _ Ht). by apply lookup_ge_None.
Qed.

Lemma ticks_track idxs c s :
  tracks c s → ∃ s', reaches s s' ∧ tracks (foldl tick_one c idxs) s'.
Proof.
  revert c s. induction idxs as [|i idxs IH]; intros c s Ht; [by exists s|]. cbn.
  destruct (tick_one_tracks c s i Ht) as (s1 & Hr1 & Ht1).
  destruct (IH _ _ Ht1) as (s2 & Hr2 & Ht2). exists s2. split; [by etrans|done].
Qed.

(** A message on the bus is a packet of the network. *)
Definition carried c s (m : bus_message) : Prop :=
  let '(to, from, message) := m in
  ∃ k id, ids c !! to = Some id ∧ net s !! k = Some (mkPacket from id message).

Lemma carried_mono c c' s s' m :
  ids c' = ids c → net s `prefix_of` net s' → carried c s m → carried c' s' m.
Proof.
  destruct m as [[to from] message]. intros Hi [l Hl] (k & id & Hto & Hk).
  exists k, id. rewrite Hi, Hl. split; [done|]. by apply lookup_app_l_Some.
Qed.

Lemma sim_apply_frame i cs c :
  let c' := foldl (sim_apply parse_error i) c cs in
  ids c' = ids c ∧ id_to_idx c' = id_to_idx c ∧ sim_nodes c' = sim_nodes c ∧
  alive c' = alive c ∧ connected c' = connected c.
Proof.
  revert c. induction cs as [|item cs IH]; intros c; [done|]. cbn.
  destruct (IH (sim_apply parse_error i c item)) as (-> & -> & -> & -> & ->).
  destruct item as [j cmd|data]; cbn; [|done]. by destruct (decode parse_error cmd).
Qed.

Lemma drain_one_tracks c s bus i :
  tracks c s → Forall (carried c s) bus →
  let (c', bus') := drain_one parse_error (c, bus) i in
  ∃ s', reaches s s' ∧ tracks c' s' ∧ Forall (carried c' s') bus'.
Proof.
  intros Ht Hb. unfold drain_one. destruct (alive_at c i); [|by exists s].
  destruct (sim_nodes c !! i) as [n|] eqn:Hn; [|by exists s].
  destruct (tracks_id _ _ _ _ Ht Hn) as [id Hi].
  destruct (tracks_act c s (ADrain id None) i id OpTakeReady n) as (s' & Hr & Ht' & Hnet);
    [done..|].
  cbn [exec] in Ht'. destruct (take_ready n) as [n' ready] eqn:Htr. cbn [fst] in Ht'.
  set (c1 := set_sim_nodes _ c) in *.
  destruct (sim_apply_frame i (ready_committed ready) c1) as (Hids & Hidx & Hns & _ & _).
  set (c2 := foldl _ c1 _) in *. exists s'. split; [done|]. split.
  - by apply (tracks_frame c1).
  - apply Forall_app. split.
    + eapply Forall_impl; [exact Hb|]. intros m.
      apply carried_mono; [by rewrite Hids|apply Hr].
    + apply Forall_forall. intros m Hm. unfold on_bus in Hm.
      apply list_elem_of_omap in Hm as (env & Henv & Hm).
      destruct (id_to_idx c2 !! to env) as [t|] eqn:Hto; [|done]. cbn in Hm.
      rewrite Hids in Hm. subst c1. cbn in Hm. rewrite Hi in Hm. cbn in Hm. simplify_eq.
      apply list_elem_of_lookup_1 in Henv as [k Hk].
      exists (length (net s) + k)%nat, (to env). split.
      * rewrite Hids. cbn. apply (tr_ids _ _ Ht). by rewrite <-Hto, Hidx.
      * rewrite Hnet, lookup_app_r by lia.
        replace (length (net s) + k - length (net s))%nat with k by lia.
        cbn [sent]. rewrite Htr. cbn. rewrite list_lookup_fmap, Hk. done.
Qed.

Lemma drains_track idxs c s bus :
  tracks c s → Forall (carried c s) bus →
  let (c', bus') := foldl (drain_one parse_error) (c, bus) idxs in
  ∃ s', reaches s s' ∧ tracks c' s' ∧ Forall (carried c' s') bus'.
Proof.
  revert c s bus. induction idxs as [|i idxs IH]; intros c s bus Ht Hb; [by exists s|].
  cbn [foldl]. pose proof (drain_one_tracks c s bus i Ht Hb) as Hd.
  destruct (drain_one parse_error (c, bus) i) as [c1 bus1].
  destruct Hd as (s1 & Hr1 & Ht1 & Hb1). specialize (IH c1 s1 bus1 Ht1 Hb1).
  destruct (foldl _ (c1, bus1) idxs) as [c2 bus2]. destruct IH as (s2 & Hr2 & Ht2 & Hb2).
  exists s2. split; [by etrans|done].
Qed.

Lemma deliver_one_tracks c s m :
  tracks c s → carried c s m →
  ∃ s', reaches s s' ∧ tracks (deliver_one c m) s' ∧ ids (deliver_one c m) = ids c.
Proof.
  destruct m as [[t from] message]. intros Ht (k & id & Hto & Hk). unfold deliver_one.
  destruct (id_to_idx c !! from) as [fi|]; [|by exists s].
  destruct (deliverable c fi t); [|by exists s].
  destruct (tracks_alter c s (ADeliver k) t (OpStep from message)) as (s' & Hr & Ht').
  - done.
  - intros id' Hid'. cbn. rewrite Hk. cbn. congruence.
  - by exists s'.
Qed.

Lemma delivers_track bus c s :
  tracks c s → Forall (carried c s) bus →
  ∃ s', reaches s s' ∧ tracks (foldl deliver_one c bus) s'.
Proof.
  revert c s. induction bus as [|m bus IH]; intros c s Ht Hb; [by exists s|]. cbn [foldl].
  apply Forall_cons in Hb as [Hm Hb].
  destruct (deliver_one_tracks c s m Ht Hm) as (s1 & Hr1 & Ht1 & Hids).
  destruct (IH (deliver_one c m) s1) as (s2 & Hr2 & Ht2); [done| |].
  - eapply Forall_impl; [exact Hb|]. intros m'. apply carried_mono; [done|apply Hr1].
  - exists s2. split; [by etrans|done].
Qed.

Lemma sim_step_tracks c s :
  tracks c s → ∃ s', reaches s s' ∧ tracks (sim_step parse_error c) s'.
Proof.
  intros Ht. unfold sim_step. set (c0 := set_step_count _ c).
  assert (tracks c0 s) as Ht0 by (by apply (tracks_frame c)).
  destruct (ticks_track (seq 0 (length (sim_nodes c0))) c0 s Ht0) as (s1 & Hr1 & Ht1).
  set (c1 := foldl tick_one c0 _) in *. cbv zeta.
  pose proof (drains_track (seq 0 (length (sim_nodes c0))) c1 s1 [] Ht1 (List.Forall_nil _)) as Hd.
  destruct (foldl _ (c1, []) _) as [c2 bus]. destruct Hd as (s2 & Hr2 & Ht2 & Hb).
  destruct (delivers_track bus c2 s2 Ht2 Hb) as (s3 & Hr3 & Ht3).
  exists s3. split; [|done]. by do 2 (etrans; [done|]).
Qed.

Lemma sim_do_tracks o c c' s :
  tracks c s → sim_do parse_error o c = Some c' → ∃ s', reaches s s' ∧ tracks c' s'.
Proof.
  intros Ht Hdo. destruct o as [|idx cmd|idx|idx|idx|idx]; cbn in Hdo.
  { simplify_eq. by apply sim_step_tracks. }
  2-5: unfold crash, restart, disconnect, reconnect, assign in Hdo;
    (case_decide; [|done]); cbn in Hdo; simplify_eq; exists s; split; [done|];
    by apply (tracks_frame c).
  unfold sim_propose in Hdo. destruct (sim_nodes c !! idx) as [n|] eqn:Hn; [|done].
  cbn in Hdo. destruct (tracks_id _ _ _ _ Ht Hn) as [id Hi].
  destruct (tracks_act c s (APropose id (encode cmd)) idx id (OpPropose (encode cmd)) n)
    as (s' & Hr & Ht' & _); [done..|].
  cbn [exec] in Ht'. destruct (propose (encode cmd) n) as [n' r]. cbn in Hdo, Ht'.
  simplify_eq. by exists s'.
Qed.

Lemma script_tracks ops c c' s :
  tracks c s → script parse_error ops c = Some c' → ∃ s', reaches s s' ∧ tracks c' s'.
Proof.
  revert c s. induction ops as [|o ops IH]; intros c s Ht Hs; cbn in Hs.
  { simplify_eq. by exists s. }
  destruct (sim_do parse_error o c) as [c1|] eqn:Hdo; [|done]. cbn in Hs.
  destruct (sim_do_tracks o c c1 s Ht Hdo) as (s1 & Hr1 & Ht1).
  destruct (IH c1 s1 Ht1 Hs) as (s2 & Hr2 & Ht2). exists s2. split; [by etrans|done].
Qed.

(** ** The initial cluster *)
Lemma node_name_inj : Inj (=) (=) node_name.
Proof.
  intros i j Hij. apply of_bytes_inj in Hij. injection Hij as Hij.
  apply (f_equal parse_digits) in Hij. rewrite !parse_digits_to in Hij. injection Hij. lia.
Qed.

Lemma sim_node_of_some entropy n seed i : is_Some (sim_node_of entropy n seed i).
Proof. by eexists. Qed.

Lemma sim_new_some entropy n seed :
  ∃ c, sim_new entropy n seed = Some c ∧ ids c = node_name <$> seq 0 n ∧
    id_to_idx c = list_to_map (zip (node_name <$> seq 0 n) (seq 0 n)) ∧
    length (sim_nodes c) = n ∧
    ∀ i, (i < n)%nat → sim_nodes c !! i = sim_node_of entropy n seed i.
Proof.
  unfold sim_new. cbv zeta.
  destruct (mapM_is_Some_2 (sim_node_of entropy n seed) (seq 0 n)) as [ns Hns].
  { apply Forall_forall. intros i _. apply sim_node_of_some. }
  rewrite Hns. eexists. split; [reflexivity|]. cbn.
  apply mapM_Some in Hns. split_and!; [done..| |].
  - by rewrite <-(Forall2_length _ _ _ Hns), length_seq.
  - intros i Hi. destruct (Forall2_lookup_l _ _ _ i i Hns) as (nd & Hnd & Heq).
    + by apply lookup_seq.
    + by rewrite Hnd.
Qed.

Lemma zip_seq_lookup (l : list NodeId) k id i :
  (id, i) ∈ zip l (seq k (length l)) ↔ (k ≤ i)%nat ∧ l !! (i - k)%nat = Some id.
Proof.
  revert k. induction l as [|x l IH]; intros k; cbn.
  - rewrite lookup_nil. split; [by intros ?%not_elem_of_nil|by intros [??]].
  - rewrite elem_of_cons, IH. split.
    + intros [[= -> ->]|[Hk Hl]]; [by rewrite Nat.sub_diag|].
      split; [lia|]. by replace (i - k)%nat with (S (i - S k)) by lia.
    + intros [Hk Hl]. destruct (decide (i = k)) as [->|Hne].
      * rewrite Nat.sub_diag in Hl. cbn in Hl. left. congruence.
      * right. split; [lia|]. by replace (i - k)%nat with (S (i - S k)) in Hl by lia.
Qed.

(** The network the simulator starts as. *)
Definition initial_sys c : sys := mkSys (list_to_map (zip (ids c) (sim_nodes c))) [].

Lemma sim_new_tracks entropy n seed c :
  sim_new entropy n seed = Some c →
  tracks c (initial_sys c) ∧ fresh_cluster (initial_sys c) ∧ size (nodes (initial_sys c)) = n.
Proof.
  intros Hc. destruct (sim_new_some entropy n seed) as (c' & Hc' & Hids & Hidx & Hlen & Hns).
  rewrite Hc in Hc'. injection Hc' as <-.
  assert (NoDup (ids c)) as Hnd.
  { rewrite Hids. apply NoDup_fmap_2; [apply node_name_inj|apply NoDup_seq]. }
  assert (length (ids c) = length (sim_nodes c)) as Hl
    by (by rewrite Hids, length_fmap, length_seq).
  assert (∀ i id nd, ids c !! i = Some id → sim_nodes c !! i = Some nd →
    nodes (initial_sys c) !! id = Some nd) as Hlook.
  { intros i id nd Hi Hn. apply elem_of_list_to_map_1; [by rewrite fst_zip by lia|].
    apply (list_elem_of_lookup_2 _ i). apply lookup_zip_Some. done. }
  assert (∀ id nd, nodes (initial_sys c) !! id = Some nd →
    ∃ i, ids c !! i = Some id ∧ sim_nodes c !! i = Some nd) as Hback.
  { intros id nd Hn. apply elem_of_list_to_map_2 in Hn.
    apply list_elem_of_lookup_1 in Hn as [i Hi]. exists i. by apply lookup_zip_Some in Hi. }
  assert (size (nodes (initial_sys c)) = length (sim_nodes c)) as Hsz.
  { cbn. rewrite <-size_dom, dom_list_to_map_L, fst_zip by lia.
    rewrite size_list_to_set by done. done. }
  rewrite Hlen in Hl, Hsz.
  split; [|split; [|congruence]].
  - split; [|intros i id Hi|congruence].
    + intros i id. rewrite Hidx, <-Hids, <-Hl.
      rewrite <-elem_of_list_to_map, zip_seq_lookup.
      * rewrite Nat.sub_0_r. split; [|tauto]. intros Hi. split; [lia|done].
      * by rewrite fst_zip by (rewrite length_seq; lia).
    + destruct (lookup_lt_is_Some_2 (sim_nodes c) i) as [nd Hn].
      { rewrite Hlen, <-Hl. by eapply lookup_lt_Some. }
      rewrite Hn. by eapply Hlook.
  - split; [done|]. intros id nd Hn. destruct (Hback _ _ Hn) as (i & Hi & Hni).
    assert (i < n)%nat as Hlt by (rewrite <-Hlen; by eapply lookup_lt_Some).
    rewrite Hns in Hni by done. unfold sim_node_of in Hni.
    rewrite Hids, list_lookup_fmap, lookup_seq_lt in Hi by done. cbn in Hi. simplify_eq.
    do 3 eexists. split; [exact Hni|]. rewrite <-Hids. split; [by apply NoDup_filter|].
    intros j. rewrite list_elem_of_filter. cbn.
    rewrite dom_list_to_map_L, fst_zip, elem_of_list_to_set by lia. done.
Qed.

(** What only the control operations change. *)
Definition fixtures c : list NodeId * gmap NodeId nat := (ids c, id_to_idx c).
Definition switches c : list bool * list bool := (alive c, connected c).

Lemma tick_one_keeps c i : fixtures (tick_one c i) = fixtures c ∧ switches (tick_one c i) = switches c.
Proof. unfold tick_one. by destruct (alive_at c i). Qed.

Lemma drain_one_keeps cb i :
  fixtures (drain_one parse_error cb i).1 = fixtures cb.1 ∧
  switches (drain_one parse_error cb i).1 = switches cb.1.
Proof.
  destruct cb as [c bus]. unfold drain_one, fixtures, switches. destruct (alive_at c i); [|done].
  destruct (sim_nodes c !! i) as [n|]; [|done]. destruct (take_ready n) as [n' ready]. cbn.
  destruct (sim_apply_frame i (ready_committed ready) (set_sim_nodes (<[i:=n']> (sim_nodes c)) c))
    as (-> & -> & _ & -> & ->). done.
Qed.

Lemma deliver_one_keeps c m :
  fixtures (deliver_one c m) = fixtures c ∧ switches (deliver_one c m) = switches c.
Proof.
  destruct m as [[t from] message]. unfold deliver_one.
  destruct (id_to_idx c !! from) as [fi|]; [|done]. by destruct (deliverable c fi t).
Qed.

Lemma sim_step_keeps c :
  fixtures (sim_step parse_error c) = fixtures c ∧ switches (sim_step parse_error c) = switches c.
Proof.
  unfold sim_step. cbv zeta. set (c0 := set_step_count _ c). set (every := seq 0 _).
  destruct (foldl (drain_one parse_error) (foldl tick_one c0 every, []) every) as [c2 bus] eqn:Hd.
  assert (c2 = (foldl (drain_one parse_error) (foldl tick_one c0 every, []) every).1) as ->
    by (by rewrite Hd).
  split.
  - rewrite (foldl_keeps fixtures) by apply deliver_one_keeps.
    rewrite (foldl_keeps (λ cb, fixtures cb.1) (drain_one parse_error)) by apply drain_one_keeps.
    cbn. by rewrite (foldl_keeps fixtures) by apply tick_one_keeps.
  - rewrite (foldl_keeps switches) by apply deliver_one_keeps.
    rewrite (foldl_keeps (λ cb, switches cb.1) (drain_one parse_error)) by apply drain_one_keeps.
    cbn. by rewrite (foldl_keeps switches) by apply tick_one_keeps.
Qed.

Lemma script_fixtures ops c c' :
  script parse_error ops c = Some c' → fixtures c' = fixtures c.
Proof.
  revert c. induction ops as [|o ops IH]; intros c Hs; cbn in Hs; [by simplify_eq|].
  destruct (sim_do parse_error o c) as [c1|] eqn:Hdo; [|done]. rewrite (IH c1 Hs). clear IH Hs.
  destruct o as [|idx cmd|idx|idx|idx|idx]; cbn in Hdo.
  { simplify_eq. apply sim_step_keeps. }
  { unfold sim_propose in Hdo. destruct (sim_nodes c !! idx) as [n|]; [|done]. cbn in Hdo.
    destruct (propose (encode cmd) n). cbn in Hdo. by simplify_eq. }
  all: unfold crash, restart, disconnect, reconnect, assign in Hdo;
    (case_decide; [|done]); cbn in Hdo; by simplify_eq.
Qed.

(** [C25] Every simulation is an execution of the network model: a cluster built
    by [SimCluster::new] starts as fresh nodes that know each other, and
    whatever a test does with it, each of its nodes is then in the state some
    sequence of ticks, deliveries, proposals and drains of the network leads
    to. *)
Theorem simulation_is_network_run entropy n seed :
  ∃ c0 s0, sim_new entropy n seed = Some c0 ∧ fresh_cluster s0 ∧ size (nodes s0) = n ∧
    ∀ ops c, script parse_error ops c0 = Some c →
      length (sim_nodes c) = n ∧
      ∃ acts s, run Free acts s0 = Some s ∧
        ∀ i, (i < n)%nat → nodes s !! node_name i = sim_nodes c !! i.
Proof.
  destruct (sim_new_some entropy n seed) as (c0 & Hc0 & Hids & _).
  destruct (sim_new_tracks _ _ _ _ Hc0) as (Ht & Hf & Hsz).
  exists c0, (initial_sys c0). split_and!; [done..|]. intros ops c Hs.
  destruct (script_tracks ops c0 c _ Ht Hs) as (s & [[acts Hr] _] & Ht').
  pose proof (script_fixtures _ _ _ Hs) as Hfx. injection Hfx as Hids' _. rewrite Hids in Hids'.
  split; [by rewrite <-(tr_length _ _ Ht'), Hids', length_fmap, length_seq|].
  exists acts, s. split; [done|]. intros i Hi. apply (tr_nodes _ _ Ht').
  by rewrite Hids', list_lookup_fmap, lookup_seq_lt.
Qed.
End Refinement.

(** ** Crashes, partitions, leaders *)
Section Faults.
Context `{Rng} `{Json WriteCommand} `{!HashIter string bytes} (parse_error : bytes → string).
Implicit Types (c : SimCluster).

(** What belongs to node [i]. *)
Definition cell c (i : nat) : bool * bool * option RaftNode * option Storage.Memory.MemoryEngine :=
  (alive_at c i, connected_at c i, sim_nodes c !! i, stores c !! i).

(** The effect of a tick and of a drain on it. *)
Definition cell_tick (x : bool * bool * option RaftNode * option Storage.Memory.MemoryEngine) :=
  let '(a, k, n, e) := x in if a then (a, k, tick <$> n, e) else x.

Definition cell_drain (x : bool * bool * option RaftNode * option Storage.Memory.MemoryEngine) :=
  let '(a, k, n, e) := x in
  match a, n with
  | true, Some n =>
      (a, k, Some (take_ready n).1,
       (λ e, foldl (store_item parse_error) e (ready_committed (take_ready n).2)) <$> e)
  | _, _ => x
  end.

Lemma tick_one_cell i c j :
  cell (tick_one c j) i = if decide (j = i) then cell_tick (cell c i) else cell c i.
Proof.
  unfold tick_one, cell, cell_tick. case_decide as Hj.
  - subst j. destruct (alive_at c i) eqn:Ha; [|by rewrite Ha].
    unfold alive_at, connected_at in *. cbn. rewrite Ha. by rewrite list_lookup_alter_eq.
  - destruct (alive_at c j); [|done]. unfold alive_at, connected_at. cbn.
    by rewrite list_lookup_alter_ne.
Qed.

Lemma sim_apply_stores i j cs c :
  stores (foldl (sim_apply parse_error j) c cs) !! i =
  if decide (j = i) then (λ e, foldl (store_item parse_error) e cs) <$> stores c !! i
  else stores c !! i.
Proof.
  revert c. induction cs as [|item cs IH]; intros c; cbn [foldl].
  { case_decide; [by destruct (stores c !! i)|done]. }
  rewrite IH. destruct item as [x cmd|data]; cbn [sim_apply store_item].
  - destruct (decode parse_error cmd); [|done]. cbn. case_decide as Hj.
    + subst j. rewrite list_lookup_alter_eq. by destruct (stores c !! i).
    + by rewrite list_lookup_alter_ne.
  - cbn. case_decide as Hj.
    + subst j. rewrite list_lookup_alter_eq. by destruct (stores c !! i).
    + by rewrite list_lookup_alter_ne.
Qed.

Lemma drain_one_cell i cb j :
  cell (drain_one parse_error cb j).1 i =
  if decide (j = i) then cell_drain (cell cb.1 i) else cell cb.1 i.
Proof.
  destruct cb as [c bus]. unfold drain_one. cbn [fst].
  destruct (alive_at c j) eqn:Ha.
  2:{ case_decide; [|done]. subst j. unfold cell_drain, cell. cbn [fst]. by rewrite Ha. }
  destruct (sim_nodes c !! j) as [n|] eqn:Hn.
  2:{ case_decide; [|done]. subst j. unfold cell_drain, cell. cbn [fst]. by rewrite Ha, Hn. }
  destruct (take_ready n) as [n' ready] eqn:Htr. cbn [fst].
  set (c1 := set_sim_nodes _ c).
  destruct (sim_apply_frame parse_error j (ready_committed ready) c1) as (_ & _ & Hns & Hal & Hco).
  unfold cell, alive_at, connected_at. rewrite Hns, Hal, Hco, sim_apply_stores. subst c1.
  cbn [fst sim_nodes stores alive connected set_sim_nodes].
  unfold alive_at in Ha. case_decide as Hj.
  - subst j. unfold cell_drain. rewrite Ha, Hn, Htr. cbn. rewrite list_lookup_insert_eq; [done|].
    by eapply lookup_lt_Some.
  - by rewrite list_lookup_insert_ne.
Qed.

Lemma delivers_cell i c bus :
  alive_at c i && connected_at c i = false → cell (foldl deliver_one c bus) i = cell c i.
Proof.
  revert c. induction bus as [|[[t from] message] bus IH]; intros c Hi; [done|]. cbn [foldl].
  assert (cell (deliver_one c (t, from, message)) i = cell c i) as Hc.
  { unfold deliver_one. destruct (id_to_idx c !! from) as [fi|]; [|done].
    destruct (deliverable c fi t) eqn:Hd; [|done]. unfold cell, alive_at, connected_at. cbn.
    rewrite list_lookup_alter_ne; [done|]. intros ->. unfold deliverable in Hd.
    destruct (alive_at c i), (connected_at c i), (alive_at c fi), (connected_at c fi);
      discriminate. }
  rewrite IH; [done|]. exact (eq_trans (f_equal (λ x, x.1.1.1 && x.1.1.2) Hc) Hi).
Qed.

(** Crashes and partitions: a step of the simulator leaves a crashed node
    and its store as they are; a live node cut off from the network only
    advances its own clock, drains its outputs and applies what it had
    committed, exactly as the driver would. *)
Theorem faults_isolate c i n e :
  sim_nodes c !! i = Some n → stores c !! i = Some e →
  let c' := sim_step parse_error c in
  (alive_at c i = false → sim_nodes c' !! i = Some n ∧ stores c' !! i = Some e) ∧
  (alive_at c i = true → connected_at c i = false →
     sim_nodes c' !! i = Some (take_ready (tick n)).1 ∧
     stores c' !! i =
       Some (foldl (store_item parse_error) e (ready_committed (take_ready (tick n)).2))).
Proof.
  intros Hn He c'.
  assert (alive_at c i && connected_at c i = false →
    cell c' i = cell_drain (cell_tick (cell c i))) as Hcell.
  { intros Hoff. subst c'. unfold sim_step. cbv zeta. set (c0 := set_step_count _ c).
    assert (cell c0 i = cell c i) as Hc0 by done.
    assert (i ∈ seq 0 (length (sim_nodes c0))) as Hin.
    { apply elem_of_seq. split; [lia|]. by eapply lookup_lt_Some. }
    assert (NoDup (seq 0 (length (sim_nodes c0)))) as Hnd by apply NoDup_seq.
    set (every := seq 0 (length (sim_nodes c0))) in *.
    pose proof (foldl_target (λ cb, cell cb.1 i) cell_drain (drain_one parse_error) i every
      (foldl tick_one c0 every, []) (drain_one_cell i) Hnd) as Hd.
    rewrite (decide_True _ _ Hin) in Hd. cbn [fst] in Hd.
    rewrite (foldl_target (λ c, cell c i) cell_tick tick_one i every c0 (tick_one_cell i) Hnd),
      (decide_True _ _ Hin), Hc0 in Hd.
    destruct (foldl (drain_one parse_error) _ every) as [c2 bus]. cbn [fst] in Hd.
    rewrite delivers_cell; [exact Hd|].
    assert (∀ x : bool * bool * option RaftNode * option Storage.Memory.MemoryEngine,
      (cell_drain (cell_tick x)).1.1 = x.1.1) as Hk.
    { intros [[[[] k] [nd|]] en]; done. }
    assert ((cell c2 i).1.1 = (cell c i).1.1) as Hs by (rewrite Hd; apply Hk).
    exact (eq_trans (f_equal (λ x, x.1 && x.2) Hs) Hoff). }
  unfold cell, cell_tick in Hcell. rewrite Hn, He in Hcell. split.
  - intros Ha. rewrite Ha in Hcell. specialize (Hcell eq_refl). by injection Hcell.
  - intros Ha Hk. rewrite Ha, Hk in Hcell. specialize (Hcell eq_refl). by injection Hcell.
Qed.

(** ** The leader a test sees *)
Lemma foldl_max_spec ts (t : N) :
  foldl N.max t ts ∈ t :: ts ∧ ∀ x, x ∈ t :: ts → x <= foldl N.max t ts.
Proof.
  revert t. induction ts as [|u ts IH]; intros t; cbn [foldl].
  - split; [set_solver|]. intros x ->%list_elem_of_singleton. done.
  - destruct (IH (N.max t u)) as [Hin Hle]. split.
    + apply elem_of_cons in Hin as [->|Hin]; [|set_solver].
      destruct (N.max_spec t u) as [[_ ->]|[_ ->]]; set_solver.
    + intros x Hx. pose proof (Hle (N.max t u) ltac:(set_solver)).
      apply elem_of_cons in Hx as [->|Hx]; [lia|].
      apply elem_of_cons in Hx as [->|Hx]; [lia|]. apply Hle. set_solver.
Qed.

Lemma max_term_spec c t :
  max_term c = Some t ↔
  (∃ i n, alive_at c i = true ∧ sim_nodes c !! i = Some n ∧ current_term n = t) ∧
  (∀ i n, alive_at c i = true → sim_nodes c !! i = Some n → current_term n <= t).
Proof.
  set (terms := omap (λ i, if alive_at c i then current_term <$> sim_nodes c !! i else None)
                 (seq 0 (length (sim_nodes c)))).
  assert (∀ x, x ∈ terms ↔ ∃ i n, alive_at c i = true ∧ sim_nodes c !! i = Some n ∧
    current_term n = x) as Hin.
  { intros x. unfold terms. rewrite list_elem_of_omap. split.
    - intros (i & _ & Hi). destruct (alive_at c i) eqn:Ha; [|done].
      destruct (sim_nodes c !! i) as [n|] eqn:Hn; [|done]. cbn in Hi. simplify_eq. eauto.
    - intros (i & n & Ha & Hn & <-). exists i. rewrite Ha, Hn. split; [|done].
      apply elem_of_seq. split; [lia|]. by eapply lookup_lt_Some. }
  unfold max_term. fold terms. destruct terms as [|u ts].
  - split; [done|]. intros [Hex _]. apply Hin in Hex. by apply not_elem_of_nil in Hex.
  - destruct (foldl_max_spec ts u) as [Hmem Hle]. split.
    + intros [= <-]. split; [by apply Hin|]. intros i n Ha Hn. apply Hle, Hin. eauto.
    + intros [Hex Hub]. f_equal. apply Hin in Hex. apply Hle in Hex.
      apply Hin in Hmem as (i & n & Ha & Hn & Ht). specialize (Hub i n Ha Hn). lia.
Qed.

Lemma leads_at_spec c t i :
  leads_at c t i = true ↔
  alive_at c i = true ∧ ∃ n, sim_nodes c !! i = Some n ∧ role n = Leader ∧ current_term n = t.
Proof.
  unfold leads_at. rewrite andb_true_iff. destruct (sim_nodes c !! i) as [n|]; [|naive_solver].
  rewrite andb_true_iff, !bool_decide_eq_true. naive_solver.
Qed.

(** [SimCluster::leader] names node [i] exactly when [i] is a live leader,
    no live node is in a later term, and no other live node leads in its
    term. *)
Theorem sim_leader_spec c i :
  sim_leader c = Some i ↔
  ∃ n, sim_nodes c !! i = Some n ∧ alive_at c i = true ∧ role n = Leader ∧
    ∀ j nj, sim_nodes c !! j = Some nj → alive_at c j = true →
      current_term nj <= current_term n ∧
      (role nj = Leader → current_term nj = current_term n → j = i).
Proof.
  assert (∀ t, (∀ j, leads_at c t j = true ↔ j = i) ↔
    filter (λ i, leads_at c t i = true) (seq 0 (length (sim_nodes c))) = [i]) as Hfilter.
  { intros t. split.
    - intros Hj. apply Permutation_singleton_r, NoDup_Permutation;
        [apply NoDup_filter, NoDup_seq|apply NoDup_singleton|].
      intros j. rewrite list_elem_of_filter, list_elem_of_singleton, Hj. split; [by intros [? _]|].
      intros ->. split; [done|]. apply elem_of_seq. split; [lia|].
      assert (leads_at c t i = true) as Hl by (by apply Hj).
      apply leads_at_spec in Hl as (_ & n & Hn & _). by eapply lookup_lt_Some.
    - intros Hf j. rewrite <-(list_elem_of_singleton j i), <-Hf, list_elem_of_filter.
      split; [|by intros [? _]]. intros Hl. split; [done|]. apply elem_of_seq. split; [lia|].
      apply leads_at_spec in Hl as (_ & n & Hn & _). by eapply lookup_lt_Some. }
  unfold sim_leader. split.
  - destruct (max_term c) as [t|] eqn:Ht; [|done]. cbn. apply max_term_spec in Ht as [_ Hub].
    intros Hf. assert (∀ j, leads_at c t j = true ↔ j = i) as Hl.
    { apply Hfilter. by destruct (filter _ _) as [|x [|]]; simplify_eq. }
    assert (leads_at c t i = true) as Hi by (by apply Hl).
    apply leads_at_spec in Hi as (Ha & n & Hn & Hr & Hct). exists n. split_and!; [done..|].
    intros j nj Hj Haj. rewrite Hct. split; [by eapply Hub|]. intros Hrj Htj. apply Hl.
    apply leads_at_spec. eauto.
  - intros (n & Hn & Ha & Hr & Hall).
    assert (max_term c = Some (current_term n)) as ->.
    { apply max_term_spec. split; [eauto|]. intros j nj Haj Hj. by apply (Hall j). }
    cbn. rewrite (proj1 (Hfilter (current_term n))); [done|]. intros j.
    rewrite leads_at_spec. split; [|intros ->; eauto].
    intros (Haj & nj & Hj & Hrj & Htj). by apply (Hall j nj).
Qed.
End Faults.

(** ** A concrete cluster: ["n0"] is down, ["n1"] cut off *)
Section Example.
#[local] Existing Instance low_rng.
#[local] Existing Instance DemoCodec.demo_json.
#[local] Instance sim_iter : HashIter string bytes := canonical_iter.

Definition split_cluster : SimCluster :=
  mkSim [fresh_node ["n0"; "n1"] "n0"; fresh_node ["n0"; "n1"] "n1"]
    [Storage.Memory.new; Storage.Memory.new] [false; true] [true; false] ["n0"; "n1"]
    (list_to_map [("n0", 0%nat); ("n1", 1%nat)]) 0.

Lemma faults_isolate_witness :
  let c' := sim_step (λ _, "") split_cluster in
  sim_nodes c' !! 0%nat = Some (fresh_node ["n0"; "n1"] "n0") ∧
  sim_nodes c' !! 1%nat = Some (take_ready (tick (fresh_node ["n0"; "n1"] "n1"))).1.
Proof.
  split.
  - apply (faults_isolate (λ _, "") split_cluster 0%nat (fresh_node ["n0"; "n1"] "n0")
      Storage.Memory.new eq_refl eq_refl). reflexivity.
  - apply (faults_isolate (λ _, "") split_cluster 1%nat (fresh_node ["n0"; "n1"] "n1")
      Storage.Memory.new eq_refl eq_refl); reflexivity.
Defined.
End Example.
