(* ===== verification/Client.v ===== *)
(** * Client connections ([src/net/client.rs], [Handle] of [src/server.rs])

    [dispatch] turns a command into a reply through a [Handle] on the driver;
    [handle_connection] is the read-decode-dispatch-reply loop over the chunks
    that the socket delivers. Here one connection runs beside a driver that
    makes whole turns while it waits; [Sessions.v] has many connections and
    lets them see turns half done. *)

From S2P Require Import Prelude Text Errors Resp Command Storage Apply RaftState RaftNode Server.
From S2P Require Metrics.
Local Open Scope N_scope.

Section Client.
Context `{Rng} {E : Type} `{StorageEngine E} `{Json WriteCommand}.
Context `{!HashIter N (list waiter)} `{Alloc}.
Context (parse_error : bytes → string) (frame_debug : Frame → string).

(** ** The handle

    A client sees the driver, whether its task is still running, the events
    that will reach it while the client waits, and the next free channel. *)
Record World := mkWorld {
  driver : Driver E;
  alive : bool;
  schedule : list event;
  next_channel : waiter;
  members : list (string * string);
}.

Definition set_driver (d : Driver E) (w : World) : World :=
  mkWorld d (alive w) (schedule w) (next_channel w) (members w).

(** The driver takes the request and its next events until the channel has an
    answer; [None] when the schedule ends first: the client is still waiting. *)
Fixpoint await (ch : waiter) (evs : list event) (d : Driver E)
    : Driver E * list event * option ProposeOutcome :=
  match snd <$> list_find (λ r, r.1 = ch) (replies d) with
  | Some r => (d, evs, Some r.2)
  | None =>
      match evs with
      | [] => (d, [], None)
      | ev :: evs => await ch evs (turn parse_error ev d)
      end
  end.

(** [Handle::propose] *)
Definition propose (command : WriteCommand) (w : World) : World * option ProposeOutcome :=
  if alive w then
    let ch := next_channel w in
    let d := turn parse_error (EvRequest (DPropose command ch)) (driver w) in
    let '(d, evs, outcome) := await ch (schedule w) d in
    (mkWorld d (alive w) evs (S ch) (members w), outcome)
  else (w, Some (OutNotLeader None)).

(** [Handle::status]: answered in the turn that handles the request. *)
Definition handle_status (w : World) : World * option ClusterStatus :=
  if alive w then
    let ch := next_channel w in
    let d := turn parse_error (EvRequest (DStatus ch)) (driver w) in
    (mkWorld d (alive w) (schedule w) (S ch) (members w),
     (λ r, r.2.2) <$> list_find (λ r, r.1 = ch) (statuses d))
  else (w, None).

Definition count (incr : Metrics.MetricsInner → Metrics.MetricsInner) (w : World) : World :=
  set_driver (set_metrics (incr (metrics (driver w))) (driver w)) w.

(** ** Replies *)
Definition not_leader_frame (leader : option string) : Frame :=
  ErrorFrame ("ERR " +:+ client_message (Errors.NotLeader leader)).

Definition show_N (n : N) : string := of_bytes (N_to_bytes n).

Definition status_line (s : ClusterStatus) : string :=
  "id=" +:+ st_id s +:+ " role=" +:+ st_role s +:+ " term=" +:+ show_N (st_term s) +:+
  " leader=" +:+ default "none" (st_leader s) +:+ " commit=" +:+ show_N (st_commit_index s) +:+
  " size=" +:+ show_N (N.of_nat (st_cluster_size s)).

(** [None] when the reply never comes. *)
Definition dispatch (command : Command) (w : World) : World * option Frame :=
  match command with
  | Ping (Some payload) => (w, Some (Bulk payload))
  | Ping None => (w, Some (Simple "PONG"))
  | Get key =>
      let w := count Metrics.incr_gets w in
      (w, Some match Storage.get (storage (driver w)) key with
               | Some value => Bulk value
               | None => Null
               end)
  | Command.Set_ key value =>
      let w := count Metrics.incr_sets w in
      let (w, outcome) := propose (Apply.Set_ key value) w in
      (w, (λ o, match o with
                | OutCommitted => Simple "OK"
                | OutNotLeader leader => not_leader_frame leader
                end) <$> outcome)
  | Command.Del keys =>
      let w := count Metrics.incr_dels w in
      let (w, outcome) := propose (Apply.Del keys) w in
      (w, (λ o, match o with
                | OutCommitted => Integer 1
                | OutNotLeader leader => not_leader_frame leader
                end) <$> outcome)
  | Command.ClusterStatus =>
      let (w, st) := handle_status w in
      (w, Some match st with
               | Some s => Bulk (as_bytes (status_line s))
               | None => ErrorFrame "ERR driver unavailable"
               end)
  | ClusterMembers =>
      (w, Some (Array ((λ m, Bulk (as_bytes (m.1 +:+ "@" +:+ m.2))) <$> members w)))
  | CommandDocs => (w, Some (Array []))
  end.

(** The body of the loop after a frame was decoded. *)
Definition respond (frame : Frame) (w : World) : World * option Frame :=
  match from_frame frame_debug frame with
  | Ok command => dispatch command w
  | Err e => (w, Some (ErrorFrame ("ERR " +:+ client_message e)))
  end.

(** ** The connection loop *)

(** What [read_buf] returns: bytes ([[]] at the end of the stream) or an error. *)
Inductive read_result :=
  | Chunk (b : bytes)
  | ReadFailed (message : string).

Inductive conn_end :=
  | Finished (r : Result ())
  | Crashed
  | Waiting
  | NoFuel.

Fixpoint serve (fuel : nat) (buf : bytes) (reads : list read_result) (w : World)
    : World * bytes * conn_end :=
  match fuel with
  | O => (w, [], NoFuel)
  | S fuel =>
      match Resp.decode buf with
      | Decoded (Err e) _ => (w, [], Finished (Err e))
      | DecodePanic => (w, [], Crashed)
      | DecodeDiverges => (w, [], NoFuel)
      | Decoded (Ok None) buf =>
          match reads with
          | [] | Chunk [] :: _ => (w, [], Finished (Ok ()))
          | Chunk b :: reads => serve fuel (buf ++ b) reads w
          | ReadFailed m :: _ => (w, [], Finished (Err (Io m)))
          end
      | Decoded (Ok (Some frame)) buf =>
          match respond frame w with
          | (w, None) => (w, [], Waiting)
          | (w, Some reply) =>
              let '(w, out, e) := serve fuel buf reads w in
              (w, Resp.encode reply [] ++ out, e)
          end
      end
  end.

Definition read_size (r : read_result) : nat :=
  match r with Chunk b => S (length b) | ReadFailed _ => 1 end.

(** Every iteration takes at least one byte or one read. *)
Definition connection_fuel (reads : list read_result) : nat :=
  S (sum_list (read_size <$> reads)).

Definition handle_connection (reads : list read_result) (w : World) : World * bytes * conn_end :=
  serve (connection_fuel reads) [] reads w.
End Client.
