(* ===== verification/ClientProps.v ===== *)
(** * Properties of client connections

    One reply per request in order whatever the chunking, termination of the
    connection loop, the end-to-end behaviour of a single-node server, and the
    replies that break the framing. *)

From S2P Require Import Prelude Text Errors Resp RespTheory RespProps Command Storage Apply RaftLog RaftState RaftNode NodeTheory NodeProps Server ServerTheory ServerProps Client.
From S2P Require Metrics.
Local Open Scope N_scope.

Section Connection.
Context `{Rng} {E : Type} `{StorageEngine E} `{Json WriteCommand}.
Context `{!HashIter N (list waiter)} `{Alloc}.
Context (parse_error : bytes → string) (frame_debug : Frame → string).
Implicit Types (w : World (E := E)) (reads : list read_result) (cs : list Command).

Abbreviation respond := (respond parse_error frame_debug).
Abbreviation serve := (serve parse_error frame_debug).
Abbreviation dispatch := (dispatch parse_error).

Lemma serve_fuel fuel buf reads w :
  (length buf + sum_list (read_size <$> reads) < fuel)%nat →
  (serve fuel buf reads w).2 ≠ NoFuel.
Proof.
  revert buf reads w. induction fuel as [|fuel IH]; intros buf reads w Hf; [lia|].
  cbn [Client.serve]. pose proof (decode_stable buf []) as Hst.
  destruct (Resp.decode buf) as [[[f|]|e] rest| |] eqn:Hd; try done.
  - destruct (respond f w) as [w' [reply|]]; [|done].
    assert (length rest < length buf)%nat as Hlt by by eapply decode_shrinks.
    specialize (IH rest reads w' ltac:(lia)).
    by destruct (serve fuel rest reads w') as [[w'' out] e].
  - apply decode_none_same in Hd as ->.
    destruct reads as [|[[|x b]|m] reads]; try done.
    apply IH. cbn in Hf. rewrite length_app. cbn. lia.
Qed.

(** ** Pipelines *)

Definition request_bytes (c : Command) : bytes := Resp.encode (Array (Bulk <$> request c)) [].

Lemma request_bytes_nonempty c : (0 < length (request_bytes c))%nat.
Proof.
  unfold request_bytes. cbn [Resp.encode]. rewrite encode_items, !length_app. cbn. lia.
Qed.

(** Answering the commands one after the other, until one is never answered. *)
Fixpoint answer_all cs w : World * list Frame * conn_end :=
  match cs with
  | [] => (w, [], Finished (Ok ()))
  | c :: cs =>
      match dispatch c w with
      | (w, Some f) => let '(w, fs, e) := answer_all cs w in (w, f :: fs, e)
      | (w, None) => (w, [], Waiting)
      end
  end.

Lemma answer_all_ends cs w :
  let '(_, fs, e) := answer_all cs w in
  e = Finished (Ok ()) ∧ length fs = length cs ∨ e = Waiting ∧ (length fs < length cs)%nat.
Proof.
  revert w. induction cs as [|c cs IH]; intros w; cbn [answer_all]; [by left|].
  destruct (dispatch c w) as [w1 [f|]]; [|right; cbn; split; [done|lia]].
  specialize (IH w1). destruct (answer_all cs w1) as [[w2 fs] e].
  destruct IH as [[-> Hl]|[-> Hl]]; [left|right]; cbn; split; [done|lia|done|lia].
Qed.

Definition sendable (c : Command) : bool :=
  command_ok c && wire_ok (Array (Bulk <$> request c)).

Lemma app_split {A} (a b c d : list A) :
  a ++ b = c ++ d → (∃ k, a = c ++ k ∧ d = k ++ b) ∨ (∃ k, k ≠ [] ∧ c = a ++ k ∧ b = k ++ d).
Proof.
  revert c. induction a as [|x a IH]; intros [|y c] Heq; cbn in *.
  - left. by exists [].
  - right. by exists (y :: c).
  - left. by exists (x :: a).
  - injection Heq as -> Heq. destruct (IH c Heq) as [(k & -> & ->)|(k & ? & -> & ->)]; eauto.
Qed.

Lemma serve_pipeline fuel buf chunks cs w fs w' e :
  Forall (λ c, sendable c = true) cs → Forall (.≠ []) chunks →
  buf ++ concat chunks = concat (request_bytes <$> cs) →
  (length buf + sum_list (read_size <$> (Chunk <$> chunks)) < fuel)%nat →
  answer_all cs w = (w', fs, e) →
  serve fuel buf (Chunk <$> chunks) w = (w', concat ((λ f, Resp.encode f []) <$> fs), e).
Proof.
  revert buf chunks cs w fs. induction fuel as [|fuel IH]; intros buf chunks cs w fs; [lia|].
  intros Hcs Hch Heq Hf Hans. cbn [Client.serve]. destruct cs as [|c cs]; cbn [fmap list_fmap concat] in Heq.
  - apply app_eq_nil in Heq as [-> Hnil]. destruct chunks as [|b chunks].
    + cbn in Hans. by simplify_eq.
    + apply Forall_cons in Hch as [Hb _]. apply app_eq_nil in Hnil as [? _]. done.
  - apply Forall_cons in Hcs as [Hc Hcs]. unfold sendable in Hc.
    apply andb_true_iff in Hc as [Hok Hwire].
    apply app_split in Heq as [(k & -> & Heq)|(k & Hk & Henc & Heq)].
    + unfold request_bytes at 1. rewrite decode_encode by done.
      unfold Client.respond. rewrite from_frame_request by done.
      cbn [answer_all] in Hans. destruct (dispatch c w) as [w1 [f|]]; [|by simplify_eq].
      destruct (answer_all cs w1) as [[w2 fs'] e'] eqn:Hrest. simplify_eq.
      rewrite (IH k chunks cs w1 fs'); try done.
      pose proof (request_bytes_nonempty c). rewrite length_app in Hf. lia.
    + assert (Resp.decode buf = Decoded (Ok None) buf) as -> by by eapply decode_partial.
      destruct chunks as [|b chunks]; cbn [concat] in Heq; [by destruct k|].
      apply Forall_cons in Hch as [Hb Hch]. cbn [fmap list_fmap]. destruct b as [|x b]; [done|].
      apply (IH (buf ++ x :: b) chunks (c :: cs)); try done.
      * by constructor; [unfold sendable; rewrite Hok, Hwire|].
      * rewrite fmap_cons. cbn [concat]. rewrite Henc, <-!app_assoc. by f_equal.
      * cbn in Hf |- *. rewrite length_app. cbn. lia.
Qed.
End Connection.

(** ** A server that is its own cluster *)
Section Alone.
Context `{Rng} {E : Type} `{EngineLaws E} `{JsonLaws WriteCommand}.
Context `{!HashIter N (list waiter)} `{Alloc}.
Context (parse_error : bytes → string) (frame_debug : Frame → string).
Implicit Types (d : Driver E) (w : World (E := E)).

(** Leading alone, everything applied, nobody waiting (so that it does not
    matter what the open channels are for), room in the log for [k] more. *)
Record alone (k : N) d : Prop := {
  al_ok cmd_of : driver_ok parse_error cmd_of d;
  al_idle (ch : waiter) : ch ∉ waiting (waiters d);
  al_role : role (node d) = Leader;
  al_peers : peers (node d) = [];
  al_commit : commit_index (node d) = last_index (log (node d));
  al_applied : last_applied (node d) = last_index (log (node d));
  al_bound : last_index (log (node d)) + k < u64_max;
}.

(** The event of a write. *)
Abbreviation write_event cmd ch := (EvRequest (DPropose cmd ch)).

Lemma alone_room k d : alone (k + 1) d → last_index (log (node d)) + 1 < u64_max.
Proof. intros Hd. pose proof (al_bound _ _ Hd). lia. Qed.

Lemma alone_event_ok k d cmd ch :
  alone (k + 1) d → event_ok (λ _, cmd) d (write_event cmd ch).
Proof. intros Hd. split; [by eapply alone_room|done]. Qed.

(** The node after the proposal and before the drain. *)
Lemma alone_mid k d cmd ch :
  alone (k + 1) d →
  let d1 := handle_event (write_event cmd ch) d in
  role (node d1) = Leader ∧
  commit_index (node d1) = last_index (log (node d)) + 1 ∧
  last_index (log (node d1)) = last_index (log (node d)) + 1 ∧
  delivered_items d1 = [CommittedCommand (last_index (log (node d)) + 1) (encode cmd)].
Proof.
  intros Hd d1. pose proof (al_ok _ _ Hd (λ _, cmd)) as Hok. pose proof (dok_node _ _ _ Hok) as Hn.
  assert (node d1 = (RaftNode.propose (encode cmd) (node d)).1) as Hd1.
  { subst d1. rewrite handle_event_node. done. }
  destruct (propose_leader (node d) (encode cmd) (ok_log _ Hn) (alone_room _ _ Hd) (al_role _ _ Hd))
    as (_ & Hr & Hl & Hg & _).
  pose proof (propose_alone (node d) (encode cmd) Hn (alone_room _ _ Hd) (al_role _ _ Hd)
    (al_peers _ _ Hd) (al_commit _ _ Hd)) as Hci.
  rewrite <-Hd1 in *. split_and!; try done.
  destruct (drain_eq parse_error (λ _, cmd) d1) as (l & _ & _ & ->).
  { apply handle_event_mid; [done|by eapply alone_event_ok]. }
  pose proof (propose_applied (encode cmd) (node d)) as Hap. rewrite <-Hd1 in Hap.
  injection Hap as Hla _ Hq. rewrite Hq, (dok_queue _ _ _ Hok). cbn [app].
  unfold pending. rewrite Hci, Hla, (al_applied _ _ Hd).
  replace (N.to_nat _) with 1%nat by lia. cbn [deliveries]. rewrite app_nil_r.
  unfold delivery. rewrite Hg. cbn. rewrite decide_False; [done|]. apply encode_nonempty.
Qed.

Lemma find_reply (old new : list (waiter * ProposeOutcome)) ch :
  ch ∉ old.*1 → ch ∈ new.*1 → (∀ o, (ch, o) ∈ new → o = OutCommitted) →
  snd <$> list_find (λ r, r.1 = ch) (old ++ new) = Some (ch, OutCommitted).
Proof.
  intros Hold Hnew Hall. destruct (list_find _ _) as [[i [ch' o]]|] eqn:Hf; cbn.
  - apply list_find_Some in Hf as (Hl & Heq & _). cbn in Heq. subst ch'. do 2 f_equal.
    apply list_elem_of_lookup_2 in Hl. apply elem_of_app in Hl as [Hl|Hl]; [|by apply Hall].
    destruct Hold. apply list_elem_of_fmap. by exists (ch, o).
  - apply list_find_None in Hf. apply list_elem_of_fmap in Hnew as (r & -> & Hr).
    rewrite Forall_forall in Hf. exfalso. apply (Hf r); [|done]. apply elem_of_app. by right.
Qed.

Lemma turn_eq ev d : turn parse_error ev d = process_ready parse_error (handle_event ev d).
Proof. done. Qed.

Lemma alone_mid_replies k d cmd ch :
  alone (k + 1) d → replies (handle_event (write_event cmd ch) d) = replies d.
Proof.
  intros Hd. destruct (propose_leader (node d) (encode cmd)
    (ok_log _ (dok_node _ _ _ (al_ok _ _ Hd (λ _, cmd)))) (alone_room _ _ Hd) (al_role _ _ Hd)) as [Hx _].
  cbn [handle_event handle_request].
  by destruct (RaftNode.propose (encode cmd) (node d)) as [n [i|l]].
Qed.

Lemma alone_nobody_waits k d cmd ch (ch' : waiter) :
  alone (k + 1) d →
  ch' ∉ waiting (waiters (process_ready parse_error (handle_event (write_event cmd ch) d))).
Proof.
  intros Hd. destruct (alone_mid k d cmd ch Hd) as (Hr & Hci & Hli & _).
  pose proof (handle_event_mid parse_error (λ _, cmd) _ d (al_ok _ _ Hd _)
    (alone_event_ok k d cmd ch Hd)) as Hmid.
  revert Hmid Hr Hci Hli. generalize (handle_event (write_event cmd ch) d). intros d1 Hmid Hr Hci Hli Hw.
  destruct (process_ready_spec parse_error d1) as (_ & _ & _ & Hws). rewrite Hws in Hw.
  unfold is_leader in Hw. case_bool_decide; [|by apply not_elem_of_nil in Hw].
  unfold waiting in Hw. apply list_elem_of_In, in_concat in Hw as (ws & Hl & Hin).
  apply list_elem_of_In in Hl, Hin.
  apply list_elem_of_fmap in Hl as ([i ws'] & -> & Hi). apply elem_of_map_to_list in Hi.
  destruct (process_ready_waiters parse_error (λ _, cmd) d1 i _ ch' Hmid Hr Hi Hin) as (Hlt & e & He & _).
  assert (is_Some (get (log (node d1)) i)) as Hs by done.
  apply get_is_Some in Hs; [lia|apply Hmid].
Qed.

Lemma alone_turn_store k d cmd ch :
  alone (k + 1) d →
  storage (turn parse_error (write_event cmd ch) d) = (apply cmd (storage d)).1.
Proof.
  intros Hd. destruct (alone_mid k d cmd ch Hd) as (_ & _ & _ & Hit).
  rewrite turn_eq.
  destruct (process_ready_spec parse_error (handle_event (write_event cmd ch) d))
    as (_ & -> & _ & _).
  unfold delivered_items in Hit. rewrite Hit, handle_event_storage. cbn [foldl store_item].
  unfold decode, encode. by rewrite from_to.
Qed.

Lemma reply_found (old new : list (waiter * ProposeOutcome)) (ws ws' : list waiter) ch :
  (old ++ new).*1 ++ ws' ≡ₚ (old.*1 ++ ws) ++ [ch] → ch ∉ old.*1 → ch ∉ ws' →
  (∀ o, (ch, o) ∈ new → o = OutCommitted) →
  snd <$> list_find (λ r, r.1 = ch) (old ++ new) = Some (ch, OutCommitted).
Proof.
  intros Hacc Hold Hws Hnew. apply find_reply; [done| |done].
  assert (ch ∈ (old.*1 ++ ws) ++ [ch]) as Ha.
  { apply elem_of_app. right. by apply list_elem_of_singleton. }
  rewrite <-Hacc, fmap_app, !elem_of_app in Ha. tauto.
Qed.

Lemma alone_turn_reply k d cmd ch :
  alone (k + 1) d → ch ∉ (replies d).*1 →
  snd <$> list_find (λ r, r.1 = ch) (replies (turn parse_error (write_event cmd ch) d)) =
    Some (ch, OutCommitted).
Proof.
  intros Hd Hfresh. destruct (alone_mid k d cmd ch Hd) as (Hr & _).
  pose proof (turn_account parse_error (write_event cmd ch) d) as Hacc.
  pose proof (alone_nobody_waits k d cmd ch ch Hd) as Hnw.
  pose proof (alone_mid_replies k d cmd ch Hd) as Hr1.
  destruct (process_ready_replies parse_error _ Hr) as (new & Hrep & Hnew).
  rewrite turn_eq in Hacc |- *.
  revert Hacc Hnw Hrep. generalize (process_ready parse_error (handle_event (write_event cmd ch) d)).
  intros d' Hacc Hnw Hrep. rewrite Hr1 in Hrep. unfold account in Hacc. rewrite Hrep in Hacc |- *.
  apply (reply_found _ _ _ _ _ Hacc); [done..|]. intros o Ho. by destruct (Hnew _ _ Ho).
Qed.

Lemma driver_ok_any c1 c2 d :
  driver_ok parse_error c1 d → (∀ ch : waiter, ch ∉ waiting (waiters d)) →
  driver_ok parse_error c2 d.
Proof.
  intros [Hn Hq Hf _ Hs] Hw. split; try done.
  intros i ws ch Hi Hin. exfalso. apply (Hw ch). unfold waiting.
  apply list_elem_of_In, in_concat. exists ws. split; [|by apply list_elem_of_In].
  apply list_elem_of_In, list_elem_of_fmap. exists (i, ws). split; [done|].
  by apply elem_of_map_to_list.
Qed.

Lemma alone_turn k d cmd ch :
  alone (k + 1) d → alone k (turn parse_error (write_event cmd ch) d).
Proof.
  intros Hd. rewrite turn_eq. destruct (alone_mid k d cmd ch Hd) as (Hr & Hci & Hli & _).
  pose proof (λ ch', alone_nobody_waits k d cmd ch ch' Hd) as Hnw.
  pose proof (handle_event_mid parse_error (λ _, cmd) _ d (al_ok _ _ Hd _)
    (alone_event_ok k d cmd ch Hd)) as Hmid.
  assert (peers (node (handle_event (write_event cmd ch) d)) = []) as Hp.
  { rewrite handle_event_node. rewrite <-(al_peers _ _ Hd). apply propose_identity. }
  pose proof (al_bound _ _ Hd) as Hb.
  revert Hr Hci Hli Hnw Hmid Hp. generalize (handle_event (write_event cmd ch) d).
  intros d1 Hr Hci Hli Hnw Hmid Hp.
  pose proof (process_ready_ok _ _ _ Hmid) as Hok.
  destruct (process_ready_spec parse_error d1) as (Hn & _).
  destruct (drain_eq parse_error (λ _, cmd) d1 Hmid) as (l & Hn' & Hl & _). rewrite Hn' in Hn.
  assert (last_index l = last_index (log (node d1))) as Hll.
  { destruct Hl as [->| ->]; [done|]. apply compact_last_index, Hmid. }
  split.
  - intros cmd_of. by eapply driver_ok_any.
  - done.
  - by rewrite Hn.
  - by rewrite Hn.
  - rewrite Hn. cbn. by rewrite Hll, Hci, Hli.
  - rewrite Hn. cbn. by rewrite Hll, Hci, Hli.
  - rewrite Hn. cbn. rewrite Hll, Hli. lia.
Qed.

(** ** The world of a client of such a server *)
Record alone_world (k : N) w : Prop := {
  aw_alone : alone k (driver w);
  aw_alive : alive w = true;
  aw_fresh : Forall (λ ch, (ch < next_channel w)%nat) (replies (driver w)).*1;
}.

Lemma alone_world_count k w incr : alone_world k w → alone_world k (count incr w).
Proof.
  intros [[Hok ? ? ? ? ? ?] ? ?]. split; [split|..]; try done.
  intros cmd_of. destruct (Hok cmd_of). by split.
Qed.

Lemma alone_fresh k w : alone_world k w → next_channel w ∉ (replies (driver w)).*1.
Proof.
  intros Hw Hin. pose proof (aw_fresh _ _ Hw) as Hf. rewrite Forall_forall in Hf.
  specialize (Hf _ Hin). lia.
Qed.

Lemma alone_propose k w cmd :
  alone_world (k + 1) w →
  ∃ w', Client.propose parse_error cmd w = (w', Some OutCommitted) ∧ alone_world k w' ∧
    storage (driver w') = (apply cmd (storage (driver w))).1.
Proof.
  intros Hw. destruct Hw as [Ha Hal Hf] eqn:Hweq. clear Hweq.
  pose proof (alone_fresh _ _ Hw) as Hfresh.
  pose proof (alone_turn_reply k _ cmd _ Ha Hfresh) as Hrep.
  pose proof (alone_turn k _ cmd (next_channel w) Ha) as Ha'.
  pose proof (alone_turn_store k _ cmd (next_channel w) Ha) as Hst.
  pose proof (turn_account parse_error (write_event cmd (next_channel w)) (driver w)) as Hacc.
  unfold Client.propose. rewrite Hal.
  revert Hrep Ha' Hst Hacc.
  generalize (turn parse_error (write_event cmd (next_channel w)) (driver w)).
  intros d' Hrep Ha' Hst Hacc.
  assert (await parse_error (next_channel w) (schedule w) d' = (d', schedule w, Some OutCommitted))
    as ->.
  { destruct (schedule w); cbn [await]; by rewrite Hrep. }
  eexists. split; [done|]. split; [split|]; cbn; try done.
  apply Forall_forall. intros ch Hch.
  assert (ch ∈ account (driver w) ++ [next_channel w]) as Hin.
  { rewrite <-Hacc. apply elem_of_app. by left. }
  apply elem_of_app in Hin as [Hin|Hin%list_elem_of_singleton]; [|lia].
  apply elem_of_app in Hin as [Hin|Hin]; [|by apply (al_idle _ _ Ha) in Hin].
  rewrite Forall_forall in Hf. specialize (Hf _ Hin). lia.
Qed.

(** The key-value store as its users see it: each command's effect on the
    store and its reply, for the commands that do not describe the cluster. *)
Definition kv_reply (c : Command) (e : E) : option (E * Frame) :=
  match c with
  | Ping None => Some (e, Simple "PONG")
  | Ping (Some payload) => Some (e, Bulk payload)
  | Get key => Some (e, match Storage.get e key with Some v => Bulk v | None => Null end)
  | Command.Set_ key value => Some ((apply (Apply.Set_ key value) e).1, Simple "OK")
  | Command.Del keys => Some ((apply (Apply.Del keys) e).1, Integer 1)
  | CommandDocs => Some (e, Array [])
  | Command.ClusterStatus | ClusterMembers => None
  end.

Fixpoint kv_replies (cs : list Command) (e : E) : option (E * list Frame) :=
  match cs with
  | [] => Some (e, [])
  | c :: cs =>
      '(e, f) ← kv_reply c e;
      '(e, fs) ← kv_replies cs e;
      Some (e, f :: fs)
  end.

Lemma alone_dispatch k w c e f :
  alone_world (k + 1) w → kv_reply c (storage (driver w)) = Some (e, f) →
  ∃ w', Client.dispatch parse_error c w = (w', Some f) ∧ alone_world k w' ∧
    storage (driver w') = e.
Proof.
  intros Hw Hc.
  assert (alone_world k w) as Hw'.
  { destruct Hw as [[] ? ?]. split; [split|..]; try done. lia. }
  destruct c as [[b|]|key|key v|keys| | |]; cbn in Hc; simplify_eq; try by eexists.
  - eexists. split; [reflexivity|]. split; [by apply alone_world_count|done].
  - destruct (alone_propose k (count Metrics.incr_sets w) (Apply.Set_ key v)) as (w1 & Hp & ? & Hst);
      [by apply alone_world_count|].
    exists w1. unfold Client.dispatch. by rewrite Hp.
  - destruct (alone_propose k (count Metrics.incr_dels w) (Apply.Del keys)) as (w1 & Hp & ? & Hst);
      [by apply alone_world_count|].
    exists w1. unfold Client.dispatch. by rewrite Hp.
Qed.

Lemma alone_answer_all cs w e fs :
  alone_world (N.of_nat (length cs)) w → kv_replies cs (storage (driver w)) = Some (e, fs) →
  ∃ w', answer_all parse_error cs w = (w', fs, Finished (Ok ())) ∧ storage (driver w') = e.
Proof.
  revert w e fs. induction cs as [|c cs IH]; intros w e fs Hw Hkv; cbn [kv_replies] in Hkv.
  { simplify_eq. by exists w. }
  destruct (kv_reply c (storage (driver w))) as [[e1 f]|] eqn:Hc; [|done]. cbn in Hkv.
  destruct (kv_replies cs e1) as [[e2 fs']|] eqn:Hcs; [|done]. cbn in Hkv. simplify_eq.
  replace (N.of_nat (length (c :: cs))) with (N.of_nat (length cs) + 1) in Hw by (cbn; lia).
  destruct (alone_dispatch _ w c e1 f Hw Hc) as (w1 & Hd & Hw1 & Hst1). subst e1.
  destruct (IH w1 e fs' Hw1 Hcs) as (w2 & Ha & Hst2). exists w2. split; [|done].
  cbn [answer_all]. by rewrite Hd, Ha.
Qed.
End Alone.

(** ** Properties *)
Section Properties.
Context `{Rng} {E : Type} `{StorageEngine E} `{Json WriteCommand}.
Context `{!HashIter N (list waiter)} `{Alloc}.
Context (parse_error : bytes → string) (frame_debug : Frame → string).
Implicit Types (w : World (E := E)) (reads : list read_result).

(** [C36] The connection loop terminates: whatever bytes the peer sends and
    however the driver answers, [handle_connection] ends (closed, failed,
    crashed, or waiting for the driver) after finitely many iterations, at most
    one per byte or read. *)
Theorem connection_terminates reads w :
  (handle_connection parse_error frame_debug reads w).2 ≠ NoFuel.
Proof. apply serve_fuel. unfold connection_fuel. cbn. lia. Qed.

(** [C28] Pipelining: however the bytes of a sequence of well-formed requests
    are cut into chunks by the network, the connection handles them in order and
    writes exactly one reply frame for each, until one gets no reply: then the
    connection waits, having written the replies before it and nothing else. If
    every request gets its reply the connection ends cleanly with the stream. *)
Theorem requests_answered_in_order cs chunks w :
  Forall (λ c, sendable c = true) cs → Forall (.≠ []) chunks →
  concat chunks = concat (request_bytes <$> cs) →
  ∃ w' fs e, answer_all parse_error cs w = (w', fs, e) ∧
    handle_connection parse_error frame_debug (Chunk <$> chunks) w =
      (w', concat ((λ f, Resp.encode f []) <$> fs), e) ∧
    (e = Finished (Ok ()) ∧ length fs = length cs ∨ e = Waiting ∧ (length fs < length cs)%nat).
Proof.
  intros Hcs Hch Heq. pose proof (answer_all_ends parse_error cs w) as Hends.
  destruct (answer_all parse_error cs w) as [[w' fs] e] eqn:Hans. exists w', fs, e.
  split; [done|]. split; [|done]. eapply (serve_pipeline _ _ _ [] chunks cs); try done.
  unfold connection_fuel. cbn. lia.
Qed.

(** [C39] The reply to an unknown command repeats its name unescaped: a name that
    contains CRLF makes the server send bytes that read as two frames, so the
    client's replies no longer match its requests. *)
Theorem error_reply_breaks_framing w :
  ∃ reply rest,
    respond parse_error frame_debug (Array [Bulk (as_bytes "x" ++ CRLF ++ as_bytes "+OK")]) w =
      (w, Some reply) ∧
    Resp.decode (Resp.encode reply []) =
      Decoded (Ok (Some (ErrorFrame "ERR unknown command 'X"))) rest ∧
    Resp.decode rest = Decoded (Ok (Some (Simple "OK'"))) [].
Proof.
  eexists (ErrorFrame _), (as_bytes "+OK'" ++ CRLF). split; [vm_compute; reflexivity|].
  split; vm_compute; reflexivity.
Qed.
End Properties.

Section AloneProperties.
Context `{Rng} {E : Type} `{EngineLaws E} `{JsonLaws WriteCommand}.
Context `{!HashIter N (list waiter)} `{Alloc}.
Context (parse_error : bytes → string) (frame_debug : Frame → string).
Implicit Types (w : World (E := E)).

(** [C19] End to end: a server that leads a cluster of one is a key-value store.
    The bytes of any pipeline of PING, GET, SET, DEL and COMMAND requests,
    however chunked, produce the bytes of exactly the replies of a sequential
    store, and leave its final contents; this goes through the decoder, the
    driver, proposal, commit, application and the waiting channels. *)
Theorem single_node_key_value_store cs chunks w e fs :
  alone_world parse_error (N.of_nat (length cs)) w →
  Forall (λ c, sendable c = true) cs → Forall (.≠ []) chunks →
  concat chunks = concat (request_bytes <$> cs) →
  kv_replies cs (storage (driver w)) = Some (e, fs) →
  ∃ w', handle_connection parse_error frame_debug (Chunk <$> chunks) w =
      (w', concat ((λ f, Resp.encode f []) <$> fs), Finished (Ok ())) ∧
    storage (driver w') = e.
Proof.
  intros Hw Hcs Hch Heq Hkv.
  destruct (alone_answer_all parse_error cs w e fs Hw Hkv) as (w' & Ha & Hst).
  exists w'. split; [|done]. apply (serve_pipeline _ _ _ [] chunks cs w fs w' _); try done.
  unfold connection_fuel. cbn. lia.
Qed.
End AloneProperties.

(** ** Witnesses *)
Section Witnesses.
#[local] Existing Instance low_rng.
#[local] Existing Instance canonical_iter.
#[local] Existing Instance DemoCodec.demo_json.
#[local] Existing Instance DemoCodec.demo_json_laws.
#[local] Existing Instance alloc32.

Definition no_debug (f : Frame) : string := "".

Definition solo_world : World := mkWorld solo_leader true [] 0 [].

Definition demo_requests : list Command :=
  [Command.Set_ "k" [x0d; x0a]; Get "k"; Command.Del ["k"; "z"]; Get "k"].

(** The bytes of the requests, cut in the middle of a frame. *)
Definition demo_chunks : list bytes :=
  let b := concat (request_bytes <$> demo_requests) in [take 7 b; drop 7 b].

Lemma requests_answered_in_order_witness :
  ∃ w', handle_connection no_error no_debug (Chunk <$> demo_chunks) solo_world =
    (w', as_bytes "+OK" ++ CRLF ++ as_bytes "$2" ++ CRLF ++ [x0d; x0a] ++ CRLF ++
         as_bytes ":1" ++ CRLF ++ as_bytes "$-1" ++ CRLF, Finished (Ok ())).
Proof.
  destruct (requests_answered_in_order no_error no_debug demo_requests demo_chunks solo_world)
    as (w' & fs & e & Hans & Hc & _).
  - repeat constructor.
  - repeat constructor; discriminate.
  - vm_compute. reflexivity.
  - exists w'. rewrite Hc. clear Hc.
    assert ((answer_all no_error demo_requests solo_world).1.2 =
        [Simple "OK"; Bulk [x0d; x0a]; Integer 1; Null] ∧
      (answer_all no_error demo_requests solo_world).2 = Finished (Ok ())) as [Hfs He]
      by (split; vm_compute; reflexivity).
    rewrite Hans in Hfs, He. cbn [fst snd] in Hfs, He. rewrite Hfs, He.
    vm_compute. reflexivity.
Defined.

Lemma solo_alone : alone_world no_error 4 solo_world.
Proof.
  split; [|reflexivity|vm_compute; constructor]. split; try (vm_compute; reflexivity).
  - intros cmd_of. exact (driver_reach_ok no_error cmd_of _ _ (boot_ok cmd_of) (solo_reach cmd_of)).
  - intros ch. assert (waiting (waiters (driver solo_world)) = []) as -> by (vm_compute; reflexivity).
    apply not_elem_of_nil.
Defined.

Lemma single_node_key_value_store_witness :
  ∃ w', handle_connection no_error no_debug (Chunk <$> demo_chunks) solo_world =
    (w', as_bytes "+OK" ++ CRLF ++ as_bytes "$2" ++ CRLF ++ [x0d; x0a] ++ CRLF ++
         as_bytes ":1" ++ CRLF ++ as_bytes "$-1" ++ CRLF, Finished (Ok ())) ∧
    Storage.get (storage (driver w')) "k" = None.
Proof.
  destruct (single_node_key_value_store no_error no_debug demo_requests demo_chunks solo_world
    (apply_all [Apply.Set_ "k" [x0d; x0a]; Apply.Del ["k"; "z"]] (storage solo_leader))
    [Simple "OK"; Bulk [x0d; x0a]; Integer 1; Null]) as (w' & Hc & Hst).
  - exact solo_alone.
  - repeat constructor.
  - repeat constructor; discriminate.
  - vm_compute. reflexivity.
  - vm_compute. reflexivity.
  - exists w'. split; [exact Hc|]. rewrite Hst. vm_compute. reflexivity.
Defined.
End Witnesses.
