(* ===== verification/Sessions.v ===== *)
(** * Connections on a cluster

    Clients connected to the servers of a cluster, all at once. Each server has
    its driver's task and, beside it, the tasks of its connections; they share
    the store, the queue of requests and the channels of the answers. A step of
    the service is what one task does between two points where others can see it
    or be seen: the driver begins a turn, or does one job of it (an access to the
    store, an answer); a connection reads from its socket, handles the request in
    its buffer, or takes the answer it waits for. So a read can fall between any
    two accesses of a turn, a half-done DEL included. *)

From S2P Require Import Prelude Text Errors Resp Command Storage Apply RaftLog RaftState RaftNode NodeTheory NodeProps ElectionSpec Election Network LogMatching StepFacts Safety SafetyProof Agreement Server ServerTheory Turns Cluster ServerProps Durability Linearization Client ClientProps.
From S2P Require Metrics.
Local Open Scope N_scope.

Section Service.
Context `{Rng} {E : Type} `{StorageEngine E} `{Json WriteCommand}.
Context `{!HashIter N (list waiter)} `{Alloc}.
Context (parse_error : bytes → string) (frame_debug : Frame → string).

(** ** State *)
Record conn := mkConn {
  home : NodeId;
  buffer : bytes;
  waits : option (Command * waiter);
  output : bytes;
  ended : bool;
}.

(** A server: its driver, what is left of the driver's turn, the requests its
    connections have sent to the driver. *)
Record host := mkHost {
  task : Driver E;
  jobs : list job;
  mailbox : list DriverMsg;
}.

Record service := mkService {
  hosts : gmap NodeId host;
  packets : list packet;
  conns : gmap nat conn;
  fresh_channel : waiter;
  membership : NodeId → list (string * string);
}.

Implicit Types (sv : service) (q : conn) (h : host) (d : Driver E) (c : cluster E).

Definition set_host (i : NodeId) h sv : service :=
  mkService (<[i := h]> (hosts sv)) (packets sv) (conns sv) (fresh_channel sv) (membership sv).
Definition set_conn (k : nat) q sv : service :=
  mkService (hosts sv) (packets sv) (<[k := q]> (conns sv)) (fresh_channel sv) (membership sv).
Definition set_fresh_channel (ch : waiter) sv : service :=
  mkService (hosts sv) (packets sv) (conns sv) ch (membership sv).
Definition post (ps : list packet) sv : service :=
  mkService (hosts sv) (packets sv ++ ps) (conns sv) (fresh_channel sv) (membership sv).

(** The connection writes a reply and goes on with the bytes [rest]. *)
Definition write_reply (rest : bytes) (reply : Frame) q : conn :=
  mkConn (home q) rest None (output q ++ Resp.encode reply []) (ended q).
Definition suspend (rest : bytes) (command : Command) (ch : waiter) q : conn :=
  mkConn (home q) rest (Some (command, ch)) (output q) (ended q).
Definition receive (b : bytes) q : conn :=
  mkConn (home q) (buffer q ++ b) (waits q) (output q) (ended q).
Definition finish q : conn := mkConn (home q) (buffer q) (waits q) (output q) true.

(** At the head of its loop. *)
Definition at_loop q : bool :=
  negb (ended q) && match waits q with None => true | Some _ => false end.

(** ** Steps *)
Inductive saction :=
  | SConnect (k : nat) (i : NodeId)
  | STick (i : NodeId)
  | SDeliver (k : nat)
  | STake (i : NodeId)
  | SJob (i : NodeId)
  | SRead (k : nat) (r : read_result)
  | SRequest (k : nat)
  | SAnswer (k : nat).

(** What can be seen of a connection: a write is asked for, a write is answered,
    a read is answered. *)
Inductive obs :=
  | Asked (k : nat) (i : NodeId) (ch : waiter) (cmd : WriteCommand)
  | Told (k : nat) (i : NodeId) (ch : waiter) (reply : Frame)
  | Got (k : nat) (i : NodeId) (key : string) (reply : Frame).

(** The write of a command. *)
Definition write_of (command : Command) : option WriteCommand :=
  match command with
  | Command.Set_ key value => Some (Apply.Set_ key value)
  | Command.Del keys => Some (Apply.Del keys)
  | _ => None
  end.

(** What a command sends to the driver: [Handle::propose], [Handle::status]. *)
Definition command_msg (command : Command) (ch : waiter) : option DriverMsg :=
  match command with
  | Command.ClusterStatus => Some (DStatus ch)
  | _ => (λ cmd, DPropose cmd ch) <$> write_of command
  end.

(** The counter a write moves before it is sent. *)
Definition counted (command : Command) (m : Metrics.MetricsInner) : Metrics.MetricsInner :=
  match command with
  | Command.Set_ _ _ => Metrics.incr_sets m
  | Command.Del _ => Metrics.incr_dels m
  | _ => m
  end.

(** The reply to a write, when its outcome arrives. *)
Definition outcome_reply (command : Command) (outcome : ProposeOutcome) : Frame :=
  match outcome with
  | OutNotLeader leader => not_leader_frame leader
  | OutCommitted => match command with Command.Del _ => Integer 1 | _ => Simple "OK" end
  end.

(** The reply to the command that waits on [ch], once its answer is there. *)
Definition reply_in (command : Command) (ch : waiter) d : option Frame :=
  match command with
  | Command.ClusterStatus =>
      (λ r, Bulk (as_bytes (status_line r.2.2))) <$> list_find (λ r, r.1 = ch) (statuses d)
  | _ => (λ r, outcome_reply command r.2.2) <$> list_find (λ r, r.1 = ch) (replies d)
  end.

(** One iteration of the loop with a whole request in the buffer. A command the
    driver answers is sent to it and the connection waits; the others are
    answered at once, a GET from the store as it is at this moment. *)
Definition request_step (k : nat) sv : option (service * list obs) :=
  q ← conns sv !! k;
  if negb (at_loop q) then None else
  match Resp.decode (buffer q) with
  | Decoded (Ok None) _ | DecodeDiverges => None
  | Decoded (Err _) _ | DecodePanic => Some (set_conn k (finish q) sv, [])
  | Decoded (Ok (Some frame)) rest =>
      match from_frame frame_debug frame with
      | Err e =>
          Some (set_conn k (write_reply rest (ErrorFrame ("ERR " +:+ client_message e)) q) sv, [])
      | Ok command =>
          let i := home q in
          let ch := fresh_channel sv in
          h ← hosts sv !! i;
          match command_msg command ch with
          | Some msg =>
              let d := set_metrics (counted command (metrics (task h))) (task h) in
              let sv := set_host i (mkHost d (jobs h) (mailbox h ++ [msg])) sv in
              let sv := set_fresh_channel (S ch) sv in
              Some (set_conn k (suspend rest command ch q) sv,
                    match write_of command with Some cmd => [Asked k i ch cmd] | None => [] end)
          | None =>
              let '(w, reply) :=
                dispatch parse_error command (mkWorld (task h) true [] ch (membership sv i)) in
              reply ← reply;
              let sv := set_host i (mkHost (driver w) (jobs h) (mailbox h)) sv in
              Some (set_conn k (write_reply rest reply q) sv,
                    match command with Command.Get key => [Got k i key reply] | _ => [] end)
          end
      end
  end.

(** The channel the connection waits on has an answer. *)
Definition answer_step (k : nat) sv : option (service * list obs) :=
  q ← conns sv !! k;
  h ← hosts sv !! home q;
  '(command, ch) ← waits q;
  reply ← reply_in command ch (task h);
  Some (set_conn k (write_reply (buffer q) reply q) sv,
        match write_of command with Some _ => [Told k (home q) ch reply] | None => [] end).

(** The loop reads when the buffer holds no whole frame. *)
Definition read_step (k : nat) (r : read_result) sv : option (service * list obs) :=
  q ← conns sv !! k;
  if negb (at_loop q) then None else
  match Resp.decode (buffer q), r with
  | Decoded (Ok None) _, (Chunk [] | ReadFailed _) => Some (set_conn k (finish q) sv, [])
  | Decoded (Ok None) _, Chunk b => Some (set_conn k (receive b q) sv, [])
  | _, _ => None
  end.

(** A client connects to server [i]. *)
Definition connect_step (k : nat) (i : NodeId) sv : option (service * list obs) :=
  match conns sv !! k with
  | Some _ => None
  | None => Some (set_conn k (mkConn i [] None [] false) sv, [])
  end.

#[export] Instance honest_dec ev d : Decision (honest parse_error ev d).
Proof. unfold honest. apply _. Defined.

(** The driver of [i], done with its last turn, begins the next with event [ev].
    The run is held to [Faithful], and to servers that only acknowledge writes
    while they lead. *)
Definition begin_step (i : NodeId) (ev : event) sv : option service :=
  h ← hosts sv !! i;
  match jobs h with
  | _ :: _ => None
  | [] =>
      if decide (permitted Faithful ev (task h) ∧ honest parse_error ev (task h)) then
        let (d, js) := begin_turn parse_error ev (task h) in
        let ms := match ev with EvRequest _ => tail (mailbox h) | _ => mailbox h end in
        Some (post (posted i (task h) d) (set_host i (mkHost d js ms) sv))
      else None
  end.

(** The driver of [i] goes on with its turn. *)
Definition job_step (i : NodeId) sv : option (service * list obs) :=
  h ← hosts sv !! i;
  match jobs h with
  | [] => None
  | j :: js => Some (set_host i (mkHost (do_job j (task h)) js (mailbox h)) sv, [])
  end.

(** The cluster behind the service: its drivers at the ends of their turns. *)
Definition completed h : Driver E := do_jobs (jobs h) (task h).

Definition view sv : cluster E := mkCluster (completed <$> hosts sv) (packets sv).

(** The cluster's part in a step, which begins a turn. [DriverMsg::Peer] is never
    sent. *)
Definition msg_action (i : NodeId) (msg : DriverMsg) : option caction :=
  match msg with
  | DPropose cmd ch => Some (CPropose i cmd ch)
  | DStatus ch => Some (CStatus i ch)
  | DPeer _ _ => None
  end.

Definition cact sv (a : saction) : option caction :=
  match a with
  | STick i => Some (CTick i)
  | SDeliver k => Some (CDeliver k)
  | STake i => h ← hosts sv !! i; msg ← head (mailbox h); msg_action i msg
  | _ => None
  end.

Definition server_step (a : saction) sv : option (service * list obs) :=
  ca ← cact sv a;
  e ← event_of (view sv) ca;
  sv' ← begin_step e.1 e.2 sv;
  Some (sv', []).

Definition sstep sv (a : saction) : option (service * list obs) :=
  match a with
  | SConnect k i => connect_step k i sv
  | STick _ | SDeliver _ | STake _ => server_step a sv
  | SJob i => job_step i sv
  | SRead k r => read_step k r sv
  | SRequest k => request_step k sv
  | SAnswer k => answer_step k sv
  end.

Fixpoint srun (acts : list saction) sv : option service :=
  match acts with
  | [] => Some sv
  | a :: acts => r ← sstep sv a; srun acts r.1
  end.

(** What is seen in step [m] of a run. *)
Definition seen (acts : list saction) sv (m : nat) : list obs :=
  default [] (sv ← srun (take m acts) sv; a ← acts !! m; snd <$> sstep sv a).

(** ** Sending, waiting and taking the answer are [dispatch]

    A command the driver answers: counted, its message handled in a turn of the
    driver, its reply the one found when the wait is over. *)
Lemma dispatch_resume command msg d evs ch ms :
  command_msg command ch = Some msg →
  dispatch parse_error command (mkWorld d true evs ch ms) =
  let d1 := turn parse_error (EvRequest msg) (set_metrics (counted command (metrics d)) d) in
  match command with
  | Command.ClusterStatus =>
      (mkWorld d1 true evs (S ch) ms,
       Some (default (ErrorFrame "ERR driver unavailable") (reply_in command ch d1)))
  | _ =>
      let '(d2, evs2, o) := await parse_error ch evs d1 in
      (mkWorld d2 true evs2 (S ch) ms, outcome_reply command <$> o)
  end.
Proof.
  intros Hmsg. destruct command as [[b|]|key|key v|keys| | |]; try discriminate Hmsg;
    injection Hmsg as <-; cbn [dispatch].
  - unfold Client.propose, count, set_driver. cbn [alive driver schedule next_channel members].
    cbv zeta. cbn [counted]. generalize (turn parse_error (EvRequest (DPropose (Apply.Set_ key v) ch))
      (set_metrics (Metrics.incr_sets (metrics d)) d)). intros d1.
    destruct (await _ _ _ _) as [[d2 evs2] [o|]]; [by destruct o|done].
  - unfold Client.propose, count, set_driver. cbn [alive driver schedule next_channel members].
    cbv zeta. cbn [counted]. generalize (turn parse_error (EvRequest (DPropose (Apply.Del keys) ch))
      (set_metrics (Metrics.incr_dels (metrics d)) d)). intros d1.
    destruct (await _ _ _ _) as [[d2 evs2] [o|]]; [by destruct o|done].
  - unfold handle_status. cbn [alive driver schedule next_channel members counted reply_in]. cbv zeta.
    assert (set_metrics (metrics d) d = d) as -> by by destruct d.
    generalize (turn parse_error (EvRequest (DStatus ch)) d). intros d1.
    by destruct (list_find _ (statuses d1)).
Qed.

(** The wait ends in the first state in which the answer is there. *)
Lemma await_answer ch evs d :
  let '(d', _, o) := await parse_error ch evs d in
  ∀ out, o = Some out → ∃ r, list_find (λ r, r.1 = ch) (replies d') = Some r ∧ out = r.2.2.
Proof.
  revert d. induction evs as [|ev evs IH]; intros d; cbn [await];
    destruct (list_find _ (replies d)) as [r|] eqn:Hf; cbn [snd fmap option_fmap option_map];
    try (intros out [= <-]; by exists r).
  apply IH.
Qed.

(** A read is answered from the store at once. *)
Definition value_reply (value : option bytes) : Frame :=
  match value with Some v => Bulk v | None => Null end.

(** Commands that send nothing leave the driver alone but for its counters. *)
Lemma dispatch_local command d ch ms :
  command_msg command ch = None →
  ∃ m reply, dispatch parse_error command (mkWorld d true [] ch ms) =
      (mkWorld (set_metrics m d) true [] ch ms, Some reply) ∧
    ∀ key, command = Command.Get key → reply = value_reply (Storage.get (storage d) key).
Proof.
  intros Hm. assert (set_metrics (metrics d) d = d) as Hd by by destruct d.
  destruct command as [[b|]|key|key v|keys| | |]; try discriminate Hm; cbn [dispatch].
  - exists (metrics d). rewrite Hd. by eexists.
  - exists (metrics d). rewrite Hd. by eexists.
  - exists (Metrics.incr_gets (metrics d)). eexists. split; [reflexivity|]. by intros ? [= <-].
  - exists (metrics d). rewrite Hd. by eexists.
  - exists (metrics d). rewrite Hd. by eexists.
Qed.

(** ** Runs *)
Lemma srun_app acts1 acts2 sv : srun (acts1 ++ acts2) sv = srun acts1 sv ≫= srun acts2.
Proof.
  revert sv. induction acts1 as [|a acts1 IH]; intros sv; [done|]. cbn.
  destruct (sstep sv a) as [[sv1 os]|]; [apply IH|done].
Qed.

Lemma srun_snoc acts a sv sv' :
  srun (acts ++ [a]) sv = Some sv' →
  ∃ sv1 os, srun acts sv = Some sv1 ∧ sstep sv1 a = Some (sv', os).
Proof.
  rewrite srun_app. destruct (srun acts sv) as [sv1|]; [|done]. cbn [mbind option_bind srun].
  destruct (sstep sv1 a) as [[sv2 os]|] eqn:Hst; [|done]. cbn. intros [= <-]. by exists sv1, os.
Qed.

(** Something collected along a run. *)
Fixpoint gather {A} (f : service → saction → list A) (acts : list saction) sv : list A :=
  match acts with
  | [] => []
  | a :: acts => f sv a ++ match sstep sv a with Some (sv', _) => gather f acts sv' | None => [] end
  end.

Lemma gather_app {A} (f : service → saction → list A) acts1 acts2 sv sv1 :
  srun acts1 sv = Some sv1 → gather f (acts1 ++ acts2) sv = gather f acts1 sv ++ gather f acts2 sv1.
Proof.
  revert sv. induction acts1 as [|a acts1 IH]; intros sv Hr; cbn in *; [by injection Hr as ->|].
  destruct (sstep sv a) as [[sv' os]|]; [|done]. cbn in Hr. rewrite (IH _ Hr). by rewrite app_assoc.
Qed.

Lemma gather_snoc {A} (f : service → saction → list A) acts a sv sv1 :
  srun acts sv = Some sv1 → gather f (acts ++ [a]) sv = gather f acts sv ++ f sv1 a.
Proof.
  intros Hr. rewrite (gather_app _ _ _ _ _ Hr). cbn. destruct (sstep sv1 a) as [[]|]; by rewrite app_nil_r.
Qed.

(** The cluster's run behind a run of the service. *)
Definition cacts : list saction → service → list caction := gather (λ sv a, option_list (cact sv a)).

(** The changes made so far to the store of server [i]. *)
Definition made_by (i : NodeId) sv (a : saction) : list change :=
  match a with
  | SJob j => if decide (j = i)
              then default [] ((λ h, pending_changes (take 1 (jobs h))) <$> hosts sv !! i) else []
  | _ => []
  end.

Definition made (i : NodeId) : list saction → service → list change := gather (made_by i).

Lemma seen_inv acts sv m o :
  o ∈ seen acts sv m → ∃ sv1 a sv2 os, srun (take m acts) sv = Some sv1 ∧ acts !! m = Some a ∧
    sstep sv1 a = Some (sv2, os) ∧ o ∈ os ∧ srun (take (S m) acts) sv = Some sv2.
Proof.
  unfold seen. intros Ho. destruct (srun (take m acts) sv) as [sv1|] eqn:Hr; [|by apply not_elem_of_nil in Ho].
  cbn [mbind option_bind] in Ho. destruct (acts !! m) as [a|] eqn:Ha; [|by apply not_elem_of_nil in Ho].
  cbn [mbind option_bind] in Ho.
  destruct (sstep sv1 a) as [[sv2 os]|] eqn:Hst; [|by apply not_elem_of_nil in Ho].
  exists sv1, a, sv2, os. split; [done|]. split; [done|]. split; [done|]. split; [done|].
  rewrite (take_S_r _ _ _ Ha), srun_app, Hr. cbn [mbind option_bind srun]. by rewrite Hst.
Qed.

Lemma seen_intro acts sv m sv1 a sv2 os o :
  srun (take m acts) sv = Some sv1 → acts !! m = Some a → sstep sv1 a = Some (sv2, os) → o ∈ os →
  o ∈ seen acts sv m.
Proof. intros Hr Ha Hst Ho. unfold seen. rewrite Hr. cbn. rewrite Ha. cbn. by rewrite Hst. Qed.

(** ** The steps, opened up *)

(** A request: the driver is left alone, but for its counters; either nothing is
    sent, or a message with a fresh channel. *)
Inductive requested k sv sv' (os : list obs) : Prop :=
  | RqQuiet :
      hosts sv' = hosts sv → fresh_channel sv' = fresh_channel sv → os = [] → requested k sv sv' os
  | RqLocal i h m reply command :
      hosts sv !! i = Some h → fresh_channel sv' = fresh_channel sv →
      hosts sv' = <[i := mkHost (set_metrics m (task h)) (jobs h) (mailbox h)]> (hosts sv) →
      os = match command with Command.Get key => [Got k i key reply] | _ => [] end →
      (∀ key, command = Command.Get key → reply = value_reply (Storage.get (storage (task h)) key)) →
      requested k sv sv' os
  | RqSent i h m command msg :
      hosts sv !! i = Some h → command_msg command (fresh_channel sv) = Some msg →
      fresh_channel sv' = S (fresh_channel sv) →
      hosts sv' = <[i := mkHost (set_metrics m (task h)) (jobs h) (mailbox h ++ [msg])]> (hosts sv) →
      os = match write_of command with Some cmd => [Asked k i (fresh_channel sv) cmd] | None => [] end →
      requested k sv sv' os.

Lemma request_inv k sv sv' os :
  request_step k sv = Some (sv', os) → requested k sv sv' os ∧ packets sv' = packets sv.
Proof.
  unfold request_step. intros Hst. destruct (conns sv !! k) as [q|]; [|done].
  cbn [mbind option_bind] in *. destruct (at_loop q); [|done]. cbn [negb] in Hst.
  destruct (Resp.decode (buffer q)) as [[[frame|]|e] rest| |]; try done;
    try (injection Hst as <- <-; split; [by apply RqQuiet|done]).
  destruct (from_frame frame_debug frame) as [command|e].
  2: { injection Hst as <- <-. split; [by apply RqQuiet|done]. }
  destruct (hosts sv !! home q) as [h|] eqn:Hh; [|done]. cbn [mbind option_bind] in Hst.
  destruct (command_msg command (fresh_channel sv)) as [msg|] eqn:Hmsg.
  - injection Hst as <- <-. split; [|done]. by eapply RqSent.
  - destruct (dispatch_local command (task h) (fresh_channel sv) (membership sv (home q)) Hmsg)
      as (m & reply & Hdis & Hget).
    rewrite Hdis in Hst. cbn [mbind option_bind driver] in Hst. injection Hst as <- <-.
    split; [|done]. by eapply RqLocal.
Qed.

Lemma server_inv a sv sv' os :
  server_step a sv = Some (sv', os) →
  os = [] ∧ ∃ ca i ev h, cact sv a = Some ca ∧ event_of (view sv) ca = Some (i, ev) ∧
    hosts sv !! i = Some h ∧ jobs h = [] ∧ permitted Faithful ev (task h) ∧
    honest parse_error ev (task h) ∧
    let d1 := (begin_turn parse_error ev (task h)).1 in
    let js := (begin_turn parse_error ev (task h)).2 in
    let ms := match ev with EvRequest _ => tail (mailbox h) | _ => mailbox h end in
    hosts sv' = <[i := mkHost d1 js ms]> (hosts sv) ∧ fresh_channel sv' = fresh_channel sv ∧
    packets sv' = packets sv ++ posted i (task h) d1.
Proof.
  unfold server_step. destruct (cact sv a) as [ca|]; [|done]. cbn [mbind option_bind].
  destruct (event_of (view sv) ca) as [[i ev]|] eqn:Hev; [|done]. cbn [mbind option_bind fst snd].
  destruct (begin_step i ev sv) as [sv1|] eqn:Hb; [|done]. cbn [mbind option_bind]. intros [= <- <-].
  split; [done|]. exists ca, i, ev. unfold begin_step in Hb.
  destruct (hosts sv !! i) as [h|]; [|done]. cbn [mbind option_bind] in Hb. exists h.
  destruct (jobs h) eqn:Hj; [|done]. case_decide as Hp; [|done]. destruct Hp as [Hp Hh].
  destruct (begin_turn parse_error ev (task h)) as [d1 js]. cbv zeta. cbn [fst snd].
  injection Hb as <-. split; [done|]. split; [done|]. split; [done|]. split; [done|].
  split; [done|]. split; [done|]. done.
Qed.

Lemma job_inv i sv sv' os :
  job_step i sv = Some (sv', os) →
  os = [] ∧ ∃ h j js, hosts sv !! i = Some h ∧ jobs h = j :: js ∧
    hosts sv' = <[i := mkHost (do_job j (task h)) js (mailbox h)]> (hosts sv) ∧
    fresh_channel sv' = fresh_channel sv ∧ packets sv' = packets sv.
Proof.
  unfold job_step. destruct (hosts sv !! i) as [h|]; [|done]. cbn [mbind option_bind].
  destruct (jobs h) as [|j js] eqn:Hj; [done|]. intros [= <- <-]. split; [done|]. by exists h, j, js.
Qed.

Lemma answer_inv k sv sv' os :
  answer_step k sv = Some (sv', os) →
  hosts sv' = hosts sv ∧ packets sv' = packets sv ∧ fresh_channel sv' = fresh_channel sv ∧
  ∀ o, o ∈ os → ∃ i h ch command out, hosts sv !! i = Some h ∧
    o = Told k i ch (outcome_reply command out) ∧ (ch, out) ∈ replies (task h).
Proof.
  unfold answer_step. destruct (conns sv !! k) as [q|]; [|done]. cbn [mbind option_bind].
  destruct (hosts sv !! home q) as [h|] eqn:Hh; [|done]. cbn [mbind option_bind].
  destruct (waits q) as [[command ch]|]; [|done]. cbn [mbind option_bind].
  destruct (reply_in command ch (task h)) as [reply|] eqn:Hr; [|done]. cbn [mbind option_bind].
  intros [= <- <-]. split; [done|]. split; [done|]. split; [done|]. intros o Ho.
  destruct (write_of command) as [cmd|] eqn:Hw; [|by apply not_elem_of_nil in Ho].
  apply list_elem_of_singleton in Ho as ->.
  assert (∃ r, list_find (λ r, r.1 = ch) (replies (task h)) = Some r ∧ reply = outcome_reply command r.2.2)
    as ([n [w out]] & Hf & ->).
  { destruct command; try discriminate Hw; cbn [reply_in] in Hr;
      destruct (list_find _ _) as [r|]; try discriminate Hr; injection Hr as <-; by exists r. }
  exists (home q), h, ch, command, out. split; [done|]. split; [done|].
  apply list_find_Some in Hf as (Hn & Hc & _). cbn in Hc. subst w. by eapply list_elem_of_lookup_2.
Qed.

Lemma idle_inv a sv sv' os :
  sstep sv a = Some (sv', os) →
  match a with SConnect _ _ | SRead _ _ =>
    hosts sv' = hosts sv ∧ packets sv' = packets sv ∧ fresh_channel sv' = fresh_channel sv ∧ os = []
  | _ => True end.
Proof.
  destruct a as [k i|i|k|i|i|k r|k|k]; cbn [sstep]; try done.
  - unfold connect_step. destruct (conns sv !! k); [done|]. by intros [= <- <-].
  - unfold read_step. destruct (conns sv !! k); [|done]. cbn [mbind option_bind].
    destruct (at_loop _); [|done]. cbn [negb].
    destruct (Resp.decode _) as [[[]|] | |], r as [[]|]; intros Hst; by simplify_eq.
Qed.
(** What each observation says of its moment. *)
Lemma step_seen a sv sv' os o :
  sstep sv a = Some (sv', os) → o ∈ os →
  match o with
  | Asked k i ch cmd => ch = fresh_channel sv
  | Told k i ch reply => ∃ h command out, hosts sv !! i = Some h ∧
      reply = outcome_reply command out ∧ (ch, out) ∈ replies (task h)
  | Got k i key reply => ∃ h, hosts sv !! i = Some h ∧
      reply = value_reply (Storage.get (storage (task h)) key)
  end.
Proof.
  intros Hst Ho. pose proof (idle_inv _ _ _ _ Hst) as Hidle.
  destruct a as [x y|x|x|x|x|x y|x|x]; cbn [sstep] in Hst.
  1, 6: destruct Hidle as (_ & _ & _ & ->); by apply not_elem_of_nil in Ho.
  1-3: destruct (server_inv _ _ _ _ Hst) as [-> _]; by apply not_elem_of_nil in Ho.
  - destruct (job_inv _ _ _ _ Hst) as [-> _]. by apply not_elem_of_nil in Ho.
  - destruct (request_inv _ _ _ _ Hst) as [[_ _ ->|i h ? reply command Hi _ _ -> Hget|? ? ? command ? _ _ _ _ ->] _].
    + by apply not_elem_of_nil in Ho.
    + destruct command; try (by apply not_elem_of_nil in Ho).
      apply list_elem_of_singleton in Ho as ->. exists h. split; [done|]. by apply Hget.
    + destruct (write_of command); [|by apply not_elem_of_nil in Ho].
      by apply list_elem_of_singleton in Ho as ->.
  - destruct (answer_inv _ _ _ _ Hst) as (_ & _ & _ & Hos).
    destruct (Hos _ Ho) as (i & h & ch & command & out & Hi & -> & Hin). by exists h, command, out.
Qed.
End Service.
Arguments service {_} E.
Arguments host {_} E.
