(* ===== verification/Service.v ===== *)
(** * The service: what its clients see

    A run of the connections and drivers of [Sessions.v] has a run of the cluster
    behind it, a step for each turn begun. Each server is then its driver in that
    run with a part of its turn still to do, so its store holds a first part of
    the accesses that its log asks for ([hosted]). From the one order of writes of
    the cluster's run follows what the clients can see. *)

From S2P Require Import Prelude Text Errors Resp Command Storage Apply RaftLog RaftState RaftNode NodeTheory NodeProps ElectionSpec Election Network LogMatching StepFacts Safety SafetyProof Agreement Server ServerTheory Turns Cluster ServerProps Durability Linearization Client ClientProps Sessions.
From S2P Require Metrics.
Local Open Scope N_scope.

(** ** What a run keeps *)
Section Kept.
Context `{Rng} {E : Type} `{EngineLaws E} `{JsonLaws WriteCommand}.
Context `{!HashIter N (list waiter)} `{Alloc}.
Context (parse_error : bytes → string) (frame_debug : Frame → string).
Context (e : E) (c0 : cluster E).
Implicit Types (sv : service E) (h : host E) (d D : Driver E) (c : cluster E).
Implicit Types (cas : list caction) (xs : list change) (i : NodeId).

Abbreviation srun := (srun parse_error frame_debug).
Abbreviation sstep := (sstep parse_error frame_debug).
Abbreviation seen := (seen parse_error frame_debug).
Abbreviation cacts := (cacts parse_error frame_debug).
Abbreviation made := (made parse_error frame_debug).
Abbreviation turn := (turn parse_error).
Abbreviation begin_turn := (begin_turn parse_error).
Abbreviation crun := (crun parse_error).
Abbreviation cstep := (cstep parse_error).
Abbreviation acked_index := (acked_index parse_error).

(** The changes of the commands of a log up to index [k]. *)
Definition log_changes (l : RaftLog) (k : N) : list change := log_commands parse_error l 0 k ≫= changes.

Lemma log_changes_split l a b :
  a ≤ b → log_changes l b = log_changes l a ++ (log_commands parse_error l a b ≫= changes).
Proof. intros Hab. unfold log_changes. by rewrite (log_commands_split parse_error l a b), bind_app. Qed.

(** The server [i], in the middle of a turn that the cluster's run already has
    behind it. *)
Definition in_turn cas i h D : Prop :=
  ∃ n c a ev d J, crun Faithful (take n cas) c0 = Some c ∧ cas !! n = Some a ∧
    event_of c a = Some (i, ev) ∧ drivers c !! i = Some d ∧ D = turn ev d ∧
    honest parse_error ev d ∧ J ++ jobs h = (begin_turn ev d).2 ∧
    same_driver (task h) (do_jobs J (begin_turn ev d).1) ∧
    (begin_turn ev d).2 = (deliveries (log (node D)) (last_applied (node d))
      (N.to_nat (last_applied (node D) - last_applied (node d))) ≫= item_jobs parse_error) ++ [JFinish] ∧
    last_applied (node d) ≤ last_applied (node D) ∧
    last_applied (node D) = commit_index (node (handle_event ev d)).

(** A server of the service beside its driver in the cluster's run: what is left
    of its turn leads to that driver; its store is made of the changes so far,
    which with those to come are the changes of what the driver has applied; and
    whoever was told that a write is committed was told so for an index whose
    changes are made. *)
Record hosted cas i h D xs : Prop := {
  hd_driver : same_driver (completed h) D;
  hd_store : storage (task h) = foldl change_store e xs;
  hd_done : xs ++ pending_changes (jobs h) = log_changes (log (node D)) (last_applied (node D));
  hd_turn : jobs h ≠ [] → in_turn cas i h D;
  hd_told : ∀ w, (w, OutCommitted) ∈ replies (task h) → ∃ n k, acked_index cas c0 n i w k ∧
    k ≤ last_applied (node D) ∧ (length (log_changes (log (node D)) k) ≤ length xs)%nat;
}.

Lemma acked_index_app cas cas' n i w k : acked_index cas c0 n i w k → acked_index (cas ++ cas') c0 n i w k.
Proof.
  intros (c & a & ev & d & ws & Hr & Ha & Hrest). exists c, a, ev, d, ws.
  pose proof (lookup_lt_Some _ _ _ Ha). rewrite take_app_le by lia. split; [done|].
  split; [by apply lookup_app_l_Some|done].
Qed.

Lemma hosted_app cas cas' i h D xs : hosted cas i h D xs → hosted (cas ++ cas') i h D xs.
Proof.
  intros [Hd Hs Hm Ht Hw]. split; [done|done|done| |].
  - intros Hj. destruct (Ht Hj) as (n & c & a & ev & d & J & Hr & Ha & Hrest).
    exists n, c, a, ev, d, J. pose proof (lookup_lt_Some _ _ _ Ha).
    rewrite take_app_le by lia. split; [done|]. split; [by apply lookup_app_l_Some|done].
  - intros w Hin. destruct (Hw w Hin) as (n & k & Hack & ?). exists n, k.
    split; [by apply acked_index_app|done].
Qed.

(** Counters and queued requests do not matter. *)
Lemma hosted_same cas i h h' D xs :
  same_driver (task h') (task h) → jobs h' = jobs h → hosted cas i h D xs → hosted cas i h' D xs.
Proof.
  intros Hs Hj [Hd Hst Hm Ht Hw].
  destruct (same_fields _ _ Hs) as (_ & Hstore & _ & _ & _ & _ & Hrep). split.
  - unfold completed in *. rewrite Hj. etrans; [by apply do_jobs_proper|done].
  - by rewrite Hstore.
  - by rewrite Hj.
  - rewrite Hj. intros Hne. destruct (Ht Hne) as (n & c & a & ev & d & J & ? & ? & ? & ? & ? & ? & ? & Hsame & ? & ? & ?).
    exists n, c, a, ev, d, J. rewrite Hj. split_and!; try done. by transitivity (task h).
  - by rewrite Hrep.
Qed.

(** A turn begins. *)
Lemma hosted_begin cmd_of cas c i h D xs a ev ms :
  hosted cas i h D xs → jobs h = [] → crun Faithful cas c0 = Some c → event_of c a = Some (i, ev) →
  drivers c !! i = Some D → driver_ok parse_error cmd_of D → event_ok cmd_of D ev →
  permitted Faithful ev D → honest parse_error ev D →
  hosted (cas ++ [a]) i (mkHost (begin_turn ev (task h)).1 (begin_turn ev (task h)).2 ms) (turn ev D) xs.
Proof.
  intros [Hd Hst Hm _ Hw] Hj Hr Hev HD Hok Hevok Hp Hh.
  unfold completed in Hd. rewrite Hj in Hd, Hm. cbn [do_jobs foldl pending_changes] in Hd, Hm.
  unfold pending_changes in Hm. cbn in Hm. rewrite app_nil_r in Hm.
  destruct (turn_commands parse_error cmd_of ev D Hok Hevok Hp) as [Hkeep Hitems].
  destruct (turn_applies parse_error cmd_of ev D Hok Hevok Hp) as [Hla Hle].
  destruct (begin_turn_proper parse_error ev _ _ Hd) as [Hb1 Hb2].
  destruct (begin_turn_fields parse_error ev D) as (_ & _ & Hbs & Hbr & _ & Hbj).
  rewrite Hitems in Hbj. destruct (same_fields _ _ Hb1) as (_ & Hs1 & _ & _ & _ & _ & Hr1).
  destruct (same_fields _ _ Hd) as (_ & Hs0 & _ & _ & _ & _ & Hr0).
  assert (∀ k, k ≤ last_applied (node D) → log_changes (log (node (turn ev D))) k = log_changes (log (node D)) k)
    as Hsame by (intros k Hk; unfold log_changes; by rewrite Hkeep).
  split; cbn [task jobs].
  - unfold completed. cbn [task jobs]. rewrite Hb2, Hb1.
    destruct (begin_turn ev D) as [d1 js] eqn:Hbeg. by rewrite (jobs_finish parse_error _ _ _ _ Hbeg).
  - by rewrite Hs1, Hbs, <-Hs0.
  - rewrite Hb2, Hbj, items_changes, (log_changes_split _ _ _ Hle), (Hsame _ (N.le_refl _)), <-Hm.
    unfold log_commands. clear. by generalize (turn ev D).
  - intros _. exists (length cas), c, a, ev, D, []. rewrite take_app_length. split; [done|].
    split; [by rewrite lookup_app_r, Nat.sub_diag|]. split; [done|]. split; [done|]. split; [done|].
    split; [done|]. split; [exact Hb2|]. split; [exact Hb1|]. split; [exact Hbj|]. by split.
  - rewrite Hr1, Hbr. destruct (handle_event_replies ev D) as (new & -> & Hnew). intros w [Hin|Hin]%elem_of_app.
    + rewrite <-Hr0 in Hin. destruct (Hw w Hin) as (n & k & Hack & Hk & Hlen). exists n, k.
      split; [by apply acked_index_app|]. split; [by etrans|]. by rewrite Hsame.
    + by destruct (Hnew w).
Qed.

(** Answers given in a turn are among those of the whole turn. *)
Lemma turn_told ev d J j js w :
  (begin_turn ev d).2 = J ++ j :: js →
  (∃ new, replies (do_job j (do_jobs J (begin_turn ev d).1)) = replies (do_jobs J (begin_turn ev d).1) ++ new ∧
     (w, OutCommitted) ∈ new) →
  (w, OutCommitted) ∈ drop (length (replies d)) (replies (turn ev d)).
Proof.
  intros Hj (new & Hnew & Hin).
  destruct (begin_turn_fields parse_error ev d) as (_ & _ & _ & Hbr & _ & _).
  destruct (handle_event_replies ev d) as (new0 & Hr0 & _). rewrite Hr0 in Hbr.
  destruct (begin_turn ev d) as [d1 js1] eqn:Hb. cbn [fst snd] in *. subst js1.
  rewrite <-(jobs_finish parse_error _ _ _ _ Hb), do_jobs_app.
  destruct (do_jobs_replies J d1) as [new1 H1']. destruct (do_jobs_replies js (do_job j (do_jobs J d1))) as [new2 H2'].
  change (do_jobs (j :: js) (do_jobs J d1)) with (do_jobs js (do_job j (do_jobs J d1))).
  rewrite H2', Hnew, H1', Hbr, <-!app_assoc, drop_app_length. set_solver.
Qed.

(** A job of a turn is done. *)
Lemma hosted_job cas i h D xs j js :
  hosted cas i h D xs → jobs h = j :: js →
  hosted cas i (mkHost (do_job j (task h)) js (mailbox h)) D (xs ++ job_changes j).
Proof.
  intros [Hd Hst Hm Ht Hw] Hj. rewrite Hj in Ht, Hm.
  destruct (Ht ltac:(done)) as (n & c & a & ev & d & J & Hr & Ha & Hev & Hdc & HD & Hh & HJ & Hsame & Hbj & Hle & Hla).
  rewrite Hj in HJ.
  change (pending_changes (j :: js)) with (job_changes j ++ pending_changes js) in Hm.
  assert (xs = log_changes (log (node D)) (last_applied (node d)) ++ pending_changes J) as Hbase.
  { pose proof (f_equal pending_changes (eq_trans HJ Hbj)) as Hp.
    rewrite items_changes, pending_app in Hp.
    change (pending_changes (j :: js)) with (job_changes j ++ pending_changes js) in Hp.
    rewrite (log_changes_split _ _ _ Hle) in Hm. unfold log_commands in Hm. rewrite <-Hp, app_assoc in Hm.
    rewrite !app_assoc in Hm. by apply app_inv_tail, app_inv_tail in Hm. }
  split; cbn [task jobs].
  - unfold completed in *. by rewrite Hj in Hd.
  - rewrite foldl_app, <-Hst. destruct j as [x|data|k|]; cbn [do_job job_changes foldl].
    + done.
    + exfalso. apply (items_no_restore parse_error (log (node D)) (last_applied (node d))
        (N.to_nat (last_applied (node D) - last_applied (node d))) data).
      rewrite <-Hbj, <-HJ. apply elem_of_app. right. left.
    + unfold resolve. by destruct (waiters (task h) !! k).
    + destruct (fail_waiters_frame (update_metrics (task h))) as (_ & _ & _ & -> & _).
      by destruct (update_metrics_frame (task h)) as (_ & -> & _).
  - by rewrite <-app_assoc.
  - intros _. exists n, c, a, ev, d, (J ++ [j]). split_and!; try done.
    + by rewrite <-app_assoc.
    + rewrite do_jobs_app. cbn [do_jobs foldl]. by apply do_job_proper.
  - intros w. destruct (do_job_told j (task h)) as (new & Hnew & Htold). rewrite Hnew, length_app.
    intros [Hin|Hin]%elem_of_app.
    { destruct (Hw w Hin) as (n' & k & ? & ? & ?). exists n', k. split; [done|]. split; [done|lia]. }
    destruct (Htold w Hin) as (k & ws & -> & Hk & Hws). exists n, k.
    rewrite Hbj in HJ. destruct (resolve_point parse_error _ _ _ _ _ _ (eq_sym HJ)) as [Hrange Hpend].
    assert (log_changes (log (node D)) k = xs) as Hlen.
    { rewrite (log_changes_split _ (last_applied (node d)) k) by lia. by rewrite Hbase, Hpend. }
    split; [|split; [lia|rewrite Hlen; lia]].
    destruct (same_fields _ _ Hsame) as (_ & _ & _ & Hwt & _ & _ & Hrp).
    assert (role (node (handle_event ev d)) = Leader) as Hl.
    { destruct Hh as [|Hno]; [done|]. exfalso. rewrite Forall_forall in Hno.
      apply (Hno (w, OutCommitted)); [|done]. apply (turn_told ev d J (JResolve k) js).
      { by rewrite Hbj, HJ. }
      pose proof (do_job_proper (JResolve k) _ _ Hsame) as Hs'.
      destruct (same_fields _ _ Hs') as (_ & _ & _ & _ & _ & _ & Hrp').
      exists new. by rewrite <-Hrp', Hnew, Hrp. }
    destruct (begin_turn_fields parse_error ev d) as (_ & _ & _ & _ & Hbw & _).
    exists c, a, ev, d, ws. split_and!; try done; [lia|rewrite <-Hla; lia|].
    rewrite <-Hbw. eapply do_jobs_waiters. by rewrite <-Hwt.
Qed.
End Kept.

(** ** Channels

    Every request is sent with a channel of its own; its message is in one
    mailbox until the driver takes it. *)
Section Channels.
Context `{Rng} {E : Type} `{EngineLaws E} `{JsonLaws WriteCommand}.
Context `{!HashIter N (list waiter)} `{Alloc}.
Context (parse_error : bytes → string) (frame_debug : Frame → string).
Implicit Types (sv : service E) (h : host E).

Abbreviation srun := (srun parse_error frame_debug).
Abbreviation sstep := (sstep parse_error frame_debug).
Abbreviation seen := (seen parse_error frame_debug).
Abbreviation cacts := (cacts parse_error frame_debug).

(** The command a channel was opened for. *)
Fixpoint cmd_in (acts : list caction) (ch : waiter) : WriteCommand :=
  match acts with
  | CPropose _ cmd w :: acts => if decide (ch = w) then cmd else cmd_in acts ch
  | _ :: acts => cmd_in acts ch
  | [] => Apply.Del []
  end.

Lemma cmd_in_propose acts i cmd ch :
  NoDup (opened acts) → CPropose i cmd ch ∈ acts → cmd_in acts ch = cmd.
Proof.
  induction acts as [|a acts IH]; intros Hnd Hin; [by apply not_elem_of_nil in Hin|].
  change (opened (a :: acts)) with (opens a ++ opened acts) in Hnd.
  apply NoDup_app in Hnd as (_ & Hdj & Hnd). apply elem_of_cons in Hin as [<-|Hin].
  { cbn. by rewrite decide_True. }
  assert (ch ∈ opened acts) as Hch by (apply list_elem_of_bind; exists (CPropose i cmd ch); set_solver).
  destruct a as [j|k|j cmd' w|j w]; cbn; try by apply IH.
  case_decide as He; [|by apply IH]. subst w. exfalso. apply (Hdj ch); [left|done].
Qed.

Lemma cmd_in_tagged acts : NoDup (opened acts) → Forall (tagged (cmd_in acts)) acts.
Proof.
  intros Hnd. apply Forall_forall. intros a Ha. destruct a as [j|k|j cmd w|j w]; try done.
  by eapply cmd_in_propose.
Qed.

Lemma opened_app acts1 acts2 : opened (acts1 ++ acts2) = opened acts1 ++ opened acts2.
Proof. apply bind_app. Qed.

(** The [p]th message in the mailbox of server [i]. *)
Definition mails sv (i : NodeId) (p : nat) (ch : waiter) (cmd : WriteCommand) : Prop :=
  ∃ h, hosts sv !! i = Some h ∧ mailbox h !! p = Some (DPropose cmd ch).

Record channels acts sv0 sv : Prop := {
  cn_opened : NoDup (opened (cacts acts sv0));
  cn_below : ∀ ch, ch ∈ opened (cacts acts sv0) → (ch < fresh_channel sv)%nat;
  cn_mail : ∀ i p ch cmd, mails sv i p ch cmd →
    (ch < fresh_channel sv)%nat ∧ (ch ∉ opened (cacts acts sv0)) ∧
    ∀ i' p' cmd', mails sv i' p' ch cmd' → i' = i ∧ p' = p;
  cn_asked : ∀ i ch cmd, (CPropose i cmd ch ∈ cacts acts sv0) ∨ (∃ p, mails sv i p ch cmd) →
    ∃ m k, Asked k i ch cmd ∈ seen acts sv0 m;
}.

Lemma seen_more acts acts' sv m o : o ∈ seen acts sv m → o ∈ seen (acts ++ acts') sv m.
Proof.
  intros (sv1 & a & sv2 & os & Hr & Ha & Hst & Ho & _)%seen_inv. pose proof (lookup_lt_Some _ _ _ Ha).
  eapply seen_intro; [|by apply lookup_app_l_Some|done..]. by rewrite take_app_le by lia.
Qed.

Lemma seen_last acts sv0 sv a sv' os o :
  srun acts sv0 = Some sv → sstep sv a = Some (sv', os) → o ∈ os →
  o ∈ seen (acts ++ [a]) sv0 (length acts).
Proof.
  intros Hr Hst Ho. eapply seen_intro; [by rewrite take_app_length| |done..].
  by rewrite lookup_app_r, Nat.sub_diag.
Qed.

Lemma cacts_snoc acts sv0 sv a :
  srun acts sv0 = Some sv → cacts (acts ++ [a]) sv0 = cacts acts sv0 ++ option_list (cact sv a).
Proof. apply (gather_snoc parse_error frame_debug (λ sv a, option_list (cact sv a))). Qed.

(** Messages leave from the front of mailboxes, the one that leaves being
    proposed to the node. *)
Lemma channels_taken acts sv0 sv a sv' (s : NodeId → nat) :
  channels acts sv0 sv → srun acts sv0 = Some sv →
  (fresh_channel sv ≤ fresh_channel sv')%nat →
  (∀ i p ch cmd, mails sv' i p ch cmd → mails sv i (s i + p) ch cmd) →
  (∀ i cmd ch, cact sv a = Some (CPropose i cmd ch) → mails sv i 0 ch cmd ∧ (0 < s i)%nat) →
  channels (acts ++ [a]) sv0 sv'.
Proof.
  intros [Hnd Hbelow Hmail Hasked] Hr Hle Hs Hca.
  assert (∀ ch, ch ∈ opened (option_list (cact sv a)) →
    ∃ i cmd, cact sv a = Some (CPropose i cmd ch)) as Hopen.
  { intros ch (ca & Hch & Hin)%list_elem_of_bind. destruct (cact sv a) as [ca'|]; [|by apply not_elem_of_nil in Hin].
    apply list_elem_of_singleton in Hin as ->.
    destruct ca' as [j|k|j cmd w|j w]; try by apply not_elem_of_nil in Hch.
    apply list_elem_of_singleton in Hch as ->. by exists j, cmd. }
  split; rewrite (cacts_snoc _ _ _ _ Hr), ?opened_app.
  - apply NoDup_app. split; [done|]. split.
    + intros ch Hch (i & cmd & Ha)%Hopen. destruct (Hca _ _ _ Ha) as [Hm _].
      by destruct (Hmail _ _ _ _ Hm) as (_ & ? & _).
    + destruct (cact sv a) as [[]|]; repeat constructor. by apply not_elem_of_nil.
  - intros ch [Hch|(i & cmd & Ha)%Hopen]%elem_of_app; [apply Hbelow in Hch; lia|].
    destruct (Hca _ _ _ Ha) as [Hm _]. apply Hmail in Hm as [? _]. lia.
  - intros i p ch cmd Hm%Hs. destruct (Hmail _ _ _ _ Hm) as (Hlt & Hno & Honce). split; [lia|]. split.
    + intros [?|(i' & cmd' & Ha)%Hopen]%elem_of_app; [done|].
      destruct (Hca _ _ _ Ha) as [Hm' Hpos]. destruct (Honce _ _ _ Hm') as [<- ?]. lia.
    + intros i' p' cmd' Hm'%Hs. destruct (Honce _ _ _ Hm') as [-> ?]. split; [done|lia].
  - intros i ch cmd Hin. assert ((CPropose i cmd ch ∈ cacts acts sv0) ∨ ∃ p, mails sv i p ch cmd) as Hold.
    { destruct Hin as [[Hin|Hin]%elem_of_app|(p & Hm%Hs)]; [by left| |right; by eexists]. right.
      destruct (cact sv a) as [ca|] eqn:Ha; [|by apply not_elem_of_nil in Hin].
      apply list_elem_of_singleton in Hin as <-. destruct (Hca _ _ _ eq_refl) as [? _]. by eexists. }
    destruct (Hasked _ _ _ Hold) as (m & k & Hseen). exists m, k. by apply seen_more.
Qed.

(** A message comes to the end of a mailbox, with a fresh channel. *)
Lemma channels_sent acts sv0 sv k sv' os i h n :
  channels acts sv0 sv → srun acts sv0 = Some sv → sstep sv (SRequest k) = Some (sv', os) →
  fresh_channel sv' = S (fresh_channel sv) → hosts sv !! i = Some h → n = length (mailbox h) →
  (∀ i' p ch cmd, mails sv' i' p ch cmd → mails sv i' p ch cmd ∨
     i' = i ∧ p = n ∧ ch = fresh_channel sv ∧ Asked k i ch cmd ∈ os) →
  channels (acts ++ [SRequest k]) sv0 sv'.
Proof.
  intros [Hnd Hbelow Hmail Hasked] Hr Hst Hfr Hi Hn Hm'.
  split; rewrite (cacts_snoc _ _ _ _ Hr); cbn [cact option_list]; rewrite app_nil_r, ?Hfr.
  - done.
  - intros ch Hch%Hbelow. lia.
  - intros i' p ch cmd [Hm|(-> & -> & -> & _)]%Hm'.
    + destruct (Hmail _ _ _ _ Hm) as (Hlt & Hno & Honce). split; [lia|]. split; [done|].
      intros i2 p2 cmd2 [Hm2|(_ & _ & -> & _)]%Hm'; [by eapply Honce|lia].
    + split; [lia|]. split; [intros Hin%Hbelow; lia|].
      intros i2 p2 cmd2 [Hm2|(-> & -> & _)]%Hm'; [|done]. apply Hmail in Hm2 as [? _]. lia.
  - intros i' ch cmd [Hin|(p & [Hm|(-> & _ & _ & Ho)]%Hm')].
    + destruct (Hasked i' ch cmd) as (m & k' & Hs); [by left|]. exists m, k'. by apply seen_more.
    + destruct (Hasked i' ch cmd) as (m & k' & Hs); [right; by eexists|]. exists m, k'. by apply seen_more.
    + exists (length acts), k. by eapply seen_last.
Qed.

(** Mailboxes do not notice what the driver does. *)
Lemma mails_insert sv sv' i h h' p ch cmd j :
  hosts sv !! i = Some h → hosts sv' = <[i := h']> (hosts sv) → mailbox h' = mailbox h →
  mails sv' j p ch cmd → mails sv j p ch cmd.
Proof.
  intros Hi Hh Hm (h2 & Hj & Hp). rewrite Hh in Hj.
  apply lookup_insert_Some in Hj as [[<- <-]|[_ Hj]]; [|by exists h2].
  exists h. by rewrite <-Hm.
Qed.

Lemma channels_still acts sv0 sv a sv' :
  channels acts sv0 sv → srun acts sv0 = Some sv → (fresh_channel sv ≤ fresh_channel sv')%nat →
  cact sv a = None → (∀ i p ch cmd, mails sv' i p ch cmd → mails sv i p ch cmd) →
  channels (acts ++ [a]) sv0 sv'.
Proof.
  intros Hc Hr Hle Ha Hm. eapply (channels_taken _ _ _ _ _ (λ _, 0%nat)); [done..|].
  intros i cmd ch. by rewrite Ha.
Qed.

Lemma channels_server acts sv0 sv a sv' os :
  channels acts sv0 sv → srun acts sv0 = Some sv → server_step parse_error a sv = Some (sv', os) →
  channels (acts ++ [a]) sv0 sv'.
Proof.
  intros Hc Hr Hst.
  destruct (server_inv _ _ _ _ _ Hst) as (_ & ca & i & ev & h & Hca & Hev & Hi & _ & _ & _ & Hh & Hfr & _).
  eapply (channels_taken _ _ _ _ _
    (λ j, if decide (j = i) then match ev with EvRequest _ => 1%nat | _ => 0%nat end else 0%nat));
    [done|done|by rewrite Hfr| |].
  - intros j p ch cmd (h2 & Hj & Hp). rewrite Hh in Hj. exists (if decide (j = i) then h else h2).
    apply lookup_insert_Some in Hj as [[-> <-]|[Hne Hj]].
    + rewrite !decide_True by done. split; [done|]. cbn [mailbox] in Hp.
      destruct ev; [done..|]. cbn. by rewrite <-lookup_tail.
    + by rewrite !decide_False by done.
  - intros j cmd ch Ha. rewrite Ha in Hca. injection Hca as <-. cbn in Hev. injection Hev as -> <-.
    rewrite decide_True by done. split; [|lia]. destruct a as [k j|j|k|j|j|k r|k|k]; try discriminate Ha.
    cbn [cact] in Ha. destruct (hosts sv !! j) as [h'|] eqn:Hj; [|done]. cbn [mbind option_bind] in Ha.
    destruct (mailbox h') as [|msg ms] eqn:Hms; [done|]. cbn in Ha.
    destruct msg as [m|cmd' w|w]; try done. cbn in Ha. injection Ha as -> -> ->.
    exists h'. by rewrite Hms.
Qed.

Lemma channels_step acts sv0 sv a sv' os :
  channels acts sv0 sv → srun acts sv0 = Some sv → sstep sv a = Some (sv', os) →
  channels (acts ++ [a]) sv0 sv'.
Proof.
  intros Hc Hr Hst. pose proof (idle_inv _ _ _ _ _ _ Hst) as Hidle.
  assert (∀ a, hosts sv' = hosts sv → fresh_channel sv' = fresh_channel sv → cact sv a = None →
    channels (acts ++ [a]) sv0 sv') as Hsame.
  { intros a' Hh Hf Ha. eapply channels_still; [done..|by rewrite Hf|done|]. unfold mails. by rewrite Hh. }
  destruct a as [k i|i|k|i|i|k r|k|k]; cbn [Sessions.sstep] in Hst.
  - destruct Hidle as (? & _ & ? & _). by apply Hsame.
  - by eapply channels_server.
  - by eapply channels_server.
  - by eapply channels_server.
  - destruct (job_inv _ _ _ _ Hst) as (_ & h & j & js & Hi & Hj & Hh & Hf & _).
    eapply channels_still; [done..|by rewrite Hf|done|]. intros i' p ch cmd.
    by eapply mails_insert.
  - destruct Hidle as (? & _ & ? & _). by apply Hsame.
  - destruct (request_inv _ _ _ _ _ _ Hst) as [[Hh Hf _|i h m reply command Hi Hf Hh _ _|i h m command msg Hi Hmsg Hf Hh Hos] _].
    + by apply Hsame.
    + eapply channels_still; [done..|by rewrite Hf|done|]. intros i' p ch cmd. by eapply mails_insert.
    + eapply (channels_sent _ _ _ _ _ _ i h); [done..|].
      intros i' p ch cmd (h2 & Hj & Hp). rewrite Hh in Hj.
      apply lookup_insert_Some in Hj as [[<- <-]|[_ Hj]]; [|left; by exists h2].
      cbn [mailbox] in Hp. apply lookup_app_Some in Hp as [Hp|[Hle Hp]]; [left; by exists h|right].
      apply list_lookup_singleton_Some in Hp as [Hp ->]. split; [done|]. split; [lia|]. rewrite Hos.
      destruct command; cbn in Hmsg; simplify_eq; split; [done|left|done|left].
  - destruct (answer_inv _ _ _ _ Hst) as (Hh & _ & Hf & _). by apply Hsame.
Qed.

Lemma srun_channels acts sv0 sv :
  (∀ i h, hosts sv0 !! i = Some h → mailbox h = []) → srun acts sv0 = Some sv → channels acts sv0 sv.
Proof.
  intros Hm. revert sv. induction acts as [|a acts IH] using rev_ind; intros sv Hr.
  - injection Hr as <-. cbn. assert (∀ i p ch cmd, ¬ mails sv0 i p ch cmd) as Hno.
    { intros i p ch cmd (h & Hi & Hp). by rewrite (Hm _ _ Hi) in Hp. }
    split; [constructor|by intros ch Hch%not_elem_of_nil|by intros i p ch cmd ?%Hno|].
    intros i ch cmd [Hin%not_elem_of_nil|(p & Hp%Hno)]; done.
  - destruct (srun_snoc _ _ _ _ _ _ Hr) as (sv1 & os & Hr1 & Hst). by eapply channels_step; [apply IH|..].
Qed.
End Channels.

(** ** Runs of the service and of its cluster *)
Section Simulation.
Context `{Rng} {E : Type} `{EngineLaws E} `{JsonLaws WriteCommand}.
Context `{!HashIter N (list waiter)} `{Alloc}.
Context (parse_error : bytes → string) (frame_debug : Frame → string) (e : E).
Implicit Types (sv : service E) (h : host E) (d D : Driver E) (c : cluster E).

Abbreviation srun := (srun parse_error frame_debug).
Abbreviation sstep := (sstep parse_error frame_debug).
Abbreviation cacts := (cacts parse_error frame_debug).
Abbreviation made := (made parse_error frame_debug).
Abbreviation turn := (turn parse_error).
Abbreviation crun := (crun parse_error).
Abbreviation cstep := (cstep parse_error).
Abbreviation honest := (honest parse_error).
Abbreviation honest_run := (honest_run parse_error).

(** Freshly started servers, nobody connected yet. *)
Definition fresh_service sv : Prop :=
  (∀ i h, hosts sv !! i = Some h → jobs h = [] ∧ mailbox h = [] ∧ replies (task h) = []) ∧
  fresh_servers (view sv) e ∧ conns sv = ∅.

Lemma fresh_mail sv : fresh_service sv → ∀ i h, hosts sv !! i = Some h → mailbox h = [].
Proof. intros [Hi _] i h Hh. by destruct (Hi _ _ Hh) as (_ & -> & _). Qed.

(** ** Counters do not matter *)
Lemma same_event ev d d' : same_driver d d' → node (handle_event ev d) = node (handle_event ev d').
Proof. intros Hs. by destruct (same_fields _ _ (handle_event_proper ev _ _ Hs)). Qed.

Lemma same_permitted ev d d' :
  same_driver d d' → permitted Faithful ev d → permitted Faithful ev d'.
Proof.
  intros Hs. unfold permitted. rewrite (same_event _ _ _ Hs).
  by destruct (same_fields _ _ Hs) as [-> _].
Qed.

Lemma same_honest ev d d' : same_driver d d' → honest ev d → honest ev d'.
Proof.
  intros Hs. unfold honest. rewrite (same_event _ _ _ Hs).
  destruct (same_fields _ _ Hs) as (_ & _ & _ & _ & _ & _ & ->).
  by destruct (same_fields _ _ (turn_proper parse_error ev _ _ Hs)) as (_ & _ & _ & _ & _ & _ & ->).
Qed.

Lemma honest_snoc cas c0 c a i ev d :
  honest_run cas c0 → crun Faithful cas c0 = Some c → event_of c a = Some (i, ev) →
  drivers c !! i = Some d → honest ev d → honest_run (cas ++ [a]) c0.
Proof.
  intros Hh Hr Hev Hd Ho m c1 a1 i1 ev1 d1 Hr1 Ha1 Hev1 Hd1.
  apply lookup_app_Some in Ha1 as [Ha1|[Hlen Ha1]].
  - pose proof (lookup_lt_Some _ _ _ Ha1). rewrite take_app_le in Hr1 by lia. by eapply Hh.
  - apply list_lookup_singleton_Some in Ha1 as [Hm <-].
    assert (m = length cas) as -> by lia. rewrite take_app_length in Hr1. by simplify_eq.
Qed.

(** ** What every run keeps *)
Record kept acts sv0 sv c : Prop := {
  kp_run : crun Faithful (cacts acts sv0) (view sv0) = Some c;
  kp_wire : packets sv = wire c;
  kp_honest : honest_run (cacts acts sv0) (view sv0);
  kp_hosts : ∀ i h, hosts sv !! i = Some h → ∃ D, drivers c !! i = Some D ∧
    hosted parse_error e (view sv0) (cacts acts sv0) i h D (made i acts sv0);
}.

Lemma made_snoc i acts sv0 sv a :
  srun acts sv0 = Some sv → made i (acts ++ [a]) sv0 = made i acts sv0 ++ made_by i sv a.
Proof. apply (gather_snoc parse_error frame_debug (made_by i)). Qed.

(** A step that neither begins a turn nor does a job of one. *)
Lemma kept_still acts sv0 sv c a sv' :
  kept acts sv0 sv c → srun acts sv0 = Some sv → cact sv a = None → (∀ i, made_by i sv a = []) →
  packets sv' = packets sv →
  (∀ i h', hosts sv' !! i = Some h' → ∃ h, hosts sv !! i = Some h ∧
     same_driver (task h') (task h) ∧ jobs h' = jobs h) →
  kept (acts ++ [a]) sv0 sv' c.
Proof.
  intros [Hc Hw Hh Hho] Hr Ha Hmade Hp Hhosts.
  split; rewrite ?(cacts_snoc _ _ _ _ _ _ Hr), ?Ha, ?app_nil_r; [done|congruence|done|].
  intros i h' (h & Hi & Hs & Hj)%Hhosts. destruct (Hho _ _ Hi) as (D & HD & Hd).
  exists D. split; [done|]. rewrite (made_snoc _ _ _ _ _ Hr), Hmade, app_nil_r. by eapply hosted_same.
Qed.

Lemma kept_job acts sv0 sv c i sv' os :
  kept acts sv0 sv c → srun acts sv0 = Some sv → job_step i sv = Some (sv', os) →
  kept (acts ++ [SJob i]) sv0 sv' c.
Proof.
  intros [Hc Hw Hh Hho] Hr Hst. destruct (job_inv _ _ _ _ Hst) as (_ & h & j & js & Hi & Hj & Hhs & _ & Hp).
  split; rewrite ?(cacts_snoc _ _ _ _ _ _ Hr); cbn [cact option_list]; rewrite ?app_nil_r;
    [done|congruence|done|].
  intros i' h' Hi'. rewrite Hhs in Hi'. rewrite (made_snoc _ _ _ _ _ Hr). cbn [made_by].
  apply lookup_insert_Some in Hi' as [[<- <-]|[Hne Hi']].
  - rewrite decide_True, Hi by done. cbn [fmap option_fmap option_map default]. rewrite Hj.
    destruct (Hho _ _ Hi) as (D & HD & Hd). exists D. split; [done|].
    change (pending_changes (take 1 (j :: js))) with (job_changes j ++ []). rewrite app_nil_r.
    by apply hosted_job.
  - rewrite decide_False, app_nil_r by done. by apply Hho.
Qed.

(** A turn begins: the cluster makes its step. *)
Lemma kept_server acts sv0 sv c a sv' os :
  kept acts sv0 sv c → fresh_service sv0 → srun acts sv0 = Some sv →
  channels parse_error frame_debug (acts ++ [a]) sv0 sv' →
  server_step parse_error a sv = Some (sv', os) → (∀ i, made_by i sv a = []) →
  ∃ c', kept (acts ++ [a]) sv0 sv' c'.
Proof.
  intros [Hc Hw Hh Hho] (_ & Hf & _) Hr Hch Hst Hmade.
  destruct (server_inv _ _ _ _ _ Hst) as (_ & ca & i & ev & h & Hca & Hev & Hi & Hj & Hp & Hon & Hhs & _ & Hpk).
  pose proof (cn_opened _ _ _ _ _ Hch) as Hnd. rewrite (cacts_snoc _ _ _ _ _ _ Hr), Hca in Hnd.
  change (option_list (Some ca)) with [ca] in Hnd. set (cas := cacts acts sv0) in *.
  pose proof (cmd_in_tagged _ Hnd) as [Htag Hta]%Forall_app. apply Forall_cons_1 in Hta as [Hta _].
  destruct (Hho _ _ Hi) as (D & HD & Hd). pose proof (hd_driver _ _ _ _ _ _ _ _ Hd) as Hsame.
  unfold completed in Hsame. rewrite Hj in Hsame. cbn [do_jobs foldl] in Hsame.
  assert (event_of c ca = Some (i, ev)) as Hev'
    by (rewrite <-Hev; destruct ca; cbn; by rewrite ?Hw).
  pose proof (same_permitted _ _ _ Hsame Hp) as HpD. pose proof (same_honest _ _ _ Hsame Hon) as HoD.
  destruct (crun_serving _ _ _ _ _ _ _ (fresh_serving _ _ _ _ Hf) Htag Hc) as (nacts & s & _ & Hsv).
  assert (event_ok (cmd_in (cas ++ [ca])) D ev) as Hevok
    by (eapply serving_event; [exact Hsv|exact Hta|exact Hev'|exact HD|exact HpD]).
  exists (mkCluster (<[i := turn ev D]> (drivers c)) (wire c ++ posted i D (turn ev D))).
  split; rewrite ?(cacts_snoc _ _ _ _ _ _ Hr), ?Hca; try change (option_list (Some ca)) with [ca]; fold cas.
  - rewrite crun_app, Hc. cbn [mbind option_bind Cluster.crun]. unfold Cluster.cstep.
    rewrite Hev'. cbn [mbind option_bind fst snd]. rewrite HD. cbn [mbind option_bind].
    by rewrite decide_True.
  - rewrite Hpk, Hw. cbn [wire]. f_equal. unfold posted.
    destruct (begin_turn_fields parse_error ev (task h)) as (_ & -> & _).
    destruct (same_fields _ _ Hsame) as (_ & _ & _ & _ & _ & -> & _).
    by destruct (same_fields _ _ (turn_proper parse_error ev _ _ Hsame)) as (_ & _ & _ & _ & _ & -> & _).
  - by eapply honest_snoc.
  - intros i' h' Hi'. rewrite Hhs in Hi'. rewrite (made_snoc _ _ _ _ _ Hr), Hmade, app_nil_r. cbn [drivers].
    apply lookup_insert_Some in Hi' as [[<- <-]|[Hne Hi']].
    + exists (turn ev D). rewrite lookup_insert_eq. split; [done|]. pose proof (sv_drivers _ _ _ _ _ Hsv _ _ HD).
      by eapply hosted_begin.
    + destruct (Hho _ _ Hi') as (D' & HD' & Hd'). exists D'. rewrite lookup_insert_ne by done.
      split; [done|]. by apply hosted_app.
Qed.

Lemma kept_step acts sv0 sv c a sv' os :
  kept acts sv0 sv c → fresh_service sv0 → srun acts sv0 = Some sv → sstep sv a = Some (sv', os) →
  ∃ c', kept (acts ++ [a]) sv0 sv' c'.
Proof.
  intros Hk Hf Hr Hst.
  assert (channels parse_error frame_debug (acts ++ [a]) sv0 sv') as Hch.
  { eapply channels_step; [apply srun_channels; [by apply fresh_mail|done]|done..]. }
  pose proof (idle_inv _ _ _ _ _ _ Hst) as Hidle.
  assert (∀ a, hosts sv' = hosts sv → packets sv' = packets sv → cact sv a = None →
    (∀ i, made_by i sv a = []) → ∃ c', kept (acts ++ [a]) sv0 sv' c') as Hsame.
  { intros a' Hh Hp Ha Hm. exists c. eapply kept_still; [done..|]. rewrite Hh. intros i h Hi. by exists h. }
  destruct a as [k i|i|k|i|i|k r|k|k]; cbn [Sessions.sstep] in Hst.
  - destruct Hidle as (? & ? & _ & _). by apply Hsame.
  - by eapply kept_server.
  - by eapply kept_server.
  - by eapply kept_server.
  - exists c. by eapply kept_job.
  - destruct Hidle as (? & ? & _ & _). by apply Hsame.
  - destruct (request_inv _ _ _ _ _ _ Hst) as [Hreq Hp].
    assert (hosts sv' = hosts sv ∨ ∃ i h m ms, hosts sv !! i = Some h ∧
      hosts sv' = <[i := mkHost (set_metrics m (task h)) (jobs h) ms]> (hosts sv)) as [Hh|(i & h & m & ms & Hi & Hh)].
    { destruct Hreq; [by left|right..]; eauto 6. }
    { by apply Hsame. }
    exists c. eapply kept_still; [done..|]. intros i' h' Hi'. rewrite Hh in Hi'.
    apply lookup_insert_Some in Hi' as [[<- <-]|[_ Hi']]; [|by exists h'].
    exists h. split; [done|]. split; [apply same_metrics|done].
  - destruct (answer_inv _ _ _ _ Hst) as (? & ? & _). by apply Hsame.
Qed.

Lemma srun_kept acts sv0 sv :
  fresh_service sv0 → srun acts sv0 = Some sv → ∃ c, kept acts sv0 sv c.
Proof.
  intros Hf. revert sv. induction acts as [|a acts IH] using rev_ind; intros sv Hr.
  - injection Hr as <-. exists (view sv0). split; [done|done|by intros m ? ? ? ? ? _ ?|].
    intros i h Hi. destruct Hf as (Hidle & (_ & Hfresh & Hst) & _).
    destruct (Hidle _ _ Hi) as (Hj & _ & Hrep).
    assert (drivers (view sv0) !! i = Some (task h)) as HD.
    { cbn. rewrite lookup_fmap, Hi. cbn. unfold completed. by rewrite Hj. }
    exists (task h). split; [done|]. destruct (Hst _ _ HD) as [Hs _].
    split; [by unfold completed; rewrite Hj|done| |by rewrite Hj|by rewrite Hrep; intros w ?%not_elem_of_nil].
    cbn. destruct (proj2 Hfresh i (node (task h))) as (en & ps & cf & Hnew & _).
    { cbn [nodes]. unfold nodes_of. by rewrite lookup_fmap, HD. }
    unfold new in Hnew. case_decide; [|done]. injection Hnew as Hn. by rewrite Hj, <-Hn.
  - destruct (srun_snoc _ _ _ _ _ _ Hr) as (sv1 & os & Hr1 & Hst).
    destruct (IH _ Hr1) as [c Hk]. by eapply kept_step.
Qed.
End Simulation.

(** ** The property *)
Section Property.
Context `{Rng} {E : Type} `{EngineLaws E} `{JsonLaws WriteCommand}.
Context `{!HashIter N (list waiter)} `{Alloc}.
Context (parse_error : bytes → string) (frame_debug : Frame → string).
Implicit Types (sv : service E) (h : host E) (D : Driver E) (c : cluster E).
Implicit Types (ws : list (waiter * WriteCommand)).

Abbreviation srun := (srun parse_error frame_debug).
Abbreviation sstep := (sstep parse_error frame_debug).
Abbreviation seen := (seen parse_error frame_debug).
Abbreviation cacts := (cacts parse_error frame_debug).
Abbreviation made := (made parse_error frame_debug).
Abbreviation crun := (crun parse_error).
Abbreviation log_changes := (log_changes parse_error).

(** The replies of a committed write. *)
Definition positive (reply : Frame) : Prop := reply = Simple "OK" ∨ reply = Integer 1.

Lemma positive_committed command out : positive (outcome_reply command out) → out = OutCommitted.
Proof. destruct out as [|l]; [done|]. by intros [?|?]. Qed.

(** The accesses to a store that the writes make, one after the other: SET makes
    one, DEL one per key. *)
Definition accesses ws : list change := ws.*2 ≫= changes.

(** The store after the first [n] of them. *)
Definition after ws (n : nat) (e : E) : E := foldl change_store e (take n (accesses ws)).

(** How many of them the first [p] writes make. *)
Definition extent ws (p : nat) : nat := length (accesses (take p ws)).

Lemma paired_fst {A B} (f : A → B) (l : list A) : ((λ x, (x, f x)) <$> l).*1 = l.
Proof. induction l as [|x l IH]; [done|]. cbn. f_equal. exact IH. Qed.

Lemma paired_snd {A B} (f : A → B) (l : list A) : ((λ x, (x, f x)) <$> l).*2 = f <$> l.
Proof. induction l as [|x l IH]; [done|]. cbn. f_equal. exact IH. Qed.

Lemma prefix_take {A} (l k : list A) : l `prefix_of` k → l = take (length l) k.
Proof. intros [k' ->]. by rewrite take_app_length. Qed.

Lemma accesses_take ws p : accesses (take p ws) `prefix_of` accesses ws.
Proof.
  rewrite <-(take_drop p ws) at 2. unfold accesses. rewrite fmap_app, bind_app. by apply prefix_app_r.
Qed.

(** The service and its cluster after [m] steps. *)
Lemma kept_prefix e acts sv0 sv m :
  fresh_service e sv0 → srun acts sv0 = Some sv →
  ∃ sv1 c1, srun (take m acts) sv0 = Some sv1 ∧
    kept parse_error frame_debug e (take m acts) sv0 sv1 c1 ∧
    cacts acts sv0 = cacts (take m acts) sv0 ++ cacts (drop m acts) sv1.
Proof.
  intros Hf Hr. rewrite <-(take_drop m acts), srun_app in Hr.
  destruct (srun (take m acts) sv0) as [sv1|] eqn:Hr1; [|done].
  destruct (srun_kept parse_error frame_debug e _ _ _ Hf Hr1) as [c1 Hk]. exists sv1, c1.
  split; [done|]. split; [done|]. rewrite <-(take_drop m acts) at 1. by apply gather_app.
Qed.

Lemma made_mono e acts sv0 sv m m' i :
  fresh_service e sv0 → srun acts sv0 = Some sv → (m ≤ m')%nat →
  (length (made i (take m acts) sv0) ≤ length (made i (take m' acts) sv0))%nat.
Proof.
  intros Hf Hr Hm. destruct (kept_prefix e acts sv0 sv m Hf Hr) as (sv1 & _ & Hr1 & _).
  assert (take m' acts = take m acts ++ take (m' - m) (drop m acts)) as ->.
  { rewrite take_take_drop. f_equal. lia. }
  unfold Sessions.made. rewrite (gather_app parse_error frame_debug _ _ _ _ _ Hr1), length_app. lia.
Qed.

(** The writes of the channels [os], with their commands. *)
Definition writes (cas : list caction) (os : list waiter) : list (waiter * WriteCommand) :=
  (λ w, (w, cmd_in cas w)) <$> os.

Lemma writes_lookup cas os p x :
  writes cas os !! p = Some x → ∃ w, os !! p = Some w ∧ x = (w, cmd_in cas w).
Proof.
  unfold writes. rewrite list_lookup_fmap. destruct (os !! p) as [w|]; [|done].
  intros [= <-]. by exists w.
Qed.

(** Given the order of writes of the cluster's run, what a server has applied
    after [m] steps of the service is a first part of their accesses. *)
Lemma server_at e acts sv0 sv os m sv1 i h :
  let cas := cacts acts sv0 in
  fresh_service e sv0 → srun acts sv0 = Some sv →
  (∀ n cn, crun Faithful (take n cas) (view sv0) = Some cn →
     follows_order parse_error (cmd_in cas) os cn) →
  srun (take m acts) sv0 = Some sv1 → hosts sv1 !! i = Some h →
  ∃ D, hosted parse_error e (view sv0) (cacts (take m acts) sv0) i h D (made i (take m acts) sv0) ∧
    (∀ k, k ≤ last_applied (node D) →
       log_changes (log (node D)) k = accesses (take (N.to_nat k) (writes cas os))) ∧
    made i (take m acts) sv0 `prefix_of` accesses (writes cas os).
Proof.
  intros cas Hf Hr Hfollow Hr1 Hi. destruct (kept_prefix e _ _ _ m Hf Hr) as (sv2 & c1 & Hr2 & Hk & Hsplit).
  assert (sv2 = sv1) as -> by congruence. destruct Hk as [Hc1 _ _ Hho].
  destruct (Hho _ _ Hi) as (D & HD & Hd). exists D. split; [done|].
  assert (follows_order parse_error (cmd_in cas) os c1) as Hfo.
  { apply (Hfollow (length (cacts (take m acts) sv0))). unfold cas. by rewrite Hsplit, take_app_length. }
  destruct (Hfo _ _ HD) as [_ Hlog].
  assert (∀ k, k ≤ last_applied (node D) → log_changes (log (node D)) k =
    accesses (take (N.to_nat k) (writes cas os))) as Heq.
  { intros k Hk. unfold Service.log_changes, accesses. rewrite Hlog by done.
    unfold writes. by rewrite <-fmap_take, paired_snd. }
  split; [done|]. etrans; [|apply (accesses_take _ (N.to_nat (last_applied (node D))))].
  rewrite <-Heq, <-(hd_done _ _ _ _ _ _ _ _ Hd) by done. by apply prefix_app_r.
Qed.

(** A request for a write that comes after the first [m] steps is proposed to a
    node after the cluster's steps in those. *)
Lemma asked_later e acts sv0 sv m m' k i ch cmd n :
  fresh_service e sv0 → srun acts sv0 = Some sv → (m ≤ m')%nat →
  Asked k i ch cmd ∈ seen acts sv0 m' → opened_at (cacts acts sv0) n ch →
  (length (cacts (take m acts) sv0) ≤ n)%nat.
Proof.
  intros Hf Hr Hm Hs (j & cmd' & Hn). apply Nat.nlt_ge. intros Hlt.
  destruct (seen_inv _ _ _ _ _ _ Hs) as (sv1 & a & sv2 & os & Hr1 & _ & Hst & Ho & _).
  destruct (kept_prefix e acts sv0 sv m Hf Hr) as (sv3 & _ & Hr3 & _ & Hsplit).
  assert (ch ∈ opened (cacts (take m' acts) sv0)) as Hin.
  { assert (take m' acts = take m acts ++ take (m' - m) (drop m acts)) as ->.
    { rewrite take_take_drop. f_equal. lia. }
    unfold Sessions.cacts. rewrite (gather_app parse_error frame_debug _ _ _ _ _ Hr3), opened_app.
    apply elem_of_app. left. rewrite Hsplit, lookup_app_l in Hn by done.
    apply list_elem_of_bind. exists (CPropose j cmd' ch). split; [by left|].
    by eapply list_elem_of_lookup_2. }
  pose proof (step_seen _ _ _ _ _ _ _ Hst Ho) as Hch. cbn in Hch.
  pose proof (cn_below _ _ _ _ _ (srun_channels parse_error frame_debug _ _ _ (fresh_mail _ _ Hf) Hr1) _ Hin).
  lia.
Qed.

(** [C1] What the clients see: take any run of freshly started servers with
    clients connecting, sending requests in any pieces and waiting for answers
    all at once, beside the drivers, whose turns they can see half done; a run
    in which nodes remember their votes, keep no entries their leader did not
    send, neither compact nor take snapshots nor reach the last [u64] index, and
    only leading servers acknowledge writes. There is one order of the clients'
    writes, so one of the accesses they make to a store (SET one, DEL one for
    each key), and for each server a growing first part of the accesses, such
    that every GET is answered with the value after the part of the client's
    server at that moment, in the middle of a DEL or not; when a client is told
    OK or 1, all of its write's accesses are in the part of its server, and its
    write comes before every write that any client asks for later. Each write of
    the order was asked for, with that very command, and is in it once. *)
Theorem clients_see_one_order e acts sv0 sv :
  fresh_service e sv0 → srun acts sv0 = Some sv →
  ∃ ws (part : nat → NodeId → nat),
    NoDup ws.*1 ∧
    (∀ ch cmd, (ch, cmd) ∈ ws → ∃ m k i, Asked k i ch cmd ∈ seen acts sv0 m) ∧
    (∀ m m' i, (m ≤ m')%nat → (part m i ≤ part m' i)%nat) ∧
    (∀ m k i key reply, Got k i key reply ∈ seen acts sv0 m →
       reply = value_reply (Storage.get (after ws (part m i) e) key)) ∧
    ∀ m k i ch reply, Told k i ch reply ∈ seen acts sv0 m → positive reply →
      ∃ p cmd, ws !! p = Some (ch, cmd) ∧ (extent ws (S p) ≤ part m i)%nat ∧
        ∀ m' k' i' ch' asked cmd' p', (m < m')%nat → Asked k' i' ch' asked ∈ seen acts sv0 m' →
          ws !! p' = Some (ch', cmd') → (p < p')%nat.
Proof.
  intros Hf Hr. destruct (srun_kept _ _ _ _ _ _ Hf Hr) as [c [Hc _ _ _]].
  set (cas := cacts acts sv0) in *.
  pose proof (srun_channels parse_error frame_debug _ _ _ (fresh_mail _ _ Hf) Hr) as Hcn.
  pose proof (cn_opened _ _ _ _ _ Hcn) as Hnd. fold cas in Hnd.
  destruct (common_linear_order parse_error (cmd_in cas) e cas (view sv0) c (proj1 (proj2 Hf))
    (cmd_in_tagged _ Hnd) Hnd Hc) as (os & Hnw & Hop & Hfollow & Hack).
  exists (writes cas os), (λ m i, length (made i (take m acts) sv0)).
  split; [|split; [|split; [|split]]].
  - unfold writes. by rewrite paired_fst.
  - intros ch cmd (w & [= -> ->] & Hw)%list_elem_of_fmap. apply Hop in Hw.
    apply list_elem_of_bind in Hw as (a & Hch & Hin).
    destruct a as [j|k|j cmd w'|j w']; try by apply not_elem_of_nil in Hch.
    apply list_elem_of_singleton in Hch as ->. rewrite (cmd_in_propose _ _ _ _ Hnd Hin).
    destruct (cn_asked _ _ _ _ _ Hcn j w' cmd) as (m & k & Hs); [by left|]. by exists m, k, j.
  - intros m m' i Hm. by eapply made_mono.
  - intros m k i key reply Hs. destruct (seen_inv _ _ _ _ _ _ Hs) as (sv1 & a & ? & ? & Hr1 & _ & Hst & Ho & _).
    destruct (step_seen _ _ _ _ _ _ _ Hst Ho) as (h & Hi & ->).
    destruct (server_at _ _ _ _ _ _ _ _ _ Hf Hr Hfollow Hr1 Hi) as (D & Hd & _ & Hp).
    fold cas in Hp. rewrite (hd_store _ _ _ _ _ _ _ _ Hd).
    unfold after. by rewrite <-(prefix_take _ _ Hp).
  - intros m k i ch reply Hs Hpos. destruct (seen_inv _ _ _ _ _ _ Hs) as (sv1 & a & ? & ? & Hr1 & _ & Hst & Ho & _).
    destruct (step_seen _ _ _ _ _ _ _ Hst Ho) as (h & command & out & Hi & -> & Hin).
    apply positive_committed in Hpos as ->.
    destruct (server_at _ _ _ _ _ _ _ _ _ Hf Hr Hfollow Hr1 Hi) as (D & Hd & Hlog & _).
    fold cas in Hlog.
    destruct (hd_told _ _ _ _ _ _ _ _ Hd _ Hin) as (n & b & Hacked & Hb & Hlen).
    destruct (kept_prefix e _ _ _ m Hf Hr) as (sv2 & c1 & _ & _ & Hsplit).
    assert (n < length (cacts (take m acts) sv0))%nat as Hn
      by (destruct Hacked as (? & ? & ? & ? & ? & _ & Hl & _); by eapply lookup_lt_Some).
    apply (acked_index_app _ _ _ (cacts (drop m acts) sv2)) in Hacked. rewrite <-Hsplit in Hacked.
    destruct (Hack _ _ _ _ Hacked) as (Hw & Hpos & _ & Hlater).
    exists (N.to_nat b - 1)%nat, (cmd_in cas ch). split; [by unfold writes; rewrite list_lookup_fmap, Hw|]. split.
    + rewrite Hlog in Hlen by done. unfold extent. by replace (S (N.to_nat b - 1)) with (N.to_nat b) by lia.
    + intros m' k' i' ch' asked cmd' p' Hm Hs' (w' & Hw' & [= <- _])%writes_lookup.
      assert (ch' ∈ opened cas) as (ca & Hch & [n' Hn']%list_elem_of_lookup_1)%list_elem_of_bind
        by (apply Hop; by eapply list_elem_of_lookup_2).
      assert (opened_at cas n' ch') as Hat'.
      { destruct ca as [j|?|j cmd w|j w]; try by apply not_elem_of_nil in Hch.
        apply list_elem_of_singleton in Hch as ->. by exists j, cmd. }
      apply (Hlater n' ch' p'); [|done..].
      pose proof (asked_later _ _ _ _ m m' _ _ _ _ _ Hf Hr ltac:(lia) Hs' Hat'). lia.
Qed.
End Property.

(** ** Runs of three servers with clients *)
Section Runs.
#[local] Existing Instance low_rng.
#[local] Existing Instance canonical_iter.
#[local] Existing Instance DemoCodec.demo_json.
#[local] Existing Instance DemoCodec.demo_json_laws.
#[local] Existing Instance alloc32.

Definition idle_host (d : Driver Memory.MemoryEngine) : host Memory.MemoryEngine := mkHost d [] [].

Definition open_three : service Memory.MemoryEngine :=
  mkService (idle_host <$> drivers three) [] ∅ 0 (λ _, []).

Lemma open_three_fresh : fresh_service Memory.new open_three.
Proof.
  assert (view open_three = three) as Hview.
  { unfold view, open_three. cbn [hosts packets]. rewrite <-map_fmap_compose.
    unfold compose, completed. cbn [idle_host jobs task do_jobs foldl]. by rewrite map_fmap_id. }
  split; [|split; [rewrite Hview; exact three_fresh|done]].
  intros i h Hi. cbn [hosts open_three] in Hi.
  apply lookup_fmap_Some in Hi as (d & <- & Hd). split; [done|]. split; [done|].
  apply elem_of_list_to_map_2 in Hd. cbn [fmap list_fmap] in Hd. rewrite !elem_of_cons in Hd.
  destruct Hd as [Hd|[Hd|[Hd|Hd]]]; [injection Hd as _ ->; done..|by apply not_elem_of_nil in Hd].
Qed.

(** A client's request arrives in one piece and is handled. *)
Definition asks (k : nat) (command : Command) : list saction :=
  [SRead k (Chunk (request_bytes command)); SRequest k].

(** The turn of server [i] that [a] begins, with the first [n] of its jobs. *)
Definition turns (a : saction) (i : NodeId) (n : nat) : list saction := a :: replicate n (SJob i).

(** ["n1"] is elected; client [0] writes [a] and [b] there and then deletes both;
    client [1] reads at ["n1"] while its driver is between the two accesses of
    the DEL; client [2] reads [a] at ["n2"], which has not learnt of it, and
    again when it has. *)
Definition client_run : list saction :=
  [SConnect 0 "n1"; SConnect 1 "n1"; SConnect 2 "n2"] ++
  mjoin (replicate 5 (turns (STick "n1") "n1" 1)) ++
  turns (SDeliver 0) "n2" 1 ++ turns (SDeliver 2) "n1" 1 ++
  asks 0 (Command.Set_ "a" [x01]) ++ turns (STake "n1") "n1" 1 ++
  turns (SDeliver 5) "n2" 1 ++ turns (SDeliver 7) "n1" 3 ++ [SAnswer 0] ++
  asks 2 (Command.Get "a") ++
  asks 0 (Command.Set_ "b" [x02]) ++ turns (STake "n1") "n1" 1 ++
  turns (SDeliver 8) "n2" 3 ++ asks 2 (Command.Get "a") ++
  turns (SDeliver 10) "n1" 3 ++ [SAnswer 0] ++
  asks 0 (Command.Del ["a"; "b"]) ++ turns (STake "n1") "n1" 1 ++
  turns (SDeliver 11) "n2" 3 ++ turns (SDeliver 13) "n1" 1 ++
  asks 1 (Command.Get "a") ++ asks 1 (Command.Get "b") ++
  [SJob "n1"] ++ asks 1 (Command.Get "b") ++ [SJob "n1"; SJob "n1"; SAnswer 0].

Definition observed (acts : list saction) (m : nat) : list obs :=
  seen plain_error no_debug acts open_three m.

(** Half a DEL is seen: [a] gone, [b] still there. *)
Lemma clients_see_one_order_witness :
  match srun plain_error no_debug client_run open_three with
  | Some _ => ∃ ws part,
      Null = value_reply (Storage.get (after ws (part 29%nat "n2") Memory.new) "a") ∧
      Bulk [x01] = value_reply (Storage.get (after ws (part 39%nat "n2") Memory.new) "a") ∧
      Null = value_reply (Storage.get (after ws (part 56%nat "n1") Memory.new) "a") ∧
      Bulk [x02] = value_reply (Storage.get (after ws (part 58%nat "n1") Memory.new) "b") ∧
      Null = value_reply (Storage.get (after ws (part 61%nat "n1") Memory.new) "b") ∧
      ∃ p p' cmd cmd', ws !! p = Some (0%nat, cmd) ∧ ws !! p' = Some (2%nat, cmd') ∧
        (p < p')%nat ∧ (extent ws (S p') ≤ part 64%nat "n1")%nat
  | None => False
  end.
Proof.
  destruct (srun plain_error no_debug client_run open_three) as [sv|] eqn:Hr;
    [|vm_compute in Hr; discriminate Hr].
  destruct (clients_see_one_order plain_error no_debug Memory.new client_run open_three sv
    open_three_fresh Hr) as (ws & part & _ & _ & _ & Hgot & Htold).
  assert (observed client_run 29 = [Got 2 "n2" "a" Null] ∧
    observed client_run 39 = [Got 2 "n2" "a" (Bulk [x01])] ∧
    observed client_run 56 = [Got 1 "n1" "a" Null] ∧
    observed client_run 58 = [Got 1 "n1" "b" (Bulk [x02])] ∧
    observed client_run 61 = [Got 1 "n1" "b" Null] ∧
    observed client_run 27 = [Told 0 "n1" 0 (Simple "OK")] ∧
    observed client_run 46 = [Asked 0 "n1" 2 (Apply.Del ["a"; "b"])] ∧
    observed client_run 64 = [Told 0 "n1" 2 (Integer 1)])
    as (H29 & H39 & H56 & H58 & H61 & H27 & H46 & H64) by (vm_compute; split_and!; reflexivity).
  unfold observed in *. exists ws, part.
  split; [apply (Hgot _ 2%nat); rewrite H29; left|].
  split; [apply (Hgot _ 2%nat); rewrite H39; left|].
  split; [apply (Hgot _ 1%nat); rewrite H56; left|].
  split; [apply (Hgot _ 1%nat); rewrite H58; left|].
  split; [apply (Hgot _ 1%nat); rewrite H61; left|].
  destruct (Htold 27%nat 0%nat "n1" 0%nat (Simple "OK")) as (p & cmd & Hp & _ & Hlater);
    [rewrite H27; left|by left|].
  destruct (Htold 64%nat 0%nat "n1" 2%nat (Integer 1)) as (p' & cmd' & Hp' & Hext & _);
    [rewrite H64; left|by right|].
  exists p, p', cmd, cmd'. split; [exact Hp|]. split; [exact Hp'|]. split; [|exact Hext].
  apply (Hlater 46%nat 0%nat "n1" 2%nat (Apply.Del ["a"; "b"]) cmd'); [lia|rewrite H46; left|exact Hp'].
Defined.

(** ["n1"] is elected and then cut off; ["n2"] is elected by ["n3"], takes a
    write and has it committed; ["n1"], which still leads its own term, is asked
    for the key. *)
Definition stale_run : list saction :=
  [SConnect 0 "n1"; SConnect 1 "n2"] ++
  mjoin (replicate 5 (turns (STick "n1") "n1" 1)) ++
  turns (SDeliver 0) "n2" 1 ++ turns (SDeliver 2) "n1" 1 ++
  mjoin (replicate 5 (turns (STick "n2") "n2" 1)) ++
  turns (SDeliver 6) "n3" 1 ++ turns (SDeliver 7) "n2" 1 ++
  asks 1 (Command.Set_ "a" [x01]) ++ turns (STake "n2") "n2" 1 ++
  turns (SDeliver 11) "n3" 1 ++ turns (SDeliver 12) "n2" 3 ++ [SAnswer 1] ++
  asks 0 (Command.Get "a").

(** [C35] Reads from a leader are not linearizable: GET is answered from the
    server's own store without asking anyone whether the server still leads. In
    this faithful run client [1] is told OK for a write, and a later read of the
    key by client [0], at a server whose node is a leader, finds nothing. *)
Theorem stale_leader_read :
  fresh_service Memory.new open_three ∧
  (∃ sv, srun plain_error no_debug stale_run open_three = Some sv ∧
     (role ∘ node ∘ task <$> hosts sv !! "n1") = Some Leader) ∧
  observed stale_run 31 = [Asked 1 "n2" 0 (Apply.Set_ "a" [x01])] ∧
  observed stale_run 40 = [Told 1 "n2" 0 (Simple "OK")] ∧
  observed stale_run 42 = [Got 0 "n1" "a" Null].
Proof.
  split; [exact open_three_fresh|]. split; [|by vm_compute].
  destruct (srun plain_error no_debug stale_run open_three) as [sv|] eqn:Hr;
    [|vm_compute in Hr; discriminate Hr].
  exists sv. split; [done|].
  assert ((sv ← srun plain_error no_debug stale_run open_three;
    role ∘ node ∘ task <$> hosts sv !! "n1") = Some Leader) as Hl by (vm_compute; reflexivity).
  by rewrite Hr in Hl.
Qed.
End Runs.
