(* ===== verification/Config.v ===== *)
(** * Configuration ([src/config.rs])

    The configuration record, the default address of the Raft transport and
    the parser of [--peer] entries. Reading the flags is [clap]'s. *)

From S2P Require Import Prelude Errors.
Local Open Scope N_scope.

(** ** [std::net::SocketAddr]

    Only its port and its parser are used: the rest of the address is a
    parameter, with what [set_port] promises. *)
Class SocketAddrs := {
  SocketAddr : Type;
  port : SocketAddr → N;
  set_port : N → SocketAddr → SocketAddr;
  parse_addr : string → SocketAddr + string;
}.

Class SocketAddrLaws `{SocketAddrs} := {
  port_bounds a : port a < 65536;
  port_set_port p a : p < 65536 → port (set_port p a) = p;
}.

Section Config.
Context `{SocketAddrs}.

(** A peer entry parsed from [--peer id=host:port]. *)
Record Peer := mkPeer {
  peer_id : string;
  peer_addr : SocketAddr;
}.

(** [raft_addr_flag] is the field [raft_addr]; paths are their text. *)
Record Config := mkConfig {
  id : string;
  addr : SocketAddr;
  raft_addr_flag : option SocketAddr;
  data_dir : string;
  join : option SocketAddr;
  peers : list Peer;
  metrics_addr : option SocketAddr;
  tls : bool;
  tls_cert : option string;
  tls_key : option string;
}.

(** [u16::wrapping_add] *)
Definition wadd16 (a b : N) : N := (a + b) `mod` 65536.

Definition raft_addr (c : Config) : SocketAddr :=
  match raft_addr_flag c with
  | Some a => a
  | None => set_port (wadd16 (port (addr c)) 10000) (addr c)
  end.

(** [split_once('=')] on the bytes. *)
Fixpoint split_once (sep : Byte.byte) (b : bytes) : option (bytes * bytes) :=
  match b with
  | [] => None
  | x :: b =>
      if decide (x = sep) then Some ([], b)
      else '(l, r) ← split_once sep b; Some (x :: l, r)
  end.

Definition parse_peer (raw : string) : Peer + string :=
  match split_once x3d (as_bytes raw) with
  | None => inr ("expected `id=host:port`, got `" +:+ raw +:+ "`")
  | Some (id, address) =>
      match parse_addr (of_bytes address) with
      | inl a => inl (mkPeer (of_bytes id) a)
      | inr e => inr ("invalid peer address `" +:+ of_bytes address +:+ "`: " +:+ e)
      end
  end.

(** ** Theory *)
Lemma split_once_Some sep b l r :
  split_once sep b = Some (l, r) ↔ b = l ++ sep :: r ∧ sep ∉ l.
Proof.
  revert l. induction b as [|x b IH]; intros l; cbn.
  { split; [done|]. intros [Hb _]. by destruct l. }
  case_decide as Hx.
  - subst x. split; [intros [= <- <-]; split; [done|set_solver]|].
    intros [Hb Hl]. destruct l as [|y l]; [by simplify_eq/=|]. simplify_eq/=. set_solver.
  - destruct (split_once sep b) as [[l' r']|]; cbn; split.
    + intros [= <- <-]. destruct (proj1 (IH l') eq_refl) as [-> Hl]. set_solver.
    + intros [Hb Hl]. destruct l as [|y l]; simplify_eq/=.
      apply not_elem_of_cons in Hl as [_ Hl]. pose proof (proj2 (IH l) (conj eq_refl Hl)). by simplify_eq.
    + done.
    + intros [Hb Hl]. destruct l as [|y l]; simplify_eq/=.
      apply not_elem_of_cons in Hl as [_ Hl].
      by specialize (proj2 (IH l) (conj eq_refl Hl)).
Qed.

(** [parse_peer] accepts exactly the strings [id=address] with no ['='] in
    the id and an address [SocketAddr] accepts, and returns these two parts;
    in particular it inverts the format for every id without ['=']. *)
Theorem parse_peer_spec raw p :
  parse_peer raw = inl p ↔
  ∃ address, raw = (peer_id p +:+ ("=" +:+ address)) ∧ x3d ∉ as_bytes (peer_id p) ∧
    parse_addr address = inl (peer_addr p).
Proof.
  unfold parse_peer. split.
  - destruct (split_once x3d (as_bytes raw)) as [[l r]|] eqn:Hs; [|done].
    apply split_once_Some in Hs as [Hraw Hl].
    destruct (parse_addr (of_bytes r)) as [a|e] eqn:Ha; [|done]. intros [= <-]. cbn [peer_id peer_addr].
    exists (of_bytes r). split_and!; [|by rewrite as_of_bytes|done].
    apply as_bytes_inj. rewrite !as_bytes_app, !as_of_bytes. exact Hraw.
  - intros (address & -> & Hl & Ha).
    assert (split_once x3d (as_bytes (peer_id p +:+ "=" +:+ address)) =
      Some (as_bytes (peer_id p), as_bytes address)) as ->.
    { apply split_once_Some. rewrite !as_bytes_app. done. }
    rewrite !of_as_bytes, Ha. by destruct p.
Qed.

Context `{!SocketAddrLaws}.

(** The Raft address is the configured one; without it, the client address
    with a port 10000 above that wraps: always another port than the client's,
    below 10000 from client port 55536 on, and port 0 - which the system
    replaces by any free port, unknown to the peers - for port 55536. *)
Theorem raft_addr_spec c :
  match raft_addr_flag c with
  | Some a => raft_addr c = a
  | None =>
      port (raft_addr c) < 65536 ∧ port (raft_addr c) ≠ port (addr c) ∧
      (port (addr c) < 55536 ↔ port (raft_addr c) = port (addr c) + 10000) ∧
      (port (raft_addr c) = 0 ↔ port (addr c) = 55536)
  end.
Proof.
  unfold raft_addr. destruct (raft_addr_flag c) as [a|]; [done|].
  pose proof (port_bounds (addr c)) as Hb.
  assert (wadd16 (port (addr c)) 10000 =
    if decide (port (addr c) < 55536) then port (addr c) + 10000 else port (addr c) - 55536) as Hw.
  { unfold wadd16. case_decide; [by apply N.mod_small; lia|].
    symmetry. apply (N.mod_unique _ _ 1); lia. }
  rewrite port_set_port by (rewrite Hw; case_decide; lia). rewrite Hw. case_decide; lia.
Qed.
End Config.

(** A concrete family of addresses: a port on one host. *)
Definition port_addrs : SocketAddrs :=
  {| SocketAddr := { p : N | (p <? 65536) = true };
     port a := `a;
     set_port p a := match decide ((p <? 65536) = true) with
                     | left Hp => p ↾ Hp
                     | right _ => a
                     end;
     parse_addr s := inr s |}.

Lemma port_addrs_laws : @SocketAddrLaws port_addrs.
Proof.
  split.
  - intros [p Hp]. cbn. by apply N.ltb_lt.
  - intros p a Hp. cbn. apply N.ltb_lt in Hp. by destruct (decide _).
Qed.

Lemma raft_addr_spec_witness :
  let a : @SocketAddr port_addrs := exist _ 55536 eq_refl in
  @port port_addrs (raft_addr (mkConfig "n1" a None "./data" None [] None false None None)) = 0.
Proof.
  pose proof (@raft_addr_spec port_addrs port_addrs_laws
    (@mkConfig port_addrs "n1" (exist _ 55536 eq_refl) None "./data" None [] None false None None)) as (_ & _ & _ & Hz).
  apply Hz. reflexivity.
Defined.
