(* ===== verification/UnitTests.v ===== *)
(** * The repository's own tests

    The [#[cfg(test)]] modules of the crate and [tests/simulation.rs],
    translated assertion by assertion and evaluated on the model: the
    definitions behave on these inputs as the tests demand of the code. The
    tests that draw timeouts use a generator that counts up from its seed in
    place of [rand]'s. *)

From S2P Require Import Prelude Text Errors Resp Storage Apply RaftLog RaftState RaftNode Server Sim.
From S2P Require Command Config Metrics.
Local Open Scope N_scope.

(** [unwrap] of a [Result]: a panic is no value. *)
Definition unwrap {A} (r : Result A) : option A :=
  match r with Ok a => Some a | Err _ => None end.

(** ** [protocol/command.rs] *)
Module CommandTests.
Import Command.

Definition cmd (parts : list string) : Result Command :=
  from_frame (λ _, "") (Array ((λ p, Bulk (as_bytes p)) <$> parts)).

Definition parses_set_get_del : Prop :=
  unwrap (cmd ["SET"; "k"; "v"]) = Some (Set_ "k" (as_bytes "v")) ∧
  unwrap (cmd ["get"; "k"]) = Some (Get "k") ∧
  unwrap (cmd ["DEL"; "a"; "b"]) = Some (Del ["a"; "b"]).

Definition wrong_arity {A} (r : Result A) : bool :=
  match r with Err (WrongArity _) => true | _ => false end.

Definition arity_is_enforced : Prop :=
  wrong_arity (cmd ["GET"]) = true ∧ wrong_arity (cmd ["SET"; "only-key"]) = true.

Definition cluster_subcommands : Prop :=
  unwrap (cmd ["CLUSTER"; "status"]) = Some ClusterStatus ∧
  unwrap (cmd ["cluster"; "MEMBERS"]) = Some ClusterMembers.

Definition writes_are_flagged : Prop :=
  is_write <$> unwrap (cmd ["SET"; "k"; "v"]) = Some true ∧
  is_write <$> unwrap (cmd ["GET"; "k"]) = Some false.

Definition all : Prop :=
  parses_set_get_del ∧ arity_is_enforced ∧ cluster_subcommands ∧ writes_are_flagged.
End CommandTests.

(** ** [protocol/resp.rs] *)
Module RespTests.
#[local] Existing Instance alloc32.

Definition bulk (s : string) : Frame := Bulk (as_bytes s).

Definition decoded_frame (d : decoded) : option Frame :=
  match d with Decoded (Ok f) _ => f | _ => None end.

Definition roundtrip (frame : Frame) : option Frame := decoded_frame (Resp.decode (Resp.encode frame [])).

Definition encodes_and_decodes_all_variants : Prop :=
  roundtrip (Simple "OK") = Some (Simple "OK") ∧
  roundtrip (Integer (-42)) = Some (Integer (-42)) ∧
  roundtrip (bulk "hello") = Some (bulk "hello") ∧
  roundtrip Null = Some Null ∧
  let arr := Array [bulk "SET"; bulk "k"; bulk "v"] in roundtrip arr = Some arr.

(** What is left in the buffer is decoded again with more bytes. *)
Definition partial_frame_returns_none : Prop :=
  match Resp.decode (as_bytes "$5" ++ CRLF ++ as_bytes "hel") with
  | Decoded r buf =>
      r = Ok None ∧
      match Resp.decode (buf ++ as_bytes "lo" ++ CRLF) with
      | Decoded r _ => r = Ok (Some (bulk "hello"))
      | _ => False
      end
  | _ => False
  end.

Definition inline_command_is_parsed_as_array : Prop :=
  decoded_frame (Resp.decode (as_bytes "PING hello" ++ CRLF)) = Some (Array [bulk "PING"; bulk "hello"]).

Definition all : Prop :=
  encodes_and_decodes_all_variants ∧ partial_frame_returns_none ∧
  inline_command_is_parsed_as_array.
End RespTests.

(** ** [raft/log.rs] *)
Module LogTests.
Definition entry (term : N) : LogEntry := mkEntry term [].

Definition log_of (ts : list N) : RaftLog := (append RaftLog.new (entry <$> ts)).2.

Definition append_and_index_math : Prop :=
  last_index RaftLog.new = 0 ∧
  let log := log_of [1; 1; 2] in
  last_index log = 3 ∧ last_term log = 2 ∧ term_at log 2 = Some 1.

Definition matches_respects_term : Prop :=
  let log := log_of [1; 3] in
  matches log 0 0 = true ∧ matches log 2 3 = true ∧ matches log 2 1 = false.

Definition splice_truncates_conflicts : Prop :=
  let log := (splice (log_of [1; 1; 2]) 1 [entry 1; entry 4]).2 in
  last_index log = 3 ∧ term_at log 3 = Some 4.

Definition splice_is_idempotent_for_matching_entries : Prop :=
  last_index (splice (log_of [1; 2]) 0 [entry 1; entry 2]).2 = 2.

Definition compaction_preserves_index_math : Prop :=
  let log := compact (log_of [1; 1; 2; 2]) 2 in
  first_index log = 3 ∧ last_index log = 4 ∧ term_at log 2 = Some 1 ∧
  term_at log 4 = Some 2 ∧ RaftLog.get log 1 = None.

Definition all : Prop :=
  append_and_index_math ∧ matches_respects_term ∧ splice_truncates_conflicts ∧
  splice_is_idempotent_for_matching_entries ∧ compaction_preserves_index_math.
End LogTests.

(** ** A generator for the tests: the seed counts up with every draw. *)
Definition counting_rng : Rng :=
  {| StdRng := N; seed_from_u64 s := s;
     gen_range lo hi r := (lo + r `mod` (hi - lo + 1), r + 1) |}.

(** ** [raft/node.rs] *)
Module NodeTests.
#[local] Existing Instance counting_rng.

Definition cfg (seed : N) : RaftConfig :=
  mkConfig (heartbeat_ticks default_config) (election_timeout_min default_config)
    (election_timeout_max default_config) (snapshot_threshold default_config) (Some seed).

Definition entropy : StdRng := 0.

Definition ticks (count : N) (n : RaftNode) : RaftNode := Nat.iter (N.to_nat count) tick n.

Definition single_node_elects_itself_and_commits : Prop :=
  match RaftNode.new entropy "n1" [] (cfg 1) with
  | Some node =>
      let node := ticks (election_timeout_max (config node)) node in
      is_leader node = true ∧
      let (node, idx) := propose (as_bytes "SET k v") node in
      idx = inl 1 ∧
      match ready_committed (take_ready node).2 with [CommittedCommand 1 _] => True | _ => False end
  | None => False
  end.

(** [ready.messages.first()] is a vote reply with this answer. *)
Definition first_vote (ready : Ready) : option bool :=
  match message <$> head (ready_messages ready) with
  | Some (MRequestVoteReply r) => Some (rvr_vote_granted r)
  | _ => None
  end.

Definition follower_grants_vote_once_per_term : Prop :=
  match RaftNode.new entropy "n1" ["n2"; "n3"] (cfg 2) with
  | Some node =>
      let node := step "n2" (MRequestVote (mkRequestVote 1 "n2" 0 0)) node in
      let (node, ready) := take_ready node in
      first_vote ready = Some true ∧
      let node := step "n3" (MRequestVote (mkRequestVote 1 "n3" 0 0)) node in
      first_vote (take_ready node).2 = Some false
  | None => False
  end.

Definition higher_term_forces_step_down : Prop :=
  match RaftNode.new entropy "n1" ["n2"] (cfg 3) with
  | Some node =>
      let node := ticks (election_timeout_max (config node)) node in
      let term_before := current_term node in
      let node := step "n2" (MAppendEntries (mkAppendEntries (term_before + 5) "n2" 0 0 [] 0)) node in
      role node = Follower ∧ current_term node = term_before + 5 ∧ leader_id node = Some "n2"
  | None => False
  end.

Definition all : Prop :=
  single_node_elects_itself_and_commits ∧ follower_grants_vote_once_per_term ∧
  higher_term_forces_step_down.
End NodeTests.

(** ** [sim.rs] and [tests/simulation.rs] *)
Module SimTests.
#[local] Existing Instance counting_rng.
#[local] Existing Instance canonical_iter.
#[local] Existing Instance DemoCodec.demo_json.

Abbreviation run_until := (run_until (λ _, "")).
Abbreviation sim_run := (sim_run (λ _, "")).

Definition set (key value : string) : WriteCommand := Set_ key (as_bytes value).

Definition has_leader (c : SimCluster) : bool := bool_decide (is_Some (sim_leader c)).
Definition has_leader_but (i : nat) (c : SimCluster) : bool :=
  match sim_leader c with Some l => bool_decide (l ≠ i) | None => false end.

(** [assert!(cluster.run_until(max, pred))] *)
Definition expect (max : nat) (pred : SimCluster → bool) (c : SimCluster) : option SimCluster :=
  let (found, c) := run_until max pred c in if found then Some c else None.

Definition holds (key value : string) (c : SimCluster) (i : nat) : Prop :=
  sim_get i key c = Some (Some (as_bytes value)).

Definition cluster_elects_a_single_leader : Prop :=
  is_Some (c ← sim_new 0 3 42; expect 100 has_leader c).

Definition writes_replicate_to_all_nodes : Prop :=
  match (c ← sim_new 0 3 7; c ← expect 100 has_leader c; leader ← sim_leader c;
         '(_, c) ← sim_propose leader (set "hello" "world") c; Some (sim_run 30 c)) with
  | Some c => Forall (holds "hello" "world" c) (seq 0 (sim_size c))
  | None => False
  end.

Definition cluster_survives_leader_crash : Prop :=
  match (c ← sim_new 0 5 100; c ← expect 200 has_leader c; leader ← sim_leader c;
         '(_, c) ← sim_propose leader (set "before" "crash") c;
         c ← crash leader (sim_run 40 c);
         c ← expect 300 (has_leader_but leader) c; new_leader ← sim_leader c;
         '(index, c) ← sim_propose new_leader (set "after" "failover") c;
         _ ← index; Some (leader, sim_run 60 c)) with
  | Some (leader, c) =>
      Forall (λ i, i = leader ∨ (holds "before" "crash" c i ∧ holds "after" "failover" c i))
        (seq 0 (sim_size c))
  | None => False
  end.

Definition minority_partition_cannot_make_progress : Prop :=
  match (c ← sim_new 0 3 55; c ← expect 200 has_leader c; c ← disconnect 0 c;
         expect 300 (has_leader_but 0) c) with
  | Some c =>
      sim_leader c ≠ Some 0%nat ∧
      match reconnect 0 c with Some c => is_Some (sim_leader (sim_run 60 c)) | None => False end
  | None => False
  end.

Definition all : Prop :=
  cluster_elects_a_single_leader ∧ writes_replicate_to_all_nodes ∧
  cluster_survives_leader_crash ∧ minority_partition_cannot_make_progress.
End SimTests.

(** ** [storage/memory.rs] *)
Module MemoryTests.
#[local] Existing Instance canonical_iter.
Import Storage.

Definition set_get_del_cycle : Prop :=
  let engine := Memory.new in
  is_empty engine = true ∧
  let engine := Storage.set engine "k" (as_bytes "v") in
  Storage.get engine "k" = Some (as_bytes "v") ∧ len engine = 1%nat ∧
  let (engine, existed) := del engine "k" in
  existed = true ∧
  let (engine, existed) := del engine "k" in
  existed = false ∧ Storage.get engine "k" = None.

Definition snapshot_and_restore_roundtrip : Prop :=
  let engine := Storage.set (Storage.set Memory.new "a" (as_bytes "1")) "b" (as_bytes "2") in
  let restored := restore Memory.new (snapshot engine) in
  len restored = 2%nat ∧ Storage.get restored "a" = Some (as_bytes "1").

Definition all : Prop := set_get_del_cycle ∧ snapshot_and_restore_roundtrip.
End MemoryTests.

(** ** [apply.rs] *)
Module ApplyTests.
#[local] Existing Instance canonical_iter.
#[local] Existing Instance DemoCodec.demo_json.

Definition encode_decode_roundtrip : Prop :=
  let cmd := Set_ "k" (as_bytes "v") in
  Apply.decode (λ _, "") (Apply.encode cmd) = Ok cmd.

Definition apply_mutates_engine : Prop :=
  let engine := (apply (Set_ "k" (as_bytes "v")) Storage.Memory.new).1 in
  Storage.get engine "k" = Some (as_bytes "v") ∧
  (apply (Del ["k"; "missing"]) engine).2 = 1%Z.

Definition all : Prop := encode_decode_roundtrip ∧ apply_mutates_engine.
End ApplyTests.

(** ** [metrics.rs] *)
Module MetricsTests.
(** [text.contains(..)] *)
Fixpoint contains (part text : bytes) : bool :=
  bool_decide (is_Some (Metrics.strip_prefix part text)) ||
  match text with [] => false | _ :: text => contains part text end.

(** [MetricsInner::set_i64(&m.is_leader, value)] *)
Definition set_is_leader (value : Z) (m : Metrics.MetricsInner) : Metrics.MetricsInner :=
  Metrics.mkMetrics (Metrics.gets_total m) (Metrics.sets_total m) (Metrics.dels_total m)
    (Metrics.not_leader_total m) (Metrics.elections_won_total m) (Metrics.m_current_term m)
    value (Metrics.m_commit_index m) (Metrics.m_log_len m).

Definition render_includes_all_series : Prop :=
  let m := set_is_leader 1 (Metrics.incr_sets Metrics.new) in
  let text := Metrics.render m in
  contains (as_bytes "ferrium_sets_total 1") text = true ∧
  contains (as_bytes "ferrium_is_leader 1") text = true ∧
  contains (as_bytes "ferrium_gets_total 0") text = true.
End MetricsTests.

(** ** [config.rs] *)
Module ConfigTests.

(** Addresses as [host:port] text. *)
Definition parse_host_port (s : string) : (bytes * N) + string :=
  match Config.split_once x3a (as_bytes s) with
  | Some (host, p) =>
      match parse_digits p with
      | Some p => if decide (p < 65536) then inl (host, p) else inr "invalid port"
      | None => inr "invalid port"
      end
  | None => inr "invalid socket address"
  end.

Definition host_ports : Config.SocketAddrs :=
  {| Config.SocketAddr := bytes * N; Config.port a := a.2; Config.set_port p a := (a.1, p);
     Config.parse_addr := parse_host_port |}.
#[local] Existing Instance host_ports.

Definition peer_parses_id_and_addr : Prop :=
  match Config.parse_peer "node2=127.0.0.1:16380" with
  | inl p => Config.peer_id p = "node2" ∧ Config.port (Config.peer_addr p) = 16380
  | inr _ => False
  end.

Definition peer_rejects_missing_separator : Prop :=
  match Config.parse_peer "garbage" with inl _ => False | inr _ => True end.

Definition raft_addr_offsets_client_port_by_default : Prop :=
  match Config.parse_addr "127.0.0.1:6379" with
  | inl addr =>
      let cfg := Config.mkConfig "n1" addr None "./data" None [] None false None None in
      Config.port (Config.raft_addr cfg) = 16379
  | inr _ => False
  end.

Definition all : Prop :=
  peer_parses_id_and_addr ∧ peer_rejects_missing_separator ∧
  raft_addr_offsets_client_port_by_default.
End ConfigTests.

(** The model passes the repository's tests: every assertion of the unit
    tests and of the simulation tests holds of the translated functions on the
    inputs the tests use. *)
Theorem unit_tests_pass :
  CommandTests.all ∧ RespTests.all ∧ LogTests.all ∧ NodeTests.all ∧ SimTests.all ∧
  MemoryTests.all ∧ ApplyTests.all ∧ MetricsTests.render_includes_all_series ∧ ConfigTests.all.
Proof.
  split_and!; vm_compute; split_and!; try reflexivity; try done; try by eexists.
  - by repeat constructor.
  - repeat (constructor; [first [by left | by right]|]). constructor.
Qed.
