(* ===== verification/Boot.v ===== *)
(** * Starting a server ([src/main.rs], [run] of [src/server.rs], [Peers::start])

    What [server::run] sets up from a [Config] before its loops take over: the
    listeners, the links, the node and its driver, the handle given to clients;
    the accept loop; the answer of the metrics endpoint. Servers whose
    configurations list each other form a cluster of [Cluster.v]. *)

From S2P Require Import Prelude Text Storage Errors Apply RaftLog RaftState RaftNode NodeTheory NodeProps Network Server ServerTheory Cluster.
From S2P Require Metrics Config.
Local Open Scope N_scope.

Abbreviation MemoryEngine := Storage.Memory.MemoryEngine.

(** ** [Peers::start]: a channel per peer id, a writer task per entry *)
Section Links.
Context `{Config.SocketAddrs}.

Definition peers_start (peers : list (NodeId * Config.SocketAddr))
    : gmap NodeId Config.SocketAddr * list (NodeId * Config.SocketAddr) :=
  foldl (λ acc p, (<[p.1 := p.2]> acc.1, acc.2 ++ [p])) (∅, []) peers.

Lemma peers_start_spec peers :
  dom (peers_start peers).1 = list_to_set peers.*1 ∧ (peers_start peers).2 = peers.
Proof.
  induction peers as [|p peers IH] using rev_ind; [done|]. destruct IH as [IH1 IH2].
  unfold peers_start in *. rewrite foldl_app. cbn [foldl fst snd].
  rewrite dom_insert_L, IH1, IH2, fmap_app, list_to_set_app_L. cbn. split; [set_solver|done].
Qed.
End Links.

(** ** [server::run] *)
Section Boot.
Context `{Rng} `{Json WriteCommand} `{!HashIter N (list waiter)} `{!HashIter string bytes}.
Context `{Config.SocketAddrs} (parse_error : bytes → string).
(** What the system answers to [TcpListener::bind]: an error or a listener. *)
Context (bind_error : Config.SocketAddr → option string).

Record running := mkRunning {
  raft_listener : Config.SocketAddr;
  peer_router : gmap NodeId Config.SocketAddr;
  driver : Driver MemoryEngine;
  metrics_endpoint : option Config.SocketAddr;
  node_id : string;
  members : list (string * Config.SocketAddr);
  client_listener : Config.SocketAddr;
}.

Definition peer_list (config : Config.Config) : list (NodeId * Config.SocketAddr) :=
  (λ p, (Config.peer_id p, Config.peer_addr p)) <$> Config.peers config.

(** [None] when [RaftNode::new] panics. *)
Definition server_run (entropy : StdRng) (config : Config.Config) : option (Result running) :=
  let peers := peer_list config in
  let peer_ids := peers.*1 in
  match bind_error (Config.raft_addr config) with
  | Some e => Some (Err (Io e))
  | None =>
      let peer_router := (peers_start peers).1 in
      node ← new entropy (Config.id config) peer_ids server_config;
      let driver := start node Storage.Memory.new peer_ids in
      let members := (Config.id config, Config.addr config) :: peers in
      match bind_error (Config.addr config) with
      | Some e => Some (Err (Io e))
      | None => Some (Ok (mkRunning (Config.raft_addr config) peer_router driver
                  (Config.metrics_addr config) (Config.id config) members (Config.addr config)))
      end
  end.

(** [main]: the seed node is only probed, then the server runs. *)
Definition main (reachable : Config.SocketAddr → bool) (entropy : StdRng)
    (config : Config.Config) : option bool * option (Result running) :=
  (reachable <$> Config.join config, server_run entropy config).

(** The configured ranges are not empty: starting never panics, and fails
    exactly when one of the two listeners cannot be bound. *)
Lemma server_run_total entropy config :
  bind_error (Config.raft_addr config) = None → bind_error (Config.addr config) = None →
  ∃ n, new entropy (Config.id config) (peer_list config).*1 server_config = Some n ∧
    server_run entropy config = Some (Ok (mkRunning (Config.raft_addr config)
      (peers_start (peer_list config)).1 (start n Storage.Memory.new (peer_list config).*1)
      (Config.metrics_addr config) (Config.id config)
      ((Config.id config, Config.addr config) :: peer_list config) (Config.addr config))).
Proof.
  intros Hr Hc. unfold server_run. rewrite Hr, Hc. unfold new. rewrite decide_True by done.
  eexists. split; reflexivity.
Qed.

(** ** [serve_clients] *)
Inductive accept_event :=
  | Accepted
  | AcceptFailed (message : string)
  | ShutdownSignal.

(** The connections taken, and the result once the loop has ended. *)
Fixpoint serve_clients (evs : list accept_event) : nat * option (Result ()) :=
  match evs with
  | [] => (0%nat, None)
  | Accepted :: evs => let (taken, r) := serve_clients evs in (S taken, r)
  | AcceptFailed e :: _ => (0%nat, Some (Err (Io e)))
  | ShutdownSignal :: _ => (0%nat, Some (Ok ()))
  end.

(** One failed accept ends the server, whatever would come later. *)
Lemma serve_clients_fails evs1 e evs2 :
  Forall (.= Accepted) evs1 →
  serve_clients (evs1 ++ AcceptFailed e :: evs2) = (length evs1, Some (Err (Io e))).
Proof. induction 1 as [|ev evs1 -> _ IH]; [done|]. cbn. by rewrite IH. Qed.

(** ** [serve_metrics]: the answer to any request *)
Definition crlf : bytes := [x0d; x0a].

Definition metrics_response (m : Metrics.MetricsInner) : bytes :=
  let body := Metrics.render m in
  as_bytes "HTTP/1.1 200 OK" ++ crlf ++
  as_bytes "Content-Type: text/plain; version=0.0.4" ++ crlf ++
  as_bytes "Content-Length: " ++ N_to_bytes (len64 body) ++ crlf ++
  as_bytes "Connection: close" ++ crlf ++ crlf ++ body.

(** ** Clusters from configurations *)

(** The servers of these configurations, each with its own entropy. *)
Definition boot_one (entropy : NodeId → StdRng) (config : Config.Config)
    : option (NodeId * Driver MemoryEngine) :=
  match server_run (entropy (Config.id config)) config with
  | Some (Ok r) => Some (node_id r, driver r)
  | _ => None
  end.

Definition boot_cluster (entropy : NodeId → StdRng) (configs : list Config.Config)
    : option (cluster MemoryEngine) :=
  ds ← mapM (boot_one entropy) configs;
  Some (mkCluster (list_to_map ds) []).

(** Distinct ids, and every configuration lists exactly the other servers. *)
Definition meshed (configs : list Config.Config) : Prop :=
  NoDup (Config.id <$> configs) ∧
  ∀ config, config ∈ configs →
    NoDup (peer_list config).*1 ∧
    ∀ j, j ∈ (peer_list config).*1 ↔ j ≠ Config.id config ∧ j ∈ Config.id <$> configs.

Lemma boot_one_spec entropy config :
  (∀ a, bind_error a = None) →
  ∃ n, new (entropy (Config.id config)) (Config.id config) (peer_list config).*1 server_config =
      Some n ∧
    boot_one entropy config =
      Some (Config.id config, start n Storage.Memory.new (peer_list config).*1).
Proof.
  intros Hb. destruct (server_run_total (entropy (Config.id config)) config) as (n & Hn & Hr);
    [done..|]. exists n. split; [done|]. unfold boot_one. by rewrite Hr.
Qed.

Lemma boot_all entropy configs :
  (∀ a, bind_error a = None) →
  ∃ ds, mapM (boot_one entropy) configs = Some ds ∧ ds.*1 = Config.id <$> configs ∧
    ∀ i d, (i, d) ∈ ds → ∃ config n, config ∈ configs ∧ i = Config.id config ∧
      new (entropy i) i (peer_list config).*1 server_config = Some n ∧
      d = start n Storage.Memory.new (peer_list config).*1.
Proof.
  intros Hb. induction configs as [|config configs (ds & Hds & Hids & Hin)].
  { exists []. split; [done|]. split; [done|]. intros i d Hd. by apply not_elem_of_nil in Hd. }
  destruct (boot_one_spec entropy config Hb) as (n & Hn & Hd). eexists. cbn. rewrite Hd, Hds. cbn.
  split; [reflexivity|]. split; [by cbn; rewrite Hids|].
  intros i d [[= -> ->]|Hi]%elem_of_cons.
  - exists config, n. split; [left|done].
  - destruct (Hin i d Hi) as (c & m & Hc & ?). exists c, m. split; [by right|done].
Qed.

(** [C22] Servers started from configurations with distinct ids that list each
    other are a cluster of replicas at their start, as the safety theorems of
    the cluster assume it: starting them does not panic, each server's node
    knows exactly the others, and all stores are empty. *)
Theorem configured_cluster_fresh entropy configs :
  (∀ a, bind_error a = None) → meshed configs →
  ∃ c, boot_cluster entropy configs = Some c ∧ fresh_servers c Storage.Memory.new ∧
    dom (drivers c) = list_to_set (Config.id <$> configs).
Proof.
  intros Hb [Hnd Hm]. destruct (boot_all entropy configs Hb) as (ds & Hds & Hids & Hin).
  unfold boot_cluster. rewrite Hds. eexists. split; [reflexivity|]. cbn [drivers].
  assert (dom (list_to_map ds : gmap NodeId (Driver MemoryEngine)) =
    list_to_set (Config.id <$> configs)) as Hdom by (by rewrite dom_list_to_map_L, Hids).
  split; [|exact Hdom]. split; [done|]. split; [split; [done|]|].
  - intros i n Hn. cbn [nodes] in *. unfold nodes_of in *. cbn [drivers] in *.
    rewrite lookup_fmap in Hn. apply fmap_Some in Hn as (d & Hd & ->).
    apply elem_of_list_to_map_2, Hin in Hd as (config & n & Hc & -> & Hn & ->).
    exists (entropy (Config.id config)), (peer_list config).*1, server_config.
    split; [exact Hn|]. rewrite dom_fmap_L, Hdom. destruct (Hm _ Hc) as [Hndp Hps].
    split; [done|]. intros j. rewrite Hps. by rewrite elem_of_list_to_set.
  - intros i d Hd. cbn [drivers] in Hd.
    by apply elem_of_list_to_map_2, Hin in Hd as (config & n & _ & _ & _ & ->).
Qed.
End Boot.

(** ** Two servers configured for each other *)
Section Example.
#[local] Existing Instance low_rng.
#[local] Existing Instance canonical_iter.
#[local] Existing Instance DemoCodec.demo_json.
#[local] Existing Instance Config.port_addrs.

Definition local_addr (p : N) (Hp : (p <? 65536) = true) : Config.SocketAddr := exist _ p Hp.

Definition pair_config (i j : NodeId) (a b : Config.SocketAddr) : Config.Config :=
  Config.mkConfig i a None "./data" None [Config.mkPeer j b] None false None None.

Definition pair_configs : list Config.Config :=
  let a := local_addr 6379 eq_refl in let b := local_addr 6380 eq_refl in
  [pair_config "n1" "n2" a b; pair_config "n2" "n1" b a].

Lemma configured_cluster_fresh_witness :
  ∃ c, boot_cluster (λ _, None) (λ _, low_state) pair_configs = Some c ∧
    fresh_servers c Storage.Memory.new ∧ dom (drivers c) = {["n1"; "n2"]}.
Proof.
  destruct (configured_cluster_fresh (λ _, None) (λ _, low_state) pair_configs) as (c & Hc & Hf & Hd).
  - done.
  - split; [by apply (bool_decide_unpack _)|].
    intros config [-> | [-> | Hn%not_elem_of_nil]%elem_of_cons]%elem_of_cons; [..|done].
    + split; [by apply (bool_decide_unpack _)|]. cbn. set_solver.
    + split; [by apply (bool_decide_unpack _)|]. cbn. set_solver.
  - exists c. split; [exact Hc|]. split; [exact Hf|]. rewrite Hd. cbn. set_solver.
Defined.
End Example.
